(** * Storage-layer core of the BusTub teaching database:
      LRU-K replacer, buffer pool manager, extendible hash table and
      B+ tree index, as shallow embeddings of the C++ sources, with the
      properties of the specification stated and settled over them. *)

From Stdlib Require Import ZArith List Bool Lia.
From stdpp Require Import base tactics option list gmap sorting.

Open Scope Z_scope.

(** Page and frame identifiers.  [page_id_t] is a 32-bit [int] in the
    source; [INVALID_PAGE_ID] is [-1] and [HEADER_PAGE_ID] is [0]
    (common/config.h).  Frame identifiers index the frame array and are
    kept as [nat]. *)
Abbreviation page_id_t := Z (only parsing).
Abbreviation frame_id_t := nat (only parsing).
Definition INVALID_PAGE_ID : page_id_t := -1.
Definition HEADER_PAGE_ID : page_id_t := 0.

(** [size_t] arithmetic: 64-bit, wrapping. *)
Definition size_t_wrap (z : Z) : Z := z mod 2 ^ 64.

(* ===================================================================== *)
(** ** buffer/lru_k_replacer.cpp *)
(* ===================================================================== *)

Module LRUK.

(** The per-frame descriptor of [entries_].  The iterator [pos_] is a
    handle on the frame's node in [inf_] or [kth_]; a list holds a frame
    at most once, so the handle is represented by the frame number
    itself. *)
Record Entry := mkEntry {
  hint_count_ : nat;
  is_evictable_ : bool
}.

Record LRUKReplacer := mkReplacer {
  entries_ : gmap nat Entry;
  inf_ : list frame_id_t;      (* fewer than k accesses, newest first *)
  kth_ : list frame_id_t;      (* k accesses or more, newest first *)
  curr_size_ : Z;              (* size_t *)
  replacer_size_ : nat;
  k_ : nat
}.

Section Replacer.

(** The declaration of [Entry] (lru_k_replacer.h) is not among the
    sources; the initial value of [is_evictable_] is taken as a
    parameter. *)
Variable default_evictable : bool.

Definition default_entry : Entry := mkEntry 0 default_evictable.

Definition LRUKReplacer_new (num_frames k : nat) : LRUKReplacer :=
  mkReplacer ∅ [] [] 0 num_frames k.

(** [entries_[f]] of [std::unordered_map]: default-constructs a missing
    entry. *)
Definition touch (f : frame_id_t) (es : gmap nat Entry) : gmap nat Entry :=
  match es !! f with
  | Some _ => es
  | None => <[f := default_entry]> es
  end.

Definition entry_of (f : frame_id_t) (es : gmap nat Entry) : Entry :=
  default default_entry (es !! f).

(** One reverse scan of [Evict]: the list is given back to front; the
    result is the first evictable frame with the list without it. *)
Fixpoint evict_scan (l : list frame_id_t) (es : gmap nat Entry)
  : option (frame_id_t * list frame_id_t) * gmap nat Entry :=
  match l with
  | [] => (None, es)
  | f :: l' =>
      let es1 := touch f es in
      if is_evictable_ (entry_of f es1) then (Some (f, l'), es1)
      else
        let '(r, es2) := evict_scan l' es1 in
        (match r with
         | Some (g, rest) => Some (g, f :: rest)
         | None => None
         end, es2)
  end.

Definition Evict (r : LRUKReplacer) : LRUKReplacer * option frame_id_t :=
  let '(o1, es1) := evict_scan (reverse (inf_ r)) (entries_ r) in
  match o1 with
  | Some (f, rest) =>
      (mkReplacer (delete f es1) (reverse rest) (kth_ r)
                  (size_t_wrap (curr_size_ r - 1)) (replacer_size_ r) (k_ r),
       Some f)
  | None =>
      let '(o2, es2) := evict_scan (reverse (kth_ r)) es1 in
      match o2 with
      | Some (f, rest) =>
          (mkReplacer (delete f es2) (inf_ r) (reverse rest)
                      (size_t_wrap (curr_size_ r - 1)) (replacer_size_ r) (k_ r),
           Some f)
      | None =>
          (mkReplacer es2 (inf_ r) (kth_ r) (curr_size_ r)
                      (replacer_size_ r) (k_ r), None)
      end
  end.

(** [list.erase(pos_)]: unlinks the frame's node.  Erasing through a
    handle that is not in the list is undefined in C++: [None]. *)
Fixpoint erase_pos (f : frame_id_t) (l : list frame_id_t) : option (list frame_id_t) :=
  match l with
  | [] => None
  | g :: l' =>
      if decide (g = f) then Some l'
      else match erase_pos f l' with
           | Some r => Some (g :: r)
           | None => None
           end
  end.

(** [None]: [std::invalid_argument] was thrown, or undefined behaviour.
    The test [frame_id > static_cast<int>(replacer_size_)] is made on
    natural numbers: frame ids are not negative here, and the two sides
    are those of the source as long as [replacer_size_ < 2^31]. *)
Definition RecordAccess (r : LRUKReplacer) (f : frame_id_t) : option LRUKReplacer :=
  if decide (replacer_size_ r < f)%nat then None
  else
    let es1 := touch f (entries_ r) in
    let e := entry_of f es1 in
    let nums_hint := S (hint_count_ e) in
    let es2 := <[f := mkEntry nums_hint (is_evictable_ e)]> es1 in
    if decide (nums_hint = 1%nat) then
      Some (mkReplacer es2 (f :: inf_ r) (kth_ r)
                       (size_t_wrap (curr_size_ r + 1)) (replacer_size_ r) (k_ r))
    else if decide (nums_hint = k_ r) then
      match erase_pos f (inf_ r) with
      | Some inf' =>
          Some (mkReplacer es2 inf' (f :: kth_ r) (curr_size_ r)
                           (replacer_size_ r) (k_ r))
      | None => None
      end
    else if decide (k_ r < nums_hint)%nat then
      match erase_pos f (kth_ r) with
      | Some kth' =>
          Some (mkReplacer es2 (inf_ r) (f :: kth') (curr_size_ r)
                           (replacer_size_ r) (k_ r))
      | None => None
      end
    else
      Some (mkReplacer es2 (inf_ r) (kth_ r) (curr_size_ r)
                       (replacer_size_ r) (k_ r)).

Definition SetEvictable (r : LRUKReplacer) (f : frame_id_t) (set_evictable : bool)
  : option LRUKReplacer :=
  if decide (replacer_size_ r < f)%nat then None
  else
    match entries_ r !! f with
    | None => Some r
    | Some e =>
        if Bool.eqb (is_evictable_ e) set_evictable then Some r
        else if set_evictable then
          Some (mkReplacer (<[f := mkEntry (hint_count_ e) true]> (entries_ r))
                           (inf_ r) (kth_ r) (size_t_wrap (curr_size_ r + 1))
                           (replacer_size_ r) (k_ r))
        else
          Some (mkReplacer (<[f := mkEntry (hint_count_ e) false]> (entries_ r))
                           (inf_ r) (kth_ r) (size_t_wrap (curr_size_ r - 1))
                           (replacer_size_ r) (k_ r))
    end.

Definition Remove (r : LRUKReplacer) (f : frame_id_t) : option LRUKReplacer :=
  if decide (replacer_size_ r < f)%nat then None
  else
    match entries_ r !! f with
    | None => Some r
    | Some e =>
        if negb (is_evictable_ e) then Some r
        else if decide (hint_count_ e < k_ r)%nat then
          match erase_pos f (inf_ r) with
          | Some inf' =>
              Some (mkReplacer (delete f (entries_ r)) inf' (kth_ r)
                               (size_t_wrap (curr_size_ r - 1))
                               (replacer_size_ r) (k_ r))
          | None => None
          end
        else
          match erase_pos f (kth_ r) with
          | Some kth' =>
              Some (mkReplacer (delete f (entries_ r)) (inf_ r) kth'
                               (size_t_wrap (curr_size_ r - 1))
                               (replacer_size_ r) (k_ r))
          | None => None
          end
    end.

Definition Size (r : LRUKReplacer) : Z := curr_size_ r.

(** Runs of operations, for the scenarios of the specification. *)
Fixpoint record_all (r : LRUKReplacer) (fs : list frame_id_t) : option LRUKReplacer :=
  match fs with
  | [] => Some r
  | f :: fs' => r' ← RecordAccess r f; record_all r' fs'
  end.

Fixpoint set_all (r : LRUKReplacer) (fs : list frame_id_t) (b : bool) : option LRUKReplacer :=
  match fs with
  | [] => Some r
  | f :: fs' => r' ← SetEvictable r f b; set_all r' fs' b
  end.

Fixpoint evict_n (n : nat) (r : LRUKReplacer) : LRUKReplacer * list (option frame_id_t) :=
  match n with
  | O => (r, [])
  | S n' => let '(r1, o) := Evict r in
            let '(r2, os) := evict_n n' r1 in (r2, o :: os)
  end.

(** The scenario of the specification: [k = 2], seven frames, accesses
    1,2,3,1,2,3,1,2, every frame marked evictable, three evictions. *)
Definition scenario : option (list (option frame_id_t) * Z) :=
  r1 ← record_all (LRUKReplacer_new 7 2) [1; 2; 3; 1; 2; 3; 1; 2]%nat;
  r2 ← set_all r1 [1; 2; 3]%nat true;
  let '(r3, os) := evict_n 3 r2 in
  Some (os, Size r3).

End Replacer.

(** *** Consistency of the replacer's lists and descriptors *)

Section ReplacerFacts.

Variable default_evictable : bool.

(** Every descriptor counts at least one access, [inf_] holds exactly the
    frames below [k] accesses and [kth_] the others, without repetition. *)
Record rep_inv (r : LRUKReplacer) : Prop := {
  ri_k : (2 ≤ k_ r)%nat;
  ri_nodup_inf : NoDup (inf_ r);
  ri_nodup_kth : NoDup (kth_ r);
  ri_inf : ∀ f, f ∈ inf_ r ↔ ∃ e, entries_ r !! f = Some e ∧ (hint_count_ e < k_ r)%nat;
  ri_kth : ∀ f, f ∈ kth_ r ↔ ∃ e, entries_ r !! f = Some e ∧ (k_ r ≤ hint_count_ e)%nat;
  ri_count : ∀ f e, entries_ r !! f = Some e → (1 ≤ hint_count_ e)%nat
}.

Lemma rep_inv_new n k : (2 ≤ k)%nat → rep_inv (LRUKReplacer_new n k).
Proof.
  intros Hk. split; simpl; try done; try apply NoDup_nil_2;
    intros f; (split; [intros H; inversion H | intros (e & He & _); by rewrite lookup_empty in He]).
Qed.

Lemma NoDup_reverse {A} (l : list A) : NoDup (reverse l) ↔ NoDup l.
Proof. by rewrite reverse_Permutation. Qed.

Lemma erase_pos_elem f l : f ∈ l → ∃ l', erase_pos f l = Some l'.
Proof.
  induction l as [|g l IH]; intros Hin; [inversion Hin|].
  simpl. destruct (decide (g = f)) as [->|Hne]; [eauto|].
  apply elem_of_cons in Hin as [->|Hin]; [done|].
  destruct (IH Hin) as [l' ->]. eauto.
Qed.

Lemma erase_pos_spec f l l' :
  erase_pos f l = Some l' → NoDup l →
  NoDup l' ∧ ∀ g, g ∈ l' ↔ g ∈ l ∧ g ≠ f.
Proof.
  revert l'. induction l as [|g l IH]; intros l' He Hnd; [done|].
  simpl in He. apply NoDup_cons in Hnd as [Hg Hnd].
  destruct (decide (g = f)) as [->|Hne].
  - injection He as <-. split; [done|].
    intros x. rewrite elem_of_cons. split; [|naive_solver].
    intros Hx. split; [by right|]. intros ->. done.
  - destruct (erase_pos f l) as [r|] eqn:Er; [|done]. injection He as <-.
    destruct (IH r eq_refl Hnd) as [Hnd' Hiff]. split.
    + apply NoDup_cons. split; [|done]. rewrite Hiff. tauto.
    + intros x. rewrite !elem_of_cons, Hiff. naive_solver.
Qed.

Lemma touch_id f (es : gmap nat Entry) :
  is_Some (es !! f) → touch default_evictable f es = es.
Proof. intros [e He]. unfold touch. by rewrite He. Qed.

(** A scan over frames that all have a descriptor leaves [entries_] as it
    is; it fails exactly when no frame of the list is evictable. *)
Lemma evict_scan_spec l (es : gmap nat Entry) :
  (∀ f, f ∈ l → is_Some (es !! f)) → NoDup l →
  match evict_scan default_evictable l es with
  | (Some (g, rest), es') =>
      es' = es ∧ g ∈ l ∧ (∃ e, es !! g = Some e ∧ is_evictable_ e = true) ∧
      NoDup rest ∧ ∀ x, x ∈ rest ↔ x ∈ l ∧ x ≠ g
  | (None, es') =>
      es' = es ∧ ∀ f e, f ∈ l → es !! f = Some e → is_evictable_ e = false
  end.
Proof.
  induction l as [|f l IH]; intros Hall Hnd; simpl.
  { split; [done|]. intros f e Hf. inversion Hf. }
  apply NoDup_cons in Hnd as [Hf Hnd].
  assert (Hsf : is_Some (es !! f)) by (apply Hall; left).
  rewrite (touch_id _ _ Hsf). destruct Hsf as [e He].
  unfold entry_of. rewrite He. simpl.
  destruct (is_evictable_ e) eqn:Ev.
  - split; [done|]. split; [left|]. split; [eauto|]. split; [done|].
    intros x. rewrite elem_of_cons. split; [|naive_solver].
    intros Hx. split; [by right|]. intros ->. done.
  - assert (Hall' : ∀ g, g ∈ l → is_Some (es !! g)) by (intros g Hg; apply Hall; by right).
    specialize (IH Hall' Hnd).
    destruct (evict_scan default_evictable l es) as [[[g rest]|] es'].
    + destruct IH as (-> & Hg & Hev & Hnd' & Hiff).
      split; [done|]. split; [by right|]. split; [done|]. split.
      * apply NoDup_cons. split; [|done]. rewrite Hiff. tauto.
      * intros x. rewrite !elem_of_cons, Hiff.
        split; [|naive_solver]. intros [->|[Hx Hxg]]; [|tauto].
        split; [by left|]. intros ->. done.
    + destruct IH as (-> & Hnone). split; [done|].
      intros x e' Hx He'. apply elem_of_cons in Hx as [->|Hx]; [congruence|].
      by eapply Hnone.
Qed.

Lemma rep_inv_listed r f e :
  rep_inv r → entries_ r !! f = Some e → f ∈ inf_ r ∨ f ∈ kth_ r.
Proof.
  intros Hr He. destruct (decide (hint_count_ e < k_ r)%nat).
  - left. apply (ri_inf _ Hr). eauto.
  - right. apply (ri_kth _ Hr). exists e. split; [done|lia].
Qed.

Lemma Evict_spec r :
  rep_inv r →
  match Evict default_evictable r with
  | (r', Some f) =>
      (∃ e, entries_ r !! f = Some e ∧ is_evictable_ e = true) ∧
      entries_ r' = delete f (entries_ r) ∧ rep_inv r' ∧
      replacer_size_ r' = replacer_size_ r ∧ k_ r' = k_ r
  | (r', None) =>
      r' = r ∧ ∀ f e, entries_ r !! f = Some e → is_evictable_ e = false
  end.
Proof.
  intros Hr. unfold Evict.
  assert (Hinf : ∀ f, f ∈ reverse (inf_ r) → is_Some (entries_ r !! f)).
  { intros f Hf. apply elem_of_reverse, (ri_inf _ Hr) in Hf as (e & -> & _). eauto. }
  assert (Hkth : ∀ f, f ∈ reverse (kth_ r) → is_Some (entries_ r !! f)).
  { intros f Hf. apply elem_of_reverse, (ri_kth _ Hr) in Hf as (e & -> & _). eauto. }
  pose proof (evict_scan_spec _ _ Hinf (proj2 (NoDup_reverse _) (ri_nodup_inf _ Hr))) as H1.
  destruct (evict_scan default_evictable (reverse (inf_ r)) (entries_ r)) as [[[f rest]|] es1].
  - destruct H1 as (-> & Hf & (e & He & Hev) & Hnd & Hiff). simpl.
    split; [eauto|]. split; [done|]. split; [|done].
    apply elem_of_reverse, (ri_inf _ Hr) in Hf as (e' & He' & Hlt).
    split; simpl.
    + apply Hr.
    + by apply NoDup_reverse.
    + apply Hr.
    + intros x. rewrite elem_of_reverse, Hiff, elem_of_reverse, (ri_inf _ Hr). split.
      * intros [(ex & Hex & Hx) Hne]. exists ex. by rewrite lookup_delete_ne.
      * intros (ex & Hex & Hx). apply lookup_delete_Some in Hex as [Hne Hex]. eauto.
    + intros x. rewrite (ri_kth _ Hr). split.
      * intros (ex & Hex & Hx). exists ex. split; [|done].
        rewrite lookup_delete_ne; [done|]. intros <-. rewrite He' in Hex. injection Hex as <-. lia.
      * intros (ex & Hex & Hx). apply lookup_delete_Some in Hex as [Hne Hex]. eauto.
    + intros x ex Hex. apply lookup_delete_Some in Hex as [Hne Hex]. by eapply (ri_count _ Hr).
  - destruct H1 as (-> & Hnone1).
    pose proof (evict_scan_spec _ _ Hkth (proj2 (NoDup_reverse _) (ri_nodup_kth _ Hr))) as H2.
    destruct (evict_scan default_evictable (reverse (kth_ r)) (entries_ r)) as [[[f rest]|] es2].
    + destruct H2 as (-> & Hf & (e & He & Hev) & Hnd & Hiff). simpl.
      split; [eauto|]. split; [done|]. split; [|done].
      apply elem_of_reverse, (ri_kth _ Hr) in Hf as (e' & He' & Hlt).
      split; simpl.
      * apply Hr.
      * apply Hr.
      * by apply NoDup_reverse.
      * intros x. rewrite (ri_inf _ Hr). split.
        -- intros (ex & Hex & Hx). exists ex. split; [|done].
           rewrite lookup_delete_ne; [done|]. intros <-. rewrite He' in Hex. injection Hex as <-. lia.
        -- intros (ex & Hex & Hx). apply lookup_delete_Some in Hex as [Hne Hex]. eauto.
      * intros x. rewrite elem_of_reverse, Hiff, elem_of_reverse, (ri_kth _ Hr). split.
        -- intros [(ex & Hex & Hx) Hne]. exists ex. by rewrite lookup_delete_ne.
        -- intros (ex & Hex & Hx). apply lookup_delete_Some in Hex as [Hne Hex]. eauto.
      * intros x ex Hex. apply lookup_delete_Some in Hex as [Hne Hex]. by eapply (ri_count _ Hr).
    + destruct H2 as (-> & Hnone2). split; [by destruct r|].
      intros f e He. destruct (rep_inv_listed _ _ _ Hr He) as [Hf|Hf].
      * eapply Hnone1; [|done]. by apply elem_of_reverse.
      * eapply Hnone2; [|done]. by apply elem_of_reverse.
Qed.

Lemma RecordAccess_spec r f :
  rep_inv r → (f ≤ replacer_size_ r)%nat →
  ∃ r' c, RecordAccess default_evictable r f = Some r' ∧ rep_inv r' ∧
    entries_ r' = <[f := mkEntry c (is_evictable_ (entry_of default_evictable f (entries_ r)))]> (entries_ r) ∧
    replacer_size_ r' = replacer_size_ r ∧ k_ r' = k_ r.
Proof.
  intros Hr Hf. unfold RecordAccess.
  destruct (decide (replacer_size_ r < f)%nat); [lia|].
  pose proof (ri_k _ Hr) as Hk.
  destruct (entries_ r !! f) as [e|] eqn:He.
  - rewrite (touch_id _ _ (mk_is_Some _ _ He)).
    unfold entry_of. rewrite He. simpl.
    pose proof (ri_count _ Hr _ _ He) as Hc.
    destruct (decide (S (hint_count_ e) = 1%nat)); [lia|].
    destruct (decide (S (hint_count_ e) = k_ r)) as [Hek|Hnk].
    + assert (Hin : f ∈ inf_ r) by (apply (ri_inf _ Hr); exists e; split; [done|lia]).
      destruct (erase_pos_elem _ _ Hin) as [inf' Hinf']. rewrite Hinf'.
      destruct (erase_pos_spec _ _ _ Hinf' (ri_nodup_inf _ Hr)) as [Hnd Hiff].
      eexists _, _. split; [done|]. split; [|done].
      split; simpl; try done.
      * apply NoDup_cons. split; [|apply Hr].
        rewrite (ri_kth _ Hr). intros (e' & He' & Hle). rewrite He in He'. injection He' as <-. lia.
      * intros x. rewrite Hiff, (ri_inf _ Hr). split.
        -- intros [(ex & Hex & Hx) Hne]. exists ex. by rewrite lookup_insert_ne.
        -- intros (ex & Hex & Hx). apply lookup_insert_Some in Hex as [[<- <-]|[Hne Hex]]; [simpl in Hx; lia|eauto].
      * intros x. rewrite elem_of_cons, (ri_kth _ Hr). split.
        -- intros [->|(ex & Hex & Hx)].
           ++ eexists. rewrite lookup_insert_eq. split; [done|simpl; lia].
           ++ destruct (decide (f = x)) as [->|Hne].
              ** eexists. rewrite lookup_insert_eq. split; [done|simpl; lia].
              ** exists ex. by rewrite lookup_insert_ne.
        -- intros (ex & Hex & Hx). apply lookup_insert_Some in Hex as [[<- <-]|[Hne Hex]]; [by left|eauto].
      * intros x ex Hex. apply lookup_insert_Some in Hex as [[<- <-]|[Hne Hex]]; [simpl; lia|by eapply (ri_count _ Hr)].
    + destruct (decide (k_ r < S (hint_count_ e))%nat) as [Hgt|Hle].
      * assert (Hin : f ∈ kth_ r) by (apply (ri_kth _ Hr); exists e; split; [done|lia]).
        destruct (erase_pos_elem _ _ Hin) as [kth' Hkth']. rewrite Hkth'.
        destruct (erase_pos_spec _ _ _ Hkth' (ri_nodup_kth _ Hr)) as [Hnd Hiff].
        eexists _, _. split; [done|]. split; [|done].
        split; simpl; try done; try apply Hr.
        -- apply NoDup_cons. split; [|done]. rewrite Hiff. tauto.
        -- intros x. rewrite (ri_inf _ Hr). split.
           ++ intros (ex & Hex & Hx). exists ex. split; [|done].
              rewrite lookup_insert_ne; [done|]. intros <-. rewrite He in Hex. injection Hex as <-. lia.
           ++ intros (ex & Hex & Hx). apply lookup_insert_Some in Hex as [[<- <-]|[Hne Hex]]; [simpl in Hx; lia|eauto].
        -- intros x. rewrite elem_of_cons, Hiff, (ri_kth _ Hr). split.
           ++ intros [->|[(ex & Hex & Hx) Hne]].
              ** eexists. rewrite lookup_insert_eq. split; [done|simpl; lia].
              ** exists ex. by rewrite lookup_insert_ne.
           ++ intros (ex & Hex & Hx). apply lookup_insert_Some in Hex as [[<- <-]|[Hne Hex]]; [by left|].
              right. split; [eauto|done].
        -- intros x ex Hex. apply lookup_insert_Some in Hex as [[<- <-]|[Hne Hex]]; [simpl; lia|by eapply (ri_count _ Hr)].
      * eexists _, _. split; [done|]. split; [|done].
        split; simpl; try done; try apply Hr.
        -- intros x. rewrite (ri_inf _ Hr). split.
           ++ intros (ex & Hex & Hx). destruct (decide (f = x)) as [->|Hne].
              ** eexists. rewrite lookup_insert_eq. split; [done|simpl; lia].
              ** exists ex. by rewrite lookup_insert_ne.
           ++ intros (ex & Hex & Hx). apply lookup_insert_Some in Hex as [[<- <-]|[Hne Hex]]; [|eauto].
              exists e. split; [done|lia].
        -- intros x. rewrite (ri_kth _ Hr). split.
           ++ intros (ex & Hex & Hx). exists ex. split; [|done].
              rewrite lookup_insert_ne; [done|]. intros <-. rewrite He in Hex. injection Hex as <-. lia.
           ++ intros (ex & Hex & Hx). apply lookup_insert_Some in Hex as [[<- <-]|[Hne Hex]]; [simpl in Hx; lia|eauto].
        -- intros x ex Hex. apply lookup_insert_Some in Hex as [[<- <-]|[Hne Hex]]; [simpl; lia|by eapply (ri_count _ Hr)].
  - unfold touch. rewrite He. unfold entry_of. rewrite lookup_insert_eq, He. simpl.
    rewrite insert_insert_eq.
    eexists _, _. split; [done|]. split; [|done].
    assert (Hninf : f ∉ inf_ r).
    { rewrite (ri_inf _ Hr). intros (e' & He' & _). congruence. }
    split; simpl; try done; try apply Hr.
    + apply NoDup_cons. split; [done|apply Hr].
    + intros x. rewrite elem_of_cons, (ri_inf _ Hr). split.
      * intros [->|(ex & Hex & Hx)].
        -- eexists. rewrite lookup_insert_eq. split; [done|simpl; lia].
        -- exists ex. split; [|done]. rewrite lookup_insert_ne; [done|]. intros <-. congruence.
      * intros (ex & Hex & Hx). apply lookup_insert_Some in Hex as [[<- <-]|[Hne Hex]]; [by left|eauto].
    + intros x. rewrite (ri_kth _ Hr). split.
      * intros (ex & Hex & Hx). exists ex. split; [|done].
        rewrite lookup_insert_ne; [done|]. intros <-. congruence.
      * intros (ex & Hex & Hx). apply lookup_insert_Some in Hex as [[<- <-]|[Hne Hex]]; [simpl in Hx; lia|eauto].
    + intros x ex Hex. apply lookup_insert_Some in Hex as [[<- <-]|[Hne Hex]]; [simpl; lia|by eapply (ri_count _ Hr)].
Qed.

Lemma rep_inv_flag r f e b :
  rep_inv r → entries_ r !! f = Some e →
  rep_inv (mkReplacer (<[f := mkEntry (hint_count_ e) b]> (entries_ r)) (inf_ r) (kth_ r)
                      (curr_size_ r) (replacer_size_ r) (k_ r)).
Proof.
  intros Hr He. split; simpl; try apply Hr.
  - intros x. rewrite (ri_inf _ Hr). split.
    + intros (ex & Hex & Hx). destruct (decide (f = x)) as [->|Hne].
      * eexists. rewrite lookup_insert_eq. split; [done|]. simpl. congruence.
      * exists ex. by rewrite lookup_insert_ne.
    + intros (ex & Hex & Hx). apply lookup_insert_Some in Hex as [[<- <-]|[Hne Hex]]; eauto.
  - intros x. rewrite (ri_kth _ Hr). split.
    + intros (ex & Hex & Hx). destruct (decide (f = x)) as [->|Hne].
      * eexists. rewrite lookup_insert_eq. split; [done|]. simpl. congruence.
      * exists ex. by rewrite lookup_insert_ne.
    + intros (ex & Hex & Hx). apply lookup_insert_Some in Hex as [[<- <-]|[Hne Hex]]; eauto.
  - intros x ex Hex. apply lookup_insert_Some in Hex as [[<- <-]|[Hne Hex]]; simpl; by eapply (ri_count _ Hr).
Qed.

Lemma rep_inv_size r z :
  rep_inv r →
  rep_inv (mkReplacer (entries_ r) (inf_ r) (kth_ r) z (replacer_size_ r) (k_ r)).
Proof. intros Hr. split; simpl; apply Hr. Qed.

Lemma SetEvictable_spec r f b :
  rep_inv r → (f ≤ replacer_size_ r)%nat →
  ∃ r', SetEvictable r f b = Some r' ∧ rep_inv r' ∧
    replacer_size_ r' = replacer_size_ r ∧ k_ r' = k_ r ∧
    match entries_ r !! f with
    | Some e => entries_ r' = <[f := mkEntry (hint_count_ e) b]> (entries_ r)
    | None => entries_ r' = entries_ r
    end.
Proof.
  intros Hr Hf. unfold SetEvictable.
  destruct (decide (replacer_size_ r < f)%nat); [lia|].
  destruct (entries_ r !! f) as [e|] eqn:He; [|by eauto 10].
  destruct (Bool.eqb (is_evictable_ e) b) eqn:Eb.
  - apply Bool.eqb_prop in Eb. subst b. exists r. split; [done|]. split; [done|].
    split; [done|]. split; [done|]. destruct e. simpl. by rewrite insert_id.
  - destruct b.
    + eexists. split; [done|]. split; [|done].
      apply (rep_inv_size (mkReplacer _ _ _ (curr_size_ r) _ _)), rep_inv_flag; done.
    + eexists. split; [done|]. split; [|done].
      apply (rep_inv_size (mkReplacer _ _ _ (curr_size_ r) _ _)), rep_inv_flag; done.
Qed.

Lemma Remove_spec r f e :
  rep_inv r → (f ≤ replacer_size_ r)%nat →
  entries_ r !! f = Some e → is_evictable_ e = true →
  ∃ r', Remove r f = Some r' ∧ rep_inv r' ∧
    replacer_size_ r' = replacer_size_ r ∧ k_ r' = k_ r ∧
    entries_ r' = delete f (entries_ r).
Proof.
  intros Hr Hf He Hev. unfold Remove.
  destruct (decide (replacer_size_ r < f)%nat); [lia|].
  rewrite He, Hev. simpl.
  destruct (decide (hint_count_ e < k_ r)%nat) as [Hlt|Hge].
  - assert (Hin : f ∈ inf_ r) by (apply (ri_inf _ Hr); eauto).
    destruct (erase_pos_elem _ _ Hin) as [inf' Hinf']. rewrite Hinf'.
    destruct (erase_pos_spec _ _ _ Hinf' (ri_nodup_inf _ Hr)) as [Hnd Hiff].
    eexists. split; [done|]. split; [|done].
    split; simpl; try done; try apply Hr.
    + intros x. rewrite Hiff, (ri_inf _ Hr). split.
      * intros [(ex & Hex & Hx) Hne]. exists ex. by rewrite lookup_delete_ne.
      * intros (ex & Hex & Hx). apply lookup_delete_Some in Hex as [Hne Hex]. eauto.
    + intros x. rewrite (ri_kth _ Hr). split.
      * intros (ex & Hex & Hx). exists ex. split; [|done].
        rewrite lookup_delete_ne; [done|]. intros <-. rewrite He in Hex. injection Hex as <-. lia.
      * intros (ex & Hex & Hx). apply lookup_delete_Some in Hex as [Hne Hex]. eauto.
    + intros x ex Hex. apply lookup_delete_Some in Hex as [Hne Hex]. by eapply (ri_count _ Hr).
  - assert (Hin : f ∈ kth_ r) by (apply (ri_kth _ Hr); exists e; split; [done|lia]).
    destruct (erase_pos_elem _ _ Hin) as [kth' Hkth']. rewrite Hkth'.
    destruct (erase_pos_spec _ _ _ Hkth' (ri_nodup_kth _ Hr)) as [Hnd Hiff].
    eexists. split; [done|]. split; [|done].
    split; simpl; try done; try apply Hr.
    + intros x. rewrite (ri_inf _ Hr). split.
      * intros (ex & Hex & Hx). exists ex. split; [|done].
        rewrite lookup_delete_ne; [done|]. intros <-. rewrite He in Hex. injection Hex as <-. lia.
      * intros (ex & Hex & Hx). apply lookup_delete_Some in Hex as [Hne Hex]. eauto.
    + intros x. rewrite Hiff, (ri_kth _ Hr). split.
      * intros [(ex & Hex & Hx) Hne]. exists ex. by rewrite lookup_delete_ne.
      * intros (ex & Hex & Hx). apply lookup_delete_Some in Hex as [Hne Hex]. eauto.
    + intros x ex Hex. apply lookup_delete_Some in Hex as [Hne Hex]. by eapply (ri_count _ Hr).
Qed.

End ReplacerFacts.

(** *** The lists and the descriptors, for every [k]

    [RecordAccess] and [Remove] erase a node through a position that is
    stale when [k < 2]; below, the calls are those that returned. *)

Section ReplacerAnyK.

Variable default_evictable : bool.

Local Ltac both_lists H :=
  match goal with
  | Ha : ?x ∈ inf_ ?r, Hb : ?x ∈ kth_ ?r |- _ => exfalso; exact (H x Ha Hb)
  end.

(** The two lists hold the frames that have a descriptor, each once. *)
Record rep_wf (r : LRUKReplacer) : Prop := {
  rw_nodup : NoDup (inf_ r ++ kth_ r);
  rw_listed : ∀ f, f ∈ inf_ r ++ kth_ r ↔ is_Some (entries_ r !! f);
  rw_count : ∀ f e, entries_ r !! f = Some e → (1 ≤ hint_count_ e)%nat
}.

Lemma rep_wf_new n k : rep_wf (LRUKReplacer_new n k).
Proof.
  split; simpl.
  - apply NoDup_nil_2.
  - intros f. rewrite lookup_empty. split; [by intros ?%elem_of_nil|by intros [? ?]].
  - intros f e He. by rewrite lookup_empty in He.
Qed.

Lemma erase_pos_Some_elem f l l' : erase_pos f l = Some l' → f ∈ l.
Proof.
  revert l'. induction l as [|g l IH]; intros l'; simpl; [done|].
  destruct (decide (g = f)) as [->|Hne]; [intros _; left|].
  destruct (erase_pos f l) as [r|]; [|done]. intros _. right. by eapply IH.
Qed.

Lemma rep_wf_erased r f inf' kth' z :
  rep_wf r → NoDup (inf' ++ kth') →
  (∀ x, x ∈ inf' ++ kth' ↔ x ∈ inf_ r ++ kth_ r ∧ x ≠ f) →
  rep_wf (mkReplacer (delete f (entries_ r)) inf' kth' z (replacer_size_ r) (k_ r)).
Proof.
  intros Hr Hnd Hiff. split; simpl; [done| |].
  - intros x. rewrite Hiff, (rw_listed _ Hr), lookup_delete_is_Some.
    split; intros [? ?]; split; auto.
  - intros x e [_ He]%lookup_delete_Some. by eapply (rw_count _ Hr).
Qed.

Lemma rep_wf_touched r f e' inf' kth' z :
  rep_wf r → NoDup (inf' ++ kth') →
  (∀ x, x ∈ inf' ++ kth' ↔ x ∈ inf_ r ++ kth_ r ∨ x = f) →
  (1 ≤ hint_count_ e')%nat →
  rep_wf (mkReplacer (<[f := e']> (entries_ r)) inf' kth' z (replacer_size_ r) (k_ r)).
Proof.
  intros Hr Hnd Hiff Hc. split; simpl; [done| |].
  - intros x. rewrite Hiff, (rw_listed _ Hr), lookup_insert_is_Some.
    destruct (decide (f = x)) as [->|Hne]; [split; auto|].
    split; [intros [?| ->]; [auto|done]|intros [?|[_ ?]]; [done|auto]].
  - intros x e [[_ <-]|[_ He]]%lookup_insert_Some; [done|]. by eapply (rw_count _ Hr).
Qed.

Lemma Evict_wf r :
  rep_wf r →
  match Evict default_evictable r with
  | (r', Some f) =>
      (∃ e, entries_ r !! f = Some e ∧ is_evictable_ e = true) ∧
      entries_ r' = delete f (entries_ r) ∧ rep_wf r' ∧
      replacer_size_ r' = replacer_size_ r
  | (r', None) =>
      r' = r ∧ ∀ f e, entries_ r !! f = Some e → is_evictable_ e = false
  end.
Proof.
  intros Hr. unfold Evict.
  pose proof (rw_nodup _ Hr) as Hnd. apply NoDup_app in Hnd as (Hnd1 & Hdisj & Hnd2).
  assert (Hinf : ∀ f, f ∈ reverse (inf_ r) → is_Some (entries_ r !! f)).
  { intros f Hf. apply (rw_listed _ Hr), elem_of_app. left. by apply elem_of_reverse. }
  assert (Hkth : ∀ f, f ∈ reverse (kth_ r) → is_Some (entries_ r !! f)).
  { intros f Hf. apply (rw_listed _ Hr), elem_of_app. right. by apply elem_of_reverse. }
  pose proof (evict_scan_spec default_evictable _ _ Hinf (proj2 (NoDup_reverse _) Hnd1)) as H1.
  destruct (evict_scan default_evictable (reverse (inf_ r)) (entries_ r)) as [[[f rest]|] es1].
  - destruct H1 as (-> & Hf & (e & He & Hev) & Hnd & Hiff). simpl.
    split; [eauto|]. split; [done|]. split; [|done].
    rewrite elem_of_reverse in Hf.
    apply rep_wf_erased; [done| |].
    + apply NoDup_app. split; [by apply NoDup_reverse|]. split; [|done].
      intros x Hx. apply elem_of_reverse, Hiff in Hx as [Hx _].
      apply Hdisj. by apply elem_of_reverse.
    + intros x. rewrite !elem_of_app, elem_of_reverse, Hiff, elem_of_reverse. split.
      * intros [[? ?]|Hx]; [tauto|]. split; [tauto|]. intros ->. both_lists Hdisj.
      * tauto.
  - destruct H1 as (-> & Hnone1).
    pose proof (evict_scan_spec default_evictable _ _ Hkth (proj2 (NoDup_reverse _) Hnd2)) as H2.
    destruct (evict_scan default_evictable (reverse (kth_ r)) (entries_ r)) as [[[f rest]|] es2].
    + destruct H2 as (-> & Hf & (e & He & Hev) & Hnd & Hiff). simpl.
      split; [eauto|]. split; [done|]. split; [|done].
      rewrite elem_of_reverse in Hf.
      apply rep_wf_erased; [done| |].
      * apply NoDup_app. split; [done|]. split; [|by apply NoDup_reverse].
        intros x Hx Hx'. apply elem_of_reverse, Hiff in Hx' as [Hx' _].
        eapply Hdisj; [done|]. by apply elem_of_reverse.
      * intros x. rewrite !elem_of_app, elem_of_reverse, Hiff, elem_of_reverse. split.
        -- intros [Hx|[? ?]]; [|tauto]. split; [tauto|]. intros ->. both_lists Hdisj.
        -- tauto.
    + destruct H2 as (-> & Hnone2). split; [by destruct r|].
      intros f e He.
      assert (Hl : f ∈ inf_ r ++ kth_ r) by (apply (rw_listed _ Hr); eauto).
      apply elem_of_app in Hl as [Hl|Hl].
      * eapply Hnone1; [|done]. by apply elem_of_reverse.
      * eapply Hnone2; [|done]. by apply elem_of_reverse.
Qed.

Lemma RecordAccess_wf r f r' :
  rep_wf r → RecordAccess default_evictable r f = Some r' →
  rep_wf r' ∧ replacer_size_ r' = replacer_size_ r ∧
  ∃ c, entries_ r' =
         <[f := mkEntry c (is_evictable_ (entry_of default_evictable f (entries_ r)))]>
           (entries_ r).
Proof.
  intros Hr. unfold RecordAccess.
  destruct (decide (replacer_size_ r < f)%nat); [done|].
  pose proof (rw_nodup _ Hr) as Hnd. apply NoDup_app in Hnd as (Hnd1 & Hdisj & Hnd2).
  destruct (entries_ r !! f) as [e|] eqn:He.
  - rewrite (touch_id _ _ _ (mk_is_Some _ _ He)).
    unfold entry_of. rewrite He. simpl.
    pose proof (rw_count _ Hr _ _ He) as Hc.
    assert (Hl : f ∈ inf_ r ++ kth_ r) by (apply (rw_listed _ Hr); eauto).
    destruct (decide (S (hint_count_ e) = 1%nat)); [lia|].
    destruct (decide (S (hint_count_ e) = k_ r)) as [Hek|Hnk].
    + destruct (erase_pos f (inf_ r)) as [inf'|] eqn:Hinf'; [|done]. intros [= <-]. simpl.
      pose proof (erase_pos_Some_elem _ _ _ Hinf') as Hin.
      destruct (erase_pos_spec _ _ _ Hinf' Hnd1) as [Hnd' Hiff].
      split; [|split; [done|eauto]].
      apply (rep_wf_touched r); [done| | |simpl; lia].
      * apply NoDup_app. split; [done|]. split.
        -- intros x [Hx Hne]%Hiff [->|Hx']%elem_of_cons; [done|]. both_lists Hdisj.
        -- apply NoDup_cons. split; [|done]. intros Hk. both_lists Hdisj.
      * intros x. rewrite !elem_of_app, elem_of_cons, Hiff.
        destruct (decide (x = f)) as [->|]; tauto.
    + destruct (decide (k_ r < S (hint_count_ e))%nat) as [Hgt|Hle].
      * destruct (erase_pos f (kth_ r)) as [kth'|] eqn:Hkth'; [|done]. intros [= <-]. simpl.
        pose proof (erase_pos_Some_elem _ _ _ Hkth') as Hin.
        destruct (erase_pos_spec _ _ _ Hkth' Hnd2) as [Hnd' Hiff].
        split; [|split; [done|eauto]].
        apply (rep_wf_touched r); [done| | |simpl; lia].
        -- apply NoDup_app. split; [done|]. split.
           ++ intros x Hx [->|[Hx' _]%Hiff]%elem_of_cons; both_lists Hdisj.
           ++ apply NoDup_cons. split; [|done]. rewrite Hiff. tauto.
        -- intros x. rewrite !elem_of_app, elem_of_cons, Hiff.
           destruct (decide (x = f)) as [->|]; tauto.
      * intros [= <-]. simpl. split; [|split; [done|eauto]].
        apply (rep_wf_touched r); [done|by apply NoDup_app| |simpl; lia].
        intros x. split; [tauto|]. intros [?| ->]; done.
  - unfold touch. rewrite He. unfold entry_of. rewrite lookup_insert_eq, He. simpl.
    rewrite insert_insert_eq. intros [= <-]. simpl.
    assert (Hn : f ∉ inf_ r ++ kth_ r).
    { rewrite (rw_listed _ Hr), He. by intros [? ?]. }
    split; [|split; [done|eauto]].
    apply (rep_wf_touched r); [done| | |simpl; lia].
    + change (NoDup (f :: (inf_ r ++ kth_ r))). apply NoDup_cons. split; [done|apply Hr].
    + intros x. change (x ∈ f :: (inf_ r ++ kth_ r) ↔ x ∈ inf_ r ++ kth_ r ∨ x = f).
      rewrite elem_of_cons. tauto.
Qed.

(** A first access of a frame does not fail. *)
Lemma RecordAccess_first r f :
  (f ≤ replacer_size_ r)%nat → entries_ r !! f = None →
  is_Some (RecordAccess default_evictable r f).
Proof.
  intros Hf He. unfold RecordAccess.
  destruct (decide (replacer_size_ r < f)%nat); [lia|].
  unfold touch. rewrite He. unfold entry_of. rewrite lookup_insert_eq. simpl. by eexists.
Qed.

Lemma rep_wf_flag r f e b z :
  rep_wf r → entries_ r !! f = Some e →
  rep_wf (mkReplacer (<[f := mkEntry (hint_count_ e) b]> (entries_ r)) (inf_ r) (kth_ r)
                     z (replacer_size_ r) (k_ r)).
Proof.
  intros Hr He. apply (rep_wf_touched r); [done|apply Hr| |].
  - intros x. split; [tauto|]. intros [?| ->]; [done|]. apply (rw_listed _ Hr). eauto.
  - simpl. by eapply (rw_count _ Hr).
Qed.

Lemma SetEvictable_wf r f b :
  rep_wf r → (f ≤ replacer_size_ r)%nat →
  ∃ r', SetEvictable r f b = Some r' ∧ rep_wf r' ∧
    replacer_size_ r' = replacer_size_ r ∧
    match entries_ r !! f with
    | Some e => entries_ r' = <[f := mkEntry (hint_count_ e) b]> (entries_ r)
    | None => entries_ r' = entries_ r
    end.
Proof.
  intros Hr Hf. unfold SetEvictable.
  destruct (decide (replacer_size_ r < f)%nat); [lia|].
  destruct (entries_ r !! f) as [e|] eqn:He; [|by eauto 10].
  destruct (Bool.eqb (is_evictable_ e) b) eqn:Eb.
  - apply Bool.eqb_prop in Eb. subst b. exists r. split; [done|]. split; [done|].
    split; [done|]. destruct e. simpl. by rewrite insert_id.
  - destruct b; (eexists; split; [done|]; split; [by apply rep_wf_flag|done]).
Qed.

Lemma Remove_wf r f r' :
  rep_wf r → Remove r f = Some r' →
  rep_wf r' ∧ replacer_size_ r' = replacer_size_ r ∧
  match entries_ r !! f with
  | Some e => if is_evictable_ e then entries_ r' = delete f (entries_ r) else r' = r
  | None => r' = r
  end.
Proof.
  intros Hr. unfold Remove.
  destruct (decide (replacer_size_ r < f)%nat); [done|].
  pose proof (rw_nodup _ Hr) as Hnd. apply NoDup_app in Hnd as (Hnd1 & Hdisj & Hnd2).
  destruct (entries_ r !! f) as [e|] eqn:He; [|by intros [= <-]].
  destruct (is_evictable_ e); simpl; [|by intros [= <-]].
  destruct (decide (hint_count_ e < k_ r)%nat).
  - destruct (erase_pos f (inf_ r)) as [inf'|] eqn:Hinf'; [|done]. intros [= <-]. simpl.
    pose proof (erase_pos_Some_elem _ _ _ Hinf') as Hin.
    destruct (erase_pos_spec _ _ _ Hinf' Hnd1) as [Hnd' Hiff].
    split; [|done]. apply rep_wf_erased; [done| |].
    + apply NoDup_app. split; [done|]. split; [|done].
      intros x [Hx _]%Hiff Hk. both_lists Hdisj.
    + intros x. rewrite !elem_of_app, Hiff. split; [|tauto].
      intros [[? ?]|Hx]; [tauto|]. split; [tauto|]. intros ->. both_lists Hdisj.
  - destruct (erase_pos f (kth_ r)) as [kth'|] eqn:Hkth'; [|done]. intros [= <-]. simpl.
    pose proof (erase_pos_Some_elem _ _ _ Hkth') as Hin.
    destruct (erase_pos_spec _ _ _ Hkth' Hnd2) as [Hnd' Hiff].
    split; [|done]. apply rep_wf_erased; [done| |].
    + apply NoDup_app. split; [done|]. split; [|done].
      intros x Hx [Hx' _]%Hiff. both_lists Hdisj.
    + intros x. rewrite !elem_of_app, Hiff. split; [|tauto].
      intros [Hx|[? ?]]; [|tauto]. split; [tauto|]. intros ->. both_lists Hdisj.
Qed.

End ReplacerAnyK.

(** C5 (as stated).  The scenario does not evict 3, 2, 1 with final size
    0, whatever the initial evictability of a descriptor. *)
Lemma scenario_not_3_2_1 :
  scenario true ≠ Some ([Some 3; Some 2; Some 1]%nat, 0) ∧
  scenario false ≠ Some ([Some 3; Some 2; Some 1]%nat, 0).
Proof. split; vm_compute; discriminate. Qed.

(** C5 (amended).  With [k = 2], after the accesses 1,2,3,1,2,3,1,2 and
    with frames 1, 2, 3 marked evictable, three calls of [Evict] return
    frame 3, then frame 1, then frame 2 (all three frames have reached
    [k] accesses and leave [kth_] least recently accessed first).
    [Size()] is then 0 if a descriptor starts evictable and 3 if it
    starts non-evictable, since [RecordAccess] counts a first access in
    [curr_size_]. *)
Theorem scenario_evicts_3_1_2 :
  ∀ default_evictable,
    scenario default_evictable =
      Some ([Some 3; Some 1; Some 2]%nat, if default_evictable then 0 else 3).
Proof. intros [|]; vm_compute; reflexivity. Qed.

End LRUK.


(* ===================================================================== *)
(** ** buffer/lru_k_replacer.cpp: sequences of calls *)
(* ===================================================================== *)

Module LRUKFacts.

Import LRUK.

(** The calls of a client of the replacer. *)
Inductive call :=
| CRecordAccess (frame_id : frame_id_t)
| CSetEvictable (frame_id : frame_id_t) (set_evictable : bool)
| CRemove (frame_id : frame_id_t)
| CEvict.

Definition call_frame (c : call) : option frame_id_t :=
  match c with
  | CRecordAccess f | CSetEvictable f _ | CRemove f => Some f
  | CEvict => None
  end.

(** The frame of the call passes the test
    [frame_id > static_cast<int>(replacer_size_)] of the source. *)
Definition in_range (n : nat) (c : call) : Prop :=
  match call_frame c with
  | Some f => (f ≤ n)%nat
  | None => True
  end.

#[global] Instance in_range_dec n c : Decision (in_range n c).
Proof. unfold in_range. destruct (call_frame c); apply _. Defined.

(** The frames with a descriptor that is evictable. *)
Definition evictable (r : LRUKReplacer) (f : frame_id_t) : Prop :=
  ∃ e, entries_ r !! f = Some e ∧ is_evictable_ e = true.

Definition evictable_count (r : LRUKReplacer) : nat :=
  size (filter (λ fe : nat * Entry, is_evictable_ fe.2 = true) (entries_ r)).

Section Calls.

Variable default_evictable : bool.

(** [None]: the call threw, or its behaviour is undefined. *)
Definition call_step (r : LRUKReplacer) (c : call) : option LRUKReplacer :=
  match c with
  | CRecordAccess f => RecordAccess default_evictable r f
  | CSetEvictable f b => SetEvictable r f b
  | CRemove f => Remove r f
  | CEvict => Some (Evict default_evictable r).1
  end.

Fixpoint calls (r : LRUKReplacer) (cs : list call) : option LRUKReplacer :=
  match cs with
  | [] => Some r
  | c :: cs' => r' ← call_step r c; calls r' cs'
  end.

Lemma Remove_total r f :
  rep_inv r → (f ≤ replacer_size_ r)%nat →
  ∃ r', Remove r f = Some r' ∧ rep_inv r' ∧
    replacer_size_ r' = replacer_size_ r ∧ k_ r' = k_ r ∧
    (r' = r ∨
     (evictable r f ∧ entries_ r' = delete f (entries_ r) ∧
      curr_size_ r' = size_t_wrap (curr_size_ r - 1))).
Proof.
  intros Hr Hf. destruct (entries_ r !! f) as [e|] eqn:He.
  - destruct (is_evictable_ e) eqn:Hev.
    + destruct (Remove_spec r f e Hr Hf He Hev) as (r' & Hrem & Hr' & Hs & Hk & Hent).
      exists r'. split; [done|]. split; [done|]. split; [done|]. split; [done|].
      right. split; [by exists e|]. split; [done|].
      revert Hrem. unfold Remove. destruct (decide _); [lia|]. rewrite He, Hev. simpl.
      destruct (decide _); destruct (erase_pos _ _); intros [= <-]; done.
    + exists r. unfold Remove. destruct (decide _); [lia|]. rewrite He, Hev. simpl.
      split; [done|]. split; [done|]. split; [done|]. split; [done|]. by left.
  - exists r. unfold Remove. destruct (decide _); [lia|]. rewrite He.
    split; [done|]. split; [done|]. split; [done|]. split; [done|]. by left.
Qed.

Lemma call_step_inv r c :
  rep_inv r → in_range (replacer_size_ r) c →
  ∃ r', call_step r c = Some r' ∧ rep_inv r' ∧
    replacer_size_ r' = replacer_size_ r ∧ k_ r' = k_ r.
Proof.
  intros Hr Hc. destruct c as [f|f b|f|]; unfold in_range in Hc; simpl in *.
  - destruct (RecordAccess_spec default_evictable r f Hr Hc) as (r' & c & ? & ? & ? & ? & ?).
    by exists r'.
  - destruct (SetEvictable_spec r f b Hr Hc) as (r' & ? & ? & ? & ? & ?). by exists r'.
  - destruct (Remove_total r f Hr Hc) as (r' & ? & ? & ? & ? & ?). by exists r'.
  - pose proof (Evict_spec default_evictable r Hr) as HE.
    destruct (Evict default_evictable r) as [r' [f|]]; simpl.
    + destruct HE as (_ & _ & ? & ? & ?). by exists r'.
    + destruct HE as [-> _]. by exists r.
Qed.

Lemma call_step_out_of_range r c :
  ¬ in_range (replacer_size_ r) c → call_step r c = None.
Proof.
  destruct c as [f|f b|f|]; unfold in_range; simpl; intros Hc; try done.
  - unfold RecordAccess. destruct (decide _); [done|lia].
  - unfold SetEvictable. destruct (decide _); [done|lia].
  - unfold Remove. destruct (decide _); [done|lia].
Qed.

Lemma calls_inv cs : ∀ r r',
  rep_inv r → calls r cs = Some r' →
  rep_inv r' ∧ replacer_size_ r' = replacer_size_ r ∧ k_ r' = k_ r.
Proof.
  induction cs as [|c cs IH]; intros r r' Hr Hcs; simpl in Hcs.
  - by injection Hcs as <-.
  - destruct (call_step r c) as [r1|] eqn:Hstep; [|done]. simpl in Hcs.
    destruct (decide (in_range (replacer_size_ r) c)) as [Hc|Hc].
    + destruct (call_step_inv r c Hr Hc) as (r1' & Hstep' & Hr1 & Hs1 & Hk1).
      rewrite Hstep in Hstep'. injection Hstep' as <-.
      destruct (IH _ _ Hr1 Hcs) as (? & ? & ?). split; [done|split; congruence].
    + by rewrite (call_step_out_of_range r c Hc) in Hstep.
Qed.

Lemma calls_total cs : ∀ r,
  rep_inv r → is_Some (calls r cs) ↔ Forall (in_range (replacer_size_ r)) cs.
Proof.
  induction cs as [|c cs IH]; intros r Hr; simpl.
  - split; [constructor|by eexists].
  - rewrite Forall_cons. destruct (decide (in_range (replacer_size_ r) c)) as [Hc|Hc].
    + destruct (call_step_inv r c Hr Hc) as (r1 & -> & Hr1 & Hs1 & _). simpl.
      rewrite (IH r1 Hr1), Hs1. tauto.
    + rewrite (call_step_out_of_range r c Hc). simpl. split; [by intros [? ?]|tauto].
Qed.

(** A scan from the back of a list takes the evictable frame nearest the
    back. *)
Lemma evict_scan_first (m : list frame_id_t) (es : gmap nat Entry) :
  (∀ f, f ∈ m → is_Some (es !! f)) →
  match evict_scan default_evictable m es with
  | (Some (g, rest), _) =>
      ∃ m1 m2, m = m1 ++ g :: m2 ∧ rest = m1 ++ m2 ∧
        ∀ x e, x ∈ m1 → es !! x = Some e → is_evictable_ e = false
  | (None, _) => True
  end.
Proof.
  induction m as [|f m IH]; intros Hall; simpl; [done|].
  assert (Hsf : is_Some (es !! f)) by (apply Hall; left).
  rewrite (touch_id _ _ _ Hsf). destruct Hsf as [e He].
  unfold entry_of. rewrite He. simpl.
  destruct (is_evictable_ e) eqn:Ev.
  - exists [], m. repeat split. intros x e' Hx. inversion Hx.
  - assert (Hall' : ∀ g, g ∈ m → is_Some (es !! g)) by (intros g Hg; apply Hall; by right).
    specialize (IH Hall').
    destruct (evict_scan default_evictable m es) as [[[g rest]|] es']; [|done].
    destruct IH as (m1 & m2 & -> & -> & Hm1).
    exists (f :: m1), m2. repeat split.
    intros x e' [->|Hx]%elem_of_cons Hx'; [congruence|by eapply Hm1].
Qed.

Lemma reverse_split (l m1 m2 : list frame_id_t) g :
  reverse l = m1 ++ g :: m2 → l = reverse m2 ++ g :: reverse m1.
Proof.
  intros H. apply (f_equal reverse) in H. rewrite reverse_involutive in H.
  rewrite H, reverse_app, reverse_cons, <- app_assoc. done.
Qed.

Lemma Evict_position r :
  rep_inv r →
  match Evict default_evictable r with
  | (r', None) => r' = r ∧ ∀ f, ¬ evictable r f
  | (r', Some f) =>
      evictable r f ∧ entries_ r' = delete f (entries_ r) ∧
      curr_size_ r' = size_t_wrap (curr_size_ r - 1) ∧
      ((∃ l1 l2, inf_ r = l1 ++ f :: l2 ∧ (∀ g, g ∈ l2 → ¬ evictable r g) ∧
                 inf_ r' = l1 ++ l2 ∧ kth_ r' = kth_ r) ∨
       ((∀ g, g ∈ inf_ r → ¬ evictable r g) ∧
        ∃ l1 l2, kth_ r = l1 ++ f :: l2 ∧ (∀ g, g ∈ l2 → ¬ evictable r g) ∧
                 kth_ r' = l1 ++ l2 ∧ inf_ r' = inf_ r))
  end.
Proof.
  intros Hr. pose proof (Evict_spec default_evictable r Hr) as HE. unfold Evict in *.
  assert (Hinf : ∀ f, f ∈ reverse (inf_ r) → is_Some (entries_ r !! f)).
  { intros f Hf. apply elem_of_reverse, (ri_inf _ Hr) in Hf as (e & -> & _). eauto. }
  assert (Hkth : ∀ f, f ∈ reverse (kth_ r) → is_Some (entries_ r !! f)).
  { intros f Hf. apply elem_of_reverse, (ri_kth _ Hr) in Hf as (e & -> & _). eauto. }
  pose proof (evict_scan_first _ _ Hinf) as H1.
  pose proof (evict_scan_spec default_evictable _ _ Hinf
                (proj2 (NoDup_reverse _) (ri_nodup_inf _ Hr))) as S1.
  destruct (evict_scan default_evictable (reverse (inf_ r)) (entries_ r))
    as [[[f rest]|] es1].
  - destruct HE as (Hev & Hent & _). destruct H1 as (m1 & m2 & Hm & -> & Hm1).
    split; [done|]. split; [done|]. split; [done|]. left.
    exists (reverse m2), (reverse m1). split; [by apply reverse_split|]. split.
    + intros g Hg (e & He & Hge). rewrite elem_of_reverse in Hg.
      rewrite (Hm1 g e Hg He) in Hge. done.
    + simpl. by rewrite reverse_app.
  - destruct S1 as (-> & Hnone1).
    pose proof (evict_scan_first _ _ Hkth) as H2.
    destruct (evict_scan default_evictable (reverse (kth_ r)) (entries_ r))
      as [[[f rest]|] es2].
    + destruct HE as (Hev & Hent & _). destruct H2 as (m1 & m2 & Hm & -> & Hm1).
      split; [done|]. split; [done|]. split; [done|]. right. split.
      * intros g Hg (e & He & Hge). rewrite <- elem_of_reverse in Hg.
        rewrite (Hnone1 g e Hg He) in Hge. done.
      * exists (reverse m2), (reverse m1). split; [by apply reverse_split|]. split.
        -- intros g Hg (e & He & Hge). rewrite elem_of_reverse in Hg.
           rewrite (Hm1 g e Hg He) in Hge. done.
        -- simpl. by rewrite reverse_app.
    + destruct HE as [Heq Hnone]. split; [done|].
      intros f (e & He & Hev). rewrite (Hnone f e He) in Hev. done.
Qed.

(** Calls that do not name a frame leave its descriptor alone while it
    is not evictable. *)
Lemma call_step_keeps r c f e r' :
  rep_inv r → entries_ r !! f = Some e → is_evictable_ e = false →
  call_frame c ≠ Some f → call_step r c = Some r' →
  entries_ r' !! f = Some e.
Proof.
  intros Hr He Hev Hc Hstep.
  destruct (decide (in_range (replacer_size_ r) c)) as [Hin|Hout];
    [|by rewrite (call_step_out_of_range r c Hout) in Hstep].
  destruct c as [g|g b|g|]; unfold in_range in Hin; simpl in *.
  - destruct (RecordAccess_spec default_evictable r g Hr Hin) as (r1 & c & Hra & _ & Hent & _).
    rewrite Hstep in Hra. injection Hra as <-. rewrite Hent, lookup_insert_ne; [done|congruence].
  - destruct (SetEvictable_spec r g b Hr Hin) as (r1 & Hse & _ & _ & _ & Hent).
    rewrite Hstep in Hse. injection Hse as <-.
    destruct (entries_ r !! g); [|by rewrite Hent].
    rewrite Hent, lookup_insert_ne; [done|congruence].
  - destruct (Remove_total r g Hr Hin) as (r1 & Hrm & _ & _ & _ & [Hent|(_ & Hent & _)]).
    + rewrite Hstep in Hrm. injection Hrm as <-. by rewrite Hent.
    + rewrite Hstep in Hrm. injection Hrm as <-. rewrite Hent, lookup_delete_ne; [done|congruence].
  - injection Hstep as <-. pose proof (Evict_spec default_evictable r Hr) as HE.
    destruct (Evict default_evictable r) as [r1 [v|]]; simpl.
    + destruct HE as ((ev & Hv & Hvev) & Hent & _). rewrite Hent, lookup_delete_ne; [done|].
      intros ->. rewrite He in Hv. injection Hv as <-. congruence.
    + destruct HE as [-> _]. done.
Qed.

Lemma calls_keep cs : ∀ r f e r',
  rep_inv r → entries_ r !! f = Some e → is_evictable_ e = false →
  Forall (λ c, call_frame c ≠ Some f) cs → calls r cs = Some r' →
  entries_ r' !! f = Some e.
Proof.
  induction cs as [|c cs IH]; intros r f e r' Hr He Hev Hcs Hrun; simpl in Hrun.
  - by injection Hrun as <-.
  - apply Forall_cons in Hcs as [Hc Hcs].
    destruct (call_step r c) as [r1|] eqn:Hstep; [|done]. simpl in Hrun.
    assert (Hr1 : rep_inv r1).
    { destruct (calls_inv [c] r r1 Hr) as (? & _); [|done]. simpl. by rewrite Hstep. }
    apply (IH r1 f e r' Hr1); try done. by apply (call_step_keeps r c f e r1).
Qed.

End Calls.

(** *** [Size()] *)

Section Sizes.

Lemma count_delete (m : gmap nat Entry) f :
  Z.of_nat (size (filter (λ fe : nat * Entry, is_evictable_ fe.2 = true) (delete f m))) =
  Z.of_nat (size (filter (λ fe : nat * Entry, is_evictable_ fe.2 = true) m))
  - match m !! f with Some e => Z.b2z (is_evictable_ e) | None => 0 end.
Proof.
  rewrite map_filter_delete. destruct (m !! f) as [e|] eqn:He.
  - destruct (is_evictable_ e) eqn:Hev; simpl.
    + assert (Hf : filter (λ fe : nat * Entry, is_evictable_ fe.2 = true) m !! f = Some e).
      { by apply map_lookup_filter_Some. }
      rewrite map_size_delete_Some by eauto.
      assert (size (filter (λ fe : nat * Entry, is_evictable_ fe.2 = true) m) ≠ 0%nat).
      { intros H0. apply map_size_empty_inv in H0. rewrite H0 in Hf. done. }
      lia.
    + rewrite map_size_delete_None; [lia|]. apply map_lookup_filter_None. right.
      intros e' He'. simpl. rewrite He in He'. injection He' as <-. congruence.
  - rewrite map_size_delete_None; [lia|]. apply map_lookup_filter_None. by left.
Qed.

Lemma count_insert (m : gmap nat Entry) f e' :
  Z.of_nat (size (filter (λ fe : nat * Entry, is_evictable_ fe.2 = true) (<[f := e']> m))) =
  Z.of_nat (size (filter (λ fe : nat * Entry, is_evictable_ fe.2 = true) m))
  - match m !! f with Some e => Z.b2z (is_evictable_ e) | None => 0 end
  + Z.b2z (is_evictable_ e').
Proof.
  rewrite <- count_delete. rewrite <- (insert_delete_eq m).
  assert (Hd : delete f m !! f = None) by apply lookup_delete_eq.
  revert Hd. generalize (delete f m) as m'. intros m' Hd.
  destruct (is_evictable_ e') eqn:Hev; simpl.
  - rewrite map_filter_insert_True by done. rewrite map_size_insert_None; [lia|].
    apply map_lookup_filter_None. by left.
  - rewrite map_filter_insert_not'; [lia|simpl; congruence|].
    intros y Hy. congruence.
Qed.

Lemma tracked_bound (m : gmap nat Entry) (n : nat) :
  (∀ f, is_Some (m !! f) → (f ≤ n)%nat) →
  (size (filter (λ fe : nat * Entry, is_evictable_ fe.2 = true) m) ≤ S n)%nat.
Proof.
  intros Hm. etrans; [apply map_subseteq_size, map_filter_subseteq|].
  rewrite <- (size_dom (D := gset nat)).
  rewrite <- (size_set_seq (C := gset nat) 0 (S n)). apply subseteq_size.
  intros f Hf. apply elem_of_dom in Hf. apply elem_of_set_seq. specialize (Hm f Hf). lia.
Qed.

(** [curr_size_] is the number of evictable descriptors, and every
    tracked frame is in range. *)
Definition size_inv (r : LRUKReplacer) : Prop :=
  curr_size_ r = Z.of_nat (evictable_count r) ∧
  ∀ f, is_Some (entries_ r !! f) → (f ≤ replacer_size_ r)%nat.

Lemma size_inv_update r r' (d : Z) :
  size_inv r → Z.of_nat (replacer_size_ r) + 1 < 2 ^ 64 →
  replacer_size_ r' = replacer_size_ r →
  (∀ f, is_Some (entries_ r' !! f) → (f ≤ replacer_size_ r)%nat) →
  Z.of_nat (evictable_count r') = Z.of_nat (evictable_count r) + d →
  curr_size_ r' = size_t_wrap (curr_size_ r + d) →
  size_inv r'.
Proof.
  intros [Hc Hd] Hb Hs Hd' Hcount Hcurr. split; [|by rewrite Hs].
  pose proof (tracked_bound (entries_ r') _ Hd') as Hle.
  fold (evictable_count r') in Hle.
  rewrite Hcurr, Hc, <- Hcount. unfold size_t_wrap. apply Z.mod_small. lia.
Qed.

Lemma RecordAccess_curr (r : LRUKReplacer) f r' :
  rep_inv r → RecordAccess true r f = Some r' →
  curr_size_ r' = match entries_ r !! f with
                  | None => size_t_wrap (curr_size_ r + 1)
                  | Some _ => curr_size_ r
                  end ∧
  ∃ c, entries_ r' = <[f := mkEntry c (match entries_ r !! f with
                                        | Some e => is_evictable_ e
                                        | None => true
                                        end)]> (entries_ r).
Proof.
  intros Hr. unfold RecordAccess. destruct (decide _); [done|].
  unfold touch, entry_of. destruct (entries_ r !! f) as [e|] eqn:He.
  - rewrite He. simpl. pose proof (ri_count _ Hr _ _ He).
    destruct (decide (S (hint_count_ e) = 1%nat)); [lia|].
    repeat (destruct (decide _)); repeat (destruct (erase_pos _ _));
      intros [= <-]; simpl; eauto.
  - rewrite lookup_insert_eq. simpl. intros [= <-]. simpl. split; [done|].
    eexists. by rewrite insert_insert_eq.
Qed.

Lemma call_step_size_inv r c r' :
  rep_inv r → size_inv r → Z.of_nat (replacer_size_ r) + 1 < 2 ^ 64 →
  call_step true r c = Some r' → size_inv r'.
Proof.
  intros Hr Hsz Hb Hstep.
  destruct (decide (in_range (replacer_size_ r) c)) as [Hin|Hout];
    [|by rewrite (call_step_out_of_range true r c Hout) in Hstep].
  destruct (call_step_inv true r c Hr Hin) as (r1 & Hstep1 & _ & Hs & _).
  rewrite Hstep in Hstep1. injection Hstep1 as <-.
  pose proof Hsz as [Hc Hd].
  destruct c as [f|f b|f|]; unfold in_range in Hin; simpl in *.
  - destruct (RecordAccess_curr r f r' Hr Hstep) as (Hcurr & cnt & Hent).
    unfold evictable_count in *.
    destruct (entries_ r !! f) as [e|] eqn:He.
    + apply (size_inv_update r r' 0); try done.
      * intros g. rewrite Hent. intros Hg. destruct (decide (f = g)) as [<-|Hne]; [done|].
        rewrite lookup_insert_ne in Hg by done. by apply Hd.
      * unfold evictable_count. rewrite Hent, count_insert, He. simpl. lia.
      * rewrite Hcurr, Z.add_0_r, Hc. unfold size_t_wrap. symmetry. apply Z.mod_small.
        pose proof (tracked_bound (entries_ r) _ Hd). unfold evictable_count. lia.
    + apply (size_inv_update r r' 1); try done.
      * intros g. rewrite Hent. intros Hg. destruct (decide (f = g)) as [<-|Hne]; [done|].
        rewrite lookup_insert_ne in Hg by done. by apply Hd.
      * unfold evictable_count. rewrite Hent, count_insert, He. simpl. lia.
  - revert Hstep. unfold SetEvictable. destruct (decide _); [done|].
    destruct (entries_ r !! f) as [e|] eqn:He; [|by intros [= <-]].
    destruct (Bool.eqb (is_evictable_ e) b) eqn:Eb; [by intros [= <-]|].
    assert (Hdom : ∀ b' g, is_Some (<[f := mkEntry (hint_count_ e) b']> (entries_ r) !! g) →
                     (g ≤ replacer_size_ r)%nat).
    { intros b' g Hg. destruct (decide (f = g)) as [<-|Hne]; [done|].
      rewrite lookup_insert_ne in Hg by done. by apply Hd. }
    destruct b; intros [= <-].
    + apply (size_inv_update r _ 1); try done; [by apply Hdom|].
      unfold evictable_count. simpl. rewrite count_insert, He. simpl.
      destruct (is_evictable_ e); [done|]. simpl. lia.
    + apply (size_inv_update r _ (-1)); try done; [by apply Hdom|].
      unfold evictable_count. simpl. rewrite count_insert, He. simpl.
      destruct (is_evictable_ e); [|done]. simpl. lia.
  - destruct (Remove_total r f Hr Hin) as (r1 & Hrm & _ & _ & _ & Hcase).
    rewrite Hstep in Hrm. injection Hrm as <-.
    destruct Hcase as [->|((e & He & Hev) & Hent & Hcurr)]; [done|].
    apply (size_inv_update r r' (-1)); try done.
    + intros g. rewrite Hent. intros [x Hg]. apply lookup_delete_Some in Hg as [_ Hg].
      apply Hd. eauto.
    + unfold evictable_count. rewrite Hent, count_delete, He, Hev. simpl. lia.
  - injection Hstep as <-. pose proof (Evict_position true r Hr) as HE.
    destruct (Evict true r) as [r1 [v|]]; simpl in *.
    + destruct HE as ((e & He & Hev) & Hent & Hcurr & _).
      apply (size_inv_update r r1 (-1)); try done.
      * intros g. rewrite Hent. intros [x Hg]. apply lookup_delete_Some in Hg as [_ Hg].
        apply Hd. eauto.
      * unfold evictable_count. rewrite Hent, count_delete, He, Hev. simpl. lia.
    + destruct HE as [-> _]. done.
Qed.

Lemma calls_size_inv cs : ∀ r r',
  rep_inv r → size_inv r → Z.of_nat (replacer_size_ r) + 1 < 2 ^ 64 →
  calls true r cs = Some r' → size_inv r'.
Proof.
  induction cs as [|c cs IH]; intros r r' Hr Hsz Hb Hrun; simpl in Hrun.
  - by injection Hrun as <-.
  - destruct (call_step true r c) as [r1|] eqn:Hstep; [|done]. simpl in Hrun.
    destruct (calls_inv true [c] r r1 Hr) as (Hr1 & Hs1 & _); [simpl; by rewrite Hstep|].
    apply (IH r1 r' Hr1); [|by rewrite Hs1|done].
    by apply (call_step_size_inv r c r1).
Qed.

End Sizes.

(** [static_cast<int>] of a [size_t]: the low 32 bits, read as a signed
    number. *)
Definition static_cast_int (z : Z) : Z := (z + 2 ^ 31) mod 2 ^ 32 - 2 ^ 31.

(** The call passes the test of the source,
    [frame_id > static_cast<int>(replacer_size_)] is false.  Frame ids
    are not negative here. *)
Definition passes_range_test (replacer_size : nat) (c : call) : Prop :=
  match call_frame c with
  | Some f => ¬ (Z.of_nat f > static_cast_int (Z.of_nat replacer_size))
  | None => True
  end.

Lemma static_cast_int_small (z : Z) : 0 ≤ z < 2 ^ 31 → static_cast_int z = z.
Proof. intros Hz. unfold static_cast_int. rewrite Z.mod_small; lia. Qed.

Lemma passes_range_test_in_range (n : nat) (c : call) :
  Z.of_nat n < 2 ^ 31 → passes_range_test n c ↔ in_range n c.
Proof.
  intros Hn. unfold passes_range_test, in_range. destruct (call_frame c) as [f|]; [|done].
  rewrite static_cast_int_small by lia. lia.
Qed.

(** X12: calls on a new replacer with [k >= 2] and
    [replacer_size_ < 2^31], with frame ids that are not negative, fail
    in one way only: a sequence of [RecordAccess], [SetEvictable],
    [Remove] and [Evict] runs to its end exactly when every call passes
    the range test of the source, that is when no call names a frame id
    above [static_cast<int>(replacer_size_)] (the id [replacer_size_]
    itself is accepted); no list node is erased through a stale
    position. *)
Theorem calls_fail_only_out_of_range (default_evictable : bool) (n k : nat) (cs : list call) :
  (2 ≤ k)%nat → Z.of_nat n < 2 ^ 31 →
  is_Some (calls default_evictable (LRUKReplacer_new n k) cs) ↔
  Forall (passes_range_test n) cs.
Proof.
  intros Hk Hn.
  rewrite (calls_total default_evictable cs (LRUKReplacer_new n k)) by (by apply rep_inv_new).
  simpl. apply Forall_iff. intros c. symmetry. by apply passes_range_test_in_range.
Qed.

Lemma calls_fail_only_out_of_range_witness :
  is_Some (calls true (LRUKReplacer_new 3 2)
             [CRecordAccess 1; CRecordAccess 3; CRecordAccess 1; CSetEvictable 3 false;
              CEvict; CRemove 2; CRecordAccess 1]%nat) ↔
  Forall (passes_range_test 3)
         [CRecordAccess 1; CRecordAccess 3; CRecordAccess 1; CSetEvictable 3 false;
          CEvict; CRemove 2; CRecordAccess 1]%nat.
Proof. apply (calls_fail_only_out_of_range true 3 2); [lia|reflexivity]. Defined.

(** X13: in every state that calls on a new replacer with [k >= 2]
    reach, [Evict] fails exactly when no tracked frame is evictable, and
    then changes nothing; otherwise it takes the evictable frame nearest
    the back of [inf_] (fewer than [k] accesses), and only when [inf_]
    has no evictable frame the evictable frame nearest the back of
    [kth_]; the frame leaves its list, its descriptor is erased and
    [curr_size_] goes down by one. *)
Theorem Evict_takes_last_evictable (default_evictable : bool) (n k : nat) (cs : list call)
    (r : LRUKReplacer) :
  (2 ≤ k)%nat → calls default_evictable (LRUKReplacer_new n k) cs = Some r →
  match Evict default_evictable r with
  | (r', None) => r' = r ∧ ∀ f, ¬ evictable r f
  | (r', Some f) =>
      evictable r f ∧ entries_ r' = delete f (entries_ r) ∧
      curr_size_ r' = size_t_wrap (curr_size_ r - 1) ∧
      ((∃ l1 l2, inf_ r = l1 ++ f :: l2 ∧ (∀ g, g ∈ l2 → ¬ evictable r g) ∧
                 inf_ r' = l1 ++ l2 ∧ kth_ r' = kth_ r) ∨
       ((∀ g, g ∈ inf_ r → ¬ evictable r g) ∧
        ∃ l1 l2, kth_ r = l1 ++ f :: l2 ∧ (∀ g, g ∈ l2 → ¬ evictable r g) ∧
                 kth_ r' = l1 ++ l2 ∧ inf_ r' = inf_ r))
  end.
Proof.
  intros Hk Hrun. apply Evict_position.
  by destruct (calls_inv default_evictable cs _ r (rep_inv_new n k Hk) Hrun).
Qed.

(** X14: in every state that calls on a new replacer with [k >= 2]
    reach, the tracked frames are those of [inf_] and [kth_], a frame is
    in [inf_] exactly when it has fewer than [k] accesses and in [kth_]
    otherwise, and no frame is listed twice; [replacer_size_] and [k_]
    are those of the constructor. *)
Theorem calls_lists_partition (default_evictable : bool) (n k : nat) (cs : list call)
    (r : LRUKReplacer) :
  (2 ≤ k)%nat → calls default_evictable (LRUKReplacer_new n k) cs = Some r →
  NoDup (inf_ r ++ kth_ r) ∧
  (∀ f, f ∈ inf_ r ↔ ∃ e, entries_ r !! f = Some e ∧ (1 ≤ hint_count_ e < k)%nat) ∧
  (∀ f, f ∈ kth_ r ↔ ∃ e, entries_ r !! f = Some e ∧ (k ≤ hint_count_ e)%nat) ∧
  replacer_size_ r = n ∧ k_ r = k.
Proof.
  intros Hk Hrun.
  destruct (calls_inv default_evictable cs _ r (rep_inv_new n k Hk) Hrun) as (Hr & Hs & Hk').
  simpl in Hs, Hk'. split; [|split; [|split; [|done]]].
  - apply NoDup_app. split; [apply Hr|]. split; [|apply Hr].
    intros f Hi Hkth. apply (ri_inf _ Hr) in Hi as (e & He & Hlt).
    apply (ri_kth _ Hr) in Hkth as (e' & He' & Hge). rewrite He in He'. injection He' as <-. lia.
  - intros f. rewrite (ri_inf _ Hr), Hk'. split.
    + intros (e & He & Hlt). exists e. split; [done|].
      pose proof (ri_count _ Hr _ _ He). lia.
    + intros (e & He & Hlt). exists e. split; [done|lia].
  - intros f. rewrite (ri_kth _ Hr), Hk'. done.
Qed.

(** X15: a tracked frame that is not evictable keeps its descriptor (its
    access count and its flag) through every sequence of calls that do
    not name it: [Evict] never takes it, and calls about other frames do
    not touch it. *)
Theorem non_evictable_frame_kept (default_evictable : bool) (n k : nat) (cs cs' : list call)
    (r r' : LRUKReplacer) (f : frame_id_t) (e : Entry) :
  (2 ≤ k)%nat → calls default_evictable (LRUKReplacer_new n k) cs = Some r →
  entries_ r !! f = Some e → is_evictable_ e = false →
  Forall (λ c, call_frame c ≠ Some f) cs' →
  calls default_evictable r cs' = Some r' →
  entries_ r' !! f = Some e.
Proof.
  intros Hk Hrun He Hev Hcs' Hrun'.
  destruct (calls_inv default_evictable cs _ r (rep_inv_new n k Hk) Hrun) as (Hr & _).
  by eapply calls_keep.
Qed.

Lemma Evict_takes_last_evictable_witness :
  ∃ r, calls true (LRUKReplacer_new 3 2)
         [CRecordAccess 1; CRecordAccess 2; CRecordAccess 3; CRecordAccess 1;
          CSetEvictable 3 false]%nat = Some r ∧
  match Evict true r with
  | (r', None) => r' = r ∧ ∀ f, ¬ evictable r f
  | (r', Some f) =>
      evictable r f ∧ entries_ r' = delete f (entries_ r) ∧
      curr_size_ r' = size_t_wrap (curr_size_ r - 1) ∧
      ((∃ l1 l2, inf_ r = l1 ++ f :: l2 ∧ (∀ g, g ∈ l2 → ¬ evictable r g) ∧
                 inf_ r' = l1 ++ l2 ∧ kth_ r' = kth_ r) ∨
       ((∀ g, g ∈ inf_ r → ¬ evictable r g) ∧
        ∃ l1 l2, kth_ r = l1 ++ f :: l2 ∧ (∀ g, g ∈ l2 → ¬ evictable r g) ∧
                 kth_ r' = l1 ++ l2 ∧ inf_ r' = inf_ r))
  end.
Proof.
  eexists. split; [vm_compute; reflexivity|].
  apply (Evict_takes_last_evictable true 3 2
           [CRecordAccess 1; CRecordAccess 2; CRecordAccess 3; CRecordAccess 1;
            CSetEvictable 3 false]%nat); [lia|vm_compute; reflexivity].
Defined.

Lemma calls_lists_partition_witness :
  ∃ r, calls true (LRUKReplacer_new 3 2)
         [CRecordAccess 1; CRecordAccess 2; CRecordAccess 3; CRecordAccess 1;
          CSetEvictable 3 false]%nat = Some r ∧
  NoDup (inf_ r ++ kth_ r) ∧
  (∀ f, f ∈ inf_ r ↔ ∃ e, entries_ r !! f = Some e ∧ (1 ≤ hint_count_ e < 2)%nat) ∧
  (∀ f, f ∈ kth_ r ↔ ∃ e, entries_ r !! f = Some e ∧ (2 ≤ hint_count_ e)%nat) ∧
  replacer_size_ r = 3%nat ∧ k_ r = 2%nat.
Proof.
  eexists. split; [vm_compute; reflexivity|].
  apply (calls_lists_partition true 3 2
           [CRecordAccess 1; CRecordAccess 2; CRecordAccess 3; CRecordAccess 1;
            CSetEvictable 3 false]%nat); [lia|vm_compute; reflexivity].
Defined.

Lemma non_evictable_frame_kept_witness :
  ∃ r r' e,
    calls true (LRUKReplacer_new 3 2)
      [CRecordAccess 1; CRecordAccess 2; CSetEvictable 2 false]%nat = Some r ∧
    entries_ r !! 2%nat = Some e ∧
    calls true r [CRecordAccess 1; CEvict; CEvict; CRemove 1; CRecordAccess 3]%nat = Some r' ∧
    entries_ r' !! 2%nat = Some e.
Proof.
  eexists _, _, _. split; [vm_compute; reflexivity|].
  split; [vm_compute; reflexivity|]. split; [vm_compute; reflexivity|].
  eapply (non_evictable_frame_kept true 3 2
            [CRecordAccess 1; CRecordAccess 2; CSetEvictable 2 false]%nat
            [CRecordAccess 1; CEvict; CEvict; CRemove 1; CRecordAccess 3]%nat);
    [lia | vm_compute; reflexivity | vm_compute; reflexivity | reflexivity
     | repeat constructor; discriminate | vm_compute; reflexivity].
Defined.

(** X16: when a descriptor starts evictable, [Size()] is the number of
    tracked frames that are evictable, in every state that calls on a
    new replacer with [k >= 2] and fewer than [2^64 - 1] frames reach. *)
Theorem Size_counts_evictable (n k : nat) (cs : list call) (r : LRUKReplacer) :
  (2 ≤ k)%nat → Z.of_nat n + 1 < 2 ^ 64 →
  calls true (LRUKReplacer_new n k) cs = Some r →
  Size r = Z.of_nat (evictable_count r).
Proof.
  intros Hk Hn Hrun.
  apply (calls_size_inv cs (LRUKReplacer_new n k) r); try done.
  - by apply rep_inv_new.
  - split; [done|]. intros f [e He]. simpl in He. by rewrite lookup_empty in He.
Qed.

Lemma Size_counts_evictable_witness :
  ∃ r, calls true (LRUKReplacer_new 3 2)
         [CRecordAccess 1; CRecordAccess 2; CRecordAccess 3; CRecordAccess 1;
          CSetEvictable 3 false; CEvict]%nat = Some r ∧
       Size r = Z.of_nat (evictable_count r).
Proof.
  eexists. split; [vm_compute; reflexivity|].
  apply (Size_counts_evictable 3 2
           [CRecordAccess 1; CRecordAccess 2; CRecordAccess 3; CRecordAccess 1;
            CSetEvictable 3 false; CEvict]%nat); [lia | lia | vm_compute; reflexivity].
Defined.

End LRUKFacts.
(* ===================================================================== *)
(** ** buffer/buffer_pool_manager_instance.cpp *)
(* ===================================================================== *)

Module BPM.

Import LRUK.

(** [BUSTUB_PAGE_SIZE] (common/config.h): 4 KiB. *)
Definition PAGE_SIZE : nat := 4096.

(** A frame ([Page], storage/page/page.h): the byte buffer and its
    metadata.  The reader/writer latch is left out. *)
Record Page := mkPage {
  data_ : list Byte.byte;
  page_id_ : page_id_t;
  pin_count_ : Z;
  is_dirty_ : bool
}.

Definition zero_data : list Byte.byte := replicate PAGE_SIZE Byte.x00.

Definition empty_page : Page := mkPage zero_data INVALID_PAGE_ID 0 false.

(** The page table is used through [Find], [Insert] (upsert) and [Remove]
    only and is kept as a finite map here; the extendible hash table
    itself is embedded in module [EHT].  [disk_] stands for the blocks of
    the disk manager: [WritePage] stores a block, [ReadPage] gives the
    stored block, or zeroes for a block never written. *)
Record BufferPoolManagerInstance := mkBPM {
  pool_size_ : nat;
  pages_ : list Page;
  page_table_ : gmap Z frame_id_t;
  replacer_ : LRUKReplacer;
  free_list_ : list frame_id_t;
  next_page_id_ : page_id_t;
  disk_ : gmap Z (list Byte.byte)
}.

Section Pool.

Variable default_evictable : bool.

Definition BufferPoolManagerInstance_new (pool_size replacer_k : nat)
    (disk : gmap Z (list Byte.byte)) : BufferPoolManagerInstance :=
  mkBPM pool_size (replicate pool_size empty_page) ∅
        (LRUKReplacer_new pool_size replacer_k) (seq 0 pool_size) 0 disk.

Definition ResetPage (p : Page) : Page :=
  mkPage zero_data INVALID_PAGE_ID (pin_count_ p) false.

Definition ReadPage (disk : gmap Z (list Byte.byte)) (pid : page_id_t) : list Byte.byte :=
  default zero_data (disk !! pid).

Definition set_pages (s : BufferPoolManagerInstance) (ps : list Page) :=
  mkBPM (pool_size_ s) ps (page_table_ s) (replacer_ s) (free_list_ s)
        (next_page_id_ s) (disk_ s).

Definition set_replacer (s : BufferPoolManagerInstance) (r : LRUKReplacer) :=
  mkBPM (pool_size_ s) (pages_ s) (page_table_ s) r (free_list_ s)
        (next_page_id_ s) (disk_ s).

(** The block shared by [NewPgImp] and [FetchPgImp]: a frame from the
    free list, or else a victim of the replacer, whose mapping is removed
    and which is written back and reset when it is dirty.
    Result: outer [None] is undefined behaviour (a frame outside the
    array); inner [None] is [page == nullptr]. *)
Definition find_replacement (s : BufferPoolManagerInstance)
  : option (BufferPoolManagerInstance * option frame_id_t) :=
  match free_list_ s with
  | f :: fl =>
      Some (mkBPM (pool_size_ s) (pages_ s) (page_table_ s) (replacer_ s) fl
                  (next_page_id_ s) (disk_ s), Some f)
  | [] =>
      let '(r', o) := Evict default_evictable (replacer_ s) in
      match o with
      | None => Some (set_replacer s r', None)
      | Some f =>
          page ← pages_ s !! f;
          let pt' := delete (page_id_ page) (page_table_ s) in
          if is_dirty_ page then
            Some (mkBPM (pool_size_ s) (<[f := ResetPage page]> (pages_ s)) pt' r'
                        (free_list_ s) (next_page_id_ s)
                        (<[page_id_ page := data_ page]> (disk_ s)), Some f)
          else
            Some (mkBPM (pool_size_ s) (pages_ s) pt' r' (free_list_ s)
                        (next_page_id_ s) (disk_ s), Some f)
      end
  end.

(** [RecordAccess(frame_id); SetEvictable(frame_id, false)]. *)
Definition pin_in_replacer (r : LRUKReplacer) (f : frame_id_t) : option LRUKReplacer :=
  r1 ← RecordAccess default_evictable r f; SetEvictable r1 f false.

(** Result of [NewPgImp]: the new page id with the frame of the returned
    [Page*], or [None] for [nullptr]. *)
Definition NewPgImp (s : BufferPoolManagerInstance)
  : option (BufferPoolManagerInstance * option (page_id_t * frame_id_t)) :=
  '(s1, o) ← find_replacement s;
  match o with
  | None => Some (s1, None)
  | Some f =>
      page ← pages_ s1 !! f;
      let pid := next_page_id_ s1 in                      (* AllocatePage() *)
      r' ← pin_in_replacer (replacer_ s1) f;
      let page' := mkPage (data_ page) pid (pin_count_ page + 1) (is_dirty_ page) in
      Some (mkBPM (pool_size_ s1) (<[f := page']> (pages_ s1))
                  (<[pid := f]> (page_table_ s1)) r' (free_list_ s1)
                  (pid + 1) (disk_ s1), Some (pid, f))
  end.

Definition FetchPgImp (s : BufferPoolManagerInstance) (page_id : page_id_t)
  : option (BufferPoolManagerInstance * option frame_id_t) :=
  match page_table_ s !! page_id with
  | Some f =>
      page ← pages_ s !! f;
      r' ← pin_in_replacer (replacer_ s) f;
      let page' := mkPage (data_ page) (page_id_ page) (pin_count_ page + 1)
                          (is_dirty_ page) in
      Some (mkBPM (pool_size_ s) (<[f := page']> (pages_ s)) (page_table_ s) r'
                  (free_list_ s) (next_page_id_ s) (disk_ s), Some f)
  | None =>
      '(s1, o) ← find_replacement s;
      match o with
      | None => Some (s1, None)
      | Some f =>
          page ← pages_ s1 !! f;
          r' ← pin_in_replacer (replacer_ s1) f;
          let page' := mkPage (ReadPage (disk_ s1) page_id) page_id
                              (pin_count_ page + 1) (is_dirty_ page) in
          Some (mkBPM (pool_size_ s1) (<[f := page']> (pages_ s1))
                      (<[page_id := f]> (page_table_ s1)) r' (free_list_ s1)
                      (next_page_id_ s1) (disk_ s1), Some f)
      end
  end.

Definition UnpinPgImp (s : BufferPoolManagerInstance) (page_id : page_id_t)
    (is_dirty : bool) : option (BufferPoolManagerInstance * bool) :=
  match page_table_ s !! page_id with
  | None => Some (s, false)
  | Some f =>
      page ← pages_ s !! f;
      if decide (0 < pin_count_ page) then
        let page' := mkPage (data_ page) (page_id_ page) (pin_count_ page - 1)
                            (if is_dirty then true else is_dirty_ page) in
        r' ← (if decide (pin_count_ page' = 0)
              then SetEvictable (replacer_ s) f true
              else Some (replacer_ s));
        Some (mkBPM (pool_size_ s) (<[f := page']> (pages_ s)) (page_table_ s) r'
                    (free_list_ s) (next_page_id_ s) (disk_ s), true)
      else Some (s, false)
  end.

(** [None]: the assertion [page_id != INVALID_PAGE_ID] fails. *)
Definition FlushPgImp (s : BufferPoolManagerInstance) (page_id : page_id_t)
  : option (BufferPoolManagerInstance * bool) :=
  if decide (page_id = INVALID_PAGE_ID) then None
  else
    match page_table_ s !! page_id with
    | None => Some (s, false)
    | Some f =>
        page ← pages_ s !! f;
        let page' := mkPage (data_ page) (page_id_ page) (pin_count_ page) false in
        Some (mkBPM (pool_size_ s) (<[f := page']> (pages_ s)) (page_table_ s)
                    (replacer_ s) (free_list_ s) (next_page_id_ s)
                    (<[page_id := data_ page]> (disk_ s)), true)
    end.

Fixpoint flush_frames (ps : list Page) (disk : gmap Z (list Byte.byte))
  : list Page * gmap Z (list Byte.byte) :=
  match ps with
  | [] => ([], disk)
  | p :: ps' =>
      if decide (page_id_ p = INVALID_PAGE_ID) then
        let '(qs, d) := flush_frames ps' disk in (p :: qs, d)
      else
        let '(qs, d) := flush_frames ps' (<[page_id_ p := data_ p]> disk) in
        (mkPage (data_ p) (page_id_ p) (pin_count_ p) false :: qs, d)
  end.

Definition FlushAllPgsImp (s : BufferPoolManagerInstance) : BufferPoolManagerInstance :=
  let '(ps, d) := flush_frames (pages_ s) (disk_ s) in
  mkBPM (pool_size_ s) ps (page_table_ s) (replacer_ s) (free_list_ s)
        (next_page_id_ s) d.

Definition DeletePgImp (s : BufferPoolManagerInstance) (page_id : page_id_t)
  : option (BufferPoolManagerInstance * bool) :=
  match page_table_ s !! page_id with
  | None => Some (s, true)
  | Some f =>
      page ← pages_ s !! f;
      if decide (0 < pin_count_ page) then Some (s, false)
      else
        r' ← Remove (replacer_ s) f;
        Some (mkBPM (pool_size_ s) (<[f := ResetPage page]> (pages_ s))
                    (delete page_id (page_table_ s)) r' (free_list_ s ++ [f])
                    (next_page_id_ s) (disk_ s), true)
  end.

(** A client writing into the buffer of a frame it holds ([GetData()]). *)
Definition write_data (s : BufferPoolManagerInstance) (f : frame_id_t)
    (bytes : list Byte.byte) : BufferPoolManagerInstance :=
  match pages_ s !! f with
  | Some page =>
      set_pages s (<[f := mkPage bytes (page_id_ page) (pin_count_ page)
                                 (is_dirty_ page)]> (pages_ s))
  | None => s
  end.

(** The operations of a client, and the states a pool goes through. *)
Inductive op :=
| OpNew
| OpFetch (page_id : page_id_t)
| OpUnpin (page_id : page_id_t) (is_dirty : bool)
| OpFlush (page_id : page_id_t)
| OpFlushAll
| OpDelete (page_id : page_id_t)
| OpWrite (f : frame_id_t) (bytes : list Byte.byte).

Definition step (s : BufferPoolManagerInstance) (o : op) : option BufferPoolManagerInstance :=
  match o with
  | OpNew => fst <$> NewPgImp s
  | OpFetch p => fst <$> FetchPgImp s p
  | OpUnpin p d => fst <$> UnpinPgImp s p d
  | OpFlush p => fst <$> FlushPgImp s p
  | OpFlushAll => Some (FlushAllPgsImp s)
  | OpDelete p => fst <$> DeletePgImp s p
  | OpWrite f bytes => Some (write_data s f bytes)
  end.

Fixpoint run (s : BufferPoolManagerInstance) (os : list op) : option BufferPoolManagerInstance :=
  match os with
  | [] => Some s
  | o :: os' => s' ← step s o; run s' os'
  end.

End Pool.

(** *** Invariant of the pool *)

Section PoolFacts.

Variable default_evictable : bool.

Lemma pin_in_replacer_spec r f :
  rep_inv r → (f ≤ replacer_size_ r)%nat →
  ∃ r' c, pin_in_replacer default_evictable r f = Some r' ∧ rep_inv r' ∧
    entries_ r' = <[f := mkEntry c false]> (entries_ r) ∧
    replacer_size_ r' = replacer_size_ r ∧ k_ r' = k_ r.
Proof.
  intros Hr Hf. unfold pin_in_replacer.
  destruct (RecordAccess_spec default_evictable r f Hr Hf) as (r1 & c & -> & Hr1 & He1 & Hs1 & Hk1).
  simpl. destruct (SetEvictable_spec r1 f false Hr1) as (r2 & -> & Hr2 & Hs2 & Hk2 & He2); [lia|].
  rewrite He1, lookup_insert_eq in He2. simpl in He2. rewrite insert_insert_eq in He2.
  exists r2, c. split; [done|]. split; [done|]. split; [done|]. split; congruence.
Qed.

(** Frames on the free list are unpinned and unmapped; a mapping of the
    page table names the page its frame holds, whose descriptor is
    evictable exactly when the pin count is zero; an evictable descriptor
    belongs to an unpinned frame. *)
Record bpm_inv (s : BufferPoolManagerInstance) : Prop := {
  bi_len : length (pages_ s) = pool_size_ s;
  bi_rsize : replacer_size_ (replacer_ s) = pool_size_ s;
  bi_rep : rep_inv (replacer_ s);
  bi_free_nodup : NoDup (free_list_ s);
  bi_free : ∀ f, f ∈ free_list_ s →
      (∃ pg, pages_ s !! f = Some pg ∧ pin_count_ pg = 0) ∧
      ∀ p, page_table_ s !! p ≠ Some f;
  bi_table : ∀ p f, page_table_ s !! p = Some f →
      ∃ pg e, pages_ s !! f = Some pg ∧ page_id_ pg = p ∧ 0 ≤ pin_count_ pg ∧
              entries_ (replacer_ s) !! f = Some e ∧
              is_evictable_ e = bool_decide (pin_count_ pg = 0);
  bi_entries : ∀ f e, entries_ (replacer_ s) !! f = Some e →
      ∃ pg, pages_ s !! f = Some pg ∧ (is_evictable_ e = true → pin_count_ pg = 0)
}.

Lemma lookup_frame_lt s f pg :
  bpm_inv s → pages_ s !! f = Some pg → (f < pool_size_ s)%nat.
Proof. intros Hs Hpg. rewrite <- (bi_len _ Hs). by eapply lookup_lt_Some. Qed.

Lemma bpm_inv_new n k disk :
  (2 ≤ k)%nat → bpm_inv (BufferPoolManagerInstance_new n k disk).
Proof.
  intros Hk. split; simpl.
  - apply length_replicate.
  - done.
  - by apply rep_inv_new.
  - apply NoDup_seq.
  - intros f Hf. apply elem_of_seq in Hf. split.
    + exists empty_page. split; [|done]. apply lookup_replicate_2. lia.
    + intros p. by rewrite lookup_empty.
  - intros p f Hp. by rewrite lookup_empty in Hp.
  - intros f e He. by rewrite lookup_empty in He.
Qed.

(** Installing a page in a frame that is unpinned, unmapped and off the
    free list. *)
Lemma install_inv s f pg pid data dirty nxt disk :
  bpm_inv s → pages_ s !! f = Some pg → pin_count_ pg = 0 →
  (∀ p, page_table_ s !! p ≠ Some f) → f ∉ free_list_ s →
  ∃ r', pin_in_replacer default_evictable (replacer_ s) f = Some r' ∧
    bpm_inv (mkBPM (pool_size_ s)
                   (<[f := mkPage data pid (pin_count_ pg + 1) dirty]> (pages_ s))
                   (<[pid := f]> (page_table_ s)) r' (free_list_ s) nxt disk).
Proof.
  intros Hs Hpg Hpin Hunm Hfree.
  pose proof (lookup_frame_lt _ _ _ Hs Hpg) as Hlt.
  destruct (pin_in_replacer_spec (replacer_ s) f (bi_rep _ Hs)) as (r' & c & Hr' & Hinv & Hent & Hsz & Hk).
  { rewrite (bi_rsize _ Hs). lia. }
  exists r'. split; [done|]. split; simpl.
  - rewrite length_insert. apply Hs.
  - rewrite Hsz. apply Hs.
  - done.
  - apply Hs.
  - intros f' Hf'. assert (f ≠ f') by (intros ->; done).
    destruct (bi_free _ Hs _ Hf') as [Hp Hn]. split.
    + by rewrite list_lookup_insert_ne.
    + intros p Hp'. apply lookup_insert_Some in Hp' as [[_ ?]|[_ Hp']]; [done|]. by eapply Hn.
  - intros p f' Hp. apply lookup_insert_Some in Hp as [[<- <-]|[Hne Hp]].
    + eexists _, _. rewrite list_lookup_insert_eq by (rewrite (bi_len _ Hs); lia).
      split; [done|]. simpl. split; [done|]. split; [lia|].
      rewrite Hent, lookup_insert_eq. split; [done|]. simpl.
      rewrite bool_decide_eq_false_2; [done|lia].
    + assert (f ≠ f') by (intros ->; by eapply Hunm).
      destruct (bi_table _ Hs _ _ Hp) as (pg' & e' & ? & ? & ? & ? & ?).
      exists pg', e'. rewrite list_lookup_insert_ne by done.
      rewrite Hent, lookup_insert_ne by done. done.
  - intros f' e He. rewrite Hent in He.
    apply lookup_insert_Some in He as [[<- <-]|[Hne He]].
    + eexists. rewrite list_lookup_insert_eq by (rewrite (bi_len _ Hs); lia).
      split; [done|]. simpl. done.
    + rewrite list_lookup_insert_ne by done. by eapply (bi_entries _ Hs).
Qed.

Lemma find_replacement_spec s :
  bpm_inv s →
  ∃ s1 o, find_replacement default_evictable s = Some (s1, o) ∧
    match o with
    | None =>
        s1 = s ∧ free_list_ s = [] ∧
        ∀ f e, entries_ (replacer_ s) !! f = Some e → is_evictable_ e = false
    | Some f =>
        bpm_inv s1 ∧ pool_size_ s1 = pool_size_ s ∧
        (∃ pg, pages_ s1 !! f = Some pg ∧ pin_count_ pg = 0) ∧
        (∀ p, page_table_ s1 !! p ≠ Some f) ∧ f ∉ free_list_ s1
    end.
Proof.
  intros Hs. unfold find_replacement.
  destruct (free_list_ s) as [|f fl] eqn:Hfl.
  - pose proof (Evict_spec default_evictable _ (bi_rep _ Hs)) as HE.
    destruct (Evict default_evictable (replacer_ s)) as [r' [f|]].
    + destruct HE as ((e & He & Hev) & Hent & Hr' & Hsz & Hk).
      destruct (bi_entries _ Hs _ _ He) as (pg & Hpg & Hpin). specialize (Hpin Hev).
      rewrite Hpg. simpl.
      assert (Htab : ∀ p f', delete (page_id_ pg) (page_table_ s) !! p = Some f' →
                page_table_ s !! p = Some f' ∧ f' ≠ f).
      { intros p f' Hp. apply lookup_delete_Some in Hp as [Hne Hp]. split; [done|].
        intros ->. destruct (bi_table _ Hs _ _ Hp) as (pg' & _ & Hpg' & Hid & _). congruence. }
      pose proof (lookup_frame_lt _ _ _ Hs Hpg) as Hlt.
      destruct (is_dirty_ pg).
      * eexists _, _. split; [done|]. split; [|split; [done|split; [|split]]]; simpl.
        -- split; simpl.
           ++ rewrite length_insert. apply Hs.
           ++ rewrite Hsz. apply Hs.
           ++ done.
           ++ apply NoDup_nil_2.
           ++ intros f' Hf'. inversion Hf'.
           ++ intros p f' Hp. apply Htab in Hp as [Hp Hne].
              destruct (bi_table _ Hs _ _ Hp) as (pg' & e' & ? & ? & ? & ? & ?).
              exists pg', e'. rewrite list_lookup_insert_ne by done.
              rewrite Hent, lookup_delete_ne by done. done.
           ++ intros f' e' He'. rewrite Hent in He'.
              apply lookup_delete_Some in He' as [Hne He'].
              rewrite list_lookup_insert_ne by done. by eapply (bi_entries _ Hs).
        -- eexists. rewrite list_lookup_insert_eq by (rewrite (bi_len _ Hs); lia). done.
        -- intros p Hp. apply Htab in Hp as [_ ?]. done.
        -- intros Hin. inversion Hin.
      * eexists _, _. split; [done|]. split; [|split; [done|split; [|split]]]; simpl.
        -- split; simpl.
           ++ apply Hs.
           ++ rewrite Hsz. apply Hs.
           ++ done.
           ++ apply NoDup_nil_2.
           ++ intros f' Hf'. inversion Hf'.
           ++ intros p f' Hp. apply Htab in Hp as [Hp Hne].
              destruct (bi_table _ Hs _ _ Hp) as (pg' & e' & ? & ? & ? & ? & ?).
              exists pg', e'. rewrite Hent, lookup_delete_ne by done. done.
           ++ intros f' e' He'. rewrite Hent in He'.
              apply lookup_delete_Some in He' as [Hne He']. by eapply (bi_entries _ Hs).
        -- eauto.
        -- intros p Hp. apply Htab in Hp as [_ ?]. done.
        -- intros Hin. inversion Hin.
    + destruct HE as [-> Hnone]. eexists _, _. split; [done|]. simpl.
      split; [by destruct s|]. done.
  - eexists _, _. split; [done|]. simpl.
    pose proof (bi_free_nodup _ Hs) as Hnd. rewrite Hfl in Hnd.
    apply NoDup_cons in Hnd as [Hnin Hnd].
    destruct (bi_free _ Hs f) as [Hpg Hunm]; [rewrite Hfl; left|].
    split; [|done]. split; simpl; try apply Hs; [done|].
    intros f' Hf'. apply (bi_free _ Hs). rewrite Hfl. by right.
Qed.

Lemma NewPgImp_inv s :
  bpm_inv s →
  ∃ s' o, NewPgImp default_evictable s = Some (s', o) ∧ bpm_inv s' ∧
    (o = None → ∀ f e, entries_ (replacer_ s) !! f = Some e → is_evictable_ e = false).
Proof.
  intros Hs. unfold NewPgImp.
  destruct (find_replacement_spec s Hs) as (s1 & [f|] & -> & H1); simpl.
  - destruct H1 as (Hs1 & Hsz & (pg & Hpg & Hpin) & Hunm & Hfree). rewrite Hpg. simpl.
    destruct (install_inv s1 f pg (next_page_id_ s1) (data_ pg) (is_dirty_ pg)
                (next_page_id_ s1 + 1) (disk_ s1) Hs1 Hpg Hpin Hunm Hfree) as (r' & -> & Hinv).
    simpl. eexists _, _. split; [done|]. split; [done|]. done.
  - destruct H1 as (-> & _ & Hnone). eexists _, _. split; [done|]. split; [done|]. done.
Qed.

Lemma find_replacement_none s :
  bpm_inv s → free_list_ s = [] →
  (∀ f e, entries_ (replacer_ s) !! f = Some e → is_evictable_ e = false) →
  find_replacement default_evictable s = Some (s, None).
Proof.
  intros Hs Hfl Hnone. unfold find_replacement. rewrite Hfl.
  pose proof (Evict_spec default_evictable _ (bi_rep _ Hs)) as HE.
  destruct (Evict default_evictable (replacer_ s)) as [r' [f|]].
  - destruct HE as ((e & He & Hev) & _). rewrite (Hnone _ _ He) in Hev. done.
  - destruct HE as [-> _]. by destruct s.
Qed.

Lemma FetchPgImp_inv s p :
  bpm_inv s → ∃ s' o, FetchPgImp default_evictable s p = Some (s', o) ∧ bpm_inv s'.
Proof.
  intros Hs. unfold FetchPgImp.
  destruct (page_table_ s !! p) as [f|] eqn:Hp.
  - destruct (bi_table _ Hs _ _ Hp) as (pg & e & Hpg & Hid & Hpin & He & Hev).
    rewrite Hpg. simpl.
    pose proof (lookup_frame_lt _ _ _ Hs Hpg) as Hlt.
    destruct (pin_in_replacer_spec (replacer_ s) f (bi_rep _ Hs)) as (r' & c & -> & Hinv & Hent & Hsz & Hk).
    { rewrite (bi_rsize _ Hs). lia. }
    simpl. eexists _, _. split; [done|]. split; simpl.
    + rewrite length_insert. apply Hs.
    + rewrite Hsz. apply Hs.
    + done.
    + apply Hs.
    + intros f' Hf'. destruct (bi_free _ Hs _ Hf') as [Hp' Hn].
      assert (f ≠ f') by (intros ->; by eapply Hn).
      by rewrite list_lookup_insert_ne.
    + intros p' f' Hp'. destruct (decide (f = f')) as [<-|Hne].
      * destruct (bi_table _ Hs _ _ Hp') as (pg' & e' & Hpg' & Hid' & _).
        eexists _, _. rewrite list_lookup_insert_eq by (rewrite (bi_len _ Hs); lia).
        split; [done|]. simpl. split; [congruence|]. split; [lia|].
        rewrite Hent, lookup_insert_eq. split; [done|]. simpl.
        rewrite bool_decide_eq_false_2; [done|lia].
      * destruct (bi_table _ Hs _ _ Hp') as (pg' & e' & ? & ? & ? & ? & ?).
        exists pg', e'. rewrite list_lookup_insert_ne by done.
        rewrite Hent, lookup_insert_ne by done. done.
    + intros f' e' He'. rewrite Hent in He'.
      apply lookup_insert_Some in He' as [[<- <-]|[Hne He']].
      * eexists. rewrite list_lookup_insert_eq by (rewrite (bi_len _ Hs); lia).
        split; [done|]. simpl. done.
      * rewrite list_lookup_insert_ne by done. by eapply (bi_entries _ Hs).
  - destruct (find_replacement_spec s Hs) as (s1 & [f|] & -> & H1); simpl.
    + destruct H1 as (Hs1 & Hsz & (pg & Hpg & Hpin) & Hunm & Hfree). rewrite Hpg. simpl.
      destruct (install_inv s1 f pg p (ReadPage (disk_ s1) p) (is_dirty_ pg)
                  (next_page_id_ s1) (disk_ s1) Hs1 Hpg Hpin Hunm Hfree) as (r' & -> & Hinv).
      simpl. eauto.
    + destruct H1 as (-> & _). eauto.
Qed.

Lemma UnpinPgImp_inv s p d :
  bpm_inv s → ∃ s' b, UnpinPgImp s p d = Some (s', b) ∧ bpm_inv s'.
Proof.
  intros Hs. unfold UnpinPgImp.
  destruct (page_table_ s !! p) as [f|] eqn:Hp; [|by eauto].
  destruct (bi_table _ Hs _ _ Hp) as (pg & e & Hpg & Hid & Hpin & He & Hev).
  rewrite Hpg. simpl.
  pose proof (lookup_frame_lt _ _ _ Hs Hpg) as Hlt.
  destruct (decide (0 < pin_count_ pg)) as [Hpos|]; [|by eauto].
  rewrite bool_decide_eq_false_2 in Hev by lia.
  assert (Hr : ∃ r', (if decide (pin_count_ pg - 1 = 0)
                      then SetEvictable (replacer_ s) f true else Some (replacer_ s)) = Some r' ∧
            rep_inv r' ∧ replacer_size_ r' = replacer_size_ (replacer_ s) ∧
            entries_ r' = <[f := mkEntry (hint_count_ e) (bool_decide (pin_count_ pg - 1 = 0))]>
                            (entries_ (replacer_ s))).
  { destruct (decide (pin_count_ pg - 1 = 0)) as [Hz|Hnz].
    - destruct (SetEvictable_spec (replacer_ s) f true (bi_rep _ Hs)) as (r' & -> & Hr' & Hsz & Hk & Hent).
      { rewrite (bi_rsize _ Hs). lia. }
      rewrite He in Hent. exists r'. rewrite bool_decide_eq_true_2 by done. done.
    - exists (replacer_ s). rewrite bool_decide_eq_false_2 by done.
      split; [done|]. split; [apply Hs|]. split; [done|].
      rewrite insert_id; [done|]. rewrite He. f_equal. destruct e; simpl in *; congruence. }
  destruct Hr as (r' & Hr' & Hinv & Hsz & Hent). simpl. rewrite Hr'. simpl.
  eexists _, _. split; [done|]. split; simpl.
  - rewrite length_insert. apply Hs.
  - rewrite Hsz. apply Hs.
  - done.
  - apply Hs.
  - intros f' Hf'. destruct (bi_free _ Hs _ Hf') as [Hp' Hn].
    assert (f ≠ f') by (intros ->; by eapply Hn).
    by rewrite list_lookup_insert_ne.
  - intros p' f' Hp'. destruct (decide (f = f')) as [<-|Hne].
    + destruct (bi_table _ Hs _ _ Hp') as (pg' & e' & Hpg' & Hid' & _).
      eexists _, _. rewrite list_lookup_insert_eq by (rewrite (bi_len _ Hs); lia).
      split; [done|]. simpl. split; [congruence|]. split; [lia|].
      rewrite Hent, lookup_insert_eq. done.
    + destruct (bi_table _ Hs _ _ Hp') as (pg' & e' & ? & ? & ? & ? & ?).
      exists pg', e'. rewrite list_lookup_insert_ne by done.
      rewrite Hent, lookup_insert_ne by done. done.
  - intros f' e' He'. rewrite Hent in He'.
    apply lookup_insert_Some in He' as [[<- <-]|[Hne He']].
    + eexists. rewrite list_lookup_insert_eq by (rewrite (bi_len _ Hs); lia).
      split; [done|]. simpl. intros Hb. by apply bool_decide_eq_true in Hb.
    + rewrite list_lookup_insert_ne by done. by eapply (bi_entries _ Hs).
Qed.

(** Operations that change neither page ids nor pin counts. *)
Definition same_meta (a b : Page) : Prop :=
  page_id_ a = page_id_ b ∧ pin_count_ a = pin_count_ b.

Lemma bpm_inv_same_meta s ps d :
  bpm_inv s → Forall2 same_meta (pages_ s) ps →
  bpm_inv (mkBPM (pool_size_ s) ps (page_table_ s) (replacer_ s) (free_list_ s)
                 (next_page_id_ s) d).
Proof.
  intros Hs Hps.
  assert (Hlk : ∀ f pg, pages_ s !! f = Some pg → ∃ pg', ps !! f = Some pg' ∧ same_meta pg pg').
  { intros f pg Hpg. by eapply Forall2_lookup_l. }
  split; simpl; try apply Hs.
  - rewrite <- (Forall2_length _ _ _ Hps). apply Hs.
  - intros f Hf. destruct (bi_free _ Hs _ Hf) as [(pg & Hpg & Hpin) Hn]. split; [|done].
    destruct (Hlk _ _ Hpg) as (pg' & -> & _ & Hp). exists pg'. split; [done|congruence].
  - intros p f Hp. destruct (bi_table _ Hs _ _ Hp) as (pg & e & Hpg & ? & ? & ? & ?).
    destruct (Hlk _ _ Hpg) as (pg' & -> & Hi & Hc). exists pg', e.
    rewrite <- Hi, <- Hc. done.
  - intros f e He. destruct (bi_entries _ Hs _ _ He) as (pg & Hpg & Hev).
    destruct (Hlk _ _ Hpg) as (pg' & -> & Hi & Hc). exists pg'. rewrite <- Hc. done.
Qed.

Lemma same_meta_insert (ps : list Page) f pg pg' :
  ps !! f = Some pg → same_meta pg pg' → Forall2 same_meta ps (<[f := pg']> ps).
Proof.
  intros Hpg Hm. rewrite <- (list_insert_id ps f pg Hpg) at 1.
  apply Forall2_insert; [|done]. apply Forall_Forall2_diag, Forall_forall. done.
Qed.

Lemma FlushPgImp_inv s p s' b :
  bpm_inv s → FlushPgImp s p = Some (s', b) → bpm_inv s'.
Proof.
  intros Hs. unfold FlushPgImp.
  destruct (decide (p = INVALID_PAGE_ID)); [done|].
  destruct (page_table_ s !! p) as [f|]; [|by intros [= <- <-]].
  destruct (pages_ s !! f) as [pg|] eqn:Hpg; [|done]. simpl. intros [= <- <-].
  apply (bpm_inv_same_meta s); [done|]. by eapply same_meta_insert.
Qed.

Lemma flush_frames_meta ps d : Forall2 same_meta ps (flush_frames ps d).1.
Proof.
  revert d. induction ps as [|pg ps IH]; intros d; simpl; [constructor|].
  destruct (decide (page_id_ pg = INVALID_PAGE_ID)).
  - specialize (IH d). destruct (flush_frames ps d). by constructor.
  - specialize (IH (<[page_id_ pg := data_ pg]> d)).
    destruct (flush_frames ps _). by constructor.
Qed.

Lemma FlushAllPgsImp_inv s : bpm_inv s → bpm_inv (FlushAllPgsImp s).
Proof.
  intros Hs. unfold FlushAllPgsImp.
  pose proof (flush_frames_meta (pages_ s) (disk_ s)) as Hm.
  destruct (flush_frames (pages_ s) (disk_ s)) as [ps d]. by apply (bpm_inv_same_meta s).
Qed.

Lemma write_data_inv s f bytes : bpm_inv s → bpm_inv (write_data s f bytes).
Proof.
  intros Hs. unfold write_data. destruct (pages_ s !! f) as [pg|] eqn:Hpg; [|done].
  apply (bpm_inv_same_meta s); [done|]. by eapply same_meta_insert.
Qed.

Lemma DeletePgImp_inv s p :
  bpm_inv s → ∃ s' b, DeletePgImp s p = Some (s', b) ∧ bpm_inv s'.
Proof.
  intros Hs. unfold DeletePgImp.
  destruct (page_table_ s !! p) as [f|] eqn:Hp; [|by eauto].
  destruct (bi_table _ Hs _ _ Hp) as (pg & e & Hpg & Hid & Hpin & He & Hev).
  rewrite Hpg. simpl.
  pose proof (lookup_frame_lt _ _ _ Hs Hpg) as Hlt.
  destruct (decide (0 < pin_count_ pg)) as [Hpos|Hz]; [by eauto|].
  rewrite bool_decide_eq_true_2 in Hev by lia.
  destruct (Remove_spec (replacer_ s) f e (bi_rep _ Hs)) as (r' & -> & Hr' & Hsz & Hk & Hent); try done.
  { rewrite (bi_rsize _ Hs). lia. }
  simpl. eexists _, _. split; [done|].
  assert (Htab : ∀ p' f', delete p (page_table_ s) !! p' = Some f' →
            page_table_ s !! p' = Some f' ∧ f' ≠ f).
  { intros p' f' Hp'. apply lookup_delete_Some in Hp' as [Hne Hp']. split; [done|].
    intros ->. destruct (bi_table _ Hs _ _ Hp') as (pg' & _ & Hpg' & Hid' & _). congruence. }
  assert (Hnf : f ∉ free_list_ s).
  { intros Hf. destruct (bi_free _ Hs _ Hf) as [_ Hn]. by eapply Hn. }
  split; simpl.
  - rewrite length_insert. apply Hs.
  - rewrite Hsz. apply Hs.
  - done.
  - apply NoDup_app. split; [apply Hs|]. split; [|apply NoDup_singleton].
    intros x Hx Hx'. apply list_elem_of_singleton in Hx'. by subst.
  - intros f' Hf'. apply elem_of_app in Hf' as [Hf'|Hf'].
    + destruct (bi_free _ Hs _ Hf') as [Hp' Hn].
      assert (f ≠ f') by (intros ->; done).
      rewrite list_lookup_insert_ne by done. split; [done|].
      intros p' Hp''. apply Htab in Hp'' as [Hp'' _]. by eapply Hn.
    + apply list_elem_of_singleton in Hf' as ->. split.
      * eexists. rewrite list_lookup_insert_eq by (rewrite (bi_len _ Hs); lia).
        split; [done|]. simpl. lia.
      * intros p' Hp'. apply Htab in Hp' as [_ ?]. done.
  - intros p' f' Hp'. apply Htab in Hp' as [Hp' Hne].
    destruct (bi_table _ Hs _ _ Hp') as (pg' & e' & ? & ? & ? & ? & ?).
    exists pg', e'. rewrite list_lookup_insert_ne by done.
    rewrite Hent, lookup_delete_ne by done. done.
  - intros f' e' He'. rewrite Hent in He'.
    apply lookup_delete_Some in He' as [Hne He'].
    rewrite list_lookup_insert_ne by done. by eapply (bi_entries _ Hs).
Qed.

Lemma bpm_step_inv s o s' :
  bpm_inv s → step default_evictable s o = Some s' → bpm_inv s'.
Proof.
  intros Hs. destruct o; simpl.
  - destruct (NewPgImp_inv s Hs) as (s1 & o & -> & H1 & _). by intros [= <-].
  - destruct (FetchPgImp_inv s page_id Hs) as (s1 & o & -> & H1). by intros [= <-].
  - destruct (UnpinPgImp_inv s page_id is_dirty Hs) as (s1 & o & -> & H1). by intros [= <-].
  - destruct (FlushPgImp s page_id) as [[s1 b]|] eqn:Hf; [|done]. intros [= <-].
    by eapply FlushPgImp_inv.
  - intros [= <-]. by apply FlushAllPgsImp_inv.
  - destruct (DeletePgImp_inv s page_id Hs) as (s1 & o & -> & H1). by intros [= <-].
  - intros [= <-]. by apply write_data_inv.
Qed.

Lemma bpm_run_inv s os s' :
  bpm_inv s → run default_evictable s os = Some s' → bpm_inv s'.
Proof.
  revert s. induction os as [|o os IH]; intros s Hs; simpl.
  - by intros [= <-].
  - destruct (step default_evictable s o) as [s1|] eqn:Hstep; [|done]. simpl.
    apply IH. by eapply bpm_step_inv.
Qed.


(** *** The pool for every [k] of the replacer

    With [k < 2] the replacer erases list nodes through stale positions
    (undefined behaviour) when a frame is accessed twice or removed; the
    states below are those reached by calls that returned. *)

Record bpm_wf (s : BufferPoolManagerInstance) : Prop := {
  bw_len : length (pages_ s) = pool_size_ s;
  bw_rsize : replacer_size_ (replacer_ s) = pool_size_ s;
  bw_rep : rep_wf (replacer_ s);
  bw_free_nodup : NoDup (free_list_ s);
  bw_free : ∀ f, f ∈ free_list_ s →
      (∃ pg, pages_ s !! f = Some pg ∧ pin_count_ pg = 0) ∧
      ∀ p, page_table_ s !! p ≠ Some f;
  bw_table : ∀ p f, page_table_ s !! p = Some f →
      ∃ pg e, pages_ s !! f = Some pg ∧ page_id_ pg = p ∧ 0 ≤ pin_count_ pg ∧
              entries_ (replacer_ s) !! f = Some e ∧
              is_evictable_ e = bool_decide (pin_count_ pg = 0);
  bw_entries : ∀ f e, entries_ (replacer_ s) !! f = Some e →
      ∃ pg, pages_ s !! f = Some pg ∧ (is_evictable_ e = true → pin_count_ pg = 0)
}.

Lemma bpm_wf_new n k disk : bpm_wf (BufferPoolManagerInstance_new n k disk).
Proof.
  split; simpl.
  - apply length_replicate.
  - done.
  - apply rep_wf_new.
  - apply NoDup_seq.
  - intros f Hf. apply elem_of_seq in Hf. split.
    + exists empty_page. split; [|done]. apply lookup_replicate_2. lia.
    + intros p. by rewrite lookup_empty.
  - intros p f Hp. by rewrite lookup_empty in Hp.
  - intros f e He. by rewrite lookup_empty in He.
Qed.

Lemma wf_frame_lt s f pg :
  bpm_wf s → pages_ s !! f = Some pg → (f < pool_size_ s)%nat.
Proof. intros Hs Hpg. rewrite <- (bw_len _ Hs). by eapply lookup_lt_Some. Qed.

Lemma pin_in_replacer_wf r f r' :
  rep_wf r → pin_in_replacer default_evictable r f = Some r' →
  rep_wf r' ∧ replacer_size_ r' = replacer_size_ r ∧
  ∃ c, entries_ r' = <[f := mkEntry c false]> (entries_ r).
Proof.
  intros Hr. unfold pin_in_replacer.
  destruct (RecordAccess default_evictable r f) as [r1|] eqn:Hrec; [|done]. simpl.
  assert (Hf : (f ≤ replacer_size_ r)%nat).
  { unfold RecordAccess in Hrec. destruct (decide (replacer_size_ r < f)%nat); [done|lia]. }
  destruct (RecordAccess_wf default_evictable r f r1 Hr Hrec) as (Hr1 & Hsz1 & c & He1).
  destruct (SetEvictable_wf r1 f false Hr1) as (r2 & Hset & Hr2 & Hsz2 & He2); [lia|].
  rewrite Hset. intros [= <-]. split; [done|]. split; [congruence|].
  rewrite He1, lookup_insert_eq in He2. simpl in He2. rewrite insert_insert_eq in He2.
  by exists c.
Qed.

Lemma pin_in_replacer_first r f :
  rep_wf r → (f ≤ replacer_size_ r)%nat → entries_ r !! f = None →
  is_Some (pin_in_replacer default_evictable r f).
Proof.
  intros Hr Hf He. unfold pin_in_replacer.
  destruct (RecordAccess_first default_evictable r f Hf He) as [r1 Hrec]. rewrite Hrec. simpl.
  destruct (RecordAccess_wf default_evictable r f r1 Hr Hrec) as (Hr1 & Hsz1 & _).
  destruct (SetEvictable_wf r1 f false Hr1) as (r2 & Hset & _); [lia|]. by eexists.
Qed.

Lemma install_wf s f pg pid data dirty nxt disk r' :
  bpm_wf s → pages_ s !! f = Some pg → pin_count_ pg = 0 →
  (∀ p, page_table_ s !! p ≠ Some f) → f ∉ free_list_ s →
  pin_in_replacer default_evictable (replacer_ s) f = Some r' →
  bpm_wf (mkBPM (pool_size_ s)
                (<[f := mkPage data pid (pin_count_ pg + 1) dirty]> (pages_ s))
                (<[pid := f]> (page_table_ s)) r' (free_list_ s) nxt disk).
Proof.
  intros Hs Hpg Hpin Hunm Hfree Hr'.
  pose proof (wf_frame_lt _ _ _ Hs Hpg) as Hlt.
  destruct (pin_in_replacer_wf _ _ _ (bw_rep _ Hs) Hr') as (Hinv & Hsz & c & Hent).
  split; simpl.
  - rewrite length_insert. apply Hs.
  - rewrite Hsz. apply Hs.
  - done.
  - apply Hs.
  - intros f' Hf'. assert (f ≠ f') by (intros ->; done).
    destruct (bw_free _ Hs _ Hf') as [Hp Hn]. split.
    + by rewrite list_lookup_insert_ne.
    + intros p Hp'. apply lookup_insert_Some in Hp' as [[_ ?]|[_ Hp']]; [done|]. by eapply Hn.
  - intros p f' Hp. apply lookup_insert_Some in Hp as [[<- <-]|[Hne Hp]].
    + eexists _, _. rewrite list_lookup_insert_eq by (rewrite (bw_len _ Hs); lia).
      split; [done|]. simpl. split; [done|]. split; [lia|].
      rewrite Hent, lookup_insert_eq. split; [done|]. simpl.
      rewrite bool_decide_eq_false_2; [done|lia].
    + assert (f ≠ f') by (intros ->; by eapply Hunm).
      destruct (bw_table _ Hs _ _ Hp) as (pg' & e' & ? & ? & ? & ? & ?).
      exists pg', e'. rewrite list_lookup_insert_ne by done.
      rewrite Hent, lookup_insert_ne by done. done.
  - intros f' e He. rewrite Hent in He.
    apply lookup_insert_Some in He as [[<- <-]|[Hne He]].
    + eexists. rewrite list_lookup_insert_eq by (rewrite (bw_len _ Hs); lia).
      split; [done|]. simpl. done.
    + rewrite list_lookup_insert_ne by done. by eapply (bw_entries _ Hs).
Qed.

Lemma find_replacement_wf s :
  bpm_wf s →
  ∃ s1 o, find_replacement default_evictable s = Some (s1, o) ∧
    match o with
    | None =>
        s1 = s ∧ free_list_ s = [] ∧
        ∀ f e, entries_ (replacer_ s) !! f = Some e → is_evictable_ e = false
    | Some f =>
        bpm_wf s1 ∧ pool_size_ s1 = pool_size_ s ∧
        (∃ pg, pages_ s1 !! f = Some pg ∧ pin_count_ pg = 0) ∧
        (∀ p, page_table_ s1 !! p ≠ Some f) ∧ f ∉ free_list_ s1 ∧
        (free_list_ s = [] →
           entries_ (replacer_ s1) !! f = None ∧
           ∃ e, entries_ (replacer_ s) !! f = Some e ∧ is_evictable_ e = true)
    end.
Proof.
  intros Hs. unfold find_replacement.
  destruct (free_list_ s) as [|f fl] eqn:Hfl.
  - pose proof (Evict_wf default_evictable _ (bw_rep _ Hs)) as HE.
    destruct (Evict default_evictable (replacer_ s)) as [r' [f|]].
    + destruct HE as ((e & He & Hev) & Hent & Hr' & Hsz).
      destruct (bw_entries _ Hs _ _ He) as (pg & Hpg & Hpin). specialize (Hpin Hev).
      rewrite Hpg. simpl.
      assert (Htab : ∀ p f', delete (page_id_ pg) (page_table_ s) !! p = Some f' →
                page_table_ s !! p = Some f' ∧ f' ≠ f).
      { intros p f' Hp. apply lookup_delete_Some in Hp as [Hne Hp]. split; [done|].
        intros ->. destruct (bw_table _ Hs _ _ Hp) as (pg' & _ & Hpg' & Hid & _). congruence. }
      pose proof (wf_frame_lt _ _ _ Hs Hpg) as Hlt.
      assert (Hgone : entries_ r' !! f = None) by (rewrite Hent; apply lookup_delete_eq).
      destruct (is_dirty_ pg).
      * eexists _, _. split; [done|]. split; [|split; [done|split; [|split; [|split]]]]; simpl.
        -- split; simpl.
           ++ rewrite length_insert. apply Hs.
           ++ rewrite Hsz. apply Hs.
           ++ done.
           ++ apply NoDup_nil_2.
           ++ intros f' Hf'. inversion Hf'.
           ++ intros p f' Hp. apply Htab in Hp as [Hp Hne].
              destruct (bw_table _ Hs _ _ Hp) as (pg' & e' & ? & ? & ? & ? & ?).
              exists pg', e'. rewrite list_lookup_insert_ne by done.
              rewrite Hent, lookup_delete_ne by done. done.
           ++ intros f' e' He'. rewrite Hent in He'.
              apply lookup_delete_Some in He' as [Hne He'].
              rewrite list_lookup_insert_ne by done. by eapply (bw_entries _ Hs).
        -- eexists. rewrite list_lookup_insert_eq by (rewrite (bw_len _ Hs); lia). done.
        -- intros p Hp. apply Htab in Hp as [_ ?]. done.
        -- intros Hin. inversion Hin.
        -- intros _. split; [done|]. by exists e.
      * eexists _, _. split; [done|]. split; [|split; [done|split; [|split; [|split]]]]; simpl.
        -- split; simpl.
           ++ apply Hs.
           ++ rewrite Hsz. apply Hs.
           ++ done.
           ++ apply NoDup_nil_2.
           ++ intros f' Hf'. inversion Hf'.
           ++ intros p f' Hp. apply Htab in Hp as [Hp Hne].
              destruct (bw_table _ Hs _ _ Hp) as (pg' & e' & ? & ? & ? & ? & ?).
              exists pg', e'. rewrite Hent, lookup_delete_ne by done. done.
           ++ intros f' e' He'. rewrite Hent in He'.
              apply lookup_delete_Some in He' as [Hne He']. by eapply (bw_entries _ Hs).
        -- eauto.
        -- intros p Hp. apply Htab in Hp as [_ ?]. done.
        -- intros Hin. inversion Hin.
        -- intros _. split; [done|]. by exists e.
    + destruct HE as [-> Hnone]. eexists _, _. split; [done|]. simpl.
      split; [by destruct s|]. done.
  - eexists _, _. split; [done|]. simpl.
    pose proof (bw_free_nodup _ Hs) as Hnd. rewrite Hfl in Hnd.
    apply NoDup_cons in Hnd as [Hnin Hnd].
    destruct (bw_free _ Hs f) as [Hpg Hunm]; [rewrite Hfl; left|].
    split; [|done]. split; simpl; try apply Hs; [done|].
    intros f' Hf'. apply (bw_free _ Hs). rewrite Hfl. by right.
Qed.

Lemma NewPgImp_wf s s' o :
  bpm_wf s → NewPgImp default_evictable s = Some (s', o) → bpm_wf s'.
Proof.
  intros Hs. unfold NewPgImp.
  destruct (find_replacement_wf s Hs) as (s1 & [f|] & -> & H1); simpl.
  - destruct H1 as (Hs1 & Hsz & (pg & Hpg & Hpin) & Hunm & Hfree & _). rewrite Hpg. simpl.
    destruct (pin_in_replacer default_evictable (replacer_ s1) f) as [r'|] eqn:Hr'; [|done].
    simpl. intros [= <- <-]. by apply install_wf.
  - destruct H1 as (-> & _). by intros [= <- <-].
Qed.

Lemma FetchPgImp_wf s p s' o :
  bpm_wf s → FetchPgImp default_evictable s p = Some (s', o) → bpm_wf s'.
Proof.
  intros Hs. unfold FetchPgImp.
  destruct (page_table_ s !! p) as [f|] eqn:Hp.
  - destruct (bw_table _ Hs _ _ Hp) as (pg & e & Hpg & Hid & Hpin & He & Hev).
    rewrite Hpg. simpl.
    pose proof (wf_frame_lt _ _ _ Hs Hpg) as Hlt.
    destruct (pin_in_replacer default_evictable (replacer_ s) f) as [r'|] eqn:Hr'; [|done].
    destruct (pin_in_replacer_wf _ _ _ (bw_rep _ Hs) Hr') as (Hinv & Hsz & c & Hent).
    simpl. intros [= <- <-]. split; simpl.
    + rewrite length_insert. apply Hs.
    + rewrite Hsz. apply Hs.
    + done.
    + apply Hs.
    + intros f' Hf'. destruct (bw_free _ Hs _ Hf') as [Hp' Hn].
      assert (f ≠ f') by (intros ->; by eapply Hn).
      by rewrite list_lookup_insert_ne.
    + intros p' f' Hp'. destruct (decide (f = f')) as [<-|Hne].
      * destruct (bw_table _ Hs _ _ Hp') as (pg' & e' & Hpg' & Hid' & _).
        eexists _, _. rewrite list_lookup_insert_eq by (rewrite (bw_len _ Hs); lia).
        split; [done|]. simpl. split; [congruence|]. split; [lia|].
        rewrite Hent, lookup_insert_eq. split; [done|]. simpl.
        rewrite bool_decide_eq_false_2; [done|lia].
      * destruct (bw_table _ Hs _ _ Hp') as (pg' & e' & ? & ? & ? & ? & ?).
        exists pg', e'. rewrite list_lookup_insert_ne by done.
        rewrite Hent, lookup_insert_ne by done. done.
    + intros f' e' He'. rewrite Hent in He'.
      apply lookup_insert_Some in He' as [[<- <-]|[Hne He']].
      * eexists. rewrite list_lookup_insert_eq by (rewrite (bw_len _ Hs); lia).
        split; [done|]. simpl. done.
      * rewrite list_lookup_insert_ne by done. by eapply (bw_entries _ Hs).
  - destruct (find_replacement_wf s Hs) as (s1 & [f|] & -> & H1); simpl.
    + destruct H1 as (Hs1 & Hsz & (pg & Hpg & Hpin) & Hunm & Hfree & _). rewrite Hpg. simpl.
      destruct (pin_in_replacer default_evictable (replacer_ s1) f) as [r'|] eqn:Hr'; [|done].
      simpl. intros [= <- <-]. by apply install_wf.
    + destruct H1 as (-> & _). by intros [= <- <-].
Qed.

(** [UnpinPgImp] of a page in the pool whose pin count is positive:
    the call returns [true], the count goes down by one, and the frame
    is evictable in the replacer when the count has reached zero. *)
Lemma UnpinPgImp_wf s p d :
  bpm_wf s →
  ∃ s' b, UnpinPgImp s p d = Some (s', b) ∧ bpm_wf s' ∧
    ∀ f pg, page_table_ s !! p = Some f → pages_ s !! f = Some pg → 0 < pin_count_ pg →
      b = true ∧ page_table_ s' = page_table_ s ∧ free_list_ s' = free_list_ s ∧
      pages_ s' = <[f := mkPage (data_ pg) (page_id_ pg) (pin_count_ pg - 1)
                                (if d then true else is_dirty_ pg)]> (pages_ s).
Proof.
  intros Hs. unfold UnpinPgImp.
  destruct (page_table_ s !! p) as [f|] eqn:Hp.
  2:{ eexists _, _. split; [done|]. split; [done|]. intros ? ? [=]. }
  destruct (bw_table _ Hs _ _ Hp) as (pg & e & Hpg & Hid & Hpin & He & Hev).
  rewrite Hpg. simpl.
  pose proof (wf_frame_lt _ _ _ Hs Hpg) as Hlt.
  destruct (decide (0 < pin_count_ pg)) as [Hpos|].
  2:{ eexists _, _. split; [done|]. split; [done|].
      intros f' pg' [= <-] Hpg'. rewrite Hpg in Hpg'. injection Hpg' as <-. lia. }
  rewrite bool_decide_eq_false_2 in Hev by lia.
  assert (Hr : ∃ r', (if decide (pin_count_ pg - 1 = 0)
                      then SetEvictable (replacer_ s) f true else Some (replacer_ s)) = Some r' ∧
            rep_wf r' ∧ replacer_size_ r' = replacer_size_ (replacer_ s) ∧
            entries_ r' = <[f := mkEntry (hint_count_ e) (bool_decide (pin_count_ pg - 1 = 0))]>
                            (entries_ (replacer_ s))).
  { destruct (decide (pin_count_ pg - 1 = 0)) as [Hz|Hnz].
    - destruct (SetEvictable_wf (replacer_ s) f true (bw_rep _ Hs)) as (r' & -> & Hr' & Hsz & Hent).
      { rewrite (bw_rsize _ Hs). lia. }
      rewrite He in Hent. exists r'. rewrite bool_decide_eq_true_2 by done. done.
    - exists (replacer_ s). rewrite bool_decide_eq_false_2 by done.
      split; [done|]. split; [apply Hs|]. split; [done|].
      rewrite insert_id; [done|]. rewrite He. f_equal. destruct e; simpl in *; congruence. }
  destruct Hr as (r' & Hr' & Hinv & Hsz & Hent). simpl. rewrite Hr'. simpl.
  eexists _, _. split; [done|]. split.
  2:{ intros f' pg' [= <-] Hpg' _. rewrite Hpg in Hpg'. by injection Hpg' as <-. }
  split; simpl.
  - rewrite length_insert. apply Hs.
  - rewrite Hsz. apply Hs.
  - done.
  - apply Hs.
  - intros f' Hf'. destruct (bw_free _ Hs _ Hf') as [Hp' Hn].
    assert (f ≠ f') by (intros ->; by eapply Hn).
    by rewrite list_lookup_insert_ne.
  - intros p' f' Hp'. destruct (decide (f = f')) as [<-|Hne].
    + destruct (bw_table _ Hs _ _ Hp') as (pg' & e' & Hpg' & Hid' & _).
      eexists _, _. rewrite list_lookup_insert_eq by (rewrite (bw_len _ Hs); lia).
      split; [done|]. simpl. split; [congruence|]. split; [lia|].
      rewrite Hent, lookup_insert_eq. done.
    + destruct (bw_table _ Hs _ _ Hp') as (pg' & e' & ? & ? & ? & ? & ?).
      exists pg', e'. rewrite list_lookup_insert_ne by done.
      rewrite Hent, lookup_insert_ne by done. done.
  - intros f' e' He'. rewrite Hent in He'.
    apply lookup_insert_Some in He' as [[<- <-]|[Hne He']].
    + eexists. rewrite list_lookup_insert_eq by (rewrite (bw_len _ Hs); lia).
      split; [done|]. simpl. intros Hb. by apply bool_decide_eq_true in Hb.
    + rewrite list_lookup_insert_ne by done. by eapply (bw_entries _ Hs).
Qed.

Lemma bpm_wf_same_meta s ps d :
  bpm_wf s → Forall2 same_meta (pages_ s) ps →
  bpm_wf (mkBPM (pool_size_ s) ps (page_table_ s) (replacer_ s) (free_list_ s)
                (next_page_id_ s) d).
Proof.
  intros Hs Hps.
  assert (Hlk : ∀ f pg, pages_ s !! f = Some pg → ∃ pg', ps !! f = Some pg' ∧ same_meta pg pg').
  { intros f pg Hpg. by eapply Forall2_lookup_l. }
  split; simpl; try apply Hs.
  - rewrite <- (Forall2_length _ _ _ Hps). apply Hs.
  - intros f Hf. destruct (bw_free _ Hs _ Hf) as [(pg & Hpg & Hpin) Hn]. split; [|done].
    destruct (Hlk _ _ Hpg) as (pg' & -> & _ & Hp). exists pg'. split; [done|congruence].
  - intros p f Hp. destruct (bw_table _ Hs _ _ Hp) as (pg & e & Hpg & ? & ? & ? & ?).
    destruct (Hlk _ _ Hpg) as (pg' & -> & Hi & Hc). exists pg', e.
    rewrite <- Hi, <- Hc. done.
  - intros f e He. destruct (bw_entries _ Hs _ _ He) as (pg & Hpg & Hev).
    destruct (Hlk _ _ Hpg) as (pg' & -> & Hi & Hc). exists pg'. rewrite <- Hc. done.
Qed.

Lemma DeletePgImp_wf s p s' b :
  bpm_wf s → DeletePgImp s p = Some (s', b) → bpm_wf s'.
Proof.
  intros Hs. unfold DeletePgImp.
  destruct (page_table_ s !! p) as [f|] eqn:Hp; [|by intros [= <- <-]].
  destruct (bw_table _ Hs _ _ Hp) as (pg & e & Hpg & Hid & Hpin & He & Hev).
  rewrite Hpg. simpl.
  pose proof (wf_frame_lt _ _ _ Hs Hpg) as Hlt.
  destruct (decide (0 < pin_count_ pg)) as [Hpos|Hz]; [by intros [= <- <-]|].
  rewrite bool_decide_eq_true_2 in Hev by lia.
  destruct (Remove (replacer_ s) f) as [r'|] eqn:Hrem; [|done]. simpl. intros [= <- <-].
  destruct (Remove_wf _ _ _ (bw_rep _ Hs) Hrem) as (Hr' & Hsz & Hent).
  rewrite He, Hev in Hent.
  assert (Htab : ∀ p' f', delete p (page_table_ s) !! p' = Some f' →
            page_table_ s !! p' = Some f' ∧ f' ≠ f).
  { intros p' f' Hp'. apply lookup_delete_Some in Hp' as [Hne Hp']. split; [done|].
    intros ->. destruct (bw_table _ Hs _ _ Hp') as (pg' & _ & Hpg' & Hid' & _). congruence. }
  assert (Hnf : f ∉ free_list_ s).
  { intros Hf. destruct (bw_free _ Hs _ Hf) as [_ Hn]. by eapply Hn. }
  split; simpl.
  - rewrite length_insert. apply Hs.
  - rewrite Hsz. apply Hs.
  - done.
  - apply NoDup_app. split; [apply Hs|]. split; [|apply NoDup_singleton].
    intros x Hx Hx'. apply list_elem_of_singleton in Hx'. by subst.
  - intros f' Hf'. apply elem_of_app in Hf' as [Hf'|Hf'].
    + destruct (bw_free _ Hs _ Hf') as [Hp' Hn].
      assert (f ≠ f') by (intros ->; done).
      rewrite list_lookup_insert_ne by done. split; [done|].
      intros p' Hp''. apply Htab in Hp'' as [Hp'' _]. by eapply Hn.
    + apply list_elem_of_singleton in Hf' as ->. split.
      * eexists. rewrite list_lookup_insert_eq by (rewrite (bw_len _ Hs); lia).
        split; [done|]. simpl. lia.
      * intros p' Hp'. apply Htab in Hp' as [_ ?]. done.
  - intros p' f' Hp'. apply Htab in Hp' as [Hp' Hne].
    destruct (bw_table _ Hs _ _ Hp') as (pg' & e' & ? & ? & ? & ? & ?).
    exists pg', e'. rewrite list_lookup_insert_ne by done.
    rewrite Hent, lookup_delete_ne by done. done.
  - intros f' e' He'. rewrite Hent in He'.
    apply lookup_delete_Some in He' as [Hne He'].
    rewrite list_lookup_insert_ne by done. by eapply (bw_entries _ Hs).
Qed.

Lemma bpm_step_wf s o s' :
  bpm_wf s → step default_evictable s o = Some s' → bpm_wf s'.
Proof.
  intros Hs. destruct o; simpl.
  - destruct (NewPgImp default_evictable s) as [[s1 o]|] eqn:Hop; [|done]. intros [= <-].
    by eapply NewPgImp_wf.
  - destruct (FetchPgImp default_evictable s page_id) as [[s1 o]|] eqn:Hop; [|done].
    intros [= <-]. by eapply FetchPgImp_wf.
  - destruct (UnpinPgImp_wf s page_id is_dirty Hs) as (s1 & b & -> & H1 & _). by intros [= <-].
  - unfold FlushPgImp. destruct (decide (page_id = INVALID_PAGE_ID)); [done|].
    destruct (page_table_ s !! page_id) as [f|]; [|by intros [= <-]].
    destruct (pages_ s !! f) as [pg|] eqn:Hpg; [|done]. simpl. intros [= <-].
    apply (bpm_wf_same_meta s); [done|]. by eapply same_meta_insert.
  - intros [= <-]. unfold FlushAllPgsImp.
    pose proof (flush_frames_meta (pages_ s) (disk_ s)) as Hm.
    destruct (flush_frames (pages_ s) (disk_ s)) as [ps d]. by apply (bpm_wf_same_meta s).
  - destruct (DeletePgImp s page_id) as [[s1 b]|] eqn:Hop; [|done]. intros [= <-].
    by eapply DeletePgImp_wf.
  - intros [= <-]. unfold write_data. destruct (pages_ s !! f) as [pg|] eqn:Hpg; [|done].
    apply (bpm_wf_same_meta s); [done|]. by eapply same_meta_insert.
Qed.

Lemma bpm_run_wf s os s' :
  bpm_wf s → run default_evictable s os = Some s' → bpm_wf s'.
Proof.
  revert s. induction os as [|o os IH]; intros s Hs; simpl.
  - by intros [= <-].
  - destruct (step default_evictable s o) as [s1|] eqn:Hstep; [|done]. simpl.
    apply IH. by eapply bpm_step_wf.
Qed.

(** Every frame holds a mapped page whose pin count is positive. *)
Definition all_pinned (s : BufferPoolManagerInstance) : Prop :=
  ∀ f, (f < pool_size_ s)%nat →
    ∃ pg p, pages_ s !! f = Some pg ∧ 0 < pin_count_ pg ∧ page_table_ s !! p = Some f.

Lemma all_pinned_exhausted s :
  bpm_wf s → all_pinned s →
  find_replacement default_evictable s = Some (s, None).
Proof.
  intros Hs Hall.
  destruct (find_replacement_wf s Hs) as (s1 & [f|] & Hfr & H1); [|by destruct H1 as [-> _]].
  exfalso. destruct H1 as (_ & _ & _ & _ & _ & Hev).
  assert (Hfl : free_list_ s = []).
  { destruct (free_list_ s) as [|f0 fl] eqn:Hfl; [done|].
    destruct (bw_free _ Hs f0) as [(pg & Hpg & Hpin) _]; [rewrite Hfl; left|].
    destruct (Hall f0 (wf_frame_lt _ _ _ Hs Hpg)) as (pg' & _ & Hpg' & Hpos & _).
    rewrite Hpg in Hpg'. injection Hpg' as <-. lia. }
  destruct (Hev Hfl) as (_ & e & He & Hevict).
  destruct (bw_entries _ Hs _ _ He) as (pg & Hpg & Hpin). specialize (Hpin Hevict).
  destruct (Hall f (wf_frame_lt _ _ _ Hs Hpg)) as (pg' & _ & Hpg' & Hpos & _).
  rewrite Hpg in Hpg'. injection Hpg' as <-. lia.
Qed.

(** C4.  In a pool whose frames all hold pinned pages, [NewPgImp] and
    [FetchPgImp] of a page that is not resident return [nullptr] and leave
    the pool as it is.  [UnpinPgImp] of a page whose pin count is 1 then
    returns [true] and brings the count of its frame to zero, and the
    next [NewPgImp] returns a page, in this frame.  The pool is any
    state reached from a new pool by the operations of the manager. *)
Theorem pinned_pool_exhausted_until_unpin :
  ∀ (n k : nat) disk os s,
    run default_evictable (BufferPoolManagerInstance_new n k disk) os = Some s →
    all_pinned s →
    NewPgImp default_evictable s = Some (s, None) ∧
    (∀ p, page_table_ s !! p = None → FetchPgImp default_evictable s p = Some (s, None)) ∧
    (∀ p d f pg,
        page_table_ s !! p = Some f → pages_ s !! f = Some pg → pin_count_ pg = 1 →
        ∃ s1 pg1 s2 pid,
          UnpinPgImp s p d = Some (s1, true) ∧
          pages_ s1 !! f = Some pg1 ∧ pin_count_ pg1 = 0 ∧
          NewPgImp default_evictable s1 = Some (s2, Some (pid, f))).
Proof.
  intros n k disk os s Hrun Hall.
  assert (Hs : bpm_wf s) by (eapply bpm_run_wf; [by apply bpm_wf_new|done]).
  pose proof (all_pinned_exhausted s Hs Hall) as Hnone.
  split; [|split].
  - unfold NewPgImp. by rewrite Hnone.
  - intros p Hp. unfold FetchPgImp. by rewrite Hp, Hnone.
  - intros p d f pg Hp Hpg Hpin.
    assert (Hlen : (f < length (pages_ s))%nat) by (by eapply lookup_lt_Some).
    destruct (UnpinPgImp_wf s p d Hs) as (s1 & b & Hun & Hs1 & Hres).
    destruct (Hres f pg Hp Hpg ltac:(lia)) as (-> & Hpt1 & Hfl1 & Hpages1).
    assert (Hpg1 : pages_ s1 !! f =
              Some (mkPage (data_ pg) (page_id_ pg) (pin_count_ pg - 1)
                           (if d then true else is_dirty_ pg)))
      by (rewrite Hpages1; by apply list_lookup_insert_eq).
    assert (Hfl : free_list_ s1 = []).
    { rewrite Hfl1. destruct (free_list_ s) as [|f0 fl] eqn:Hfl; [done|].
      destruct (bw_free _ Hs f0) as [(pg0 & Hpg0 & Hpin0) _]; [rewrite Hfl; left|].
      destruct (Hall f0 (wf_frame_lt _ _ _ Hs Hpg0)) as (pg' & _ & Hpg' & Hpos & _).
      rewrite Hpg0 in Hpg'. injection Hpg' as <-. lia. }
    assert (Hp1 : page_table_ s1 !! p = Some f) by (by rewrite Hpt1).
    destruct (bw_table _ Hs1 _ _ Hp1) as (pg1 & e1 & Hpg1' & _ & _ & He1 & Hev1).
    rewrite Hpg1 in Hpg1'. injection Hpg1' as <-. simpl in Hev1.
    rewrite bool_decide_eq_true_2 in Hev1 by lia.
    eexists s1, _. unfold NewPgImp.
    destruct (find_replacement_wf s1 Hs1) as (s1' & [f'|] & Hfr & H1).
    2:{ destruct H1 as (_ & _ & Hno). rewrite (Hno _ _ He1) in Hev1. done. }
    destruct H1 as (Hs1' & Hsz & (pg' & Hpg' & Hpin') & Hunm & Hfree & Hev).
    destruct (Hev Hfl) as (Hgone & e' & He' & Hevict').
    assert (f' = f) as ->.
    { destruct (decide (f' = f)) as [|Hne]; [done|]. exfalso.
      destruct (bw_entries _ Hs1 _ _ He') as (pgx & Hpgx & Hpinx). specialize (Hpinx Hevict').
      rewrite Hpages1, list_lookup_insert_ne in Hpgx by done.
      destruct (Hall f' (wf_frame_lt _ _ _ Hs Hpgx)) as (pgy & _ & Hpgy & Hpos & _).
      rewrite Hpgx in Hpgy. injection Hpgy as <-. lia. }
    destruct (pin_in_replacer_first (replacer_ s1') f (bw_rep _ Hs1')) as [r' Hr']; [|done|].
    { rewrite (bw_rsize _ Hs1'). pose proof (wf_frame_lt _ _ _ Hs1' Hpg'). lia. }
    rewrite Hfr. simpl. rewrite Hpg'. simpl. rewrite Hr'. simpl.
    eexists _, _. split; [done|]. split; [done|]. split; [simpl; lia|done].
Qed.

End PoolFacts.

(** A pool of two frames after two [NewPgImp]: both pinned.  [NewPgImp]
    returns [nullptr]; after [UnpinPgImp] of page 0 it returns page 2 in
    the frame of page 0. *)
Lemma pinned_pool_exhausted_until_unpin_witness :
  ∃ s, run true (BufferPoolManagerInstance_new 2 2 ∅) [OpNew; OpNew] = Some s ∧
       NewPgImp true s = Some (s, None) ∧
       ∃ s1 pg1 s2 pid,
         UnpinPgImp s 0 true = Some (s1, true) ∧
         pages_ s1 !! 0%nat = Some pg1 ∧ pin_count_ pg1 = 0 ∧
         NewPgImp true s1 = Some (s2, Some (pid, 0%nat)).
Proof.
  eexists. split; [vm_compute; reflexivity|].
  pose proof (pinned_pool_exhausted_until_unpin true 2 2 ∅ [OpNew; OpNew] _
                ltac:(vm_compute; reflexivity)) as H.
  destruct H as (Hnew & _ & Hunpin).
  - intros f Hf. simpl in Hf.
    destruct f as [|[|f]]; [| |lia].
    + eexists _, 0. repeat split; try (vm_compute; reflexivity).
    + eexists _, 1. repeat split; try (vm_compute; reflexivity).
  - split; [exact Hnew|].
    eapply (Hunpin 0 true 0%nat); vm_compute; reflexivity.
Defined.

(** C3 (evidence).  One frame; page 0 is created, filled with [0xab],
    unpinned and flushed, so that it is clean.  The next [NewPgImp] evicts
    it and returns page 1 in the same frame, whose buffer still holds the
    bytes of page 0: the victim is reset only when it is dirty. *)
Lemma NewPgImp_clean_victim_not_reset :
  ∀ default_evictable,
  ∃ s s' pg,
    run default_evictable (BufferPoolManagerInstance_new 1 2 ∅)
        [OpNew; OpWrite 0%nat (replicate PAGE_SIZE Byte.xab); OpUnpin 0 true; OpFlush 0]
      = Some s ∧
    free_list_ s = [] ∧
    NewPgImp default_evictable s = Some (s', Some (1, 0%nat)) ∧
    pages_ s' !! 0%nat = Some pg ∧
    page_id_ pg = 1 ∧
    data_ pg = replicate PAGE_SIZE Byte.xab ∧
    data_ pg ≠ zero_data.
Proof.
  intros [|]; eexists _, _, _;
    (split; [vm_compute; reflexivity|]);
    (split; [reflexivity|]);
    (split; [vm_compute; reflexivity|]);
    (split; [vm_compute; reflexivity|]);
    (split; [reflexivity|]);
    (split; [reflexivity|]);
    simpl; discriminate.
Qed.

End BPM.

(* ===================================================================== *)
(** ** buffer/buffer_pool_manager_instance.cpp: the reachable states *)
(* ===================================================================== *)

Module BPMFacts.

Import LRUK BPM.

(** The call whose assertion fails. *)
Definition flush_invalid (o : op) : Prop :=
  match o with
  | OpFlush p => p = INVALID_PAGE_ID
  | _ => False
  end.

#[global] Instance flush_invalid_dec o : Decision (flush_invalid o).
Proof. destruct o; simpl; apply _. Defined.

Lemma flush_invalid_eq o : flush_invalid o ↔ o = OpFlush INVALID_PAGE_ID.
Proof. destruct o; simpl; split; try done; congruence. Qed.

Section PoolCalls.

Variable default_evictable : bool.

Lemma FlushPgImp_total s p :
  bpm_inv s → p ≠ INVALID_PAGE_ID → ∃ s' b, FlushPgImp s p = Some (s', b) ∧ bpm_inv s'.
Proof.
  intros Hs Hp. unfold FlushPgImp. rewrite decide_False by done.
  destruct (page_table_ s !! p) as [f|] eqn:Hf; [|by eauto].
  destruct (bi_table _ Hs _ _ Hf) as (pg & e & Hpg & _). rewrite Hpg. simpl.
  eexists _, _. split; [done|].
  apply (FlushPgImp_inv s p _ true Hs). unfold FlushPgImp.
  rewrite decide_False by done. rewrite Hf, Hpg. done.
Qed.

Lemma step_total s o :
  bpm_inv s → o ≠ OpFlush INVALID_PAGE_ID →
  ∃ s', step default_evictable s o = Some s' ∧ bpm_inv s'.
Proof.
  intros Hs Ho. destruct o; simpl.
  - destruct (NewPgImp_inv default_evictable s Hs) as (s' & o & -> & ? & _). by exists s'.
  - destruct (FetchPgImp_inv default_evictable s page_id Hs) as (s' & o & -> & ?). by exists s'.
  - destruct (UnpinPgImp_inv s page_id is_dirty Hs) as (s' & o & -> & ?). by exists s'.
  - destruct (FlushPgImp_total s page_id Hs) as (s' & b & -> & ?); [congruence|]. by exists s'.
  - eexists. split; [done|]. by apply FlushAllPgsImp_inv.
  - destruct (DeletePgImp_inv s page_id Hs) as (s' & o & -> & ?). by exists s'.
  - eexists. split; [done|]. by apply write_data_inv.
Qed.

Lemma run_total os : ∀ s,
  bpm_inv s →
  is_Some (run default_evictable s os) ↔ OpFlush INVALID_PAGE_ID ∉ os.
Proof.
  induction os as [|o os IH]; intros s Hs; simpl.
  - split; [intros _ Hin; inversion Hin|by eexists].
  - rewrite not_elem_of_cons.
    destruct (decide (flush_invalid o)) as [Ho|Ho]; rewrite flush_invalid_eq in Ho.
    + subst o. simpl. split; [by intros [? ?]|]. by intros [? _].
    + destruct (step_total s o Hs Ho) as (s' & -> & Hs'). simpl.
      rewrite (IH s' Hs'). split; [by intros ?|]. by intros [_ ?].
Qed.

Lemma reachable_inv n k disk os s :
  (2 ≤ k)%nat →
  run default_evictable (BufferPoolManagerInstance_new n k disk) os = Some s →
  bpm_inv s.
Proof. intros Hk Hrun. eapply bpm_run_inv; [|done]. by apply bpm_inv_new. Qed.

Lemma find_replacement_next s s1 o :
  find_replacement default_evictable s = Some (s1, o) →
  next_page_id_ s1 = next_page_id_ s.
Proof.
  unfold find_replacement. destruct (free_list_ s); [|by intros [= <- <-]].
  destruct (Evict default_evictable (replacer_ s)) as [r' [f|]]; [|by intros [= <- <-]].
  destruct (pages_ s !! f) as [pg|]; [|done]. simpl.
  destruct (is_dirty_ pg); by intros [= <- <-].
Qed.

End PoolCalls.

(** X17: on a new pool with a replacer of [k >= 2], a sequence of
    [NewPgImp], [FetchPgImp], [UnpinPgImp], [FlushPgImp],
    [FlushAllPgsImp], [DeletePgImp] and writes into frames runs to its
    end exactly when it has no [FlushPgImp(INVALID_PAGE_ID)], whose
    assertion fails: no frame outside the array is touched and the
    replacer never throws. *)
Theorem pool_fails_only_on_flush_invalid (default_evictable : bool) (n k : nat)
    (disk : gmap Z (list Byte.byte)) (os : list op) :
  (2 ≤ k)%nat →
  is_Some (run default_evictable (BufferPoolManagerInstance_new n k disk) os) ↔
  OpFlush INVALID_PAGE_ID ∉ os.
Proof. intros Hk. apply run_total. by apply bpm_inv_new. Qed.

Lemma pool_fails_only_on_flush_invalid_witness :
  is_Some (run true (BufferPoolManagerInstance_new 2 2 ∅)
             [OpNew; OpNew; OpNew; OpUnpin 0 true; OpFetch 7; OpDelete 1; OpFlush 7]) ↔
  OpFlush INVALID_PAGE_ID ∉
    [OpNew; OpNew; OpNew; OpUnpin 0 true; OpFetch 7; OpDelete 1; OpFlush 7].
Proof. apply (pool_fails_only_on_flush_invalid true 2 2 ∅). lia. Defined.

(** X18: in every state that such a sequence reaches, a page of the page
    table is held by the frame it is mapped to, a frame inside the
    array with a pin count that is not negative, and the replacer has
    that frame evictable exactly when the pin count is zero; no two
    page ids share a frame; the frames of the free list are distinct,
    unpinned and not mapped. *)
Theorem pool_state_consistent (default_evictable : bool) (n k : nat)
    (disk : gmap Z (list Byte.byte)) (os : list op) (s : BufferPoolManagerInstance) :
  (2 ≤ k)%nat →
  run default_evictable (BufferPoolManagerInstance_new n k disk) os = Some s →
  length (pages_ s) = pool_size_ s ∧
  (∀ p f, page_table_ s !! p = Some f →
     ∃ pg e, pages_ s !! f = Some pg ∧ page_id_ pg = p ∧ 0 ≤ pin_count_ pg ∧
       entries_ (replacer_ s) !! f = Some e ∧
       is_evictable_ e = bool_decide (pin_count_ pg = 0)) ∧
  (∀ p p' f, page_table_ s !! p = Some f → page_table_ s !! p' = Some f → p = p') ∧
  NoDup (free_list_ s) ∧
  (∀ f, f ∈ free_list_ s →
     (∃ pg, pages_ s !! f = Some pg ∧ pin_count_ pg = 0) ∧
     ∀ p, page_table_ s !! p ≠ Some f).
Proof.
  intros Hk Hrun. pose proof (reachable_inv default_evictable n k disk os s Hk Hrun) as Hs.
  split; [apply Hs|]. split; [apply Hs|]. split; [|split; apply Hs].
  intros p p' f Hp Hp'.
  destruct (bi_table _ Hs _ _ Hp) as (pg & _ & Hpg & Hid & _).
  destruct (bi_table _ Hs _ _ Hp') as (pg' & _ & Hpg' & Hid' & _). congruence.
Qed.

Lemma pool_state_consistent_witness :
  ∃ s, run true (BufferPoolManagerInstance_new 2 2 ∅)
         [OpNew; OpNew; OpUnpin 0 true; OpFetch 7] = Some s ∧
  length (pages_ s) = pool_size_ s ∧
  (∀ p f, page_table_ s !! p = Some f →
     ∃ pg e, pages_ s !! f = Some pg ∧ page_id_ pg = p ∧ 0 ≤ pin_count_ pg ∧
       entries_ (replacer_ s) !! f = Some e ∧
       is_evictable_ e = bool_decide (pin_count_ pg = 0)) ∧
  (∀ p p' f, page_table_ s !! p = Some f → page_table_ s !! p' = Some f → p = p') ∧
  NoDup (free_list_ s) ∧
  (∀ f, f ∈ free_list_ s →
     (∃ pg, pages_ s !! f = Some pg ∧ pin_count_ pg = 0) ∧
     ∀ p, page_table_ s !! p ≠ Some f).
Proof.
  eexists. split; [vm_compute; reflexivity|].
  apply (pool_state_consistent true 2 2 ∅ [OpNew; OpNew; OpUnpin 0 true; OpFetch 7]);
    [lia|vm_compute; reflexivity].
Defined.

(** X19: in such a state [NewPgImp] either returns [nullptr], and then
    the pool is as before (no page id is used up), the free list is
    empty and no tracked frame is evictable; or it returns the page
    whose id is [next_page_id_], which goes up by one: the page is
    mapped to the returned frame, which holds it with pin count 1. *)
Theorem NewPgImp_result (default_evictable : bool) (n k : nat)
    (disk : gmap Z (list Byte.byte)) (os : list op) (s : BufferPoolManagerInstance) :
  (2 ≤ k)%nat →
  run default_evictable (BufferPoolManagerInstance_new n k disk) os = Some s →
  ∃ s' o, NewPgImp default_evictable s = Some (s', o) ∧
    match o with
    | None =>
        s' = s ∧ free_list_ s = [] ∧
        ∀ f e, entries_ (replacer_ s) !! f = Some e → is_evictable_ e = false
    | Some (pid, f) =>
        pid = next_page_id_ s ∧ next_page_id_ s' = pid + 1 ∧
        page_table_ s' !! pid = Some f ∧
        ∃ pg, pages_ s' !! f = Some pg ∧ page_id_ pg = pid ∧ pin_count_ pg = 1
    end.
Proof.
  intros Hk Hrun. pose proof (reachable_inv default_evictable n k disk os s Hk Hrun) as Hs.
  unfold NewPgImp.
  destruct (find_replacement_spec default_evictable s Hs) as (s1 & [f|] & Hfr & H1);
    rewrite Hfr; simpl.
  - destruct H1 as (Hs1 & Hsz & (pg & Hpg & Hpin) & Hunm & Hfree). rewrite Hpg. simpl.
    destruct (install_inv default_evictable s1 f pg (next_page_id_ s1) (data_ pg) (is_dirty_ pg)
                (next_page_id_ s1 + 1) (disk_ s1) Hs1 Hpg Hpin Hunm Hfree) as (r' & -> & Hinv).
    simpl. eexists _, _. split; [done|]. simpl.
    rewrite (find_replacement_next default_evictable s s1 _ Hfr).
    split; [done|]. split; [done|]. split; [by rewrite lookup_insert_eq|].
    eexists. rewrite list_lookup_insert_eq.
    + split; [done|]. simpl. split; [done|lia].
    + by eapply lookup_lt_Some.
  - destruct H1 as (-> & Hfl & Hnone). eexists _, _. split; [done|]. done.
Qed.

Lemma NewPgImp_result_witness :
  ∃ s, run true (BufferPoolManagerInstance_new 2 2 ∅) [OpNew; OpNew; OpUnpin 0 true] = Some s ∧
  ∃ s' o, NewPgImp true s = Some (s', o) ∧
    match o with
    | None =>
        s' = s ∧ free_list_ s = [] ∧
        ∀ f e, entries_ (replacer_ s) !! f = Some e → is_evictable_ e = false
    | Some (pid, f) =>
        pid = next_page_id_ s ∧ next_page_id_ s' = pid + 1 ∧
        page_table_ s' !! pid = Some f ∧
        ∃ pg, pages_ s' !! f = Some pg ∧ page_id_ pg = pid ∧ pin_count_ pg = 1
    end.
Proof.
  eexists. split; [vm_compute; reflexivity|].
  apply (NewPgImp_result true 2 2 ∅ [OpNew; OpNew; OpUnpin 0 true]);
    [lia|vm_compute; reflexivity].
Defined.

(** X20: in such a state [UnpinPgImp(page_id, is_dirty)] returns [false]
    and changes nothing when the page is not in the pool or its pin
    count is zero; otherwise it returns [true], the pin count goes down
    by one, the dirty flag is set when [is_dirty] is [true] and kept
    otherwise (it is never cleared), the bytes, the page table, the free
    list and the disk stay, and the frame is evictable afterwards
    exactly when the pin count has reached zero. *)
Theorem UnpinPgImp_result (default_evictable : bool) (n k : nat)
    (disk : gmap Z (list Byte.byte)) (os : list op) (s : BufferPoolManagerInstance)
    (page_id : page_id_t) (is_dirty : bool) :
  (2 ≤ k)%nat →
  run default_evictable (BufferPoolManagerInstance_new n k disk) os = Some s →
  match page_table_ s !! page_id with
  | None => UnpinPgImp s page_id is_dirty = Some (s, false)
  | Some f =>
      ∃ pg, pages_ s !! f = Some pg ∧
        if decide (pin_count_ pg = 0) then UnpinPgImp s page_id is_dirty = Some (s, false)
        else
          ∃ s' e, UnpinPgImp s page_id is_dirty = Some (s', true) ∧
            pages_ s' = <[f := mkPage (data_ pg) (page_id_ pg) (pin_count_ pg - 1)
                                      (is_dirty || is_dirty_ pg)]> (pages_ s) ∧
            page_table_ s' = page_table_ s ∧ free_list_ s' = free_list_ s ∧
            disk_ s' = disk_ s ∧ next_page_id_ s' = next_page_id_ s ∧
            entries_ (replacer_ s') !! f = Some e ∧
            is_evictable_ e = bool_decide (pin_count_ pg - 1 = 0)
  end.
Proof.
  intros Hk Hrun. pose proof (reachable_inv default_evictable n k disk os s Hk Hrun) as Hs.
  unfold UnpinPgImp. destruct (page_table_ s !! page_id) as [f|] eqn:Hp; [|done].
  destruct (bi_table _ Hs _ _ Hp) as (pg & e & Hpg & Hid & Hpin & He & Hev).
  exists pg. split; [done|]. rewrite Hpg. simpl.
  destruct (decide (pin_count_ pg = 0)) as [Hz|Hnz].
  { rewrite decide_False by lia. done. }
  rewrite decide_True by lia.
  destruct (UnpinPgImp_inv s page_id is_dirty Hs) as (s' & b & Hun & Hs').
  revert Hun. unfold UnpinPgImp. rewrite Hp, Hpg. simpl. rewrite decide_True by lia.
  destruct (if decide (pin_count_ pg - 1 = 0) then _ else _) as [r'|] eqn:Hr'; [|done].
  simpl. intros [= <- <-].
  assert (Hd : (if is_dirty then true else is_dirty_ pg) = is_dirty || is_dirty_ pg)
    by (by destruct is_dirty).
  rewrite Hd in Hs'.
  assert (Hp' : page_table_
            (mkBPM (pool_size_ s)
               (<[f := mkPage (data_ pg) (page_id_ pg) (pin_count_ pg - 1)
                         (is_dirty || is_dirty_ pg)]> (pages_ s))
               (page_table_ s) r' (free_list_ s) (next_page_id_ s) (disk_ s))
            !! page_id = Some f) by done.
  destruct (bi_table _ Hs' _ _ Hp') as (pg' & e' & Hpg' & _ & _ & He' & Hev').
  simpl in Hpg', He'. rewrite list_lookup_insert_eq in Hpg' by (by eapply lookup_lt_Some).
  injection Hpg' as <-. simpl in Hev'.
  eexists _, e'. split; [done|]. simpl. rewrite Hd. done.
Qed.

Lemma UnpinPgImp_result_witness :
  ∃ s, run true (BufferPoolManagerInstance_new 2 2 ∅) [OpNew; OpNew; OpFetch 0] = Some s ∧
  match page_table_ s !! 0 with
  | None => UnpinPgImp s 0 true = Some (s, false)
  | Some f =>
      ∃ pg, pages_ s !! f = Some pg ∧
        if decide (pin_count_ pg = 0) then UnpinPgImp s 0 true = Some (s, false)
        else
          ∃ s' e, UnpinPgImp s 0 true = Some (s', true) ∧
            pages_ s' = <[f := mkPage (data_ pg) (page_id_ pg) (pin_count_ pg - 1)
                                      (true || is_dirty_ pg)]> (pages_ s) ∧
            page_table_ s' = page_table_ s ∧ free_list_ s' = free_list_ s ∧
            disk_ s' = disk_ s ∧ next_page_id_ s' = next_page_id_ s ∧
            entries_ (replacer_ s') !! f = Some e ∧
            is_evictable_ e = bool_decide (pin_count_ pg - 1 = 0)
  end.
Proof.
  eexists. split; [vm_compute; reflexivity|].
  apply (UnpinPgImp_result true 2 2 ∅ [OpNew; OpNew; OpFetch 0]);
    [lia|vm_compute; reflexivity].
Defined.

(** X21: in such a state [DeletePgImp(page_id)] returns [true] and
    changes nothing when the page is not in the pool, returns [false]
    and changes nothing when the page is pinned, and otherwise returns
    [true]: the page leaves the page table, its frame is reset (zeroed
    bytes, [INVALID_PAGE_ID], not dirty), goes to the back of the free
    list and is no longer tracked by the replacer; the disk is not
    written, so the bytes of a dirty page are dropped. *)
Theorem DeletePgImp_result (default_evictable : bool) (n k : nat)
    (disk : gmap Z (list Byte.byte)) (os : list op) (s : BufferPoolManagerInstance)
    (page_id : page_id_t) :
  (2 ≤ k)%nat →
  run default_evictable (BufferPoolManagerInstance_new n k disk) os = Some s →
  match page_table_ s !! page_id with
  | None => DeletePgImp s page_id = Some (s, true)
  | Some f =>
      ∃ pg, pages_ s !! f = Some pg ∧
        if decide (0 < pin_count_ pg) then DeletePgImp s page_id = Some (s, false)
        else
          ∃ s', DeletePgImp s page_id = Some (s', true) ∧
            page_table_ s' = delete page_id (page_table_ s) ∧
            pages_ s' = <[f := mkPage zero_data INVALID_PAGE_ID (pin_count_ pg) false]> (pages_ s) ∧
            pin_count_ pg = 0 ∧
            free_list_ s' = free_list_ s ++ [f] ∧
            entries_ (replacer_ s') = delete f (entries_ (replacer_ s)) ∧
            disk_ s' = disk_ s ∧ next_page_id_ s' = next_page_id_ s
  end.
Proof.
  intros Hk Hrun. pose proof (reachable_inv default_evictable n k disk os s Hk Hrun) as Hs.
  unfold DeletePgImp. destruct (page_table_ s !! page_id) as [f|] eqn:Hp; [|done].
  destruct (bi_table _ Hs _ _ Hp) as (pg & e & Hpg & Hid & Hpin & He & Hev).
  exists pg. split; [done|]. rewrite Hpg. simpl.
  destruct (decide (0 < pin_count_ pg)) as [Hpos|Hz]; [done|].
  rewrite bool_decide_eq_true_2 in Hev by lia.
  destruct (Remove_spec (replacer_ s) f e (bi_rep _ Hs)) as (r' & -> & Hr' & Hsz & Hk' & Hent);
    try done.
  { rewrite (bi_rsize _ Hs). pose proof (lookup_frame_lt _ _ _ Hs Hpg). lia. }
  simpl. eexists. split; [done|]. simpl. repeat split; try done. lia.
Qed.

Lemma DeletePgImp_result_witness :
  ∃ s, run true (BufferPoolManagerInstance_new 2 2 ∅)
         [OpNew; OpWrite 0%nat [Byte.x01]; OpUnpin 0 true] = Some s ∧
  match page_table_ s !! 0 with
  | None => DeletePgImp s 0 = Some (s, true)
  | Some f =>
      ∃ pg, pages_ s !! f = Some pg ∧
        if decide (0 < pin_count_ pg) then DeletePgImp s 0 = Some (s, false)
        else
          ∃ s', DeletePgImp s 0 = Some (s', true) ∧
            page_table_ s' = delete 0 (page_table_ s) ∧
            pages_ s' = <[f := mkPage zero_data INVALID_PAGE_ID (pin_count_ pg) false]> (pages_ s) ∧
            pin_count_ pg = 0 ∧
            free_list_ s' = free_list_ s ++ [f] ∧
            entries_ (replacer_ s') = delete f (entries_ (replacer_ s)) ∧
            disk_ s' = disk_ s ∧ next_page_id_ s' = next_page_id_ s
  end.
Proof.
  eexists. split; [vm_compute; reflexivity|].
  apply (DeletePgImp_result true 2 2 ∅ [OpNew; OpWrite 0%nat [Byte.x01]; OpUnpin 0 true]);
    [lia|vm_compute; reflexivity].
Defined.

End BPMFacts.

(* ===================================================================== *)
(** ** buffer/buffer_pool_manager_instance.cpp: the bytes of a page *)
(* ===================================================================== *)

Module BPMData.

Import LRUK BPM.

Section Data.

Variable default_evictable : bool.

(** A client asks [FetchPgImp] only for pages that [AllocatePage] has
    handed out. *)
Definition allocated (s : BufferPoolManagerInstance) (o : op) : Prop :=
  match o with
  | OpFetch p => p < next_page_id_ s
  | _ => True
  end.

Fixpoint fetches_allocated (s : BufferPoolManagerInstance) (os : list op) : Prop :=
  match os with
  | [] => True
  | o :: os' =>
      allocated s o ∧
      match step default_evictable s o with
      | Some s' => fetches_allocated s' os'
      | None => True
      end
  end.

#[global] Instance allocated_dec s o : Decision (allocated s o).
Proof. destruct o; simpl; apply _. Defined.

#[global] Instance fetches_allocated_dec os : ∀ s, Decision (fetches_allocated s os).
Proof.
  induction os as [|o os IH]; intros s; simpl; [apply _|].
  destruct (step default_evictable s o); apply _.
Defined.

(** The pages of the page table have been allocated; a frame that the
    replacer tracks, and a frame that holds a page id, is the frame
    that the page table gives for this id; the frames of the free list
    are not dirty. *)
Record data_inv (s : BufferPoolManagerInstance) : Prop := {
  di_alloc : ∀ p f, page_table_ s !! p = Some f → p < next_page_id_ s;
  di_tracked : ∀ f e, entries_ (replacer_ s) !! f = Some e →
      ∃ pg, pages_ s !! f = Some pg ∧ page_table_ s !! page_id_ pg = Some f;
  di_valid : ∀ f pg, pages_ s !! f = Some pg → page_id_ pg ≠ INVALID_PAGE_ID →
      page_table_ s !! page_id_ pg = Some f;
  di_free : ∀ f pg, f ∈ free_list_ s → pages_ s !! f = Some pg → is_dirty_ pg = false
}.

Lemma data_inv_new n k disk : data_inv (BufferPoolManagerInstance_new n k disk).
Proof.
  split; simpl.
  - intros p f Hp. by rewrite lookup_empty in Hp.
  - intros f e He. by rewrite lookup_empty in He.
  - intros f pg Hpg Hid. apply lookup_replicate in Hpg as [-> _]. done.
  - intros f pg _ Hpg. apply lookup_replicate in Hpg as [-> _]. done.
Qed.

(** The frame that [NewPgImp] and [FetchPgImp] take. *)
Lemma find_replacement_cases s s1 f :
  bpm_inv s → find_replacement default_evictable s = Some (s1, Some f) →
  (∃ fl, free_list_ s = f :: fl ∧
     s1 = mkBPM (pool_size_ s) (pages_ s) (page_table_ s) (replacer_ s) fl
                (next_page_id_ s) (disk_ s)) ∨
  (free_list_ s = [] ∧ ∃ pg e r',
     pages_ s !! f = Some pg ∧ entries_ (replacer_ s) !! f = Some e ∧
     is_evictable_ e = true ∧ pin_count_ pg = 0 ∧
     entries_ r' = delete f (entries_ (replacer_ s)) ∧
     s1 = mkBPM (pool_size_ s)
                (if is_dirty_ pg then <[f := ResetPage pg]> (pages_ s) else pages_ s)
                (delete (page_id_ pg) (page_table_ s)) r' []
                (next_page_id_ s)
                (if is_dirty_ pg then <[page_id_ pg := data_ pg]> (disk_ s) else disk_ s)).
Proof.
  intros Hs. unfold find_replacement. destruct (free_list_ s) as [|f0 fl] eqn:Hfl.
  - pose proof (Evict_spec default_evictable _ (bi_rep _ Hs)) as HE.
    destruct (Evict default_evictable (replacer_ s)) as [r' [f'|]]; [|by intros [= <-]].
    destruct HE as ((e & He & Hev) & Hent & _).
    destruct (bi_entries _ Hs _ _ He) as (pg & Hpg & Hpin). specialize (Hpin Hev).
    rewrite Hpg. simpl. destruct (is_dirty_ pg) eqn:Hd; intros [= <- <-]; right;
      (split; [done|]); exists pg, e, r'; rewrite Hd; done.
  - intros [= <- <-]. left. by exists fl.
Qed.

(** [s'] is [s] with the page [pid] put into frame [f], which held
    [pg]. *)
Definition replaced (s s' : BufferPoolManagerInstance) (f : frame_id_t) (pid : page_id_t)
    (pg : Page) (bytes : list Byte.byte) (nxt : page_id_t) : Prop :=
  pages_ s !! f = Some pg ∧ pin_count_ pg = 0 ∧
  (is_dirty_ pg = true → page_table_ s !! page_id_ pg = Some f) ∧
  pool_size_ s' = pool_size_ s ∧
  pages_ s' = <[f := mkPage bytes pid 1 false]> (pages_ s) ∧
  page_table_ s' =
    <[pid := f]> (if bool_decide (page_table_ s !! page_id_ pg = Some f)
                  then delete (page_id_ pg) (page_table_ s) else page_table_ s) ∧
  (∃ c, entries_ (replacer_ s') = <[f := mkEntry c false]> (entries_ (replacer_ s))) ∧
  (free_list_ s = f :: free_list_ s' ∨ free_list_ s = [] ∧ free_list_ s' = []) ∧
  next_page_id_ s' = nxt ∧
  disk_ s' = if is_dirty_ pg then <[page_id_ pg := data_ pg]> (disk_ s) else disk_ s.

Lemma install_view s s1 f pid nxt (bytes : Page → list Byte.byte) :
  bpm_inv s → data_inv s →
  find_replacement default_evictable s = Some (s1, Some f) →
  ∃ pg pg1 r',
    pages_ s1 !! f = Some pg1 ∧
    pin_in_replacer default_evictable (replacer_ s1) f = Some r' ∧
    data_ pg1 = (if is_dirty_ pg then zero_data else data_ pg) ∧
    disk_ s1 = (if is_dirty_ pg then <[page_id_ pg := data_ pg]> (disk_ s) else disk_ s) ∧
    next_page_id_ s1 = next_page_id_ s ∧
    replaced s (mkBPM (pool_size_ s1)
                  (<[f := mkPage (bytes pg1) pid (pin_count_ pg1 + 1) (is_dirty_ pg1)]> (pages_ s1))
                  (<[pid := f]> (page_table_ s1)) r' (free_list_ s1) nxt (disk_ s1))
             f pid pg (bytes pg1) nxt.
Proof.
  intros Hs Hd Hfr.
  destruct (find_replacement_spec default_evictable s Hs) as (s1' & o & Hfr' & H1).
  rewrite Hfr in Hfr'. injection Hfr' as <- <-.
  destruct H1 as (Hs1 & Hsz & (pg1 & Hpg1 & Hpin1) & Hunm & Hfree).
  pose proof (lookup_frame_lt _ _ _ Hs1 Hpg1) as Hlt.
  destruct (pin_in_replacer_spec default_evictable (replacer_ s1) f (bi_rep _ Hs1))
    as (r' & c & Hr' & _ & Hent & _).
  { rewrite (bi_rsize _ Hs1). lia. }
  destruct (find_replacement_cases s s1 f Hs Hfr)
    as [(fl & Hfl & ->)|(Hfl & pg & e & r1 & Hpg & He & Hev & Hpin & Hent1 & ->)];
    simpl in *.
  - assert (Hin : f ∈ free_list_ s) by (rewrite Hfl; left).
    pose proof (di_free _ Hd _ _ Hin Hpg1) as Hclean.
    destruct (bi_free _ Hs _ Hin) as [_ Hunm0].
    exists pg1, pg1, r'. unfold replaced. simpl. rewrite !Hclean, Hpin1.
    repeat split; try done.
    + by rewrite bool_decide_eq_false_2 by apply Hunm0.
    + by exists c.
    + by left.
  - destruct (di_tracked _ Hd _ _ He) as (pg' & Hpg' & Hmap).
    rewrite Hpg in Hpg'. injection Hpg' as <-.
    exists pg, pg1, r'.
    assert (Hlen : (f < length (pages_ s))%nat) by (by eapply lookup_lt_Some).
    unfold replaced. destruct (is_dirty_ pg) eqn:Hdirty.
    + rewrite list_lookup_insert_eq in Hpg1 by done. injection Hpg1 as <-. simpl.
      repeat split; try done.
      * by apply list_lookup_insert_eq.
      * by rewrite list_insert_insert_eq, Hpin.
      * by rewrite bool_decide_eq_true_2.
      * exists c. by rewrite Hent, Hent1, insert_delete_eq.
      * by right.
    + rewrite Hpg in Hpg1. injection Hpg1 as <-. simpl.
      repeat split; try done.
      * by rewrite Hpin, Hdirty.
      * by rewrite bool_decide_eq_true_2.
      * exists c. by rewrite Hent, Hent1, insert_delete_eq.
      * by right.
Qed.

(** **** What each call does to the state *)

Lemma NewPgImp_view s s' o :
  bpm_inv s → data_inv s → NewPgImp default_evictable s = Some (s', o) →
  match o with
  | None => s' = s
  | Some (pid, f) =>
      pid = next_page_id_ s ∧
      ∃ pg, replaced s s' f pid pg (if is_dirty_ pg then zero_data else data_ pg) (pid + 1)
  end.
Proof.
  intros Hs Hd. unfold NewPgImp.
  destruct (find_replacement_spec default_evictable s Hs) as (s1 & [f|] & Hfr & H1);
    rewrite Hfr; simpl.
  - destruct (install_view s s1 f (next_page_id_ s1) (next_page_id_ s1 + 1) data_ Hs Hd Hfr)
      as (pg & pg1 & r' & Hpg1 & Hr' & Hdata & _ & Hnxt & Hrep).
    rewrite Hpg1. simpl. rewrite Hr'. simpl. intros [= <- <-].
    rewrite Hnxt in *. split; [done|]. exists pg. by rewrite <- Hdata.
  - destruct H1 as (-> & _). by intros [= <- <-].
Qed.

Lemma FetchPgImp_hit s p f :
  bpm_inv s → page_table_ s !! p = Some f →
  ∃ pg r' c, pages_ s !! f = Some pg ∧ page_id_ pg = p ∧
    entries_ r' = <[f := mkEntry c false]> (entries_ (replacer_ s)) ∧
    FetchPgImp default_evictable s p =
      Some (mkBPM (pool_size_ s)
              (<[f := mkPage (data_ pg) p (pin_count_ pg + 1) (is_dirty_ pg)]> (pages_ s))
              (page_table_ s) r' (free_list_ s) (next_page_id_ s) (disk_ s), Some f).
Proof.
  intros Hs Hp. unfold FetchPgImp. rewrite Hp.
  destruct (bi_table _ Hs _ _ Hp) as (pg & e & Hpg & Hid & _).
  pose proof (lookup_frame_lt _ _ _ Hs Hpg) as Hlt.
  destruct (pin_in_replacer_spec default_evictable (replacer_ s) f (bi_rep _ Hs))
    as (r' & c & Hr' & _ & Hent & _).
  { rewrite (bi_rsize _ Hs). lia. }
  exists pg, r', c. rewrite Hpg. simpl. rewrite Hr'. simpl. by rewrite Hid.
Qed.

Lemma FetchPgImp_miss s p s' o :
  bpm_inv s → data_inv s → page_table_ s !! p = None →
  FetchPgImp default_evictable s p = Some (s', o) →
  match o with
  | None =>
      s' = s ∧ free_list_ s = [] ∧
      ∀ f e, entries_ (replacer_ s) !! f = Some e → is_evictable_ e = false
  | Some f => ∃ pg, replaced s s' f p pg (ReadPage (disk_ s) p) (next_page_id_ s)
  end.
Proof.
  intros Hs Hd Hp. unfold FetchPgImp. rewrite Hp.
  destruct (find_replacement_spec default_evictable s Hs) as (s1 & [f|] & Hfr & H1);
    rewrite Hfr; simpl.
  - destruct (install_view s s1 f p (next_page_id_ s1) (λ _, ReadPage (disk_ s1) p) Hs Hd Hfr)
      as (pg & pg1 & r' & Hpg1 & Hr' & _ & Hdisk & Hnxt & Hrep).
    rewrite Hpg1. simpl. rewrite Hr'. simpl. intros [= <- <-].
    exists pg. rewrite Hnxt in Hrep |- *.
    replace (ReadPage (disk_ s) p) with (ReadPage (disk_ s1) p); [done|].
    rewrite Hdisk. destruct Hrep as (_ & _ & Hmap & _).
    destruct (is_dirty_ pg); [|done]. unfold ReadPage.
    rewrite lookup_insert_ne; [done|]. intros Heq. rewrite Heq, Hp in Hmap.
    by specialize (Hmap eq_refl).
  - by intros [= <- <-].
Qed.

Lemma UnpinPgImp_view s p d s' b :
  bpm_inv s → UnpinPgImp s p d = Some (s', b) →
  s' = s ∧ b = false ∨
  ∃ f pg r', page_table_ s !! p = Some f ∧ pages_ s !! f = Some pg ∧ page_id_ pg = p ∧
    0 < pin_count_ pg ∧ b = true ∧
    (∀ f' e, entries_ r' !! f' = Some e → f' = f ∨ entries_ (replacer_ s) !! f' = Some e) ∧
    s' = mkBPM (pool_size_ s)
           (<[f := mkPage (data_ pg) p (pin_count_ pg - 1)
                          (if d then true else is_dirty_ pg)]> (pages_ s))
           (page_table_ s) r' (free_list_ s) (next_page_id_ s) (disk_ s).
Proof.
  intros Hs. unfold UnpinPgImp. destruct (page_table_ s !! p) as [f|] eqn:Hp.
  2:{ intros [= <- <-]. by left. }
  destruct (bi_table _ Hs _ _ Hp) as (pg & e & Hpg & Hid & Hpin & He & _).
  pose proof (lookup_frame_lt _ _ _ Hs Hpg) as Hlt.
  rewrite Hpg. simpl. destruct (decide (0 < pin_count_ pg)) as [Hpos|].
  2:{ intros [= <- <-]. by left. }
  simpl. destruct (decide (pin_count_ pg - 1 = 0)).
  - destruct (SetEvictable_spec (replacer_ s) f true (bi_rep _ Hs)) as (r' & Hr' & _ & _ & _ & Hent).
    { rewrite (bi_rsize _ Hs). lia. }
    rewrite Hr'. simpl. intros [= <- <-]. right. exists f, pg, r'. rewrite Hid.
    repeat split; try done. intros f' e' He'. rewrite He in Hent. rewrite Hent in He'.
    apply lookup_insert_Some in He' as [[-> _]|[_ He']]; auto.
  - simpl. intros [= <- <-]. right. exists f, pg, (replacer_ s). rewrite Hid.
    repeat split; try done. auto.
Qed.

Lemma FlushPgImp_view s p s' b :
  bpm_inv s → FlushPgImp s p = Some (s', b) →
  p ≠ INVALID_PAGE_ID ∧
  (s' = s ∧ b = false ∧ page_table_ s !! p = None ∨
   ∃ f pg, page_table_ s !! p = Some f ∧ pages_ s !! f = Some pg ∧ page_id_ pg = p ∧
     b = true ∧
     s' = mkBPM (pool_size_ s)
            (<[f := mkPage (data_ pg) p (pin_count_ pg) false]> (pages_ s))
            (page_table_ s) (replacer_ s) (free_list_ s) (next_page_id_ s)
            (<[p := data_ pg]> (disk_ s))).
Proof.
  intros Hs. unfold FlushPgImp. destruct (decide (p = INVALID_PAGE_ID)); [done|].
  split; [done|]. destruct (page_table_ s !! p) as [f|] eqn:Hp.
  2:{ injection H as <- <-. by left. }
  destruct (bi_table _ Hs _ _ Hp) as (pg & e & Hpg & Hid & _).
  rewrite Hpg in H. simpl in H. injection H as <- <-. right. exists f, pg.
  by rewrite Hid.
Qed.

Lemma DeletePgImp_view s p s' b :
  bpm_inv s → DeletePgImp s p = Some (s', b) →
  s' = s ∨
  ∃ f pg r', page_table_ s !! p = Some f ∧ pages_ s !! f = Some pg ∧ page_id_ pg = p ∧
    pin_count_ pg = 0 ∧ b = true ∧
    entries_ r' = delete f (entries_ (replacer_ s)) ∧
    s' = mkBPM (pool_size_ s) (<[f := ResetPage pg]> (pages_ s))
           (delete p (page_table_ s)) r' (free_list_ s ++ [f])
           (next_page_id_ s) (disk_ s).
Proof.
  intros Hs. unfold DeletePgImp. destruct (page_table_ s !! p) as [f|] eqn:Hp.
  2:{ intros [= <- <-]. by left. }
  destruct (bi_table _ Hs _ _ Hp) as (pg & e & Hpg & Hid & Hpin & He & Hev).
  pose proof (lookup_frame_lt _ _ _ Hs Hpg) as Hlt.
  rewrite Hpg. simpl. destruct (decide (0 < pin_count_ pg)) as [|Hz].
  { intros [= <- <-]. by left. }
  rewrite bool_decide_eq_true_2 in Hev by lia.
  destruct (Remove_spec (replacer_ s) f e (bi_rep _ Hs)) as (r' & Hr' & _ & _ & _ & Hent);
    try done.
  { rewrite (bi_rsize _ Hs). lia. }
  rewrite Hr'. simpl. intros [= <- <-]. right. exists f, pg, r'.
  repeat split; try done. lia.
Qed.

(** [FlushAllPgsImp] frame by frame. *)
Definition flushed (pg : Page) : Page :=
  if decide (page_id_ pg = INVALID_PAGE_ID) then pg
  else mkPage (data_ pg) (page_id_ pg) (pin_count_ pg) false.

Lemma flush_frames_pages ps d : (flush_frames ps d).1 = flushed <$> ps.
Proof.
  revert d. induction ps as [|pg ps IH]; intros d; simpl; [done|]. unfold flushed at 1.
  destruct (decide (page_id_ pg = INVALID_PAGE_ID)).
  - specialize (IH d). destruct (flush_frames ps d). simpl in *. by rewrite IH.
  - specialize (IH (<[page_id_ pg := data_ pg]> d)).
    destruct (flush_frames ps _). simpl in *. by rewrite IH.
Qed.

Lemma flush_frames_disk_other ps d q :
  (∀ pg, pg ∈ ps → page_id_ pg = q → q = INVALID_PAGE_ID) →
  (flush_frames ps d).2 !! q = d !! q.
Proof.
  revert d. induction ps as [|pg ps IH]; intros d Hq; simpl; [done|].
  assert (Hq' : ∀ pg', pg' ∈ ps → page_id_ pg' = q → q = INVALID_PAGE_ID).
  { intros pg' Hin. apply Hq. by right. }
  destruct (decide (page_id_ pg = INVALID_PAGE_ID)).
  - specialize (IH d Hq'). by destruct (flush_frames ps d).
  - specialize (IH (<[page_id_ pg := data_ pg]> d) Hq').
    destruct (flush_frames ps _). simpl in *. rewrite IH.
    apply lookup_insert_ne. intros Heq. apply n. rewrite Heq. apply (Hq pg); [by left|done].
Qed.

Lemma flush_frames_disk_page ps d q bytes :
  q ≠ INVALID_PAGE_ID →
  (∃ pg, pg ∈ ps ∧ page_id_ pg = q) →
  (∀ pg, pg ∈ ps → page_id_ pg = q → data_ pg = bytes) →
  (flush_frames ps d).2 !! q = Some bytes.
Proof.
  intros Hq. revert d. induction ps as [|pg ps IH]; intros d Hex Hall; simpl.
  { destruct Hex as (pg & Hin & _). by apply elem_of_nil in Hin. }
  assert (Hall' : ∀ pg', pg' ∈ ps → page_id_ pg' = q → data_ pg' = bytes).
  { intros pg' Hin. apply Hall. by right. }
  destruct (decide (Exists (λ pg', page_id_ pg' = q) ps)) as [Hex'|Hno];
    rewrite Exists_exists in *.
  - destruct (decide (page_id_ pg = INVALID_PAGE_ID)).
    + specialize (IH d Hex' Hall'). by destruct (flush_frames ps d).
    + specialize (IH (<[page_id_ pg := data_ pg]> d) Hex' Hall').
      by destruct (flush_frames ps _).
  - destruct Hex as (pg0 & Hin & Hid). apply elem_of_cons in Hin as [->|Hin].
    2:{ exfalso. apply Hno. by exists pg0. }
    rewrite decide_False by congruence.
    pose proof (flush_frames_disk_other ps (<[page_id_ pg := data_ pg]> d) q) as Ho.
    destruct (flush_frames ps _). simpl in *. rewrite Ho.
    + rewrite Hid, lookup_insert_eq. f_equal. apply Hall; [by left|done].
    + intros pg' Hin' Hid'. exfalso. apply Hno. by exists pg'.
Qed.

(** **** The invariant is kept *)

Lemma replaced_table s s' f pid pg bytes nxt :
  bpm_inv s → replaced s s' f pid pg bytes nxt →
  page_table_ s' !! pid = Some f ∧
  ∀ p f', p ≠ pid →
    (page_table_ s' !! p = Some f' ↔ page_table_ s !! p = Some f' ∧ f' ≠ f).
Proof.
  intros Hs (Hpg & _ & _ & _ & _ & Hpt & _). rewrite Hpt. split; [by rewrite lookup_insert_eq|].
  intros p f' Hne. rewrite lookup_insert_ne by done.
  assert (Hf : ∀ p0, page_table_ s !! p0 = Some f → p0 = page_id_ pg).
  { intros p0 Hp0. destruct (bi_table _ Hs _ _ Hp0) as (pg0 & _ & Hpg0 & Hid & _). congruence. }
  destruct (bool_decide (page_table_ s !! page_id_ pg = Some f)) eqn:Hm.
  - apply bool_decide_eq_true in Hm. rewrite lookup_delete_Some. split.
    + intros [Hp Hp']. split; [done|]. intros ->. by apply Hp, eq_sym, Hf.
    + intros [Hp Hf']. split; [|done]. intros <-. congruence.
  - apply bool_decide_eq_false in Hm. split; [|by intros [? _]].
    intros Hp. split; [done|]. intros ->. apply Hm. by rewrite <- (Hf _ Hp).
Qed.

Lemma replaced_data_inv s s' f pid pg bytes nxt :
  bpm_inv s → data_inv s → replaced s s' f pid pg bytes nxt →
  page_table_ s !! pid = None → pid < nxt → next_page_id_ s ≤ nxt → data_inv s'.
Proof.
  intros Hs Hd Hrep Hpid Hlt Hle.
  destruct (replaced_table _ _ _ _ _ _ _ Hs Hrep) as [Hnew Hold].
  destruct Hrep as (Hpg & Hpin & Hdm & Hsz & Hpages & Hpt & (c & Hent) & Hfl & Hnxt & Hdisk).
  assert (Hlen : (f < length (pages_ s))%nat) by (by eapply lookup_lt_Some).
  assert (Hkeep : ∀ f' pg', f' ≠ f → pages_ s !! f' = Some pg' →
            page_table_ s !! page_id_ pg' = Some f' →
            page_table_ s' !! page_id_ pg' = Some f').
  { intros f' pg' Hne Hpg' Hmap. apply Hold; [|done]. intros Heq. congruence. }
  split.
  - intros p f' Hp. rewrite Hnxt. destruct (decide (p = pid)) as [->|Hne]; [done|].
    apply (Hold _ _ Hne) in Hp as [Hp _]. pose proof (di_alloc _ Hd _ _ Hp). lia.
  - intros f' e He. rewrite Hent in He. rewrite Hpages.
    apply lookup_insert_Some in He as [[<- _]|[Hne He]].
    + eexists. rewrite list_lookup_insert_eq by done. split; [done|]. done.
    + destruct (di_tracked _ Hd _ _ He) as (pg' & Hpg' & Hmap).
      exists pg'. rewrite list_lookup_insert_ne by done. split; [done|]. by apply Hkeep.
  - intros f' pg' Hpg' Hid. rewrite Hpages in Hpg'.
    destruct (decide (f' = f)) as [->|Hne].
    + rewrite list_lookup_insert_eq in Hpg' by done. by injection Hpg' as <-.
    + rewrite list_lookup_insert_ne in Hpg' by done. apply Hkeep; [done..|].
      by apply (di_valid _ Hd).
  - intros f' pg' Hin Hpg'. rewrite Hpages in Hpg'. destruct Hfl as [Hfl|[_ Hfl]].
    2:{ rewrite Hfl in Hin. by apply elem_of_nil in Hin. }
    pose proof (bi_free_nodup _ Hs) as Hnd. rewrite Hfl in Hnd.
    apply NoDup_cons in Hnd as [Hnin _].
    assert (f' ≠ f) by (intros ->; done).
    rewrite list_lookup_insert_ne in Hpg' by done.
    apply (di_free _ Hd f'); [|done]. rewrite Hfl. by right.
Qed.

Lemma data_inv_same_ids s s' :
  bpm_inv s → data_inv s →
  page_table_ s' = page_table_ s → next_page_id_ s' = next_page_id_ s →
  free_list_ s' = free_list_ s →
  (∀ f, page_id_ <$> pages_ s' !! f = page_id_ <$> pages_ s !! f) →
  (∀ f e, entries_ (replacer_ s') !! f = Some e →
     is_Some (entries_ (replacer_ s) !! f) ∨ ∃ p, page_table_ s !! p = Some f) →
  (∀ f pg', f ∈ free_list_ s → pages_ s' !! f = Some pg' → is_dirty_ pg' = false) →
  data_inv s'.
Proof.
  intros Hs Hd Hpt Hnxt Hfl Hids Hent Hfree.
  assert (Hfwd : ∀ f pg, pages_ s !! f = Some pg →
            ∃ pg', pages_ s' !! f = Some pg' ∧ page_id_ pg' = page_id_ pg).
  { intros f pg Hpg. specialize (Hids f). rewrite Hpg in Hids.
    destruct (pages_ s' !! f) as [pg'|]; [|done]. injection Hids as Hids. by exists pg'. }
  assert (Hbwd : ∀ f pg', pages_ s' !! f = Some pg' →
            ∃ pg, pages_ s !! f = Some pg ∧ page_id_ pg' = page_id_ pg).
  { intros f pg' Hpg'. specialize (Hids f). rewrite Hpg' in Hids.
    destruct (pages_ s !! f) as [pg|]; [|done]. injection Hids as Hids. by exists pg. }
  split.
  - intros p f. rewrite Hpt, Hnxt. apply Hd.
  - intros f e He. rewrite Hpt.
    assert (∃ pg, pages_ s !! f = Some pg ∧ page_table_ s !! page_id_ pg = Some f)
      as (pg & Hpg & Hmap).
    { destruct (Hent _ _ He) as [[e0 He0]|[p Hp]]; [by eapply (di_tracked _ Hd)|].
      destruct (bi_table _ Hs _ _ Hp) as (pg & _ & Hpg & Hid & _). exists pg. by rewrite Hid. }
    destruct (Hfwd _ _ Hpg) as (pg' & Hpg' & Hid). exists pg'. by rewrite Hid.
  - intros f pg' Hpg' Hid. rewrite Hpt. destruct (Hbwd _ _ Hpg') as (pg & Hpg & Hid').
    rewrite Hid' in *. by apply (di_valid _ Hd).
  - intros f pg'. rewrite Hfl. apply Hfree.
Qed.

Lemma ids_insert (ps : list Page) f pg pg' :
  ps !! f = Some pg → page_id_ pg' = page_id_ pg →
  ∀ f', page_id_ <$> <[f := pg']> ps !! f' = page_id_ <$> ps !! f'.
Proof.
  intros Hpg Hid f'. destruct (decide (f' = f)) as [->|Hne].
  - rewrite list_lookup_insert_eq by (by eapply lookup_lt_Some). rewrite Hpg. simpl. by rewrite Hid.
  - by rewrite list_lookup_insert_ne.
Qed.

Lemma free_insert s f p pg' :
  bpm_inv s → data_inv s → page_table_ s !! p = Some f →
  ∀ f' pg'', f' ∈ free_list_ s → <[f := pg']> (pages_ s) !! f' = Some pg'' →
             is_dirty_ pg'' = false.
Proof.
  intros Hs Hd Hp f' pg'' Hin Hpg''.
  destruct (bi_free _ Hs _ Hin) as [_ Hunm].
  assert (f' ≠ f) by (intros ->; by eapply Hunm).
  rewrite list_lookup_insert_ne in Hpg'' by done. by eapply (di_free _ Hd).
Qed.

Lemma data_inv_step s o s' :
  bpm_inv s → data_inv s → allocated s o →
  step default_evictable s o = Some s' → data_inv s'.
Proof.
  intros Hs Hd Ha. destruct o as [|p|p d|p| |p|f bytes]; simpl.
  - destruct (NewPgImp default_evictable s) as [[s1 o]|] eqn:Hnew; [|done]. intros [= <-].
    pose proof (NewPgImp_view _ _ _ Hs Hd Hnew) as Hv. destruct o as [[pid f]|]; [|by subst].
    destruct Hv as (-> & pg & Hrep).
    apply (replaced_data_inv s s1 f _ pg _ _ Hs Hd Hrep); [|lia..].
    destruct (page_table_ s !! next_page_id_ s) as [f0|] eqn:Hp; [|done].
    pose proof (di_alloc _ Hd _ _ Hp). lia.
  - destruct (page_table_ s !! p) as [f|] eqn:Hp.
    + destruct (FetchPgImp_hit s p f Hs Hp) as (pg & r' & c & Hpg & Hid & Hent & ->).
      intros [= <-]. apply (data_inv_same_ids s); try done; simpl.
      * by apply (ids_insert _ _ pg).
      * intros f' e He. rewrite Hent in He.
        apply lookup_insert_Some in He as [[<- _]|[_ He]]; [right; by exists p|left; by eexists].
      * by apply (free_insert s f p).
    + destruct (FetchPgImp default_evictable s p) as [[s1 o]|] eqn:Hfetch; [|done].
      intros [= <-]. pose proof (FetchPgImp_miss _ _ _ _ Hs Hd Hp Hfetch) as Hv.
      destruct o as [f|]; [|by destruct Hv as [-> _]]. destruct Hv as (pg & Hrep).
      simpl in Ha. by apply (replaced_data_inv s s1 f p pg _ _ Hs Hd Hrep).
  - destruct (UnpinPgImp s p d) as [[s1 b]|] eqn:Hun; [|done]. intros [= <-].
    destruct (UnpinPgImp_view _ _ _ _ _ Hs Hun)
      as [[-> _]|(f & pg & r' & Hp & Hpg & Hid & Hpos & _ & Hent & ->)]; [done|].
    apply (data_inv_same_ids s); try done; simpl.
    + by apply (ids_insert _ _ pg).
    + intros f' e He. destruct (Hent _ _ He) as [->|He']; [right; by exists p|left; by eexists].
    + by apply (free_insert s f p).
  - destruct (FlushPgImp s p) as [[s1 b]|] eqn:Hfl; [|done]. intros [= <-].
    destruct (FlushPgImp_view _ _ _ _ Hs Hfl)
      as [_ [(-> & _)|(f & pg & Hp & Hpg & Hid & _ & ->)]]; [done|].
    apply (data_inv_same_ids s); try done; simpl.
    + by apply (ids_insert _ _ pg).
    + intros f' e He. left. by eexists.
    + by apply (free_insert s f p).
  - intros [= <-]. unfold FlushAllPgsImp.
    pose proof (flush_frames_pages (pages_ s) (disk_ s)) as Hps.
    destruct (flush_frames (pages_ s) (disk_ s)) as [ps dk]. simpl in Hps. subst ps.
    apply (data_inv_same_ids s); try done; simpl.
    + intros f. rewrite list_lookup_fmap. destruct (pages_ s !! f) as [pg|]; [|done]. simpl.
      unfold flushed. by destruct (decide _).
    + intros f' e He. left. by eexists.
    + intros f' pg' Hin. rewrite list_lookup_fmap.
      destruct (pages_ s !! f') as [pg|] eqn:Hpg; [|done]. simpl. intros [= <-].
      unfold flushed. destruct (decide _); [|done]. by eapply (di_free _ Hd).
  - destruct (DeletePgImp s p) as [[s1 b]|] eqn:Hdel; [|done]. intros [= <-].
    destruct (DeletePgImp_view _ _ _ _ Hs Hdel)
      as [->|(f & pg & r' & Hp & Hpg & Hid & Hpin & _ & Hent & ->)]; [done|].
    assert (Hlen : (f < length (pages_ s))%nat) by (by eapply lookup_lt_Some).
    assert (Hkeep : ∀ f' pg', f' ≠ f → page_table_ s !! page_id_ pg' = Some f' →
              delete p (page_table_ s) !! page_id_ pg' = Some f').
    { intros f' pg' Hne Hmap. rewrite lookup_delete_ne; [done|]. intros Heq.
      rewrite <- Heq, Hp in Hmap. congruence. }
    split; simpl.
    + intros p' f' [_ Hp']%lookup_delete_Some. by eapply (di_alloc _ Hd).
    + intros f' e He. rewrite Hent in He. apply lookup_delete_Some in He as [Hne He].
      destruct (di_tracked _ Hd _ _ He) as (pg' & Hpg' & Hmap). exists pg'.
      rewrite list_lookup_insert_ne by done. split; [done|]. by apply Hkeep.
    + intros f' pg' Hpg' Hvalid. destruct (decide (f' = f)) as [->|Hne].
      * rewrite list_lookup_insert_eq in Hpg' by done. by injection Hpg' as <-.
      * rewrite list_lookup_insert_ne in Hpg' by done. apply Hkeep; [done|].
        by apply (di_valid _ Hd).
    + intros f' pg' Hin Hpg'. destruct (decide (f' = f)) as [->|Hne].
      * rewrite list_lookup_insert_eq in Hpg' by done. by injection Hpg' as <-.
      * rewrite list_lookup_insert_ne in Hpg' by done.
        apply elem_of_app in Hin as [Hin|Hin%list_elem_of_singleton]; [|done].
        by eapply (di_free _ Hd).
  - intros [= <-]. unfold write_data. destruct (pages_ s !! f) as [pg|] eqn:Hpg; [|done].
    apply (data_inv_same_ids s); try done; simpl.
    + by apply (ids_insert _ _ pg).
    + intros f' e He. left. by eexists.
    + intros f' pg' Hin Hpg'. destruct (decide (f' = f)) as [->|Hne].
      * rewrite list_lookup_insert_eq in Hpg' by (by eapply lookup_lt_Some).
        injection Hpg' as <-. simpl. by eapply (di_free _ Hd).
      * rewrite list_lookup_insert_ne in Hpg' by done. by eapply (di_free _ Hd).
Qed.

Lemma data_inv_run os : ∀ s s',
  bpm_inv s → data_inv s → fetches_allocated s os →
  run default_evictable s os = Some s' → bpm_inv s' ∧ data_inv s'.
Proof.
  induction os as [|o os IH]; intros s s' Hs Hd Hos; simpl.
  - by intros [= <-].
  - destruct Hos as [Ha Hos].
    destruct (step default_evictable s o) as [s1|] eqn:Hstep; [|done]. simpl.
    apply IH; [by eapply bpm_step_inv|by eapply data_inv_step|done].
Qed.

Lemma reachable_data_inv n k disk os s :
  (2 ≤ k)%nat →
  fetches_allocated (BufferPoolManagerInstance_new n k disk) os →
  run default_evictable (BufferPoolManagerInstance_new n k disk) os = Some s →
  bpm_inv s ∧ data_inv s.
Proof.
  intros Hk Hos Hrun.
  apply (data_inv_run os (BufferPoolManagerInstance_new n k disk));
    [by apply bpm_inv_new|apply data_inv_new|done..].
Qed.

(** **** The bytes of a page *)

(** The bytes that the pool has for page [p]: those of its frame, or
    the block on disk when the page is in no frame. *)
Definition page_bytes (s : BufferPoolManagerInstance) (p : page_id_t) : list Byte.byte :=
  match page_table_ s !! p with
  | Some f => default zero_data (data_ <$> pages_ s !! f)
  | None => ReadPage (disk_ s) p
  end.

(** The frame of page [p] is flagged dirty unless its bytes are those of
    the block on disk. *)
Definition flagged (s : BufferPoolManagerInstance) (p : page_id_t) : Prop :=
  ∀ f pg, page_table_ s !! p = Some f → pages_ s !! f = Some pg →
    is_dirty_ pg = true ∨ data_ pg = ReadPage (disk_ s) p.

Lemma page_bytes_frame s p f pg :
  page_table_ s !! p = Some f → pages_ s !! f = Some pg → page_bytes s p = data_ pg.
Proof. intros Hp Hpg. unfold page_bytes. by rewrite Hp, Hpg. Qed.

Lemma page_bytes_disk s p :
  page_table_ s !! p = None → page_bytes s p = ReadPage (disk_ s) p.
Proof. intros Hp. unfold page_bytes. by rewrite Hp. Qed.

Lemma flagged_absent s p : page_table_ s !! p = None → flagged s p.
Proof. intros Hp f pg Hp'. congruence. Qed.

Lemma replaced_bytes s s' f0 pid pg0 bytes nxt p :
  bpm_inv s → replaced s s' f0 pid pg0 bytes nxt → p ≠ pid → flagged s p →
  page_bytes s' p = page_bytes s p ∧ flagged s' p.
Proof.
  intros Hs Hrep Hne Hfl.
  destruct (replaced_table _ _ _ _ _ _ _ Hs Hrep) as [_ Hold].
  destruct Hrep as (Hpg0 & Hpin0 & Hdm & _ & Hpages & _ & _ & _ & _ & Hdisk).
  assert (Hread : page_table_ s !! p ≠ Some f0 → ReadPage (disk_ s') p = ReadPage (disk_ s) p).
  { intros Hp. rewrite Hdisk. destruct (is_dirty_ pg0); [|done]. unfold ReadPage.
    rewrite lookup_insert_ne; [done|]. intros Heq. apply Hp. rewrite <- Heq. by apply Hdm. }
  destruct (page_table_ s !! p) as [f|] eqn:Hp.
  - destruct (bi_table _ Hs _ _ Hp) as (pg & _ & Hpg & Hid & _).
    destruct (decide (f = f0)) as [->|Hf].
    + rewrite Hpg0 in Hpg. injection Hpg as <-.
      assert (Hp' : page_table_ s' !! p = None).
      { destruct (page_table_ s' !! p) as [f'|] eqn:Hp'; [|done].
        apply (Hold _ _ Hne) in Hp' as [Hp' Hf']. congruence. }
      split; [|by apply flagged_absent].
      rewrite (page_bytes_disk _ _ Hp'), (page_bytes_frame _ _ _ _ Hp Hpg0), Hdisk.
      destruct (Hfl _ _ Hp Hpg0) as [Hd|Hd].
      * rewrite Hd, Hid. unfold ReadPage. by rewrite lookup_insert_eq.
      * destruct (is_dirty_ pg0); [|done]. rewrite Hid. unfold ReadPage.
        by rewrite lookup_insert_eq.
    + assert (Hp' : page_table_ s' !! p = Some f) by (by apply (Hold _ _ Hne)).
      assert (Hpg' : pages_ s' !! f = Some pg)
        by (by rewrite Hpages, list_lookup_insert_ne).
      split.
      * by rewrite (page_bytes_frame _ _ _ _ Hp' Hpg'), (page_bytes_frame _ _ _ _ Hp Hpg).
      * intros f' pg' Hf' Hpg''. rewrite Hp' in Hf'. injection Hf' as <-.
        rewrite Hpg' in Hpg''. injection Hpg'' as <-.
        rewrite Hread by congruence. by apply (Hfl f).
  - assert (Hp' : page_table_ s' !! p = None).
    { destruct (page_table_ s' !! p) as [f'|] eqn:Hp'; [|done].
      apply (Hold _ _ Hne) in Hp' as [Hp' Hf']. congruence. }
    split; [|by apply flagged_absent].
    rewrite !page_bytes_disk by done. by apply Hread.
Qed.

(** A change of one frame that keeps its bytes and does not clear its
    dirty flag, or that leaves page [p] alone. *)
Lemma frame_update_bytes s f1 pg1 pg1' r' p :
  bpm_inv s → pages_ s !! f1 = Some pg1 →
  (page_table_ s !! p = Some f1 →
     data_ pg1' = data_ pg1 ∧ (is_dirty_ pg1 = true → is_dirty_ pg1' = true)) →
  flagged s p →
  let s' := mkBPM (pool_size_ s) (<[f1 := pg1']> (pages_ s)) (page_table_ s) r'
                  (free_list_ s) (next_page_id_ s) (disk_ s) in
  page_bytes s' p = page_bytes s p ∧ flagged s' p.
Proof.
  intros Hs Hpg1 Hsame Hfl s'.
  assert (Hlen : (f1 < length (pages_ s))%nat) by (by eapply lookup_lt_Some).
  destruct (page_table_ s !! p) as [f|] eqn:Hp.
  2:{ split; [by rewrite !page_bytes_disk|by apply flagged_absent]. }
  destruct (bi_table _ Hs _ _ Hp) as (pg & _ & Hpg & _).
  destruct (decide (f = f1)) as [->|Hf].
  - rewrite Hpg1 in Hpg. injection Hpg as <-. destruct (Hsame eq_refl) as [Hdata Hdirty].
    assert (Hpg' : pages_ s' !! f1 = Some pg1') by (by apply list_lookup_insert_eq).
    split.
    + by rewrite (page_bytes_frame s' _ _ _ Hp Hpg'), (page_bytes_frame s _ _ _ Hp Hpg1).
    + intros f' pg' Hf' Hpg''. change (page_table_ s' !! p) with (page_table_ s !! p) in Hf'.
      rewrite Hp in Hf'. injection Hf' as <-. rewrite Hpg' in Hpg''. injection Hpg'' as <-.
      rewrite Hdata. destruct (Hfl _ _ Hp Hpg1) as [Hd|Hd]; [left; by apply Hdirty|by right].
  - assert (Hpg' : pages_ s' !! f = Some pg) by (simpl; by rewrite list_lookup_insert_ne).
    split.
    + by rewrite (page_bytes_frame s' _ _ _ Hp Hpg'), (page_bytes_frame s _ _ _ Hp Hpg).
    + intros f' pg' Hf' Hpg''. change (page_table_ s' !! p) with (page_table_ s !! p) in Hf'.
      rewrite Hp in Hf'. injection Hf' as <-. rewrite Hpg' in Hpg''. injection Hpg'' as <-.
      by apply (Hfl f).
Qed.

Lemma FlushAllPgsImp_view s :
  bpm_inv s → data_inv s →
  page_table_ (FlushAllPgsImp s) = page_table_ s ∧
  pages_ (FlushAllPgsImp s) = flushed <$> pages_ s ∧
  (∀ p f pg, page_table_ s !! p = Some f → pages_ s !! f = Some pg →
     p ≠ INVALID_PAGE_ID → disk_ (FlushAllPgsImp s) !! p = Some (data_ pg)) ∧
  (∀ q, page_table_ s !! q = None ∨ q = INVALID_PAGE_ID →
     disk_ (FlushAllPgsImp s) !! q = disk_ s !! q).
Proof.
  intros Hs Hd. unfold FlushAllPgsImp.
  pose proof (flush_frames_pages (pages_ s) (disk_ s)) as Hps.
  pose proof (flush_frames_disk_page (pages_ s) (disk_ s)) as Hpage.
  pose proof (flush_frames_disk_other (pages_ s) (disk_ s)) as Hother.
  destruct (flush_frames (pages_ s) (disk_ s)) as [ps dk]. simpl in *.
  split; [done|]. split; [done|]. split.
  - intros p f pg Hp Hpg Hvalid.
    destruct (bi_table _ Hs _ _ Hp) as (pg0 & _ & Hpg0 & Hid & _).
    rewrite Hpg in Hpg0. injection Hpg0 as <-.
    apply Hpage; [done| |].
    + exists pg. split; [by eapply list_elem_of_lookup_2|done].
    + intros pg' [f' Hpg']%list_elem_of_lookup Hid'.
      assert (Hp' : page_table_ s !! page_id_ pg' = Some f')
        by (apply (di_valid _ Hd); [done|congruence]).
      rewrite Hid', Hp in Hp'. injection Hp' as <-. congruence.
  - intros q Hq. apply Hother. intros pg' [f' Hpg']%list_elem_of_lookup Hid'.
    destruct Hq as [Hq|Hq]; [|done].
    destruct (decide (q = INVALID_PAGE_ID)) as [|Hvalid]; [done|]. exfalso.
    assert (Hp' : page_table_ s !! page_id_ pg' = Some f')
      by (apply (di_valid _ Hd); [done|congruence]).
    congruence.
Qed.

Lemma step_bytes s o s' p :
  bpm_inv s → data_inv s → step default_evictable s o = Some s' →
  p < next_page_id_ s → flagged s p →
  (∀ f bytes, o = OpWrite f bytes → page_table_ s !! p ≠ Some f) →
  o ≠ OpDelete p →
  page_bytes s' p = page_bytes s p ∧ flagged s' p.
Proof.
  intros Hs Hd Hstep Hp Hfl Hwrite Hdel. destruct o as [|q|q d|q| |q|f1 bytes]; simpl in Hstep.
  - destruct (NewPgImp default_evictable s) as [[s1 o]|] eqn:Hnew; [|done].
    injection Hstep as <-. pose proof (NewPgImp_view _ _ _ Hs Hd Hnew) as Hv.
    destruct o as [[pid f]|]; [|by subst]. destruct Hv as (-> & pg & Hrep).
    apply (replaced_bytes _ _ _ _ _ _ _ _ Hs Hrep); [lia|done].
  - destruct (page_table_ s !! q) as [f|] eqn:Hq.
    + destruct (FetchPgImp_hit s q f Hs Hq) as (pg & r' & c & Hpg & Hid & Hent & Hfetch).
      rewrite Hfetch in Hstep. injection Hstep as <-.
      by apply (frame_update_bytes s f pg).
    + destruct (FetchPgImp default_evictable s q) as [[s1 o]|] eqn:Hfetch; [|done].
      injection Hstep as <-. pose proof (FetchPgImp_miss _ _ _ _ Hs Hd Hq Hfetch) as Hv.
      destruct o as [f|]; [|by destruct Hv as [-> _]]. destruct Hv as (pg & Hrep).
      destruct (decide (p = q)) as [->|Hne]; [|by apply (replaced_bytes _ _ _ _ _ _ _ _ Hs Hrep)].
      destruct (replaced_table _ _ _ _ _ _ _ Hs Hrep) as [Hnew _].
      destruct Hrep as (Hpg & _ & Hdm & _ & Hpages & _ & _ & _ & _ & Hdisk).
      assert (Hpg' : pages_ s1 !! f = Some (mkPage (ReadPage (disk_ s) q) q 1 false)).
      { rewrite Hpages. apply list_lookup_insert_eq. by eapply lookup_lt_Some. }
      split.
      * by rewrite (page_bytes_frame _ _ _ _ Hnew Hpg'), (page_bytes_disk _ _ Hq).
      * intros f' pg' Hf' Hpg''. rewrite Hnew in Hf'. injection Hf' as <-.
        rewrite Hpg' in Hpg''. injection Hpg'' as <-. right. simpl.
        rewrite Hdisk. destruct (is_dirty_ pg); [|done]. unfold ReadPage.
        rewrite lookup_insert_ne; [done|]. intros Heq. rewrite Heq, Hq in Hdm.
        by specialize (Hdm eq_refl).
  - destruct (UnpinPgImp s q d) as [[s1 b]|] eqn:Hun; [|done]. injection Hstep as <-.
    destruct (UnpinPgImp_view _ _ _ _ _ Hs Hun)
      as [[-> _]|(f & pg & r' & Hq & Hpg & Hid & Hpos & _ & Hent & ->)]; [done|].
    apply (frame_update_bytes s f pg); try done. intros _. split; [done|]. by destruct d.
  - destruct (FlushPgImp s q) as [[s1 b]|] eqn:Hflush; [|done]. injection Hstep as <-.
    destruct (FlushPgImp_view _ _ _ _ Hs Hflush)
      as [_ [(-> & _)|(f & pg & Hq & Hpg & Hid & _ & ->)]]; [done|].
    assert (Hlen : (f < length (pages_ s))%nat) by (by eapply lookup_lt_Some).
    destruct (decide (p = q)) as [->|Hne].
    + assert (Hpg' : <[f := mkPage (data_ pg) q (pin_count_ pg) false]> (pages_ s) !! f =
                Some (mkPage (data_ pg) q (pin_count_ pg) false))
        by (by apply list_lookup_insert_eq).
      split.
      * unfold page_bytes. simpl. rewrite Hq. simpl. by rewrite Hpg', Hpg.
      * intros f' pg' Hf' Hpg''. simpl in Hf', Hpg''. rewrite Hq in Hf'. injection Hf' as <-.
        rewrite Hpg' in Hpg''. injection Hpg'' as <-. right. simpl. unfold ReadPage.
        by rewrite lookup_insert_eq.
    + destruct (page_table_ s !! p) as [f0|] eqn:Hp0.
      2:{ split; [|by apply flagged_absent]. rewrite !page_bytes_disk by done.
          simpl. unfold ReadPage. by rewrite lookup_insert_ne. }
      destruct (bi_table _ Hs _ _ Hp0) as (pg0 & _ & Hpg0 & Hid0 & _).
      assert (f0 ≠ f) by (intros ->; congruence).
      assert (Hpg' : <[f := mkPage (data_ pg) q (pin_count_ pg) false]> (pages_ s) !! f0 =
                Some pg0) by (by rewrite list_lookup_insert_ne).
      split.
      * unfold page_bytes. simpl. rewrite Hp0. simpl. by rewrite Hpg', Hpg0.
      * intros f' pg' Hf' Hpg''. simpl in Hf', Hpg''. rewrite Hp0 in Hf'. injection Hf' as <-.
        rewrite Hpg' in Hpg''. injection Hpg'' as <-. simpl. unfold ReadPage.
        rewrite lookup_insert_ne by done. by apply (Hfl f0).
  - injection Hstep as <-.
    destruct (FlushAllPgsImp_view s Hs Hd) as (Hpt & Hpages & Hpage & Hother).
    destruct (page_table_ s !! p) as [f|] eqn:Hp0.
    2:{ split; [|apply flagged_absent; by rewrite Hpt].
        rewrite !page_bytes_disk by (by rewrite ?Hpt). unfold ReadPage.
        rewrite Hother; [done|by left]. }
    destruct (bi_table _ Hs _ _ Hp0) as (pg & _ & Hpg & Hid & _).
    assert (Hp1 : page_table_ (FlushAllPgsImp s) !! p = Some f) by (by rewrite Hpt).
    assert (Hpg' : pages_ (FlushAllPgsImp s) !! f = Some (flushed pg))
      by (by rewrite Hpages, list_lookup_fmap, Hpg).
    assert (Hdata : data_ (flushed pg) = data_ pg)
      by (unfold flushed; by destruct (decide _)).
    split.
    + by rewrite (page_bytes_frame _ _ _ _ Hp1 Hpg'), (page_bytes_frame _ _ _ _ Hp0 Hpg).
    + intros f' pg' Hf' Hpg''. rewrite Hp1 in Hf'. injection Hf' as <-.
      rewrite Hpg' in Hpg''. injection Hpg'' as <-. rewrite Hdata. unfold ReadPage.
      destruct (decide (p = INVALID_PAGE_ID)) as [Hinv|Hvalid].
      * rewrite Hother by (by right). unfold flushed. rewrite decide_True by congruence.
        by apply (Hfl f).
      * right. by rewrite (Hpage _ _ _ Hp0 Hpg Hvalid).
  - destruct (DeletePgImp s q) as [[s1 b]|] eqn:Hdl; [|done]. injection Hstep as <-.
    destruct (DeletePgImp_view _ _ _ _ Hs Hdl)
      as [->|(f & pg & r' & Hq & Hpg & Hid & Hpin & _ & Hent & ->)]; [done|].
    assert (Hne : p ≠ q) by (intros ->; done).
    destruct (page_table_ s !! p) as [f0|] eqn:Hp0.
    2:{ split; [|apply flagged_absent; simpl; by rewrite lookup_delete_ne].
        rewrite !page_bytes_disk; [done|done|simpl; by rewrite lookup_delete_ne]. }
    destruct (bi_table _ Hs _ _ Hp0) as (pg0 & _ & Hpg0 & Hid0 & _).
    assert (f0 ≠ f) by (intros ->; congruence).
    assert (Hp1 : delete q (page_table_ s) !! p = Some f0) by (by rewrite lookup_delete_ne).
    assert (Hpg' : <[f := ResetPage pg]> (pages_ s) !! f0 = Some pg0)
      by (by rewrite list_lookup_insert_ne).
    split.
    + unfold page_bytes. simpl. rewrite Hp1, Hp0. simpl. by rewrite Hpg', Hpg0.
    + intros f' pg' Hf' Hpg''. simpl in Hf', Hpg''. rewrite Hp1 in Hf'. injection Hf' as <-.
      rewrite Hpg' in Hpg''. injection Hpg'' as <-. simpl. by apply (Hfl f0).
  - injection Hstep as <-. unfold write_data.
    destruct (pages_ s !! f1) as [pg1|] eqn:Hpg1; [|done].
    apply (frame_update_bytes s f1 pg1 _ (replacer_ s)); try done.
    intros Hp1. by destruct (Hwrite f1 bytes eq_refl).
Qed.

(** X27.  In a state that a client who fetches allocated pages only has
    reached, [FetchPgImp] of a page that is in the pool pins its frame
    once more and reads nothing: bytes, dirty flag, page table, free
    list and disk stay.  For a page that is not in the pool it returns
    [nullptr] and changes nothing when the free list is empty and no
    frame is evictable; otherwise it takes an unpinned frame, which
    then holds the block of the page as it is on disk, pinned once and
    not dirty; the page that the frame held before leaves the page
    table, after its bytes went to disk if it was dirty, and every
    other page stays in its frame. *)
Theorem FetchPgImp_result (n k : nat) (disk : gmap Z (list Byte.byte)) (os : list op)
    (s : BufferPoolManagerInstance) (page_id : page_id_t) :
  (2 ≤ k)%nat →
  fetches_allocated (BufferPoolManagerInstance_new n k disk) os →
  run default_evictable (BufferPoolManagerInstance_new n k disk) os = Some s →
  match page_table_ s !! page_id with
  | Some f =>
      ∃ pg s', pages_ s !! f = Some pg ∧
        FetchPgImp default_evictable s page_id = Some (s', Some f) ∧
        pages_ s' = <[f := mkPage (data_ pg) page_id (pin_count_ pg + 1) (is_dirty_ pg)]>
                      (pages_ s) ∧
        page_table_ s' = page_table_ s ∧ free_list_ s' = free_list_ s ∧
        disk_ s' = disk_ s ∧ next_page_id_ s' = next_page_id_ s
  | None =>
      ∃ s' o, FetchPgImp default_evictable s page_id = Some (s', o) ∧
        match o with
        | None =>
            s' = s ∧ free_list_ s = [] ∧
            ∀ f e, entries_ (replacer_ s) !! f = Some e → is_evictable_ e = false
        | Some f =>
            ∃ pg, pages_ s !! f = Some pg ∧ pin_count_ pg = 0 ∧
              pages_ s' = <[f := mkPage (ReadPage (disk_ s) page_id) page_id 1 false]>
                            (pages_ s) ∧
              page_table_ s' !! page_id = Some f ∧
              (∀ p f', p ≠ page_id →
                 (page_table_ s' !! p = Some f' ↔ page_table_ s !! p = Some f' ∧ f' ≠ f)) ∧
              disk_ s' = (if is_dirty_ pg then <[page_id_ pg := data_ pg]> (disk_ s)
                          else disk_ s) ∧
              (is_dirty_ pg = true → page_table_ s !! page_id_ pg = Some f) ∧
              next_page_id_ s' = next_page_id_ s
        end
  end.
Proof.
  intros Hk Hos Hrun.
  destruct (reachable_data_inv n k disk os s Hk Hos Hrun) as [Hs Hd].
  destruct (page_table_ s !! page_id) as [f|] eqn:Hp.
  - destruct (FetchPgImp_hit s page_id f Hs Hp) as (pg & r' & c & Hpg & Hid & Hent & Hfetch).
    exists pg. eexists. split; [done|]. split; [done|]. done.
  - destruct (FetchPgImp_inv default_evictable s page_id Hs) as (s' & o & Hfetch & _).
    exists s', o. split; [done|].
    pose proof (FetchPgImp_miss _ _ _ _ Hs Hd Hp Hfetch) as Hv.
    destruct o as [f|]; [|done]. destruct Hv as (pg & Hrep). exists pg.
    destruct (replaced_table _ _ _ _ _ _ _ Hs Hrep) as [Hnew Hold].
    destruct Hrep as (Hpg & Hpin & Hdm & _ & Hpages & _ & _ & _ & Hnxt & Hdisk).
    done.
Qed.

(** X28.  In such a state no call takes a pinned page out of its frame:
    after any call the page is still in the page table with the same
    frame, its pin count has gone down by one at most, and the bytes of
    the frame are the same unless the call was a write into this
    frame. *)
Theorem pinned_page_stays (n k : nat) (disk : gmap Z (list Byte.byte)) (os : list op)
    (s s' : BufferPoolManagerInstance) (o : op) (p : page_id_t) (f : frame_id_t) (pg : Page) :
  (2 ≤ k)%nat →
  fetches_allocated (BufferPoolManagerInstance_new n k disk) os →
  run default_evictable (BufferPoolManagerInstance_new n k disk) os = Some s →
  step default_evictable s o = Some s' →
  page_table_ s !! p = Some f → pages_ s !! f = Some pg → 0 < pin_count_ pg →
  page_table_ s' !! p = Some f ∧
  ∃ pg', pages_ s' !! f = Some pg' ∧ page_id_ pg' = p ∧
    pin_count_ pg - 1 ≤ pin_count_ pg' ∧
    (data_ pg' = data_ pg ∨ ∃ bytes, o = OpWrite f bytes ∧ data_ pg' = bytes).
Proof.
  intros Hk Hos Hrun Hstep Hp Hpg Hpos.
  destruct (reachable_data_inv n k disk os s Hk Hos Hrun) as [Hs Hd].
  destruct (bi_table _ Hs _ _ Hp) as (pg0 & _ & Hpg0 & Hid & _).
  rewrite Hpg in Hpg0. injection Hpg0 as <-.
  assert (Hlen : (f < length (pages_ s))%nat) by (by eapply lookup_lt_Some).
  assert (Hsame : page_table_ s !! p = Some f ∧
            ∃ pg', pages_ s !! f = Some pg' ∧ page_id_ pg' = p ∧
              pin_count_ pg - 1 ≤ pin_count_ pg' ∧
              (data_ pg' = data_ pg ∨ ∃ bytes, o = OpWrite f bytes ∧ data_ pg' = bytes)).
  { split; [done|]. exists pg. split; [done|]. split; [done|]. split; [lia|by left]. }
  assert (Hother : ∀ f1 pg1 pt' r' fl' nxt' dk',
            f1 ≠ f → pt' !! p = Some f →
            page_table_ (mkBPM (pool_size_ s) (<[f1 := pg1]> (pages_ s)) pt' r' fl' nxt' dk') !! p
              = Some f ∧
            ∃ pg', pages_ (mkBPM (pool_size_ s) (<[f1 := pg1]> (pages_ s)) pt' r' fl' nxt' dk')
                     !! f = Some pg' ∧ page_id_ pg' = p ∧
              pin_count_ pg - 1 ≤ pin_count_ pg' ∧
              (data_ pg' = data_ pg ∨ ∃ bytes, o = OpWrite f bytes ∧ data_ pg' = bytes)).
  { intros f1 pg1 pt' r' fl' nxt' dk' Hne Hpt'. split; [done|]. exists pg. simpl.
    rewrite list_lookup_insert_ne by done. split; [done|]. split; [done|].
    split; [lia|by left]. }
  assert (Hrepl : ∀ f0 pid pg0 bytes nxt, replaced s s' f0 pid pg0 bytes nxt → p ≠ pid →
            page_table_ s' !! p = Some f ∧
            ∃ pg', pages_ s' !! f = Some pg' ∧ page_id_ pg' = p ∧
              pin_count_ pg - 1 ≤ pin_count_ pg' ∧
              (data_ pg' = data_ pg ∨ ∃ bytes, o = OpWrite f bytes ∧ data_ pg' = bytes)).
  { intros f0 pid pg0 bytes nxt Hrep Hne.
    destruct (replaced_table _ _ _ _ _ _ _ Hs Hrep) as [_ Hold].
    destruct Hrep as (Hpg0 & Hpin0 & _ & _ & Hpages & _).
    assert (f ≠ f0) by (intros ->; rewrite Hpg in Hpg0; injection Hpg0 as <-; lia).
    split; [by apply (Hold _ _ Hne)|]. exists pg.
    rewrite Hpages, list_lookup_insert_ne by done.
    split; [done|]. split; [done|]. split; [lia|by left]. }
  destruct o as [|q|q d|q| |q|f1 bytes]; simpl in Hstep.
  - destruct (NewPgImp default_evictable s) as [[s1 o]|] eqn:Hnew; [|done].
    injection Hstep as <-. pose proof (NewPgImp_view _ _ _ Hs Hd Hnew) as Hv.
    destruct o as [[pid f0]|]; [|by subst]. destruct Hv as (-> & pg0 & Hrep).
    apply (Hrepl _ _ _ _ _ Hrep). pose proof (di_alloc _ Hd _ _ Hp). lia.
  - destruct (page_table_ s !! q) as [f0|] eqn:Hq.
    + destruct (FetchPgImp_hit s q f0 Hs Hq) as (pg0 & r' & c & Hpg0 & Hid0 & Hent & Hfetch).
      rewrite Hfetch in Hstep. injection Hstep as <-.
      destruct (decide (f0 = f)) as [->|Hne]; [|by apply Hother].
      rewrite Hpg in Hpg0. injection Hpg0 as <-. split; [done|]. eexists. simpl.
      rewrite list_lookup_insert_eq by done. split; [done|]. simpl.
      split; [congruence|]. split; [lia|by left].
    + destruct (FetchPgImp default_evictable s q) as [[s1 o]|] eqn:Hfetch; [|done].
      injection Hstep as <-. pose proof (FetchPgImp_miss _ _ _ _ Hs Hd Hq Hfetch) as Hv.
      destruct o as [f0|]; [|by destruct Hv as [-> _]]. destruct Hv as (pg0 & Hrep).
      apply (Hrepl _ _ _ _ _ Hrep). congruence.
  - destruct (UnpinPgImp s q d) as [[s1 b]|] eqn:Hun; [|done]. injection Hstep as <-.
    destruct (UnpinPgImp_view _ _ _ _ _ Hs Hun)
      as [[-> _]|(f0 & pg0 & r' & Hq & Hpg0 & Hid0 & Hpos0 & _ & Hent & ->)]; [done|].
    destruct (decide (f0 = f)) as [->|Hne]; [|by apply Hother].
    rewrite Hpg in Hpg0. injection Hpg0 as <-. split; [done|]. eexists. simpl.
    rewrite list_lookup_insert_eq by done. split; [done|]. simpl.
    split; [congruence|]. split; [lia|by left].
  - destruct (FlushPgImp s q) as [[s1 b]|] eqn:Hflush; [|done]. injection Hstep as <-.
    destruct (FlushPgImp_view _ _ _ _ Hs Hflush)
      as [_ [(-> & _)|(f0 & pg0 & Hq & Hpg0 & Hid0 & _ & ->)]]; [done|].
    destruct (decide (f0 = f)) as [->|Hne]; [|by apply Hother].
    rewrite Hpg in Hpg0. injection Hpg0 as <-. split; [done|]. eexists. simpl.
    rewrite list_lookup_insert_eq by done. split; [done|]. simpl.
    split; [congruence|]. split; [lia|by left].
  - injection Hstep as <-.
    destruct (FlushAllPgsImp_view s Hs Hd) as (Hpt & Hpages & _).
    rewrite Hpt, Hpages, list_lookup_fmap, Hpg. split; [done|]. eexists. split; [done|].
    unfold flushed. destruct (decide _); simpl; (split; [done|]); (split; [lia|by left]).
  - destruct (DeletePgImp s q) as [[s1 b]|] eqn:Hdl; [|done]. injection Hstep as <-.
    destruct (DeletePgImp_view _ _ _ _ Hs Hdl)
      as [->|(f0 & pg0 & r' & Hq & Hpg0 & Hid0 & Hpin0 & _ & Hent & ->)]; [done|].
    assert (Hne : f0 ≠ f) by (intros ->; rewrite Hpg in Hpg0; injection Hpg0 as <-; lia).
    apply Hother; [done|]. rewrite lookup_delete_ne; [done|]. intros ->. congruence.
  - injection Hstep as <-. unfold write_data.
    destruct (pages_ s !! f1) as [pg1|] eqn:Hpg1; [|done].
    destruct (decide (f1 = f)) as [->|Hne]; [|by apply Hother].
    rewrite Hpg in Hpg1. injection Hpg1 as <-. split; [done|]. eexists. simpl.
    rewrite list_lookup_insert_eq by done. split; [done|]. simpl.
    split; [done|]. split; [lia|]. right. by exists bytes.
Qed.

(** X29.  In such a state [FlushAllPgsImp] writes the bytes of every
    page of the page table with a valid id to its block and clears its
    dirty flag; pin counts, bytes and the page table stay, and no other
    block of the disk is written. *)
Theorem FlushAllPgsImp_result (n k : nat) (disk : gmap Z (list Byte.byte)) (os : list op)
    (s : BufferPoolManagerInstance) :
  (2 ≤ k)%nat →
  fetches_allocated (BufferPoolManagerInstance_new n k disk) os →
  run default_evictable (BufferPoolManagerInstance_new n k disk) os = Some s →
  page_table_ (FlushAllPgsImp s) = page_table_ s ∧
  (∀ p f pg, page_table_ s !! p = Some f → pages_ s !! f = Some pg →
     p ≠ INVALID_PAGE_ID →
     disk_ (FlushAllPgsImp s) !! p = Some (data_ pg) ∧
     pages_ (FlushAllPgsImp s) !! f = Some (mkPage (data_ pg) p (pin_count_ pg) false)) ∧
  (∀ q, page_table_ s !! q = None → disk_ (FlushAllPgsImp s) !! q = disk_ s !! q).
Proof.
  intros Hk Hos Hrun.
  destruct (reachable_data_inv n k disk os s Hk Hos Hrun) as [Hs Hd].
  destruct (FlushAllPgsImp_view s Hs Hd) as (Hpt & Hpages & Hpage & Hother).
  split; [done|]. split.
  - intros p f pg Hp Hpg Hvalid. split; [by eapply Hpage|].
    destruct (bi_table _ Hs _ _ Hp) as (pg0 & _ & Hpg0 & Hid & _).
    rewrite Hpg in Hpg0. injection Hpg0 as <-.
    rewrite Hpages, list_lookup_fmap, Hpg. simpl. unfold flushed.
    rewrite decide_False by congruence. by rewrite Hid.
  - intros q Hq. apply Hother. by left.
Qed.

(** X30.  In such a state, let the frame of an allocated page be flagged
    dirty unless its bytes are those of its block on disk.  Then no call
    but a write into the frame of the page, or [DeletePgImp] of the
    page, changes the bytes that the pool has for the page (those of
    its frame, or of its block when it is in no frame): eviction writes
    a dirty page back, and a later [FetchPgImp] reads these bytes.  The
    frame is again flagged dirty unless its bytes are those of the
    block. *)
Theorem page_bytes_kept (n k : nat) (disk : gmap Z (list Byte.byte)) (os : list op)
    (s s' : BufferPoolManagerInstance) (o : op) (p : page_id_t) :
  (2 ≤ k)%nat →
  fetches_allocated (BufferPoolManagerInstance_new n k disk) os →
  run default_evictable (BufferPoolManagerInstance_new n k disk) os = Some s →
  step default_evictable s o = Some s' →
  p < next_page_id_ s → flagged s p →
  (∀ f bytes, o = OpWrite f bytes → page_table_ s !! p ≠ Some f) →
  o ≠ OpDelete p →
  page_bytes s' p = page_bytes s p ∧ flagged s' p.
Proof.
  intros Hk Hos Hrun Hstep Hp Hfl Hwrite Hdel.
  destruct (reachable_data_inv n k disk os s Hk Hos Hrun) as [Hs Hd].
  by apply (step_bytes s o).
Qed.

End Data.

(** A pool of one frame: page 0 is written, unpinned dirty and evicted
    by the second [NewPgImp]; page 1 is unpinned dirty. *)
Definition ops_one_frame : list op :=
  [OpNew; OpWrite 0%nat [Byte.x01]; OpUnpin 0 true; OpNew; OpUnpin 1 true].

(** A pool of two frames: page 0 stays pinned, page 1 is unpinned. *)
Definition ops_two_frames : list op :=
  [OpNew; OpNew; OpWrite 1%nat [Byte.x02]; OpUnpin 1 true].

Lemma FetchPgImp_result_witness :
  ∃ s, run true (BufferPoolManagerInstance_new 1 2 ∅) ops_one_frame = Some s ∧
  match page_table_ s !! 0 with
  | Some f =>
      ∃ pg s', pages_ s !! f = Some pg ∧
        FetchPgImp true s 0 = Some (s', Some f) ∧
        pages_ s' = <[f := mkPage (data_ pg) 0 (pin_count_ pg + 1) (is_dirty_ pg)]>
                      (pages_ s) ∧
        page_table_ s' = page_table_ s ∧ free_list_ s' = free_list_ s ∧
        disk_ s' = disk_ s ∧ next_page_id_ s' = next_page_id_ s
  | None =>
      ∃ s' o, FetchPgImp true s 0 = Some (s', o) ∧
        match o with
        | None =>
            s' = s ∧ free_list_ s = [] ∧
            ∀ f e, entries_ (replacer_ s) !! f = Some e → is_evictable_ e = false
        | Some f =>
            ∃ pg, pages_ s !! f = Some pg ∧ pin_count_ pg = 0 ∧
              pages_ s' = <[f := mkPage (ReadPage (disk_ s) 0) 0 1 false]> (pages_ s) ∧
              page_table_ s' !! 0 = Some f ∧
              (∀ p f', p ≠ 0 →
                 (page_table_ s' !! p = Some f' ↔ page_table_ s !! p = Some f' ∧ f' ≠ f)) ∧
              disk_ s' = (if is_dirty_ pg then <[page_id_ pg := data_ pg]> (disk_ s)
                          else disk_ s) ∧
              (is_dirty_ pg = true → page_table_ s !! page_id_ pg = Some f) ∧
              next_page_id_ s' = next_page_id_ s
        end
  end.
Proof.
  eexists. split; [vm_compute; reflexivity|].
  apply (FetchPgImp_result true 1 2 ∅ ops_one_frame _ 0);
    [lia|apply (bool_decide_unpack _); vm_compute; reflexivity|vm_compute; reflexivity].
Defined.

Lemma pinned_page_stays_witness :
  ∃ s s' pg,
    run true (BufferPoolManagerInstance_new 2 2 ∅) ops_two_frames = Some s ∧
    step true s OpNew = Some s' ∧
    pages_ s !! 0%nat = Some pg ∧
    page_table_ s' !! 0 = Some 0%nat ∧
    ∃ pg', pages_ s' !! 0%nat = Some pg' ∧ page_id_ pg' = 0 ∧
      pin_count_ pg - 1 ≤ pin_count_ pg' ∧
      (data_ pg' = data_ pg ∨ ∃ bytes, OpNew = OpWrite 0%nat bytes ∧ data_ pg' = bytes).
Proof.
  eexists _, _, _. split; [vm_compute; reflexivity|]. split; [vm_compute; reflexivity|].
  split; [vm_compute; reflexivity|].
  eapply (pinned_page_stays true 2 2 ∅ ops_two_frames);
    [lia|apply (bool_decide_unpack _); vm_compute; reflexivity|vm_compute; reflexivity..].
Defined.

Lemma FlushAllPgsImp_result_witness :
  ∃ s, run true (BufferPoolManagerInstance_new 2 2 ∅) ops_two_frames = Some s ∧
  page_table_ (FlushAllPgsImp s) = page_table_ s ∧
  (∀ p f pg, page_table_ s !! p = Some f → pages_ s !! f = Some pg →
     p ≠ INVALID_PAGE_ID →
     disk_ (FlushAllPgsImp s) !! p = Some (data_ pg) ∧
     pages_ (FlushAllPgsImp s) !! f = Some (mkPage (data_ pg) p (pin_count_ pg) false)) ∧
  (∀ q, page_table_ s !! q = None → disk_ (FlushAllPgsImp s) !! q = disk_ s !! q).
Proof.
  eexists. split; [vm_compute; reflexivity|].
  apply (FlushAllPgsImp_result true 2 2 ∅ ops_two_frames);
    [lia|apply (bool_decide_unpack _); vm_compute; reflexivity|vm_compute; reflexivity].
Defined.

Lemma page_bytes_kept_witness :
  ∃ s s',
    run true (BufferPoolManagerInstance_new 1 2 ∅) ops_one_frame = Some s ∧
    step true s (OpFetch 0) = Some s' ∧
    page_bytes s' 1 = page_bytes s 1 ∧ flagged s' 1.
Proof.
  eexists _, _. split; [vm_compute; reflexivity|]. split; [vm_compute; reflexivity|].
  eapply (page_bytes_kept true 1 2 ∅ ops_one_frame _ _ (OpFetch 0) 1).
  - lia.
  - apply (bool_decide_unpack _). vm_compute. reflexivity.
  - vm_compute. reflexivity.
  - vm_compute. reflexivity.
  - vm_compute. reflexivity.
  - intros f pg Hf Hpg. vm_compute in Hf. injection Hf as <-.
    vm_compute in Hpg. injection Hpg as <-. left. reflexivity.
  - intros f bytes Ho. discriminate Ho.
  - intros Ho. discriminate Ho.
Defined.

End BPMData.

(* ===================================================================== *)
(** ** container/hash/extendible_hash_table.cpp *)
(* ===================================================================== *)

(** Bit masks of a power of two, as remainders. *)
Lemma shiftl_1 d : 0 ≤ d → Z.shiftl 1 d = 2 ^ d.
Proof. intros. rewrite Z.shiftl_mul_pow2 by done. lia. Qed.

Lemma land_mask x d : 0 ≤ d → Z.land x (Z.shiftl 1 d - 1) = x mod 2 ^ d.
Proof.
  intros. rewrite shiftl_1 by done. rewrite <- Z.land_ones by done.
  f_equal. rewrite Z.ones_equiv. lia.
Qed.

Lemma land_pow2_eqb x d :
  0 ≤ d → (Z.land x (Z.shiftl 1 d) =? 0) = negb (Z.testbit x d).
Proof.
  intros Hd. rewrite shiftl_1 by done.
  destruct (Z.testbit x d) eqn:Hb; simpl.
  - apply Z.eqb_neq. intros H0.
    assert (Z.testbit (Z.land x (2 ^ d)) d = false) by (rewrite H0; apply Z.bits_0).
    rewrite Z.land_spec, Hb, Z.pow2_bits_true in H by done. done.
  - apply Z.eqb_eq. apply Z.bits_inj'. intros n Hn.
    rewrite Z.land_spec, Z.bits_0. rewrite Z.pow2_bits_eqb by done.
    destruct (Z.eqb_spec d n) as [->|]; [by rewrite Hb|]. apply andb_false_r.
Qed.

Lemma mod_pow2_succ x d :
  0 ≤ d → x mod 2 ^ (d + 1) = x mod 2 ^ d + (if Z.testbit x d then 2 ^ d else 0).
Proof.
  intros Hd. rewrite Z.pow_add_r by lia. change (2 ^ 1) with 2.
  rewrite Z.rem_mul_r by lia.
  rewrite <- Z.testbit_spec' by done. destruct (Z.testbit x d); simpl; lia.
Qed.

Lemma mod_pow2_le x d e : 0 ≤ d ≤ e → (x mod 2 ^ e) mod 2 ^ d = x mod 2 ^ d.
Proof.
  intros Hde. replace e with (d + (e - d)) by lia.
  rewrite Z.pow_add_r by lia. rewrite Z.rem_mul_r by lia.
  rewrite Z.mul_comm, Z.mod_add by lia. apply Z.mod_mod. lia.
Qed.

Lemma mod_pow2_congr x y d e :
  0 ≤ d ≤ e → x mod 2 ^ e = y mod 2 ^ e → x mod 2 ^ d = y mod 2 ^ d.
Proof. intros Hde Heq. rewrite <- (mod_pow2_le x d e), <- (mod_pow2_le y d e) by done. by rewrite Heq. Qed.

Lemma mod_pow2_sub x d e : 0 ≤ d ≤ e → (x - 2 ^ e) mod 2 ^ d = x mod 2 ^ d.
Proof.
  intros Hde. replace (2 ^ e) with (2 ^ (e - d) * 2 ^ d).
  - replace (x - 2 ^ (e - d) * 2 ^ d) with (x + (- 2 ^ (e - d)) * 2 ^ d) by lia.
    apply Z.mod_add. lia.
  - rewrite <- Z.pow_add_r by lia. f_equal. lia.
Qed.

Lemma testbit_mod_pow2 x d e : 0 ≤ d < e → Z.testbit (x mod 2 ^ e) d = Z.testbit x d.
Proof. intros. rewrite Z.mod_pow2_bits_low by lia. done. Qed.

Lemma mod_pow2_succ_congr x y d :
  0 ≤ d →
  (x mod 2 ^ (d + 1) = y mod 2 ^ (d + 1) ↔
   x mod 2 ^ d = y mod 2 ^ d ∧ Z.testbit x d = Z.testbit y d).
Proof.
  intros Hd. rewrite !mod_pow2_succ by done.
  pose proof (Z.mod_pos_bound x (2 ^ d) ltac:(lia)).
  pose proof (Z.mod_pos_bound y (2 ^ d) ltac:(lia)).
  destruct (Z.testbit x d), (Z.testbit y d); split; intros; try split; try done; try lia;
   destruct H1; try done; lia.
Qed.

Lemma Z_neq_testbit x y : x ≠ y → ∃ j, 0 ≤ j ∧ Z.testbit x j ≠ Z.testbit y j.
Proof.
  intros Hne.
  assert (Hz : Z.lxor x y ≠ 0) by (intros H0; by apply Z.lxor_eq in H0).
  assert (Hj : ∃ j, 0 ≤ j ∧ Z.testbit (Z.lxor x y) j = true).
  { destruct (Z.lt_trichotomy (Z.lxor x y) 0) as [Hneg|[H0|Hpos]]; [|done|].
    - exists (Z.log2 (Z.pred (- Z.lxor x y)) + 1). split.
      + pose proof (Z.log2_nonneg (Z.pred (- Z.lxor x y))). lia.
      + apply Z.bits_above_log2_neg; lia.
    - exists (Z.log2 (Z.lxor x y)). split; [apply Z.log2_nonneg|]. by apply Z.bit_log2. }
  destruct Hj as (j & Hj & Hbit). exists j. split; [done|].
  rewrite Z.lxor_spec in Hbit. destruct (Z.testbit x j), (Z.testbit y j); done.
Qed.

Lemma mod_pow2_neq_testbit x y e :
  0 ≤ e → x mod 2 ^ e ≠ y mod 2 ^ e → ∃ j, 0 ≤ j < e ∧ Z.testbit x j ≠ Z.testbit y j.
Proof.
  intros He Hne. destruct (Z_neq_testbit _ _ Hne) as (j & Hj & Hbit).
  destruct (Z.lt_ge_cases j e) as [Hlt|Hge].
  - exists j. split; [lia|]. by rewrite !testbit_mod_pow2 in Hbit by lia.
  - by rewrite !Z.mod_pow2_bits_high in Hbit by lia.
Qed.

Lemma mod_pow2_eq_testbit x y e j :
  x mod 2 ^ e = y mod 2 ^ e → 0 ≤ j < e → Z.testbit x j = Z.testbit y j.
Proof.
  intros Heq Hj. rewrite <- (testbit_mod_pow2 x j e), <- (testbit_mod_pow2 y j e) by done.
  by rewrite Heq.
Qed.

Module EHT.

(** Outcome of an operation whose loop is run with fuel. *)
Inductive outcome (A : Type) :=
| Done (a : A)
| OutOfFuel          (* the loop was still running when the fuel ended *)
| Undefined.         (* a slot or bucket that does not exist, or a shift
                        that is out of range *)
Arguments Done {A} a.
Arguments OutOfFuel {A}.
Arguments Undefined {A}.

Section Table.

(** The key and value types are template parameters, and [hash] stands
    for [std::hash<K>].  Hash values and directory indices are [size_t],
    depths and masks are [int]; both are kept in [Z], and the shifts
    that make the masks are defined as far as [int] goes. *)
Context {K V : Type} `{EqDecision K}.
Variable hash : K → Z.

Record Bucket := mkBucket {
  size_ : Z;
  depth_ : Z;
  list_ : list (K * V)
}.

(** A [std::shared_ptr<Bucket>] is the address of a bucket in [heap_];
    the slots of [dir_] that hold the same address share the bucket. *)
Record ExtendibleHashTable := mkTable {
  global_depth_ : Z;
  bucket_size_ : Z;
  num_buckets_ : Z;
  dir_ : list nat;
  heap_ : gmap nat Bucket;
  next_ : nat
}.

Definition ExtendibleHashTable_new (bucket_size : Z) : ExtendibleHashTable :=
  mkTable 0 bucket_size 1 [0%nat] {[ 0%nat := mkBucket bucket_size 0 [] ]} 1.

(** *** Bucket *)

(** [IsFull], [GetDepth] and [GetItems] are defined in the header, which
    is not among the sources: [IsFull] is [list_.size() == size_]. *)
Definition IsFull (b : Bucket) : bool := Z.of_nat (length (list_ b)) =? size_ b.

Fixpoint find_key (key : K) (l : list (K * V)) : option V :=
  match l with
  | [] => None
  | (k, v) :: l' => if decide (k = key) then Some v else find_key key l'
  end.

Definition Bucket_Find (b : Bucket) (key : K) : option V := find_key key (list_ b).

Fixpoint remove_key (key : K) (l : list (K * V)) : option (list (K * V)) :=
  match l with
  | [] => None
  | (k, v) :: l' =>
      if decide (k = key) then Some l'
      else match remove_key key l' with
           | Some r => Some ((k, v) :: r)
           | None => None
           end
  end.

Definition Bucket_Remove (b : Bucket) (key : K) : Bucket * bool :=
  match remove_key key (list_ b) with
  | Some l' => (mkBucket (size_ b) (depth_ b) l', true)
  | None => (b, false)
  end.

Fixpoint update_key (key : K) (value : V) (l : list (K * V)) : option (list (K * V)) :=
  match l with
  | [] => None
  | (k, v) :: l' =>
      if decide (k = key) then Some ((k, value) :: l')
      else match update_key key value l' with
           | Some r => Some ((k, v) :: r)
           | None => None
           end
  end.

Definition Bucket_Insert (b : Bucket) (key : K) (value : V) : Bucket * bool :=
  match update_key key value (list_ b) with
  | Some l' => (mkBucket (size_ b) (depth_ b) l', true)
  | None =>
      if IsFull b then (b, false)
      else (mkBucket (size_ b) (depth_ b) (list_ b ++ [(key, value)]), true)
  end.

(** *** Table *)

(** [1 << d] in [int].  The result is [2 ^ d] for [0 <= d <= 30].
    [1 << 31] does not fit in [int], and both places that shift go on to
    take one from the result, which overflows; a shift by 32 and more,
    or by a negative amount, is undefined.  [None]: undefined
    behaviour. *)
Definition shl_int (d : Z) : option Z :=
  if decide (0 ≤ d ≤ 30) then Some (Z.shiftl 1 d) else None.

Definition IndexOf (t : ExtendibleHashTable) (key : K) : option Z :=
  m ← shl_int (global_depth_ t);
  let mask := m - 1 in
  Some (Z.land (hash key) mask).

(** [dir_[idx]], dereferenced. *)
Definition bucket_at (t : ExtendibleHashTable) (idx : Z) : option (nat * Bucket) :=
  l ← dir_ t !! Z.to_nat idx; b ← heap_ t !! l; Some (l, b).

Definition set_bucket (t : ExtendibleHashTable) (l : nat) (b : Bucket) : ExtendibleHashTable :=
  mkTable (global_depth_ t) (bucket_size_ t) (num_buckets_ t) (dir_ t)
          (<[l := b]> (heap_ t)) (next_ t).

Definition GetGlobalDepth (t : ExtendibleHashTable) : Z := global_depth_ t.

Definition GetLocalDepth (t : ExtendibleHashTable) (dir_index : Z) : option Z :=
  '(_, b) ← bucket_at t dir_index; Some (depth_ b).

Definition GetNumBuckets (t : ExtendibleHashTable) : Z := num_buckets_ t.

(** [None]: undefined behaviour. *)
Definition Find (t : ExtendibleHashTable) (key : K) : option (option V) :=
  idx ← IndexOf t key;
  '(_, b) ← bucket_at t idx; Some (Bucket_Find b key).

Definition Remove (t : ExtendibleHashTable) (key : K) : option (ExtendibleHashTable * bool) :=
  idx ← IndexOf t key;
  '(l, b) ← bucket_at t idx;
  let '(b', r) := Bucket_Remove b key in Some (set_bucket t l b', r).

Definition Expansion (t : ExtendibleHashTable) : ExtendibleHashTable :=
  mkTable (global_depth_ t + 1) (bucket_size_ t) (num_buckets_ t)
          (dir_ t ++ dir_ t) (heap_ t) (next_ t).

(** The first loop of [RedistributeBucket]: the items of the old bucket
    go to [b1] or [b0] by the bit [localmask] of their hash. *)
Fixpoint distribute (localmask : Z) (items : list (K * V)) (b0 b1 : Bucket) : Bucket * Bucket :=
  match items with
  | [] => (b0, b1)
  | (k, v) :: items' =>
      if negb (Z.land (hash k) localmask =? 0)
      then distribute localmask items' b0 (Bucket_Insert b1 k v).1
      else distribute localmask items' (Bucket_Insert b0 k v).1 b1
  end.

(** The second loop: [for (i = ...; i < dir_.size(); i += localmask)].
    [i] grows by [localmask >= 1], so [dir_.size()] rounds are enough. *)
Fixpoint redirect (rounds : nat) (i localmask : Z) (dir : list nat) (l0 l1 : nat) : list nat :=
  match rounds with
  | O => dir
  | S n =>
      if i <? Z.of_nat (length dir) then
        redirect n (i + localmask) localmask
                 (<[Z.to_nat i := if negb (Z.land i localmask =? 0) then l1 else l0]> dir)
                 l0 l1
      else dir
  end.

(** [None]: undefined behaviour, the shift [1 << old_depth] is out of
    range. *)
Definition RedistributeBucket (t : ExtendibleHashTable) (bucket : Bucket) (key : K)
  : option ExtendibleHashTable :=
  let old_depth := depth_ bucket in
  let l0 := next_ t in
  let l1 := S (next_ t) in
  localmask ← shl_int old_depth;
  let '(b0, b1) := distribute localmask (list_ bucket)
                     (mkBucket (bucket_size_ t) (old_depth + 1) [])
                     (mkBucket (bucket_size_ t) (old_depth + 1) []) in
  Some (mkTable (global_depth_ t) (bucket_size_ t) (num_buckets_ t + 1)
          (redirect (length (dir_ t)) (Z.land (hash key) (localmask - 1)) localmask
                    (dir_ t) l0 l1)
          (<[l1 := b1]> (<[l0 := b0]> (heap_ t))) (S (S (next_ t)))).

(** The loop [while (dir_[idx]->IsFull())] of [Insert]. *)
Fixpoint split_loop (fuel : nat) (t : ExtendibleHashTable) (key : K)
  : outcome ExtendibleHashTable :=
  match fuel with
  | O => OutOfFuel
  | S n =>
      match IndexOf t key with
      | None => Undefined
      | Some idx =>
          match bucket_at t idx with
          | None => Undefined
          | Some (_, b) =>
              if IsFull b then
                let t1 := if depth_ b =? global_depth_ t then Expansion t else t in
                match bucket_at t1 idx with
                | None => Undefined
                | Some (_, b1) =>
                    match RedistributeBucket t1 b1 key with
                    | None => Undefined
                    | Some t2 => split_loop n t2 key
                    end
                end
              else Done t
          end
      end
  end.

Definition Insert (fuel : nat) (t : ExtendibleHashTable) (key : K) (value : V)
  : outcome ExtendibleHashTable :=
  match idx ← IndexOf t key; bucket_at t idx with
  | None => Undefined
  | Some (l, b) =>
      match Bucket_Find b key with
      | Some _ => Done (set_bucket t l (Bucket_Insert b key value).1)
      | None =>
          match split_loop fuel t key with
          | Done t' =>
              match idx' ← IndexOf t' key; bucket_at t' idx' with
              | None => Undefined
              | Some (l', b') => Done (set_bucket t' l' (Bucket_Insert b' key value).1)
              end
          | OutOfFuel => OutOfFuel
          | Undefined => Undefined
          end
      end
  end.

(** Sequences of operations; each [Insert] comes with its fuel. *)
Inductive op :=
| OpInsert (fuel : nat) (key : K) (value : V)
| OpRemove (key : K).

Definition step (t : ExtendibleHashTable) (o : op) : option ExtendibleHashTable :=
  match o with
  | OpInsert fuel key value =>
      match Insert fuel t key value with
      | Done t' => Some t'
      | _ => None
      end
  | OpRemove key => fst <$> Remove t key
  end.

Fixpoint run (t : ExtendibleHashTable) (os : list op) : option ExtendibleHashTable :=
  match os with
  | [] => Some t
  | o :: os' => t' ← step t o; run t' os'
  end.

End Table.

Arguments Bucket : clear implicits.
Arguments ExtendibleHashTable : clear implicits.
Arguments op : clear implicits.

(** *** Shape of the directory *)

Section TableFacts.

Context {K V : Type} `{EqDecision K}.
Variable hash : K → Z.

Local Abbreviation Bucket := (Bucket K V).
Local Abbreviation ExtendibleHashTable := (ExtendibleHashTable K V).

(** The bucket at address [l], referenced by slot [i]: its depth is at
    most the global depth, the slots that share it are exactly those
    that agree with [i] on the low [depth_] bits, and so do the hashes of
    its keys; it holds at most [bucket_size_] pairs. *)
Definition slot_ok (t : ExtendibleHashTable) (i l : nat) : Prop :=
  ∃ b, heap_ t !! l = Some b ∧
       0 ≤ depth_ b ≤ global_depth_ t ∧
       size_ b = bucket_size_ t ∧
       Z.of_nat (length (list_ b)) ≤ size_ b ∧
       (∀ j l', dir_ t !! j = Some l' →
          (l' = l ↔ Z.of_nat j mod 2 ^ depth_ b = Z.of_nat i mod 2 ^ depth_ b)) ∧
       (∀ k v, (k, v) ∈ list_ b →
          hash k mod 2 ^ depth_ b = Z.of_nat i mod 2 ^ depth_ b).

Record eht_inv (t : ExtendibleHashTable) : Prop := {
  ei_gd : 0 ≤ global_depth_ t;
  ei_len : Z.of_nat (length (dir_ t)) = 2 ^ global_depth_ t;
  ei_slot : ∀ i l, dir_ t !! i = Some l → slot_ok t i l;
  ei_fresh : ∀ i l, dir_ t !! i = Some l → (l < next_ t)%nat
}.

Lemma eht_inv_new bucket_size :
  0 ≤ bucket_size → eht_inv (ExtendibleHashTable_new bucket_size).
Proof.
  intros Hb. split; simpl; [lia|done| |].
  - intros i l Hi. destruct i as [|i]; [|done]. injection Hi as <-.
    eexists. simpl. rewrite lookup_singleton_eq. split; [done|]. simpl.
    split; [lia|]. split; [done|]. split; [lia|]. split.
    + intros j l' Hj. destruct j as [|j]; [|done]. injection Hj as <-. done.
    + intros k v Hin. inversion Hin.
  - intros i l Hi. destruct i as [|i]; [|done]. injection Hi as <-. lia.
Qed.

(** The index and the split table that [IndexOf] and
    [RedistributeBucket] give where their shifts are in range. *)
Definition index_of (t : ExtendibleHashTable) (key : K) : Z :=
  Z.land (hash key) (Z.shiftl 1 (global_depth_ t) - 1).

Definition split_table (t : ExtendibleHashTable) (bucket : Bucket) (key : K)
  : ExtendibleHashTable :=
  let localmask := Z.shiftl 1 (depth_ bucket) in
  let '(b0, b1) := distribute hash localmask (list_ bucket)
                     (mkBucket (bucket_size_ t) (depth_ bucket + 1) [])
                     (mkBucket (bucket_size_ t) (depth_ bucket + 1) []) in
  mkTable (global_depth_ t) (bucket_size_ t) (num_buckets_ t + 1)
          (redirect (length (dir_ t)) (Z.land (hash key) (localmask - 1)) localmask
                    (dir_ t) (next_ t) (S (next_ t)))
          (<[S (next_ t) := b1]> (<[next_ t := b0]> (heap_ t))) (S (S (next_ t))).

Lemma IndexOf_Some (t : ExtendibleHashTable) key idx :
  IndexOf hash t key = Some idx ↔ 0 ≤ global_depth_ t ≤ 30 ∧ idx = index_of t key.
Proof.
  unfold IndexOf, index_of, shl_int.
  destruct (decide (0 ≤ global_depth_ t ≤ 30)); simpl; split.
  - by intros [= <-].
  - by intros [_ ->].
  - done.
  - by intros [? _].
Qed.

Lemma IndexOf_in_range (t : ExtendibleHashTable) key :
  0 ≤ global_depth_ t ≤ 30 → IndexOf hash t key = Some (index_of t key).
Proof. intros. by apply IndexOf_Some. Qed.

Lemma IndexOf_out_of_range (t : ExtendibleHashTable) key :
  30 < global_depth_ t → IndexOf hash t key = None.
Proof.
  intros. unfold IndexOf, shl_int. rewrite decide_False by lia. done.
Qed.

Lemma RedistributeBucket_Some (t : ExtendibleHashTable) b key t' :
  RedistributeBucket hash t b key = Some t' ↔ 0 ≤ depth_ b ≤ 30 ∧ t' = split_table t b key.
Proof.
  unfold RedistributeBucket, split_table, shl_int.
  destruct (decide (0 ≤ depth_ b ≤ 30)); simpl.
  - destruct (distribute hash _ _ _ _) as [b0 b1]. split.
    + by intros [= <-].
    + by intros [_ ->].
  - split; [done|]. by intros [? _].
Qed.

Lemma RedistributeBucket_in_range (t : ExtendibleHashTable) b key :
  0 ≤ depth_ b ≤ 30 → RedistributeBucket hash t b key = Some (split_table t b key).
Proof. intros. by apply RedistributeBucket_Some. Qed.

Lemma index_of_mod (t : ExtendibleHashTable) key :
  0 ≤ global_depth_ t → index_of t key = hash key mod 2 ^ global_depth_ t.
Proof. intros. unfold index_of. by apply land_mask. Qed.

Lemma index_of_slot (t : ExtendibleHashTable) key :
  eht_inv t →
  ∃ l b, dir_ t !! Z.to_nat (index_of t key) = Some l ∧
         heap_ t !! l = Some b ∧
         bucket_at t (index_of t key) = Some (l, b) ∧
         Z.of_nat (Z.to_nat (index_of t key)) = hash key mod 2 ^ global_depth_ t ∧
         0 ≤ depth_ b ≤ global_depth_ t ∧
         size_ b = bucket_size_ t ∧
         Z.of_nat (length (list_ b)) ≤ size_ b ∧
         hash key mod 2 ^ depth_ b = Z.of_nat (Z.to_nat (index_of t key)) mod 2 ^ depth_ b.
Proof.
  intros Ht. pose proof (ei_gd _ Ht) as Hgd. rewrite index_of_mod by done.
  pose proof (Z.mod_pos_bound (hash key) (2 ^ global_depth_ t) ltac:(lia)) as Hb.
  destruct (lookup_lt_is_Some_2 (dir_ t) (Z.to_nat (hash key mod 2 ^ global_depth_ t))) as [l Hl].
  { pose proof (ei_len _ Ht). lia. }
  destruct (ei_slot _ Ht _ _ Hl) as (b & Hb' & Hdep & Hsz & Hlen & _).
  exists l, b. split; [done|]. split; [done|]. split.
  { unfold bucket_at. rewrite Hl. simpl. rewrite Hb'. done. }
  split; [lia|]. split; [done|]. split; [done|]. split; [done|].
  rewrite Z2Nat.id by lia. symmetry. by apply mod_pow2_le.
Qed.

(** **** Buckets *)

Lemma update_key_spec key value (l l' : list (K * V)) :
  update_key key value l = Some l' →
  length l' = length l ∧ ∀ x, x ∈ l' → x ∈ l ∨ x = (key, value).
Proof.
  revert l'. induction l as [|[k v] l IH]; intros l' Hu; simpl in Hu; [done|].
  destruct (decide (k = key)) as [->|Hne].
  - injection Hu as <-. split; [done|]. intros x Hx.
    apply elem_of_cons in Hx as [->|Hx]; [by right|left; by right].
  - destruct (update_key key value l) as [r|]; [|done]. injection Hu as <-.
    destruct (IH r eq_refl) as [Hlen Hin]. split; [simpl; lia|].
    intros x Hx. apply elem_of_cons in Hx as [->|Hx]; [left; by left|].
    destruct (Hin x Hx); [left; by right|by right].
Qed.

Lemma Bucket_Insert_spec (b : Bucket) key value :
  let b' := (Bucket_Insert b key value).1 in
  depth_ b' = depth_ b ∧ size_ b' = size_ b ∧
  (Z.of_nat (length (list_ b)) ≤ size_ b → Z.of_nat (length (list_ b')) ≤ size_ b') ∧
  (∀ x, x ∈ list_ b' → x ∈ list_ b ∨ x = (key, value)).
Proof.
  unfold Bucket_Insert.
  destruct (update_key key value (list_ b)) as [l'|] eqn:Hu; simpl.
  - destruct (update_key_spec _ _ _ _ Hu) as [Hlen Hin].
    split; [done|]. split; [done|]. split; [lia|done].
  - unfold IsFull. destruct (Z.eqb_spec (Z.of_nat (length (list_ b))) (size_ b)); simpl.
    + split; [done|]. split; [done|]. split; [done|]. intros x Hx. by left.
    + split; [done|]. split; [done|]. split.
      * rewrite length_app. simpl. lia.
      * intros x Hx. apply elem_of_app in Hx as [Hx|Hx]; [by left|].
        apply list_elem_of_singleton in Hx. by right.
Qed.

Lemma remove_key_spec key (l l' : list (K * V)) :
  remove_key key l = Some l' →
  (length l' ≤ length l)%nat ∧ ∀ x, x ∈ l' → x ∈ l.
Proof.
  revert l'. induction l as [|[k v] l IH]; intros l' Hu; simpl in Hu; [done|].
  destruct (decide (k = key)) as [->|Hne].
  - injection Hu as <-. split; [simpl; lia|]. intros x Hx. by right.
  - destruct (remove_key key l) as [r|]; [|done]. injection Hu as <-.
    destruct (IH r eq_refl) as [Hlen Hin]. split; [simpl; lia|].
    intros x Hx. apply elem_of_cons in Hx as [->|Hx]; [by left|]. right. by apply Hin.
Qed.

Lemma Bucket_Remove_spec (b : Bucket) key :
  let b' := (Bucket_Remove b key).1 in
  depth_ b' = depth_ b ∧ size_ b' = size_ b ∧
  (length (list_ b') ≤ length (list_ b))%nat ∧
  (∀ x, x ∈ list_ b' → x ∈ list_ b).
Proof.
  unfold Bucket_Remove.
  destruct (remove_key key (list_ b)) as [l'|] eqn:Hu; simpl.
  - destruct (remove_key_spec _ _ _ Hu) as [Hlen Hin]. done.
  - done.
Qed.

(** Replacing the contents of a bucket, its depth and capacity kept. *)
Lemma eht_inv_set_bucket (t : ExtendibleHashTable) l b b' :
  eht_inv t → heap_ t !! l = Some b →
  depth_ b' = depth_ b → size_ b' = size_ b →
  Z.of_nat (length (list_ b')) ≤ size_ b' →
  (∀ k v, (k, v) ∈ list_ b' →
     (k, v) ∈ list_ b ∨
     ∃ i, dir_ t !! i = Some l ∧ hash k mod 2 ^ depth_ b = Z.of_nat i mod 2 ^ depth_ b) →
  eht_inv (set_bucket t l b').
Proof.
  intros Ht Hl Hd Hsz Hlen Hkeys. split; simpl; try apply Ht.
  intros i l0 Hi. destruct (ei_slot _ Ht _ _ Hi) as (b0 & Hb0 & Hdep & Hs0 & Hlen0 & Hshare & Hk0).
  destruct (decide (l = l0)) as [->|Hne].
  - rewrite Hl in Hb0. injection Hb0 as <-.
    exists b'. simpl. rewrite lookup_insert_eq. split; [done|].
    rewrite Hd, Hsz. split; [done|]. split; [done|]. split; [by rewrite <- Hsz|].
    split; [done|]. intros k v Hkv.
    destruct (Hkeys k v Hkv) as [Hin|(i' & Hi' & Hh)]; [by eapply Hk0|].
    rewrite Hh. by apply (Hshare i' l0).
  - exists b0. simpl. rewrite lookup_insert_ne by done. done.
Qed.

Lemma eht_Remove_inv (t : ExtendibleHashTable) key t' r :
  eht_inv t → Remove hash t key = Some (t', r) → eht_inv t'.
Proof.
  intros Ht. unfold Remove.
  destruct (IndexOf hash t key) as [idx|] eqn:HI; [|done].
  apply IndexOf_Some in HI as [Hu ->]. simpl.
  destruct (index_of_slot t key Ht) as (l & b & Hl & Hb & -> & _ & _ & Hsz0 & Hlen0 & _). simpl.
  pose proof (Bucket_Remove_spec b key) as Hrem.
  destruct (Bucket_Remove b key) as [b' r']. simpl in Hrem. intros [= <- <-].
  destruct Hrem as (Hd & Hsz & Hlen & Hin).
  eapply eht_inv_set_bucket; try done.
  - lia.
  - intros k v Hkv. left. by apply Hin.
Qed.

Lemma Remove_depth (t : ExtendibleHashTable) key t' r :
  Remove hash t key = Some (t', r) → global_depth_ t' ≤ 30.
Proof.
  unfold Remove. destruct (IndexOf hash t key) as [idx|] eqn:HI; [|done].
  apply IndexOf_Some in HI as [Hu ->]. simpl.
  destruct (bucket_at t (index_of t key)) as [[l b]|]; [|done]. simpl.
  destruct (Bucket_Remove b key). intros [= <- _]. simpl. lia.
Qed.

(** **** Doubling the directory *)

Lemma lookup_app_double (dir : list nat) gd j l :
  0 ≤ gd → Z.of_nat (length dir) = 2 ^ gd →
  (dir ++ dir) !! j = Some l →
  ∃ j0, dir !! j0 = Some l ∧
        ∀ d, 0 ≤ d ≤ gd → Z.of_nat j mod 2 ^ d = Z.of_nat j0 mod 2 ^ d.
Proof.
  intros Hgd Hlen Hj. apply lookup_app_Some in Hj as [Hj|[Hge Hj]].
  - exists j. done.
  - exists (j - length dir)%nat. split; [done|]. intros d Hd.
    rewrite Nat2Z.inj_sub by done. rewrite Hlen. symmetry. by apply mod_pow2_sub.
Qed.

Lemma Expansion_inv (t : ExtendibleHashTable) : eht_inv t → eht_inv (Expansion t).
Proof.
  intros Ht. pose proof (ei_gd _ Ht) as Hgd. pose proof (ei_len _ Ht) as Hlen.
  split; simpl.
  - lia.
  - rewrite length_app, Nat2Z.inj_add, Hlen, Z.pow_add_r by lia. lia.
  - intros i l Hi.
    destruct (lookup_app_double _ _ _ _ Hgd Hlen Hi) as (i0 & Hi0 & Hmi).
    destruct (ei_slot _ Ht _ _ Hi0) as (b & Hb & Hdep & Hsz & Hl & Hshare & Hkeys).
    exists b. simpl. split; [done|]. split; [lia|]. split; [done|]. split; [done|]. split.
    + intros j l' Hj.
      destruct (lookup_app_double _ _ _ _ Hgd Hlen Hj) as (j0 & Hj0 & Hmj).
      rewrite Hmi, Hmj by done. by apply Hshare.
    + intros k v Hkv. rewrite Hmi by done. by eapply Hkeys.
  - intros i l Hi.
    destruct (lookup_app_double _ _ _ _ Hgd Hlen Hi) as (i0 & Hi0 & _).
    by eapply (ei_fresh _ Ht).
Qed.

(** **** Splitting a bucket *)

Lemma redirect_lookup rounds i m (dir : list nat) l0 l1 j :
  0 < m → 0 ≤ i → Z.of_nat (length dir) ≤ i + Z.of_nat rounds * m →
  redirect rounds i m dir l0 l1 !! j =
    if decide (i ≤ Z.of_nat j ∧ (Z.of_nat j - i) mod m = 0 ∧ (j < length dir)%nat)
    then Some (if negb (Z.land (Z.of_nat j) m =? 0) then l1 else l0)
    else dir !! j.
Proof.
  intros Hm. revert i dir. induction rounds as [|n IH]; intros i dir Hi Hlen; simpl.
  - rewrite decide_False; [done|]. lia.
  - destruct (Z.ltb_spec i (Z.of_nat (length dir))) as [Hlt|Hge].
    + rewrite IH by (rewrite ?length_insert; lia). rewrite length_insert.
      destruct (decide (j = Z.to_nat i)) as [->|Hne].
      * rewrite decide_False by lia. rewrite list_lookup_insert_eq by lia.
        rewrite decide_True; [by rewrite Z2Nat.id by lia|].
        split; [lia|]. split; [|lia]. rewrite Z2Nat.id by lia.
        rewrite Z.sub_diag. by apply Z.mod_0_l, Z.neq_sym, Z.lt_neq.
      * rewrite list_lookup_insert_ne by done.
        assert (Hiff : (i + m ≤ Z.of_nat j ∧ (Z.of_nat j - (i + m)) mod m = 0 ∧ (j < length dir)%nat) ↔
                       (i ≤ Z.of_nat j ∧ (Z.of_nat j - i) mod m = 0 ∧ (j < length dir)%nat)).
        { replace (Z.of_nat j - (i + m)) with (Z.of_nat j - i + (-1) * m) by lia.
          rewrite Z.mod_add by lia. split; [intros (? & ? & ?); lia|].
          intros (Hij & Hmod & Hjl). split; [|done].
          destruct (Z.lt_ge_cases (Z.of_nat j - i) m) as [Hsmall|]; [|lia].
          rewrite Z.mod_small in Hmod by lia. lia. }
        destruct (decide (i + m ≤ Z.of_nat j ∧ _)) as [Hc|Hc];
          destruct (decide (i ≤ Z.of_nat j ∧ _)) as [Hc'|Hc']; try done; tauto.
    + rewrite decide_False; [done|]. lia.
Qed.

Lemma stride_mod j base m :
  0 < m → 0 ≤ base < m →
  (base ≤ Z.of_nat j ∧ (Z.of_nat j - base) mod m = 0) ↔ Z.of_nat j mod m = base.
Proof.
  intros Hm Hb. split.
  - intros [Hle Hmod]. apply Z.mod_divide in Hmod as [q Hq]; [|lia].
    replace (Z.of_nat j) with (base + q * m) by lia.
    rewrite Z.mod_add by lia. apply Z.mod_small. lia.
  - intros Hj. pose proof (Z.div_mod (Z.of_nat j) m ltac:(lia)) as Hdm.
    pose proof (Z.div_pos (Z.of_nat j) m ltac:(lia) Hm).
    split; [nia|].
    replace (Z.of_nat j - base) with (0 + (Z.of_nat j / m) * m) by lia.
    rewrite Z.mod_add by lia. apply Z.mod_0_l. lia.
Qed.

Lemma distribute_spec m items (b0 b1 : Bucket) :
  let '(b0', b1') := distribute hash m items b0 b1 in
  depth_ b0' = depth_ b0 ∧ depth_ b1' = depth_ b1 ∧
  size_ b0' = size_ b0 ∧ size_ b1' = size_ b1 ∧
  (Z.of_nat (length (list_ b0)) ≤ size_ b0 → Z.of_nat (length (list_ b0')) ≤ size_ b0') ∧
  (Z.of_nat (length (list_ b1)) ≤ size_ b1 → Z.of_nat (length (list_ b1')) ≤ size_ b1') ∧
  (∀ x, x ∈ list_ b0' → x ∈ list_ b0 ∨ (x ∈ items ∧ (Z.land (hash x.1) m =? 0) = true)) ∧
  (∀ x, x ∈ list_ b1' → x ∈ list_ b1 ∨ (x ∈ items ∧ (Z.land (hash x.1) m =? 0) = false)).
Proof.
  revert b0 b1. induction items as [|[k v] items IH]; intros b0 b1; simpl.
  { repeat split; try done; intros x Hx; by left. }
  destruct (Z.land (hash k) m =? 0) eqn:Hbit; simpl.
  - pose proof (Bucket_Insert_spec b0 k v) as (Hd & Hsz & Hlen & Hin).
    specialize (IH (Bucket_Insert b0 k v).1 b1).
    destruct (distribute hash m items _ b1) as [b0' b1'].
    destruct IH as (? & ? & ? & ? & H0 & H1 & Hi0 & Hi1).
    split; [congruence|]. split; [done|]. split; [congruence|]. split; [done|].
    split; [tauto|]. split; [done|]. split.
    + intros x Hx. destruct (Hi0 x Hx) as [Hx'|[Hx' ?]].
      * destruct (Hin x Hx') as [?| ->]; [by left|]. right. split; [left|done].
      * right. split; [by right|done].
    + intros x Hx. destruct (Hi1 x Hx) as [Hx'|[Hx' ?]]; [by left|].
      right. split; [by right|done].
  - pose proof (Bucket_Insert_spec b1 k v) as (Hd & Hsz & Hlen & Hin).
    specialize (IH b0 (Bucket_Insert b1 k v).1).
    destruct (distribute hash m items b0 _) as [b0' b1'].
    destruct IH as (? & ? & ? & ? & H0 & H1 & Hi0 & Hi1).
    split; [done|]. split; [congruence|]. split; [done|]. split; [congruence|].
    split; [done|]. split; [tauto|]. split.
    + intros x Hx. destruct (Hi0 x Hx) as [Hx'|[Hx' ?]]; [by left|].
      right. split; [by right|done].
    + intros x Hx. destruct (Hi1 x Hx) as [Hx'|[Hx' ?]].
      * destruct (Hin x Hx') as [?| ->]; [by left|]. right. split; [left|done].
      * right. split; [by right|done].
Qed.

Lemma length_redirect rounds i m (dir : list nat) l0 l1 :
  length (redirect rounds i m dir l0 l1) = length dir.
Proof.
  revert i dir. induction rounds as [|n IH]; intros i dir; simpl; [done|].
  destruct (i <? Z.of_nat (length dir)); [|done]. by rewrite IH, length_insert.
Qed.

(** The second loop of [RedistributeBucket] visits exactly the slots that
    share the old bucket. *)
Lemma redirect_split (t : ExtendibleHashTable) idx l b key l0 l1 j :
  eht_inv t → dir_ t !! idx = Some l → heap_ t !! l = Some b →
  hash key mod 2 ^ depth_ b = Z.of_nat idx mod 2 ^ depth_ b →
  redirect (length (dir_ t)) (Z.land (hash key) (Z.shiftl 1 (depth_ b) - 1))
           (Z.shiftl 1 (depth_ b)) (dir_ t) l0 l1 !! j =
    match dir_ t !! j with
    | Some l' =>
        if decide (l' = l)
        then Some (if Z.testbit (Z.of_nat j) (depth_ b) then l1 else l0)
        else Some l'
    | None => None
    end.
Proof.
  intros Ht Hidx Hb Hkey.
  destruct (ei_slot _ Ht _ _ Hidx) as (b' & Hb' & Hdep & Hsz & Hlen & Hshare & Hkeys).
  rewrite Hb in Hb'. injection Hb' as <-.
  assert (Hd : 0 ≤ depth_ b) by lia.
  rewrite land_mask by done.
  pose proof (Z.mod_pos_bound (hash key) (2 ^ depth_ b) ltac:(lia)) as Hbase.
  rewrite redirect_lookup; [|rewrite shiftl_1 by done; lia|lia|].
  2:{ rewrite shiftl_1 by done. nia. }
  rewrite land_pow2_eqb, negb_involutive by done. rewrite shiftl_1 by done.
  destruct (dir_ t !! j) as [l'|] eqn:Hj.
  - pose proof (lookup_lt_Some _ _ _ Hj) as Hjl.
    pose proof (Hshare j l' Hj) as Hiff.
    pose proof (stride_mod j (hash key mod 2 ^ depth_ b) (2 ^ depth_ b) ltac:(lia) Hbase) as Hst.
    destruct (decide (l' = l)) as [->|Hne].
    + rewrite decide_True; [done|]. split; [|split; [|done]]; apply Hst; rewrite Hkey; by apply Hiff.
    + rewrite decide_False; [done|]. intros (H1 & H2 & _). apply Hne, Hiff.
      rewrite <- Hkey. by apply Hst.
  - rewrite decide_False; [done|]. apply lookup_ge_None in Hj. lia.
Qed.

Lemma RedistributeBucket_inv (t : ExtendibleHashTable) idx l b key :
  eht_inv t → dir_ t !! idx = Some l → heap_ t !! l = Some b →
  depth_ b < global_depth_ t →
  hash key mod 2 ^ depth_ b = Z.of_nat idx mod 2 ^ depth_ b →
  eht_inv (split_table t b key).
Proof.
  intros Ht Hidx Hb Hlt Hkey.
  destruct (ei_slot _ Ht _ _ Hidx) as (b' & Hb' & Hdep & Hsz & Hlen & Hshare & Hkeys).
  rewrite Hb in Hb'. injection Hb' as <-.
  assert (Hd : 0 ≤ depth_ b) by lia.
  unfold split_table.
  pose proof (distribute_spec (Z.shiftl 1 (depth_ b)) (list_ b)
                (mkBucket (bucket_size_ t) (depth_ b + 1) [])
                (mkBucket (bucket_size_ t) (depth_ b + 1) [])) as Hdist.
  destruct (distribute hash (Z.shiftl 1 (depth_ b)) (list_ b) _ _) as [b0 b1].
  simpl in Hdist. destruct Hdist as (Hd0 & Hd1 & Hs0 & Hs1 & Hl0 & Hl1 & Hi0 & Hi1).
  assert (Hbs : 0 ≤ bucket_size_ t) by lia.
  specialize (Hl0 Hbs). specialize (Hl1 Hbs).
  pose proof (λ j, redirect_split t idx l b key (next_ t) (S (next_ t)) j Ht Hidx Hb Hkey) as Hred.
  assert (Hkeybit : ∀ (bit : bool) x i, x ∈ list_ b →
            (Z.land (hash x.1) (Z.shiftl 1 (depth_ b)) =? 0) = negb bit →
            dir_ t !! i = Some l → Z.testbit (Z.of_nat i) (depth_ b) = bit →
            hash x.1 mod 2 ^ (depth_ b + 1) = Z.of_nat i mod 2 ^ (depth_ b + 1)).
  { intros bit [k v] i Hx Hland Hi Hbit. simpl in *.
    rewrite land_pow2_eqb in Hland by done.
    assert (Z.testbit (hash k) (depth_ b) = bit) by (by destruct (Z.testbit (hash k) (depth_ b)), bit).
    apply mod_pow2_succ_congr; [done|]. split; [|congruence].
    rewrite (Hkeys k v Hx). symmetry. by apply (Hshare i l). }
  split; simpl.
  - apply Ht.
  - rewrite length_redirect. apply Ht.
  - intros i x Hi. rewrite Hred in Hi.
    destruct (dir_ t !! i) as [l'|] eqn:Hi'; [|done].
    destruct (decide (l' = l)) as [->|Hne].
    + (* a slot of the old bucket *)
      assert (Him : Z.of_nat i mod 2 ^ depth_ b = Z.of_nat idx mod 2 ^ depth_ b)
        by (by apply (Hshare i l)).
      assert (Hshare' : ∀ (bit : bool) j y,
                Z.testbit (Z.of_nat i) (depth_ b) = bit →
                redirect (length (dir_ t)) (Z.land (hash key) (Z.shiftl 1 (depth_ b) - 1))
                  (Z.shiftl 1 (depth_ b)) (dir_ t) (next_ t) (S (next_ t)) !! j = Some y →
                y = (if bit then S (next_ t) else next_ t) ↔
                Z.of_nat j mod 2 ^ (depth_ b + 1) = Z.of_nat i mod 2 ^ (depth_ b + 1)).
      { intros bit j y Hbit Hj. rewrite Hred in Hj.
        destruct (dir_ t !! j) as [l''|] eqn:Hj'; [|done].
        rewrite mod_pow2_succ_congr by done. rewrite Hbit, Him.
        pose proof (Hshare j l'' Hj') as Hiff.
        destruct (decide (l'' = l)) as [->|Hne'].
        - injection Hj as <-. split.
          + intros Hy. split; [by apply Hiff|].
            destruct (Z.testbit (Z.of_nat j) (depth_ b)), bit; try done; lia.
          + intros [_ ->]. done.
        - injection Hj as <-. pose proof (ei_fresh _ Ht _ _ Hj').
          split; [destruct bit; lia|]. intros [Hm _]. by apply Hiff in Hm. }
      destruct (Z.testbit (Z.of_nat i) (depth_ b)) eqn:Hbit; injection Hi as <-.
      * exists b1. simpl. rewrite lookup_insert_eq. split; [done|].
        rewrite Hd1, Hs1. split; [lia|]. split; [done|]. split; [by rewrite <- Hs1|]. split.
        -- intros j y Hj. by apply (Hshare' true).
        -- intros k v Hkv. destruct (Hi1 _ Hkv) as [Hin|[Hin Hland]]; [inversion Hin|].
           by apply (Hkeybit true (k, v) i).
      * exists b0. simpl. rewrite lookup_insert_ne by lia. rewrite lookup_insert_eq. split; [done|].
        rewrite Hd0, Hs0. split; [lia|]. split; [done|]. split; [by rewrite <- Hs0|]. split.
        -- intros j y Hj. by apply (Hshare' false).
        -- intros k v Hkv. destruct (Hi0 _ Hkv) as [Hin|[Hin Hland]]; [inversion Hin|].
           by apply (Hkeybit false (k, v) i).
    + (* a slot of another bucket *)
      injection Hi as <-.
      pose proof (ei_fresh _ Ht _ _ Hi') as Hfr.
      destruct (ei_slot _ Ht _ _ Hi') as (b' & Hb' & Hdep' & Hsz' & Hlen' & Hshare' & Hkeys').
      exists b'. simpl. rewrite !lookup_insert_ne by lia.
      split; [done|]. split; [done|]. split; [done|]. split; [done|]. split; [|done].
      intros j y Hj. rewrite Hred in Hj.
      destruct (dir_ t !! j) as [l''|] eqn:Hj'; [|done].
      pose proof (Hshare' j l'' Hj') as Hiff.
      destruct (decide (l'' = l)) as [->|Hne'].
      * injection Hj as <-. split.
        -- destruct (Z.testbit (Z.of_nat j) (depth_ b)); lia.
        -- intros Hm. apply Hiff in Hm. done.
      * injection Hj as <-. done.
  - intros i x Hi. rewrite Hred in Hi.
    destruct (dir_ t !! i) as [l'|] eqn:Hi'; [|done].
    pose proof (ei_fresh _ Ht _ _ Hi').
    destruct (decide (l' = l)); injection Hi as <-; [|lia].
    destruct (Z.testbit (Z.of_nat i) (depth_ b)); lia.
Qed.

(** **** [Insert] and sequences of operations *)

Lemma bucket_at_Expansion (t : ExtendibleHashTable) idx l b :
  bucket_at t idx = Some (l, b) → bucket_at (Expansion t) idx = Some (l, b).
Proof.
  unfold bucket_at. simpl. intros Hb.
  destruct (dir_ t !! Z.to_nat idx) as [l'|] eqn:Hl; [|done].
  by rewrite (lookup_app_l_Some _ _ _ _ Hl).
Qed.

(** One round of the loop of [Insert] on a full bucket. *)
Definition split_round (t : ExtendibleHashTable) (b : Bucket) (key : K) : ExtendibleHashTable :=
  split_table (if depth_ b =? global_depth_ t then Expansion t else t) b key.

Lemma split_round_depth (t : ExtendibleHashTable) b key :
  global_depth_ (split_round t b key) =
    if depth_ b =? global_depth_ t then global_depth_ t + 1 else global_depth_ t.
Proof.
  unfold split_round. destruct (depth_ b =? global_depth_ t).
  all: unfold split_table; by destruct (distribute hash _ _ _ _).
Qed.

(** Past depth 30 the loop stops at [IndexOf]. *)
Lemma split_loop_out_of_range fuel (t : ExtendibleHashTable) key :
  30 < global_depth_ t → split_loop hash (S fuel) t key = Undefined.
Proof. intros. simpl. by rewrite IndexOf_out_of_range. Qed.

Lemma split_loop_unfold fuel (t : ExtendibleHashTable) key l b :
  eht_inv t → global_depth_ t ≤ 30 →
  bucket_at t (index_of t key) = Some (l, b) →
  split_loop hash (S fuel) t key =
    if IsFull b then split_loop hash fuel (split_round t b key) key else Done t.
Proof.
  intros Ht Hu Hb. pose proof (ei_gd _ Ht) as Hgd.
  destruct (index_of_slot t key Ht) as (l' & b' & _ & _ & Hb' & _ & Hdep & _).
  rewrite Hb in Hb'. injection Hb' as <- <-.
  simpl. rewrite IndexOf_in_range by lia. rewrite Hb. destruct (IsFull b); [|done].
  unfold split_round. destruct (depth_ b =? global_depth_ t).
  - rewrite (bucket_at_Expansion _ _ _ _ Hb). by rewrite RedistributeBucket_in_range by lia.
  - rewrite Hb. by rewrite RedistributeBucket_in_range by lia.
Qed.

(** A loop that comes to its end has not left the range of [int]. *)
Lemma split_loop_depth fuel (t : ExtendibleHashTable) key t' :
  split_loop hash fuel t key = Done t' → global_depth_ t' ≤ 30.
Proof.
  revert t. induction fuel as [|n IH]; intros t; [done|]. simpl.
  destruct (IndexOf hash t key) as [idx|] eqn:HI; [|done].
  apply IndexOf_Some in HI as [Hu _].
  destruct (bucket_at t idx) as [[l b]|]; [|done].
  destruct (IsFull b); [|intros [= <-]; lia].
  destruct (bucket_at _ idx) as [[l1 b1]|]; [|done].
  destruct (RedistributeBucket hash _ b1 key) as [t2|]; [|done]. apply IH.
Qed.

Lemma split_round_inv (t : ExtendibleHashTable) key l b :
  eht_inv t → bucket_at t (index_of t key) = Some (l, b) →
  eht_inv (split_round t b key).
Proof.
  intros Ht Hb.
  destruct (index_of_slot t key Ht) as (l' & b' & Hl & Hh & Hb' & _ & Hdep & _ & _ & Hkey).
  rewrite Hb in Hb'. injection Hb' as <- <-.
  unfold split_round. destruct (Z.eqb_spec (depth_ b) (global_depth_ t)) as [Heq|Hne].
  - eapply (RedistributeBucket_inv (Expansion t) _ l b); [by apply Expansion_inv| |done| |done].
    + simpl. by apply lookup_app_l_Some.
    + simpl. lia.
  - eapply (RedistributeBucket_inv t _ l b); [done|done|done| |done]. lia.
Qed.

Lemma split_loop_inv fuel (t : ExtendibleHashTable) key t' :
  eht_inv t → split_loop hash fuel t key = Done t' → eht_inv t'.
Proof.
  revert t. induction fuel as [|n IH]; intros t Ht; [done|].
  destruct (decide (global_depth_ t ≤ 30)) as [Hu|Hu];
    [|by rewrite split_loop_out_of_range by lia].
  destruct (index_of_slot t key Ht) as (l & b & _ & _ & Hb & _).
  rewrite (split_loop_unfold _ _ _ _ _ Ht Hu Hb).
  destruct (IsFull b).
  - apply IH. by eapply split_round_inv.
  - by intros [= <-].
Qed.

Lemma insert_bucket_inv (t : ExtendibleHashTable) key value :
  eht_inv t →
  ∃ l b, bucket_at t (index_of t key) = Some (l, b) ∧
         eht_inv (set_bucket t l (Bucket_Insert b key value).1).
Proof.
  intros Ht.
  destruct (index_of_slot t key Ht) as (l & b & Hl & Hh & Hb & _ & _ & _ & Hlen & Hkey).
  exists l, b. split; [done|].
  pose proof (Bucket_Insert_spec b key value) as (Hd & Hsz & Hlen' & Hin).
  eapply eht_inv_set_bucket; try done.
  - by apply Hlen'.
  - intros k v Hkv. destruct (Hin _ Hkv) as [?|[= -> ->]]; [by left|]. right. eauto.
Qed.

Lemma eht_Insert_inv fuel (t : ExtendibleHashTable) key value t' :
  eht_inv t → Insert hash fuel t key value = Done t' → eht_inv t'.
Proof.
  intros Ht. unfold Insert.
  destruct (IndexOf hash t key) as [idx|] eqn:HI; [|done].
  apply IndexOf_Some in HI as [Hu ->]. simpl.
  destruct (insert_bucket_inv t key value Ht) as (l & b & -> & Hset).
  destruct (Bucket_Find b key); [by intros [= <-]|].
  destruct (split_loop hash fuel t key) as [t1| |] eqn:Hloop; try done.
  pose proof (split_loop_depth _ _ _ _ Hloop) as Hu1.
  apply split_loop_inv in Hloop; [|done].
  rewrite IndexOf_in_range by (pose proof (ei_gd _ Hloop); lia). simpl.
  destruct (insert_bucket_inv t1 key value Hloop) as (l1 & b1 & -> & Hset1).
  by intros [= <-].
Qed.

Lemma Insert_depth fuel (t : ExtendibleHashTable) key value t' :
  Insert hash fuel t key value = Done t' → global_depth_ t' ≤ 30.
Proof.
  unfold Insert. destruct (IndexOf hash t key) as [idx|] eqn:HI; [|done].
  apply IndexOf_Some in HI as [Hu ->]. simpl.
  destruct (bucket_at t (index_of t key)) as [[l b]|]; [|done].
  destruct (Bucket_Find b key); [intros [= <-]; simpl; lia|].
  destruct (split_loop hash fuel t key) as [t1| |] eqn:Hloop; try done.
  apply split_loop_depth in Hloop.
  destruct (IndexOf hash t1 key) as [idx1|]; [|done]. simpl.
  destruct (bucket_at t1 idx1) as [[l1 b1]|]; [|done].
  intros [= <-]. simpl. lia.
Qed.

Lemma eht_run_inv (t : ExtendibleHashTable) os t' :
  eht_inv t → run hash t os = Some t' → eht_inv t'.
Proof.
  revert t. induction os as [|o os IH]; intros t Ht; simpl; [by intros [= <-]|].
  destruct (step hash t o) as [t1|] eqn:Hstep; [|done]. simpl. apply IH.
  destruct o as [fuel key value|key]; simpl in Hstep.
  - destruct (Insert hash fuel t key value) as [t2| |] eqn:Hins; try done.
    injection Hstep as <-. by eapply eht_Insert_inv.
  - destruct (Remove hash t key) as [[t2 r]|] eqn:Hrem; [|done].
    injection Hstep as <-. by eapply eht_Remove_inv.
Qed.

(** The tables that a sequence of calls reaches have a global depth of
    at most 30: [IndexOf] is defined on them. *)
Lemma run_depth (t : ExtendibleHashTable) os t' :
  global_depth_ t ≤ 30 → run hash t os = Some t' → global_depth_ t' ≤ 30.
Proof.
  revert t. induction os as [|o os IH]; intros t Hu; simpl; [by intros [= <-]|].
  destruct (step hash t o) as [t1|] eqn:Hstep; [|done]. simpl. apply IH.
  destruct o as [fuel key value|key]; simpl in Hstep.
  - destruct (Insert hash fuel t key value) as [t2| |] eqn:Hins; try done.
    injection Hstep as <-. by eapply Insert_depth.
  - destruct (Remove hash t key) as [[t2 r]|] eqn:Hrem; [|done].
    injection Hstep as <-. by eapply Remove_depth.
Qed.

(** **** Termination of the loop of [Insert] *)

Definition has_key (k : K) (b : Bucket) : Prop := ∃ v, (k, v) ∈ list_ b.

Lemma update_key_has key value (l l' : list (K * V)) :
  update_key key value l = Some l' →
  (key, value) ∈ l' ∧ ∀ k v, (k, v) ∈ l → ∃ v', (k, v') ∈ l'.
Proof.
  revert l'. induction l as [|[k0 v0] l IH]; intros l' Hu; simpl in Hu; [done|].
  destruct (decide (k0 = key)) as [->|Hne].
  - injection Hu as <-. split; [left|]. intros k v Hkv.
    apply elem_of_cons in Hkv as [[= -> ->]|Hkv]; [exists value; left|exists v; by right].
  - destruct (update_key key value l) as [r|]; [|done]. injection Hu as <-.
    destruct (IH r eq_refl) as [Hin Hkeep]. split; [by right|].
    intros k v Hkv. apply elem_of_cons in Hkv as [[= -> ->]|Hkv]; [exists v0; left|].
    destruct (Hkeep k v Hkv) as [v' Hv']. exists v'. by right.
Qed.

Lemma Bucket_Insert_keeps (b : Bucket) key value k :
  has_key k b → has_key k (Bucket_Insert b key value).1.
Proof.
  intros [v Hv]. unfold Bucket_Insert.
  destruct (update_key key value (list_ b)) as [l'|] eqn:Hu; simpl.
  - destruct (update_key_has _ _ _ _ Hu) as [_ Hkeep]. by eapply Hkeep.
  - destruct (IsFull b); [by exists v|]. exists v. simpl. apply elem_of_app. by left.
Qed.

Lemma Bucket_Insert_adds (b : Bucket) key value :
  Z.of_nat (length (list_ b)) < size_ b → has_key key (Bucket_Insert b key value).1.
Proof.
  intros Hroom. unfold Bucket_Insert.
  destruct (update_key key value (list_ b)) as [l'|] eqn:Hu; simpl.
  - destruct (update_key_has _ _ _ _ Hu) as [Hin _]. by exists value.
  - unfold IsFull. destruct (Z.eqb_spec (Z.of_nat (length (list_ b))) (size_ b)); [lia|].
    exists value. simpl. apply elem_of_app. right. by left.
Qed.

Lemma Bucket_Insert_length (b : Bucket) key value :
  (length (list_ (Bucket_Insert b key value).1) ≤ S (length (list_ b)))%nat.
Proof.
  unfold Bucket_Insert.
  destruct (update_key key value (list_ b)) as [l'|] eqn:Hu; simpl.
  - destruct (update_key_spec _ _ _ _ Hu) as [-> _]. lia.
  - destruct (IsFull b); simpl; [lia|]. rewrite length_app. simpl. lia.
Qed.

(** Number of items that [distribute] sends to the side [side]
    ([true]: [b1]). *)
Fixpoint count_side (m : Z) (side : bool) (items : list (K * V)) : nat :=
  match items with
  | [] => O
  | (k, _) :: items' =>
      if Bool.eqb (negb (Z.land (hash k) m =? 0)) side
      then S (count_side m side items') else count_side m side items'
  end.

Lemma count_side_le m side items : (count_side m side items ≤ length items)%nat.
Proof.
  induction items as [|[k v] items IH]; simpl; [done|].
  destruct (Bool.eqb _ side); lia.
Qed.

Lemma count_side_lt m side items k v :
  (k, v) ∈ items → negb (Z.land (hash k) m =? 0) ≠ side →
  (count_side m side items < length items)%nat.
Proof.
  induction items as [|[k0 v0] items IH]; intros Hin Hside; [inversion Hin|]. simpl.
  apply elem_of_cons in Hin as [[= <- <-]|Hin].
  - pose proof (count_side_le m side items).
    destruct (Bool.eqb (negb (Z.land (hash k) m =? 0)) side) eqn:He; [|lia].
    by apply Bool.eqb_prop in He.
  - specialize (IH Hin Hside). destruct (Bool.eqb _ side); lia.
Qed.

Definition side_of (side : bool) (p : Bucket * Bucket) : Bucket :=
  if side then p.2 else p.1.

Lemma distribute_side m side items (b0 b1 : Bucket) :
  let b := side_of side (b0, b1) in
  let b' := side_of side (distribute hash m items b0 b1) in
  (length (list_ b') ≤ length (list_ b) + count_side m side items)%nat ∧
  (Z.of_nat (length (list_ b) + count_side m side items) ≤ size_ b →
   ∀ k, (has_key k b ∨ ∃ v, (k, v) ∈ items ∧ negb (Z.land (hash k) m =? 0) = side) →
        has_key k b').
Proof.
  revert b0 b1. induction items as [|[k0 v0] items IH]; intros b0 b1; simpl.
  { split; [lia|]. intros _ k [Hk|(v & Hin & _)]; [done|inversion Hin]. }
  destruct (Z.land (hash k0) m =? 0) eqn:Hbit; simpl.
  - (* the item goes to b0 *)
    specialize (IH (Bucket_Insert b0 k0 v0).1 b1).
    pose proof (Bucket_Insert_length b0 k0 v0) as Hlen.
    pose proof (Bucket_Insert_spec b0 k0 v0) as (_ & Hsz & _ & _).
    destruct side; simpl in *.
    + destruct IH as [IH1 IH2]. split; [done|]. intros Hroom k Hk. apply IH2; [done|].
      destruct Hk as [Hk|(v & Hin & Hs)]; [by left|].
      apply elem_of_cons in Hin as [[= -> ->]|Hin]; [by rewrite Hbit in Hs|]. right. eauto.
    + destruct IH as [IH1 IH2]. split; [lia|]. intros Hroom k Hk. apply IH2; [rewrite Hsz; lia|].
      destruct Hk as [Hk|(v & Hin & Hs)]; [left; by apply Bucket_Insert_keeps|].
      apply elem_of_cons in Hin as [[= -> ->]|Hin]; [|right; eauto].
      left. apply Bucket_Insert_adds. lia.
  - (* the item goes to b1 *)
    specialize (IH b0 (Bucket_Insert b1 k0 v0).1).
    pose proof (Bucket_Insert_length b1 k0 v0) as Hlen.
    pose proof (Bucket_Insert_spec b1 k0 v0) as (_ & Hsz & _ & _).
    destruct side; simpl in *.
    + destruct IH as [IH1 IH2]. split; [lia|]. intros Hroom k Hk. apply IH2; [rewrite Hsz; lia|].
      destruct Hk as [Hk|(v & Hin & Hs)]; [left; by apply Bucket_Insert_keeps|].
      apply elem_of_cons in Hin as [[= -> ->]|Hin]; [|right; eauto].
      left. apply Bucket_Insert_adds. lia.
    + destruct IH as [IH1 IH2]. split; [done|]. intros Hroom k Hk. apply IH2; [done|].
      destruct Hk as [Hk|(v & Hin & Hs)]; [by left|].
      apply elem_of_cons in Hin as [[= -> ->]|Hin]; [by rewrite Hbit in Hs|]. right. eauto.
Qed.

(** After a round, the bucket of the key is the new bucket on the side
    of bit [depth_ b] of the key's hash. *)
Lemma split_round_bucket (t : ExtendibleHashTable) key l b :
  eht_inv t → bucket_at t (index_of t key) = Some (l, b) →
  ∃ l', bucket_at (split_round t b key) (index_of (split_round t b key) key) =
        Some (l', side_of (Z.testbit (hash key) (depth_ b))
                    (distribute hash (Z.shiftl 1 (depth_ b)) (list_ b)
                       (mkBucket (bucket_size_ t) (depth_ b + 1) [])
                       (mkBucket (bucket_size_ t) (depth_ b + 1) []))).
Proof.
  intros Ht Hb.
  destruct (index_of_slot t key Ht) as (l' & b' & Hl & Hh & Hb' & _ & Hdep & _ & _ & Hkey).
  rewrite Hb in Hb'. injection Hb' as <- <-.
  set (t1 := if depth_ b =? global_depth_ t then Expansion t else t).
  assert (H1 : eht_inv t1 ∧ dir_ t1 !! Z.to_nat (index_of t key) = Some l ∧
               heap_ t1 !! l = Some b ∧ depth_ b < global_depth_ t1 ∧
               bucket_size_ t1 = bucket_size_ t).
  { unfold t1. destruct (Z.eqb_spec (depth_ b) (global_depth_ t)).
    - split; [by apply Expansion_inv|]. simpl. split; [by apply lookup_app_l_Some|].
      split; [done|]. split; [lia|done].
    - split; [done|]. split; [done|]. split; [done|]. split; [lia|done]. }
  destruct H1 as (Ht1 & Hl1 & Hh1 & Hlt & Hbs).
  assert (Hd : 0 ≤ depth_ b) by lia.
  pose proof (ei_gd _ Ht1) as Hgd1.
  assert (Ht2 : split_round t b key = split_table t1 b key) by done.
  rewrite Ht2. unfold split_table. rewrite Hbs.
  destruct (distribute hash (Z.shiftl 1 (depth_ b)) (list_ b) _ _) as [b0 b1] eqn:Hdist.
  unfold bucket_at, index_of. simpl. rewrite land_mask by done.
  pose proof (Z.mod_pos_bound (hash key) (2 ^ global_depth_ t1) ltac:(lia)) as Hbound.
  destruct (lookup_lt_is_Some_2 (dir_ t1) (Z.to_nat (hash key mod 2 ^ global_depth_ t1))) as [l2 Hl2].
  { pose proof (ei_len _ Ht1). lia. }
  destruct (ei_slot _ Ht1 _ _ Hl1) as (b' & Hb' & _ & _ & _ & Hshare & _).
  rewrite Hh1 in Hb'. injection Hb' as <-.
  assert (l2 = l) as ->.
  { apply (Hshare _ _ Hl2). rewrite Z2Nat.id by lia.
    rewrite mod_pow2_le by lia. done. }
  rewrite (redirect_split t1 _ l b key _ _ _ Ht1 Hl1 Hh1 Hkey), Hl2.
  rewrite decide_True by done. simpl.
  rewrite Z2Nat.id by lia. rewrite testbit_mod_pow2 by lia.
  destruct (Z.testbit (hash key) (depth_ b)); simpl.
  - rewrite lookup_insert_eq. eauto.
  - rewrite lookup_insert_ne by lia. rewrite lookup_insert_eq. eauto.
Qed.

Lemma split_loop_terminates n (t : ExtendibleHashTable) key l b :
  eht_inv t → global_depth_ t ≤ 30 →
  bucket_at t (index_of t key) = Some (l, b) →
  (IsFull b = false ∨
   ∃ k j, has_key k b ∧ depth_ b ≤ j ≤ 29 ∧ j - depth_ b ≤ Z.of_nat n ∧
          Z.testbit (hash k) j ≠ Z.testbit (hash key) j) →
  ∃ t', split_loop hash (S (S n)) t key = Done t'.
Proof.
  revert t l b. induction n as [|n IH]; intros t l b Ht Hu Hb Hcase.
  all: rewrite (split_loop_unfold _ _ _ _ _ Ht Hu Hb).
  all: destruct (IsFull b) eqn:Hfull; [|by eauto].
  all: destruct Hcase as [?|(k & j & [v Hk] & Hj & Hn & Hbit)]; [done|].
  all: destruct (index_of_slot t key Ht) as (l' & b' & _ & _ & Hb' & _ & Hdep & Hsz & Hlen & _).
  all: rewrite Hb in Hb'; injection Hb' as <- <-.
  all: destruct (split_round_bucket t key l b Ht Hb) as (l2 & Hb2).
  all: pose proof (split_round_inv t key l b Ht Hb) as Ht2.
  all: assert (Hu2 : global_depth_ (split_round t b key) ≤ 30)
         by (rewrite split_round_depth;
             destruct (Z.eqb_spec (depth_ b) (global_depth_ t)); lia).
  all: pose proof (distribute_side (Z.shiftl 1 (depth_ b)) (Z.testbit (hash key) (depth_ b))
                    (list_ b) (mkBucket (bucket_size_ t) (depth_ b + 1) [])
                    (mkBucket (bucket_size_ t) (depth_ b + 1) [])) as [Hcount Hhas].
  all: pose proof (distribute_spec (Z.shiftl 1 (depth_ b)) (list_ b)
                    (mkBucket (bucket_size_ t) (depth_ b + 1) [])
                    (mkBucket (bucket_size_ t) (depth_ b + 1) [])) as Hspec.
  all: destruct (distribute hash (Z.shiftl 1 (depth_ b)) (list_ b) _ _) as [b0 b1].
  all: simpl in Hspec; destruct Hspec as (Hd0 & Hd1 & Hs0 & Hs1 & _).
  all: set (bs := side_of (Z.testbit (hash key) (depth_ b)) (b0, b1)) in *.
  all: assert (Hbs : depth_ bs = depth_ b + 1 ∧ size_ bs = bucket_size_ t)
         by (unfold bs; destruct (Z.testbit (hash key) (depth_ b)); simpl; done).
  all: destruct Hbs as [Hbd Hbsz].
  all: assert (Hside0 : length (list_ (side_of (Z.testbit (hash key) (depth_ b))
                 (mkBucket (bucket_size_ t) (depth_ b + 1) [],
                  mkBucket (bucket_size_ t) (depth_ b + 1) []))) = 0%nat)
         by (destruct (Z.testbit (hash key) (depth_ b)); done).
  all: rewrite Hside0 in Hcount, Hhas; simpl in Hcount, Hhas.
  all: assert (Hnotfull : Z.testbit (hash k) (depth_ b) ≠ Z.testbit (hash key) (depth_ b) →
                 IsFull bs = false).
  all: try (intros Hdiff; unfold IsFull; apply Z.eqb_neq;
            pose proof (count_side_lt (Z.shiftl 1 (depth_ b)) (Z.testbit (hash key) (depth_ b))
                          (list_ b) k v Hk) as Hlt;
            rewrite land_pow2_eqb, negb_involutive in Hlt by lia;
            specialize (Hlt Hdiff); lia).
  - (* n = 0: the bits differ at depth_ b *)
    assert (j = depth_ b) as -> by lia.
    rewrite (split_loop_unfold _ _ _ _ _ Ht2 Hu2 Hb2), (Hnotfull Hbit). eauto.
  - destruct (decide (Z.testbit (hash k) (depth_ b) = Z.testbit (hash key) (depth_ b))) as [Hsame|Hdiff].
    + apply (IH _ l2 bs Ht2 Hu2 Hb2). right. exists k, j. split.
      * apply Hhas.
        -- assert (side_of (Z.testbit (hash key) (depth_ b))
                     (mkBucket (bucket_size_ t) (depth_ b + 1) [],
                      mkBucket (bucket_size_ t) (depth_ b + 1) []) =
                   mkBucket (bucket_size_ t) (depth_ b + 1) []) as ->
             by (by destruct (Z.testbit (hash key) (depth_ b))).
           simpl. pose proof (count_side_le (Z.shiftl 1 (depth_ b))
                    (Z.testbit (hash key) (depth_ b)) (list_ b)). lia.
        -- right. exists v. split; [done|].
           rewrite land_pow2_eqb, negb_involutive by lia. done.
      * assert (j ≠ depth_ b) by (intros ->; done). rewrite Hbd.
        split; [lia|]. split; [lia|done].
    + rewrite (split_loop_unfold _ _ _ _ _ Ht2 Hu2 Hb2), (Hnotfull Hdiff). eauto.
Qed.

Lemma split_loop_mono n m (t : ExtendibleHashTable) key t' :
  split_loop hash n t key = Done t' → (n ≤ m)%nat → split_loop hash m t key = Done t'.
Proof.
  revert m t. induction n as [|n IH]; intros m t Hn Hle; [done|].
  destruct m as [|m]; [lia|]. simpl in *.
  destruct (IndexOf hash t key) as [idx|]; [|done].
  destruct (bucket_at t idx) as [[l b]|]; [|done].
  destruct (IsFull b); [|done].
  destruct (bucket_at _ idx) as [[l1 b1]|]; [|done].
  destruct (RedistributeBucket hash _ b1 key) as [t2|]; [|done].
  apply IH; [done|lia].
Qed.

(** C6.  After any sequence of [Insert] and [Remove] on a new table, the
    directory has [2 ^ global_depth_] slots; the bucket of slot [i] has a
    local depth between 0 and the global depth; the slots that hold this
    same bucket are exactly those whose index agrees with [i] on the low
    [depth_] bits, and the hash of every key in the bucket agrees with
    [i] on these bits too. *)
Theorem directory_shape :
  ∀ bucket_size os (t : ExtendibleHashTable),
    0 ≤ bucket_size →
    run hash (ExtendibleHashTable_new bucket_size) os = Some t →
    Z.of_nat (length (dir_ t)) = 2 ^ global_depth_ t ∧
    ∀ i l, dir_ t !! i = Some l →
      ∃ b, heap_ t !! l = Some b ∧
           GetLocalDepth t (Z.of_nat i) = Some (depth_ b) ∧
           0 ≤ depth_ b ≤ global_depth_ t ∧
           (∀ j l', dir_ t !! j = Some l' →
              (l' = l ↔ Z.of_nat j mod 2 ^ depth_ b = Z.of_nat i mod 2 ^ depth_ b)) ∧
           (∀ k v, (k, v) ∈ list_ b →
              hash k mod 2 ^ depth_ b = Z.of_nat i mod 2 ^ depth_ b).
Proof.
  intros bucket_size os t Hbs Hrun.
  assert (Ht : eht_inv t) by (eapply eht_run_inv; [by apply eht_inv_new|done]).
  split; [apply Ht|]. intros i l Hi.
  destruct (ei_slot _ Ht _ _ Hi) as (b & Hb & Hdep & _ & _ & Hshare & Hkeys).
  exists b. split; [done|]. split; [|done].
  unfold GetLocalDepth, bucket_at. rewrite Nat2Z.id, Hi. simpl. by rewrite Hb.
Qed.

(** C10 (amended).  On a table reached from a new one, [Insert]
    terminates whenever the key is already stored, or its bucket is not
    full, or the bucket holds a key whose hash differs from the hash of
    the new key in one of the low 30 bits: from some amount of fuel on,
    the loop comes to an end with the same table, and no shift has left
    the range of [int]. *)
Theorem Insert_terminates_if_low_bits_differ :
  ∀ bucket_size os (t : ExtendibleHashTable) key value,
    0 ≤ bucket_size →
    run hash (ExtendibleHashTable_new bucket_size) os = Some t →
    (∀ idx l b, IndexOf hash t key = Some idx → bucket_at t idx = Some (l, b) →
            Bucket_Find b key = None → IsFull b = true →
            ∃ k v, (k, v) ∈ list_ b ∧ hash k mod 2 ^ 30 ≠ hash key mod 2 ^ 30) →
    ∃ fuel t', ∀ fuel', (fuel ≤ fuel')%nat → Insert hash fuel' t key value = Done t'.
Proof.
  intros bucket_size os t key value Hbs Hrun Hdiff.
  assert (Ht : eht_inv t) by (eapply eht_run_inv; [by apply eht_inv_new|done]).
  assert (Hu : global_depth_ t ≤ 30) by (eapply run_depth; [|done]; simpl; lia).
  pose proof (ei_gd _ Ht) as Hgd.
  destruct (index_of_slot t key Ht) as (l & b & Hl & Hh & Hb & _ & Hdep & _ & _ & Hkey).
  pose proof (IndexOf_in_range t key ltac:(lia)) as HI.
  unfold Insert. rewrite HI. simpl. rewrite Hb.
  destruct (Bucket_Find b key) as [v|] eqn:Hfind.
  { exists 0%nat. eexists. intros fuel' _. done. }
  assert (Hterm : ∃ n t1, split_loop hash (S (S n)) t key = Done t1).
  { destruct (IsFull b) eqn:Hfull.
    - destruct (Hdiff _ l b HI Hb Hfind Hfull) as (k & v & Hkv & Hne).
      destruct (mod_pow2_neq_testbit _ _ 30 ltac:(lia) Hne) as (j & Hj & Hbit).
      destruct (ei_slot _ Ht _ _ Hl) as (b' & Hb' & _ & _ & _ & _ & Hkeys).
      rewrite Hh in Hb'. injection Hb' as <-.
      assert (Hdj : depth_ b ≤ j).
      { destruct (Z.le_gt_cases (depth_ b) j) as [|Hlt]; [done|]. exfalso. apply Hbit.
        rewrite <- (testbit_mod_pow2 (hash k) j (depth_ b)) by lia.
        rewrite <- (testbit_mod_pow2 (hash key) j (depth_ b)) by lia.
        rewrite (Hkeys k v Hkv), Hkey. done. }
      exists (Z.to_nat (j - depth_ b)).
      apply (split_loop_terminates _ t key l b Ht Hu Hb). right.
      exists k, j. split; [by exists v|]. split; [lia|]. split; [lia|done].
    - exists 0%nat. apply (split_loop_terminates _ t key l b Ht Hu Hb). by left. }
  destruct Hterm as (n & t1 & Hloop).
  pose proof (split_loop_depth _ _ _ _ Hloop) as Hu1.
  pose proof (split_loop_inv _ _ _ _ Ht Hloop) as Ht1.
  destruct (insert_bucket_inv t1 key value Ht1) as (l1 & b1 & Hb1 & _).
  exists (S (S n)). eexists. intros fuel' Hfuel.
  rewrite (split_loop_mono _ _ _ _ _ Hloop Hfuel).
  rewrite IndexOf_in_range by (pose proof (ei_gd _ Ht1); lia). simpl. rewrite Hb1. done.
Qed.

(** **** A loop that does not end *)

Lemma update_key_absent key value (l : list (K * V)) :
  key ∉ l.*1 → update_key key value l = None.
Proof.
  induction l as [|[k v] l IH]; intros Hnin; simpl; [done|].
  rewrite fmap_cons in Hnin. apply not_elem_of_cons in Hnin as [Hne Hnin].
  simpl in Hne. destruct (decide (k = key)); [done|]. by rewrite IH.
Qed.

(** Items that all go to one side, into a bucket with room for them. *)
Lemma distribute_all_one_side m side items (b0 b1 : Bucket) :
  (∀ k v, (k, v) ∈ items → negb (Z.land (hash k) m =? 0) = side) →
  NoDup ((list_ (side_of side (b0, b1)) ++ items).*1) →
  Z.of_nat (length (list_ (side_of side (b0, b1)) ++ items)) ≤ size_ (side_of side (b0, b1)) →
  list_ (side_of side (distribute hash m items b0 b1)) =
    list_ (side_of side (b0, b1)) ++ items ∧
  size_ (side_of side (distribute hash m items b0 b1)) = size_ (side_of side (b0, b1)).
Proof.
  revert b0 b1. induction items as [|[k v] items IH]; intros b0 b1 Hside Hnd Hroom; simpl.
  { by rewrite app_nil_r. }
  assert (Hk : negb (Z.land (hash k) m =? 0) = side) by (apply (Hside k v); left).
  assert (Hins : ∀ b : Bucket,
            NoDup ((list_ b ++ (k, v) :: items).*1) →
            Z.of_nat (length (list_ b ++ (k, v) :: items)) ≤ size_ b →
            list_ (Bucket_Insert b k v).1 = list_ b ++ [(k, v)] ∧
            size_ (Bucket_Insert b k v).1 = size_ b).
  { intros b Hnd' Hroom'. unfold Bucket_Insert.
    rewrite update_key_absent.
    - unfold IsFull. rewrite length_app in Hroom'. simpl in Hroom'.
      destruct (Z.eqb_spec (Z.of_nat (length (list_ b))) (size_ b)); [lia|done].
    - rewrite fmap_app in Hnd'. apply NoDup_app in Hnd' as (_ & Hdisj & _).
      intros Hin. apply (Hdisj _ Hin). rewrite fmap_cons. left. }
  destruct side; simpl in *.
  - rewrite Hk. simpl.
    destruct (Hins b1 Hnd Hroom) as [Hl Hs].
    specialize (IH b0 (Bucket_Insert b1 k v).1). simpl in IH.
    rewrite Hl, Hs, <- app_assoc in IH. simpl in IH.
    apply IH; [|done|done]. intros k' v' Hin. apply (Hside k' v'). by right.
  - apply negb_false_iff in Hk. rewrite Hk. simpl.
    destruct (Hins b0 Hnd Hroom) as [Hl Hs].
    specialize (IH (Bucket_Insert b0 k v).1 b1). simpl in IH.
    rewrite Hl, Hs, <- app_assoc in IH. simpl in IH.
    apply IH; [|done|done]. intros k' v' Hin. apply (Hside k' v'). by right.
Qed.

(** A full bucket of distinct keys whose hashes agree with the hash of
    the new key on the low 31 bits is split into a bucket with the same
    pairs, again and again, until the global depth has passed 30. *)
Lemma split_loop_same_low_bits fuel (t : ExtendibleHashTable) key l b t' :
  eht_inv t → bucket_at t (index_of t key) = Some (l, b) →
  IsFull b = true → NoDup (list_ b).*1 →
  (∀ k v, (k, v) ∈ list_ b → hash k mod 2 ^ 31 = hash key mod 2 ^ 31) →
  split_loop hash fuel t key ≠ Done t'.
Proof.
  revert t l b. induction fuel as [|n IH]; intros t l b Ht Hb Hfull Hnd Hsame; [done|].
  destruct (decide (global_depth_ t ≤ 30)) as [Hu|Hu];
    [|by rewrite split_loop_out_of_range by lia].
  rewrite (split_loop_unfold _ _ _ _ _ Ht Hu Hb), Hfull.
  destruct (index_of_slot t key Ht) as (l' & b' & _ & _ & Hb' & _ & Hdep & Hsz & Hlen & _).
  rewrite Hb in Hb'. injection Hb' as <- <-.
  destruct (split_round_bucket t key l b Ht Hb) as (l2 & Hb2).
  pose proof (split_round_inv t key l b Ht Hb) as Ht2.
  destruct (distribute_all_one_side (Z.shiftl 1 (depth_ b)) (Z.testbit (hash key) (depth_ b))
              (list_ b) (mkBucket (bucket_size_ t) (depth_ b + 1) [])
              (mkBucket (bucket_size_ t) (depth_ b + 1) [])) as [Hlist Hsize].
  - intros k v Hkv. rewrite land_pow2_eqb, negb_involutive by lia.
    apply (mod_pow2_eq_testbit _ _ 31); [by eapply Hsame|lia].
  - by destruct (Z.testbit (hash key) (depth_ b)).
  - destruct (Z.testbit (hash key) (depth_ b)); simpl; lia.
  - assert (Hl0 : list_ (side_of (Z.testbit (hash key) (depth_ b))
                    (mkBucket (bucket_size_ t) (depth_ b + 1) [],
                     mkBucket (bucket_size_ t) (depth_ b + 1) [])) = [])
      by (by destruct (Z.testbit (hash key) (depth_ b))).
    assert (Hs0 : size_ (side_of (Z.testbit (hash key) (depth_ b))
                    (mkBucket (bucket_size_ t) (depth_ b + 1) [],
                     mkBucket (bucket_size_ t) (depth_ b + 1) [])) = bucket_size_ t)
      by (by destruct (Z.testbit (hash key) (depth_ b))).
    rewrite Hl0 in Hlist. rewrite Hs0 in Hsize. simpl in Hlist.
    eapply (IH _ l2 _ Ht2 Hb2).
    + unfold IsFull in *. rewrite Hlist, Hsize, <- Hsz. done.
    + by rewrite Hlist.
    + intros k v. rewrite Hlist. apply Hsame.
Qed.

(** [Insert] of a key that is not stored, into such a bucket, does not
    come to its end. *)
Lemma Insert_same_low_bits fuel (t : ExtendibleHashTable) key value l b t' :
  eht_inv t → bucket_at t (index_of t key) = Some (l, b) →
  Bucket_Find b key = None → IsFull b = true → NoDup (list_ b).*1 →
  (∀ k v, (k, v) ∈ list_ b → hash k mod 2 ^ 31 = hash key mod 2 ^ 31) →
  Insert hash fuel t key value ≠ Done t'.
Proof.
  intros Ht Hb Hfind Hfull Hnd Hsame. unfold Insert.
  destruct (IndexOf hash t key) as [idx|] eqn:HI; [|done].
  apply IndexOf_Some in HI as [_ ->]. simpl. rewrite Hb, Hfind.
  destruct (split_loop hash fuel t key) as [t1| |] eqn:Hloop; [|done..].
  by apply (split_loop_same_low_bits _ _ _ _ _ _ Ht Hb Hfull Hnd Hsame) in Hloop.
Qed.

End TableFacts.

(** Five keys in buckets of two pairs, with the identity as hash. *)
Definition sample_ops : list (op Z Z) :=
  [OpInsert 8 1 10; OpInsert 8 2 20; OpInsert 8 3 30; OpRemove 2;
   OpInsert 8 5 50; OpInsert 8 9 90].

Lemma directory_shape_witness :
  ∃ t : ExtendibleHashTable Z Z,
    run (λ k, k) (ExtendibleHashTable_new 2) sample_ops = Some t ∧
    Z.of_nat (length (dir_ t)) = 2 ^ global_depth_ t.
Proof.
  eexists. split; [vm_compute; reflexivity|].
  refine (proj1 (directory_shape (λ k, k) 2 sample_ops _ _ _)); [lia|].
  vm_compute; reflexivity.
Defined.

Lemma Insert_terminates_if_low_bits_differ_witness :
  ∃ t : ExtendibleHashTable Z Z,
    run (λ k, k) (ExtendibleHashTable_new 2) sample_ops = Some t ∧
    ∃ fuel t', ∀ fuel', (fuel ≤ fuel')%nat → Insert (λ k, k) fuel' t 17 170 = Done t'.
Proof.
  eexists. split; [vm_compute; reflexivity|].
  refine (Insert_terminates_if_low_bits_differ (λ k, k) 2 sample_ops _ 17 170 _ _ _); [lia| |].
  - vm_compute; reflexivity.
  - intros idx l b HI Hb _ _. vm_compute in HI. injection HI as <-.
    vm_compute in Hb. injection Hb as <- <-.
    exists 9, 90. split; [|done]. simpl. right. left.
Defined.

(** [std::hash<int>] of libstdc++ and of libc++: the key, converted to
    [size_t]. *)
Definition hash_int (k : Z) : Z := size_t_wrap k.

(** C10 (as stated).  [ExtendibleHashTable<int, int>] with buckets of one
    pair, after [Insert(0, 0)]: the call [Insert(INT_MIN, 0)] does not
    come to its end, whatever the fuel.  The hashes of 0 and of [INT_MIN]
    agree on their low 31 bits, so every round of the loop moves the
    stored pair into the new bucket of the key, which is full again;
    after 31 rounds the global depth is 31 and the shift of [IndexOf] is
    out of range. *)
Lemma Insert_int_min_no_end :
  ∃ t : ExtendibleHashTable Z Z,
    run hash_int (ExtendibleHashTable_new 1) [OpInsert 1 0 0] = Some t ∧
    ∀ fuel t', Insert hash_int fuel t (- 2 ^ 31) 0 ≠ Done t'.
Proof.
  eexists. split; [vm_compute; reflexivity|]. intros fuel t'.
  set (t := mkTable _ _ _ _ _ _).
  assert (Ht : eht_inv (K:=Z) (V:=Z) hash_int t).
  { eapply (eht_run_inv hash_int (ExtendibleHashTable_new 1) [OpInsert 1 0 0]).
    - apply eht_inv_new. lia.
    - vm_compute; reflexivity. }
  apply (Insert_same_low_bits hash_int fuel t (- 2 ^ 31) 0 0%nat (mkBucket 1 0 [(0, 0)]));
    [done|vm_compute; reflexivity..| |].
  - simpl. apply NoDup_singleton.
  - intros k v Hkv. apply list_elem_of_singleton in Hkv. injection Hkv as -> ->.
    vm_compute; reflexivity.
Qed.

End EHT.


(* ===================================================================== *)
(** ** container/hash/extendible_hash_table.cpp: the table as a map *)
(* ===================================================================== *)

Module EHTFacts.

Import EHT.

Section Refine.

Context {K V : Type} `{EqDecision K}.
Variable hash : K → Z.

Local Abbreviation Bucket := (Bucket K V).
Local Abbreviation ExtendibleHashTable := (ExtendibleHashTable K V).

(** The map that a sequence of operations builds: [Insert] sets the
    value of its key, [Remove] takes its key out. *)
Definition model_step (m : K → option V) (o : op K V) : K → option V :=
  match o with
  | OpInsert _ key value => λ k, if decide (k = key) then Some value else m k
  | OpRemove key => λ k, if decide (k = key) then None else m k
  end.

Definition model (os : list (op K V)) : K → option V :=
  foldl model_step (λ _, None) os.

(** No bucket of the directory holds a key twice. *)
Definition keys_nodup (t : ExtendibleHashTable) : Prop :=
  ∀ i l b, dir_ t !! i = Some l → heap_ t !! l = Some b → NoDup (list_ b).*1.

(** **** Lists of pairs *)

Lemma find_key_None key (l : list (K * V)) : find_key key l = None ↔ key ∉ l.*1.
Proof.
  induction l as [|[k v] l IH]; simpl.
  - split; [intros _ Hin; inversion Hin|done].
  - rewrite not_elem_of_cons. destruct (decide (k = key)) as [->|Hne].
    + split; [done|]. by intros [? _].
    + rewrite IH. split; [by intros ?|]. by intros [_ ?].
Qed.

Lemma find_key_app key (l1 l2 : list (K * V)) :
  find_key key (l1 ++ l2) =
    match find_key key l1 with Some x => Some x | None => find_key key l2 end.
Proof.
  induction l1 as [|[k v] l1 IH]; simpl; [done|]. by destruct (decide (k = key)).
Qed.

Lemma update_key_find key value (l l' : list (K * V)) :
  update_key key value l = Some l' →
  (∀ k, find_key k l' = if decide (k = key) then Some value else find_key k l) ∧
  l'.*1 = l.*1.
Proof.
  revert l'. induction l as [|[k0 v0] l IH]; intros l' Hu; simpl in Hu; [done|].
  destruct (decide (k0 = key)) as [->|Hne].
  - injection Hu as <-. split; [|done]. intros k. simpl.
    destruct (decide (key = k)) as [->|Hk].
    + by rewrite decide_True.
    + rewrite decide_False; [done|congruence].
  - destruct (update_key key value l) as [r|]; [|done]. injection Hu as <-.
    destruct (IH r eq_refl) as [Hf Hk]. split; [|by rewrite !fmap_cons, Hk].
    intros k. simpl. destruct (decide (k0 = k)) as [->|Hk0].
    + rewrite decide_False; [done|congruence].
    + apply Hf.
Qed.

Lemma update_key_None key value (l : list (K * V)) :
  update_key key value l = None → find_key key l = None.
Proof.
  induction l as [|[k0 v0] l IH]; simpl; [done|].
  destruct (decide (k0 = key)); [done|].
  destruct (update_key key value l); [done|]. intros _. by apply IH.
Qed.

Lemma remove_key_find key (l l' : list (K * V)) :
  NoDup l.*1 → remove_key key l = Some l' →
  (∀ k, find_key k l' = if decide (k = key) then None else find_key k l) ∧
  NoDup l'.*1 ∧ is_Some (find_key key l).
Proof.
  revert l'. induction l as [|[k0 v0] l IH]; intros l' Hnd Hu; simpl in Hu; [done|].
  simpl in Hnd. apply NoDup_cons in Hnd as [Hk0 Hnd].
  destruct (decide (k0 = key)) as [->|Hne].
  - injection Hu as <-. split; [|split; [done|]].
    + intros k. simpl. destruct (decide (key = k)) as [<-|Hk].
      * rewrite decide_True by done. by apply find_key_None.
      * rewrite decide_False; [done|congruence].
    + simpl. rewrite decide_True by done. by eexists.
  - destruct (remove_key key l) as [r|] eqn:Hr; [|done]. injection Hu as <-.
    destruct (IH r Hnd eq_refl) as (Hf & Hnd' & Hsome). split; [|split].
    + intros k. simpl. destruct (decide (k0 = k)) as [<-|Hk0k].
      * rewrite decide_False; [done|congruence].
      * apply Hf.
    + rewrite fmap_cons. apply NoDup_cons. split; [|done].
      apply find_key_None. rewrite Hf, decide_False by done. by apply find_key_None.
    + simpl. by rewrite decide_False.
Qed.

Lemma remove_key_None key (l : list (K * V)) :
  remove_key key l = None → find_key key l = None.
Proof.
  induction l as [|[k0 v0] l IH]; simpl; [done|].
  destruct (decide (k0 = key)); [done|].
  destruct (remove_key key l); [done|]. intros _. by apply IH.
Qed.

Lemma find_key_filter (P : K → bool) key (l : list (K * V)) :
  P key = true →
  find_key key (filter (λ kv : K * V, P kv.1 = true) l) = find_key key l.
Proof.
  intros HP. induction l as [|[k v] l IH]; [done|].
  rewrite filter_cons. simpl. destruct (decide (P k = true)) as [Hk|Hk]; simpl.
  - by rewrite IH.
  - rewrite decide_False; [done|]. intros ->. done.
Qed.

Lemma NoDup_filter_keys (P : K * V → Prop) `{∀ x, Decision (P x)} (l : list (K * V)) :
  NoDup l.*1 → NoDup (filter P l).*1.
Proof.
  induction l as [|[k v] l IH]; intros Hnd; [done|].
  simpl in Hnd. apply NoDup_cons in Hnd as [Hk Hnd]. rewrite filter_cons.
  destruct (decide (P (k, v))); [|by apply IH].
  simpl. apply NoDup_cons. split; [|by apply IH].
  intros Hin. apply Hk. apply list_elem_of_fmap in Hin as ([k' v'] & -> & Hin).
  apply list_elem_of_filter in Hin as [_ Hin]. apply list_elem_of_fmap. by exists (k', v').
Qed.

(** **** Buckets *)

Lemma Bucket_Insert_find (b : Bucket) key value :
  is_Some (find_key key (list_ b)) ∨ IsFull b = false → NoDup (list_ b).*1 →
  (∀ k, find_key k (list_ (Bucket_Insert b key value).1) =
        if decide (k = key) then Some value else find_key k (list_ b)) ∧
  NoDup (list_ (Bucket_Insert b key value).1).*1.
Proof.
  intros Hroom Hnd. unfold Bucket_Insert.
  destruct (update_key key value (list_ b)) as [l'|] eqn:Hu; simpl.
  - destruct (update_key_find _ _ _ _ Hu) as [Hf Hk]. split; [done|]. by rewrite Hk.
  - pose proof (update_key_None _ _ _ Hu) as Hnone.
    destruct Hroom as [[x Hx]|Hfull]; [congruence|]. rewrite Hfull. simpl. split.
    + intros k. rewrite find_key_app. simpl.
      destruct (decide (k = key)) as [->|Hne].
      * rewrite Hnone. by rewrite decide_True.
      * rewrite decide_False by congruence. by destruct (find_key k (list_ b)).
    + rewrite fmap_app. simpl. apply NoDup_app. split; [done|]. split; [|apply NoDup_singleton].
      intros k Hk ->%list_elem_of_singleton. by apply find_key_None in Hnone.
Qed.

Lemma Bucket_Remove_find (b : Bucket) key :
  NoDup (list_ b).*1 →
  (∀ k, find_key k (list_ (Bucket_Remove b key).1) =
        if decide (k = key) then None else find_key k (list_ b)) ∧
  NoDup (list_ (Bucket_Remove b key).1).*1 ∧
  (Bucket_Remove b key).2 = bool_decide (is_Some (find_key key (list_ b))).
Proof.
  intros Hnd. unfold Bucket_Remove.
  destruct (remove_key key (list_ b)) as [l'|] eqn:Hr; simpl.
  - destruct (remove_key_find _ _ _ Hnd Hr) as (Hf & Hnd' & Hsome).
    split; [done|]. split; [done|]. by rewrite bool_decide_eq_true_2.
  - pose proof (remove_key_None _ _ Hr) as Hnone. split; [|split; [done|]].
    + intros k. destruct (decide (k = key)) as [->|]; done.
    + rewrite Hnone. rewrite bool_decide_eq_false_2; [done|]. by intros [? ?].
Qed.

(** [distribute] deals the items of a bucket without repeated keys out
    to two empty buckets with room for all of them: nothing is lost. *)
Lemma distribute_lists m (items : list (K * V)) (b0 b1 : Bucket) :
  NoDup items.*1 →
  (∀ k, k ∈ items.*1 → k ∉ (list_ b0).*1 ∧ k ∉ (list_ b1).*1) →
  Z.of_nat (length (list_ b0) + length items) ≤ size_ b0 →
  Z.of_nat (length (list_ b1) + length items) ≤ size_ b1 →
  list_ (distribute hash m items b0 b1).1 =
    list_ b0 ++ filter (λ kv : K * V, (Z.land (hash kv.1) m =? 0) = true) items ∧
  list_ (distribute hash m items b0 b1).2 =
    list_ b1 ++ filter (λ kv : K * V, negb (Z.land (hash kv.1) m =? 0) = true) items.
Proof.
  revert b0 b1. induction items as [|[k v] items IH]; intros b0 b1 Hnd Hfresh H0 H1; simpl.
  { by rewrite !app_nil_r. }
  simpl in Hnd. apply NoDup_cons in Hnd as [Hk Hnd].
  destruct (Hfresh k ltac:(left)) as [Hk0 Hk1].
  assert (Happ : ∀ b : Bucket, k ∉ (list_ b).*1 →
            Z.of_nat (length (list_ b) + length ((k, v) :: items)) ≤ size_ b →
            list_ (Bucket_Insert b k v).1 = list_ b ++ [(k, v)] ∧
            size_ (Bucket_Insert b k v).1 = size_ b).
  { intros b Hkb Hsz. unfold Bucket_Insert. rewrite update_key_absent by done.
    unfold IsFull. simpl in Hsz.
    destruct (Z.eqb_spec (Z.of_nat (length (list_ b))) (size_ b)); [lia|]. done. }
  rewrite !filter_cons. simpl.
  destruct (Z.land (hash k) m =? 0) eqn:Hbit; simpl.
  - destruct (Happ b0 Hk0 H0) as [Hl Hs].
    destruct (IH (Bucket_Insert b0 k v).1 b1 Hnd) as [IH0 IH1].
    + intros k' Hk'. destruct (Hfresh k' ltac:(by right)) as [? ?]. split; [|done].
      rewrite Hl, fmap_app. simpl. intros [?|Hin]%elem_of_app; [done|].
      apply list_elem_of_singleton in Hin. subst. done.
    + rewrite Hl, Hs, length_app. simpl in *. lia.
    + simpl in *. lia.
    + rewrite IH0, IH1, Hl. by rewrite <- app_assoc.
  - destruct (Happ b1 Hk1 H1) as [Hl Hs].
    destruct (IH b0 (Bucket_Insert b1 k v).1 Hnd) as [IH0 IH1].
    + intros k' Hk'. destruct (Hfresh k' ltac:(by right)) as [? ?]. split; [done|].
      rewrite Hl, fmap_app. simpl. intros [?|Hin]%elem_of_app; [done|].
      apply list_elem_of_singleton in Hin. subst. done.
    + simpl in *. lia.
    + rewrite Hl, Hs, length_app. simpl in *. lia.
    + rewrite IH0, IH1, Hl. by rewrite <- app_assoc.
Qed.

(** **** Tables *)

(** What [Find] gives where the shift of [IndexOf] is in range. *)
Definition find_in (t : ExtendibleHashTable) (key : K) : option (option V) :=
  '(_, b) ← bucket_at t (index_of hash t key); Some (Bucket_Find b key).

Lemma Find_in_range (t : ExtendibleHashTable) key :
  0 ≤ global_depth_ t ≤ 30 → Find hash t key = find_in t key.
Proof. intros. unfold Find, find_in. by rewrite IndexOf_in_range. Qed.

Lemma Find_bucket (t : ExtendibleHashTable) key :
  eht_inv hash t →
  ∃ l b, bucket_at t (index_of hash t key) = Some (l, b) ∧
         dir_ t !! Z.to_nat (index_of hash t key) = Some l ∧ heap_ t !! l = Some b ∧
         find_in t key = Some (find_key key (list_ b)).
Proof.
  intros Ht. destruct (index_of_slot hash t key Ht) as (l & b & Hl & Hb & Hat & _).
  exists l, b. unfold find_in. rewrite Hat. done.
Qed.

Lemma Find_set_bucket (t : ExtendibleHashTable) l b b' key :
  heap_ t !! l = Some b →
  find_in (set_bucket t l b') key =
    match bucket_at t (index_of hash t key) with
    | Some (l', bk) => Some (find_key key (list_ (if decide (l' = l) then b' else bk)))
    | None => None
    end.
Proof.
  intros Hb. unfold find_in, bucket_at, index_of. simpl.
  destruct (dir_ t !! _) as [l'|]; simpl; [|done].
  destruct (decide (l' = l)) as [->|Hne].
  - rewrite lookup_insert_eq, Hb. simpl. by rewrite decide_True.
  - rewrite lookup_insert_ne by done. destruct (heap_ t !! l'); simpl; [|done].
    by rewrite decide_False.
Qed.

(** The table stands for the map [m]. *)
Definition refines (t : ExtendibleHashTable) (m : K → option V) : Prop :=
  eht_inv hash t ∧ keys_nodup t ∧ ∀ k, find_in t k = Some (m k).

Lemma refines_set_bucket (t : ExtendibleHashTable) m l b b' key x :
  refines t m → bucket_at t (index_of hash t key) = Some (l, b) →
  NoDup (list_ b').*1 →
  (∀ k, find_key k (list_ b') = if decide (k = key) then x else find_key k (list_ b)) →
  keys_nodup (set_bucket t l b') ∧
  ∀ k, find_in (set_bucket t l b') k = Some (if decide (k = key) then x else m k).
Proof.
  intros (Ht & Hnd & Hm) Hat Hnd' Hfind.
  destruct (Find_bucket t key Ht) as (l0 & b0 & Hat0 & Hl & Hb & _).
  rewrite Hat in Hat0. injection Hat0 as <- <-. split.
  - intros i a bb Hi Ha. simpl in Hi, Ha. destruct (decide (a = l)) as [->|Hne].
    + rewrite lookup_insert_eq in Ha. by injection Ha as <-.
    + rewrite lookup_insert_ne in Ha by done. by eapply Hnd.
  - intros k. rewrite (Find_set_bucket t l b b' k Hb).
    destruct (Find_bucket t k Ht) as (lk & bk & Hatk & Hlk & Hbk & HF).
    rewrite Hatk. rewrite Hm in HF. injection HF as HF.
    destruct (decide (lk = l)) as [->|Hne].
    + rewrite Hb in Hbk. injection Hbk as <-. rewrite Hfind.
      destruct (decide (k = key)); [done|]. by rewrite HF.
    + rewrite decide_False; [by rewrite HF|]. intros ->. rewrite Hat in Hatk. congruence.
Qed.

Lemma bucket_at_Expansion_key (t : ExtendibleHashTable) k :
  eht_inv hash t →
  bucket_at (Expansion t) (index_of hash (Expansion t) k) = bucket_at t (index_of hash t k).
Proof.
  intros Ht. pose proof (ei_gd _ _ Ht) as Hgd. pose proof (ei_len _ _ Ht) as Hlen.
  rewrite !index_of_mod by (simpl; lia). simpl.
  pose proof (Z.mod_pos_bound (hash k) (2 ^ global_depth_ t) ltac:(lia)) as Hb.
  unfold bucket_at. simpl. f_equal.
  rewrite mod_pow2_succ by done. destruct (Z.testbit (hash k) (global_depth_ t)).
  - replace (Z.to_nat (hash k mod 2 ^ global_depth_ t + 2 ^ global_depth_ t))
      with (length (dir_ t) + Z.to_nat (hash k mod 2 ^ global_depth_ t))%nat by lia.
    by rewrite lookup_app_r, Nat.add_comm, Nat.add_sub by lia.
  - rewrite Z.add_0_r. apply lookup_app_l. lia.
Qed.

Lemma keys_nodup_Expansion (t : ExtendibleHashTable) :
  eht_inv hash t → keys_nodup t → keys_nodup (Expansion t).
Proof.
  intros Ht Hnd i l b Hi Hb. simpl in Hi, Hb.
  destruct (lookup_app_double _ _ _ _ (ei_gd _ _ Ht) (ei_len _ _ Ht) Hi) as (i0 & Hi0 & _).
  by eapply Hnd.
Qed.

Lemma Find_Expansion (t : ExtendibleHashTable) k :
  eht_inv hash t → find_in (Expansion t) k = find_in t k.
Proof. intros Ht. unfold find_in. by rewrite bucket_at_Expansion_key. Qed.

Lemma Redistribute_Find (t : ExtendibleHashTable) idx l b key :
  eht_inv hash t → keys_nodup t →
  dir_ t !! idx = Some l → heap_ t !! l = Some b →
  depth_ b < global_depth_ t →
  hash key mod 2 ^ depth_ b = Z.of_nat idx mod 2 ^ depth_ b →
  keys_nodup (split_table hash t b key) ∧
  ∀ k, find_in (split_table hash t b key) k = find_in t k.
Proof.
  intros Ht Hnd Hidx Hb Hlt Hkey.
  destruct (ei_slot _ _ Ht _ _ Hidx) as (b' & Hb' & Hdep & Hsz & Hlen & Hshare & Hkeys).
  rewrite Hb in Hb'. injection Hb' as <-.
  assert (Hd : 0 ≤ depth_ b) by lia.
  pose proof (Hnd _ _ _ Hidx Hb) as Hndb.
  destruct (distribute_lists (Z.shiftl 1 (depth_ b)) (list_ b)
              (mkBucket (bucket_size_ t) (depth_ b + 1) [])
              (mkBucket (bucket_size_ t) (depth_ b + 1) []) Hndb) as [Hl0 Hl1].
  { intros k _. split; by intros ?%elem_of_nil. }
  { simpl. lia. }
  { simpl. lia. }
  simpl in Hl0, Hl1.
  assert (Hdir : ∀ j, dir_ (split_table hash t b key) !! j =
            match dir_ t !! j with
            | Some l' =>
                if decide (l' = l)
                then Some (if Z.testbit (Z.of_nat j) (depth_ b) then S (next_ t) else next_ t)
                else Some l'
            | None => None
            end).
  { intros j. unfold split_table.
    destruct (distribute hash _ _ _ _) as [b0 b1]. simpl.
    by apply (redirect_split hash t idx l b key). }
  assert (Hheap : heap_ (split_table hash t b key) =
            <[S (next_ t) := (distribute hash (Z.shiftl 1 (depth_ b)) (list_ b)
                                (mkBucket (bucket_size_ t) (depth_ b + 1) [])
                                (mkBucket (bucket_size_ t) (depth_ b + 1) [])).2]>
              (<[next_ t := (distribute hash (Z.shiftl 1 (depth_ b)) (list_ b)
                               (mkBucket (bucket_size_ t) (depth_ b + 1) [])
                               (mkBucket (bucket_size_ t) (depth_ b + 1) [])).1]> (heap_ t))).
  { unfold split_table. by destruct (distribute hash _ _ _ _) as [b0 b1]. }
  assert (Hgd : global_depth_ (split_table hash t b key) = global_depth_ t).
  { unfold split_table. by destruct (distribute hash _ _ _ _) as [b0 b1]. }
  set (t2 := split_table hash t b key) in *.
  set (d := distribute hash (Z.shiftl 1 (depth_ b)) (list_ b)
              (mkBucket (bucket_size_ t) (depth_ b + 1) [])
              (mkBucket (bucket_size_ t) (depth_ b + 1) [])) in *.
  assert (Hold : ∀ j a, dir_ t !! j = Some a → a ≠ l →
            dir_ t2 !! j = Some a ∧ heap_ t2 !! a = heap_ t !! a).
  { intros j a Hj Hne. rewrite Hdir, Hj, decide_False by done. split; [done|].
    pose proof (ei_fresh _ _ Ht _ _ Hj). rewrite Hheap.
    rewrite !lookup_insert_ne by lia. done. }
  split.
  - intros i a bb Hi Ha. rewrite Hdir in Hi.
    destruct (dir_ t !! i) as [l'|] eqn:Hi'; [|done].
    destruct (decide (l' = l)) as [->|Hne].
    + injection Hi as <-. rewrite Hheap in Ha.
      destruct (Z.testbit (Z.of_nat i) (depth_ b)).
      * rewrite lookup_insert_eq in Ha. injection Ha as <-. rewrite Hl1.
        by apply NoDup_filter_keys.
      * rewrite lookup_insert_ne, lookup_insert_eq in Ha by lia. injection Ha as <-.
        rewrite Hl0. by apply NoDup_filter_keys.
    + injection Hi as <-. destruct (Hold _ _ Hi' Hne) as [_ Hh]. rewrite Hh in Ha.
      by eapply Hnd.
  - intros k.
    destruct (index_of_slot hash t k Ht) as (lk & bk & Hlk & Hbk & Hatk & Hjk & _).
    assert (HI : index_of hash t2 k = index_of hash t k) by (unfold index_of; by rewrite Hgd).
    unfold find_in at 2. rewrite Hatk. simpl. unfold find_in, bucket_at. rewrite HI.
    destruct (decide (lk = l)) as [->|Hne].
    + rewrite Hb in Hbk. injection Hbk as <-.
      rewrite Hdir, Hlk, decide_True by done. simpl. rewrite Hjk.
      rewrite testbit_mod_pow2 by lia. rewrite Hheap.
      destruct (Z.testbit (hash k) (depth_ b)) eqn:Hbit.
      * rewrite lookup_insert_eq. simpl. unfold Bucket_Find. rewrite Hl1.
        f_equal. apply (find_key_filter (λ k0, negb (Z.land (hash k0) (Z.shiftl 1 (depth_ b)) =? 0))).
        rewrite land_pow2_eqb by done. by rewrite Hbit.
      * rewrite lookup_insert_ne, lookup_insert_eq by lia. simpl. unfold Bucket_Find.
        rewrite Hl0. f_equal.
        apply (find_key_filter (λ k0, Z.land (hash k0) (Z.shiftl 1 (depth_ b)) =? 0)).
        rewrite land_pow2_eqb by done. by rewrite Hbit.
    + destruct (Hold _ _ Hlk Hne) as [Hd2 Hh2]. rewrite Hd2. simpl.
      rewrite Hh2, Hbk. done.
Qed.

Lemma split_round_Find (t : ExtendibleHashTable) key l b :
  eht_inv hash t → keys_nodup t →
  bucket_at t (index_of hash t key) = Some (l, b) →
  keys_nodup (split_round hash t b key) ∧
  ∀ k, find_in (split_round hash t b key) k = find_in t k.
Proof.
  intros Ht Hnd Hat.
  destruct (index_of_slot hash t key Ht) as (l' & b' & Hl & Hh & Hb' & _ & Hdep & _ & _ & Hkey).
  rewrite Hat in Hb'. injection Hb' as <- <-.
  unfold split_round. destruct (Z.eqb_spec (depth_ b) (global_depth_ t)) as [Heq|Hne].
  - destruct (Redistribute_Find (Expansion t) (Z.to_nat (index_of hash t key)) l b key)
      as [Hnd2 HF2]; try done.
    + by apply Expansion_inv.
    + by apply keys_nodup_Expansion.
    + simpl. by apply lookup_app_l_Some.
    + simpl. lia.
    + split; [done|]. intros k. rewrite HF2. by apply Find_Expansion.
  - apply (Redistribute_Find t (Z.to_nat (index_of hash t key)) l b key); try done. lia.
Qed.

Lemma split_loop_Find fuel key : ∀ (t t' : ExtendibleHashTable),
  eht_inv hash t → keys_nodup t → split_loop hash fuel t key = Done t' →
  keys_nodup t' ∧ (∀ k, find_in t' k = find_in t k) ∧
  ∃ l b, bucket_at t' (index_of hash t' key) = Some (l, b) ∧ IsFull b = false.
Proof.
  induction fuel as [|n IH]; intros t t' Ht Hnd; [done|].
  destruct (decide (global_depth_ t ≤ 30)) as [Hu|Hu];
    [|by rewrite split_loop_out_of_range by lia].
  destruct (index_of_slot hash t key Ht) as (l & b & _ & _ & Hb & _).
  rewrite (split_loop_unfold hash _ _ _ _ _ Ht Hu Hb).
  destruct (IsFull b) eqn:Hfull.
  - intros Hloop. destruct (split_round_Find t key l b Ht Hnd Hb) as [Hnd1 HF1].
    destruct (IH _ _ (split_round_inv hash t key l b Ht Hb) Hnd1 Hloop) as (Hnd' & HF' & Hlast).
    split; [done|]. split; [|done]. intros k. by rewrite HF', HF1.
  - intros [= <-]. split; [done|]. split; [done|]. by exists l, b.
Qed.

Lemma refines_Insert fuel (t t' : ExtendibleHashTable) m key value :
  refines t m → Insert hash fuel t key value = Done t' →
  refines t' (model_step m (OpInsert fuel key value)).
Proof.
  intros Hr Hins. pose proof Hr as (Ht & Hnd & Hm).
  split; [by eapply eht_Insert_inv|]. revert Hins. unfold Insert.
  destruct (IndexOf hash t key) as [idx|] eqn:HI; [|done].
  apply IndexOf_Some in HI as [Hu ->]. simpl.
  destruct (Find_bucket t key Ht) as (l & b & Hat & Hl & Hb & HF). rewrite Hat.
  unfold Bucket_Find. destruct (find_key key (list_ b)) as [v0|] eqn:Hfk.
  - intros [= <-].
    destruct (Bucket_Insert_find b key value) as [Hf' Hnd']; [left; by eexists|by eapply Hnd|].
    by apply (refines_set_bucket t m l b _ key (Some value)).
  - destruct (split_loop hash fuel t key) as [t1| |] eqn:Hloop; try done.
    destruct (split_loop_Find _ _ _ _ Ht Hnd Hloop) as (Hnd1 & HF1 & l1 & b1 & Hat1 & Hfull).
    pose proof (split_loop_inv hash _ _ _ _ Ht Hloop) as Ht1.
    pose proof (split_loop_depth hash _ _ _ _ Hloop) as Hu1.
    rewrite IndexOf_in_range by (pose proof (ei_gd _ _ Ht1); lia). simpl.
    rewrite Hat1. intros [= <-].
    destruct (Find_bucket t1 key Ht1) as (l1' & b1' & Hat1' & Hl1 & Hb1 & _).
    rewrite Hat1 in Hat1'. injection Hat1' as <- <-.
    destruct (Bucket_Insert_find b1 key value) as [Hf' Hnd']; [by right|by eapply Hnd1|].
    apply (refines_set_bucket t1 m l1 b1 _ key (Some value)); try done.
    split; [done|]. split; [done|]. intros k. by rewrite HF1.
Qed.

Lemma refines_Remove (t : ExtendibleHashTable) m key :
  refines t m → global_depth_ t ≤ 30 →
  ∃ t', Remove hash t key = Some (t', bool_decide (is_Some (m key))) ∧
        refines t' (model_step m (OpRemove key)).
Proof.
  intros Hr Hu. pose proof Hr as (Ht & Hnd & Hm). unfold Remove.
  rewrite IndexOf_in_range by (pose proof (ei_gd _ _ Ht); lia). simpl.
  destruct (Find_bucket t key Ht) as (l & b & Hat & Hl & Hb & HF). rewrite Hat. simpl.
  rewrite Hm in HF. injection HF as HF.
  destruct (Bucket_Remove_find b key) as (Hf' & Hnd' & Hret); [by eapply Hnd|].
  destruct (Bucket_Remove b key) as [b' r] eqn:Hrem. simpl in *.
  eexists. rewrite Hret, <- HF. split; [done|].
  split.
  - apply (eht_Remove_inv hash t key _ r Ht). unfold Remove.
    rewrite IndexOf_in_range by (pose proof (ei_gd _ _ Ht); lia). simpl.
    rewrite Hat. simpl. by rewrite Hrem.
  - by apply (refines_set_bucket t m l b b' key None).
Qed.

Lemma refines_run os : ∀ (t t' : ExtendibleHashTable) m,
  refines t m → global_depth_ t ≤ 30 →
  run hash t os = Some t' → refines t' (foldl model_step m os).
Proof.
  induction os as [|o os IH]; intros t t' m Hr Hu Hrun; simpl in Hrun.
  - by injection Hrun as <-.
  - destruct (step hash t o) as [t1|] eqn:Hstep; [|done]. simpl in Hrun.
    apply (IH t1 t' _); [| |done].
    + destruct o as [fuel key value|key]; simpl in Hstep.
      * destruct (Insert hash fuel t key value) as [t2| |] eqn:Hins; try done.
        injection Hstep as <-. by apply (refines_Insert fuel t).
      * destruct (refines_Remove t m key Hr Hu) as (t2 & Hrem & Hr2).
        rewrite Hrem in Hstep. simpl in Hstep. by injection Hstep as <-.
    + apply (run_depth hash t [o]); [done|]. simpl. by rewrite Hstep.
Qed.

Lemma refines_new bucket_size :
  0 ≤ bucket_size → refines (ExtendibleHashTable_new bucket_size) (λ _, None).
Proof.
  intros Hbs. split; [by apply eht_inv_new|]. split.
  - intros i l b Hi Hb. simpl in *. destruct i as [|i]; [|done]. injection Hi as <-.
    rewrite lookup_singleton_eq in Hb. injection Hb as <-. simpl. constructor.
  - intros k. unfold find_in, bucket_at, index_of. simpl.
    rewrite Z.land_0_r. simpl. rewrite lookup_singleton_eq. done.
Qed.

(** The table reached from a new one, with what is known of it. *)
Lemma refines_reached bucket_size os (t : ExtendibleHashTable) :
  0 ≤ bucket_size →
  run hash (ExtendibleHashTable_new bucket_size) os = Some t →
  refines t (model os) ∧ 0 ≤ global_depth_ t ≤ 30.
Proof.
  intros Hbs Hrun.
  assert (Hr : refines t (model os))
    by (apply (refines_run os _ _ _ (refines_new bucket_size Hbs)); [simpl; lia|done]).
  split; [done|]. split; [apply (ei_gd _ _ (proj1 Hr))|].
  apply (run_depth hash (ExtendibleHashTable_new bucket_size) os); [simpl; lia|done].
Qed.

(** **** The number of buckets *)

(** The buckets that the directory refers to. *)
Definition bucket_set (t : ExtendibleHashTable) : gset nat := list_to_set (dir_ t).

Lemma Redistribute_dir (t : ExtendibleHashTable) idx l b key j :
  eht_inv hash t → dir_ t !! idx = Some l → heap_ t !! l = Some b →
  hash key mod 2 ^ depth_ b = Z.of_nat idx mod 2 ^ depth_ b →
  dir_ (split_table hash t b key) !! j =
    match dir_ t !! j with
    | Some l' =>
        if decide (l' = l)
        then Some (if Z.testbit (Z.of_nat j) (depth_ b) then S (next_ t) else next_ t)
        else Some l'
    | None => None
    end.
Proof.
  intros Ht Hidx Hb Hkey. unfold split_table.
  destruct (distribute hash _ _ _ _) as [b0 b1]. simpl.
  by apply (redirect_split hash t idx l b key).
Qed.

Lemma Redistribute_bucket_set (t : ExtendibleHashTable) idx l b key :
  eht_inv hash t → dir_ t !! idx = Some l → heap_ t !! l = Some b →
  depth_ b < global_depth_ t →
  hash key mod 2 ^ depth_ b = Z.of_nat idx mod 2 ^ depth_ b →
  bucket_set (split_table hash t b key) =
    {[ next_ t; S (next_ t) ]} ∪ (bucket_set t ∖ {[ l ]}).
Proof.
  intros Ht Hidx Hb Hlt Hkey.
  destruct (ei_slot _ _ Ht _ _ Hidx) as (b' & Hb' & Hdep & _ & _ & Hshare & _).
  rewrite Hb in Hb'. injection Hb' as <-.
  pose proof (ei_len _ _ Ht) as Hlen.
  set (d := depth_ b) in *.
  assert (H2d : 0 < 2 ^ d) by lia.
  assert (H2gd : 2 ^ (d + 1) ≤ 2 ^ global_depth_ t) by (apply Z.pow_le_mono_r; lia).
  assert (H2s : 2 ^ (d + 1) = 2 * 2 ^ d) by (rewrite Z.pow_add_r by lia; lia).
  pose proof (Z.mod_pos_bound (Z.of_nat idx) (2 ^ d) H2d) as Hr.
  set (r := Z.of_nat idx mod 2 ^ d) in *.
  assert (Hslot : ∀ x, 0 ≤ x < 2 ^ (d + 1) → x mod 2 ^ d = r →
            dir_ t !! Z.to_nat x = Some l).
  { intros x Hx Hxr.
    destruct (lookup_lt_is_Some_2 (dir_ t) (Z.to_nat x)) as [l' Hl']; [lia|].
    rewrite Hl'. f_equal. apply (Hshare _ _ Hl'). rewrite Z2Nat.id by lia. done. }
  apply set_eq. intros a. unfold bucket_set.
  assert (Hx : a ∈ ({[next_ t; S (next_ t)]} ∪ (list_to_set (dir_ t) ∖ {[l]}) : gset nat) ↔
            (a = next_ t ∨ a = S (next_ t)) ∨ ((∃ j, dir_ t !! j = Some a) ∧ a ≠ l)).
  { rewrite <- list_elem_of_lookup. set_solver. }
  rewrite Hx, elem_of_list_to_set, list_elem_of_lookup. clear Hx. split.
  - intros [j Hj]. rewrite (Redistribute_dir t idx l b key j Ht Hidx Hb Hkey) in Hj.
    destruct (dir_ t !! j) as [l'|] eqn:Hj'; [|done].
    destruct (decide (l' = l)) as [->|Hne].
    + injection Hj as <-. left. fold d. destruct (Z.testbit (Z.of_nat j) d); auto.
    + injection Hj as <-. right. split; [by exists j|done].
  - intros [[->| ->]|[[j Hj] Hne]].
    + exists (Z.to_nat r).
      rewrite (Redistribute_dir t idx l b key _ Ht Hidx Hb Hkey).
      rewrite (Hslot r) by (try apply Z.mod_small; lia).
      rewrite decide_True by done. fold d. rewrite Z2Nat.id by lia.
      pose proof (mod_pow2_succ r d ltac:(lia)) as Hs.
      rewrite (Z.mod_small r (2 ^ (d + 1))), (Z.mod_small r (2 ^ d)) in Hs by lia.
      destruct (Z.testbit r d); [lia|done].
    + exists (Z.to_nat (r + 2 ^ d)).
      assert (Hm : (r + 2 ^ d) mod 2 ^ d = r).
      { rewrite <- (Z.mul_1_l (2 ^ d)) at 1. rewrite Z.mod_add by lia.
        apply Z.mod_small. lia. }
      rewrite (Redistribute_dir t idx l b key _ Ht Hidx Hb Hkey).
      rewrite (Hslot (r + 2 ^ d)) by (done || lia).
      rewrite decide_True by done. fold d. rewrite Z2Nat.id by lia.
      pose proof (mod_pow2_succ (r + 2 ^ d) d ltac:(lia)) as Hs.
      rewrite (Z.mod_small (r + 2 ^ d) (2 ^ (d + 1))), Hm in Hs by lia.
      destruct (Z.testbit (r + 2 ^ d) d); [done|lia].
    + exists j. rewrite (Redistribute_dir t idx l b key j Ht Hidx Hb Hkey).
      rewrite Hj. by rewrite decide_False.
Qed.

(** [num_buckets_] counts the buckets of the directory. *)
Definition counted (t : ExtendibleHashTable) : Prop :=
  num_buckets_ t = Z.of_nat (size (bucket_set t)).

Lemma counted_Redistribute (t : ExtendibleHashTable) idx l b key :
  eht_inv hash t → counted t → dir_ t !! idx = Some l → heap_ t !! l = Some b →
  depth_ b < global_depth_ t →
  hash key mod 2 ^ depth_ b = Z.of_nat idx mod 2 ^ depth_ b →
  counted (split_table hash t b key).
Proof.
  intros Ht Hc Hidx Hb Hlt Hkey. unfold counted.
  rewrite (Redistribute_bucket_set t idx l b key) by done.
  assert (Hfresh : ∀ a, a ∈ bucket_set t → (a < next_ t)%nat).
  { intros a [j Hj]%elem_of_list_to_set%list_elem_of_lookup. by eapply ei_fresh. }
  assert (Hl : l ∈ bucket_set t).
  { apply elem_of_list_to_set, list_elem_of_lookup. by exists idx. }
  rewrite size_union.
  2:{ intros a Ha1 [Ha2 _]%elem_of_difference. apply Hfresh in Ha2.
      apply elem_of_union in Ha1 as [Ha1|Ha1]; apply elem_of_singleton in Ha1; lia. }
  rewrite size_union
    by (intros a Ha1 Ha2; apply elem_of_singleton in Ha1, Ha2; lia).
  rewrite !size_singleton, size_difference by (by apply singleton_subseteq_l).
  rewrite size_singleton.
  assert (size (bucket_set t) ≠ 0%nat).
  { intros H0%size_empty_inv. rewrite (H0 l) in Hl. by apply elem_of_empty in Hl. }
  replace (num_buckets_ (split_table hash t b key)) with (num_buckets_ t + 1).
  - rewrite Hc. lia.
  - unfold split_table. by destruct (distribute hash _ _ _ _).
Qed.

Lemma counted_Expansion (t : ExtendibleHashTable) : counted t → counted (Expansion t).
Proof.
  unfold counted, bucket_set. simpl. intros ->. do 2 f_equal.
  rewrite list_to_set_app_L. set_solver.
Qed.

Lemma counted_split_round (t : ExtendibleHashTable) key l b :
  eht_inv hash t → counted t →
  bucket_at t (index_of hash t key) = Some (l, b) →
  counted (split_round hash t b key).
Proof.
  intros Ht Hc Hat.
  destruct (index_of_slot hash t key Ht) as (l' & b' & Hl & Hh & Hb' & _ & Hdep & _ & _ & Hkey).
  rewrite Hat in Hb'. injection Hb' as <- <-.
  unfold split_round. destruct (Z.eqb_spec (depth_ b) (global_depth_ t)) as [Heq|Hne].
  - apply (counted_Redistribute (Expansion t) (Z.to_nat (index_of hash t key)) l b key);
      try done.
    + by apply Expansion_inv.
    + by apply counted_Expansion.
    + simpl. by apply lookup_app_l_Some.
    + simpl. lia.
  - apply (counted_Redistribute t (Z.to_nat (index_of hash t key)) l b key); try done. lia.
Qed.

Lemma counted_split_loop fuel key : ∀ (t t' : ExtendibleHashTable),
  eht_inv hash t → counted t → split_loop hash fuel t key = Done t' → counted t'.
Proof.
  induction fuel as [|n IH]; intros t t' Ht Hc; [done|].
  destruct (decide (global_depth_ t ≤ 30)) as [Hu|Hu];
    [|by rewrite split_loop_out_of_range by lia].
  destruct (index_of_slot hash t key Ht) as (l & b & _ & _ & Hb & _).
  rewrite (split_loop_unfold hash _ _ _ _ _ Ht Hu Hb).
  destruct (IsFull b).
  - apply IH; [by eapply split_round_inv|by eapply counted_split_round].
  - by intros [= <-].
Qed.

Lemma counted_step (t t' : ExtendibleHashTable) o :
  eht_inv hash t → counted t → step hash t o = Some t' → counted t'.
Proof.
  intros Ht Hc. destruct o as [fuel key value|key]; simpl.
  - unfold Insert. destruct (IndexOf hash t key) as [idx|]; [|done]. simpl.
    destruct (bucket_at t idx) as [[l b]|]; [|done].
    destruct (Bucket_Find b key); [by intros [= <-]|].
    destruct (split_loop hash fuel t key) as [t1| |] eqn:Hloop; try done.
    apply counted_split_loop in Hloop; [|done..].
    destruct (IndexOf hash t1 key) as [idx1|]; [|done]. simpl.
    destruct (bucket_at t1 idx1) as [[l1 b1]|]; [|done].
    by intros [= <-].
  - unfold Remove. destruct (IndexOf hash t key) as [idx|]; [|done]. simpl.
    destruct (bucket_at t idx) as [[l b]|]; [|done].
    simpl. destruct (Bucket_Remove b key). by intros [= <-].
Qed.

Lemma counted_run os : ∀ (t t' : ExtendibleHashTable),
  eht_inv hash t → counted t → run hash t os = Some t' → counted t'.
Proof.
  induction os as [|o os IH]; intros t t' Ht Hc Hrun; simpl in Hrun.
  - by injection Hrun as <-.
  - destruct (step hash t o) as [t1|] eqn:Hstep; [|done]. simpl in Hrun.
    apply (IH t1 t'); [|by eapply counted_step|done].
    apply (eht_run_inv hash t [o]); [done|]. simpl. by rewrite Hstep.
Qed.

Lemma find_key_elem key v (l : list (K * V)) :
  NoDup l.*1 → (key, v) ∈ l → find_key key l = Some v.
Proof.
  induction l as [|[k0 v0] l IH]; simpl; intros Hnd Hin.
  - by apply elem_of_nil in Hin.
  - apply NoDup_cons in Hnd as [Hk0 Hnd]. apply elem_of_cons in Hin as [[= <- <-]|Hin].
    + by rewrite decide_True.
    + rewrite decide_False; [by apply IH|]. intros ->. apply Hk0.
      apply list_elem_of_fmap. by exists (key, v).
Qed.

Lemma find_key_Some_elem key v (l : list (K * V)) :
  find_key key l = Some v → (key, v) ∈ l.
Proof.
  induction l as [|[k0 v0] l IH]; simpl; [done|].
  destruct (decide (k0 = key)) as [->|Hne].
  - intros [= <-]. apply elem_of_cons. by left.
  - intros Hf. apply elem_of_cons. right. by apply IH.
Qed.

(** **** Properties of the tables built from a new one *)

(** X22.  A table built from a new one by [Insert] and [Remove] calls
    holds the map that the calls describe: [Find] of any key gives the
    value of its last [Insert] if no [Remove] of the key came after it,
    and nothing otherwise.  Splitting buckets and doubling the directory
    lose no pair and bring none back. *)
Theorem table_Find_model :
  ∀ bucket_size os (t : ExtendibleHashTable),
    0 ≤ bucket_size →
    run hash (ExtendibleHashTable_new bucket_size) os = Some t →
    ∀ key, Find hash t key = Some (model os key).
Proof.
  intros bucket_size os t Hbs Hrun key.
  destruct (refines_reached bucket_size os t Hbs Hrun) as [(_ & _ & HF) Hu].
  by rewrite Find_in_range.
Qed.

(** X23.  On a table built from a new one [Remove] answers true exactly
    when [Find] finds the key; afterwards the key is not found, and
    every other key is found with the value it had. *)
Theorem table_Remove_result :
  ∀ bucket_size os (t : ExtendibleHashTable) key,
    0 ≤ bucket_size →
    run hash (ExtendibleHashTable_new bucket_size) os = Some t →
    ∃ t' r, Remove hash t key = Some (t', r) ∧
      (r = true ↔ ∃ v, Find hash t key = Some (Some v)) ∧
      Find hash t' key = Some None ∧
      ∀ k, k ≠ key → Find hash t' k = Find hash t k.
Proof.
  intros bucket_size os t key Hbs Hrun.
  destruct (refines_reached bucket_size os t Hbs Hrun) as [Hr Hu].
  destruct (refines_Remove t _ key Hr ltac:(lia)) as (t' & Hrem & Ht' & _ & HF').
  pose proof Hr as (_ & _ & HF).
  assert (Hu' : 0 ≤ global_depth_ t' ≤ 30)
    by (split; [apply (ei_gd _ _ Ht')|by eapply Remove_depth]).
  exists t', (bool_decide (is_Some (model os key))). split; [done|]. split; [|split].
  - rewrite bool_decide_eq_true, Find_in_range, HF by done. split.
    + intros [v Hv]. exists v. by rewrite Hv.
    + intros [v [= Hv]]. by exists v.
  - rewrite Find_in_range, HF' by done. simpl. by rewrite decide_True.
  - intros k Hk. rewrite !Find_in_range, HF', HF by done. simpl. by rewrite decide_False.
Qed.

(** X24.  On a table built from a new one an [Insert] that comes to its
    end leaves the key with the new value, and every other key with the
    value it had, or absent if it was absent, however many buckets the
    call has split. *)
Theorem table_Insert_result :
  ∀ bucket_size os (t t' : ExtendibleHashTable) fuel key value,
    0 ≤ bucket_size →
    run hash (ExtendibleHashTable_new bucket_size) os = Some t →
    Insert hash fuel t key value = Done t' →
    Find hash t' key = Some (Some value) ∧
    ∀ k, k ≠ key → Find hash t' k = Find hash t k.
Proof.
  intros bucket_size os t t' fuel key value Hbs Hrun Hins.
  destruct (refines_reached bucket_size os t Hbs Hrun) as [Hr Hu].
  pose proof (refines_Insert fuel t t' _ key value Hr Hins) as (Ht' & _ & HF').
  pose proof Hr as (_ & _ & HF).
  assert (Hu' : 0 ≤ global_depth_ t' ≤ 30)
    by (split; [apply (ei_gd _ _ Ht')|by eapply Insert_depth]).
  split.
  - rewrite Find_in_range, HF' by done. simpl. by rewrite decide_True.
  - intros k Hk. rewrite !Find_in_range, HF', HF by done. simpl. by rewrite decide_False.
Qed.

(** X25.  In a table built from a new one no bucket holds a key twice,
    and every pair in a bucket of the directory is the one that [Find]
    gives for its key: no pair sits in a bucket where [Find] does not
    look for it. *)
Theorem table_pairs_found :
  ∀ bucket_size os (t : ExtendibleHashTable) i l b,
    0 ≤ bucket_size →
    run hash (ExtendibleHashTable_new bucket_size) os = Some t →
    dir_ t !! i = Some l → heap_ t !! l = Some b →
    NoDup (list_ b).*1 ∧
    ∀ k v, (k, v) ∈ list_ b → Find hash t k = Some (Some v).
Proof.
  intros bucket_size os t i l b Hbs Hrun Hi Hb.
  destruct (refines_reached bucket_size os t Hbs Hrun) as [(Ht & Hnd & _) Hu].
  split; [by eapply Hnd|]. intros k v Hin. rewrite Find_in_range by done.
  destruct (ei_slot _ _ Ht _ _ Hi) as (b' & Hb' & Hdep & _ & _ & Hshare & Hkeys).
  rewrite Hb in Hb'. injection Hb' as <-.
  destruct (index_of_slot hash t k Ht) as (lk & bk & Hlk & Hbk & Hat & Hjk & _).
  assert (lk = l) as ->.
  { apply (Hshare _ _ Hlk). rewrite Hjk, mod_pow2_le by done. by eapply Hkeys. }
  rewrite Hb in Hbk. injection Hbk as <-.
  unfold find_in. rewrite Hat. simpl. f_equal. apply find_key_elem; [by eapply Hnd|done].
Qed.

(** X26.  In a table built from a new one [GetNumBuckets] is the number
    of different buckets that the slots of the directory refer to. *)
Theorem table_GetNumBuckets_counts :
  ∀ bucket_size os (t : ExtendibleHashTable),
    0 ≤ bucket_size →
    run hash (ExtendibleHashTable_new bucket_size) os = Some t →
    GetNumBuckets t = Z.of_nat (size (bucket_set t)).
Proof.
  intros bucket_size os t Hbs Hrun.
  apply (counted_run os (ExtendibleHashTable_new bucket_size) t); [by apply eht_inv_new| |done].
  change (1 = Z.of_nat (size ({[0%nat]} ∪ ∅ : gset nat))).
  by rewrite union_empty_r_L, size_singleton.
Qed.

End Refine.

Lemma table_Find_model_witness :
  ∃ t : ExtendibleHashTable Z Z,
    run (λ k, k) (ExtendibleHashTable_new 2) sample_ops = Some t ∧
    ∀ key, Find (λ k, k) t key = Some (model sample_ops key).
Proof.
  eexists. split; [vm_compute; reflexivity|].
  apply (table_Find_model (λ k, k) 2 sample_ops); [lia|vm_compute; reflexivity].
Defined.

Lemma table_Remove_result_witness :
  ∃ t : ExtendibleHashTable Z Z,
    run (λ k, k) (ExtendibleHashTable_new 2) sample_ops = Some t ∧
    ∃ t' r, Remove (λ k, k) t 5 = Some (t', r) ∧
      (r = true ↔ ∃ v, Find (λ k, k) t 5 = Some (Some v)) ∧
      Find (λ k, k) t' 5 = Some None ∧
      ∀ k, k ≠ 5 → Find (λ k, k) t' k = Find (λ k, k) t k.
Proof.
  eexists. split; [vm_compute; reflexivity|].
  apply (table_Remove_result (λ k, k) 2 sample_ops); [lia|vm_compute; reflexivity].
Defined.

Lemma table_Insert_result_witness :
  ∃ t t' : ExtendibleHashTable Z Z,
    run (λ k, k) (ExtendibleHashTable_new 2) sample_ops = Some t ∧
    Insert (λ k, k) 8 t 17 170 = Done t' ∧
    Find (λ k, k) t' 17 = Some (Some 170) ∧
    ∀ k, k ≠ 17 → Find (λ k, k) t' k = Find (λ k, k) t k.
Proof.
  eexists _, _. split; [vm_compute; reflexivity|]. split; [vm_compute; reflexivity|].
  apply (table_Insert_result (λ k, k) 2 sample_ops _ _ 8%nat);
    [lia|vm_compute; reflexivity..].
Defined.

Lemma table_pairs_found_witness :
  ∃ (t : ExtendibleHashTable Z Z) l b,
    run (λ k, k) (ExtendibleHashTable_new 2) sample_ops = Some t ∧
    dir_ t !! 1%nat = Some l ∧ heap_ t !! l = Some b ∧
    NoDup (list_ b).*1 ∧
    ∀ k v, (k, v) ∈ list_ b → Find (λ k, k) t k = Some (Some v).
Proof.
  eexists _, _, _. split; [vm_compute; reflexivity|].
  split; [vm_compute; reflexivity|]. split; [vm_compute; reflexivity|].
  eapply (table_pairs_found (λ k, k) 2 sample_ops _ 1%nat);
    [lia|vm_compute; reflexivity..].
Defined.

Lemma table_GetNumBuckets_counts_witness :
  ∃ t : ExtendibleHashTable Z Z,
    run (λ k, k) (ExtendibleHashTable_new 2) sample_ops = Some t ∧
    GetNumBuckets t = Z.of_nat (size (bucket_set t)).
Proof.
  eexists. split; [vm_compute; reflexivity|].
  apply (table_GetNumBuckets_counts (λ k, k) 2 sample_ops); [lia|vm_compute; reflexivity].
Defined.

End EHTFacts.

(* ===================================================================== *)
(** ** storage/index/b_plus_tree.cpp, storage/page/b_plus_tree_internal_page.cpp,
       storage/index/index_iterator.cpp *)
(* ===================================================================== *)

Module BPT.

(** What stops an operation: a [FetchPage] of a page that was never
    created (the code then reads a frame of zeroes, or of foreign bytes,
    as a tree page), a [nullptr] that the buffer pool returned and that
    the code goes on to dereference, a thrown [std::logic_error] or
    [std::invalid_argument], a read outside an array, or the end of the
    fuel of a loop. *)
Inductive error :=
| FetchOfMissingPage (page_id : page_id_t)
| NullPointer
| LogicError
| OutOfBounds
| OutOfFuel.

Inductive result (A : Type) :=
| Ok (a : A)
| Err (e : error).
Arguments Ok {A} a.
Arguments Err {A} e.

Definition bind {A B} (r : result A) (k : A → result B) : result B :=
  match r with
  | Ok a => k a
  | Err e => Err e
  end.

Notation "'let*' x := e 'in' k" := (bind e (λ x, k))
  (at level 10, x pattern, e at level 200, k at level 200).

(** Keys are [GenericKey]s compared as integers by [GenericComparator];
    values are record identifiers. *)
Definition comparator_ (a b : Z) : Z :=
  if a <? b then -1 else if a =? b then 0 else 1.

Inductive IndexPageType := INVALID_INDEX_PAGE | LEAF_PAGE | INTERNAL_PAGE.

Inductive OpeType := FIND | INSERT | REMOVE.

(** A tree page: the header shared by leaf and internal pages
    ([BPlusTreePage]), the link of a leaf, and the array of pairs.  Only
    the [GetSize()] first slots of [array_] are kept: the size is the
    length of the list.  A write into slot [GetSize()] followed by
    [IncreaseSize(1)] is an append.  In an internal page the second
    component of a pair is the page id of a child, and the key of slot 0
    is never read. *)
Record Page := mkPage {
  page_type_ : IndexPageType;
  max_size_ : Z;
  parent_page_id_ : page_id_t;
  page_id_ : page_id_t;
  next_page_id_ : page_id_t;
  array_ : list (Z * Z)
}.

Definition GetSize (p : Page) : Z := Z.of_nat (length (array_ p)).
Definition GetMaxSize (p : Page) : Z := max_size_ p.
Definition GetPageId (p : Page) : page_id_t := page_id_ p.
Definition GetParentPageId (p : Page) : page_id_t := parent_page_id_ p.
Definition GetNextPageId (p : Page) : page_id_t := next_page_id_ p.

Definition set_array (p : Page) (a : list (Z * Z)) : Page :=
  mkPage (page_type_ p) (max_size_ p) (parent_page_id_ p) (page_id_ p) (next_page_id_ p) a.
Definition SetParentPageId (p : Page) (parent : page_id_t) : Page :=
  mkPage (page_type_ p) (max_size_ p) parent (page_id_ p) (next_page_id_ p) (array_ p).
Definition SetNextPageId (p : Page) (next : page_id_t) : Page :=
  mkPage (page_type_ p) (max_size_ p) (parent_page_id_ p) (page_id_ p) next (array_ p).

(** Modelled from the spec: storage/page/b_plus_tree_page.cpp is not
    among the sources.  "Leaf [min_size = ceil((max_size - 1) / 2)];
    internal [min_size = ceil(max_size / 2)]"; the root is the page
    without a parent. *)
Definition IsLeafPage (p : Page) : bool :=
  match page_type_ p with LEAF_PAGE => true | _ => false end.
Definition IsRootPage (p : Page) : bool := parent_page_id_ p =? INVALID_PAGE_ID.
Definition GetMinSize (p : Page) : Z :=
  if IsLeafPage p then max_size_ p / 2 else (max_size_ p + 1) / 2.

Definition KeyAt (p : Page) (i : Z) : Z := (nth (Z.to_nat i) (array_ p) (0, 0)).1.
Definition ValueAt (p : Page) (i : Z) : Z := (nth (Z.to_nat i) (array_ p) (0, 0)).2.

Definition SetKeyAt (p : Page) (i : Z) (k : Z) : Page :=
  set_array p (<[Z.to_nat i := (k, ValueAt p i)]> (array_ p)).
Definition SetValueAt (p : Page) (i : Z) (v : Z) : Page :=
  set_array p (<[Z.to_nat i := (KeyAt p i, v)]> (array_ p)).

(** *** Binary search ([LowerBound])

    [while (left < right) { mid = (left + right) / 2;
       if (comparator(key, KeyAt(mid)) <= 0) right = mid; else left = mid + 1; }]
    The interval shrinks at every round: [right - left] rounds suffice. *)
Fixpoint lower_bound_loop (rounds : nat) (p : Page) (key : Z) (left right : Z) : Z :=
  match rounds with
  | O => left
  | S n =>
      if left <? right then
        let mid := (left + right) / 2 in
        if comparator_ key (KeyAt p mid) <=? 0
        then lower_bound_loop n p key left mid
        else lower_bound_loop n p key (mid + 1) right
      else left
  end.

(** *** Internal pages (storage/page/b_plus_tree_internal_page.cpp) *)

Section Internal.

(** [INTERNAL_PAGE_SIZE] is a macro of the header, not among the sources. *)
Variable INTERNAL_PAGE_SIZE : Z.

Definition Internal_Init (page_id parent_id : page_id_t) (max_size : Z) : Page :=
  mkPage INTERNAL_PAGE
         (if INTERNAL_PAGE_SIZE <? max_size then INTERNAL_PAGE_SIZE else max_size)
         parent_id page_id INVALID_PAGE_ID [].

End Internal.

Fixpoint find_index (value : Z) (i : Z) (l : list (Z * Z)) : Z :=
  match l with
  | [] => -1
  | (_, v) :: l' => if v =? value then i else find_index value (i + 1) l'
  end.

Definition FindIndex (p : Page) (value : Z) : Z := find_index value 0 (array_ p).

(** [ShiftLeft(index)]: the slots after [index] move down by one; the
    call without argument is [ShiftLeft(0)]. *)
Definition ShiftLeft (p : Page) (index : Z) : Page :=
  set_array p (delete (Z.to_nat index) (array_ p)).

(** [ShiftRight()]: every slot moves up by one; slot 0 keeps its pair. *)
Definition ShiftRight (p : Page) : Page :=
  set_array p (match array_ p with
               | [] => [(0, 0)]
               | a :: _ => a :: array_ p
               end).

Definition Internal_LowerBound (p : Page) (key : Z) : Z :=
  lower_bound_loop (length (array_ p)) p key 1 (GetSize p).

(** [array_[size] = {key, value}], swapped down to [index]. *)
Definition insert_at (index : Z) (kv : Z * Z) (l : list (Z * Z)) : list (Z * Z) :=
  take (Z.to_nat index) l ++ kv :: drop (Z.to_nat index) l.

Definition Internal_Insert (p : Page) (key value : Z) : Page * bool :=
  let index := Internal_LowerBound p key in
  if (index <? GetSize p) && (comparator_ key (KeyAt p index) =? 0) then (p, false)
  else (set_array p (insert_at index (key, value) (array_ p)), true).

(** [Split]: the first [GetMaxSize()] slots with the new pair inserted
    ([LowerBound(vec, ...)] searches [1, vec.size()) and reads the keys
    of [array_]); this page keeps [GetMinSize()] pairs, the new page
    takes the others. *)
Definition Internal_Split (p new_page : Page) (key value : Z) : Page * Page :=
  let vec := take (Z.to_nat (GetMaxSize p)) (array_ p) in
  let index := lower_bound_loop (length vec) p key 1 (Z.of_nat (length vec)) in
  let vec' := insert_at index (key, value) vec in
  let x := GetMinSize p in
  (set_array p (take (Z.to_nat x) vec'),
   set_array new_page (drop (Z.to_nat x) vec')).

(** *** Leaf pages

    Modelled from the spec: storage/page/b_plus_tree_leaf_page.cpp is not
    among the sources.  "Insert sorted; if duplicate key, return false";
    [Remove] takes the pair of a key out; [Split]: "the left keeps
    [min_size] entries, the right gets the rest"; [LowerBound] is the
    search of the internal page, started at slot 0. *)
Definition Leaf_Init (page_id parent_id : page_id_t) (max_size : Z) : Page :=
  mkPage LEAF_PAGE max_size parent_id page_id INVALID_PAGE_ID [].

Definition Leaf_LowerBound (p : Page) (key : Z) : Z :=
  lower_bound_loop (length (array_ p)) p key 0 (GetSize p).

Definition Leaf_Insert (p : Page) (key value : Z) : Page * bool :=
  let index := Leaf_LowerBound p key in
  if (index <? GetSize p) && (comparator_ key (KeyAt p index) =? 0) then (p, false)
  else (set_array p (insert_at index (key, value) (array_ p)), true).

Definition Leaf_Remove (p : Page) (key : Z) : Page * bool :=
  let index := Leaf_LowerBound p key in
  if (index <? GetSize p) && (comparator_ key (KeyAt p index) =? 0)
  then (set_array p (delete (Z.to_nat index) (array_ p)), true)
  else (p, false).

Definition Leaf_Split (p new_page : Page) : Page * Page :=
  let x := GetMinSize p in
  (set_array p (take (Z.to_nat x) (array_ p)),
   set_array new_page (drop (Z.to_nat x) (array_ p))).

(** *** The tree and the pages behind the buffer pool *)

(** [pages_] holds the contents of the pages that exist, in a frame or
    on disk; latches are left out, and so are the pin counts: what the
    pool answers is asked from [BufferPoolManager] below.  [alloc_] is
    the allocator of page ids of the pool.  [header_] is the record of
    this index in the header page (page 0), [None] when there is no
    record.  [page_set_] and [deleted_page_set_] are those of the
    [Transaction] passed to the operations; [None] in [page_set_] is the
    [nullptr] that stands for the root latch. *)
Record BPlusTree := mkTree {
  root_page_id_ : page_id_t;
  leaf_max_size_ : Z;
  internal_max_size_ : Z;
  pages_ : gmap Z Page;
  alloc_ : page_id_t;
  header_ : option page_id_t;
  page_set_ : list (option page_id_t);
  deleted_page_set_ : list page_id_t
}.

(** The host creates the header page (page 0) before the tree. *)
Definition BPlusTree_new (leaf_max_size internal_max_size : Z) : BPlusTree :=
  mkTree INVALID_PAGE_ID leaf_max_size internal_max_size ∅ 1 None [] [].

Definition set_root (t : BPlusTree) (r : page_id_t) : BPlusTree :=
  mkTree r (leaf_max_size_ t) (internal_max_size_ t) (pages_ t) (alloc_ t)
         (header_ t) (page_set_ t) (deleted_page_set_ t).
Definition set_pages (t : BPlusTree) (ps : gmap Z Page) : BPlusTree :=
  mkTree (root_page_id_ t) (leaf_max_size_ t) (internal_max_size_ t) ps (alloc_ t)
         (header_ t) (page_set_ t) (deleted_page_set_ t).
Definition set_header (t : BPlusTree) (h : option page_id_t) : BPlusTree :=
  mkTree (root_page_id_ t) (leaf_max_size_ t) (internal_max_size_ t) (pages_ t) (alloc_ t)
         h (page_set_ t) (deleted_page_set_ t).
Definition set_page_set (t : BPlusTree) (l : list (option page_id_t)) : BPlusTree :=
  mkTree (root_page_id_ t) (leaf_max_size_ t) (internal_max_size_ t) (pages_ t) (alloc_ t)
         (header_ t) l (deleted_page_set_ t).
Definition set_deleted (t : BPlusTree) (l : list page_id_t) : BPlusTree :=
  mkTree (root_page_id_ t) (leaf_max_size_ t) (internal_max_size_ t) (pages_ t) (alloc_ t)
         (header_ t) (page_set_ t) l.

(** A write through a [Page*]. *)
Definition write_page (t : BPlusTree) (page_id : page_id_t) (p : Page) : BPlusTree :=
  set_pages t (<[page_id := p]> (pages_ t)).

(** The buffer pool behind the tree (buffer/buffer_pool_manager_instance.cpp).
    [NewPage] and [FetchPage] return [nullptr] when the page is in no
    frame and the pool has no free frame and none to evict, and
    [DeletePage] leaves a pinned page where it is.  The tree keeps no
    account of frames and pins, so the pool is asked: [has_frame t page_id]
    says whether the pool behind the tree in state [t] holds the page or
    finds a frame for it, [is_pinned t page_id] whether the page is
    pinned when the tree deletes it. *)
Class BufferPoolManager := {
  has_frame : BPlusTree → page_id_t → bool;
  is_pinned : BPlusTree → page_id_t → bool
}.

(** The page behind a [Page*] that the code holds. *)
Definition deref (t : BPlusTree) (page_id : page_id_t) : result Page :=
  match pages_ t !! page_id with
  | Some p => Ok p
  | None => Err (FetchOfMissingPage page_id)
  end.

Section Pool.

Context {pool : BufferPoolManager}.

(** No caller in the tree tests the result of [FetchPage] or [NewPage]
    before it reads or writes through it: a [nullptr] ends the
    operation. *)
Definition FetchPage (t : BPlusTree) (page_id : page_id_t) : result Page :=
  if has_frame t page_id then deref t page_id else Err NullPointer.

(** [AllocatePage]: a fresh id. *)
Definition AllocatePage (t : BPlusTree) : page_id_t * BPlusTree :=
  (alloc_ t,
   mkTree (root_page_id_ t) (leaf_max_size_ t) (internal_max_size_ t) (pages_ t)
          (alloc_ t + 1) (header_ t) (page_set_ t) (deleted_page_set_ t)).

(** [NewPage(&id)]: no id is taken when there is no frame; the page is
    written by the [Init] that follows. *)
Definition NewPage (t : BPlusTree) : result (page_id_t * BPlusTree) :=
  if has_frame t (alloc_ t) then Ok (AllocatePage t) else Err NullPointer.

Definition DeletePage (t : BPlusTree) (page_id : page_id_t) : BPlusTree :=
  if is_pinned t page_id then t else set_pages t (delete page_id (pages_ t)).

Definition IsEmpty (t : BPlusTree) : bool := root_page_id_ t =? INVALID_PAGE_ID.

Definition IsSafe (page : Page) (op : OpeType) : bool :=
  match op with
  | FIND => true
  | INSERT =>
      if IsLeafPage page then GetSize page <? GetMaxSize page - 1
      else GetSize page <? GetMaxSize page
  | REMOVE => GetMinSize page <? GetSize page
  end.

(** [UnlockPageSet]: unlatches and unpins every page of the set. *)
Definition UnlockPageSet (t : BPlusTree) : BPlusTree := set_page_set t [].

Definition AddIntoPageSet (t : BPlusTree) (p : option page_id_t) : BPlusTree :=
  set_page_set t (page_set_ t ++ [p]).

Definition AddIntoDeletedPageSet (t : BPlusTree) (p : page_id_t) : BPlusTree :=
  set_deleted t (deleted_page_set_ t ++ [p]).

Definition GetPageFromTransaction (t : BPlusTree) (page_id : page_id_t) : result Page :=
  if decide (Some page_id ∈ page_set_ t) then deref t page_id
  else Err LogicError.

(** Modelled from the spec: storage/page/header_page.cpp is not among the
    sources.  "A reserved page at id 0 holds a mapping from named indices
    to their current root page id": [InsertRecord] adds the record of a
    name that has none, [UpdateRecord] changes the record of a name that
    has one. *)
Definition update_record (t : BPlusTree) (insert_record : Z) : BPlusTree :=
  if insert_record =? 0 then
    match header_ t with
    | Some _ => set_header t (Some (root_page_id_ t))
    | None => t
    end
  else
    match header_ t with
    | Some _ => t
    | None => set_header t (Some (root_page_id_ t))
    end.

(** [UpdateRootPageId]: the header page is fetched, and written through
    the pointer that comes back. *)
Definition UpdateRootPageId (t : BPlusTree) (insert_record : Z) : result BPlusTree :=
  if has_frame t HEADER_PAGE_ID then Ok (update_record t insert_record)
  else Err NullPointer.

(** *** Search *)

(** The child for [key]: [ValueAt(size - 1)], or [ValueAt(i - 1)] for the
    first [i >= 1] with [KeyAt(i) > key]. *)
Fixpoint find_child (key : Z) (prev : Z) (rest : list (Z * Z)) : Z :=
  match rest with
  | [] => prev
  | (k, c) :: rest' => if 0 <? comparator_ k key then prev else find_child key c rest'
  end.

Definition child_for (page : Page) (key : Z) : result Z :=
  match array_ page with
  | [] => Err OutOfBounds              (* ValueAt(-1) *)
  | (_, c0) :: rest => Ok (find_child key c0 rest)
  end.

(** The loop of [GetLeafPage].  Result [None]: the leaf is not safe in
    the first, optimistic pass. *)
Fixpoint descend (fuel : nat) (op : OpeType) (is_first : bool) (key : Z)
    (cur_page_id : page_id_t) (prev_page : option page_id_t) (t : BPlusTree)
  : result (option page_id_t * BPlusTree) :=
  match fuel with
  | O => Err OutOfFuel
  | S n =>
      let* page := FetchPage t cur_page_id in
      let t1 :=
        match op with
        | FIND => t
        | _ =>
            if negb is_first then
              AddIntoPageSet (if IsSafe page op then UnlockPageSet t else t)
                             (Some cur_page_id)
            else if IsLeafPage page then AddIntoPageSet t (Some cur_page_id)
            else match prev_page with
                 | Some _ => t
                 | None => UnlockPageSet t
                 end
        end in
      if IsLeafPage page then
        if negb (IsSafe page op) && is_first then Ok (None, UnlockPageSet t1)
        else Ok (Some cur_page_id, t1)
      else
        let* next := child_for page key in
        descend n op is_first key next (Some cur_page_id) t1
  end.

(** Every page on a path has its own id below [alloc_]: a path longer
    than [alloc_] pages would visit a page twice. *)
Definition tree_fuel (t : BPlusTree) : nat := Z.to_nat (alloc_ t).

(** The head of [GetLeafPage]: a root leaf for the first key, and the
    [nullptr] of the root latch in the page set of a writer. *)
Definition GetLeafPage_enter (t : BPlusTree) (op : OpeType) : result BPlusTree :=
  let* t1 :=
    match op with
    | INSERT =>
        if IsEmpty t then
          let* (pid, t') := NewPage t in
          let* t'' := UpdateRootPageId (set_root t' pid) 1 in
          Ok (write_page t'' pid (Leaf_Init pid INVALID_PAGE_ID (leaf_max_size_ t'')))
        else Ok t
    | _ => Ok t
    end in
  Ok (match op with
      | FIND => t1
      | _ => AddIntoPageSet t1 None
      end).

Definition GetLeafPage (t : BPlusTree) (key : Z) (op : OpeType)
  : result (page_id_t * BPlusTree) :=
  let* t1 := GetLeafPage_enter t op in
  let* r := descend (tree_fuel t1) op true key (root_page_id_ t1) None t1 in
  match r with
  | (Some leaf, t2) => Ok (leaf, t2)
  | (None, t2) =>
      (* return GetLeafPage(key, transaction, op, false) *)
      let* t3 := GetLeafPage_enter t2 op in
      let* r' := descend (tree_fuel t3) op false key (root_page_id_ t3) None t3 in
      match r' with
      | (Some leaf, t4) => Ok (leaf, t4)
      | (None, _) => Err LogicError
      end
  end.

Definition GetValue (t : BPlusTree) (key : Z) : result (bool * list Z * BPlusTree) :=
  let* (leaf, t1) := GetLeafPage t key FIND in
  let* leaf_page := deref t1 leaf in
  let found := filter (λ kv, comparator_ kv.1 key = 0) (array_ leaf_page) in
  Ok (negb (bool_decide (found = [])), found.*2, t1).

(** *** Insertion *)

(** [UpdateChildNode(node, begin, end)] over the children [cs]. *)
Fixpoint UpdateChildNode (t : BPlusTree) (node : page_id_t) (cs : list Z) : result BPlusTree :=
  match cs with
  | [] => Ok t
  | c :: cs' =>
      let* child_page := FetchPage t c in
      UpdateChildNode (write_page t c (SetParentPageId child_page node)) node cs'
  end.

Definition children_between (p : Page) (b e : Z) : list Z :=
  (take (Z.to_nat (e - b)) (drop (Z.to_nat b) (array_ p))).*2.

Section Tree.

Variable INTERNAL_PAGE_SIZE : Z.

Fixpoint InsertInParent (fuel : nat) (t : BPlusTree) (left right : page_id_t) (key0 : Z)
  : result BPlusTree :=
  match fuel with
  | O => Err OutOfFuel
  | S n =>
      let* left_node := deref t left in
      if IsRootPage left_node then
        let* (root, t1) := NewPage t in
        let t2 := set_root t1 root in
        let root_node := Internal_Init INTERNAL_PAGE_SIZE root INVALID_PAGE_ID
                           (internal_max_size_ t2) in
        let* t3 := UpdateRootPageId (write_page t2 root root_node) 0 in
        let* right_node := deref t3 right in
        let t4 := write_page t3 root
                    (set_array root_node [(0, GetPageId left_node); (key0, GetPageId right_node)]) in
        let* left_node' := deref t4 left in
        let t5 := write_page t4 left (SetParentPageId left_node' root) in
        let* right_node' := deref t5 right in
        Ok (write_page t5 right (SetParentPageId right_node' root))
      else
        let* parent_node := GetPageFromTransaction t (GetParentPageId left_node) in
        let parent := GetParentPageId left_node in
        let* right_node := deref t right in
        if GetSize parent_node <? GetMaxSize parent_node then
          Ok (write_page t parent (Internal_Insert parent_node key0 (GetPageId right_node)).1)
        else
          let* (rp, t1) := NewPage t in
          let right_parent := Internal_Init INTERNAL_PAGE_SIZE rp
                                (GetParentPageId parent_node) (internal_max_size_ t1) in
          let '(parent_node', right_parent') :=
            Internal_Split parent_node right_parent key0 (GetPageId right_node) in
          let t2 := write_page (write_page t1 rp right_parent') parent parent_node' in
          let* t3 := UpdateChildNode t2 rp
                     (children_between right_parent' 0 (GetSize right_parent')) in
          InsertInParent n t3 parent rp (KeyAt right_parent' 0)
  end.

Definition Insert (t : BPlusTree) (key value : Z) : result (bool * BPlusTree) :=
  let* (leaf, t1) := GetLeafPage t key INSERT in
  let* leaf_page := deref t1 leaf in
  let '(leaf_page', inserted) := Leaf_Insert leaf_page key value in
  if negb inserted then Ok (false, UnlockPageSet t1)
  else
    let t2 := write_page t1 leaf leaf_page' in
    if GetSize leaf_page' <? leaf_max_size_ t2 then Ok (true, UnlockPageSet t2)
    else
      let* (right_page_id, t3) := NewPage t2 in
      let new_leaf := Leaf_Init right_page_id (GetParentPageId leaf_page')
                        (leaf_max_size_ t3) in
      let '(leaf1, new1) := Leaf_Split leaf_page' new_leaf in
      let new2 := SetNextPageId new1 (GetNextPageId leaf1) in
      let leaf2 := SetNextPageId leaf1 (GetPageId new2) in
      let t4 := write_page (write_page t3 right_page_id new2) leaf leaf2 in
      let* t5 := InsertInParent (tree_fuel t4) t4 leaf right_page_id (KeyAt new2 0) in
      Ok (true, UnlockPageSet t5).

(** *** Removal *)

(** The pair of slot [at] of a neighbour. *)
Definition KeyValueAt (p : Page) (i : Z) : Z * Z := nth (Z.to_nat i) (array_ p) (0, 0).

(** [TryBorrow]; [sibling] is [None] for [nullptr].  The three pages are
    read and written through the pointers that the caller holds, in the
    order of the source. *)
Definition TryBorrow (t : BPlusTree) (page : page_id_t) (sibling : option page_id_t)
    (parent : page_id_t) (is_left : bool) : result (bool * BPlusTree) :=
  match sibling with
  | None => Ok (false, t)
  | Some sib =>
      let* sibling_page := deref t sib in
      if GetSize sibling_page <=? GetMinSize sibling_page then Ok (false, t)
      else
        let* page_node := deref t page in
        let* parent_page := deref t parent in
        let parent_update_at :=
          FindIndex parent_page (GetPageId page_node) + (if is_left then 0 else 1) in
        let sibling_borrow_at :=
          if is_left then GetSize sibling_page - 1
          else if IsLeafPage page_node then 0 else 1 in
        if IsLeafPage page_node then
          let leaf' := (Leaf_Insert page_node (KeyAt sibling_page sibling_borrow_at)
                                    (ValueAt sibling_page sibling_borrow_at)).1 in
          let t1 := write_page t page leaf' in
          let* sibling_page1 := deref t1 sib in
          let sib' := (Leaf_Remove sibling_page1 (KeyAt sibling_page1 sibling_borrow_at)).1 in
          let t2 := write_page t1 sib sib' in
          let* leaf_now := deref t2 page in
          let* sib_now := deref t2 sib in
          let update_key := if is_left then KeyAt leaf_now 0 else KeyAt sib_now 0 in
          let* parent_now := deref t2 parent in
          Ok (true, write_page t2 parent (SetKeyAt parent_now parent_update_at update_key))
        else
          let update_key := KeyAt sibling_page sibling_borrow_at in
          if is_left then
            let p1 := ShiftRight page_node in
            let p2 := SetKeyAt p1 1 (KeyAt parent_page parent_update_at) in
            let p3 := SetValueAt p2 0 (ValueAt sibling_page (GetSize sibling_page - 1)) in
            let t1 := write_page t page p3 in
            let* sibling_page1 := deref t1 sib in
            let t2 := write_page t1 sib
                        (set_array sibling_page1
                           (take (Z.to_nat (GetSize sibling_page1 - 1)) (array_ sibling_page1))) in
            let* page_now := deref t2 page in
            let* t3 := UpdateChildNode t2 (GetPageId page_now) (children_between page_now 0 1) in
            let* parent_now := deref t3 parent in
            Ok (true, write_page t3 parent (SetKeyAt parent_now parent_update_at update_key))
          else
            let p1 := set_array page_node
                        (array_ page_node ++
                         [(KeyAt parent_page parent_update_at, ValueAt sibling_page 0)]) in
            let t1 := write_page t page p1 in
            let* sibling_page1 := deref t1 sib in
            let t2 := write_page t1 sib (ShiftLeft sibling_page1 0) in
            let* page_now := deref t2 page in
            let* t3 := UpdateChildNode t2 (GetPageId page_now)
                         (children_between page_now (GetSize page_now - 1) (GetSize page_now)) in
            let* parent_now := deref t3 parent in
            Ok (true, write_page t3 parent (SetKeyAt parent_now parent_update_at update_key))
  end.

(** [GetSiblings]: the ids of the neighbours under the parent. *)
Definition GetSiblings (page parent_page : Page) : result (page_id_t * page_id_t) :=
  if IsRootPage page then Err LogicError
  else
    let index := FindIndex parent_page (GetPageId page) in
    if index =? -1 then Err LogicError
    else
      Ok (if index =? 0 then INVALID_PAGE_ID else ValueAt parent_page (index - 1),
          if index =? GetSize parent_page - 1 then INVALID_PAGE_ID
          else ValueAt parent_page (index + 1)).

Definition leaf_insert_all (left : Page) (items : list (Z * Z)) : Page :=
  foldl (λ p kv, (Leaf_Insert p kv.1 kv.2).1) left items.

Definition internal_insert_all (left : Page) (items : list (Z * Z)) : Page :=
  foldl (λ p kv, (Internal_Insert p kv.1 kv.2).1) left items.

Definition Merge (t : BPlusTree) (left right parent : page_id_t) : result BPlusTree :=
  let* left_page := deref t left in
  let* right_page := deref t right in
  let* parent_page := deref t parent in
  let position_left := FindIndex parent_page (GetPageId left_page) in
  let* t1 :=
    if IsLeafPage left_page then
      let left1 := leaf_insert_all left_page (array_ right_page) in
      Ok (write_page t left (SetNextPageId left1 (GetNextPageId right_page)))
    else
      let old_size := GetSize left_page in
      let left1 := set_array left_page
                     (array_ left_page ++
                      [(KeyAt parent_page (position_left + 1), ValueAt right_page 0)]) in
      let left2 := internal_insert_all left1 (drop 1 (array_ right_page)) in
      let t' := write_page t left left2 in
      UpdateChildNode t' (GetPageId left2) (children_between left2 old_size (GetSize left2)) in
  let* parent_now := deref t1 parent in
  Ok (write_page t1 parent (ShiftLeft parent_now (position_left + 1))).

Fixpoint HandleUnderFlow (fuel : nat) (t : BPlusTree) (page : page_id_t) : result BPlusTree :=
  match fuel with
  | O => Err OutOfFuel
  | S n =>
      let* page_node := deref t page in
      if IsRootPage page_node then
        if IsLeafPage page_node || (1 <? GetSize page_node) then Ok t
        else
          let t1 := AddIntoDeletedPageSet t (GetPageId page_node) in
          let t2 := set_root t1 (ValueAt page_node 0) in
          let* new_node := FetchPage t2 (root_page_id_ t2) in
          let t3 := write_page t2 (root_page_id_ t2) (SetParentPageId new_node INVALID_PAGE_ID) in
          UpdateRootPageId t3 0
      else
        let parent := GetParentPageId page_node in
        let* parent_page := GetPageFromTransaction t parent in
        let* (left_sibling_page_id, right_sibling_page_id) := GetSiblings page_node parent_page in
        if (left_sibling_page_id =? INVALID_PAGE_ID) && (right_sibling_page_id =? INVALID_PAGE_ID)
        then Err LogicError
        else
          let* left_sibling :=
            (if left_sibling_page_id =? INVALID_PAGE_ID then Ok None
             else let* _ := FetchPage t left_sibling_page_id in Ok (Some left_sibling_page_id)) in
          let* right_sibling :=
            (if right_sibling_page_id =? INVALID_PAGE_ID then Ok None
             else let* _ := FetchPage t right_sibling_page_id in Ok (Some right_sibling_page_id)) in
          let* (borrowed_left, t1) := TryBorrow t page left_sibling parent true in
          if borrowed_left then Ok t1
          else
            let* (borrowed_right, t2) := TryBorrow t1 page right_sibling parent false in
            if borrowed_right then Ok t2
            else
              let* (left_page, right_page) :=
                match left_sibling, right_sibling with
                | Some l, _ => Ok (l, page)
                | None, Some r => Ok (page, r)
                | None, None => Err LogicError
                end in
              let* t3 := Merge t2 left_page right_page parent in
              let* right_node := deref t3 right_page in
              let t4 := AddIntoDeletedPageSet t3 (GetPageId right_node) in
              let* parent_now := deref t4 parent in
              if GetSize parent_now <? GetMinSize parent_now
              then HandleUnderFlow n t4 parent
              else Ok t4
  end.

Definition delete_pages (t : BPlusTree) : BPlusTree :=
  set_deleted (foldl DeletePage t (deleted_page_set_ t)) [].

Definition Remove (t : BPlusTree) (key : Z) : result BPlusTree :=
  let* (leaf, t1) := GetLeafPage t key REMOVE in
  let* node := deref t1 leaf in
  let '(node', removed) := Leaf_Remove node key in
  if negb removed then Ok (UnlockPageSet t1)
  else
    let t2 := write_page t1 leaf node' in
    if IsRootPage node' then
      Ok (UnlockPageSet (if GetSize node' =? 0 then set_root t2 INVALID_PAGE_ID else t2))
    else if GetMinSize node' <=? GetSize node' then Ok (UnlockPageSet t2)
    else
      let* t3 := HandleUnderFlow (tree_fuel t2) t2 leaf in
      Ok (delete_pages (UnlockPageSet t3)).

(** *** Iterators (storage/index/index_iterator.cpp) *)

Record IndexIterator := mkIterator {
  it_page_id_ : page_id_t;
  it_position_ : Z;
  it_value_ : Z * Z
}.

(** The default-constructed iterator, [End()]. *)
Definition End : IndexIterator := mkIterator INVALID_PAGE_ID 0 (0, 0).

Definition IsEnd (it : IndexIterator) : bool := it_page_id_ it =? INVALID_PAGE_ID.

Fixpoint leftmost (fuel : nat) (t : BPlusTree) (cur_page_id : page_id_t) : result Page :=
  match fuel with
  | O => Err OutOfFuel
  | S n =>
      let* page := FetchPage t cur_page_id in
      if IsLeafPage page then Ok page
      else leftmost n t (ValueAt page 0)
  end.

Definition Begin (t : BPlusTree) : result IndexIterator :=
  let* page := leftmost (tree_fuel t) t (root_page_id_ t) in
  Ok (mkIterator (GetPageId page) 0 (KeyValueAt page 0)).

Definition Begin_key (t : BPlusTree) (key : Z) : result IndexIterator :=
  let* (leaf, t1) := GetLeafPage t key FIND in
  let* node := deref t1 leaf in
  let position := Leaf_LowerBound node key in
  if (position =? GetSize node) || negb (comparator_ (KeyAt node position) key =? 0)
  then Ok End
  else Ok (mkIterator (GetPageId node) position (KeyValueAt node position)).

(** [operator++]. *)
Definition next (t : BPlusTree) (it : IndexIterator) : result IndexIterator :=
  if it_page_id_ it =? INVALID_PAGE_ID then Ok it
  else
    let* node := FetchPage t (it_page_id_ it) in
    let position := it_position_ it + 1 in
    if negb (position =? GetSize node)
    then Ok (mkIterator (it_page_id_ it) position (KeyValueAt node position))
    else if GetNextPageId node =? INVALID_PAGE_ID then Ok End
    else
      let* next_node := FetchPage t (GetNextPageId node) in
      Ok (mkIterator (GetPageId next_node) 0 (KeyValueAt next_node 0)).

(** *** Sequences of operations *)

Inductive op :=
| OpInsert (key value : Z)
| OpRemove (key : Z).

Definition step (t : BPlusTree) (o : op) : result BPlusTree :=
  match o with
  | OpInsert key value => let* (_, t') := Insert t key value in Ok t'
  | OpRemove key => Remove t key
  end.

Fixpoint run (t : BPlusTree) (os : list op) : result BPlusTree :=
  match os with
  | [] => Ok t
  | o :: os' => let* t' := step t o in run t' os'
  end.

End Tree.

End Pool.

(** *** Pools that serve the tree *)

(** Every request finds a frame, and a page that the tree deletes is
    not pinned. *)
Class Serves (pool : BufferPoolManager) : Prop := {
  frame_found : ∀ t page_id, has_frame t page_id = true;
  not_pinned : ∀ t page_id, is_pinned t page_id = false
}.

(** The pool that has a frame for every request and keeps no pin. *)
Definition large_pool : BufferPoolManager :=
  {| has_frame := λ _ _, true; is_pinned := λ _ _, false |}.

Lemma large_pool_serves : Serves large_pool.
Proof. by split. Qed.

(** What follows, up to the properties of the runs, is about a tree
    behind a pool that serves it. *)
Section Served.

Context {pool : BufferPoolManager} {Hserves : Serves pool}.

Lemma FetchPage_deref t p : FetchPage t p = deref t p.
Proof. unfold FetchPage. by rewrite frame_found. Qed.

Lemma deref_ok t p pg : pages_ t !! p = Some pg → deref t p = Ok pg.
Proof. intros H. unfold deref. by rewrite H. Qed.

Lemma FetchPage_ok t p pg : pages_ t !! p = Some pg → FetchPage t p = Ok pg.
Proof. intros H. rewrite FetchPage_deref. by apply deref_ok. Qed.

Lemma NewPage_ok t : NewPage t = Ok (AllocatePage t).
Proof. unfold NewPage. by rewrite frame_found. Qed.

Lemma UpdateRootPageId_ok t insert_record :
  UpdateRootPageId t insert_record = Ok (update_record t insert_record).
Proof. unfold UpdateRootPageId. by rewrite frame_found. Qed.

Lemma DeletePage_ok t p : DeletePage t p = set_pages t (delete p (pages_ t)).
Proof. unfold DeletePage. by rewrite not_pinned. Qed.

(** The tree that [GetLeafPage_enter] gives. *)
Definition enter (t : BPlusTree) (op : OpeType) : BPlusTree :=
  let t1 :=
    match op with
    | INSERT =>
        if IsEmpty t then
          let '(pid, t') := AllocatePage t in
          let t'' := update_record (set_root t' pid) 1 in
          write_page t'' pid (Leaf_Init pid INVALID_PAGE_ID (leaf_max_size_ t''))
        else t
    | _ => t
    end in
  match op with
  | FIND => t1
  | _ => AddIntoPageSet t1 None
  end.

Lemma GetLeafPage_enter_ok t op : GetLeafPage_enter t op = Ok (enter t op).
Proof.
  unfold GetLeafPage_enter, enter. destruct op; try done.
  destruct (IsEmpty t); [|done].
  rewrite NewPage_ok. cbn [bind AllocatePage]. by rewrite UpdateRootPageId_ok.
Qed.

(** *** Arrays of pairs: search, insertion, removal *)

Lemma comparator_le a b : (comparator_ a b <=? 0) = (a <=? b).
Proof.
  unfold comparator_.
  destruct (Z.ltb_spec a b), (Z.eqb_spec a b), (Z.leb_spec a b); simpl; try done; lia.
Qed.

Lemma comparator_eq a b : (comparator_ a b =? 0) = (a =? b).
Proof.
  unfold comparator_.
  destruct (Z.ltb_spec a b), (Z.eqb_spec a b); simpl; try done; lia.
Qed.

Lemma comparator_gt a b : (0 <? comparator_ a b) = (b <? a).
Proof.
  unfold comparator_.
  destruct (Z.ltb_spec a b), (Z.eqb_spec a b), (Z.ltb_spec b a); simpl; try done; lia.
Qed.

Lemma comparator_eq_0 a b : comparator_ a b = 0 ↔ a = b.
Proof.
  unfold comparator_.
  destruct (Z.ltb_spec a b), (Z.eqb_spec a b); split; intros; try done; lia.
Qed.

(** The search ends at the boundary of any split of the interval into
    keys below [key] and keys not below it. *)
Lemma lower_bound_loop_spec rounds p key left right b :
  0 ≤ left → left ≤ b ≤ right → right - left ≤ Z.of_nat rounds →
  (∀ i, left ≤ i < b → KeyAt p i < key) →
  (∀ i, b ≤ i < right → key ≤ KeyAt p i) →
  lower_bound_loop rounds p key left right = b.
Proof.
  revert left right. induction rounds as [|n IH]; intros left right Hl Hb Hr Hlow Hhigh; simpl.
  { lia. }
  destruct (Z.ltb_spec left right) as [Hlt|Hge]; [|lia].
  assert (Hmid : left ≤ (left + right) / 2 < right).
  { split; [apply Z.div_le_lower_bound; lia|apply Z.div_lt_upper_bound; lia]. }
  rewrite comparator_le.
  destruct (Z.leb_spec key (KeyAt p ((left + right) / 2))) as [Hle|Hgt].
  - apply IH; [lia| |lia|done|].
    + split; [lia|]. destruct (Z.le_gt_cases b ((left + right) / 2)); [done|].
      specialize (Hlow ((left + right) / 2)). lia.
    + intros i Hi. apply Hhigh. lia.
  - apply IH; [lia| |lia| |done].
    + split; [|lia]. destruct (Z.le_gt_cases ((left + right) / 2 + 1) b); [done|].
      specialize (Hhigh ((left + right) / 2)). lia.
    + intros i Hi. apply Hlow. lia.
Qed.

Lemma KeyAt_app_l p (l1 l2 : list (Z * Z)) i :
  array_ p = l1 ++ l2 → 0 ≤ i < Z.of_nat (length l1) →
  KeyAt p i ∈ l1.*1.
Proof.
  intros Ha Hi. unfold KeyAt. rewrite Ha, app_nth1 by lia.
  apply list_elem_of_fmap. exists (nth (Z.to_nat i) l1 (0, 0)). split; [done|].
  apply list_elem_of_In, nth_In. lia.
Qed.

Lemma KeyAt_app_r p (l1 l2 : list (Z * Z)) i :
  array_ p = l1 ++ l2 → Z.of_nat (length l1) ≤ i < Z.of_nat (length (l1 ++ l2)) →
  KeyAt p i ∈ l2.*1.
Proof.
  intros Ha Hi. rewrite length_app in Hi. unfold KeyAt. rewrite Ha, app_nth2 by lia.
  apply list_elem_of_fmap. exists (nth (Z.to_nat i - length l1) l2 (0, 0)). split; [done|].
  apply list_elem_of_In, nth_In. lia.
Qed.

Lemma KeyAt_middle p (l1 l2 : list (Z * Z)) k v :
  array_ p = l1 ++ (k, v) :: l2 → KeyAt p (Z.of_nat (length l1)) = k.
Proof.
  intros Ha. unfold KeyAt. rewrite Ha, Nat2Z.id, nth_middle. done.
Qed.

Lemma ValueAt_middle p (l1 l2 : list (Z * Z)) k v :
  array_ p = l1 ++ (k, v) :: l2 → ValueAt p (Z.of_nat (length l1)) = v.
Proof.
  intros Ha. unfold ValueAt. rewrite Ha, Nat2Z.id, nth_middle. done.
Qed.

Lemma Leaf_LowerBound_split p (l1 l2 : list (Z * Z)) key :
  array_ p = l1 ++ l2 →
  Forall (λ k, k < key) (l1.*1) → Forall (λ k, key ≤ k) (l2.*1) →
  Leaf_LowerBound p key = Z.of_nat (length l1).
Proof.
  intros Ha H1 H2. unfold Leaf_LowerBound, GetSize.
  apply lower_bound_loop_spec; try lia.
  - rewrite Ha, length_app. lia.
  - intros i Hi. eapply Forall_forall in H1; [done|]. by eapply KeyAt_app_l.
  - intros i Hi. eapply Forall_forall in H2; [done|]. eapply KeyAt_app_r; [done|].
    rewrite <- Ha. lia.
Qed.

(** In an internal page the search starts at slot 1. *)
Lemma Internal_LowerBound_split p a (l1 l2 : list (Z * Z)) key :
  array_ p = a :: l1 ++ l2 →
  Forall (λ k, k < key) (l1.*1) → Forall (λ k, key ≤ k) (l2.*1) →
  Internal_LowerBound p key = Z.of_nat (S (length l1)).
Proof.
  intros Ha H1 H2. unfold Internal_LowerBound, GetSize.
  assert (Ha' : array_ p = (a :: l1) ++ l2) by done.
  apply lower_bound_loop_spec; try lia.
  - rewrite Ha. simpl. rewrite length_app. lia.
  - intros i Hi. unfold KeyAt. rewrite Ha.
    replace (Z.to_nat i) with (S (Z.to_nat i - 1)) by lia. simpl.
    rewrite app_nth1 by lia. eapply Forall_forall in H1; [done|].
    apply list_elem_of_fmap. eexists. split; [done|]. apply list_elem_of_In, nth_In. lia.
  - intros i Hi. eapply Forall_forall in H2; [done|]. eapply (KeyAt_app_r _ (a :: l1)); [done|].
    rewrite <- Ha'. simpl in *. lia.
Qed.

Lemma insert_at_app (l1 l2 : list (Z * Z)) kv :
  insert_at (Z.of_nat (length l1)) kv (l1 ++ l2) = l1 ++ kv :: l2.
Proof.
  unfold insert_at. rewrite Nat2Z.id, take_app_length, drop_app_length. done.
Qed.

(** Strictly increasing keys within bounds; [None] is no bound. *)
Definition above (lo : option Z) (k : Z) : Prop :=
  match lo with Some l => l ≤ k | None => True end.
Definition below (k : Z) (hi : option Z) : Prop :=
  match hi with Some h => k < h | None => True end.
Definition blt (lo hi : option Z) : Prop :=
  match lo, hi with Some l, Some h => l < h | _, _ => True end.

Definition sorted_in (lo : option Z) (ks : list Z) (hi : option Z) : Prop :=
  StronglySorted Z.lt ks ∧ Forall (λ k, above lo k ∧ below k hi) ks.

(** A sorted list splits at any key. *)
Lemma sorted_split (l : list (Z * Z)) key :
  StronglySorted Z.lt l.*1 →
  ∃ l1 l2, l = l1 ++ l2 ∧ Forall (λ k, k < key) (l1.*1) ∧ Forall (λ k, key ≤ k) (l2.*1).
Proof.
  induction l as [|[k v] l IH]; intros Hs.
  { exists [], []. repeat split; constructor. }
  simpl in Hs. apply StronglySorted_inv in Hs as [Hs Hall].
  destruct (Z.lt_ge_cases k key) as [Hlt|Hge].
  - destruct (IH Hs) as (l1 & l2 & -> & H1 & H2).
    exists ((k, v) :: l1), l2. split; [done|]. split; [|done]. by constructor.
  - exists [], ((k, v) :: l). split; [done|]. split; [constructor|].
    simpl. constructor; [lia|]. eapply Forall_impl; [done|]. simpl. lia.
Qed.

Lemma Leaf_Insert_spec p key value :
  StronglySorted Z.lt (array_ p).*1 →
  (key ∈ (array_ p).*1 ∧ Leaf_Insert p key value = (p, false)) ∨
  (key ∉ (array_ p).*1 ∧
   ∃ l1 l2, array_ p = l1 ++ l2 ∧
     Forall (λ k, k < key) (l1.*1) ∧ Forall (λ k, key < k) (l2.*1) ∧
     Leaf_Insert p key value = (set_array p (l1 ++ (key, value) :: l2), true)).
Proof.
  intros Hs. destruct (sorted_split _ key Hs) as (l1 & l2 & Ha & H1 & H2).
  unfold Leaf_Insert. rewrite (Leaf_LowerBound_split p l1 l2 key Ha H1 H2).
  rewrite comparator_eq. unfold GetSize.
  assert (Hnot1 : key ∉ l1.*1).
  { intros Hin. eapply Forall_forall in H1; [|done]. lia. }
  destruct l2 as [|[k v] l2].
  - right. rewrite app_nil_r in Ha. rewrite Ha. split; [done|].
    exists l1, []. rewrite app_nil_r. split; [done|]. split; [done|]. split; [constructor|].
    rewrite (proj2 (Z.ltb_ge _ _)) by lia. simpl.
    rewrite <- (app_nil_r l1) at 2. rewrite insert_at_app. done.
  - rewrite (KeyAt_middle p l1 l2 k v Ha). rewrite Ha in Hs |- *.
    rewrite (proj2 (Z.ltb_lt _ _)) by (rewrite length_app; simpl; lia).
    simpl. destruct (Z.eqb_spec key k) as [->|Hne].
    + left. split; [|done]. rewrite fmap_app. apply elem_of_app. right. left.
    + right. simpl in H2. apply Forall_cons in H2 as [Hk H2].
      assert (Hs2 : StronglySorted Z.lt (((k, v) :: l2).*1)).
      { rewrite fmap_app in Hs. by apply StronglySorted_app_1_r in Hs. }
      simpl in Hs2. apply StronglySorted_inv in Hs2 as [_ Hall].
      assert (Hgt : Forall (λ k0, key < k0) (((k, v) :: l2).*1)).
      { simpl. constructor; [lia|]. eapply Forall_impl; [done|]. simpl. lia. }
      split.
      * rewrite fmap_app. intros Hin. apply elem_of_app in Hin as [Hin|Hin]; [done|].
        eapply Forall_forall in Hgt; [|done]. lia.
      * exists l1, ((k, v) :: l2). split; [done|]. split; [done|]. split; [done|].
        by rewrite insert_at_app.
Qed.

Lemma Leaf_Remove_spec p key :
  StronglySorted Z.lt (array_ p).*1 →
  (key ∉ (array_ p).*1 ∧ Leaf_Remove p key = (p, false)) ∨
  (∃ l1 v l2, array_ p = l1 ++ (key, v) :: l2 ∧
     Leaf_Remove p key = (set_array p (l1 ++ l2), true)).
Proof.
  intros Hs. destruct (sorted_split _ key Hs) as (l1 & l2 & Ha & H1 & H2).
  unfold Leaf_Remove. rewrite (Leaf_LowerBound_split p l1 l2 key Ha H1 H2).
  rewrite comparator_eq. unfold GetSize.
  assert (Hnot1 : key ∉ l1.*1).
  { intros Hin. eapply Forall_forall in H1; [|done]. lia. }
  destruct l2 as [|[k v] l2].
  - left. rewrite app_nil_r in Ha. rewrite Ha. split; [done|].
    rewrite (proj2 (Z.ltb_ge _ _)) by lia. done.
  - rewrite (KeyAt_middle p l1 l2 k v Ha). rewrite Ha in Hs |- *.
    rewrite (proj2 (Z.ltb_lt _ _)) by (rewrite length_app; simpl; lia).
    simpl. destruct (Z.eqb_spec key k) as [->|Hne].
    + right. exists l1, v, l2. split; [done|].
      rewrite Nat2Z.id. f_equal. f_equal.
      rewrite delete_middle. done.
    + left. split; [|done]. simpl in H2. apply Forall_cons in H2 as [Hk H2].
      assert (Hs2 : StronglySorted Z.lt (((k, v) :: l2).*1)).
      { rewrite fmap_app in Hs. by apply StronglySorted_app_1_r in Hs. }
      simpl in Hs2. apply StronglySorted_inv in Hs2 as [_ Hall].
      rewrite fmap_app. intros Hin. apply elem_of_app in Hin as [Hin|Hin]; [done|].
      simpl in Hin. apply elem_of_cons in Hin as [->|Hin]; [done|].
      eapply Forall_forall in Hall; [|done]. lia.
Qed.

(** *** The shape of a tree

    The pages of a tree are described by a ghost table: for every page of
    the tree its parent, its height (0 for a leaf), the bounds of its
    keys, the first leaf below it and the leaf that follows the last leaf
    below it. *)

Record ginfo := mkG {
  g_parent : page_id_t;
  g_h : nat;
  g_lo : option Z;
  g_hi : option Z;
  g_first : page_id_t;
  g_next : page_id_t
}.

#[global] Instance ginfo_eq_dec : EqDecision ginfo.
Proof. solve_decision. Defined.

Local Notation ghost := (gmap Z ginfo).

(** [c] is a child of [P] with the given height, bounds and links. *)
Definition child (G : ghost) (P : page_id_t) (h : nat) (lo : option Z) (c : page_id_t)
    (hi : option Z) (fst nxt : page_id_t) : Prop :=
  ∃ g, G !! c = Some g ∧ g_parent g = P ∧ g_h g = h ∧ g_lo g = lo ∧ g_hi g = hi ∧
       g_first g = fst ∧ g_next g = nxt.

(** The children of an internal page, left to right: the key of a slot is
    the lower bound of its child and the upper bound of the child before. *)
Fixpoint chain (G : ghost) (P : page_id_t) (h : nat) (lo : option Z) (arr : list (Z * Z))
    (hi : option Z) (fst nxt : page_id_t) : Prop :=
  match arr with
  | [] => False
  | (_, c) :: rest =>
      match rest with
      | [] => child G P h lo c hi fst nxt
      | (k', _) :: _ =>
          ∃ mid, child G P h lo c (Some k') fst mid ∧ chain G P h (Some k') rest hi mid nxt
      end
  end.

Inductive exc :=
| NoExc
| Over (p : page_id_t)
| Under (p : page_id_t)
| Slack (f : page_id_t → Z * Z).

Definition slack_hi (e : exc) (p : page_id_t) : Z :=
  match e with
  | Over q => if decide (q = p) then 1 else 0
  | Slack f => Z.max 0 (f p).2
  | _ => 0
  end.
Definition slack_lo (e : exc) (p : page_id_t) : Z :=
  match e with
  | Under q => if decide (q = p) then 1 else 0
  | Slack f => Z.max 0 (f p).1
  | _ => 0
  end.

Definition is_root (g : ginfo) : bool := g_parent g =? INVALID_PAGE_ID.

(** Bounds of the size of a page: a leaf holds between [max / 2] and
    [max - 1] pairs, an internal page between [(max + 1) / 2] and [max];
    a root leaf holds at least one pair and a root internal page at least
    two.  The page named by [e] may be off by one. *)
Definition size_ok (t : BPlusTree) (e : exc) (p : page_id_t) (g : ginfo) (pg : Page) : Prop :=
  match g_h g with
  | O => (if is_root g then 1 else leaf_max_size_ t / 2) - slack_lo e p ≤ GetSize pg ∧
         GetSize pg ≤ leaf_max_size_ t - 1 + slack_hi e p
  | S _ => (if is_root g then 2 else (internal_max_size_ t + 1) / 2) - slack_lo e p ≤ GetSize pg ∧
           GetSize pg ≤ internal_max_size_ t + slack_hi e p
  end.

Definition shape (t : BPlusTree) (G : ghost) (p : page_id_t) (g : ginfo) (pg : Page) : Prop :=
  match g_h g with
  | O => page_type_ pg = LEAF_PAGE ∧ max_size_ pg = leaf_max_size_ t ∧
         next_page_id_ pg = g_next g ∧ g_first g = p ∧
         sorted_in (g_lo g) ((array_ pg).*1) (g_hi g)
  | S h' => page_type_ pg = INTERNAL_PAGE ∧ max_size_ pg = internal_max_size_ t ∧
            chain G p h' (g_lo g) (array_ pg) (g_hi g) (g_first g) (g_next g)
  end.

Record node_ok (t : BPlusTree) (G : ghost) (e : exc) (p : page_id_t) (g : ginfo) (pg : Page)
  : Prop := {
  no_id : page_id_ pg = p;
  no_parent : parent_page_id_ pg = g_parent g;
  no_alloc : 1 ≤ p < alloc_ t;
  no_blt : blt (g_lo g) (g_hi g);
  no_size : size_ok t e p g pg;
  no_shape : shape t G p g pg
}.

Section Invariant.

Variable INTERNAL_PAGE_SIZE : Z.

(** [tops] are the pages without a parent, as the array of a page above
    the root: at rest there is one, the root, of height [hr]. *)
Record inv (t : BPlusTree) (G : ghost) (e : exc) (hr : nat) (tops : list (Z * Z)) : Prop := {
  inv_lmax : 2 ≤ leaf_max_size_ t;
  inv_imax : 3 ≤ internal_max_size_ t ≤ INTERNAL_PAGE_SIZE;
  inv_fuel : Z.of_nat hr + 2 ≤ alloc_ t;
  inv_tops : ∃ fst, chain G INVALID_PAGE_ID hr None tops None fst INVALID_PAGE_ID;
  inv_height : ∀ p g, G !! p = Some g → (g_h g ≤ hr)%nat;
  inv_node : ∀ p g, G !! p = Some g →
    ∃ pg, pages_ t !! p = Some pg ∧ node_ok t G e p g pg;
  inv_top : ∀ p g, G !! p = Some g → g_parent g = INVALID_PAGE_ID → p ∈ tops.*2;
  inv_up : ∀ p g, G !! p = Some g → g_parent g ≠ INVALID_PAGE_ID →
    ∃ gP pgP k, G !! g_parent g = Some gP ∧ g_h gP = S (g_h g) ∧
                pages_ t !! g_parent g = Some pgP ∧ (k, p) ∈ array_ pgP
}.

(** The pairs of the leaves. *)
Definition contents (t : BPlusTree) (G : ghost) (kv : Z * Z) : Prop :=
  ∃ p g pg, G !! p = Some g ∧ g_h g = O ∧ pages_ t !! p = Some pg ∧ kv ∈ array_ pg.

(** The pairs of the leaves make up the finite map [M]. *)
Definition abs (t : BPlusTree) (G : ghost) (M : gmap Z Z) : Prop :=
  ∀ k v, M !! k = Some v ↔ contents t G (k, v).

(** A tree at rest. *)
Definition Inv (t : BPlusTree) (M : gmap Z Z) : Prop :=
  page_set_ t = [] ∧ deleted_page_set_ t = [] ∧
  2 ≤ leaf_max_size_ t ∧ 3 ≤ internal_max_size_ t ≤ INTERNAL_PAGE_SIZE ∧ 1 ≤ alloc_ t ∧
  if decide (root_page_id_ t = INVALID_PAGE_ID) then M = ∅
  else ∃ G hr, inv t G NoExc hr [(0, root_page_id_ t)] ∧ abs t G M.

End Invariant.

(** **** Chains *)

Lemma child_frame (G G' : ghost) P h lo c hi fst nxt :
  child G P h lo c hi fst nxt → G' !! c = G !! c → child G' P h lo c hi fst nxt.
Proof. intros (g & Hg & H) Heq. exists g. by rewrite Heq. Qed.

Lemma chain_frame (G G' : ghost) P h lo arr hi fst nxt :
  chain G P h lo arr hi fst nxt →
  (∀ c, c ∈ arr.*2 → G' !! c = G !! c) →
  chain G' P h lo arr hi fst nxt.
Proof.
  revert lo fst. induction arr as [|[k c] rest IH]; intros lo fst Hc Heq; [done|].
  simpl in *. destruct rest as [|[k' c'] rest'].
  - eapply child_frame; [done|]. apply Heq. left.
  - destruct Hc as (mid & Hch & Hrest). exists mid. split.
    + eapply child_frame; [done|]. apply Heq. left.
    + apply IH; [done|]. intros x Hx. apply Heq. by right.
Qed.

Lemma chain_cons (G : ghost) P h lo k c k' c' rest hi fst nxt :
  chain G P h lo ((k, c) :: (k', c') :: rest) hi fst nxt ↔
  ∃ mid, child G P h lo c (Some k') fst mid ∧
         chain G P h (Some k') ((k', c') :: rest) hi mid nxt.
Proof. done. Qed.

Lemma chain_one (G : ghost) P h lo k c hi fst nxt :
  chain G P h lo [(k, c)] hi fst nxt ↔ child G P h lo c hi fst nxt.
Proof. done. Qed.

Lemma chain_key_irrel (G : ghost) P h lo k k0 c rest hi fst nxt :
  chain G P h lo ((k, c) :: rest) hi fst nxt → chain G P h lo ((k0, c) :: rest) hi fst nxt.
Proof. done. Qed.

Lemma chain_children (G : ghost) P h lo arr hi fst nxt c :
  chain G P h lo arr hi fst nxt → c ∈ arr.*2 →
  ∃ g, G !! c = Some g ∧ g_parent g = P ∧ g_h g = h.
Proof.
  revert lo fst. induction arr as [|[k c0] rest IH]; intros lo fst Hc Hin; [done|].
  simpl in *. apply elem_of_cons in Hin as [->|Hin].
  - destruct rest as [|[k' c'] rest'].
    + destruct Hc as (g & ? & ? & ? & _). eauto.
    + destruct Hc as (mid & (g & ? & ? & ? & _) & _). eauto.
  - destruct rest as [|[k' c'] rest']; [inversion Hin|].
    destruct Hc as (mid & _ & Hrest). by eapply IH.
Qed.

(** A chain over [l1 ++ X] is a chain over [l1] followed by a chain over
    [X]: the split and the merge of an internal page. *)
Lemma chain_app (G : ghost) P h lo l1 kX cX X hi fst nxt :
  l1 ≠ [] →
  chain G P h lo (l1 ++ (kX, cX) :: X) hi fst nxt ↔
  ∃ mid, chain G P h lo l1 (Some kX) fst mid ∧
         chain G P h (Some kX) ((kX, cX) :: X) hi mid nxt.
Proof.
  revert lo fst. induction l1 as [|[k c] l1 IH]; intros lo fst Hne; [done|].
  destruct l1 as [|[k1 c1] l1].
  - simpl. done.
  - specialize (IH (Some k1)). simpl in *. split.
    + intros (mid & Hch & Hrest). apply IH in Hrest as (mid' & H1 & H2); [|done].
      exists mid'. split; [|done]. exists mid. done.
    + intros (mid' & (mid & Hch & H1) & H2). exists mid. split; [done|].
      apply IH; [done|]. exists mid'. done.
Qed.

(** The first and the last child. *)
Lemma chain_first (G : ghost) P h lo k c rest hi fst nxt :
  chain G P h lo ((k, c) :: rest) hi fst nxt →
  ∃ g, G !! c = Some g ∧ g_parent g = P ∧ g_h g = h ∧ g_lo g = lo ∧ g_first g = fst.
Proof.
  simpl. destruct rest as [|[k' c'] rest'].
  - intros (g & ? & ? & ? & ? & ? & ? & ?). eauto 10.
  - intros (mid & (g & ? & ? & ? & ? & ? & ? & ?) & _). eauto 10.
Qed.

Lemma chain_last (G : ghost) P h lo l k c hi fst nxt :
  chain G P h lo (l ++ [(k, c)]) hi fst nxt →
  ∃ g, G !! c = Some g ∧ g_parent g = P ∧ g_h g = h ∧ g_hi g = hi ∧ g_next g = nxt ∧
       (l ≠ [] → g_lo g = Some k).
Proof.
  destruct (decide (l = [])) as [->|Hne].
  - simpl. intros (g & ? & ? & ? & ? & ? & ? & ?). exists g. by repeat split.
  - intros Hc. apply chain_app in Hc as (mid & _ & Hc); [|done]. simpl in Hc.
    destruct Hc as (g & ? & ? & ? & ? & ? & ? & ?). exists g. by repeat split.
Qed.

(** Keys of a chain whose children have non-empty ranges. *)
Lemma chain_keys (G : ghost) P h lo k c rest hi fst nxt :
  (∀ c g, G !! c = Some g → blt (g_lo g) (g_hi g)) →
  chain G P h lo ((k, c) :: rest) hi fst nxt →
  StronglySorted Z.lt (rest.*1) ∧
  Forall (λ k', blt lo (Some k') ∧ blt (Some k') hi) (rest.*1) ∧ blt lo hi.
Proof.
  intros Hblt. revert lo k c fst. induction rest as [|[k' c'] rest IH]; intros lo k c fst Hc.
  - simpl in *. split; [constructor|]. split; [constructor|].
    destruct Hc as (g & Hg & _ & _ & <- & <- & _). by eapply Hblt.
  - apply chain_cons in Hc as (mid & (g & Hg & _ & _ & Hlo & Hhi & _) & Hrest).
    pose proof (Hblt _ _ Hg) as Hb. rewrite Hlo, Hhi in Hb.
    destruct (IH _ _ _ _ Hrest) as (Hs & Hall & Hb').
    assert (Hlt : Forall (λ k'', k' < k'') (rest.*1)).
    { eapply Forall_impl; [exact Hall|]. simpl. intros x [Hx _]. done. }
    split; [simpl; by constructor|]. split.
    + simpl. constructor; [done|].
      eapply Forall_impl; [exact Hall|]. simpl. intros x [Hx Hx'].
      split; [|done]. destruct lo; simpl in *; lia.
    + destruct lo, hi; simpl in *; try done. lia.
Qed.

(** **** A child in the middle of a chain *)

Definition lo_at (lo : option Z) (l1 : list (Z * Z)) (k : Z) : option Z :=
  match l1 with [] => lo | _ => Some k end.

Definition hi_at (l2 : list (Z * Z)) (hi : option Z) : option Z :=
  match l2 with [] => hi | (k2, _) :: _ => Some k2 end.

Definition pchain (G : ghost) (P : page_id_t) (h : nat) (lo : option Z) (l1 : list (Z * Z))
    (k : Z) (fst m1 : page_id_t) : Prop :=
  match l1 with [] => m1 = fst | _ => chain G P h lo l1 (Some k) fst m1 end.

Definition schain (G : ghost) (P : page_id_t) (h : nat) (l2 : list (Z * Z))
    (hi : option Z) (m2 nxt : page_id_t) : Prop :=
  match l2 with [] => m2 = nxt | (k2, _) :: _ => chain G P h (Some k2) l2 hi m2 nxt end.

Lemma chain_middle (G : ghost) P h lo l1 k c l2 hi fst nxt :
  chain G P h lo (l1 ++ (k, c) :: l2) hi fst nxt ↔
  ∃ m1 m2, pchain G P h lo l1 k fst m1 ∧
           child G P h (lo_at lo l1 k) c (hi_at l2 hi) m1 m2 ∧
           schain G P h l2 hi m2 nxt.
Proof.
  assert (Hhead : ∀ lo fst, chain G P h lo ((k, c) :: l2) hi fst nxt ↔
            ∃ m2, child G P h lo c (hi_at l2 hi) fst m2 ∧ schain G P h l2 hi m2 nxt).
  { intros lo' fst'. destruct l2 as [|[k2 c2] l2].
    - rewrite chain_one. simpl. split; [intros ?; by exists nxt|by intros (? & ? & ->)].
    - rewrite chain_cons. done. }
  destruct l1 as [|a l1].
  - rewrite app_nil_l, Hhead. unfold pchain, lo_at. split.
    + intros (m2 & ? & ?). by exists fst, m2.
    + intros (m1 & m2 & -> & ? & ?). by exists m2.
  - rewrite chain_app by done. split.
    + intros (mid & Hp & Hs). apply Hhead in Hs as (m2 & ? & ?). by exists mid, m2.
    + intros (m1 & m2 & Hp & Hc & Hs). exists m1. split; [done|].
      apply Hhead. by exists m2.
Qed.

Lemma pchain_frame (G G' : ghost) P h lo l1 k fst m1 :
  pchain G P h lo l1 k fst m1 →
  (∀ c, c ∈ l1.*2 → G' !! c = G !! c) →
  pchain G' P h lo l1 k fst m1.
Proof. destruct l1; [done|]. apply chain_frame. Qed.

Lemma schain_frame (G G' : ghost) P h l2 hi m2 nxt :
  schain G P h l2 hi m2 nxt →
  (∀ c, c ∈ l2.*2 → G' !! c = G !! c) →
  schain G' P h l2 hi m2 nxt.
Proof. destruct l2 as [|[??] ?]; [done|]. apply chain_frame. Qed.

(** **** Search in a chain *)

Definition all_blt (G : ghost) : Prop :=
  ∀ c g, G !! c = Some g → blt (g_lo g) (g_hi g).

(** The child found for [key] is the one child whose range holds [key]. *)
Lemma chain_find_child_unique (G : ghost) P h lo k0 c0 rest hi fst nxt key c g :
  all_blt G →
  chain G P h lo ((k0, c0) :: rest) hi fst nxt →
  c ∈ ((k0, c0) :: rest).*2 → G !! c = Some g →
  above (g_lo g) key → below key (g_hi g) →
  find_child key c0 rest = c ∧ above lo key ∧ below key hi.
Proof.
  intros Hblt. revert lo k0 c0 fst.
  induction rest as [|[k' c'] rest IH]; intros lo k0 c0 fst Hc Hin Hg Ha Hb.
  - apply chain_one in Hc as (g' & Hg' & _ & _ & Hlo & Hhi & _).
    simpl in Hin. apply list_elem_of_singleton in Hin as ->.
    rewrite Hg in Hg'. injection Hg' as <-. by rewrite <- Hlo, <- Hhi.
  - pose proof (chain_keys _ _ _ _ _ _ _ _ _ _ Hblt Hc) as (_ & _ & Hlohi).
    apply chain_cons in Hc as (mid & (g0 & Hg0 & _ & _ & Hlo0 & Hhi0 & _) & Hrest).
    pose proof (chain_keys _ _ _ _ _ _ _ _ _ _ Hblt Hrest) as (_ & _ & Hk'hi).
    pose proof (Hblt _ _ Hg0) as Hb0. rewrite Hlo0, Hhi0 in Hb0.
    simpl. rewrite comparator_gt.
    simpl in Hin. apply elem_of_cons in Hin as [->|Hin].
    + rewrite Hg in Hg0. injection Hg0 as <-. rewrite Hlo0 in Ha. rewrite Hhi0 in Hb.
      simpl in Hb. rewrite (proj2 (Z.ltb_lt _ _)) by done.
      split; [done|]. split; [done|]. destruct hi; simpl in *; [lia|done].
    + destruct (IH (Some k') k' c' mid Hrest Hin Hg Ha Hb) as (Hf & Ha' & Hb').
      simpl in Ha'. rewrite (proj2 (Z.ltb_ge _ _)) by done.
      split; [done|]. split; [|done]. destruct lo; simpl in *; [lia|done].
Qed.

Lemma chain_find_child (G : ghost) P h lo k0 c0 rest hi fst nxt key :
  chain G P h lo ((k0, c0) :: rest) hi fst nxt →
  above lo key → below key hi →
  ∃ g, G !! find_child key c0 rest = Some g ∧ g_parent g = P ∧ g_h g = h ∧
       above (g_lo g) key ∧ below key (g_hi g) ∧
       find_child key c0 rest ∈ ((k0, c0) :: rest).*2.
Proof.
  revert lo k0 c0 fst. induction rest as [|[k' c'] rest IH]; intros lo k0 c0 fst Hc Ha Hb.
  - apply chain_one in Hc as (g' & Hg' & ? & ? & Hlo & Hhi & _).
    exists g'. simpl. rewrite Hlo, Hhi. repeat split; try done. left.
  - apply chain_cons in Hc as (mid & (g0 & Hg0 & ? & ? & Hlo0 & Hhi0 & _) & Hrest).
    simpl. rewrite comparator_gt. destruct (Z.ltb_spec key k').
    + exists g0. rewrite Hlo0, Hhi0. repeat split; try done. left.
    + destruct (IH (Some k') k' c' mid Hrest) as (g & ? & ? & ? & ? & ? & ?); [done..|].
      exists g. repeat split; try done. by right.
Qed.

(** A key in the range of a child is in the range of the chain. *)
Lemma chain_range_sub (G : ghost) P h lo arr hi fst nxt key c g :
  all_blt G →
  chain G P h lo arr hi fst nxt →
  c ∈ arr.*2 → G !! c = Some g →
  above (g_lo g) key → below key (g_hi g) →
  above lo key ∧ below key hi.
Proof.
  intros Hblt Hc Hin Hg Ha Hb. destruct arr as [|[k0 c0] rest]; [done|].
  by destruct (chain_find_child_unique _ _ _ _ _ _ _ _ _ _ _ _ _ Hblt Hc Hin Hg Ha Hb)
    as (_ & ? & ?).
Qed.

(** Two children of a chain with a common key are one. *)
Lemma chain_disjoint (G : ghost) P h lo arr hi fst nxt key c g c' g' :
  all_blt G →
  chain G P h lo arr hi fst nxt →
  c ∈ arr.*2 → G !! c = Some g → above (g_lo g) key → below key (g_hi g) →
  c' ∈ arr.*2 → G !! c' = Some g' → above (g_lo g') key → below key (g_hi g') →
  c = c'.
Proof.
  intros Hblt Hc Hin Hg Ha Hb Hin' Hg' Ha' Hb'. destruct arr as [|[k0 c0] rest]; [done|].
  destruct (chain_find_child_unique _ _ _ _ _ _ _ _ _ _ _ _ _ Hblt Hc Hin Hg Ha Hb)
    as (<- & _).
  by destruct (chain_find_child_unique _ _ _ _ _ _ _ _ _ _ _ _ _ Hblt Hc Hin' Hg' Ha' Hb')
    as (<- & _).
Qed.

(** A key in a non-empty range. *)
Definition some_key (lo hi : option Z) : Z :=
  match lo, hi with
  | Some l, _ => l
  | None, Some h => h - 1
  | None, None => 0
  end.

Lemma some_key_in lo hi : blt lo hi → above lo (some_key lo hi) ∧ below (some_key lo hi) hi.
Proof. destruct lo, hi; simpl; lia. Qed.

Lemma chain_NoDup (G : ghost) P h lo arr hi fst nxt :
  all_blt G → chain G P h lo arr hi fst nxt → NoDup (arr.*2).
Proof.
  intros Hblt. revert lo fst. induction arr as [|[k c] rest IH]; intros lo fst Hc.
  - constructor.
  - simpl. constructor.
    + intros Hin. destruct rest as [|[k' c'] rest]; [by inversion Hin|].
      apply chain_cons in Hc as (mid & (g & Hg & _ & _ & Hlo & Hhi & _) & Hrest).
      pose proof (Hblt _ _ Hg) as Hb.
      destruct (some_key_in _ _ Hb) as [Ha1 Hb1].
      destruct (chain_range_sub _ _ _ _ _ _ _ _ _ _ _ Hblt Hrest Hin Hg Ha1 Hb1) as [Ha2 _].
      generalize dependent (some_key (g_lo g) (g_hi g)). intros x _ Hb1 Ha2.
      rewrite Hhi in Hb1. simpl in *. lia.
    + destruct rest as [|[k' c'] rest]; [constructor|].
      apply chain_cons in Hc as (mid & _ & Hrest). by eapply IH.
Qed.

Lemma find_index_middle (l1 l2 : list (Z * Z)) k c i :
  c ∉ l1.*2 → find_index c i (l1 ++ (k, c) :: l2) = i + Z.of_nat (length l1).
Proof.
  revert i. induction l1 as [|[k1 c1] l1 IH]; intros i Hn; simpl.
  - rewrite Z.eqb_refl. lia.
  - simpl in Hn. apply not_elem_of_cons in Hn as [Hne Hn].
    rewrite (proj2 (Z.eqb_neq _ _)) by done. rewrite IH by done. lia.
Qed.

Lemma FindIndex_middle p (l1 l2 : list (Z * Z)) k c :
  array_ p = l1 ++ (k, c) :: l2 → NoDup ((array_ p).*2) →
  FindIndex p c = Z.of_nat (length l1).
Proof.
  intros Ha Hnd. unfold FindIndex. rewrite Ha in *. rewrite find_index_middle; [lia|].
  rewrite fmap_app in Hnd. apply NoDup_app in Hnd as (_ & Hd & _).
  intros Hin. apply (Hd _ Hin). simpl. left.
Qed.

Lemma chain_sorted_tail (G : ghost) P h lo arr hi fst nxt :
  all_blt G → chain G P h lo arr hi fst nxt → StronglySorted Z.lt (tail (arr.*1)).
Proof.
  intros Hblt Hc. destruct arr as [|[k c] rest]; [done|].
  by destruct (chain_keys _ _ _ _ _ _ _ _ _ _ Hblt Hc) as (? & _).
Qed.

(** **** Consequences of the invariant *)

Section Search.

Variable INTERNAL_PAGE_SIZE : Z.

Local Notation inv := (inv INTERNAL_PAGE_SIZE).

Lemma node_ok_ext t t' G e p g pg :
  node_ok t G e p g pg →
  leaf_max_size_ t' = leaf_max_size_ t →
  internal_max_size_ t' = internal_max_size_ t →
  alloc_ t ≤ alloc_ t' →
  node_ok t' G e p g pg.
Proof.
  intros [] Hl Hi Ha. split; try done; [lia| |].
  - unfold size_ok in *. by rewrite Hl, Hi.
  - unfold shape in *. by rewrite Hl, Hi.
Qed.

Lemma inv_ext t t' G e hr tops :
  inv t G e hr tops →
  leaf_max_size_ t' = leaf_max_size_ t →
  internal_max_size_ t' = internal_max_size_ t →
  alloc_ t ≤ alloc_ t' →
  pages_ t' = pages_ t →
  inv t' G e hr tops.
Proof.
  intros [] Hl Hi Ha Hp. split; try done.
  - by rewrite Hl.
  - by rewrite Hi.
  - lia.
  - intros p g Hg. destruct (inv_node0 p g Hg) as (pg & ? & ?).
    exists pg. rewrite Hp. split; [done|]. by eapply node_ok_ext.
  - intros p g Hg Hne. rewrite Hp. by apply inv_up0.
Qed.

Lemma inv_all_blt t G e hr tops : inv t G e hr tops → all_blt G.
Proof.
  intros Hinv c g Hg. destruct (inv_node _ _ _ _ _ _ Hinv c g Hg) as (pg & _ & []). done.
Qed.

Lemma inv_root t G e hr k r :
  inv t G e hr [(k, r)] →
  ∃ g, G !! r = Some g ∧ g_parent g = INVALID_PAGE_ID ∧ g_h g = hr ∧
       g_lo g = None ∧ g_hi g = None ∧ g_next g = INVALID_PAGE_ID.
Proof.
  intros Hinv. destruct (inv_tops _ _ _ _ _ _ Hinv) as (fst & Hc).
  apply chain_one in Hc as (g & ? & ? & ? & ? & ? & ? & ?). exists g. done.
Qed.

Lemma inv_page t G e hr tops p g :
  inv t G e hr tops → G !! p = Some g →
  ∃ pg, pages_ t !! p = Some pg ∧ FetchPage t p = Ok pg ∧ node_ok t G e p g pg.
Proof.
  intros Hinv Hg. destruct (inv_node _ _ _ _ _ _ Hinv p g Hg) as (pg & Hp & Hok).
  exists pg. by rewrite (FetchPage_ok _ _ _ Hp).
Qed.

Lemma node_ok_leaf t G e p g pg :
  node_ok t G e p g pg → (IsLeafPage pg = true ↔ g_h g = O).
Proof.
  intros []. unfold shape, IsLeafPage in *. destruct (g_h g).
  - destruct no_shape0 as (-> & _). done.
  - destruct no_shape0 as (-> & _). done.
Qed.

Lemma node_ok_root t G e p g pg :
  node_ok t G e p g pg → (IsRootPage pg = true ↔ g_parent g = INVALID_PAGE_ID).
Proof. intros []. unfold IsRootPage. rewrite no_parent0. apply Z.eqb_eq. Qed.

(** The parent of a page and the place of the page in it. *)
Lemma inv_parent t G e hr tops p g :
  inv t G e hr tops → G !! p = Some g → g_parent g ≠ INVALID_PAGE_ID →
  ∃ gP pgP l1 k l2,
    G !! g_parent g = Some gP ∧ g_h gP = S (g_h g) ∧
    pages_ t !! g_parent g = Some pgP ∧ node_ok t G e (g_parent g) gP pgP ∧
    array_ pgP = l1 ++ (k, p) :: l2 ∧
    chain G (g_parent g) (g_h g) (g_lo gP) (array_ pgP) (g_hi gP) (g_first gP) (g_next gP).
Proof.
  intros Hinv Hg Hne.
  destruct (inv_up _ _ _ _ _ _ Hinv p g Hg Hne) as (gP & pgP & k & HgP & Hh & HpP & Hin).
  destruct (inv_node _ _ _ _ _ _ Hinv _ _ HgP) as (pgP' & HpP' & Hok).
  rewrite HpP in HpP'. injection HpP' as <-.
  apply list_elem_of_split in Hin as (l1 & l2 & Harr).
  exists gP, pgP, l1, k, l2. do 5 (split; [done|]).
  destruct Hok. unfold shape in no_shape0. rewrite Hh in no_shape0.
  by destruct no_shape0 as (_ & _ & ?).
Qed.

(** Two pages of one height with a common key are one. *)
Lemma inv_range_unique t G e hr tops key :
  inv t G e hr tops →
  ∀ n p g q g', (hr - g_h g)%nat = n →
    G !! p = Some g → G !! q = Some g' → g_h g = g_h g' →
    above (g_lo g) key → below key (g_hi g) →
    above (g_lo g') key → below key (g_hi g') →
    p = q.
Proof.
  intros Hinv. pose proof (inv_all_blt _ _ _ _ _ Hinv) as Hblt.
  destruct (inv_tops _ _ _ _ _ _ Hinv) as (fst & Htops).
  assert (Htoph : ∀ p g, G !! p = Some g → g_parent g = INVALID_PAGE_ID → g_h g = hr).
  { intros p g Hg Hpar. pose proof (inv_top _ _ _ _ _ _ Hinv p g Hg Hpar) as Hin.
    destruct (chain_children _ _ _ _ _ _ _ _ _ Htops Hin) as (g' & Hg' & _ & ?).
    rewrite Hg in Hg'. by injection Hg' as <-. }
  assert (Hsub : ∀ p g, G !! p = Some g → g_parent g ≠ INVALID_PAGE_ID →
            above (g_lo g) key → below key (g_hi g) →
            ∃ gP pgP, G !! g_parent g = Some gP ∧ g_h gP = S (g_h g) ∧
              pages_ t !! g_parent g = Some pgP ∧
              above (g_lo gP) key ∧ below key (g_hi gP) ∧
              p ∈ (array_ pgP).*2 ∧
              chain G (g_parent g) (g_h g) (g_lo gP) (array_ pgP) (g_hi gP)
                    (g_first gP) (g_next gP)).
  { intros p g Hg Hpar Ha Hb.
    destruct (inv_parent _ _ _ _ _ _ _ Hinv Hg Hpar)
      as (gP & pgP & l1 & k & l2 & HgP & Hh & HpP & _ & Harr & Hch).
    assert (Hin : p ∈ (array_ pgP).*2).
    { rewrite Harr, fmap_app. apply elem_of_app. right. left. }
    destruct (chain_range_sub _ _ _ _ _ _ _ _ _ _ _ Hblt Hch Hin Hg Ha Hb).
    exists gP, pgP. done. }
  induction n as [|n IH]; intros p g q g' Hn Hg Hg' Hh Ha Hb Ha' Hb'.
  - pose proof (inv_height _ _ _ _ _ _ Hinv p g Hg) as Hle.
    assert (g_h g = hr) as Hhr by lia.
    assert (∀ p g, G !! p = Some g → g_h g = hr → g_parent g = INVALID_PAGE_ID) as Htop.
    { intros x gx Hgx Hx. destruct (decide (g_parent gx = INVALID_PAGE_ID)) as [|Hne]; [done|].
      destruct (inv_up _ _ _ _ _ _ Hinv x gx Hgx Hne) as (gP & _ & _ & HgP & HhP & _).
      pose proof (inv_height _ _ _ _ _ _ Hinv _ _ HgP). lia. }
    eapply (chain_disjoint _ _ _ _ _ _ _ _ key p g q g' Hblt Htops); try done.
    + eapply inv_top; [done..|]. by apply (Htop p).
    + eapply inv_top; [done..|]. apply (Htop q); [done|]. lia.
  - destruct (decide (g_parent g = INVALID_PAGE_ID)) as [Hp|Hp].
    { pose proof (Htoph _ _ Hg Hp). lia. }
    destruct (decide (g_parent g' = INVALID_PAGE_ID)) as [Hq|Hq].
    { pose proof (Htoph _ _ Hg' Hq). lia. }
    destruct (Hsub _ _ Hg Hp Ha Hb) as (gP & pgP & HgP & HhP & HpP & HaP & HbP & Hin & Hch).
    destruct (Hsub _ _ Hg' Hq Ha' Hb')
      as (gQ & pgQ & HgQ & HhQ & HpQ & HaQ & HbQ & Hin' & Hch').
    pose proof (inv_height _ _ _ _ _ _ Hinv _ _ HgP) as HleP.
    assert (g_parent g = g_parent g') as Heq.
    { eapply (IH _ gP _ gQ); try done; lia. }
    rewrite Heq in HgP, HpP, Hch. rewrite HgP in HgQ. injection HgQ as <-.
    rewrite HpP in HpQ. injection HpQ as <-. rewrite Hh in Hch.
    eapply (chain_disjoint _ _ _ _ _ _ _ _ key p g q g' Hblt Hch); done.
Qed.

(** **** The descent to a leaf *)

Lemma inv_child_for t G e hr tops p g pg h' key :
  inv t G e hr tops → G !! p = Some g → g_h g = S h' →
  pages_ t !! p = Some pg → node_ok t G e p g pg →
  above (g_lo g) key → below key (g_hi g) →
  ∃ c gc, child_for pg key = Ok c ∧ G !! c = Some gc ∧ g_parent gc = p ∧ g_h gc = h' ∧
          above (g_lo gc) key ∧ below key (g_hi gc).
Proof.
  intros Hinv Hg Hh Hp Hok Ha Hb. destruct Hok. unfold shape in no_shape0.
  rewrite Hh in no_shape0. destruct no_shape0 as (_ & _ & Hch).
  unfold child_for. destruct (array_ pg) as [|[k0 c0] rest]; [done|].
  destruct (chain_find_child _ _ _ _ _ _ _ _ _ _ key Hch Ha Hb)
    as (gc & ? & ? & ? & ? & ? & _).
  by exists (find_child key c0 rest), gc.
Qed.

Lemma descend_FIND t G e hr tops key is_first :
  inv t G e hr tops →
  ∀ fuel cur prev g,
    G !! cur = Some g → (g_h g < fuel)%nat →
    above (g_lo g) key → below key (g_hi g) →
    ∃ leaf gl, descend fuel FIND is_first key cur prev t = Ok (Some leaf, t) ∧
      G !! leaf = Some gl ∧ g_h gl = O ∧ above (g_lo gl) key ∧ below key (g_hi gl).
Proof.
  intros Hinv. induction fuel as [|n IH]; intros cur prev g Hg Hfuel Ha Hb; [lia|].
  destruct (inv_page _ _ _ _ _ _ _ Hinv Hg) as (pg & Hp & Hf & Hok).
  simpl. rewrite Hf. simpl.
  pose proof (node_ok_leaf _ _ _ _ _ _ Hok) as Hleaf.
  destruct (g_h g) as [|h'] eqn:Hh.
  - rewrite (proj2 Hleaf) by done. simpl. exists cur, g. by rewrite Hh.
  - destruct (IsLeafPage pg); [by destruct Hleaf as [Hl _]; specialize (Hl eq_refl)|].
    destruct (inv_child_for _ _ _ _ _ _ _ _ _ key Hinv Hg Hh Hp Hok Ha Hb)
      as (c & gc & -> & Hgc & _ & Hhc & Hac & Hbc).
    simpl. apply (IH c (Some cur) gc); [done|lia|done..].
Qed.

(** The pages of the page set that may split or underflow have their
    parent in the page set. *)
Definition closed (t : BPlusTree) (G : ghost) (op : OpeType) : Prop :=
  ∀ p g pg, Some p ∈ page_set_ t → G !! p = Some g → pages_ t !! p = Some pg →
    g_parent g ≠ INVALID_PAGE_ID → IsSafe pg op = false →
    Some (g_parent g) ∈ page_set_ t.

Definition leaf_for (G : ghost) (key : Z) (leaf : page_id_t) : Prop :=
  ∃ gl, G !! leaf = Some gl ∧ g_h gl = O ∧ above (g_lo gl) key ∧ below key (g_hi gl).

Lemma descend_first t0 G e hr tops key op :
  op ≠ FIND → inv t0 G e hr tops →
  ∀ fuel cur prev g ps0,
    G !! cur = Some g → (g_h g < fuel)%nat →
    above (g_lo g) key → below key (g_hi g) →
    (∀ p, Some p ∉ ps0) →
    ∃ r ps, descend fuel op true key cur prev (set_page_set t0 ps0)
              = Ok (r, set_page_set t0 ps) ∧
      match r with
      | None => ps = []
      | Some leaf => leaf_for G key leaf ∧ closed (set_page_set t0 ps) G op ∧ Some leaf ∈ ps
      end.
Proof.
  intros Hop Hinv. induction fuel as [|n IH]; intros cur prev g ps0 Hg Hfuel Ha Hb Hps; [lia|].
  destruct (inv_page _ _ _ _ _ _ _ Hinv Hg) as (pg & Hp & Hf & Hok).
  simpl. rewrite FetchPage_deref. unfold deref. simpl. rewrite Hp. simpl.
  pose proof (node_ok_leaf _ _ _ _ _ _ Hok) as Hleaf.
  destruct (g_h g) as [|h'] eqn:Hh.
  - rewrite (proj2 Hleaf) by done.
    assert (Ht1 : (match op with
                   | FIND => set_page_set t0 ps0
                   | _ => AddIntoPageSet (set_page_set t0 ps0) (Some cur)
                   end) = set_page_set t0 (ps0 ++ [Some cur])) by by destruct op.
    rewrite Ht1. destruct (IsSafe pg op) eqn:Hsafe; simpl.
    + exists (Some cur), (ps0 ++ [Some cur]). split; [done|]. split; [|split].
      * exists g. by rewrite Hh.
      * intros p gp pgp Hin Hgp Hpp Hpar Huns. simpl in *.
        apply elem_of_app in Hin as [Hin|Hin]; [by apply Hps in Hin|].
        apply list_elem_of_singleton in Hin. injection Hin as ->.
        rewrite Hp in Hpp. injection Hpp as <-. congruence.
      * apply elem_of_app. right. left.
    + exists None, []. done.
  - destruct (IsLeafPage pg); [by destruct Hleaf as [Hl _]; specialize (Hl eq_refl)|].
    destruct (inv_child_for _ _ _ _ _ _ _ _ _ key Hinv Hg Hh Hp Hok Ha Hb)
      as (c & gc & -> & Hgc & _ & Hhc & Hac & Hbc).
    simpl.
    assert (Ht1 : ∃ ps1, (match op with
                   | FIND => set_page_set t0 ps0
                   | _ => match prev with
                          | Some _ => set_page_set t0 ps0
                          | None => UnlockPageSet (set_page_set t0 ps0)
                          end
                   end) = set_page_set t0 ps1 ∧ ∀ p, Some p ∉ ps1).
    { destruct op; [done| |]; (destruct prev; [by exists ps0|exists []; split; [done|]]);
        intros p Hin; inversion Hin. }
    destruct Ht1 as (ps1 & -> & Hps1).
    apply (IH c (Some cur) gc ps1); [done|lia|done..].
Qed.

Lemma descend_second t0 G e hr tops key op :
  op ≠ FIND → inv t0 G e hr tops →
  ∀ fuel cur prev g ps0,
    G !! cur = Some g → (g_h g < fuel)%nat →
    above (g_lo g) key → below key (g_hi g) →
    closed (set_page_set t0 ps0) G op →
    (g_parent g ≠ INVALID_PAGE_ID → Some (g_parent g) ∈ ps0) →
    ∃ leaf ps, descend fuel op false key cur prev (set_page_set t0 ps0)
              = Ok (Some leaf, set_page_set t0 ps) ∧
      leaf_for G key leaf ∧ closed (set_page_set t0 ps) G op ∧ Some leaf ∈ ps.
Proof.
  intros Hop Hinv.
  induction fuel as [|n IH]; intros cur prev g ps0 Hg Hfuel Ha Hb Hcl Hpar; [lia|].
  destruct (inv_page _ _ _ _ _ _ _ Hinv Hg) as (pg & Hp & Hf & Hok).
  simpl. rewrite FetchPage_deref. unfold deref. simpl. rewrite Hp. simpl.
  assert (Ht1 : ∃ ps1, (match op with
                 | FIND => set_page_set t0 ps0
                 | _ => AddIntoPageSet
                          (if IsSafe pg op then UnlockPageSet (set_page_set t0 ps0)
                           else set_page_set t0 ps0) (Some cur)
                 end) = set_page_set t0 ps1 ∧ Some cur ∈ ps1 ∧
                 closed (set_page_set t0 ps1) G op).
  { destruct (IsSafe pg op) eqn:Hsafe.
    - exists [Some cur]. split; [by destruct op|]. split; [left|].
      intros p gp pgp Hin Hgp Hpp Hpar' Huns. simpl in *.
      apply list_elem_of_singleton in Hin. injection Hin as ->.
      rewrite Hp in Hpp. injection Hpp as <-. congruence.
    - exists (ps0 ++ [Some cur]). split; [by destruct op|].
      split; [apply elem_of_app; right; left|].
      intros p gp pgp Hin Hgp Hpp Hpar' Huns. simpl in *.
      apply elem_of_app. left.
      apply elem_of_app in Hin as [Hin|Hin].
      + by apply (Hcl p gp pgp).
      + apply list_elem_of_singleton in Hin. injection Hin as ->.
        rewrite Hg in Hgp. injection Hgp as <-. by apply Hpar. }
  destruct Ht1 as (ps1 & -> & Hin1 & Hcl1).
  pose proof (node_ok_leaf _ _ _ _ _ _ Hok) as Hleaf.
  destruct (g_h g) as [|h'] eqn:Hh.
  - rewrite (proj2 Hleaf) by done. rewrite andb_false_r.
    exists cur, ps1. split; [done|]. split; [|done]. exists g. by rewrite Hh.
  - destruct (IsLeafPage pg); [by destruct Hleaf as [Hl _]; specialize (Hl eq_refl)|].
    destruct (inv_child_for _ _ _ _ _ _ _ _ _ key Hinv Hg Hh Hp Hok Ha Hb)
      as (c & gc & -> & Hgc & Hparc & Hhc & Hac & Hbc).
    simpl. apply (IH c (Some cur) gc ps1); [done|lia|done..|].
    intros _. by rewrite Hparc.
Qed.

Lemma inv_root_id t G e hr k r :
  inv t G e hr [(k, r)] → r ≠ INVALID_PAGE_ID.
Proof.
  intros Hinv. destruct (inv_root _ _ _ _ _ _ Hinv) as (g & Hg & _).
  destruct (inv_page _ _ _ _ _ _ _ Hinv Hg) as (pg & _ & _ & []).
  unfold INVALID_PAGE_ID. lia.
Qed.

Lemma GetLeafPage_FIND t G e hr k key :
  inv t G e hr [(k, root_page_id_ t)] →
  ∃ leaf, GetLeafPage t key FIND = Ok (leaf, t) ∧ leaf_for G key leaf.
Proof.
  intros Hinv. destruct (inv_root _ _ _ _ _ _ Hinv) as (g & Hg & _ & Hh & Hlo & Hhi & _).
  pose proof (inv_fuel _ _ _ _ _ _ Hinv) as Hfuel.
  destruct (descend_FIND t G e hr _ key true Hinv (tree_fuel t) (root_page_id_ t) None g)
    as (leaf & gl & Hd & Hl); [done|unfold tree_fuel; lia|by rewrite Hlo|by rewrite Hhi|].
  exists leaf. unfold GetLeafPage. rewrite GetLeafPage_enter_ok. simpl. rewrite Hd. simpl.
  split; [done|]. by exists gl.
Qed.

Lemma GetLeafPage_writer t t1 G e hr k key op :
  op ≠ FIND →
  inv t1 G e hr [(k, root_page_id_ t1)] →
  enter t op = set_page_set t1 [None] →
  ∃ leaf ps, GetLeafPage t key op = Ok (leaf, set_page_set t1 ps) ∧
    leaf_for G key leaf ∧ closed (set_page_set t1 ps) G op ∧ Some leaf ∈ ps.
Proof.
  intros Hop Hinv Henter.
  destruct (inv_root _ _ _ _ _ _ Hinv) as (g & Hg & Hpar & Hh & Hlo & Hhi & _).
  pose proof (inv_root_id _ _ _ _ _ _ Hinv) as Hroot.
  pose proof (inv_fuel _ _ _ _ _ _ Hinv) as Hfuel.
  unfold GetLeafPage. rewrite GetLeafPage_enter_ok. cbn [bind]. rewrite Henter.
  destruct (descend_first t1 G e hr _ key op Hop Hinv (tree_fuel t1) (root_page_id_ t1)
              None g [None])
    as (r & ps & Hd & Hr); [done|unfold tree_fuel; lia|by rewrite Hlo|by rewrite Hhi| |].
  { intros p Hin. apply list_elem_of_singleton in Hin. done. }
  change (tree_fuel (set_page_set t1 [None])) with (tree_fuel t1).
  change (root_page_id_ (set_page_set t1 [None])) with (root_page_id_ t1).
  rewrite Hd. simpl. destruct r as [leaf|].
  - exists leaf, ps. done.
  - subst ps. rewrite GetLeafPage_enter_ok. cbn [bind].
    assert (enter (set_page_set t1 []) op = set_page_set t1 [None]) as ->.
    { unfold enter, IsEmpty. simpl.
      rewrite (proj2 (Z.eqb_neq _ _)) by done. by destruct op. }
    change (tree_fuel (set_page_set t1 [None])) with (tree_fuel t1).
    change (root_page_id_ (set_page_set t1 [None])) with (root_page_id_ t1).
    destruct (descend_second t1 G e hr _ key op Hop Hinv (tree_fuel t1) (root_page_id_ t1)
              None g [None])
      as (leaf & ps & Hd2 & Hr2); [done|unfold tree_fuel; lia|by rewrite Hlo|by rewrite Hhi| | |].
    { intros p gp pgp Hin. apply list_elem_of_singleton in Hin. done. }
    { done. }
    rewrite Hd2. simpl. exists leaf, ps. done.
Qed.

End Search.

(** **** Local changes

    A step of an operation changes the pages and the ghost entries of a
    few pages [D]; the invariant has to be proved again for these pages
    and their children only. *)

Section Update.

Variable INTERNAL_PAGE_SIZE : Z.

Local Notation inv := (inv INTERNAL_PAGE_SIZE).

Definition up_ok (t : BPlusTree) (G : ghost) (tops : list (Z * Z)) (p : page_id_t)
    (g : ginfo) : Prop :=
  (g_parent g = INVALID_PAGE_ID → p ∈ tops.*2) ∧
  (g_parent g ≠ INVALID_PAGE_ID →
   ∃ gP pgP k, G !! g_parent g = Some gP ∧ g_h gP = S (g_h g) ∧
               pages_ t !! g_parent g = Some pgP ∧ (k, p) ∈ array_ pgP).

Lemma size_ok_mono t e e' p g pg :
  size_ok t e p g pg →
  slack_lo e p ≤ slack_lo e' p → slack_hi e p ≤ slack_hi e' p →
  size_ok t e' p g pg.
Proof. unfold size_ok. destruct (g_h g); lia. Qed.

Lemma inv_update t G e hr tops t' G' e' hr' tops' (D : list Z) :
  inv t G e hr tops →
  leaf_max_size_ t' = leaf_max_size_ t →
  internal_max_size_ t' = internal_max_size_ t →
  alloc_ t ≤ alloc_ t' →
  Z.of_nat hr' + 2 ≤ alloc_ t' →
  (∀ p g', G' !! p = Some g' → p ∉ D → G !! p = Some g' ∧ pages_ t' !! p = pages_ t !! p) →
  (∀ p g, G !! p = Some g → p ∉ D → G' !! p = Some g) →
  (∀ c g, G !! c = Some g → G' !! c ≠ Some g →
     g_parent g ∈ D ∨ g_parent g = INVALID_PAGE_ID) →
  (∀ p g', G' !! p = Some g' → p ∈ D →
     ∃ pg, pages_ t' !! p = Some pg ∧ node_ok t' G' e' p g' pg) →
  (∀ p g', G' !! p = Some g' → p ∈ D ∨ g_parent g' ∈ D → up_ok t' G' tops' p g') →
  (∀ p, p ∈ tops.*2 → p ∉ D → p ∈ tops'.*2) →
  (∃ fst, chain G' INVALID_PAGE_ID hr' None tops' None fst INVALID_PAGE_ID) →
  (∀ p g', G' !! p = Some g' → (g_h g' ≤ hr')%nat) →
  (∀ p, p ∉ D → slack_lo e p ≤ slack_lo e' p ∧ slack_hi e p ≤ slack_hi e' p) →
  inv t' G' e' hr' tops'.
Proof.
  intros Hinv Hl Hi Ha Hfuel U1 U2 U3 U4 U5 U6 U7 U8 U9.
  assert (Hnode : ∀ p g', G' !! p = Some g' →
            ∃ pg, pages_ t' !! p = Some pg ∧ node_ok t' G' e' p g' pg).
  { intros p g' Hg'. destruct (decide (p ∈ D)) as [Hd|Hd]; [by apply U4|].
    destruct (U1 p g' Hg' Hd) as [Hg Hp].
    destruct (inv_node _ _ _ _ _ _ Hinv p g' Hg) as (pg & Hpg & Hok).
    exists pg. rewrite Hp. split; [done|].
    destruct Hok. split; try done; [lia| |].
    - destruct (U9 p Hd). eapply size_ok_mono; [|done..].
      unfold size_ok in *. by rewrite Hl, Hi.
    - unfold shape in *. rewrite Hl, Hi. destruct (g_h g'); [done|].
      destruct no_shape0 as (? & ? & Hch). split; [done|]. split; [done|].
      eapply chain_frame; [done|]. intros c Hin.
      destruct (chain_children _ _ _ _ _ _ _ _ _ Hch Hin) as (gc & Hgc & Hpar & _).
      destruct (decide (G' !! c = Some gc)) as [->|Hne]; [done|].
      destruct (U3 c gc Hgc Hne) as [Hd'|Hd'].
      + by rewrite Hpar in Hd'.
      + rewrite Hpar in Hd'. unfold INVALID_PAGE_ID in Hd'. lia. }
  destruct Hinv. split; try done.
  - by rewrite Hl.
  - by rewrite Hi.
  - intros p g' Hg' Hpar.
    destruct (decide (p ∈ D ∨ g_parent g' ∈ D)) as [Hd|Hd].
    { by apply (U5 p g' Hg' Hd). }
    assert (Hd1 : p ∉ D) by tauto. assert (Hd2 : g_parent g' ∉ D) by tauto. destruct (U1 p g' Hg' Hd1) as [Hg _].
    apply inv_top0 in Hg; [|done]. by apply U6.
  - intros p g' Hg' Hpar.
    destruct (decide (p ∈ D ∨ g_parent g' ∈ D)) as [Hd|Hd].
    { by apply (U5 p g' Hg' Hd). }
    assert (Hd1 : p ∉ D) by tauto. assert (Hd2 : g_parent g' ∉ D) by tauto. destruct (U1 p g' Hg' Hd1) as [Hg _].
    destruct (inv_up0 p g' Hg Hpar) as (gP & pgP & k & HgP & Hh & HpP & Hin).
    exists gP, pgP, k. pose proof (U2 _ _ HgP Hd2) as HgP'.
    destruct (U1 _ _ HgP' Hd2) as [_ ->]. done.
Qed.

Lemma abs_update t G M t' G' :
  abs t G M → (∀ kv, contents t' G' kv ↔ contents t G kv) → abs t' G' M.
Proof. intros Habs Hc k v. rewrite Hc. apply Habs. Qed.

(** The pairs of the leaves do not change when the leaves keep their
    arrays. *)
Lemma contents_same t G t' G' :
  (∀ p, (∃ g, G !! p = Some g ∧ g_h g = O) ↔ (∃ g', G' !! p = Some g' ∧ g_h g' = O)) →
  (∀ p g, G !! p = Some g → g_h g = O →
     array_ <$> pages_ t' !! p = array_ <$> pages_ t !! p) →
  ∀ kv, contents t' G' kv ↔ contents t G kv.
Proof.
  intros HG Hp kv. split.
  - intros (p & g' & pg & Hg' & Hh & Hpg & Hin).
    destruct (proj2 (HG p)) as (g & Hg & Hh0); [by exists g'|].
    pose proof (Hp p g Hg Hh0) as Heq. rewrite Hpg in Heq. simpl in Heq.
    destruct (pages_ t !! p) as [pg0|] eqn:Hpg0; [|done].
    injection Heq as Heq. exists p, g, pg0. by rewrite <- Heq.
  - intros (p & g & pg & Hg & Hh & Hpg & Hin).
    destruct (proj1 (HG p)) as (g' & Hg' & Hh0); [by exists g|].
    pose proof (Hp p g Hg Hh) as Heq. rewrite Hpg in Heq. simpl in Heq.
    destruct (pages_ t' !! p) as [pg0|] eqn:Hpg0; [|done].
    injection Heq as Heq. exists p, g', pg0. by rewrite Heq.
Qed.

(** The exception is dropped once the page has a size in its bounds. *)
Lemma slack_lo_nonneg e p : 0 ≤ slack_lo e p.
Proof. unfold slack_lo. destruct e; try lia. destruct (decide _); lia. Qed.

Lemma slack_hi_nonneg e p : 0 ≤ slack_hi e p.
Proof. unfold slack_hi. destruct e; try lia. destruct (decide _); lia. Qed.

Lemma inv_exc_drop t G e hr tops :
  inv t G e hr tops →
  (∀ p g pg, G !! p = Some g → pages_ t !! p = Some pg →
     slack_lo e p + slack_hi e p ≠ 0 → size_ok t NoExc p g pg) →
  inv t G NoExc hr tops.
Proof.
  intros Hinv Hsz. pose proof Hinv as []. split; try done.
  intros p g Hg. destruct (inv_node0 p g Hg) as (pg & Hp & Hok). exists pg. split; [done|].
  destruct Hok. split; try done.
  destruct (decide (slack_lo e p + slack_hi e p = 0)) as [Hz|Hnz].
  - pose proof (slack_lo_nonneg e p). pose proof (slack_hi_nonneg e p).
    assert (slack_lo e p = 0) as Hz1 by lia. assert (slack_hi e p = 0) as Hz2 by lia.
    unfold size_ok in *. rewrite Hz1, Hz2 in no_size0. done.
  - by apply (Hsz p g pg).
Qed.

End Update.

(** **** Children that change their parent *)

Definition same_meta (t t' : BPlusTree) : Prop :=
  root_page_id_ t' = root_page_id_ t ∧ leaf_max_size_ t' = leaf_max_size_ t ∧
  internal_max_size_ t' = internal_max_size_ t ∧ alloc_ t' = alloc_ t ∧
  header_ t' = header_ t ∧ page_set_ t' = page_set_ t ∧
  deleted_page_set_ t' = deleted_page_set_ t.

Lemma same_meta_refl t : same_meta t t.
Proof. by repeat split. Qed.

Lemma same_meta_trans t1 t2 t3 : same_meta t1 t2 → same_meta t2 t3 → same_meta t1 t3.
Proof.
  intros (? & ? & ? & ? & ? & ? & ?) (? & ? & ? & ? & ? & ? & ?).
  repeat split; congruence.
Qed.

Lemma same_meta_write t p pg : same_meta t (write_page t p pg).
Proof. by repeat split. Qed.

Lemma UpdateChildNode_spec node cs :
  ∀ t, (∀ c, c ∈ cs → is_Some (pages_ t !! c)) →
  ∃ t', UpdateChildNode t node cs = Ok t' ∧ same_meta t t' ∧
    ∀ c, pages_ t' !! c =
         if decide (c ∈ cs) then (λ pg, SetParentPageId pg node) <$> pages_ t !! c
         else pages_ t !! c.
Proof.
  induction cs as [|c cs IH]; intros t Hex.
  - exists t. split; [done|]. split; [apply same_meta_refl|]. intros c.
    destruct (decide (c ∈ [])) as [Hin|]; [by inversion Hin|done].
  - destruct (Hex c) as [pg Hpg]; [left|].
    simpl. rewrite FetchPage_deref. unfold deref. rewrite Hpg. simpl.
    destruct (IH (write_page t c (SetParentPageId pg node))) as (t' & Hu & Hm & Hl).
    { intros c' Hin. simpl. destruct (decide (c' = c)) as [->|Hne].
      - rewrite lookup_insert_eq. done.
      - rewrite lookup_insert_ne by done. apply Hex. by right. }
    exists t'. split; [done|]. split.
    { eapply same_meta_trans; [|done]. apply same_meta_write. }
    intros c'. rewrite Hl. simpl.
    destruct (decide (c' = c)) as [->|Hne].
    + rewrite lookup_insert_eq, Hpg. simpl.
      rewrite (decide_True (P := c ∈ c :: cs)) by left.
      by destruct (decide (c ∈ cs)).
    + rewrite lookup_insert_ne by done.
      destruct (decide (c' ∈ cs)) as [Hin|Hin].
      * rewrite (decide_True (P := c' ∈ c :: cs)) by by right. done.
      * rewrite (decide_False (P := c' ∈ c :: cs)); [done|].
        intros [?|?]%elem_of_cons; done.
Qed.

Definition reparent (P' : page_id_t) (g : ginfo) : ginfo :=
  mkG P' (g_h g) (g_lo g) (g_hi g) (g_first g) (g_next g).

Definition reparent_all (G : gmap Z ginfo) (cs : list Z) (P' : page_id_t) : gmap Z ginfo :=
  foldr (λ c G', alter (reparent P') c G') G cs.

Lemma reparent_all_lookup G cs P' c :
  reparent_all G cs P' !! c =
  if decide (c ∈ cs) then reparent P' <$> G !! c else G !! c.
Proof.
  induction cs as [|c0 cs IH]; simpl.
  - destruct (decide (c ∈ [])) as [Hin|]; [by inversion Hin|done].
  - destruct (decide (c = c0)) as [->|Hne].
    + rewrite lookup_alter_eq, IH.
      rewrite (decide_True (P := c0 ∈ c0 :: cs)) by left.
      destruct (decide (c0 ∈ cs)); [|done]. by destruct (G !! c0).
    + rewrite lookup_alter_ne by done. rewrite IH.
      destruct (decide (c ∈ cs)) as [Hin|Hin].
      * rewrite (decide_True (P := c ∈ c0 :: cs)) by by right. done.
      * rewrite (decide_False (P := c ∈ c0 :: cs)); [done|].
        intros [?|?]%elem_of_cons; done.
Qed.

Lemma child_reparent (G G' : gmap Z ginfo) P P' h lo c hi fst nxt :
  child G P h lo c hi fst nxt → G' !! c = reparent P' <$> G !! c →
  child G' P' h lo c hi fst nxt.
Proof.
  intros (g & Hg & ? & ? & ? & ? & ? & ?) Heq. exists (reparent P' g).
  rewrite Heq, Hg. done.
Qed.

Lemma chain_reparent (G G' : gmap Z ginfo) P P' h lo arr hi fst nxt :
  chain G P h lo arr hi fst nxt →
  (∀ c, c ∈ arr.*2 → G' !! c = reparent P' <$> G !! c) →
  chain G' P' h lo arr hi fst nxt.
Proof.
  revert lo fst. induction arr as [|[k c] rest IH]; intros lo fst Hc Heq; [done|].
  destruct rest as [|[k' c'] rest'].
  - apply chain_one. apply chain_one in Hc. eapply child_reparent; [done|]. apply Heq. left.
  - apply chain_cons. apply chain_cons in Hc as (mid & Hch & Hrest). exists mid. split.
    + eapply child_reparent; [done|]. apply Heq. left.
    + apply IH; [done|]. intros x Hx. apply Heq. by right.
Qed.

(** The bounds of the size of a page that is not the root. *)
Definition min_size_of (t : BPlusTree) (h : nat) : Z :=
  match h with O => leaf_max_size_ t / 2 | S _ => (internal_max_size_ t + 1) / 2 end.
Definition cap_of (t : BPlusTree) (h : nat) : Z :=
  match h with O => leaf_max_size_ t - 1 | S _ => internal_max_size_ t end.
Definition min_size_of_ok (t : BPlusTree) (h : nat) (size : Z) : Prop :=
  min_size_of t h ≤ size ≤ cap_of t h.

(** **** Sorted keys between bounds *)

Lemma sorted_in_app lo l1 k l2 hi :
  sorted_in lo (l1 ++ k :: l2) hi ↔
  sorted_in lo l1 (Some k) ∧ sorted_in (Some k) (k :: l2) hi ∧ above lo k.
Proof.
  unfold sorted_in. rewrite StronglySorted_app, StronglySorted_cons, !Forall_app,
    !Forall_cons, !Forall_forall. split.
  - intros ((H12 & Hs1 & Hk & Hs2) & Hl1 & (Hak & Hbk) & Hl2).
    split; [|split].
    + split; [done|]. intros x Hx. split; [by apply Hl1|]. simpl. apply H12; [done|left].
    + split; [done|]. split; [simpl; split; [lia|done]|].
      intros x Hx. split; [|by apply Hl2]. simpl. specialize (Hk x Hx). lia.
    + done.
  - intros ((Hs1 & Hl1) & ((Hk & Hs2) & (_ & Hbk) & Hl2) & Hak).
    split; [split; [|split; [done|]]|split; [|split]].
    + intros x1 x2 Hx1 Hx2. destruct (Hl1 x1 Hx1) as [_ Hb]. simpl in Hb.
      apply elem_of_cons in Hx2 as [->|Hx2]; [done|]. specialize (Hk x2 Hx2). lia.
    + done.
    + intros x Hx. destruct (Hl1 x Hx) as [Ha Hb]. split; [done|].
      simpl in Hb. destruct hi; simpl in *; [lia|done].
    + done.
    + intros x Hx. destruct (Hl2 x Hx) as [Ha Hb]. split; [|done].
      simpl in Ha. destruct lo; simpl in *; [lia|done].
Qed.

Lemma sorted_in_blt lo l hi : sorted_in lo l hi → l ≠ [] → blt lo hi.
Proof.
  intros [_ Hl] Hne. destruct l as [|x l]; [done|].
  apply Forall_cons in Hl as [[Ha Hb] _]. destruct lo, hi; simpl in *; try done. lia.
Qed.

Lemma size_ok_strong t e p g pg :
  2 ≤ leaf_max_size_ t → 3 ≤ internal_max_size_ t →
  min_size_of_ok t (g_h g) (GetSize pg) →
  size_ok t e p g pg.
Proof.
  unfold size_ok, min_size_of_ok, min_size_of, cap_of. intros Hl Hi.
  pose proof (slack_lo_nonneg e p). pose proof (slack_hi_nonneg e p).
  destruct (g_h g); intros Hs.
  - assert (1 ≤ leaf_max_size_ t / 2) by (apply Z.div_le_lower_bound; lia).
    destruct (is_root g); lia.
  - assert (2 ≤ (internal_max_size_ t + 1) / 2) by (apply Z.div_le_lower_bound; lia).
    destruct (is_root g); lia.
Qed.

Lemma sorted_in_insert lo (l1 l2 : list Z) key hi :
  sorted_in lo (l1 ++ l2) hi →
  Forall (λ k, k < key) l1 → Forall (λ k, key < k) l2 →
  above lo key → below key hi →
  sorted_in lo (l1 ++ key :: l2) hi.
Proof.
  unfold sorted_in. rewrite !StronglySorted_app, StronglySorted_cons, !Forall_app,
    !Forall_cons, !Forall_forall.
  intros ((H12 & Hs1 & Hs2) & Hl1 & Hl2) Hlt Hgt Ha Hb.
  split; [split; [|split; [done|split; [done|done]]]|split; [done|split; [done|done]]].
  intros x1 x2 Hx1 Hx2. apply elem_of_cons in Hx2 as [->|Hx2]; [by apply Hlt|].
  by apply H12.
Qed.

Lemma sorted_in_remove lo (l1 l2 : list Z) key hi :
  sorted_in lo (l1 ++ key :: l2) hi → sorted_in lo (l1 ++ l2) hi.
Proof.
  unfold sorted_in. rewrite !StronglySorted_app, StronglySorted_cons, !Forall_app,
    !Forall_cons, !Forall_forall.
  intros ((H12 & Hs1 & Hk & Hs2) & Hl1 & _ & Hl2).
  split; [split; [|done]|done].
  intros x1 x2 Hx1 Hx2. apply H12; [done|by right].
Qed.

(** **** The split of a page

    [tV] is the tree before the split, in which the page [N] holds one
    pair too many: [A ++ (sep, cB) :: B'].  In [t'] the page [N] keeps
    [A], the new page [rp] holds the others and is the parent of their
    children. *)

Definition split_moved (h : nat) (B : list (Z * Z)) : list Z :=
  match h with O => [] | S _ => B.*2 end.

Definition split_mid (G : gmap Z ginfo) (h : nat) (rp cB : page_id_t) : page_id_t :=
  match h with
  | O => rp
  | S _ => match G !! cB with Some g => g_first g | None => 0 end
  end.

Definition split_ghost (G : gmap Z ginfo) (N : page_id_t) (gN : ginfo) (rp : page_id_t)
    (sep : Z) (cB : page_id_t) (B : list (Z * Z)) : gmap Z ginfo :=
  let mid := split_mid G (g_h gN) rp cB in
  <[N := mkG (g_parent gN) (g_h gN) (g_lo gN) (Some sep) (g_first gN) mid]>
    (<[rp := mkG (g_parent gN) (g_h gN) (Some sep) (g_hi gN) mid (g_next gN)]>
       (reparent_all G (split_moved (g_h gN) B) rp)).

Record presplit (tV t' : BPlusTree) (G : gmap Z ginfo) (N : page_id_t) (gN : ginfo)
    (A : list (Z * Z)) (sep : Z) (cB : page_id_t) (B' : list (Z * Z)) (rp : page_id_t)
  : Prop := {
  ps_G : G !! N = Some gN;
  ps_arr : ∃ pgV pgL pgR,
    pages_ tV !! N = Some pgV ∧ array_ pgV = A ++ (sep, cB) :: B' ∧
    pages_ t' !! N = Some pgL ∧ array_ pgL = A ∧
    page_type_ pgL = page_type_ pgV ∧ max_size_ pgL = max_size_ pgV ∧
    parent_page_id_ pgL = parent_page_id_ pgV ∧ page_id_ pgL = page_id_ pgV ∧
    (g_h gN = O → next_page_id_ pgL = rp) ∧
    pages_ t' !! rp = Some pgR ∧ array_ pgR = (sep, cB) :: B' ∧
    page_type_ pgR = page_type_ pgV ∧ max_size_ pgR = max_size_ pgV ∧
    parent_page_id_ pgR = parent_page_id_ pgV ∧ page_id_ pgR = rp ∧
    (g_h gN = O → next_page_id_ pgR = next_page_id_ pgV);
  ps_A : A ≠ [];
  ps_rp : G !! rp = None ∧ 1 ≤ rp < alloc_ t';
  ps_alloc : alloc_ tV ≤ alloc_ t';
  ps_lm : leaf_max_size_ t' = leaf_max_size_ tV;
  ps_im : internal_max_size_ t' = internal_max_size_ tV;
  ps_moved : ∀ c, c ∈ split_moved (g_h gN) ((sep, cB) :: B') →
    pages_ t' !! c = (λ pg, SetParentPageId pg rp) <$> pages_ tV !! c;
  ps_other : ∀ p, p ≠ N → p ≠ rp → p ∉ split_moved (g_h gN) ((sep, cB) :: B') →
    pages_ t' !! p = pages_ tV !! p;
  ps_size : min_size_of_ok tV (g_h gN) (Z.of_nat (length A)) ∧
            min_size_of_ok tV (g_h gN) (Z.of_nat (S (length B')))
}.

Section Split.

Variable INTERNAL_PAGE_SIZE : Z.
Local Notation inv := (inv INTERNAL_PAGE_SIZE).

Variables (tV t' : BPlusTree) (G : gmap Z ginfo) (hr : nat) (k0 root : Z).
Variables (N : page_id_t) (gN : ginfo) (A : list (Z * Z)) (sep : Z) (cB : page_id_t)
          (B' : list (Z * Z)) (rp : page_id_t).

Variable e : exc.

Hypothesis Hinv : inv tV G e hr [(k0, root)].
Hypothesis Hpre : presplit tV t' G N gN A sep cB B' rp.
Hypothesis He : ∀ p, p ≠ N →
  slack_hi e p = 0 ∧ slack_lo e p ≤ 1 ∧ (p ≠ g_parent gN → slack_lo e p = 0).

Local Notation B := ((sep, cB) :: B').
Local Notation moved := (split_moved (g_h gN) B).
Local Notation mid := (split_mid G (g_h gN) rp cB).
Local Notation gN' := (mkG (g_parent gN) (g_h gN) (g_lo gN) (Some sep) (g_first gN) mid).
Local Notation gR := (mkG (g_parent gN) (g_h gN) (Some sep) (g_hi gN) mid (g_next gN)).
Local Notation G' := (split_ghost G N gN rp sep cB B).

Lemma split_fresh p g : G !! p = Some g → 1 ≤ p < alloc_ tV ∧ p ≠ rp.
Proof.
  intros Hg. destruct (inv_page _ _ _ _ _ _ _ _ Hinv Hg) as (pg & _ & _ & []).
  split; [done|]. intros ->. destruct (ps_rp _ _ _ _ _ _ _ _ _ _ Hpre) as [Hn _]. congruence.
Qed.

Lemma split_rp_fresh : G !! rp = None.
Proof. by destruct (ps_rp _ _ _ _ _ _ _ _ _ _ Hpre). Qed.

Lemma split_N_rp : N ≠ rp.
Proof.
  pose proof (split_fresh _ _ (ps_G _ _ _ _ _ _ _ _ _ _ Hpre)). lia.
Qed.

(** The children of [N] before the split. *)
Lemma split_chain h' :
  g_h gN = S h' →
  ∃ m, chain G N h' (g_lo gN) A (Some sep) (g_first gN) m ∧
       chain G N h' (Some sep) B (g_hi gN) m (g_next gN) ∧ m = mid ∧
       NoDup ((A ++ B).*2).
Proof.
  intros Hh. destruct Hpre as [HG (pgV & pgL & pgR & HpV & Harr & _) HA _ _ _ _ _ _ _].
  destruct (inv_page _ _ _ _ _ _ _ _ Hinv HG) as (pg & Hp & _ & Hok).
  rewrite HpV in Hp. injection Hp as <-. destruct Hok. unfold shape in no_shape0.
  rewrite Hh in no_shape0. destruct no_shape0 as (_ & _ & Hch).
  rewrite Harr in Hch.
  pose proof (chain_NoDup _ _ _ _ _ _ _ _ (inv_all_blt _ _ _ _ _ _ Hinv) Hch) as Hnd.
  apply chain_app in Hch as (m & Hc1 & Hc2); [|done].
  exists m. split; [done|]. split; [done|]. split; [|done].
  destruct (chain_first _ _ _ _ _ _ _ _ _ _ Hc2) as (g & Hg & _ & _ & _ & Hf).
  unfold split_mid. rewrite Hh, Hg. done.
Qed.

Lemma split_moved_in c :
  c ∈ moved → ∃ h' gc, g_h gN = S h' ∧ c ∈ B.*2 ∧ G !! c = Some gc ∧
                        g_parent gc = N ∧ g_h gc = h' ∧ c ∉ A.*2.
Proof.
  unfold split_moved. destruct (g_h gN) as [|h'] eqn:Hh; [by inversion 1|].
  intros Hin. destruct (split_chain h' Hh) as (m & Hc1 & Hc2 & _ & Hnd).
  destruct (chain_children _ _ _ _ _ _ _ _ _ Hc2 Hin) as (gc & ? & ? & ?).
  exists h', gc. repeat split; try done.
  rewrite fmap_app in Hnd. apply NoDup_app in Hnd as (_ & Hd & _).
  intros HinA. by apply (Hd c).
Qed.

Lemma split_moved_ne c : c ∈ moved → c ≠ N ∧ c ≠ rp ∧ c ≠ g_parent gN.
Proof.
  intros Hin. destruct (split_moved_in c Hin) as (h' & gc & Hh & _ & Hg & Hpar & Hhc & _).
  pose proof (split_fresh _ _ Hg).
  split; [|split; [lia|]].
  - intros ->. rewrite (ps_G _ _ _ _ _ _ _ _ _ _ Hpre) in Hg. injection Hg as <-. lia.
  - intros ->. destruct (decide (g_parent gN = INVALID_PAGE_ID)) as [Hi|Hi].
    { rewrite Hi in H. unfold INVALID_PAGE_ID in H. lia. }
    destruct (inv_up _ _ _ _ _ _ Hinv N gN (ps_G _ _ _ _ _ _ _ _ _ _ Hpre) Hi)
      as (gP & _ & _ & HgP & HhP & _).
    rewrite Hg in HgP. injection HgP as <-. lia.
Qed.

Lemma split_lookup p :
  G' !! p = if decide (p = N) then Some gN'
            else if decide (p = rp) then Some gR
            else if decide (p ∈ moved) then reparent rp <$> G !! p
            else G !! p.
Proof.
  unfold split_ghost. destruct (decide (p = N)) as [->|H1].
  { by rewrite lookup_insert_eq. }
  rewrite lookup_insert_ne by done. destruct (decide (p = rp)) as [->|H2].
  { by rewrite lookup_insert_eq. }
  rewrite lookup_insert_ne by done. apply reparent_all_lookup.
Qed.

Lemma split_lookup_N : G' !! N = Some gN'.
Proof. rewrite split_lookup. by rewrite decide_True. Qed.

Lemma split_lookup_rp : G' !! rp = Some gR.
Proof.
  rewrite split_lookup. rewrite decide_False by apply not_eq_sym, split_N_rp.
  by rewrite decide_True.
Qed.

Lemma split_lookup_moved c gc :
  c ∈ moved → G !! c = Some gc → G' !! c = Some (reparent rp gc).
Proof.
  intros Hin Hg. destruct (split_moved_ne c Hin) as (? & ? & _).
  rewrite split_lookup. rewrite !decide_False by done.
  rewrite decide_True by done. by rewrite Hg.
Qed.

Lemma split_lookup_other p :
  p ≠ N → p ≠ rp → p ∉ moved → G' !! p = G !! p.
Proof. intros. rewrite split_lookup. by rewrite !decide_False. Qed.


Lemma split_params :
  2 ≤ leaf_max_size_ t' ∧ 3 ≤ internal_max_size_ t' ∧
  (∀ h z, min_size_of_ok tV h z → min_size_of_ok t' h z).
Proof.
  destruct Hpre. pose proof (inv_lmax _ _ _ _ _ _ Hinv). pose proof (inv_imax _ _ _ _ _ _ Hinv).
  unfold min_size_of_ok, min_size_of, cap_of. rewrite ps_lm0, ps_im0.
  split; [lia|]. split; [lia|done].
Qed.

Lemma split_child_other h' c :
  g_h gN = S h' → c ∈ A.*2 → G' !! c = G !! c.
Proof.
  intros Hh Hin. destruct (split_chain h' Hh) as (m & Hc1 & _ & _ & Hnd).
  destruct (chain_children _ _ _ _ _ _ _ _ _ Hc1 Hin) as (gc & Hgc & _ & Hhc).
  apply split_lookup_other.
  - intros ->. rewrite (ps_G _ _ _ _ _ _ _ _ _ _ Hpre) in Hgc. injection Hgc as <-. lia.
  - apply split_fresh in Hgc. lia.
  - intros Hm. destruct (split_moved_in c Hm) as (_ & _ & _ & _ & _ & _ & _ & Hn). done.
Qed.

Lemma split_node_N e' :
  ∃ pg, pages_ t' !! N = Some pg ∧ array_ pg = A ∧ node_ok t' G' e' N gN' pg.
Proof.
  destruct split_params as (Hlm' & Him' & Hms).
  pose proof split_chain as Hchain. pose proof split_child_other as Hco.
  destruct Hpre as [HG (pgV & pgL & pgR & HpV & Harr & HpL & HaL & HtL & HmL & HparL & HidL
    & HnL & _) HA Hrp Halloc Hlm Him Hmoved Hother [HsA HsB]].
  destruct (inv_page _ _ _ _ _ _ _ _ Hinv HG) as (pg & Hp & _ & Hok).
  rewrite HpV in Hp. injection Hp as <-.
  destruct Hok as [Hid Hpar Hal Hblt Hsize Hshape].
  exists pgL. split; [done|]. split; [done|]. split.
  - congruence.
  - simpl. congruence.
  - lia.
  - simpl. unfold shape in Hshape. destruct (g_h gN) as [|h'] eqn:Hh.
    + destruct Hshape as (_ & _ & _ & _ & Hs). rewrite Harr, fmap_app in Hs. simpl in Hs.
      apply sorted_in_app in Hs as (Hs & _). eapply sorted_in_blt; [done|].
      by destruct A.
    + destruct (Hchain h' eq_refl) as (m & Hc1 & _).
      destruct A as [|[ka ca] A']; [done|].
      by destruct (chain_keys _ _ _ _ _ _ _ _ _ _ (inv_all_blt _ _ _ _ _ _ Hinv) Hc1)
        as (_ & _ & ?).
  - apply size_ok_strong; [done..|]. simpl. apply Hms. unfold GetSize. by rewrite HaL.
  - unfold shape in *. simpl. destruct (g_h gN) as [|h'] eqn:Hh.
    + destruct Hshape as (Ht & Hm & Hn & Hf & Hs).
      split; [congruence|]. split; [congruence|]. split; [by apply HnL|]. split; [done|].
      rewrite Harr, fmap_app in Hs. simpl in Hs.
      apply sorted_in_app in Hs as (Hs & _). by rewrite HaL.
    + destruct Hshape as (Ht & Hm & _).
      split; [congruence|]. split; [congruence|].
      destruct (Hchain h' eq_refl) as (m & Hc1 & _ & -> & _). rewrite HaL.
      eapply chain_frame; [done|]. intros c Hin. by apply (Hco h').
Qed.

Lemma split_node_rp e' :
  ∃ pg, pages_ t' !! rp = Some pg ∧ array_ pg = B ∧ node_ok t' G' e' rp gR pg.
Proof.
  destruct split_params as (Hlm' & Him' & Hms).
  pose proof split_chain as Hchain. pose proof split_lookup_moved as Hlm0.
  pose proof split_moved_in as Hmi.
  destruct Hpre as [HG (pgV & pgL & pgR & HpV & Harr & _ & _ & _ & _ & _ & _ & _ & HpR & HaR
    & HtR & HmR & HparR & HidR & HnR) HA Hrp Halloc Hlm Him Hmoved Hother [HsA HsB]].
  destruct (inv_page _ _ _ _ _ _ _ _ Hinv HG) as (pg & Hp & _ & Hok).
  rewrite HpV in Hp. injection Hp as <-.
  destruct Hok as [Hid Hpar Hal Hblt Hsize Hshape].
  exists pgR. split; [done|]. split; [done|]. split.
  - done.
  - simpl. congruence.
  - lia.
  - simpl. unfold shape in Hshape. destruct (g_h gN) as [|h'] eqn:Hh.
    + destruct Hshape as (_ & _ & _ & _ & Hs). rewrite Harr, fmap_app in Hs. simpl in Hs.
      apply sorted_in_app in Hs as (_ & Hs & _). by apply (sorted_in_blt (Some sep) _ _ Hs).
    + destruct (Hchain h' eq_refl) as (m & _ & Hc2 & _).
      by destruct (chain_keys _ _ _ _ _ _ _ _ _ _ (inv_all_blt _ _ _ _ _ _ Hinv) Hc2)
        as (_ & _ & ?).
  - apply size_ok_strong; [done..|]. simpl. apply Hms. unfold GetSize. by rewrite HaR.
  - unfold shape in *. simpl. destruct (g_h gN) as [|h'] eqn:Hh.
    + destruct Hshape as (Ht & Hm & Hn & Hf & Hs).
      split; [congruence|]. split; [congruence|]. split; [rewrite HnR; done|].
      split; [done|].
      rewrite Harr, fmap_app in Hs. simpl in Hs.
      apply sorted_in_app in Hs as (_ & Hs & _). by rewrite HaR.
    + destruct Hshape as (Ht & Hm & _).
      split; [congruence|]. split; [congruence|].
      destruct (Hchain h' eq_refl) as (m & _ & Hc2 & -> & _). rewrite HaR.
      eapply chain_reparent; [done|]. intros c Hin.
      destruct (Hmi c) as (_ & gc & _ & _ & Hgc & _); [done|].
      rewrite Hgc. simpl. by apply Hlm0.
Qed.


Lemma split_node_moved e' c gc :
  c ∈ moved → G !! c = Some gc →
  ∃ pg0, pages_ tV !! c = Some pg0 ∧
         pages_ t' !! c = Some (SetParentPageId pg0 rp) ∧
         node_ok t' G' e' c (reparent rp gc) (SetParentPageId pg0 rp).
Proof.
  intros Hm Hgc.
  destruct (split_moved_in c Hm) as (h' & gc' & Hh & HinB & Hgc' & Hparc & Hhc & _).
  rewrite Hgc in Hgc'. injection Hgc' as <-.
  destruct (split_moved_ne c Hm) as (HcN & Hcrp & _).
  destruct (inv_page _ _ _ _ _ _ _ _ Hinv Hgc) as (pg0 & Hp0 & _ & Hok).
  exists pg0. split; [done|]. split.
  { rewrite (ps_moved _ _ _ _ _ _ _ _ _ _ Hpre c Hm), Hp0. done. }
  pose proof (split_fresh _ _ (ps_G _ _ _ _ _ _ _ _ _ _ Hpre)) as HNr.
  destruct (ps_rp _ _ _ _ _ _ _ _ _ _ Hpre) as [_ Hrp1].
  pose proof (ps_alloc _ _ _ _ _ _ _ _ _ _ Hpre) as Halloc.
  destruct (split_moved_ne c Hm) as (_ & _ & HcP).
  destruct (He c HcN) as (Hsh & _ & Hsl). specialize (Hsl HcP).
  destruct Hok as [Hid Hpar Hal Hblt Hsize Hshape]. split; simpl; try done.
  - lia.
  - pose proof (slack_lo_nonneg e' c). pose proof (slack_hi_nonneg e' c).
    unfold size_ok, is_root in *. simpl in *.
    rewrite (ps_lm _ _ _ _ _ _ _ _ _ _ Hpre), (ps_im _ _ _ _ _ _ _ _ _ _ Hpre).
    rewrite Hparc, Hsh, Hsl in Hsize.
    assert (rp =? INVALID_PAGE_ID = false) as -> by (apply Z.eqb_neq; unfold INVALID_PAGE_ID; lia).
    assert (N =? INVALID_PAGE_ID = false) as Hn by (apply Z.eqb_neq; unfold INVALID_PAGE_ID; lia).
    rewrite Hn in Hsize. unfold GetSize in *. simpl. destruct (g_h gc); lia.
  - unfold shape in *. simpl.
    rewrite (ps_lm _ _ _ _ _ _ _ _ _ _ Hpre), (ps_im _ _ _ _ _ _ _ _ _ _ Hpre).
    destruct (g_h gc) as [|h''] eqn:Hhc'; [done|].
    destruct Hshape as (? & ? & Hch). split; [done|]. split; [done|].
    eapply chain_frame; [done|]. intros d Hd.
    destruct (chain_children _ _ _ _ _ _ _ _ _ Hch Hd) as (gd & Hgd & Hpard & Hhd).
    apply split_lookup_other.
    + intros ->. rewrite (ps_G _ _ _ _ _ _ _ _ _ _ Hpre) in Hgd. injection Hgd as <-. lia.
    + apply split_fresh in Hgd. lia.
    + intros Hm'. destruct (split_moved_in d Hm') as (? & gd' & ? & _ & Hgd' & Hpd' & _).
      rewrite Hgd in Hgd'. injection Hgd' as <-. congruence.
Qed.

Lemma split_lookup_parent : G' !! g_parent gN = G !! g_parent gN.
Proof.
  pose proof (ps_G _ _ _ _ _ _ _ _ _ _ Hpre) as HG.
  destruct (ps_rp _ _ _ _ _ _ _ _ _ _ Hpre) as [_ Hrp1].
  pose proof (split_fresh _ _ HG) as HNr.
  apply split_lookup_other.
  - intros Heq. destruct (decide (g_parent gN = INVALID_PAGE_ID)) as [Hi|Hi].
    { rewrite Heq in Hi. unfold INVALID_PAGE_ID in Hi. lia. }
    destruct (inv_up _ _ _ _ _ _ Hinv N gN HG Hi) as (gP & _ & _ & HgP & HhP & _).
    rewrite Heq, HG in HgP. injection HgP as <-. lia.
  - intros Heq. destruct (decide (g_parent gN = INVALID_PAGE_ID)) as [Hi|Hi].
    { rewrite Heq in Hi. unfold INVALID_PAGE_ID in Hi. lia. }
    destruct (inv_up _ _ _ _ _ _ Hinv N gN HG Hi) as (gP & _ & _ & HgP & HhP & _).
    rewrite Heq, split_rp_fresh in HgP. done.
  - intros Hm. by destruct (split_moved_ne _ Hm) as (_ & _ & ?).
Qed.

(** Pages higher than [N] keep their ghost entries. *)
Lemma split_lookup_high q gq :
  G !! q = Some gq → (g_h gN < g_h gq)%nat → G' !! q = Some gq.
Proof.
  intros Hq Hh. pose proof (ps_G _ _ _ _ _ _ _ _ _ _ Hpre) as HG.
  rewrite split_lookup_other; [done|..].
  - intros ->. rewrite HG in Hq. injection Hq as <-. lia.
  - intros ->. by rewrite split_rp_fresh in Hq.
  - intros Hm. destruct (split_moved_in _ Hm) as (h' & gc & ? & _ & Hgc & _ & ? & _).
    rewrite Hq in Hgc. injection Hgc as <-. lia.
Qed.

(** The invariant after the split, for a store [t''] that differs from
    [t'] in the parent of [N], in which the pair of [rp] is placed. *)
Lemma split_inv t'' e' tops' :
  leaf_max_size_ t'' = leaf_max_size_ t' →
  internal_max_size_ t'' = internal_max_size_ t' →
  alloc_ t'' = alloc_ t' →
  (∀ p, p ≠ g_parent gN → pages_ t'' !! p = pages_ t' !! p) →
  (∀ gP pgP, G !! g_parent gN = Some gP → pages_ tV !! g_parent gN = Some pgP →
     ∃ pg, pages_ t'' !! g_parent gN = Some pg ∧ node_ok t'' G' e' (g_parent gN) gP pg ∧
           (∀ k c, (k, c) ∈ array_ pgP → (k, c) ∈ array_ pg) ∧ (sep, rp) ∈ array_ pg) →
  (∃ fst, chain G' INVALID_PAGE_ID hr None tops' None fst INVALID_PAGE_ID) →
  (g_parent gN = INVALID_PAGE_ID → N ∈ tops'.*2 ∧ rp ∈ tops'.*2) →
  (root ≠ N → root ∈ tops'.*2) →
  inv t'' G' e' hr tops'.
Proof.
  intros Hlm'' Him'' Hal'' Hpages HPP Htops HtopN Htopr.
  pose proof (ps_G _ _ _ _ _ _ _ _ _ _ Hpre) as HG.
  destruct (ps_rp _ _ _ _ _ _ _ _ _ _ Hpre) as [_ Hrp1].
  pose proof (split_fresh _ _ HG) as HNr.
  pose proof split_N_rp as HNrp.
  pose proof split_rp_fresh as Hfresh.
  assert (HPPne : g_parent gN ≠ N ∧ g_parent gN ≠ rp ∧ g_parent gN ∉ moved).
  { split; [|split].
    - intros Heq. destruct (decide (g_parent gN = INVALID_PAGE_ID)) as [Hi|Hi].
      { rewrite Heq in Hi. unfold INVALID_PAGE_ID in Hi. lia. }
      destruct (inv_up _ _ _ _ _ _ Hinv N gN HG Hi) as (gP & _ & _ & HgP & HhP & _).
      rewrite Heq, HG in HgP. injection HgP as <-. lia.
    - intros Heq. destruct (decide (g_parent gN = INVALID_PAGE_ID)) as [Hi|Hi].
      { rewrite Heq in Hi. unfold INVALID_PAGE_ID in Hi. lia. }
      destruct (inv_up _ _ _ _ _ _ Hinv N gN HG Hi) as (gP & _ & _ & HgP & HhP & _).
      rewrite Heq, Hfresh in HgP. done.
    - intros Hm. by destruct (split_moved_ne _ Hm) as (_ & _ & ?). }
  destruct HPPne as (HPN & HPrp & HPm).
  assert (HGPP : G' !! g_parent gN = G !! g_parent gN) by by apply split_lookup_other.
  eapply (inv_update INTERNAL_PAGE_SIZE tV G e hr [(k0, root)] t'' G' e' hr tops'
            (N :: rp :: g_parent gN :: moved)); try done.
  - rewrite Hlm''. apply (ps_lm _ _ _ _ _ _ _ _ _ _ Hpre).
  - rewrite Him''. apply (ps_im _ _ _ _ _ _ _ _ _ _ Hpre).
  - rewrite Hal''. apply (ps_alloc _ _ _ _ _ _ _ _ _ _ Hpre).
  - rewrite Hal''. pose proof (ps_alloc _ _ _ _ _ _ _ _ _ _ Hpre).
    pose proof (inv_fuel _ _ _ _ _ _ Hinv). lia.
  - (* U1 *)
    intros p g' Hg' Hd. rewrite !not_elem_of_cons in Hd. destruct Hd as (? & ? & ? & ?).
    rewrite split_lookup_other in Hg' by done. split; [done|].
    rewrite Hpages by done. by apply (ps_other _ _ _ _ _ _ _ _ _ _ Hpre).
  - (* U2 *)
    intros p g Hg Hd. rewrite !not_elem_of_cons in Hd. destruct Hd as (? & ? & ? & ?).
    by rewrite split_lookup_other.
  - (* U3 *)
    intros c g Hg Hne. destruct (decide (c = N)) as [->|HcN].
    { rewrite HG in Hg. injection Hg as <-. left. right. right. left. }
    destruct (decide (c ∈ moved)) as [Hm|Hm].
    { destruct (split_moved_in c Hm) as (_ & gc & _ & _ & Hgc & Hpar & _).
      rewrite Hg in Hgc. injection Hgc as <-. left. rewrite Hpar. left. }
    exfalso. apply Hne. rewrite split_lookup_other; try done.
    intros ->. by rewrite Hfresh in Hg.
  - (* U4 *)
    intros p g' Hg' Hd.
    assert (Hext : ∀ g pg, node_ok t' G' e' p g pg → node_ok t'' G' e' p g pg).
    { intros g pg Hok. eapply node_ok_ext; [done|done|done|lia]. }
    destruct (decide (p = N)) as [->|HpN].
    { rewrite split_lookup_N in Hg'. injection Hg' as <-.
      destruct (split_node_N e') as (pg & ? & _ & ?). exists pg.
      rewrite Hpages by done. split; [done|]. by apply Hext. }
    destruct (decide (p = rp)) as [->|Hprp].
    { rewrite split_lookup_rp in Hg'. injection Hg' as <-.
      destruct (split_node_rp e') as (pg & ? & _ & ?). exists pg.
      rewrite Hpages by done. split; [done|]. by apply Hext. }
    destruct (decide (p ∈ moved)) as [Hm|Hm].
    { destruct (split_moved_in p Hm) as (_ & gc & _ & _ & Hgc & _).
      rewrite (split_lookup_moved _ _ Hm Hgc) in Hg'. injection Hg' as <-.
      destruct (split_node_moved e' p gc Hm Hgc) as (pg0 & _ & ? & ?).
      exists (SetParentPageId pg0 rp). rewrite Hpages; [|by intros ->].
      split; [done|]. by apply Hext. }
    rewrite !elem_of_cons in Hd. destruct Hd as [?|[?|[->|?]]]; try done.
    rewrite HGPP in Hg'.
    destruct (inv_page _ _ _ _ _ _ _ _ Hinv Hg') as (pgP & HpP & _ & _).
    destruct (HPP g' pgP Hg' HpP) as (pg & ? & ? & _). by exists pg.
  - (* U5 *)
    intros p g' Hg' _.
    assert (HPPfacts : g_parent gN ≠ INVALID_PAGE_ID →
              ∃ gP pg kN, G' !! g_parent gN = Some gP ∧ g_h gP = S (g_h gN) ∧
                pages_ t'' !! g_parent gN = Some pg ∧ (kN, N) ∈ array_ pg ∧
                (sep, rp) ∈ array_ pg ∧
                (∀ pgP, pages_ tV !! g_parent gN = Some pgP →
                   ∀ k c, (k, c) ∈ array_ pgP → (k, c) ∈ array_ pg)).
    { intros Hi.
      destruct (inv_parent _ _ _ _ _ _ _ _ Hinv HG Hi)
        as (gP & pgP & l1 & kN & l2 & HgP & HhP & HpP & _ & Harr & _).
      destruct (HPP gP pgP HgP HpP) as (pg & Hpg & _ & Hmono & Hsep).
      exists gP, pg, kN. rewrite HGPP. do 3 (split; [done|]). split.
      { apply Hmono. rewrite Harr. apply elem_of_app. right. left. }
      split; [done|]. intros pgP' HpP'. rewrite HpP in HpP'. by injection HpP' as <-. }
    unfold up_ok. rewrite split_lookup in Hg'.
    destruct (decide (p = N)) as [->|HpN].
    { injection Hg' as <-. simpl. split; [by intros; apply HtopN|].
      intros Hi. destruct (HPPfacts Hi) as (gP & pg & kN & ? & ? & ? & ? & _).
      by exists gP, pg, kN. }
    destruct (decide (p = rp)) as [->|Hprp].
    { injection Hg' as <-. simpl. split; [by intros; apply HtopN|].
      intros Hi. destruct (HPPfacts Hi) as (gP & pg & kN & ? & ? & ? & _ & ? & _).
      by exists gP, pg, sep. }
    destruct (decide (p ∈ moved)) as [Hm|Hm].
    { destruct (split_moved_in p Hm) as (h' & gc & Hh & HinB & Hgc & _ & Hhc & _).
      rewrite Hgc in Hg'. injection Hg' as <-. simpl.
      split; [intros Hi; unfold INVALID_PAGE_ID in Hi; lia|]. intros _.
      destruct (split_node_rp e') as (pgR & HpR & HaR & _).
      apply list_elem_of_fmap in HinB as ([k c] & -> & HinB).
      exists gR, pgR, k. rewrite split_lookup_rp, Hpages, HpR, HaR by done. simpl.
      repeat split; try done. congruence. }
    split.
    { intros Hi. pose proof (inv_top _ _ _ _ _ _ Hinv p g' Hg' Hi) as Hin.
      simpl in Hin. apply list_elem_of_singleton in Hin as ->. by apply Htopr. }
    intros Hi.
    destruct (inv_up _ _ _ _ _ _ Hinv p g' Hg' Hi) as (gQ & pgQ & k & HgQ & HhQ & HpQ & Hin).
    destruct (decide (g_parent g' = N)) as [HQN|HQN].
    { rewrite HQN in *. rewrite HG in HgQ. injection HgQ as <-.
      destruct (split_node_N e') as (pgL & HpL & HaL & _).
      destruct Hpre as [_ (pgV & _ & _ & HpV & Harr & _) _ _ _ _ _ _ _ _].
      rewrite HpV in HpQ. injection HpQ as <-. rewrite Harr in Hin.
      apply elem_of_app in Hin as [Hin|Hin].
      - exists gN', pgL, k. rewrite split_lookup_N, Hpages, HpL, HaL by done. done.
      - exfalso. apply Hm. unfold split_moved. rewrite HhQ.
        apply list_elem_of_fmap. by exists (k, p). }
    destruct (decide (g_parent g' = rp)) as [HQr|HQr].
    { rewrite HQr, Hfresh in HgQ. done. }
    destruct (decide (g_parent g' ∈ moved)) as [HQm|HQm].
    { destruct (split_node_moved e' _ gQ HQm HgQ) as (pg0 & Hp0 & Hp0' & _).
      rewrite HpQ in Hp0. injection Hp0 as <-.
      exists (reparent rp gQ), (SetParentPageId pgQ rp), k.
      rewrite (split_lookup_moved _ _ HQm HgQ), Hpages, Hp0'; [done|].
      intros Heq. by rewrite Heq in HQm. }
    destruct (decide (g_parent g' = g_parent gN)) as [HQP|HQP].
    { assert (g_parent gN ≠ INVALID_PAGE_ID) as Hi' by congruence.
      destruct (HPPfacts Hi') as (gP & pg & kN & HgP' & HhP' & Hpg & _ & _ & Hmono).
      rewrite HQP in *. exists gQ, pg, k. rewrite HGPP.
      do 3 (split; [done|]). by apply (Hmono pgQ). }
    exists gQ, pgQ, k. rewrite split_lookup_other, Hpages by done.
    rewrite (ps_other _ _ _ _ _ _ _ _ _ _ Hpre) by done. done.
  - (* U6 *)
    intros p Hp Hd. simpl in Hp. apply list_elem_of_singleton in Hp as ->.
    apply Htopr. intros ->. apply Hd. left.
  - (* U8 *)
    intros p g' Hg'. rewrite split_lookup in Hg'.
    pose proof (inv_height _ _ _ _ _ _ Hinv N gN HG).
    destruct (decide (p = N)); [by injection Hg' as <-|].
    destruct (decide (p = rp)); [by injection Hg' as <-|].
    destruct (decide (p ∈ moved)).
    + destruct (G !! p) as [g|] eqn:Hg; [|done]. injection Hg' as <-. simpl.
      apply (inv_height _ _ _ _ _ _ Hinv p g Hg).
    + apply (inv_height _ _ _ _ _ _ Hinv p g' Hg').
  - (* U9 *)
    intros p Hd. rewrite !not_elem_of_cons in Hd. destruct Hd as (HpN & _ & HpP & _).
    pose proof (slack_lo_nonneg e' p). pose proof (slack_hi_nonneg e' p).
    destruct (He p HpN) as (-> & _ & Hsl). rewrite (Hsl HpP). lia.
Qed.


Lemma split_pending_nonroot :
  g_parent gN ≠ INVALID_PAGE_ID →
  ∃ gP pgP l1 k l2,
    G !! g_parent gN = Some gP ∧ g_h gP = S (g_h gN) ∧
    pages_ tV !! g_parent gN = Some pgP ∧ pages_ t' !! g_parent gN = Some pgP ∧
    array_ pgP = l1 ++ (k, N) :: l2 ∧
    inv (write_page t' (g_parent gN) (set_array pgP (l1 ++ (k, N) :: (sep, rp) :: l2)))
        G' (Over (g_parent gN)) hr [(k0, root)].
Proof.
  intros Hi.
  pose proof (ps_G _ _ _ _ _ _ _ _ _ _ Hpre) as HG.
  pose proof (split_fresh _ _ HG) as HNr.
  pose proof (inv_all_blt _ _ _ _ _ _ Hinv) as Hblt.
  destruct (inv_parent _ _ _ _ _ _ _ _ Hinv HG Hi)
    as (gP & pgP & l1 & kN & l2 & HgP & HhP & HpP & HokP & Harr & Hch).
  assert (HPN : g_parent gN ≠ N).
  { intros Heq. rewrite Heq, HG in HgP. injection HgP as <-. lia. }
  assert (HPr : g_parent gN ≠ rp).
  { intros Heq. rewrite Heq, split_rp_fresh in HgP. done. }
  assert (HPm : g_parent gN ∉ moved).
  { intros Hm. by destruct (split_moved_ne _ Hm) as (_ & _ & ?). }
  assert (Hsib : ∀ c, c ∈ (l1 ++ l2).*2 → G' !! c = G !! c).
  { intros c Hin. pose proof (chain_NoDup _ _ _ _ _ _ _ _ Hblt Hch) as Hnd.
    rewrite Harr in Hnd, Hch.
    assert (c ∈ (l1 ++ (kN, N) :: l2).*2) as Hin'.
    { rewrite fmap_app in *. rewrite elem_of_app in *. simpl. destruct Hin; [by left|].
      right. by right. }
    destruct (chain_children _ _ _ _ _ _ _ _ _ Hch Hin') as (gc & Hgc & Hparc & _).
    apply split_lookup_other.
    - intros ->. rewrite fmap_app in Hnd. simpl in Hnd.
      apply NoDup_app in Hnd as (_ & Hd & Hnd2). apply NoDup_cons in Hnd2 as [Hn2 _].
      rewrite fmap_app, elem_of_app in Hin. destruct Hin as [Hin|Hin]; [|done].
      apply (Hd _ Hin). left.
    - apply split_fresh in Hgc. lia.
    - intros Hm. destruct (split_moved_in c Hm) as (_ & gc' & _ & _ & Hgc' & Hpar' & _).
      rewrite Hgc in Hgc'. injection Hgc' as <-. congruence. }
  assert (HpP' : pages_ t' !! g_parent gN = Some pgP).
  { by rewrite (ps_other _ _ _ _ _ _ _ _ _ _ Hpre). }
  exists gP, pgP, l1, kN, l2. do 5 (split; [done|]).
  apply split_inv; try done.
  - intros p Hp. simpl. by rewrite lookup_insert_ne.
  - intros gP' pgP' HgP' HpP''. rewrite HgP in HgP'. injection HgP' as <-.
    rewrite HpP in HpP''. injection HpP'' as <-.
    exists (set_array pgP (l1 ++ (kN, N) :: (sep, rp) :: l2)). simpl.
    rewrite lookup_insert_eq. split; [done|]. split; [|split].
    + eapply (node_ok_ext t'); [|done|done|simpl; lia].
      destruct HokP as [Hid Hpar Hal Hb Hsize Hshape]. split; simpl; try done.
      * pose proof (ps_alloc _ _ _ _ _ _ _ _ _ _ Hpre). lia.
      * destruct (He _ HPN) as (Hsh & Hsl & _).
        assert (slack_hi (Over (g_parent gN)) (g_parent gN) = 1) as Hs1.
        { unfold slack_hi. by rewrite decide_True. }
        unfold size_ok in *. rewrite HhP in *. rewrite Hs1, Hsh in *.
        change (slack_lo (Over (g_parent gN)) (g_parent gN)) with 0.
        rewrite (ps_im _ _ _ _ _ _ _ _ _ _ Hpre).
        unfold GetSize in *. simpl. rewrite Harr in Hsize.
        rewrite !length_app in *. simpl in *. lia.
      * unfold shape in *. rewrite HhP in *. simpl.
        rewrite (ps_im _ _ _ _ _ _ _ _ _ _ Hpre).
        destruct Hshape as (? & ? & _). split; [done|]. split; [done|].
        rewrite Harr in Hch. apply chain_middle in Hch as (m1 & m2 & Hp1 & Hc & Hs2).
        destruct Hc as (g & Hg & _ & _ & Hlo & Hhi & Hf & Hn).
        rewrite HG in Hg. injection Hg as <-.
        apply chain_middle. exists m1, mid. split; [|split].
        -- eapply pchain_frame; [done|]. intros c Hin. apply Hsib.
           rewrite fmap_app, elem_of_app. by left.
        -- exists gN'. rewrite split_lookup_N. simpl. by repeat split.
        -- simpl. apply (chain_middle _ _ _ _ [] sep rp l2). exists mid, m2.
           split; [done|]. split.
           ++ exists gR. rewrite split_lookup_rp. simpl. by repeat split.
           ++ eapply schain_frame; [done|]. intros c Hin. apply Hsib.
              rewrite fmap_app, elem_of_app. by right.
    + intros k c. rewrite Harr, !elem_of_app, !elem_of_cons. tauto.
    + rewrite elem_of_app, !elem_of_cons. tauto.
  - destruct (inv_tops _ _ _ _ _ _ Hinv) as (fst & Hc). exists fst.
    apply chain_one in Hc. apply chain_one. eapply child_frame; [done|].
    destruct Hc as (g & Hg & Hpar & _).
    apply split_lookup_other.
    + intros ->. rewrite HG in Hg. injection Hg as <-. done.
    + apply split_fresh in Hg. lia.
    + intros Hm. destruct (split_moved_in _ Hm) as (_ & gc' & _ & _ & Hgc' & Hpar' & _).
      rewrite Hg in Hgc'. injection Hgc' as <-. rewrite Hpar in Hpar'.
      unfold INVALID_PAGE_ID in Hpar'. lia.
  - intros _. simpl. left.
Qed.

Lemma split_pending_root :
  g_parent gN = INVALID_PAGE_ID →
  root = N ∧ g_h gN = hr ∧ inv t' G' NoExc hr [(k0, N); (sep, rp)].
Proof.
  intros Hi.
  pose proof (ps_G _ _ _ _ _ _ _ _ _ _ Hpre) as HG.
  pose proof (inv_top _ _ _ _ _ _ Hinv N gN HG Hi) as Hroot.
  simpl in Hroot. apply list_elem_of_singleton in Hroot.
  destruct (inv_root _ _ _ _ _ _ _ Hinv) as (g & Hg & _ & Hh & Hlo & Hhi & Hn).
  rewrite <- Hroot, HG in Hg. injection Hg as <-.
  split; [done|]. split; [done|].
  apply split_inv; try done.
  - intros gP pgP HgP. apply split_fresh in HgP. rewrite Hi in HgP.
    unfold INVALID_PAGE_ID in HgP. lia.
  - exists (g_first gN). apply chain_cons. exists mid. split.
    + exists gN'. rewrite split_lookup_N. simpl. by repeat split.
    + apply chain_one. exists gR. rewrite split_lookup_rp. simpl. by repeat split.
  - intros _. simpl. split; [left|right; left].
Qed.

Lemma split_contents kv : contents t' G' kv ↔ contents tV G kv.
Proof.
  pose proof (ps_G _ _ _ _ _ _ _ _ _ _ Hpre) as HG.
  pose proof split_rp_fresh as Hfresh.
  destruct (split_node_N NoExc) as (pgL & HpL & HaL & _).
  destruct (split_node_rp NoExc) as (pgR & HpR & HaR & _).
  assert (∃ pgV, pages_ tV !! N = Some pgV ∧ array_ pgV = A ++ B) as (pgV & HpV & HaV).
  { destruct Hpre as [_ (pgV & _ & _ & ? & ? & _) _ _ _ _ _ _ _ _]. by exists pgV. }
  split.
  - intros (p & g' & pg & Hg' & Hh & Hpg & Hin). rewrite split_lookup in Hg'.
    destruct (decide (p = N)) as [->|HpN].
    { injection Hg' as <-. simpl in Hh. exists N, gN, pgV.
      do 3 (split; [done|]). rewrite HaV, elem_of_app. left. congruence. }
    destruct (decide (p = rp)) as [->|Hpr].
    { injection Hg' as <-. simpl in Hh. exists N, gN, pgV.
      do 3 (split; [done|]). rewrite HaV, elem_of_app. right. congruence. }
    destruct (decide (p ∈ moved)) as [Hm|Hm].
    { destruct (G !! p) as [gc|] eqn:Hgc; [|done]. injection Hg' as <-.
      destruct (split_node_moved NoExc p gc Hm Hgc) as (pg0 & Hp0 & Hp0' & _).
      rewrite Hpg in Hp0'. injection Hp0' as ->. by exists p, gc, pg0. }
    exists p, g', pg. rewrite <- (ps_other _ _ _ _ _ _ _ _ _ _ Hpre) by done. done.
  - intros (p & g & pg & Hg & Hh & Hpg & Hin).
    destruct (decide (p = N)) as [->|HpN].
    { rewrite HG in Hg. injection Hg as <-. rewrite HpV in Hpg. injection Hpg as <-.
      rewrite HaV, elem_of_app in Hin. destruct Hin as [Hin|Hin].
      - exists N, gN', pgL. rewrite split_lookup_N, HaL. done.
      - exists rp, gR, pgR. rewrite split_lookup_rp, HaR. done. }
    destruct (decide (p = rp)) as [->|Hpr]; [by rewrite Hfresh in Hg|].
    destruct (decide (p ∈ moved)) as [Hm|Hm].
    { destruct (split_node_moved NoExc p g Hm Hg) as (pg0 & Hp0 & Hp0' & _).
      rewrite Hpg in Hp0. injection Hp0 as <-.
      exists p, (reparent rp g), (SetParentPageId pg rp).
      rewrite (split_lookup_moved _ _ Hm Hg). done. }
    exists p, g, pg. rewrite split_lookup_other by done.
    rewrite (ps_other _ _ _ _ _ _ _ _ _ _ Hpre) by done. done.
Qed.

End Split.

Lemma contents_write_internal t G P pg kv :
  (∀ g, G !! P = Some g → g_h g ≠ O) →
  contents (write_page t P pg) G kv ↔ contents t G kv.
Proof.
  intros HP. split; intros (p & g & pg' & Hg & Hh & Hpg & Hin); exists p, g, pg'.
  - simpl in Hpg. rewrite lookup_insert_ne in Hpg; [done|].
    intros <-. by apply (HP g).
  - simpl. rewrite lookup_insert_ne; [done|]. intros <-. by apply (HP g).
Qed.

(** **** The pair of a new page in its parent *)

Lemma Internal_LowerBound_after p (l1 l2 : list (Z * Z)) kN cN key v :
  array_ p = l1 ++ (kN, cN) :: l2 →
  StronglySorted Z.lt (tail ((l1 ++ (kN, cN) :: (key, v) :: l2).*1)) →
  Internal_LowerBound p key = Z.of_nat (S (length l1)) ∧
  Forall (λ k, key < k) (l2.*1).
Proof.
  intros Harr Hs.
  destruct l1 as [|a l1].
  - simpl in *. apply StronglySorted_cons in Hs as [Hlt _].
    split; [|done].
    apply (Internal_LowerBound_split p (kN, cN) [] l2); [done|constructor|].
    eapply Forall_impl; [done|]. simpl. lia.
  - simpl in *. rewrite fmap_app in Hs. simpl in Hs.
    assert (Hs' : StronglySorted Z.lt ((l1.*1 ++ [kN]) ++ key :: l2.*1)).
    { rewrite <- app_assoc. exact Hs. }
    apply StronglySorted_app in Hs' as (H12 & _ & Hs2).
    apply StronglySorted_cons in Hs2 as [Hlt _].
    split; [|done].
    rewrite (Internal_LowerBound_split p a (l1 ++ [(kN, cN)]) l2 key).
    + rewrite length_app. simpl. f_equal. lia.
    + rewrite Harr, <- app_assoc. done.
    + rewrite fmap_app. simpl. apply Forall_forall. intros x Hx. apply H12; [done|left].
    + eapply Forall_impl; [done|]. simpl. lia.
Qed.

Lemma Internal_Insert_after p (l1 l2 : list (Z * Z)) kN cN key v :
  array_ p = l1 ++ (kN, cN) :: l2 →
  StronglySorted Z.lt (tail ((l1 ++ (kN, cN) :: (key, v) :: l2).*1)) →
  Internal_Insert p key v = (set_array p (l1 ++ (kN, cN) :: (key, v) :: l2), true).
Proof.
  intros Harr Hs.
  destruct (Internal_LowerBound_after p l1 l2 kN cN key v Harr Hs) as [Hlb Hl2].
  unfold Internal_Insert. rewrite Hlb.
  assert (Harr' : array_ p = (l1 ++ [(kN, cN)]) ++ l2) by by rewrite <- app_assoc.
  assert (Hlen : Z.of_nat (S (length l1)) = Z.of_nat (length (l1 ++ [(kN, cN)]))).
  { rewrite length_app. simpl. lia. }
  rewrite Hlen.
  assert ((Z.of_nat (length (l1 ++ [(kN, cN)])) <? GetSize p) &&
          (comparator_ key (KeyAt p (Z.of_nat (length (l1 ++ [(kN, cN)])))) =? 0) = false)
    as ->.
  { destruct l2 as [|[k2 c2] l2].
    - unfold GetSize. rewrite Harr', app_nil_r. rewrite Z.ltb_irrefl. done.
    - rewrite (KeyAt_middle p _ l2 k2 c2) by done. rewrite comparator_eq.
      apply Forall_cons in Hl2 as [Hlt _]. simpl in Hlt.
      rewrite (proj2 (Z.eqb_neq _ _)) by lia. apply andb_false_r. }
  rewrite Harr', insert_at_app, <- app_assoc. done.
Qed.

Lemma Internal_Split_after p new_page (l1 l2 : list (Z * Z)) kN cN key v :
  array_ p = l1 ++ (kN, cN) :: l2 →
  GetSize p = GetMaxSize p →
  StronglySorted Z.lt (tail ((l1 ++ (kN, cN) :: (key, v) :: l2).*1)) →
  Internal_Split p new_page key v =
    (set_array p (take (Z.to_nat (GetMinSize p)) (l1 ++ (kN, cN) :: (key, v) :: l2)),
     set_array new_page (drop (Z.to_nat (GetMinSize p)) (l1 ++ (kN, cN) :: (key, v) :: l2))).
Proof.
  intros Harr Hsz Hs.
  destruct (Internal_LowerBound_after p l1 l2 kN cN key v Harr Hs) as [Hlb Hl2].
  unfold Internal_Split. unfold GetSize in Hsz. rewrite <- Hsz, Nat2Z.id, firstn_all.
  unfold Internal_LowerBound, GetSize in Hlb. rewrite Hlb.
  assert (Harr' : array_ p = (l1 ++ [(kN, cN)]) ++ l2) by by rewrite <- app_assoc.
  assert (Hlen : Z.of_nat (S (length l1)) = Z.of_nat (length (l1 ++ [(kN, cN)]))).
  { rewrite length_app. simpl. lia. }
  rewrite Hlen, Harr', insert_at_app, <- app_assoc. done.
Qed.

(** **** The page set of a writer *)

Inductive cl (t : BPlusTree) (G : gmap Z ginfo) (op : OpeType) : nat → page_id_t → Prop :=
| cl_intro h p g pg :
    Some p ∈ page_set_ t → G !! p = Some g → g_h g = h → pages_ t !! p = Some pg →
    (g_parent g ≠ INVALID_PAGE_ID → IsSafe pg op = false →
     cl t G op (S h) (g_parent g)) →
    cl t G op h p.

Lemma cl_frame t G op t' G' h0 h p :
  cl t G op h p →
  page_set_ t' = page_set_ t →
  (∀ q gq, G !! q = Some gq → (h0 ≤ g_h gq)%nat →
     G' !! q = Some gq ∧ pages_ t' !! q = pages_ t !! q) →
  (h0 ≤ h)%nat →
  cl t' G' op h p.
Proof.
  intros Hcl Hps Hfr. induction Hcl as [h p g pg Hin Hg Hh Hpg Hrec IH]. intros Hle.
  destruct (Hfr p g Hg) as [Hg' Hpg']; [lia|].
  apply (cl_intro _ _ _ h p g pg); try done.
  - by rewrite Hps.
  - by rewrite Hpg'.
  - intros Hpar Hsafe. apply IH; [done..|lia].
Qed.

Section Closed.

Variable INTERNAL_PAGE_SIZE : Z.
Local Notation inv := (inv INTERNAL_PAGE_SIZE).

Lemma closed_cl t G e hr tops op :
  inv t G e hr tops → closed t G op →
  ∀ n p g, (hr - g_h g)%nat = n → G !! p = Some g → Some p ∈ page_set_ t →
    cl t G op (g_h g) p.
Proof.
  intros Hinv Hcl. induction n as [|n IH]; intros p g Hn Hg Hin.
  - destruct (inv_page _ _ _ _ _ _ _ _ Hinv Hg) as (pg & Hpg & _ & _).
    apply (cl_intro _ _ _ _ p g pg); try done. intros Hpar _.
    destruct (inv_up _ _ _ _ _ _ Hinv p g Hg Hpar) as (gP & _ & _ & HgP & HhP & _).
    pose proof (inv_height _ _ _ _ _ _ Hinv _ _ HgP).
    pose proof (inv_height _ _ _ _ _ _ Hinv _ _ Hg). lia.
  - destruct (inv_page _ _ _ _ _ _ _ _ Hinv Hg) as (pg & Hpg & _ & _).
    apply (cl_intro _ _ _ _ p g pg); try done. intros Hpar Hsafe.
    destruct (inv_up _ _ _ _ _ _ Hinv p g Hg Hpar) as (gP & _ & _ & HgP & HhP & _).
    rewrite <- HhP. apply IH; [lia|done|].
    by apply (Hcl p g pg).
Qed.

Lemma inv_tops_key t G e hr k0 k1 r :
  inv t G e hr [(k0, r)] → inv t G e hr [(k1, r)].
Proof. intros []. by split. Qed.

End Closed.

(** **** A new root above two pages *)

Section NewRoot.

Variable INTERNAL_PAGE_SIZE : Z.
Local Notation inv := (inv INTERNAL_PAGE_SIZE).

Lemma node_ok_reparent t G e p g pg t' G' e' P' :
  node_ok t G e p g pg →
  leaf_max_size_ t' = leaf_max_size_ t →
  internal_max_size_ t' = internal_max_size_ t →
  alloc_ t ≤ alloc_ t' →
  size_ok t' e' p (reparent P' g) pg →
  (∀ c, c ∈ (array_ pg).*2 → g_h g ≠ O → G' !! c = G !! c) →
  node_ok t' G' e' p (reparent P' g) (SetParentPageId pg P').
Proof.
  intros [Hid Hpar Hal Hblt Hsize Hshape] Hl Hi Ha Hsz Hch. split; simpl; try done.
  - lia.
  - unfold shape in *. simpl. rewrite Hl, Hi. destruct (g_h g) as [|h'] eqn:Hh; [done|].
    destruct Hshape as (? & ? & Hc). split; [done|]. split; [done|].
    eapply chain_frame; [done|]. intros c Hin. by apply Hch.
Qed.

Lemma size_ok_nonroot t p g pg :
  size_ok t NoExc p g pg → g_parent g ≠ INVALID_PAGE_ID →
  min_size_of_ok t (g_h g) (GetSize pg).
Proof.
  unfold size_ok, min_size_of_ok, min_size_of, cap_of, is_root. simpl. intros Hs Hne.
  rewrite (proj2 (Z.eqb_neq _ _)) in Hs by done. destruct (g_h g); lia.
Qed.

Lemma new_root_inv t G hr k0 N sep rp gN gR pgL pgR t' :
  inv t G NoExc hr [(k0, N); (sep, rp)] →
  G !! N = Some gN → G !! rp = Some gR →
  pages_ t !! N = Some pgL → pages_ t !! rp = Some pgR →
  min_size_of_ok t hr (GetSize pgL) → min_size_of_ok t hr (GetSize pgR) →
  leaf_max_size_ t' = leaf_max_size_ t →
  internal_max_size_ t' = internal_max_size_ t →
  alloc_ t' = alloc_ t + 1 →
  pages_ t' =
    <[rp := SetParentPageId pgR (alloc_ t)]>
      (<[N := SetParentPageId pgL (alloc_ t)]>
         (<[alloc_ t := mkPage INTERNAL_PAGE (internal_max_size_ t) INVALID_PAGE_ID (alloc_ t)
                          INVALID_PAGE_ID [(0, N); (sep, rp)]]> (pages_ t))) →
  ∃ G', inv t' G' NoExc (S hr) [(0, alloc_ t)] ∧
        ∀ kv, contents t' G' kv ↔ contents t G kv.
Proof.
  intros Hinv HgN HgR HpL HpR HsL HsR Hlm Him Hal Hpages.
  set (root := alloc_ t) in *.
  set (G' := <[root := mkG INVALID_PAGE_ID (S hr) None None (g_first gN) INVALID_PAGE_ID]>
               (<[N := reparent root gN]> (<[rp := reparent root gR]> G))).
  destruct (inv_tops _ _ _ _ _ _ Hinv) as (fst & Htops).
  apply chain_cons in Htops as (m & HcN & HcR). apply chain_one in HcR.
  destruct HcN as (g1 & Hg1 & HparN & HhN & HloN & HhiN & HfN & HnN).
  rewrite HgN in Hg1. injection Hg1 as <-.
  destruct HcR as (g2 & Hg2 & HparR & HhR & HloR & HhiR & HfR & HnR).
  rewrite HgR in Hg2. injection Hg2 as <-.
  assert (Hfresh : ∀ p g, G !! p = Some g → 1 ≤ p < root).
  { intros p g Hg. by destruct (inv_page _ _ _ _ _ _ _ _ Hinv Hg) as (pg & _ & _ & []). }
  pose proof (Hfresh _ _ HgN) as HN. pose proof (Hfresh _ _ HgR) as HR.
  assert (HNR : N ≠ rp).
  { intros ->. rewrite HgN in HgR. injection HgR as <-. rewrite HhiN in HhiR. done. }
  assert (Hroot : G !! root = None).
  { destruct (G !! root) as [g|] eqn:Hg; [|done]. apply Hfresh in Hg. lia. }
  assert (HG'N : G' !! N = Some (reparent root gN)).
  { unfold G'. rewrite lookup_insert_ne by lia. by rewrite lookup_insert_eq. }
  assert (HG'R : G' !! rp = Some (reparent root gR)).
  { unfold G'. rewrite lookup_insert_ne by lia. rewrite lookup_insert_ne by done.
    by rewrite lookup_insert_eq. }
  assert (HG'r : G' !! root =
            Some (mkG INVALID_PAGE_ID (S hr) None None (g_first gN) INVALID_PAGE_ID)).
  { unfold G'. by rewrite lookup_insert_eq. }
  assert (HG'o : ∀ p, p ≠ N → p ≠ rp → p ≠ root → G' !! p = G !! p).
  { intros p ? ? ?. unfold G'. by rewrite !lookup_insert_ne. }
  assert (HP'N : pages_ t' !! N = Some (SetParentPageId pgL root)).
  { rewrite Hpages. rewrite lookup_insert_ne by done. by rewrite lookup_insert_eq. }
  assert (HP'R : pages_ t' !! rp = Some (SetParentPageId pgR root)).
  { rewrite Hpages. by rewrite lookup_insert_eq. }
  assert (HP'o : ∀ p, p ≠ N → p ≠ rp → p ≠ root → pages_ t' !! p = pages_ t !! p).
  { intros p ? ? ?. rewrite Hpages. by rewrite !lookup_insert_ne. }
  assert (Hchild : ∀ p g pg c, G !! p = Some g → pages_ t !! p = Some pg →
            c ∈ (array_ pg).*2 → g_h g ≠ O → G' !! c = G !! c).
  { intros p g pg c Hg Hpg Hin Hh.
    destruct (inv_page _ _ _ _ _ _ _ _ Hinv Hg) as (pg' & Hpg' & _ & Hok).
    rewrite Hpg in Hpg'. injection Hpg' as <-. destruct Hok. unfold shape in no_shape0.
    destruct (g_h g) as [|h'] eqn:Hhg; [done|]. destruct no_shape0 as (_ & _ & Hch).
    destruct (chain_children _ _ _ _ _ _ _ _ _ Hch Hin) as (gc & Hgc & Hparc & _).
    pose proof (Hfresh _ _ Hg). apply HG'o.
    - intros ->. rewrite HgN in Hgc. injection Hgc as <-. rewrite HparN in Hparc.
      unfold INVALID_PAGE_ID in Hparc. lia.
    - intros ->. rewrite HgR in Hgc. injection Hgc as <-. rewrite HparR in Hparc.
      unfold INVALID_PAGE_ID in Hparc. lia.
    - intros ->. by rewrite Hroot in Hgc. }
  exists G'. split.
  - eapply (inv_update INTERNAL_PAGE_SIZE t G NoExc hr [(k0, N); (sep, rp)] t' G' NoExc
              (S hr) [(0, root)] [N; rp; root]); try done.
    + lia.
    + pose proof (inv_fuel _ _ _ _ _ _ Hinv). lia.
    + intros p g' Hg' Hd. rewrite !not_elem_of_cons in Hd. destruct Hd as (? & ? & ? & _).
      rewrite HG'o in Hg' by done. split; [done|]. by apply HP'o.
    + intros p g Hg Hd. rewrite !not_elem_of_cons in Hd. destruct Hd as (? & ? & ? & _).
      by rewrite HG'o.
    + intros c g Hg Hne. right.
      destruct (decide (c = N)) as [->|?]; [congruence|].
      destruct (decide (c = rp)) as [->|?]; [congruence|].
      destruct (decide (c = root)) as [->|?]; [congruence|].
      rewrite HG'o in Hne by done. done.
    + intros p g' Hg' Hd. rewrite !elem_of_cons in Hd.
      pose proof (inv_lmax _ _ _ _ _ _ Hinv). pose proof (inv_imax _ _ _ _ _ _ Hinv).
      destruct Hd as [->|[->|[->|Hd]]]; [| | |by inversion Hd].
      * rewrite HG'N in Hg'. injection Hg' as <-. eexists. split; [done|].
        destruct (inv_page _ _ _ _ _ _ _ _ Hinv HgN) as (pg' & Hpg' & _ & Hok).
        rewrite HpL in Hpg'. injection Hpg' as <-.
        eapply node_ok_reparent; [done|done|done|lia| |].
        -- apply size_ok_strong; [lia|lia|]. simpl. rewrite HhN.
           unfold min_size_of_ok, min_size_of, cap_of in *. by rewrite Hlm, Him.
        -- intros c. by apply (Hchild N gN pgL).
      * rewrite HG'R in Hg'. injection Hg' as <-. eexists. split; [done|].
        destruct (inv_page _ _ _ _ _ _ _ _ Hinv HgR) as (pg' & Hpg' & _ & Hok).
        rewrite HpR in Hpg'. injection Hpg' as <-.
        eapply node_ok_reparent; [done|done|done|lia| |].
        -- apply size_ok_strong; [lia|lia|]. simpl. rewrite HhR.
           unfold min_size_of_ok, min_size_of, cap_of in *. by rewrite Hlm, Him.
        -- intros c. by apply (Hchild rp gR pgR).
      * rewrite HG'r in Hg'. injection Hg' as <-. eexists. split.
        { rewrite Hpages. rewrite lookup_insert_ne by lia. rewrite lookup_insert_ne by lia.
          by rewrite lookup_insert_eq. }
        split; simpl; try done.
        -- fold root. lia.
        -- unfold size_ok. simpl. rewrite Him. unfold GetSize. simpl. lia.
        -- unfold shape. simpl. rewrite Him. split; [done|]. split; [done|].
           exists m. split.
           ++ exists (reparent root gN). rewrite HG'N. simpl. by repeat split.
           ++ exists (reparent root gR). rewrite HG'R. simpl. by repeat split.
    + intros p g' Hg' _. unfold up_ok.
      destruct (decide (p = N)) as [->|HpN].
      { rewrite HG'N in Hg'. injection Hg' as <-. simpl.
        split; [intros Hi; unfold INVALID_PAGE_ID in Hi; lia|]. intros _.
        eexists _, _, 0. rewrite HG'r. split; [done|]. simpl. split; [by rewrite HhN|].
        split.
        { rewrite Hpages. rewrite lookup_insert_ne by lia. rewrite lookup_insert_ne by lia.
          by rewrite lookup_insert_eq. }
        simpl. left. }
      destruct (decide (p = rp)) as [->|Hpr].
      { rewrite HG'R in Hg'. injection Hg' as <-. simpl.
        split; [intros Hi; unfold INVALID_PAGE_ID in Hi; lia|]. intros _.
        eexists _, _, sep. rewrite HG'r. split; [done|]. simpl. split; [by rewrite HhR|].
        split.
        { rewrite Hpages. rewrite lookup_insert_ne by lia. rewrite lookup_insert_ne by lia.
          by rewrite lookup_insert_eq. }
        simpl. right. left. }
      destruct (decide (p = root)) as [->|Hproot].
      { rewrite HG'r in Hg'. injection Hg' as <-. simpl. split; [intros _; left|done]. }
      rewrite HG'o in Hg' by done. split.
      { intros Hi. pose proof (inv_top _ _ _ _ _ _ Hinv p g' Hg' Hi) as Hin.
        simpl in Hin. rewrite !elem_of_cons in Hin. destruct Hin as [?|[?|Hin]]; try done.
        inversion Hin. }
      intros Hi.
      destruct (inv_up _ _ _ _ _ _ Hinv p g' Hg' Hi) as (gQ & pgQ & k & HgQ & HhQ & HpQ & Hin).
      destruct (decide (g_parent g' = N)) as [HQ|HQN].
      { rewrite HQ in *. rewrite HgN in HgQ. injection HgQ as <-.
        rewrite HpL in HpQ. injection HpQ as <-.
        exists (reparent root gN), (SetParentPageId pgL root), k. by rewrite HG'N, HP'N. }
      destruct (decide (g_parent g' = rp)) as [HQ|HQR].
      { rewrite HQ in *. rewrite HgR in HgQ. injection HgQ as <-.
        rewrite HpR in HpQ. injection HpQ as <-.
        exists (reparent root gR), (SetParentPageId pgR root), k. by rewrite HG'R, HP'R. }
      assert (g_parent g' ≠ root) by (intros HQ; rewrite HQ, Hroot in HgQ; done).
      exists gQ, pgQ, k. by rewrite HG'o, HP'o.
    + intros p Hp Hd. simpl in Hp. rewrite !elem_of_cons in Hp. rewrite !not_elem_of_cons in Hd.
      destruct Hd as (? & ? & _). destruct Hp as [?|[?|Hp]]; try done. inversion Hp.
    + exists (g_first gN). apply chain_one. eexists. rewrite HG'r. simpl. by repeat split.
    + intros p g' Hg'.
      destruct (decide (p = N)) as [->|HpN].
      { rewrite HG'N in Hg'. injection Hg' as <-. simpl. lia. }
      destruct (decide (p = rp)) as [->|Hpr].
      { rewrite HG'R in Hg'. injection Hg' as <-. simpl. lia. }
      destruct (decide (p = root)) as [->|Hproot].
      { rewrite HG'r in Hg'. injection Hg' as <-. simpl. lia. }
      rewrite HG'o in Hg' by done. pose proof (inv_height _ _ _ _ _ _ Hinv p g' Hg'). lia.
  - (* contents *)
    apply contents_same.
    + intros p.
      destruct (decide (p = N)) as [->|HpN].
      { rewrite HG'N, HgN. split; intros (g & Hg & Hh); injection Hg as <-; eexists; done. }
      destruct (decide (p = rp)) as [->|Hpr].
      { rewrite HG'R, HgR. split; intros (g & Hg & Hh); injection Hg as <-; eexists; done. }
      destruct (decide (p = root)) as [->|Hproot].
      { rewrite HG'r, Hroot. split; intros (g & Hg & Hh); [done|]. by injection Hg as <-. }
      by rewrite HG'o.
    + intros p g Hg Hh.
      destruct (decide (p = N)) as [->|HpN]; [by rewrite HP'N, HpL|].
      destruct (decide (p = rp)) as [->|Hpr]; [by rewrite HP'R, HpR|].
      destruct (decide (p = root)) as [->|Hproot]; [by rewrite Hroot in Hg|].
      by rewrite HP'o.
Qed.

End NewRoot.

(** **** [InsertInParent] *)

Lemma GetPageFromTransaction_ok t p pg :
  Some p ∈ page_set_ t → pages_ t !! p = Some pg → GetPageFromTransaction t p = Ok pg.
Proof.
  intros Hin H. unfold GetPageFromTransaction. rewrite decide_True by done.
  by apply deref_ok.
Qed.

Lemma He_Over N PP p :
  p ≠ N → slack_hi (Over N) p = 0 ∧ slack_lo (Over N) p ≤ 1 ∧
          (p ≠ PP → slack_lo (Over N) p = 0).
Proof. intros Hp. unfold slack_hi. rewrite decide_False by done. simpl. by repeat split. Qed.

Section InsertInParent.

Variable INTERNAL_PAGE_SIZE : Z.
Local Notation inv := (inv INTERNAL_PAGE_SIZE).
Local Notation InsertInParent := (InsertInParent INTERNAL_PAGE_SIZE).

Lemma InsertInParent_root n t N rp sep pgL pgR :
  pages_ t !! N = Some pgL → pages_ t !! rp = Some pgR →
  IsRootPage pgL = true →
  N ≠ rp → N ≠ alloc_ t → rp ≠ alloc_ t →
  page_id_ pgL = N → page_id_ pgR = rp →
  internal_max_size_ t ≤ INTERNAL_PAGE_SIZE →
  ∃ t', InsertInParent (S n) t N rp sep = Ok t' ∧
    pages_ t' =
      <[rp := SetParentPageId pgR (alloc_ t)]>
        (<[N := SetParentPageId pgL (alloc_ t)]>
           (<[alloc_ t := mkPage INTERNAL_PAGE (internal_max_size_ t) INVALID_PAGE_ID
                            (alloc_ t) INVALID_PAGE_ID [(0, N); (sep, rp)]]> (pages_ t))) ∧
    root_page_id_ t' = alloc_ t ∧
    leaf_max_size_ t' = leaf_max_size_ t ∧ internal_max_size_ t' = internal_max_size_ t ∧
    alloc_ t' = alloc_ t + 1 ∧
    page_set_ t' = page_set_ t ∧ deleted_page_set_ t' = deleted_page_set_ t.
Proof.
  intros HpL HpR Hroot HNR HNa HRa HidL HidR Him.
  simpl. rewrite ?(FetchPage_ok _ _ _ HpL), ?(deref_ok _ _ _ HpL). simpl. rewrite Hroot.
  rewrite NewPage_ok. simpl. rewrite UpdateRootPageId_ok. simpl.
  unfold Internal_Init. simpl.
  assert ((INTERNAL_PAGE_SIZE <? internal_max_size_ t) = false) as ->.
  { apply Z.ltb_ge. lia. }
  unfold update_record, deref, GetPageId. simpl.
  destruct (header_ t); simpl.
  - rewrite lookup_insert_ne by done. rewrite HpR. simpl.
    rewrite lookup_insert_ne by done. rewrite lookup_insert_ne by done. rewrite HpL. simpl.
    rewrite lookup_insert_ne by done. rewrite lookup_insert_ne by done.
    rewrite lookup_insert_ne by done. rewrite HpR. simpl.
    eexists. split; [done|]. simpl. rewrite HidL, HidR.
    split; [|done]. f_equal. f_equal. by rewrite insert_insert_eq.
  - rewrite lookup_insert_ne by done. rewrite HpR. simpl.
    rewrite lookup_insert_ne by done. rewrite lookup_insert_ne by done. rewrite HpL. simpl.
    rewrite lookup_insert_ne by done. rewrite lookup_insert_ne by done.
    rewrite lookup_insert_ne by done. rewrite HpR. simpl.
    eexists. split; [done|]. simpl. rewrite HidL, HidR.
    split; [|done]. f_equal. f_equal. by rewrite insert_insert_eq.
Qed.

Lemma InsertInParent_nonfull n t N rp sep pgL pgP pgR :
  pages_ t !! N = Some pgL → IsRootPage pgL = false →
  Some (parent_page_id_ pgL) ∈ page_set_ t →
  pages_ t !! parent_page_id_ pgL = Some pgP →
  pages_ t !! rp = Some pgR →
  GetSize pgP < GetMaxSize pgP →
  InsertInParent (S n) t N rp sep =
    Ok (write_page t (parent_page_id_ pgL) (Internal_Insert pgP sep (page_id_ pgR)).1).
Proof.
  intros HpL Hroot Hin HpP HpR Hsz.
  simpl. rewrite ?(FetchPage_ok _ _ _ HpL), ?(deref_ok _ _ _ HpL). simpl. rewrite Hroot.
  unfold GetParentPageId. rewrite (GetPageFromTransaction_ok _ _ _ Hin HpP). simpl.
  rewrite ?(FetchPage_ok _ _ _ HpR), ?(deref_ok _ _ _ HpR). simpl.
  rewrite (proj2 (Z.ltb_lt _ _)) by done. done.
Qed.

Lemma InsertInParent_full n t N rp sep pgL pgP pgR :
  pages_ t !! N = Some pgL → IsRootPage pgL = false →
  Some (parent_page_id_ pgL) ∈ page_set_ t →
  pages_ t !! parent_page_id_ pgL = Some pgP →
  pages_ t !! rp = Some pgR →
  GetMaxSize pgP ≤ GetSize pgP →
  internal_max_size_ t ≤ INTERNAL_PAGE_SIZE →
  InsertInParent (S n) t N rp sep =
    let rp2 := alloc_ t in
    let right_parent := mkPage INTERNAL_PAGE (internal_max_size_ t) (parent_page_id_ pgP)
                          rp2 INVALID_PAGE_ID [] in
    let halves := Internal_Split pgP right_parent sep (page_id_ pgR) in
    let t2 := write_page (write_page (AllocatePage t).2 rp2 halves.2)
                (parent_page_id_ pgL) halves.1 in
    let* t3 := UpdateChildNode t2 rp2 ((array_ halves.2).*2) in
    InsertInParent n t3 (parent_page_id_ pgL) rp2 (KeyAt halves.2 0).
Proof.
  intros HpL Hroot Hin HpP HpR Hsz Him.
  cbn [BPT.InsertInParent]. rewrite ?(FetchPage_ok _ _ _ HpL), ?(deref_ok _ _ _ HpL). cbn [bind]. rewrite Hroot.
  unfold GetParentPageId. rewrite (GetPageFromTransaction_ok _ _ _ Hin HpP). cbn [bind].
  rewrite ?(FetchPage_ok _ _ _ HpR), ?(deref_ok _ _ _ HpR). cbn [bind].
  rewrite (proj2 (Z.ltb_ge _ _)) by done.
  rewrite NewPage_ok. cbn [bind].
  unfold Internal_Init, AllocatePage. cbn [internal_max_size_].
  assert ((INTERNAL_PAGE_SIZE <? internal_max_size_ t) = false) as ->.
  { apply Z.ltb_ge. lia. }
  unfold GetPageId. cbv zeta.
  destruct (Internal_Split pgP _ sep (page_id_ pgR)) as [parent' right'] eqn:Hsplit.
  cbn [fst snd]. unfold children_between.
  replace (Z.to_nat (GetSize right' - 0)) with (length (array_ right')).
  2:{ unfold GetSize. lia. }
  cbn [Z.to_nat]. rewrite drop_0, firstn_all. done.
Qed.


Lemma InsertInParent_spec :
  ∀ fuel tV t G hr k0 N gN A sep cB B' rp,
    inv tV G (Over N) hr [(k0, root_page_id_ t)] →
    presplit tV t G N gN A sep cB B' rp →
    (hr - g_h gN < fuel)%nat →
    (g_parent gN ≠ INVALID_PAGE_ID → cl t G INSERT (S (g_h gN)) (g_parent gN)) →
    ∃ t' G' hr', InsertInParent fuel t N rp sep = Ok t' ∧
      inv t' G' NoExc hr' [(0, root_page_id_ t')] ∧
      (∀ kv, contents t' G' kv ↔ contents tV G kv) ∧
      page_set_ t' = page_set_ t ∧ deleted_page_set_ t' = deleted_page_set_ t ∧
      leaf_max_size_ t' = leaf_max_size_ t ∧ internal_max_size_ t' = internal_max_size_ t.
Proof.
  induction fuel as [|n IH]; intros tV t G hr k0 N gN A sep cB B' rp Hinv Hpre Hfuel Hcl; [lia|].
  pose proof (He_Over N (g_parent gN)) as He.
  destruct (split_node_N _ _ _ _ _ _ _ _ _ _ _ _ _ _ _ Hinv Hpre NoExc) as (pgL & HpL & HaL & HokL).
  destruct (split_node_rp _ _ _ _ _ _ _ _ _ _ _ _ _ _ _ Hinv Hpre NoExc) as (pgR & HpR & HaR & HokR).
  pose proof (no_id _ _ _ _ _ _ HokL) as HidL. pose proof (no_id _ _ _ _ _ _ HokR) as HidR.
  pose proof (no_parent _ _ _ _ _ _ HokL) as HparL. simpl in HparL.
  pose proof (ps_G _ _ _ _ _ _ _ _ _ _ Hpre) as HG.
  pose proof (split_fresh _ _ _ _ _ _ _ _ _ _ _ _ _ _ _ Hinv Hpre _ _ HG) as HNr.
  destruct (ps_rp _ _ _ _ _ _ _ _ _ _ Hpre) as [Hrpf Hrp].
  pose proof (ps_alloc _ _ _ _ _ _ _ _ _ _ Hpre) as Halloc.
  pose proof (ps_lm _ _ _ _ _ _ _ _ _ _ Hpre) as Hlm.
  pose proof (ps_im _ _ _ _ _ _ _ _ _ _ Hpre) as Him.
  pose proof (inv_imax _ _ _ _ _ _ Hinv) as Himax.
  pose proof (split_contents _ _ _ _ _ _ _ _ _ _ _ _ _ _ _ Hinv Hpre He) as Hcont.
  destruct (decide (g_parent gN = INVALID_PAGE_ID)) as [Hi|Hi].
  - (* the page is the root *)
    destruct (split_pending_root _ _ _ _ _ _ _ _ _ _ _ _ _ _ _ Hinv Hpre He Hi) as (Hroot & Hh & Hinv1).
    destruct (InsertInParent_root n t N rp sep pgL pgR)
      as (t' & Heq & Hpages & Hr & Hlm' & Him' & Hal' & Hps & Hdel); try done; try lia.
    { unfold IsRootPage. rewrite HparL, Hi. done. }
    destruct (split_params _ _ _ _ _ _ _ _ _ _ _ _ _ _ _ Hinv Hpre) as (_ & _ & Hms).
    destruct (ps_size _ _ _ _ _ _ _ _ _ _ Hpre) as [HsA HsB].
    pose proof (split_lookup_N G N gN sep cB B' rp) as HG1N.
    pose proof (split_lookup_rp _ _ _ _ _ _ _ _ _ _ _ _ _ _ _ Hinv Hpre) as HG1R.
    destruct (new_root_inv INTERNAL_PAGE_SIZE t _ hr k0 N sep rp _ _ pgL pgR t' Hinv1
                HG1N HG1R HpL HpR)
      as (G' & Hinv' & Hcont'); try done.
    { rewrite <- Hh. apply Hms. unfold GetSize. by rewrite HaL. }
    { rewrite <- Hh. apply Hms. unfold GetSize. by rewrite HaR. }
    exists t', G', (S hr). split; [done|]. rewrite Hr. split; [done|].
    split; [|done]. intros kv. rewrite Hcont'. apply Hcont.
  - (* the page has a parent *)
    destruct (split_pending_nonroot _ _ _ _ _ _ _ _ _ _ _ _ _ _ _ Hinv Hpre He Hi)
      as (gP & pgP & l1 & kN & l2 & HgP & HhP & HpPV & HpP & Harr & Hinv1).
    specialize (Hcl Hi).
    inversion Hcl as [h p g pg Hin Hg Hhg Hpg Hrec]. subst h p.
    rewrite HgP in Hg. injection Hg as <-. rewrite HpP in Hpg. injection Hpg as <-.
    pose proof (split_lookup_parent _ _ _ _ _ _ _ _ _ _ _ _ _ _ _ Hinv Hpre) as HGpar.
    rewrite HgP in HGpar.
    destruct (inv_node _ _ _ _ _ _ Hinv1 _ _ HGpar) as (pgV & HpV & HokV).
    simpl in HpV. rewrite lookup_insert_eq in HpV. injection HpV as <-.
    destruct HokV as [HidP HparP HalP HbltP HsizeP HshapeP].
    unfold shape in HshapeP. rewrite HhP in HshapeP. simpl in HshapeP, HsizeP, HalP.
    destruct HshapeP as (Htype & Hmax & Hchain).
    pose proof (chain_sorted_tail _ _ _ _ _ _ _ _ (inv_all_blt _ _ _ _ _ _ Hinv1) Hchain)
      as Hsorted.
    unfold size_ok in HsizeP. rewrite HhP in HsizeP. simpl in HsizeP.
    unfold slack_hi in HsizeP. rewrite decide_True in HsizeP by done.
    unfold GetSize in HsizeP. simpl in HsizeP. rewrite length_app in HsizeP. simpl in HsizeP.
    assert (HrootL : IsRootPage pgL = false).
    { unfold IsRootPage. rewrite HparL. by apply Z.eqb_neq. }
    rewrite <- HparL in Hin, HpP.
    assert (HszP : GetSize pgP = Z.of_nat (length l1 + S (length l2))).
    { unfold GetSize. rewrite Harr, length_app. done. }
    destruct (Z.lt_ge_cases (GetSize pgP) (GetMaxSize pgP)) as [Hlt|Hge].
    + (* the parent has room *)
      rewrite (InsertInParent_nonfull n t N rp sep pgL pgP pgR); try done.
      rewrite HidR, (Internal_Insert_after pgP l1 l2 kN N sep rp Harr Hsorted). simpl.
      rewrite HparL.
      eexists _, _, hr. split; [done|]. split; [|split; [|done]].
      * apply (inv_tops_key _ _ _ _ _ k0). eapply inv_exc_drop; [exact Hinv1|].
        intros p g pg Hg Hpg Hsl.
        assert (p = g_parent gN) as ->.
        { unfold slack_lo, slack_hi in Hsl. destruct (decide (g_parent gN = p)); [done|lia]. }
        simpl in Hpg. rewrite lookup_insert_eq in Hpg. injection Hpg as <-.
        rewrite HGpar in Hg. injection Hg as <-.
        unfold size_ok. rewrite HhP. simpl. unfold GetSize. simpl.
        rewrite length_app. simpl. unfold GetMaxSize in Hlt. rewrite Hmax in Hlt. simpl in Hlt.
        lia.
      * intros kv. rewrite <- Hcont. apply contents_write_internal.
        intros g Hg. rewrite HGpar in Hg. injection Hg as <-. lia.
    + (* the parent is full and splits *)
      unfold GetMaxSize in Hge. rewrite Hmax in Hge. simpl in Hge.
      pose proof (inv_imax _ _ _ _ _ _ Hinv1) as Himax1. simpl in Himax1.
      rewrite (InsertInParent_full n t N rp sep pgL pgP pgR); try done;
        [|unfold GetMaxSize; lia|lia].
      cbv zeta. rewrite HidR.
      rewrite (Internal_Split_after pgP _ l1 l2 kN N sep rp Harr); [|unfold GetMaxSize; lia|done].
      cbn [fst snd]. rewrite HparL.
      set (virt := l1 ++ (kN, N) :: (sep, rp) :: l2) in *.
      assert (Hvlen : Z.of_nat (length virt) = internal_max_size_ t + 1).
      { unfold virt. rewrite length_app. simpl. lia. }
      assert (Hmin : GetMinSize pgP = (internal_max_size_ t + 1) / 2).
      { unfold GetMinSize, IsLeafPage. rewrite Htype, Hmax. done. }
      rewrite Hmin.
      set (x := Z.to_nat ((internal_max_size_ t + 1) / 2)).
      assert (Hx : 2 ≤ Z.of_nat x ∧ Z.of_nat x ≤ internal_max_size_ t ∧
                   2 * Z.of_nat x ≤ internal_max_size_ t + 1 ∧
                   internal_max_size_ t ≤ 2 * Z.of_nat x).
      { unfold x. pose proof (Z.div_mod (internal_max_size_ t + 1) 2 ltac:(lia)).
        pose proof (Z.mod_pos_bound (internal_max_size_ t + 1) 2 ltac:(lia)).
        rewrite Z2Nat.id by (apply Z.div_pos; lia). lia. }
      destruct (drop x virt) as [|[sep2 cB2] B2'] eqn:Hdrop.
      { apply (f_equal length) in Hdrop. rewrite length_drop in Hdrop. simpl in Hdrop. lia. }
      assert (Htake : length (take x virt) = x) by (rewrite length_take; lia).
      assert (Hdlen : Z.of_nat (S (length B2')) = internal_max_size_ t + 1 - Z.of_nat x).
      { apply (f_equal length) in Hdrop. rewrite length_drop in Hdrop. simpl in Hdrop. lia. }
      assert (Hvirt : virt = take x virt ++ (sep2, cB2) :: B2').
      { by rewrite <- Hdrop, take_drop. }
      cbn [array_ set_array].
      change (KeyAt (set_array _ ((sep2, cB2) :: B2')) 0) with sep2.
      set (rp2 := alloc_ t).
      set (pgL2 := set_array pgP (take x virt)).
      set (pgR2 := set_array (mkPage INTERNAL_PAGE (internal_max_size_ t) (parent_page_id_ pgP)
                                rp2 INVALID_PAGE_ID []) ((sep2, cB2) :: B2')).
      set (t2 := write_page (write_page (AllocatePage t).2 rp2 pgR2) (g_parent gN) pgL2).
      set (cs := ((sep2, cB2) :: B2').*2).
      set (G1 := split_ghost G N gN rp sep cB ((sep, cB) :: B')) in *.
      set (tP := write_page t (g_parent gN) (set_array pgP virt)) in *.
      (* the children of the parent *)
      assert (Hcs : ∀ c, c ∈ virt.*2 →
                ∃ gc, G1 !! c = Some gc ∧ g_h gc = g_h gN ∧ c ≠ g_parent gN ∧ c ≠ rp2 ∧
                      is_Some (pages_ t !! c)).
      { intros c Hc.
        destruct (chain_children _ _ _ _ _ _ _ _ _ Hchain Hc) as (gc & Hgc & _ & Hhc).
        destruct (inv_node _ _ _ _ _ _ Hinv1 _ _ Hgc) as (pgc & Hpgc & Hokc).
        assert (c ≠ g_parent gN).
        { intros ->. rewrite HGpar in Hgc. injection Hgc as <-. lia. }
        exists gc. do 3 (split; [done|]). split.
        - destruct Hokc. simpl in no_alloc0. unfold rp2. lia.
        - simpl in Hpgc. rewrite lookup_insert_ne in Hpgc by done. by eexists. }
      assert (Hcsv : ∀ c, c ∈ cs → c ∈ virt.*2).
      { intros c Hc. rewrite Hvirt, fmap_app, elem_of_app. by right. }
      assert (HPrp2 : g_parent gN ≠ rp2) by (unfold rp2; lia).
      destruct (UpdateChildNode_spec rp2 cs t2) as (t3 & Hu & Hmeta & Hlook).
      { intros c Hc. destruct (Hcs c (Hcsv c Hc)) as (gc & _ & _ & ? & ? & Hsome).
        unfold t2. simpl. by rewrite !lookup_insert_ne. }
      rewrite Hu. cbn [bind].
      destruct Hmeta as (Hr3 & Hlm3 & Him3 & Hal3 & _ & Hps3 & Hdel3).
      assert (HPcs : g_parent gN ∉ cs).
      { intros Hc. by destruct (Hcs _ (Hcsv _ Hc)) as (_ & _ & _ & ? & _). }
      assert (Hrcs : rp2 ∉ cs).
      { intros Hc. by destruct (Hcs _ (Hcsv _ Hc)) as (_ & _ & _ & _ & ? & _). }
      destruct (IH tP t3 G1 hr k0 (g_parent gN) gP (take x virt) sep2 cB2 B2' rp2)
        as (t' & G' & hr' & Heq & Hinv' & Hc' & Hps' & Hdel' & Hlm' & Him').
      * rewrite Hr3. exact Hinv1.
      * split.
        -- done.
        -- exists (set_array pgP virt), pgL2, pgR2. simpl.
           rewrite lookup_insert_eq. split; [done|]. split; [done|].
           rewrite (Hlook (g_parent gN)), decide_False by done.
           rewrite (Hlook rp2), decide_False by done.
           unfold t2. simpl. rewrite lookup_insert_eq.
           rewrite lookup_insert_ne by done. rewrite lookup_insert_eq.
           repeat split; try done; intros Hz; rewrite HhP in Hz; done.
        -- intros Hnil. rewrite Hnil in Htake. simpl in Htake. lia.
        -- split.
           ++ destruct (G1 !! rp2) as [g2|] eqn:Hg2; [|done].
              destruct (inv_node _ _ _ _ _ _ Hinv1 _ _ Hg2) as (? & _ & []).
              simpl in no_alloc0. unfold rp2 in no_alloc0. lia.
           ++ rewrite Hal3. unfold t2, rp2. simpl. lia.
        -- rewrite Hal3. unfold t2. simpl. lia.
        -- rewrite Hlm3. done.
        -- rewrite Him3. done.
        -- rewrite HhP. unfold split_moved. intros c Hc.
           rewrite (Hlook c), decide_True by done.
           destruct (Hcs c (Hcsv c Hc)) as (_ & _ & _ & ? & ? & _).
           unfold t2. simpl. by rewrite !lookup_insert_ne.
        -- rewrite HhP. unfold split_moved. intros p Hp1 Hp2 Hp3.
           rewrite (Hlook p), decide_False by done.
           unfold t2. simpl. by rewrite !lookup_insert_ne.
        -- rewrite HhP. unfold min_size_of_ok, min_size_of, cap_of. simpl. rewrite Htake. lia.
      * pose proof (inv_height _ _ _ _ _ _ Hinv1 _ _ HGpar). lia.
      * intros HiP. rewrite HhP.
        eapply (cl_frame t G INSERT t3 G1 (S (S (g_h gN)))); [|done| |lia].
        { apply Hrec; [done|]. unfold IsSafe, IsLeafPage. rewrite Htype.
          apply Z.ltb_ge. unfold GetMaxSize. lia. }
        intros q gq Hq Hhq. split.
        { apply (split_lookup_high _ _ _ _ _ _ _ _ _ _ _ _ _ _ _ Hinv Hpre); [done|lia]. }
        pose proof (split_fresh _ _ _ _ _ _ _ _ _ _ _ _ _ _ _ Hinv Hpre _ _ Hq).
        rewrite (Hlook q), decide_False.
        { unfold t2. simpl.
          rewrite !lookup_insert_ne; [done|unfold rp2; lia|].
          intros Heq. rewrite <- Heq, HgP in Hq. injection Hq as <-. lia. }
        intros Hc. destruct (Hcs _ (Hcsv _ Hc)) as (gc & Hgc & Hhc & _).
        unfold G1 in Hgc.
        rewrite (split_lookup_high _ _ _ _ _ _ _ _ _ _ _ _ _ _ _ Hinv Hpre q gq) in Hgc;
          [|done|lia]. injection Hgc as <-. lia.
      * exists t', G', hr'. split; [done|]. split; [done|].
        split; [|by rewrite Hps', Hps3, Hdel', Hdel3, Hlm', Hlm3, Him', Him3].
        intros kv. rewrite Hc', <- Hcont. apply contents_write_internal.
        intros g Hg. rewrite HGpar in Hg. injection Hg as <-. lia.
Qed.

End InsertInParent.

(** **** Changes of a leaf *)

Section Leaf.

Variable INTERNAL_PAGE_SIZE : Z.
Local Notation inv := (inv INTERNAL_PAGE_SIZE).

Lemma inv_write_leaf t G e hr tops leaf g pg arr' e' :
  inv t G e hr tops →
  G !! leaf = Some g → g_h g = O → pages_ t !! leaf = Some pg →
  sorted_in (g_lo g) (arr'.*1) (g_hi g) →
  size_ok t e' leaf g (set_array pg arr') →
  (∀ p, p ≠ leaf → slack_lo e p ≤ slack_lo e' p ∧ slack_hi e p ≤ slack_hi e' p) →
  inv (write_page t leaf (set_array pg arr')) G e' hr tops.
Proof.
  intros Hinv Hg Hh Hpg Hs Hsz Hsl.
  eapply (inv_update INTERNAL_PAGE_SIZE t G e hr tops _ G e' hr tops [leaf]); try done.
  - simpl. apply (inv_fuel _ _ _ _ _ _ Hinv).
  - intros p g' Hg' Hd. apply not_elem_of_cons in Hd as [Hd _]. split; [done|].
    simpl. by rewrite lookup_insert_ne.
  - intros p g' Hg' Hd. apply list_elem_of_singleton in Hd as ->.
    rewrite Hg in Hg'. injection Hg' as <-.
    exists (set_array pg arr'). simpl. rewrite lookup_insert_eq. split; [done|].
    destruct (inv_page _ _ _ _ _ _ _ _ Hinv Hg) as (pg0 & Hpg0 & _ & Hok).
    rewrite Hpg in Hpg0. injection Hpg0 as <-.
    destruct Hok as [Hid Hpar Hal Hblt Hsize Hshape]. split; simpl; try done.
    unfold shape in *. rewrite Hh in *. by destruct Hshape as (? & ? & ? & ? & _).
  - intros p g' Hg' _. split.
    + apply (inv_top _ _ _ _ _ _ Hinv p g' Hg').
    + intros Hi.
      destruct (inv_up _ _ _ _ _ _ Hinv p g' Hg' Hi) as (gP & pgP & k & HgP & HhP & HpP & Hin).
      exists gP, pgP, k. simpl. rewrite lookup_insert_ne; [done|].
      intros Heq. rewrite <- Heq, Hg in HgP. injection HgP as <-. lia.
  - apply (inv_tops _ _ _ _ _ _ Hinv).
  - apply (inv_height _ _ _ _ _ _ Hinv).
  - intros p Hd. apply not_elem_of_cons in Hd as [Hd _]. by apply Hsl.
Qed.

(** The leaf found for a key is the one leaf that may hold it. *)
Lemma leaf_key_unique t G e hr tops M key leaf pg v :
  inv t G e hr tops → abs t G M →
  leaf_for G key leaf → pages_ t !! leaf = Some pg →
  M !! key = Some v ↔ (key, v) ∈ array_ pg.
Proof.
  intros Hinv Habs (gl & Hgl & Hhl & Ha & Hb) Hpg. rewrite (Habs key v). split.
  - intros (p & g & pgp & Hg & Hh & Hpgp & Hin).
    destruct (inv_page _ _ _ _ _ _ _ _ Hinv Hg) as (pg0 & Hpg0 & _ & Hok).
    rewrite Hpgp in Hpg0. injection Hpg0 as <-.
    destruct Hok. unfold shape in no_shape0. rewrite Hh in no_shape0.
    destruct no_shape0 as (_ & _ & _ & _ & _ & Hall).
    rewrite Forall_forall in Hall. destruct (Hall key) as [Ha' Hb'].
    { apply list_elem_of_fmap. by exists (key, v). }
    assert (p = leaf) as ->.
    { eapply (inv_range_unique _ _ _ _ _ _ key Hinv _ p g leaf gl eq_refl); try done.
      congruence. }
    rewrite Hpg in Hpgp. by injection Hpgp as <-.
  - intros Hin. by exists leaf, gl, pg.
Qed.

Lemma abs_insert t G e hr tops M key value leaf pg l1 l2 :
  inv t G e hr tops → abs t G M →
  leaf_for G key leaf → pages_ t !! leaf = Some pg →
  array_ pg = l1 ++ l2 → key ∉ (array_ pg).*1 →
  M !! key = None ∧
  abs (write_page t leaf (set_array pg (l1 ++ (key, value) :: l2))) G (<[key := value]> M).
Proof.
  intros Hinv Habs Hleaf Hpg Harr Hnin.
  assert (Hnone : M !! key = None).
  { destruct (M !! key) as [v|] eqn:Hk; [|done].
    apply (leaf_key_unique _ _ _ _ _ _ _ _ _ _ Hinv Habs Hleaf Hpg) in Hk.
    exfalso. apply Hnin. apply list_elem_of_fmap. by exists (key, v). }
  split; [done|]. destruct Hleaf as (gl & Hgl & Hhl & _).
  intros k v. split.
  - intros Hk. destruct (decide (k = key)) as [->|Hne].
    + rewrite lookup_insert_eq in Hk. injection Hk as <-.
      exists leaf, gl, (set_array pg (l1 ++ (key, value) :: l2)). simpl.
      rewrite lookup_insert_eq. repeat split; try done.
      rewrite elem_of_app, elem_of_cons. tauto.
    + rewrite lookup_insert_ne in Hk by done. apply Habs in Hk.
      destruct Hk as (p & g & pgp & Hg & Hh & Hpgp & Hin).
      destruct (decide (p = leaf)) as [->|Hpl].
      * rewrite Hpg in Hpgp. injection Hpgp as <-.
        exists leaf, gl, (set_array pg (l1 ++ (key, value) :: l2)). simpl.
        rewrite lookup_insert_eq. repeat split; try done.
        rewrite Harr in Hin. rewrite elem_of_app in *. rewrite elem_of_cons. tauto.
      * exists p, g, pgp. simpl. by rewrite lookup_insert_ne.
  - intros (p & g & pgp & Hg & Hh & Hpgp & Hin). simpl in Hpgp.
    destruct (decide (p = leaf)) as [->|Hpl].
    + rewrite lookup_insert_eq in Hpgp. injection Hpgp as <-. simpl in Hin.
      rewrite elem_of_app, elem_of_cons in Hin.
      destruct (decide (k = key)) as [->|Hne].
      * rewrite lookup_insert_eq. destruct Hin as [Hin|[Heq|Hin]].
        -- exfalso. apply Hnin. rewrite Harr. apply list_elem_of_fmap. exists (key, v).
           rewrite elem_of_app. tauto.
        -- by injection Heq as ->.
        -- exfalso. apply Hnin. rewrite Harr. apply list_elem_of_fmap. exists (key, v).
           rewrite elem_of_app. tauto.
      * rewrite lookup_insert_ne by done. apply Habs. exists leaf, gl, pg.
        repeat split; try done. rewrite Harr, elem_of_app.
        destruct Hin as [Hin|[Heq|Hin]]; [tauto| |tauto]. congruence.
    + rewrite lookup_insert_ne in Hpgp by done.
      assert (M !! k = Some v) as Hk by (apply Habs; by exists p, g, pgp).
      rewrite lookup_insert_ne; [done|]. intros <-. congruence.
Qed.

Lemma abs_remove t G e hr tops M key leaf pg l1 v0 l2 :
  inv t G e hr tops → abs t G M →
  leaf_for G key leaf → pages_ t !! leaf = Some pg →
  array_ pg = l1 ++ (key, v0) :: l2 →
  abs (write_page t leaf (set_array pg (l1 ++ l2))) G (delete key M).
Proof.
  intros Hinv Habs Hleaf Hpg Harr.
  pose proof Hleaf as (gl & Hgl & Hhl & _).
  assert (Hnd : key ∉ (l1 ++ l2).*1).
  { destruct (inv_page _ _ _ _ _ _ _ _ Hinv Hgl) as (pg0 & Hpg0 & _ & Hok).
    rewrite Hpg in Hpg0. injection Hpg0 as <-.
    destruct Hok. unfold shape in no_shape0. rewrite Hhl in no_shape0.
    destruct no_shape0 as (_ & _ & _ & _ & Hs & _).
    rewrite Harr, fmap_app in Hs. simpl in Hs.
    apply StronglySorted_app in Hs as (H12 & _ & Hs2).
    apply StronglySorted_cons in Hs2 as [Hgt _]. rewrite Forall_forall in Hgt.
    rewrite fmap_app, elem_of_app. intros [Hin|Hin].
    - assert (key < key); [|lia]. apply H12; [done|left].
    - specialize (Hgt key Hin). lia. }
  intros k v. split.
  - intros Hk. apply lookup_delete_Some in Hk as [Hne Hk]. apply Habs in Hk.
    destruct Hk as (p & g & pgp & Hg & Hh & Hpgp & Hin).
    destruct (decide (p = leaf)) as [->|Hpl].
    + rewrite Hpg in Hpgp. injection Hpgp as <-.
      exists leaf, gl, (set_array pg (l1 ++ l2)). simpl.
      rewrite lookup_insert_eq. repeat split; try done.
      rewrite Harr in Hin. rewrite elem_of_app in *. rewrite elem_of_cons in Hin.
      destruct Hin as [?|[?|?]]; [tauto| |tauto]. congruence.
    + exists p, g, pgp. simpl. by rewrite lookup_insert_ne.
  - intros (p & g & pgp & Hg & Hh & Hpgp & Hin). simpl in Hpgp.
    destruct (decide (p = leaf)) as [->|Hpl].
    + rewrite lookup_insert_eq in Hpgp. injection Hpgp as <-. simpl in Hin.
      assert (k ≠ key).
      { intros ->. apply Hnd. apply list_elem_of_fmap. by exists (key, v). }
      apply lookup_delete_Some. split; [done|]. apply Habs. exists leaf, gl, pg.
      repeat split; try done. rewrite Harr. rewrite elem_of_app in *.
      rewrite elem_of_cons. tauto.
    + rewrite lookup_insert_ne in Hpgp by done.
      assert (M !! k = Some v) as Hk by (apply Habs; by exists p, g, pgp).
      apply lookup_delete_Some. split; [|done]. intros <-.
      apply (leaf_key_unique _ _ _ _ _ _ _ _ _ _ Hinv Habs Hleaf Hpg) in Hk.
      destruct Hleaf as (gl' & Hgl' & Hhl' & Ha & Hb).
      destruct (inv_page _ _ _ _ _ _ _ _ Hinv Hg) as (pg0 & Hpg0 & _ & Hok).
      rewrite Hpgp in Hpg0. injection Hpg0 as <-.
      destruct Hok. unfold shape in no_shape0. rewrite Hh in no_shape0.
      destruct no_shape0 as (_ & _ & _ & _ & _ & Hall).
      rewrite Forall_forall in Hall. destruct (Hall key) as [Ha' Hb'].
      { apply list_elem_of_fmap. by exists (key, v). }
      apply Hpl.
      eapply (inv_range_unique _ _ _ _ _ _ key Hinv _ p g leaf gl' eq_refl); try done.
      congruence.
Qed.

Lemma Inv_intro t G hr M :
  inv t G NoExc hr [(0, root_page_id_ t)] → abs t G M →
  page_set_ t = [] → deleted_page_set_ t = [] →
  Inv INTERNAL_PAGE_SIZE t M.
Proof.
  intros Hinv Habs Hps Hdel.
  pose proof (inv_root_id _ _ _ _ _ _ _ Hinv) as Hroot.
  pose proof (inv_fuel _ _ _ _ _ _ Hinv).
  split; [done|]. split; [done|]. split; [apply (inv_lmax _ _ _ _ _ _ Hinv)|].
  split; [apply (inv_imax _ _ _ _ _ _ Hinv)|]. split; [lia|].
  rewrite decide_False by done. by exists G, hr.
Qed.

End Leaf.

(** **** [Insert] *)

Section InsertProof.

Variable INTERNAL_PAGE_SIZE : Z.
Local Notation inv := (inv INTERNAL_PAGE_SIZE).
Local Notation Inv := (Inv INTERNAL_PAGE_SIZE).
Local Notation Insert := (Insert INTERNAL_PAGE_SIZE).

(** The first key makes a root leaf. *)
Lemma enter_empty t :
  root_page_id_ t = INVALID_PAGE_ID → page_set_ t = [] →
  2 ≤ leaf_max_size_ t → 3 ≤ internal_max_size_ t ≤ INTERNAL_PAGE_SIZE → 1 ≤ alloc_ t →
  ∃ t1 G, enter t INSERT = set_page_set t1 [None] ∧
    inv t1 G (Under (root_page_id_ t1)) O [(0, root_page_id_ t1)] ∧
    abs t1 G ∅ ∧ G !! root_page_id_ t1 ≠ None ∧
    deleted_page_set_ t1 = deleted_page_set_ t ∧
    leaf_max_size_ t1 = leaf_max_size_ t ∧ internal_max_size_ t1 = internal_max_size_ t.
Proof.
  intros Hroot Hps Hlm Him Hal.
  set (pid := alloc_ t).
  set (pg := Leaf_Init pid INVALID_PAGE_ID (leaf_max_size_ t)).
  set (G := ({[pid := mkG INVALID_PAGE_ID O None None pid INVALID_PAGE_ID]} : gmap Z ginfo)).
  assert (∃ t1, enter t INSERT = set_page_set t1 [None] ∧
            pages_ t1 = <[pid := pg]> (pages_ t) ∧ root_page_id_ t1 = pid ∧
            alloc_ t1 = pid + 1 ∧
            deleted_page_set_ t1 = deleted_page_set_ t ∧
            leaf_max_size_ t1 = leaf_max_size_ t ∧
            internal_max_size_ t1 = internal_max_size_ t)
    as (t1 & Henter & Hpages & Hr1 & Hal1 & Hdel1 & Hlm1 & Him1).
  { unfold enter, IsEmpty. rewrite Hroot. simpl.
    unfold update_record, AddIntoPageSet. simpl. rewrite Hps.
    destruct (header_ t); simpl; eexists; (split; [reflexivity|]); simpl; done. }
  exists t1, G. split; [done|]. rewrite Hr1.
  assert (HG : ∀ p g, G !! p = Some g →
            p = pid ∧ g = mkG INVALID_PAGE_ID O None None pid INVALID_PAGE_ID).
  { intros p g Hg. unfold G in Hg. apply lookup_singleton_Some in Hg as [<- <-]. done. }
  split; [|split; [|split; [|done]]].
  - split.
    + by rewrite Hlm1.
    + by rewrite Him1.
    + rewrite Hal1. unfold pid. simpl. lia.
    + exists pid. apply chain_one. eexists. unfold G. rewrite lookup_singleton_eq.
      by repeat split.
    + intros p g Hg. apply HG in Hg as [_ ->]. done.
    + intros p g Hg. apply HG in Hg as [-> ->]. exists pg.
      rewrite Hpages, lookup_insert_eq. split; [done|]. split; simpl; try done.
      * rewrite Hal1. unfold pid. lia.
      * unfold size_ok, slack_lo, slack_hi. simpl. rewrite decide_True by done.
        rewrite Hlm1. unfold GetSize. simpl. lia.
      * unfold shape. simpl. rewrite Hlm1. repeat split; try done; constructor.
    + intros p g Hg. apply HG in Hg as [-> ->]. intros _. simpl. left.
    + intros p g Hg. apply HG in Hg as [-> ->]. done.
  - intros k v. rewrite lookup_empty. split; [done|].
    intros (p & g & pg' & Hg & _ & Hpg & Hin). apply HG in Hg as [-> ->].
    rewrite Hpages, lookup_insert_eq in Hpg. injection Hpg as <-. simpl in Hin.
    inversion Hin.
  - unfold G. by rewrite lookup_singleton_eq.
Qed.


Lemma Insert_spec t M key value :
  Inv t M →
  ∃ t', Insert t key value = Ok (bool_decide (M !! key = None), t') ∧
        Inv t' (match M !! key with Some _ => M | None => <[key := value]> M end).
Proof.
  intros (Hps & Hdel & Hlm & Him & Hal & Hcase).
  assert (∃ t1 G e hr, enter t INSERT = set_page_set t1 [None] ∧
            inv t1 G e hr [(0, root_page_id_ t1)] ∧ abs t1 G M ∧
            (e = NoExc ∨ (e = Under (root_page_id_ t1) ∧ M = ∅ ∧ hr = O)) ∧
            deleted_page_set_ t1 = [] ∧
            leaf_max_size_ t1 = leaf_max_size_ t ∧
            internal_max_size_ t1 = internal_max_size_ t)
    as (t1 & G & e & hr & Henter & Hinv & Habs & He & Hdel1 & Hlm1 & Him1).
  { destruct (decide (root_page_id_ t = INVALID_PAGE_ID)) as [Hr|Hr].
    - subst M. destruct (enter_empty t Hr Hps Hlm Him Hal)
        as (t1 & G & ? & ? & ? & _ & ? & ? & ?).
      exists t1, G, (Under (root_page_id_ t1)), O.
      do 3 (split; [done|]). split; [by right|]. split; [congruence|done].
    - destruct Hcase as (G & hr & Hinv & Habs). exists t, G, NoExc, hr.
      split; [|do 2 (split; [done|]); split; [by left|done]].
      unfold enter, IsEmpty. rewrite (proj2 (Z.eqb_neq _ _)) by done.
      unfold AddIntoPageSet. rewrite Hps. done. }
  destruct (GetLeafPage_writer INTERNAL_PAGE_SIZE t t1 G e hr 0 key INSERT)
    as (leaf & ps & HGLP & Hleaf & Hclosed & Hin); try done.
  set (t2 := set_page_set t1 ps) in *.
  assert (Hinv2 : inv t2 G e hr [(0, root_page_id_ t2)]) by (by eapply inv_ext).
  assert (Habs2 : abs t2 G M) by exact Habs.
  pose proof Hleaf as (gl & Hgl & Hhl & Ha & Hb).
  destruct (inv_page _ _ _ _ _ _ _ _ Hinv2 Hgl) as (pg & Hpg & Hfetch & Hok).
  pose proof Hok as [Hid Hpar Halp Hblt Hsize Hshape].
  unfold shape in Hshape. rewrite Hhl in Hshape.
  destruct Hshape as (Htype & Hmax & Hnext & Hfirst & Hsorted).
  unfold BPT.Insert. rewrite HGLP. cbn [bind]. rewrite (deref_ok _ _ _ Hpg). cbn [bind].
  destruct (Leaf_Insert_spec pg key value (proj1 Hsorted))
    as [[Hkin Hins]|(Hnin & l1 & l2 & Harr & Hl1 & Hl2 & Hins)]; rewrite Hins.
  - (* the key is there *)
    apply list_elem_of_fmap in Hkin as ([k v] & -> & Hkin). simpl.
    assert (Hk : M !! k = Some v).
    { by apply (leaf_key_unique _ _ _ _ _ _ _ _ _ _ _ Hinv2 Habs2 Hleaf Hpg). }
    rewrite Hk. rewrite bool_decide_eq_false_2 by done.
    eexists. split; [done|].
    destruct He as [->|(_ & -> & _)]; [|done].
    apply (Inv_intro _ _ G hr); try done. by eapply inv_ext.
  - (* the key is new *)
    destruct (abs_insert _ _ _ _ _ _ _ key value _ _ l1 l2 Hinv2 Habs2 Hleaf Hpg Harr Hnin)
      as [Hnone Habs3].
    rewrite Hnone. rewrite bool_decide_eq_true_2 by done. cbn [negb].
    set (arr' := l1 ++ (key, value) :: l2) in *.
    set (leaf' := set_array pg arr') in *.
    set (t3 := write_page t2 leaf leaf') in *.
    assert (Hlen' : length arr' = S (length (array_ pg))).
    { unfold arr'. rewrite Harr, !length_app. simpl. lia. }
    assert (Hleafroot : ∀ p, p ≠ leaf → slack_lo e p = 0 ∧ slack_hi e p = 0).
    { intros p Hp. destruct He as [->|(-> & _ & ->)]; [done|]. split; [|done].
      unfold slack_lo. rewrite decide_False; [done|]. intros Heq. apply Hp. rewrite <- Heq.
      destruct (inv_root _ _ _ _ _ _ _ Hinv2) as (gr & Hgr & _ & Hhr & Hlo & Hhi & _).
      eapply (inv_range_unique _ _ _ _ _ _ key Hinv2 _ _ gr leaf gl eq_refl); try done.
      - congruence.
      - by rewrite Hlo.
      - by rewrite Hhi. }
    assert (Hsl0 : slack_hi e leaf = 0).
    { by destruct He as [->|(-> & _)]. }
    assert (Hsl1 : slack_lo e leaf ≤ 1).
    { destruct He as [->|(-> & _)].
      - simpl. lia.
      - unfold slack_lo. destruct (decide (root_page_id_ t1 = leaf)); lia. }
    assert (Hinv3 : inv t3 G (Over leaf) hr [(0, root_page_id_ t2)]).
    { apply (inv_write_leaf _ _ _ e _ _ _ gl); try done.
      - unfold arr'. rewrite fmap_app. simpl. apply sorted_in_insert; try done.
        by rewrite <- fmap_app, <- Harr.
      - pose proof (slack_lo_nonneg e leaf).
        assert (slack_hi (Over leaf) leaf = 1) as Hs1.
        { unfold slack_hi. by rewrite decide_True. }
        unfold size_ok in *. rewrite Hhl in *. rewrite Hs1, Hsl0 in *.
        change (slack_lo (Over leaf) leaf) with 0.
        unfold GetSize in *. simpl. rewrite Hlen'.
        change (leaf_max_size_ t2) with (leaf_max_size_ t1) in *.
        destruct (is_root gl); lia.
      - intros p Hp. destruct (Hleafroot p Hp) as [-> ->].
        pose proof (slack_hi_nonneg (Over leaf) p).
        pose proof (slack_lo_nonneg (Over leaf) p). lia. }
    assert (Hsz' : GetSize leaf' = GetSize pg + 1).
    { unfold GetSize. simpl. rewrite Hlen'. lia. }
    assert (Hszpg : GetSize pg ≤ leaf_max_size_ t1 - 1).
    { unfold size_ok in Hsize. rewrite Hhl, Hsl0 in Hsize. simpl in Hsize. lia. }
    change (leaf_max_size_ t3) with (leaf_max_size_ t1).
    destruct (Z.ltb_spec (GetSize leaf') (leaf_max_size_ t1)) as [Hlt|Hge].
    + (* no split *)
      eexists. split; [done|].
      apply (Inv_intro _ _ G hr); try done.
      eapply (inv_ext _ t3); [|done|done|simpl; lia|done].
      eapply inv_exc_drop; [exact Hinv3|].
      intros p g pg' Hg Hpg' Hsl.
      assert (p = leaf) as ->.
      { unfold slack_lo, slack_hi in Hsl. destruct (decide (leaf = p)); [done|lia]. }
      unfold t3 in Hpg'. simpl in Hpg'. rewrite lookup_insert_eq in Hpg'. injection Hpg' as <-.
      rewrite Hgl in Hg. injection Hg as <-.
      pose proof (slack_lo_nonneg e leaf).
      unfold size_ok in *. rewrite Hhl in *. simpl in *.
      destruct (is_root gl); lia.
    + (* the leaf splits *)
      assert (Hfull : Z.of_nat (length arr') = leaf_max_size_ t1).
      { unfold GetSize in *. simpl in Hge. lia. }
      assert (Hmin : GetMinSize leaf' = leaf_max_size_ t1 / 2).
      { unfold GetMinSize, IsLeafPage. simpl. by rewrite Htype, Hmax. }
      rewrite NewPage_ok. cbn [bind]. unfold AllocatePage, Leaf_Split. cbn [fst snd]. rewrite Hmin.
      set (x := Z.to_nat (leaf_max_size_ t1 / 2)).
      assert (Hx : 1 ≤ Z.of_nat x ∧ 2 * Z.of_nat x ≤ leaf_max_size_ t1).
      { unfold x. pose proof (Z.div_mod (leaf_max_size_ t1) 2 ltac:(lia)).
        pose proof (Z.mod_pos_bound (leaf_max_size_ t1) 2 ltac:(lia)).
        assert (1 ≤ leaf_max_size_ t1 / 2) by (apply Z.div_le_lower_bound; lia).
        rewrite Z2Nat.id by lia. lia. }
      change (array_ leaf') with arr'.
      change (alloc_ t3) with (alloc_ t1). change (leaf_max_size_ t3) with (leaf_max_size_ t1).
      unfold GetNextPageId, GetParentPageId, GetPageId.
      change (next_page_id_ leaf') with (next_page_id_ pg).
      change (parent_page_id_ leaf') with (parent_page_id_ pg).
      destruct (drop x arr') as [|[sep cB] B'] eqn:Hdrop.
      { apply (f_equal length) in Hdrop. rewrite length_drop in Hdrop. simpl in Hdrop. lia. }
      assert (Htake : length (take x arr') = x) by (rewrite length_take; lia).
      assert (Hdlen : Z.of_nat (S (length B')) = leaf_max_size_ t1 - Z.of_nat x).
      { apply (f_equal length) in Hdrop. rewrite length_drop in Hdrop. simpl in Hdrop. lia. }
      set (rp := alloc_ t1).
      set (pgR := mkPage LEAF_PAGE (leaf_max_size_ t1) (parent_page_id_ pg) rp
                    (next_page_id_ pg) ((sep, cB) :: B')).
      set (pgL := mkPage (page_type_ pg) (max_size_ pg) (parent_page_id_ pg) (page_id_ pg)
                    rp (take x arr')).
      change (KeyAt _ 0) with sep.
      change (SetNextPageId (set_array (Leaf_Init rp _ _) _) _) with pgR.
      change (SetNextPageId (set_array leaf' _) _) with pgL.
      match goal with
      | |- ∃ t', (let* t5 := BPT.InsertInParent _ _ ?t _ _ _ in _) = _ ∧ _ => set (t4 := t)
      end.
      assert (Hrpfresh : ∀ q gq, G !! q = Some gq → 1 ≤ q < rp).
      { intros q gq Hq. by destruct (inv_page _ _ _ _ _ _ _ _ Hinv2 Hq) as (? & _ & _ & []). }
      pose proof (Hrpfresh _ _ Hgl) as Hleafrp.
      assert (Hpre : presplit t3 t4 G leaf gl (take x arr') sep cB B' rp).
      { split.
        - done.
        - exists leaf', pgL, pgR. unfold t3, t4. simpl.
          rewrite !lookup_insert_eq. rewrite lookup_insert_ne by lia.
          rewrite lookup_insert_eq. rewrite <- Hdrop, take_drop. done.
        - intros Hnil. rewrite Hnil in Htake. simpl in Htake. lia.
        - split.
          + destruct (G !! rp) as [g2|] eqn:Hg2; [|done]. apply Hrpfresh in Hg2. lia.
          + pose proof (inv_fuel _ _ _ _ _ _ Hinv). unfold t4, rp. simpl. lia.
        - unfold t4, t3. simpl. lia.
        - done.
        - done.
        - rewrite Hhl. intros c Hc. inversion Hc.
        - intros p Hp1 Hp2 _. unfold t4, t3. simpl. by rewrite !lookup_insert_ne.
        - rewrite Hhl. unfold min_size_of_ok, min_size_of, cap_of. simpl. rewrite Htake. lia. }
      destruct (InsertInParent_spec INTERNAL_PAGE_SIZE (tree_fuel t4) t3 t4 G hr 0 leaf gl
                  (take x arr') sep cB B' rp)
        as (t5 & G5 & hr5 & Heq & Hinv5 & Hc5 & Hps5 & Hdel5 & Hlm5 & Him5); try done.
      { pose proof (inv_fuel _ _ _ _ _ _ Hinv3). unfold tree_fuel, t4. simpl in *. lia. }
      { intros Hi. rewrite Hhl.
        pose proof (closed_cl _ _ _ _ _ _ _ Hinv2 Hclosed _ leaf gl eq_refl Hgl Hin) as Hcl.
        inversion Hcl as [h p g pg0 _ Hg _ Hpg0 Hrec]. subst h p.
        rewrite Hgl in Hg. injection Hg as <-. rewrite Hpg in Hpg0. injection Hpg0 as <-.
        rewrite Hhl in Hrec.
        eapply (cl_frame t2 G INSERT t4 G 1); [|done| |lia].
        - apply Hrec; [done|]. unfold IsSafe, IsLeafPage. rewrite Htype.
          apply Z.ltb_ge. unfold GetMaxSize. rewrite Hmax. simpl. lia.
        - intros q gq Hq Hhq. split; [done|]. pose proof (Hrpfresh _ _ Hq).
          unfold t4, t3. simpl. rewrite !lookup_insert_ne; [done|..].
          all: intros Heq; first [unfold rp in *; lia|idtac].
          all: rewrite <- Heq, Hgl in Hq; injection Hq as <-; lia. }
      rewrite Heq. cbn [bind]. eexists. split; [done|].
      apply (Inv_intro _ _ G5 hr5); try done.
      * by eapply inv_ext.
      * eapply abs_update; [exact Habs3|]. intros kv. apply Hc5.
      * simpl. rewrite Hdel5. unfold t4. simpl. done.
Qed.

End InsertProof.

(** **** The merge of two neighbours

    [X] and [Y] are neighbours under [PP].  In [tM] the page [X] holds
    the pairs of both (for internal pages with the key of [Y] in [PP]
    between them), it is the parent of the children of [Y], and [PP] has
    no pair for [Y] any more. *)

Definition merged_tail (h : nat) (kY : Z) (arrY : list (Z * Z)) : list (Z * Z) :=
  match h with
  | O => arrY
  | S _ => match arrY with [] => [] | (_, c0) :: r => (kY, c0) :: r end
  end.

Definition merge_ghost (G : gmap Z ginfo) (X Y : page_id_t) (gX gY : ginfo)
    (arrY : list (Z * Z)) : gmap Z ginfo :=
  delete Y
    (<[X := mkG (g_parent gX) (g_h gX) (g_lo gX) (g_hi gY) (g_first gX) (g_next gY)]>
       (reparent_all G (split_moved (g_h gX) arrY) X)).

Definition merge_exc (X PP : page_id_t) (n : Z) : exc :=
  Slack (λ p, if decide (p = X) then (1, n) else if decide (p = PP) then (1, 0) else (0, 0)).

Record premerge (t tM : BPlusTree) (G : gmap Z ginfo) (PP X Y : page_id_t)
    (gX gY : ginfo) (pgX pgY pgP : Page) (l1 l2 : list (Z * Z)) (kX kY : Z) : Prop := {
  pm_GX : G !! X = Some gX;
  pm_GY : G !! Y = Some gY;
  pm_par : g_parent gX = PP;
  pm_nonroot : PP ≠ INVALID_PAGE_ID;
  pm_pX : pages_ t !! X = Some pgX;
  pm_pY : pages_ t !! Y = Some pgY;
  pm_pP : pages_ t !! PP = Some pgP;
  pm_arr : array_ pgP = l1 ++ (kX, X) :: (kY, Y) :: l2;
  pm_PP : pages_ tM !! PP = Some (set_array pgP (l1 ++ (kX, X) :: l2));
  pm_X : ∃ pgM, pages_ tM !! X = Some pgM ∧
    array_ pgM = array_ pgX ++ merged_tail (g_h gX) kY (array_ pgY) ∧
    page_type_ pgM = page_type_ pgX ∧ max_size_ pgM = max_size_ pgX ∧
    parent_page_id_ pgM = parent_page_id_ pgX ∧ page_id_ pgM = page_id_ pgX ∧
    (g_h gX = O → next_page_id_ pgM = next_page_id_ pgY);
  pm_moved : ∀ c, c ∈ split_moved (g_h gX) (array_ pgY) →
    pages_ tM !! c = (λ pg, SetParentPageId pg X) <$> pages_ t !! c;
  pm_other : ∀ p, p ≠ X → p ≠ Y → p ≠ PP → p ∉ split_moved (g_h gX) (array_ pgY) →
    pages_ tM !! p = pages_ t !! p;
  pm_lm : leaf_max_size_ tM = leaf_max_size_ t;
  pm_im : internal_max_size_ tM = internal_max_size_ t;
  pm_alloc : alloc_ t ≤ alloc_ tM
}.

Lemma sorted_in_concat lo (l1 l2 : list Z) k hi :
  sorted_in lo l1 (Some k) → sorted_in (Some k) l2 hi →
  blt lo (Some k) → blt (Some k) hi →
  sorted_in lo (l1 ++ l2) hi.
Proof.
  unfold sorted_in. rewrite !StronglySorted_app, !Forall_app, !Forall_forall.
  intros (Hs1 & Hl1) (Hs2 & Hl2) Hb Hb2. split; [split; [|done]|split].
  - intros x1 x2 Hx1 Hx2. destruct (Hl1 x1 Hx1) as [_ H1]. destruct (Hl2 x2 Hx2) as [H2 _].
    simpl in *. lia.
  - intros x Hx. destruct (Hl1 x Hx) as [Ha Hb']. split; [done|].
    destruct hi; simpl in *; [lia|done].
  - intros x Hx. destruct (Hl2 x Hx) as [Ha Hb']. split; [|done].
    simpl in Ha. destruct lo; simpl in *; [lia|done].
Qed.

Section Merge.

Variable INTERNAL_PAGE_SIZE : Z.
Local Notation inv := (inv INTERNAL_PAGE_SIZE).

Variables (t tM : BPlusTree) (G : gmap Z ginfo) (e : exc) (hr : nat) (k0 root : Z).
Variables (PP X Y : page_id_t) (gX gY : ginfo) (pgX pgY pgP : Page)
          (l1 l2 : list (Z * Z)) (kX kY : Z).

Hypothesis Hinv : inv t G e hr [(k0, root)].
Hypothesis Hpre : premerge t tM G PP X Y gX gY pgX pgY pgP l1 l2 kX kY.
Hypothesis He : ∀ p, slack_hi e p = 0 ∧ slack_lo e p ≤ 1 ∧
                     (p ≠ X → p ≠ Y → slack_lo e p = 0).

Local Notation h := (g_h gX).
Local Notation moved := (split_moved (g_h gX) (array_ pgY)).
Local Notation gM := (mkG (g_parent gX) (g_h gX) (g_lo gX) (g_hi gY) (g_first gX) (g_next gY)).
Local Notation GM := (merge_ghost G X Y gX gY (array_ pgY)).
Local Notation eM := (merge_exc X PP (GetSize pgY)).

(** The two pages under their parent. *)
Lemma merge_facts :
  ∃ gP m1 m2 m3,
    G !! PP = Some gP ∧ g_h gP = S h ∧ PP ≠ INVALID_PAGE_ID ∧
    chain G PP h (g_lo gP) (array_ pgP) (g_hi gP) (g_first gP) (g_next gP) ∧
    pchain G PP h (g_lo gP) l1 kX (g_first gP) m1 ∧
    schain G PP h l2 (g_hi gP) m3 (g_next gP) ∧
    g_parent gY = PP ∧ g_h gY = h ∧
    g_lo gX = lo_at (g_lo gP) l1 kX ∧ g_hi gX = Some kY ∧ g_first gX = m1 ∧ g_next gX = m2 ∧
    g_lo gY = Some kY ∧ g_hi gY = hi_at l2 (g_hi gP) ∧ g_first gY = m2 ∧ g_next gY = m3 ∧
    NoDup ((array_ pgP).*2).
Proof.
  destruct Hpre as [HGX HGY Hpar Hi HpX HpY HpP Harr _ _ _ _ _ _ _].
  pose proof (inv_all_blt _ _ _ _ _ _ Hinv) as Hblt.
  rewrite <- Hpar in *.
  destruct (inv_parent _ _ _ _ _ _ _ _ Hinv HGX Hi)
    as (gP & pgP' & l1' & k' & l2' & HgP & HhP & HpP' & _ & _ & Hch).
  rewrite HpP in HpP'. injection HpP' as <-.
  pose proof (chain_NoDup _ _ _ _ _ _ _ _ Hblt Hch) as Hnd.
  pose proof Hch as Hch'. rewrite Harr in Hch'.
  apply chain_middle in Hch' as (m1 & m2 & Hp1 & HcX & Hs).
  simpl in Hs. apply (chain_middle _ _ _ _ [] kY Y l2) in Hs as (m2' & m3 & Hm2 & HcY & Hs2).
  simpl in Hm2. subst m2'.
  destruct HcX as (g1 & Hg1 & _ & _ & ? & ? & ? & ?).
  rewrite HGX in Hg1. injection Hg1 as <-.
  destruct HcY as (g2 & Hg2 & ? & ? & ? & ? & ? & ?).
  rewrite HGY in Hg2. injection Hg2 as <-.
  exists gP, m1, m2, m3. simpl in *. repeat split; try done.
Qed.

Lemma merge_pos p g : G !! p = Some g → 1 ≤ p < alloc_ t.
Proof.
  intros Hg. by destruct (inv_page _ _ _ _ _ _ _ _ Hinv Hg) as (pg & _ & _ & []).
Qed.

Lemma merge_ne : X ≠ Y ∧ X ≠ PP ∧ Y ≠ PP.
Proof.
  destruct merge_facts as (gP & m1 & m2 & m3 & HgP & HhP & _ & _ & _ & _ & _ & HhY & _ & HhiX
    & _ & _ & _ & _ & _ & _ & Hnd).
  destruct Hpre as [HGX HGY Hpar Hi HpX HpY HpP Harr _ _ _ _ _ _ _].
  split; [|split].
  - intros ->. rewrite Harr, fmap_app in Hnd. simpl in Hnd.
    apply NoDup_app in Hnd as (_ & _ & Hnd). apply NoDup_cons in Hnd as [Hn _].
    apply Hn. left.
  - intros ->. rewrite HGX in HgP. injection HgP as <-. lia.
  - intros ->. rewrite HGY in HgP. injection HgP as <-. lia.
Qed.

Lemma merge_chains h' :
  h = S h' →
  chain G X h' (g_lo gX) (array_ pgX) (Some kY) (g_first gX) (g_first gY) ∧
  chain G Y h' (Some kY) (array_ pgY) (g_hi gY) (g_first gY) (g_next gY).
Proof.
  intros Hh.
  destruct merge_facts as (gP & m1 & m2 & m3 & HgP & HhP & _ & _ & _ & _ & _ & HhY & _ & HhiX
    & _ & HnX & HloY & _ & HfY & _ & _).
  destruct Hpre as [HGX HGY Hpar Hi HpX HpY HpP Harr _ _ _ _ _ _ _].
  destruct (inv_page _ _ _ _ _ _ _ _ Hinv HGX) as (pg & Hp & _ & HokX).
  rewrite HpX in Hp. injection Hp as <-.
  destruct (inv_page _ _ _ _ _ _ _ _ Hinv HGY) as (pg & Hp & _ & HokY).
  rewrite HpY in Hp. injection Hp as <-.
  destruct HokX as [_ _ _ _ _ HsX]. destruct HokY as [_ _ _ _ _ HsY].
  unfold shape in *. rewrite HhY in HsY. rewrite Hh in *.
  destruct HsX as (_ & _ & HcX). destruct HsY as (_ & _ & HcY).
  rewrite HhiX, HnX in HcX. rewrite HloY in HcY. rewrite HfY in *. done.
Qed.

Lemma merge_moved_in c :
  c ∈ moved → ∃ h' gc, h = S h' ∧ c ∈ (array_ pgY).*2 ∧ G !! c = Some gc ∧
                        g_parent gc = Y ∧ g_h gc = h' ∧ c ≠ X ∧ c ≠ Y ∧ c ≠ PP.
Proof.
  unfold split_moved. destruct h as [|h'] eqn:Hh; [by inversion 1|]. intros Hin.
  destruct (merge_chains h' Hh) as [_ HcY].
  destruct (chain_children _ _ _ _ _ _ _ _ _ HcY Hin) as (gc & Hgc & Hparc & Hhc).
  destruct merge_facts as (gP & _ & _ & _ & HgP & HhP & _ & _ & _ & _ & _ & HhY & _).
  destruct merge_ne as (? & ? & ?).
  destruct Hpre as [HGX HGY Hpar Hi HpX HpY HpP Harr _ _ _ _ _ _ _].
  exists h', gc. repeat split; try done.
  - intros ->. rewrite HGX in Hgc. injection Hgc as <-. lia.
  - intros ->. rewrite HGY in Hgc. injection Hgc as <-. lia.
  - intros ->. rewrite HgP in Hgc. injection Hgc as <-. lia.
Qed.

Lemma merge_lookup p :
  GM !! p = if decide (p = Y) then None
            else if decide (p = X) then Some gM
            else if decide (p ∈ moved) then reparent X <$> G !! p
            else G !! p.
Proof.
  unfold merge_ghost. destruct (decide (p = Y)) as [->|H1].
  { by rewrite lookup_delete_eq. }
  rewrite lookup_delete_ne by done. destruct (decide (p = X)) as [->|H2].
  { by rewrite lookup_insert_eq. }
  rewrite lookup_insert_ne by done. apply reparent_all_lookup.
Qed.

Lemma merge_lookup_X : GM !! X = Some gM.
Proof.
  destruct merge_ne as (? & _). rewrite merge_lookup.
  rewrite decide_False by done. by rewrite decide_True.
Qed.

Lemma merge_lookup_moved c gc :
  c ∈ moved → G !! c = Some gc → GM !! c = Some (reparent X gc).
Proof.
  intros Hin Hg. destruct (merge_moved_in c Hin) as (_ & _ & _ & _ & _ & _ & _ & ? & ? & _).
  rewrite merge_lookup. rewrite !decide_False by done.
  rewrite decide_True by done. by rewrite Hg.
Qed.

Lemma merge_lookup_other p :
  p ≠ X → p ≠ Y → p ∉ moved → GM !! p = G !! p.
Proof. intros. rewrite merge_lookup. by rewrite !decide_False. Qed.

Lemma merge_childX_other h' c :
  h = S h' → c ∈ (array_ pgX).*2 → GM !! c = G !! c.
Proof.
  intros Hh Hin. destruct (merge_chains h' Hh) as [HcX _].
  destruct (chain_children _ _ _ _ _ _ _ _ _ HcX Hin) as (gc & Hgc & Hparc & Hhc).
  destruct merge_ne as (HXY & _).
  pose proof (pm_GX _ _ _ _ _ _ _ _ _ _ _ _ _ _ _ Hpre) as HGX.
  pose proof (pm_GY _ _ _ _ _ _ _ _ _ _ _ _ _ _ _ Hpre) as HGY.
  destruct merge_facts as (_ & _ & _ & _ & _ & _ & _ & _ & _ & _ & _ & HhY & _).
  apply merge_lookup_other.
  - intros ->. rewrite HGX in Hgc. injection Hgc as <-. lia.
  - intros ->. rewrite HGY in Hgc. injection Hgc as <-. lia.
  - intros Hm. destruct (merge_moved_in c Hm) as (_ & gc' & _ & _ & Hgc' & Hpar' & _).
    rewrite Hgc in Hgc'. injection Hgc' as <-. congruence.
Qed.

Lemma merged_tail_length hh k arr : length (merged_tail hh k arr) = length arr.
Proof. destruct hh; [done|]. by destruct arr as [|[??] ?]. Qed.

Lemma merged_tail_values hh k arr : (merged_tail hh k arr).*2 = arr.*2.
Proof. destruct hh; [done|]. by destruct arr as [|[??] ?]. Qed.

Lemma merge_slack :
  slack_lo eM X = 1 ∧ slack_hi eM X = GetSize pgY ∧
  slack_lo eM PP = 1 ∧ slack_hi eM PP = 0 ∧
  (∀ p, p ≠ X → p ≠ PP → slack_lo eM p = 0 ∧ slack_hi eM p = 0).
Proof.
  destruct merge_ne as (_ & HXP & _). unfold slack_lo, slack_hi, merge_exc.
  rewrite !decide_True by done. rewrite (decide_False (P := PP = X)) by done.
  rewrite !decide_True by done. simpl. unfold GetSize.
  split; [done|]. split; [lia|]. split; [done|]. split; [done|].
  intros p ? ?. by rewrite !decide_False.
Qed.

Lemma merge_node_X :
  ∃ pgM, pages_ tM !! X = Some pgM ∧
         array_ pgM = array_ pgX ++ merged_tail h kY (array_ pgY) ∧
         node_ok tM GM eM X gM pgM.
Proof.
  pose proof merge_chains as Hchains. pose proof merge_childX_other as Hco.
  pose proof merge_lookup_moved as Hlm0. pose proof merge_moved_in as Hmi.
  destruct merge_slack as (Hs1 & Hs2 & _).
  destruct merge_facts as (gP & m1 & m2 & m3 & HgP & HhP & _ & _ & _ & _ & HparY & HhY & _
    & HhiX & _ & HnX & HloY & _ & HfY & _ & _).
  destruct (He X) as (HeXh & HeXl & _).
  destruct Hpre as [HGX HGY Hpar Hi HpX HpY HpP Harr _ (pgM & HpM & HaM & Ht & Hm & HparM
    & Hid & Hn) _ _ Hlm Him Hal].
  destruct (inv_page _ _ _ _ _ _ _ _ Hinv HGX) as (pg & Hp & _ & HokX).
  rewrite HpX in Hp. injection Hp as <-.
  destruct (inv_page _ _ _ _ _ _ _ _ Hinv HGY) as (pg & Hp & _ & HokY).
  rewrite HpY in Hp. injection Hp as <-.
  destruct HokX as [HidX HparX HalX HbltX HsizeX HshapeX].
  destruct HokY as [HidY HparY' HalY HbltY HsizeY HshapeY].
  exists pgM. split; [done|]. split; [done|]. split.
  - congruence.
  - simpl. congruence.
  - lia.
  - simpl. rewrite HhiX in HbltX. rewrite HloY in HbltY.
    destruct (g_lo gX), (g_hi gY); simpl in *; try done. lia.
  - unfold size_ok in *. rewrite Hs1, Hs2. simpl. rewrite HeXh in HsizeX.
    unfold is_root in *. simpl. rewrite Hpar in *.
    rewrite (proj2 (Z.eqb_neq _ _)) in * by done. rewrite Hlm, Him.
    assert (GetSize pgM = GetSize pgX + GetSize pgY) as ->.
    { unfold GetSize. rewrite HaM, length_app, merged_tail_length. lia. }
    unfold GetSize in *. destruct h; lia.
  - unfold shape in *. simpl. rewrite HhY in HshapeY. rewrite Hlm, Him.
    destruct h as [|h'] eqn:Hh.
    + destruct HshapeX as (? & ? & ? & ? & HsX). destruct HshapeY as (? & ? & ? & ? & HsY).
      split; [congruence|]. split; [congruence|]. split; [rewrite Hn; done|].
      split; [done|]. rewrite HaM, fmap_app. simpl.
      rewrite HhiX in HsX, HbltX. rewrite HloY in HsY, HbltY.
      by apply (sorted_in_concat _ _ _ kY).
    + destruct HshapeX as (? & ? & _). split; [congruence|]. split; [congruence|].
      destruct (Hchains h' eq_refl) as [HcX HcY]. rewrite HaM.
      destruct (array_ pgY) as [|[ky0 cy0] rY] eqn:HaY; [done|]. simpl.
      assert (HXne : array_ pgX ≠ []) by (by destruct (array_ pgX)).
      apply chain_app; [done|]. exists (g_first gY). split.
      * eapply chain_frame; [done|]. intros c Hin. by apply (Hco h').
      * eapply (chain_reparent G _ Y); [exact HcY|]. intros c Hin.
        destruct (Hmi c) as (_ & gc & _ & _ & Hgc & _); [done|].
        rewrite Hgc. simpl. by apply Hlm0.
Qed.

Lemma merge_node_moved c gc :
  c ∈ moved → G !! c = Some gc →
  ∃ pg0, pages_ t !! c = Some pg0 ∧
         pages_ tM !! c = Some (SetParentPageId pg0 X) ∧
         node_ok tM GM eM c (reparent X gc) (SetParentPageId pg0 X).
Proof.
  intros Hm Hgc.
  destruct (merge_moved_in c Hm) as (h' & gc' & Hh & HinY & Hgc' & Hparc & Hhc & HcX & HcY & HcP).
  rewrite Hgc in Hgc'. injection Hgc' as <-.
  destruct merge_slack as (_ & _ & _ & _ & Hsl).
  destruct (Hsl c HcX HcP) as [Hsl1 Hsl2].
  destruct (He c) as (Heh & _ & Hel). specialize (Hel HcX HcY).
  destruct (inv_page _ _ _ _ _ _ _ _ Hinv Hgc) as (pg0 & Hp0 & _ & Hok).
  exists pg0. split; [done|]. split.
  { rewrite (pm_moved _ _ _ _ _ _ _ _ _ _ _ _ _ _ _ Hpre c Hm), Hp0. done. }
  pose proof (merge_pos _ _ (pm_GX _ _ _ _ _ _ _ _ _ _ _ _ _ _ _ Hpre)) as HXpos.
  pose proof (merge_pos _ _ (pm_GY _ _ _ _ _ _ _ _ _ _ _ _ _ _ _ Hpre)) as HYpos.
  eapply node_ok_reparent; [exact Hok| | | | |].
  - apply (pm_lm _ _ _ _ _ _ _ _ _ _ _ _ _ _ _ Hpre).
  - apply (pm_im _ _ _ _ _ _ _ _ _ _ _ _ _ _ _ Hpre).
  - apply (pm_alloc _ _ _ _ _ _ _ _ _ _ _ _ _ _ _ Hpre).
  - destruct Hok as [_ _ _ _ Hsize _].
    unfold size_ok, is_root in *. rewrite Hsl1, Hsl2. simpl. rewrite Heh, Hel, Hparc in Hsize.
    rewrite (pm_lm _ _ _ _ _ _ _ _ _ _ _ _ _ _ _ Hpre), (pm_im _ _ _ _ _ _ _ _ _ _ _ _ _ _ _ Hpre).
    assert (X =? INVALID_PAGE_ID = false) as -> by (apply Z.eqb_neq; unfold INVALID_PAGE_ID; lia).
    assert (Y =? INVALID_PAGE_ID = false) as HY by (apply Z.eqb_neq; unfold INVALID_PAGE_ID; lia).
    rewrite HY in Hsize. done.
  - intros d Hd Hne. destruct Hok as [_ _ _ _ _ Hshape]. unfold shape in Hshape.
    destruct (g_h gc) as [|h''] eqn:Hhgc; [done|]. destruct Hshape as (_ & _ & Hch).
    destruct (chain_children _ _ _ _ _ _ _ _ _ Hch Hd) as (gd & Hgd & Hpard & Hhd).
    destruct merge_facts as (_ & _ & _ & _ & _ & _ & _ & _ & _ & _ & _ & HhY & _).
    apply merge_lookup_other.
    + intros ->. rewrite (pm_GX _ _ _ _ _ _ _ _ _ _ _ _ _ _ _ Hpre) in Hgd.
      injection Hgd as <-. lia.
    + intros ->. rewrite (pm_GY _ _ _ _ _ _ _ _ _ _ _ _ _ _ _ Hpre) in Hgd.
      injection Hgd as <-. lia.
    + intros Hm'. destruct (merge_moved_in d Hm') as (_ & gd' & _ & _ & Hgd' & Hpd' & _).
      rewrite Hgd in Hgd'. injection Hgd' as <-. congruence.
Qed.

Lemma merge_sib c :
  c ∈ (l1 ++ l2).*2 → GM !! c = G !! c ∧ c ≠ X ∧ c ≠ Y.
Proof.
  intros Hin.
  destruct merge_facts as (gP & m1 & m2 & m3 & HgP & HhP & _ & Hch & _ & _ & _ & HhY & _ & _
    & _ & _ & _ & _ & _ & _ & Hnd).
  pose proof (pm_arr _ _ _ _ _ _ _ _ _ _ _ _ _ _ _ Hpre) as Harr.
  rewrite Harr in Hnd, Hch.
  assert (c ∈ (l1 ++ (kX, X) :: (kY, Y) :: l2).*2) as Hin'.
  { rewrite fmap_app in *. rewrite elem_of_app in *. simpl. destruct Hin; [by left|].
    right. right. by right. }
  destruct (chain_children _ _ _ _ _ _ _ _ _ Hch Hin') as (gc & Hgc & Hparc & _).
  rewrite fmap_app in Hnd. simpl in Hnd.
  apply NoDup_app in Hnd as (_ & Hd & Hnd2).
  apply NoDup_cons in Hnd2 as [HnX Hnd3]. apply NoDup_cons in Hnd3 as [HnY _].
  rewrite fmap_app, elem_of_app in Hin.
  assert (c ≠ X).
  { intros ->. destruct Hin as [Hin|Hin].
    - apply (Hd _ Hin). left.
    - apply HnX. by right. }
  assert (c ≠ Y).
  { intros ->. destruct Hin as [Hin|Hin].
    - apply (Hd _ Hin). right. left.
    - by apply HnY. }
  split; [|done]. apply merge_lookup_other; try done.
  intros Hm. destruct (merge_moved_in c Hm) as (_ & gc' & _ & _ & Hgc' & Hpar' & _).
  rewrite Hgc in Hgc'. injection Hgc' as <-.
  destruct merge_ne as (_ & _ & ?). congruence.
Qed.

Lemma merge_lookup_PP : GM !! PP = G !! PP.
Proof.
  destruct merge_ne as (_ & ? & ?). apply merge_lookup_other; try done.
  intros Hm. by destruct (merge_moved_in _ Hm) as (_ & _ & _ & _ & _ & _ & _ & _ & _ & ?).
Qed.

Lemma merge_node_PP :
  ∃ gP, G !! PP = Some gP ∧ GM !! PP = Some gP ∧ g_h gP = S h ∧
        node_ok tM GM eM PP gP (set_array pgP (l1 ++ (kX, X) :: l2)).
Proof.
  pose proof merge_sib as Hsib. pose proof merge_lookup_X as HGX'.
  pose proof merge_lookup_PP as HGP'.
  destruct merge_slack as (_ & _ & Hs1 & Hs2 & _).
  destruct merge_ne as (_ & HXP & HYP).
  destruct merge_facts as (gP & m1 & m2 & m3 & HgP & HhP & _ & Hch & Hp1 & Hs3 & HparY & HhY
    & HloX & HhiX & HfX & HnX & HloY & HhiY & HfY & HnY & Hnd).
  destruct (He PP) as (HePh & _ & HePl).
  specialize (HePl (not_eq_sym HXP) (not_eq_sym HYP)).
  destruct Hpre as [HGX HGY Hpar Hi HpX HpY HpP Harr _ _ _ _ Hlm Him Hal].
  destruct (inv_page _ _ _ _ _ _ _ _ Hinv HgP) as (pg & Hp & _ & HokP).
  rewrite HpP in Hp. injection Hp as <-.
  destruct HokP as [Hid HparP HalP Hblt Hsize Hshape].
  exists gP. split; [done|]. split; [by rewrite HGP'|]. split; [done|].
  split; simpl; try done.
  - lia.
  - unfold size_ok in *. rewrite HhP in *. rewrite Hs1, Hs2. rewrite HePh, HePl in Hsize.
    rewrite Him. unfold GetSize in *. simpl. rewrite Harr in Hsize.
    rewrite !length_app in *. simpl in *. lia.
  - unfold shape in *. rewrite HhP in *. rewrite Him.
    destruct Hshape as (? & ? & _). split; [done|]. split; [done|]. simpl.
    apply chain_middle. exists m1, m3. split; [|split].
    + eapply pchain_frame; [done|]. intros c Hin. apply Hsib.
      rewrite fmap_app, elem_of_app. by left.
    + exists gM. rewrite HGX'. simpl. rewrite Hpar. by repeat split.
    + eapply schain_frame; [done|]. intros c Hin. apply Hsib.
      rewrite fmap_app, elem_of_app. by right.
Qed.

Lemma merge_inv : inv tM GM eM hr [(k0, root)].
Proof.
  pose proof (pm_GX _ _ _ _ _ _ _ _ _ _ _ _ _ _ _ Hpre) as HGX.
  pose proof (pm_GY _ _ _ _ _ _ _ _ _ _ _ _ _ _ _ Hpre) as HGY.
  pose proof (pm_par _ _ _ _ _ _ _ _ _ _ _ _ _ _ _ Hpre) as Hpar.
  pose proof (pm_nonroot _ _ _ _ _ _ _ _ _ _ _ _ _ _ _ Hpre) as Hi.
  pose proof (pm_arr _ _ _ _ _ _ _ _ _ _ _ _ _ _ _ Hpre) as Harr.
  pose proof (pm_pP _ _ _ _ _ _ _ _ _ _ _ _ _ _ _ Hpre) as HpP.
  pose proof (pm_pX _ _ _ _ _ _ _ _ _ _ _ _ _ _ _ Hpre) as HpX.
  pose proof (pm_pY _ _ _ _ _ _ _ _ _ _ _ _ _ _ _ Hpre) as HpY.
  pose proof (pm_PP _ _ _ _ _ _ _ _ _ _ _ _ _ _ _ Hpre) as HpP'.
  destruct merge_ne as (HXY & HXP & HYP).
  destruct merge_node_PP as (gP & HgP & HgP' & HhP & HokP).
  destruct merge_node_X as (pgM & HpM & HaM & HokX).
  destruct merge_facts as (_ & _ & _ & _ & _ & _ & _ & _ & _ & _ & HparY & HhY & _).
  destruct merge_slack as (_ & _ & _ & _ & Hsl).
  eapply (inv_update INTERNAL_PAGE_SIZE t G e hr [(k0, root)] tM GM eM hr [(k0, root)]
            (X :: Y :: PP :: moved)); try done.
  - apply (pm_lm _ _ _ _ _ _ _ _ _ _ _ _ _ _ _ Hpre).
  - apply (pm_im _ _ _ _ _ _ _ _ _ _ _ _ _ _ _ Hpre).
  - apply (pm_alloc _ _ _ _ _ _ _ _ _ _ _ _ _ _ _ Hpre).
  - pose proof (pm_alloc _ _ _ _ _ _ _ _ _ _ _ _ _ _ _ Hpre).
    pose proof (inv_fuel _ _ _ _ _ _ Hinv). lia.
  - (* U1 *)
    intros p g' Hg' Hd. rewrite !not_elem_of_cons in Hd. destruct Hd as (? & ? & ? & ?).
    rewrite merge_lookup_other in Hg' by done. split; [done|].
    by apply (pm_other _ _ _ _ _ _ _ _ _ _ _ _ _ _ _ Hpre).
  - (* U2 *)
    intros p g Hg Hd. rewrite !not_elem_of_cons in Hd. destruct Hd as (? & ? & ? & ?).
    by rewrite merge_lookup_other.
  - (* U3 *)
    intros c g Hg Hne. left.
    destruct (decide (c = X)) as [->|HcX].
    { rewrite HGX in Hg. injection Hg as <-. rewrite Hpar. right. right. left. }
    destruct (decide (c = Y)) as [->|HcY].
    { rewrite HGY in Hg. injection Hg as <-. rewrite HparY. right. right. left. }
    destruct (decide (c ∈ moved)) as [Hm|Hm].
    { destruct (merge_moved_in c Hm) as (_ & gc & _ & _ & Hgc & Hparc & _).
      rewrite Hg in Hgc. injection Hgc as <-. rewrite Hparc. right. left. }
    exfalso. apply Hne. by rewrite merge_lookup_other.
  - (* U4 *)
    intros p g' Hg' Hd.
    destruct (decide (p = Y)) as [->|HpYn].
    { rewrite merge_lookup, decide_True in Hg' by done. done. }
    destruct (decide (p = X)) as [->|HpXn].
    { rewrite merge_lookup_X in Hg'. injection Hg' as <-. by exists pgM. }
    destruct (decide (p ∈ moved)) as [Hm|Hm].
    { destruct (merge_moved_in p Hm) as (_ & gc & _ & _ & Hgc & _).
      rewrite (merge_lookup_moved _ _ Hm Hgc) in Hg'. injection Hg' as <-.
      destruct (merge_node_moved p gc Hm Hgc) as (pg0 & _ & ? & ?).
      by exists (SetParentPageId pg0 X). }
    rewrite !elem_of_cons in Hd. destruct Hd as [?|[?|[->|?]]]; try done.
    rewrite HgP' in Hg'. injection Hg' as <-. eexists. split; [exact HpP'|done].
  - (* U5 *)
    intros p g' Hg' _. unfold up_ok. rewrite merge_lookup in Hg'.
    destruct (decide (p = Y)) as [->|HpYn]; [done|].
    destruct (decide (p = X)) as [->|HpXn].
    { injection Hg' as <-. simpl. split; [by rewrite Hpar|]. intros _.
      exists gP, (set_array pgP (l1 ++ (kX, X) :: l2)), kX. rewrite Hpar.
      do 3 (split; [done|]). simpl. rewrite elem_of_app, elem_of_cons. tauto. }
    destruct (decide (p ∈ moved)) as [Hm|Hm].
    { destruct (merge_moved_in p Hm) as (h' & gc & Hh & HinB & Hgc & _ & Hhc & _).
      rewrite Hgc in Hg'. injection Hg' as <-. simpl.
      pose proof (merge_pos _ _ HGX).
      split; [intros Hi'; unfold INVALID_PAGE_ID in Hi'; lia|]. intros _.
      rewrite <- (merged_tail_values h kY) in HinB.
      apply list_elem_of_fmap in HinB as ([k c] & -> & HinB).
      exists gM, pgM, k. rewrite merge_lookup_X, HpM, HaM. simpl.
      repeat split; try done; [congruence|]. rewrite elem_of_app. by right. }
    split.
    { intros Hi'. pose proof (inv_top _ _ _ _ _ _ Hinv p g' Hg' Hi') as Hin. done. }
    intros Hi'.
    destruct (inv_up _ _ _ _ _ _ Hinv p g' Hg' Hi') as (gQ & pgQ & k & HgQ & HhQ & HpQ & Hin).
    destruct (decide (g_parent g' = X)) as [HQ|HQX].
    { rewrite HQ in *. rewrite HGX in HgQ. injection HgQ as <-.
      rewrite HpX in HpQ. injection HpQ as <-.
      exists gM, pgM, k. rewrite merge_lookup_X, HpM, HaM. simpl.
      repeat split; try done. rewrite elem_of_app. by left. }
    destruct (decide (g_parent g' = Y)) as [HQ|HQY].
    { rewrite HQ in *. rewrite HGY in HgQ. injection HgQ as <-.
      rewrite HpY in HpQ. injection HpQ as <-.
      exfalso. apply Hm. unfold split_moved. rewrite <- HhY, HhQ.
      apply list_elem_of_fmap. by exists (k, p). }
    destruct (decide (g_parent g' ∈ moved)) as [HQm|HQm].
    { destruct (merge_node_moved _ gQ HQm HgQ) as (pg0 & Hp0 & Hp0' & _).
      rewrite HpQ in Hp0. injection Hp0 as <-.
      exists (reparent X gQ), (SetParentPageId pgQ X), k.
      rewrite (merge_lookup_moved _ _ HQm HgQ), Hp0'. done. }
    destruct (decide (g_parent g' = PP)) as [HQ|HQP].
    { rewrite HQ in *. rewrite HgP in HgQ. injection HgQ as <-.
      rewrite HpP in HpQ. injection HpQ as <-.
      exists gP, (set_array pgP (l1 ++ (kX, X) :: l2)), k.
      do 3 (split; [done|]). simpl. rewrite Harr in Hin.
      rewrite !elem_of_app, !elem_of_cons in *.
      destruct Hin as [?|[Heq|[Heq|?]]]; [tauto| | |tauto].
      - injection Heq as _ ->. done.
      - injection Heq as _ ->. done. }
    exists gQ, pgQ, k. rewrite merge_lookup_other by done.
    rewrite (pm_other _ _ _ _ _ _ _ _ _ _ _ _ _ _ _ Hpre) by done. done.
  - (* U7 *)
    destruct (inv_tops _ _ _ _ _ _ Hinv) as (fst & Hc). exists fst.
    apply chain_one in Hc. apply chain_one. eapply child_frame; [done|].
    destruct Hc as (g & Hg & Hparg & _).
    apply merge_lookup_other.
    + intros ->. rewrite HGX in Hg. injection Hg as <-. congruence.
    + intros ->. rewrite HGY in Hg. injection Hg as <-. congruence.
    + intros Hm. destruct (merge_moved_in _ Hm) as (_ & gc' & _ & _ & Hgc' & Hpar' & _).
      rewrite Hg in Hgc'. injection Hgc' as <-. rewrite Hparg in Hpar'.
      pose proof (merge_pos _ _ HGY). unfold INVALID_PAGE_ID in Hpar'. lia.
  - (* U8 *)
    intros p g' Hg'. rewrite merge_lookup in Hg'.
    pose proof (inv_height _ _ _ _ _ _ Hinv X gX HGX).
    destruct (decide (p = Y)); [done|].
    destruct (decide (p = X)); [by injection Hg' as <-|].
    destruct (decide (p ∈ moved)).
    + destruct (G !! p) as [g|] eqn:Hg; [|done]. injection Hg' as <-. simpl.
      apply (inv_height _ _ _ _ _ _ Hinv p g Hg).
    + apply (inv_height _ _ _ _ _ _ Hinv p g' Hg').
  - (* U9 *)
    intros p Hd. rewrite !not_elem_of_cons in Hd. destruct Hd as (HpX' & HpY' & HpP'' & _).
    destruct (Hsl p HpX' HpP'') as [-> ->].
    destruct (He p) as (-> & _ & Hl). rewrite (Hl HpX' HpY'). done.
Qed.

Lemma merge_contents kv : contents tM GM kv ↔ contents t G kv.
Proof.
  pose proof (pm_GX _ _ _ _ _ _ _ _ _ _ _ _ _ _ _ Hpre) as HGX.
  pose proof (pm_GY _ _ _ _ _ _ _ _ _ _ _ _ _ _ _ Hpre) as HGY.
  pose proof (pm_pX _ _ _ _ _ _ _ _ _ _ _ _ _ _ _ Hpre) as HpX.
  pose proof (pm_pY _ _ _ _ _ _ _ _ _ _ _ _ _ _ _ Hpre) as HpY.
  destruct merge_ne as (HXY & HXP & HYP).
  destruct merge_node_PP as (gP & HgP & HgP' & HhP & HokP).
  destruct merge_node_X as (pgM & HpM & HaM & HokX).
  destruct merge_facts as (_ & _ & _ & _ & _ & _ & _ & _ & _ & _ & HparY & HhY & _).
  split.
  - intros (p & g' & pg & Hg' & Hh & Hpg & Hin). rewrite merge_lookup in Hg'.
    destruct (decide (p = Y)) as [->|HpYn]; [done|].
    destruct (decide (p = X)) as [->|HpXn].
    { injection Hg' as <-. simpl in Hh. rewrite HpM in Hpg. injection Hpg as <-.
      rewrite HaM, Hh in Hin. simpl in Hin. apply elem_of_app in Hin as [Hin|Hin].
      - by exists X, gX, pgX.
      - exists Y, gY, pgY. repeat split; try done. congruence. }
    destruct (decide (p ∈ moved)) as [Hm|Hm].
    { destruct (G !! p) as [gc|] eqn:Hgc; [|done]. injection Hg' as <-.
      destruct (merge_node_moved p gc Hm Hgc) as (pg0 & Hp0 & Hp0' & _).
      rewrite Hpg in Hp0'. injection Hp0' as ->. by exists p, gc, pg0. }
    exists p, g', pg. split; [done|]. split; [done|]. split; [|done].
    rewrite <- (pm_other _ _ _ _ _ _ _ _ _ _ _ _ _ _ _ Hpre); try done.
    intros ->. rewrite HgP in Hg'. injection Hg' as <-. lia.
  - intros (p & g & pg & Hg & Hh & Hpg & Hin).
    destruct (decide (p = X)) as [->|HpXn].
    { rewrite HGX in Hg. injection Hg as <-. rewrite HpX in Hpg. injection Hpg as <-.
      exists X, gM, pgM. rewrite merge_lookup_X, HaM. repeat split; try done.
      rewrite elem_of_app. by left. }
    destruct (decide (p = Y)) as [->|HpYn].
    { rewrite HGY in Hg. injection Hg as <-. rewrite HpY in Hpg. injection Hpg as <-.
      exists X, gM, pgM. rewrite merge_lookup_X, HaM. repeat split; try done.
      - simpl. congruence.
      - rewrite <- HhY, Hh. simpl. rewrite elem_of_app. by right. }
    destruct (decide (p ∈ moved)) as [Hm|Hm].
    { destruct (merge_node_moved p g Hm Hg) as (pg0 & Hp0 & Hp0' & _).
      rewrite Hpg in Hp0. injection Hp0 as <-.
      exists p, (reparent X g), (SetParentPageId pg X).
      rewrite (merge_lookup_moved _ _ Hm Hg). done. }
    exists p, g, pg. rewrite merge_lookup_other by done.
    rewrite (pm_other _ _ _ _ _ _ _ _ _ _ _ _ _ _ _ Hpre); try done.
    intros ->. rewrite HgP in Hg. injection Hg as <-. lia.
Qed.

End Merge.
(** **** Changes that keep the shape *)

Lemma SetParentPageId_same pg P : parent_page_id_ pg = P → SetParentPageId pg P = pg.
Proof. intros <-. by destruct pg. Qed.

Lemma SetParentPageId_twice pg P Q :
  SetParentPageId (SetParentPageId pg P) Q = SetParentPageId pg Q.
Proof. done. Qed.

Lemma set_array_same pg : set_array pg (array_ pg) = pg.
Proof. by destruct pg. Qed.

Lemma set_array_twice pg a b : set_array (set_array pg a) b = set_array pg b.
Proof. done. Qed.

(** A pair is found at one place in an array without repeated values. *)
Lemma NoDup_middle_unique (l1 l2 l1' l2' : list (Z * Z)) k k' c :
  NoDup ((l1 ++ (k, c) :: l2).*2) →
  l1 ++ (k, c) :: l2 = l1' ++ (k', c) :: l2' →
  l1 = l1' ∧ k = k' ∧ l2 = l2'.
Proof.
  revert l1'. induction l1 as [|[k1 c1] l1 IH]; intros l1' Hnd Heq.
  - destruct l1' as [|[k2 c2] l1'].
    + simpl in Heq. injection Heq as -> ->. done.
    + simpl in Heq. injection Heq as -> -> Heq. exfalso.
      simpl in Hnd. apply NoDup_cons in Hnd as [Hn _]. apply Hn.
      rewrite Heq, fmap_app. apply elem_of_app. right. left.
  - destruct l1' as [|[k2 c2] l1'].
    + simpl in Heq. injection Heq as -> -> Heq. exfalso.
      simpl in Hnd. apply NoDup_cons in Hnd as [Hn _]. apply Hn.
      rewrite fmap_app. apply elem_of_app. right. left.
    + simpl in Heq. injection Heq as -> -> Heq.
      simpl in Hnd. apply NoDup_cons in Hnd as [_ Hnd].
      destruct (IH l1' Hnd Heq) as (-> & -> & ->). done.
Qed.

Section Glue.

Variable INTERNAL_PAGE_SIZE : Z.
Local Notation inv := (inv INTERNAL_PAGE_SIZE).

(** The exception of the invariant is changed for one that every page
    meets. *)
Lemma inv_exc_change t G e e' hr tops :
  inv t G e hr tops →
  (∀ p g pg, G !! p = Some g → pages_ t !! p = Some pg →
     node_ok t G e p g pg → size_ok t e' p g pg) →
  inv t G e' hr tops.
Proof.
  intros Hinv Hsz. pose proof Hinv as []. split; try done.
  intros p g Hg. destruct (inv_node0 p g Hg) as (pg & Hp & Hok). exists pg. split; [done|].
  pose proof (Hsz p g pg Hg Hp Hok). destruct Hok. split; done.
Qed.

(** Only the pages of the ghost table matter. *)
Lemma inv_agree t t' G e hr tops :
  inv t G e hr tops →
  leaf_max_size_ t' = leaf_max_size_ t →
  internal_max_size_ t' = internal_max_size_ t →
  alloc_ t ≤ alloc_ t' →
  (∀ p, is_Some (G !! p) → pages_ t' !! p = pages_ t !! p) →
  inv t' G e hr tops.
Proof.
  intros Hinv Hlm Him Hal Hag. pose proof Hinv as [].
  split; try done; try congruence; try lia.
  - intros p g Hg. destruct (inv_node0 p g Hg) as (pg & Hp & Hok). exists pg.
    split; [by rewrite Hag|]. by apply (node_ok_ext t).
  - intros p g Hg Hpar. destruct (inv_up0 p g Hg Hpar) as (gP & pgP & k & HgP & ? & ? & ?).
    exists gP, pgP, k. rewrite Hag; [done|]. by exists gP.
Qed.

Lemma contents_agree t t' G kv :
  (∀ p, is_Some (G !! p) → pages_ t' !! p = pages_ t !! p) →
  contents t' G kv ↔ contents t G kv.
Proof.
  intros Hag. split; intros (p & g & pg & Hg & Hh & Hpg & Hin); exists p, g, pg.
  - rewrite <- Hag; [done|]. by exists g.
  - rewrite Hag; [done|]. by exists g.
Qed.

(** The key of slot 0 of an internal page is not part of the shape. *)
Lemma inv_head_key t G e hr tops p g pg k c rest k' :
  inv t G e hr tops → G !! p = Some g → pages_ t !! p = Some pg →
  array_ pg = (k, c) :: rest → (g_h g = O → k' = k) →
  inv (write_page t p (set_array pg ((k', c) :: rest))) G e hr tops.
Proof.
  intros Hinv Hg Hpg Harr Hk.
  destruct (g_h g) as [|h'] eqn:Hh.
  { rewrite Hk by done. rewrite <- Harr, set_array_same.
    apply (inv_ext _ t); try done. simpl. by apply insert_id. }
  destruct (inv_page _ _ _ _ _ _ _ _ Hinv Hg) as (pg0 & Hpg0 & _ & Hok).
  rewrite Hpg in Hpg0. injection Hpg0 as <-.
  apply (inv_update INTERNAL_PAGE_SIZE t G e hr tops _ G e hr tops [p]); try done.
  - apply (inv_fuel _ _ _ _ _ _ Hinv).
  - intros q g' Hg' Hq. rewrite list_elem_of_singleton in Hq. split; [done|].
    simpl. by rewrite lookup_insert_ne.
  - intros q g' Hg' Hq. rewrite list_elem_of_singleton in Hq. subst q.
    rewrite Hg in Hg'. injection Hg' as <-.
    exists (set_array pg ((k', c) :: rest)). split; [simpl; by rewrite lookup_insert_eq|].
    destruct Hok. split; try done.
    + unfold size_ok, GetSize in *. rewrite Harr in no_size0. done.
    + unfold shape in *. rewrite Hh in *. destruct no_shape0 as (? & ? & Hch).
      split; [done|]. split; [done|]. simpl. rewrite Harr in Hch.
      by apply (chain_key_irrel _ _ _ _ k).
  - intros q g' Hg' _. split; [by apply (inv_top _ _ _ _ _ _ Hinv)|].
    intros Hpar. destruct (inv_up _ _ _ _ _ _ Hinv q g' Hg' Hpar)
      as (gP & pgP & kq & HgP & HhP & HpP & Hin).
    destruct (decide (g_parent g' = p)) as [Hp|Hp].
    + rewrite Hp in *. rewrite Hpg in HpP. injection HpP as <-.
      rewrite Harr in Hin. apply elem_of_cons in Hin as [Hin|Hin].
      * injection Hin as -> ->. exists gP, (set_array pg ((k', c) :: rest)), k'.
        simpl. rewrite lookup_insert_eq. repeat split; try done. left.
      * exists gP, (set_array pg ((k', c) :: rest)), kq.
        simpl. rewrite lookup_insert_eq. repeat split; try done. by right.
    + exists gP, pgP, kq. simpl. by rewrite lookup_insert_ne.
  - apply (inv_tops _ _ _ _ _ _ Hinv).
  - apply (inv_height _ _ _ _ _ _ Hinv).
Qed.

End Glue.
(** **** Two neighbours share their pairs again

    A page that borrows a pair from a neighbour: the pairs of the two
    pages (for internal pages with the key of the right one in the
    parent between them) are cut at another place.  This is the merge of
    the two pages, followed by a split. *)

Definition repage_all (ps : gmap Z Page) (cs : list Z) (P : page_id_t) : gmap Z Page :=
  foldr (λ c m, alter (λ pg, SetParentPageId pg P) c m) ps cs.

Lemma repage_all_lookup ps cs P c :
  repage_all ps cs P !! c =
  if decide (c ∈ cs) then (λ pg, SetParentPageId pg P) <$> ps !! c else ps !! c.
Proof.
  induction cs as [|c0 cs IH]; simpl.
  - destruct (decide (c ∈ [])) as [Hin|]; [by inversion Hin|done].
  - destruct (decide (c = c0)) as [->|Hne].
    + rewrite lookup_alter_eq, IH.
      rewrite (decide_True (P := c0 ∈ c0 :: cs)) by left.
      destruct (decide (c0 ∈ cs)); [|done]. by destruct (ps !! c0).
    + rewrite lookup_alter_ne by done. rewrite IH.
      destruct (decide (c ∈ cs)) as [Hin|Hin].
      * rewrite (decide_True (P := c ∈ c0 :: cs)) by by right. done.
      * rewrite (decide_False (P := c ∈ c0 :: cs)); [done|].
        intros [?|?]%elem_of_cons; done.
Qed.

Section Neighbours.

Variable INTERNAL_PAGE_SIZE : Z.
Local Notation inv := (inv INTERNAL_PAGE_SIZE).

(** Two neighbours under their parent, and their children. *)
Lemma neighbour_facts t G e hr tops PP X Y gX pgP l1 l2 kX kY :
  inv t G e hr tops → G !! X = Some gX → g_parent gX = PP → PP ≠ INVALID_PAGE_ID →
  pages_ t !! PP = Some pgP → array_ pgP = l1 ++ (kX, X) :: (kY, Y) :: l2 →
  ∃ gP gY pgX pgY,
    G !! PP = Some gP ∧ g_h gP = S (g_h gX) ∧ node_ok t G e PP gP pgP ∧
    G !! Y = Some gY ∧ g_parent gY = PP ∧ g_h gY = g_h gX ∧
    pages_ t !! X = Some pgX ∧ node_ok t G e X gX pgX ∧
    pages_ t !! Y = Some pgY ∧ node_ok t G e Y gY pgY ∧
    X ≠ Y ∧ X ≠ PP ∧ Y ≠ PP ∧ NoDup ((array_ pgP).*2) ∧
    (∀ c, c ∈ split_moved (g_h gX) (array_ pgX ++ array_ pgY) →
       c ≠ X ∧ c ≠ Y ∧ c ≠ PP ∧
       ∃ gc pgc, G !! c = Some gc ∧ pages_ t !! c = Some pgc ∧
                 parent_page_id_ pgc = g_parent gc ∧ S (g_h gc) = g_h gX ∧
                 (c ∈ (array_ pgX).*2 → g_parent gc = X) ∧
                 (c ∈ (array_ pgY).*2 → g_parent gc = Y)) ∧
    g_hi gX = Some kY ∧ g_lo gY = Some kY ∧ g_next gX = g_first gY ∧
    (g_h gX ≠ O → NoDup ((array_ pgX).*2)).
Proof.
  intros Hinv HGX Hpar Hi HpP Harr. subst PP.
  pose proof (inv_all_blt _ _ _ _ _ _ Hinv) as Hblt.
  destruct (inv_parent _ _ _ _ _ _ _ _ Hinv HGX Hi)
    as (gP & pgP' & l1' & k' & l2' & HgP & HhP & HpP' & HokP & _ & Hch).
  rewrite HpP in HpP'. injection HpP' as <-.
  pose proof (chain_NoDup _ _ _ _ _ _ _ _ Hblt Hch) as Hnd.
  assert (Y ∈ (array_ pgP).*2) as HinY.
  { rewrite Harr, fmap_app, elem_of_app. right. simpl. right. left. }
  destruct (chain_children _ _ _ _ _ _ _ _ _ Hch HinY) as (gY & HGY & HparY & HhY).
  destruct (inv_page _ _ _ _ _ _ _ _ Hinv HGX) as (pgX & HpX & _ & HokX).
  destruct (inv_page _ _ _ _ _ _ _ _ Hinv HGY) as (pgY & HpY & _ & HokY).
  assert (X ≠ Y) as HXY.
  { intros ->. rewrite Harr, fmap_app in Hnd. simpl in Hnd.
    apply NoDup_app in Hnd as (_ & _ & Hnd). apply NoDup_cons in Hnd as [Hn _].
    apply Hn. left. }
  assert (X ≠ g_parent gX) as HXP.
  { intros Heq. rewrite <- Heq in HgP. rewrite HGX in HgP. injection HgP as <-. lia. }
  assert (Y ≠ g_parent gX) as HYP.
  { intros Heq. rewrite <- Heq in HgP. rewrite HGY in HgP. injection HgP as <-. lia. }
  exists gP, gY, pgX, pgY. repeat (split; [done|]).
  split; [|split; [|split; [|split]]].
  2,3,4:
    pose proof Hch as Hch'; rewrite Harr in Hch';
    apply chain_middle in Hch' as (m1 & m2 & Hp1 & HcX & Hs);
    simpl in Hs; apply (chain_middle _ _ _ _ [] kY Y l2) in Hs as (m2' & m3 & Hm2 & HcY & Hs2);
    simpl in Hm2; subst m2';
    destruct HcX as (g1 & Hg1 & _ & _ & ? & ? & ? & ?);
    rewrite HGX in Hg1; injection Hg1 as <-;
    destruct HcY as (g2 & Hg2 & ? & ? & ? & ? & ? & ?);
    rewrite HGY in Hg2; injection Hg2 as <-; simpl in *; congruence.
  2:{ intros Hh. pose proof (no_shape _ _ _ _ _ _ HokX) as HsX. unfold shape in HsX.
      destruct (g_h gX); [done|]. destruct HsX as (_ & _ & HchX).
      apply (chain_NoDup _ _ _ _ _ _ _ _ Hblt HchX). }
  intros c Hc. unfold split_moved in Hc. destruct (g_h gX) as [|h'] eqn:Hh.
  { by apply elem_of_nil in Hc. }
  assert (∃ gc, G !! c = Some gc ∧ g_h gc = h' ∧
                (g_parent gc = X ∨ g_parent gc = Y) ∧
                (c ∈ (array_ pgX).*2 → g_parent gc = X) ∧
                (c ∈ (array_ pgY).*2 → g_parent gc = Y)) as (gc & Hgc & Hhc & Hor & HcX & HcY).
  { pose proof (no_shape _ _ _ _ _ _ HokX) as HsX.
    pose proof (no_shape _ _ _ _ _ _ HokY) as HsY.
    unfold shape in HsX, HsY. rewrite HhY in HsY. rewrite Hh in HsX.
    destruct HsX as (_ & _ & HchX). destruct HsY as (_ & _ & HchY).
    assert (∀ gc, G !! c = Some gc → g_parent gc = X → g_parent gc = Y → False) as Hno.
    { intros gc _ H1 H2. congruence. }
    rewrite fmap_app, elem_of_app in Hc. destruct Hc as [Hc|Hc].
    - destruct (chain_children _ _ _ _ _ _ _ _ _ HchX Hc) as (gc & Hgc & Hpc & Hhc).
      exists gc. repeat split; try done; [by left|]. intros Hc'.
      destruct (chain_children _ _ _ _ _ _ _ _ _ HchY Hc') as (gc' & Hgc' & Hpc' & _).
      congruence.
    - destruct (chain_children _ _ _ _ _ _ _ _ _ HchY Hc) as (gc & Hgc & Hpc & Hhc).
      exists gc. repeat split; try done; [by right|]. intros Hc'.
      destruct (chain_children _ _ _ _ _ _ _ _ _ HchX Hc') as (gc' & Hgc' & Hpc' & _).
      congruence. }
  destruct (inv_page _ _ _ _ _ _ _ _ Hinv Hgc) as (pgc & Hpc & _ & Hokc).
  split; [|split; [|split]].
  - intros ->. rewrite HGX in Hgc. injection Hgc as <-. lia.
  - intros ->. rewrite HGY in Hgc. injection Hgc as <-. lia.
  - intros ->. rewrite HgP in Hgc. injection Hgc as <-. lia.
  - exists gc, pgc. repeat split; try done.
    + apply (no_parent _ _ _ _ _ _ Hokc).
    + by rewrite Hhc.
Qed.

End Neighbours.

Lemma split_moved_app h (l l' : list (Z * Z)) c :
  c ∈ split_moved h (l ++ l') ↔ c ∈ split_moved h l ∨ c ∈ split_moved h l'.
Proof.
  unfold split_moved. destruct h.
  - split; [by intros ?%elem_of_nil|by intros [?%elem_of_nil|?%elem_of_nil]].
  - by rewrite fmap_app, elem_of_app.
Qed.

Lemma split_moved_merged h k (l l' : list (Z * Z)) :
  split_moved h (l ++ merged_tail h k l') = split_moved h (l ++ l').
Proof.
  unfold split_moved. destruct h; [done|].
  by rewrite !fmap_app, merged_tail_values.
Qed.

Section Rebalance.

Variable INTERNAL_PAGE_SIZE : Z.
Local Notation inv := (inv INTERNAL_PAGE_SIZE).

Variables (t tF : BPlusTree) (G : gmap Z ginfo) (e : exc) (hr : nat) (k0 root : Z).
Variables (PP X Y : page_id_t) (gX gY : ginfo) (pgX pgY pgP : Page)
          (l1 l2 : list (Z * Z)) (kX kY : Z).
Variables (A : list (Z * Z)) (sep sepY cB : Z) (B' : list (Z * Z)).

Local Notation h := (g_h gX).
Local Notation B := ((sep, cB) :: B').

Hypothesis Hinv : inv t G e hr [(k0, root)].
Hypothesis He : ∀ p, slack_hi e p = 0 ∧ slack_lo e p ≤ 1 ∧
                     (p ≠ X → p ≠ Y → slack_lo e p = 0).
Hypothesis HGX : G !! X = Some gX.
Hypothesis HGY : G !! Y = Some gY.
Hypothesis Hpar : g_parent gX = PP.
Hypothesis Hi : PP ≠ INVALID_PAGE_ID.
Hypothesis HpX : pages_ t !! X = Some pgX.
Hypothesis HpY : pages_ t !! Y = Some pgY.
Hypothesis HpP : pages_ t !! PP = Some pgP.
Hypothesis Harr : array_ pgP = l1 ++ (kX, X) :: (kY, Y) :: l2.
Hypothesis Hcut : array_ pgX ++ merged_tail h kY (array_ pgY) = A ++ B.
Hypothesis HA : A ≠ [].
Hypothesis Hsz : min_size_of_ok t h (Z.of_nat (length A)) ∧
                 min_size_of_ok t h (Z.of_nat (S (length B'))).
Hypothesis HsepY : h = O → sepY = sep.
Hypothesis HFX : pages_ tF !! X = Some (set_array pgX A).
Hypothesis HFY : pages_ tF !! Y = Some (set_array pgY ((sepY, cB) :: B')).
Hypothesis HFP : pages_ tF !! PP = Some (set_array pgP (l1 ++ (kX, X) :: (sep, Y) :: l2)).
Hypothesis HFA : ∀ c, c ∈ split_moved h A →
  pages_ tF !! c = (λ pg, SetParentPageId pg X) <$> pages_ t !! c.
Hypothesis HFB : ∀ c, c ∈ split_moved h B →
  pages_ tF !! c = (λ pg, SetParentPageId pg Y) <$> pages_ t !! c.
Hypothesis HFO : ∀ p, p ≠ X → p ≠ Y → p ≠ PP → p ∉ split_moved h (A ++ B) →
  pages_ tF !! p = pages_ t !! p.
Hypothesis Hlm : leaf_max_size_ tF = leaf_max_size_ t.
Hypothesis Him : internal_max_size_ tF = internal_max_size_ t.
Hypothesis Hal : alloc_ tF = alloc_ t.

Local Notation gM := (mkG (g_parent gX) (g_h gX) (g_lo gX) (g_hi gY) (g_first gX) (g_next gY)).
Local Notation GM := (merge_ghost G X Y gX gY (array_ pgY)).
Local Notation eM := (merge_exc X PP (GetSize pgY)).
Local Notation G' := (split_ghost GM X gM Y sep cB B).
Local Notation pgM :=
  (mkPage (page_type_ pgX) (max_size_ pgX) (parent_page_id_ pgX) (page_id_ pgX)
          (next_page_id_ pgY) (array_ pgX ++ merged_tail h kY (array_ pgY))).
Local Notation pgPM := (set_array pgP (l1 ++ (kX, X) :: l2)).
Local Notation tM :=
  (set_pages t (<[PP := pgPM]>
                  (<[X := pgM]> (repage_all (pages_ t) (split_moved h (array_ pgY)) X)))).
Local Notation pgYx := (set_array pgY B).
Local Notation t1 := (set_pages tF (<[PP := pgPM]> (<[Y := pgYx]> (pages_ tF)))).

Lemma rebalance_facts :
  ∃ gP, G !! PP = Some gP ∧ g_h gP = S h ∧ node_ok t G e PP gP pgP ∧
    g_parent gY = PP ∧ g_h gY = h ∧ node_ok t G e X gX pgX ∧ node_ok t G e Y gY pgY ∧
    X ≠ Y ∧ X ≠ PP ∧ Y ≠ PP ∧ NoDup ((array_ pgP).*2) ∧
    (∀ c, c ∈ split_moved h (A ++ B) →
       c ≠ X ∧ c ≠ Y ∧ c ≠ PP ∧
       ∃ gc pgc, G !! c = Some gc ∧ pages_ t !! c = Some pgc ∧
                 parent_page_id_ pgc = g_parent gc ∧ S (g_h gc) = h ∧
                 (c ∉ split_moved h (array_ pgY) → g_parent gc = X) ∧
                 (c ∈ split_moved h (array_ pgY) → g_parent gc = Y)).
Proof.
  destruct (neighbour_facts _ _ _ _ _ _ _ _ _ _ _ _ _ _ _ Hinv HGX Hpar Hi HpP Harr)
    as (gP & gY' & pgX' & pgY' & HgP & HhP & HokP & HGY' & HparY & HhY & HpX' & HokX & HpY'
        & HokY & HXY & HXP & HYP & Hnd & Hch & _).
  rewrite HGY in HGY'. injection HGY' as <-. rewrite HpX in HpX'. injection HpX' as <-.
  rewrite HpY in HpY'. injection HpY' as <-.
  exists gP. repeat (split; [done|]).
  intros c Hc. rewrite <- Hcut, split_moved_merged in Hc.
  destruct (Hch c Hc) as (? & ? & ? & gc & pgc & Hgc & Hpc & Hpar' & Hhc & HcX & HcY).
  repeat (split; [done|]). exists gc, pgc. repeat (split; [done|]).
  unfold split_moved in *. destruct h; [by apply elem_of_nil in Hc|].
  split; [|done]. intros Hn. apply HcX.
  rewrite fmap_app, elem_of_app in Hc. tauto.
Qed.

Lemma rebalance_premerge : premerge t tM G PP X Y gX gY pgX pgY pgP l1 l2 kX kY.
Proof.
  destruct rebalance_facts as (gP & HgP & HhP & HokP & HparY & HhY & HokX & HokY & HXY & HXP
    & HYP & Hnd & Hch).
  assert (∀ c, c ∈ split_moved h (array_ pgY) → c ∈ split_moved h (A ++ B)) as Hsub.
  { intros c Hc. rewrite <- Hcut, split_moved_merged, split_moved_app. by right. }
  split; try done.
  - simpl. by rewrite lookup_insert_eq.
  - exists pgM. simpl. rewrite lookup_insert_ne, lookup_insert_eq by done. done.
  - intros c Hc. destruct (Hch c (Hsub c Hc)) as (? & ? & ? & _).
    simpl. rewrite !lookup_insert_ne by done. rewrite repage_all_lookup.
    by rewrite decide_True.
  - intros p ? ? ? Hp. simpl. rewrite !lookup_insert_ne by done.
    rewrite repage_all_lookup. by rewrite decide_False.
Qed.

Lemma rebalance_exc p :
  p ≠ X → slack_hi eM p = 0 ∧ slack_lo eM p ≤ 1 ∧ (p ≠ g_parent gM → slack_lo eM p = 0).
Proof.
  intros HpXn. unfold merge_exc, slack_hi, slack_lo. simpl.
  rewrite decide_False by done. rewrite Hpar.
  destruct (decide (p = PP)); simpl; repeat split; try lia; done.
Qed.

Lemma rebalance_presplit : presplit tM t1 GM X gM A sep cB B' Y.
Proof.
  pose proof rebalance_premerge as Hpm.
  pose proof (merge_facts _ _ _ _ _ _ _ _ _ _ _ _ _ _ _ _ _ _ _ _ Hinv Hpm)
    as (gP0 & m1 & m2 & m3 & _ & _ & _ & _ & _ & _ & _ & _ & _ & _ & _ & HnX & _ & _ & HfY & _).
  destruct rebalance_facts as (gP & HgP & HhP & HokP & HparY & HhY & HokX & HokY & HXY & HXP
    & HYP & Hnd & Hch).
  assert (∀ c, c ∈ split_moved h (array_ pgY) → c ∈ split_moved h (A ++ B)) as Hsub.
  { intros c Hc. rewrite <- Hcut, split_moved_merged, split_moved_app. by right. }
  split.
  - rewrite merge_lookup. rewrite decide_False, decide_True by done. done.
  - exists pgM, (set_array pgX A), pgYx. simpl.
    rewrite (lookup_insert_ne _ PP X), lookup_insert_eq by done.
    rewrite (lookup_insert_ne _ PP X), (lookup_insert_ne _ Y X) by done.
    rewrite (lookup_insert_ne _ PP Y), lookup_insert_eq by done.
    pose proof (no_shape _ _ _ _ _ _ HokX) as HsX.
    pose proof (no_shape _ _ _ _ _ _ HokY) as HsY.
    unfold shape in HsX, HsY. rewrite HhY in HsY.
    repeat split; try done.
    + intros Hh. rewrite Hh in *. destruct HsX as (_ & _ & -> & _).
      destruct HsY as (_ & _ & _ & <- & _). congruence.
    + destruct h; destruct HsX as (-> & _); destruct HsY as (-> & _); done.
    + destruct h; destruct HsX as (_ & -> & _); destruct HsY as (_ & -> & _); done.
    + rewrite (no_parent _ _ _ _ _ _ HokX), (no_parent _ _ _ _ _ _ HokY). congruence.
    + apply (no_id _ _ _ _ _ _ HokY).
  - done.
  - split.
    + rewrite merge_lookup. by rewrite decide_True.
    + simpl. rewrite Hal. apply (no_alloc _ _ _ _ _ _ HokY).
  - simpl. lia.
  - done.
  - done.
  - intros c Hc. simpl in Hc.
    assert (c ∈ split_moved h (A ++ B)) as Hc' by (apply split_moved_app; by right).
    destruct (Hch c Hc') as (? & ? & ? & gc & pgc & Hgc & Hpc & _).
    simpl. rewrite !lookup_insert_ne by done. rewrite (HFB c Hc), Hpc.
    rewrite repage_all_lookup, Hpc. by destruct (decide _).
  - intros p HpXn HpYn Hp. simpl in Hp. simpl.
    destruct (decide (p = PP)) as [->|HpPn].
    { by rewrite !lookup_insert_eq. }
    rewrite !lookup_insert_ne by done. rewrite repage_all_lookup.
    destruct (decide (p ∈ split_moved h A)) as [HpA|HpA].
    + assert (p ∈ split_moved h (A ++ B)) as Hc' by (apply split_moved_app; by left).
      destruct (Hch p Hc') as (_ & _ & _ & gc & pgc & Hgc & Hpc & Hparc & _ & Hn & _).
      rewrite (HFA p HpA), Hpc. destruct (decide _) as [|Hnm]; [done|].
      simpl. rewrite SetParentPageId_same; [done|]. rewrite Hparc. by apply Hn.
    + assert (p ∉ split_moved h (A ++ B)) as Hc'.
      { rewrite split_moved_app. tauto. }
      rewrite (HFO p) by done. rewrite decide_False; [done|]. intros Hm. by apply Hc', Hsub.
  - done.
Qed.

Lemma rebalance_lookup_PP : ∃ gP, G !! PP = Some gP ∧ G' !! PP = Some gP ∧ g_h gP = S h.
Proof.
  destruct rebalance_facts as (gP & HgP & HhP & HokP & HparY & HhY & HokX & HokY & HXY & HXP
    & HYP & Hnd & Hch).
  exists gP. split; [done|]. split; [|done].
  rewrite split_lookup_other; try done.
  - rewrite merge_lookup_other; try done.
    intros Hc. assert (PP ∈ split_moved h (A ++ B)) as Hc'.
    { rewrite <- Hcut, split_moved_merged, split_moved_app. by right. }
    by destruct (Hch _ Hc') as (_ & _ & ? & _).
  - simpl. intros Hc. assert (PP ∈ split_moved h (A ++ B)) as Hc'.
    { rewrite split_moved_app. by right. }
    by destruct (Hch _ Hc') as (_ & _ & ? & _).
Qed.

Lemma rebalance_inv : inv tF G' NoExc hr [(k0, root)].
Proof.
  pose proof rebalance_premerge as Hpm. pose proof rebalance_presplit as Hps.
  pose proof (merge_inv _ _ _ _ _ _ _ _ _ _ _ _ _ _ _ _ _ _ _ _ Hinv Hpm He) as HinvM.
  destruct rebalance_facts as (gP & HgP & HhP & HokP & HparY & HhY & HokX & HokY & HXY & HXP
    & HYP & Hnd & Hch).
  assert (g_parent gM ≠ INVALID_PAGE_ID) as Hi' by (simpl; by rewrite Hpar).
  destruct (split_pending_nonroot _ _ _ _ _ _ _ _ _ _ _ _ _ _ _ HinvM Hps rebalance_exc Hi')
    as (gP' & pgP0 & l1' & k & l2' & HgP' & HhP' & HpP0 & HpP1 & Harr0 & HinvS).
  simpl in HpP0, HpP1, HinvS. rewrite Hpar in HpP0, HpP1, HinvS.
  rewrite lookup_insert_eq in HpP0. injection HpP0 as <-. simpl in Harr0.
  assert (NoDup ((l1 ++ (kX, X) :: l2).*2)) as Hnd'.
  { rewrite Harr, fmap_app in Hnd. simpl in Hnd. rewrite fmap_app. simpl.
    apply NoDup_app in Hnd as (H1 & H2 & H3). apply NoDup_app. split; [done|]. split.
    - intros x Hx Hin. apply (H2 x Hx). apply elem_of_cons in Hin as [->|Hin]; [left|].
      right. by right.
    - apply NoDup_cons in H3 as [Hn1 H3]. apply NoDup_cons in H3 as [Hn2 H3].
      apply NoDup_cons. split; [|done]. intros Hin. apply Hn1. by right. }
  destruct (NoDup_middle_unique _ _ _ _ _ _ _ Hnd' Harr0) as (<- & <- & <-).
  rewrite set_array_twice in HinvS.
  (* the parent is not larger than before *)
  apply inv_exc_change with (e' := NoExc) in HinvS.
  2:{ intros p g pg Hg Hpg Hok. pose proof (no_size _ _ _ _ _ _ Hok) as Hs.
      destruct (decide (p = PP)) as [->|Hne].
      - simpl in Hpg. rewrite lookup_insert_eq in Hpg. injection Hpg as <-.
        pose proof (no_shape _ _ _ _ _ _ Hok) as Hsh.
        pose proof (no_shape _ _ _ _ _ _ HokP) as HshP.
        pose proof (no_size _ _ _ _ _ _ HokP) as HsP.
        unfold shape, size_ok in *. rewrite HhP in *.
        destruct (He PP) as (HehP & _). rewrite HehP in HsP.
        destruct (g_h g).
        + destruct Hsh as (Hty & _). destruct HshP as (Hty' & _). simpl in Hty. congruence.
        + unfold slack_lo, slack_hi in *. simpl in *. unfold GetSize in *. simpl in *.
          rewrite Harr in HsP. rewrite !length_app in *. simpl in *. lia.
      - unfold size_ok, slack_lo, slack_hi in *. rewrite decide_False in Hs by done.
        done. }
  (* the key of slot 0 of [Y] *)
  pose proof (split_lookup_rp _ _ _ _ _ _ _ _ _ _ _ _ _ _ _ HinvM Hps) as HGY'.
  simpl in HGY'. rewrite Hpar in HGY'.
  pose proof (inv_head_key _ _ _ _ _ _ Y _ pgYx sep cB B' sepY HinvS HGY') as HinvS2.
  clear HinvS. rename HinvS2 into HinvS. simpl in HinvS.
  rewrite (lookup_insert_ne _ PP Y), (lookup_insert_ne _ PP Y), lookup_insert_eq in HinvS
    by done.
  specialize (HinvS eq_refl eq_refl HsepY).
  apply (inv_agree _ _ tF) in HinvS; try done.
  - by rewrite <- Hpar in HinvS.
  - intros p _. simpl.
    destruct (decide (p = Y)) as [->|HpYn].
    { by rewrite lookup_insert_eq. }
    rewrite lookup_insert_ne by done.
    destruct (decide (p = PP)) as [->|HpPn].
    { by rewrite lookup_insert_eq. }
    by rewrite !lookup_insert_ne.
Qed.

Lemma rebalance_contents kv : contents tF G' kv ↔ contents t G kv.
Proof.
  pose proof rebalance_premerge as Hpm. pose proof rebalance_presplit as Hps.
  pose proof (merge_inv _ _ _ _ _ _ _ _ _ _ _ _ _ _ _ _ _ _ _ _ Hinv Hpm He) as HinvM.
  destruct rebalance_facts as (gP & HgP & HhP & HokP & HparY & HhY & HokX & HokY & HXY & HXP
    & HYP & Hnd & Hch).
  rewrite <- (merge_contents _ _ _ _ _ _ _ _ _ _ _ _ _ _ _ _ _ _ _ _ Hinv Hpm He).
  rewrite <- (split_contents _ _ _ _ _ _ _ _ _ _ _ _ _ _ _ HinvM Hps rebalance_exc).
  apply contents_same; [done|].
  intros p g Hg Hh0. simpl.
  destruct (decide (p = PP)) as [->|HpPn].
  { destruct rebalance_lookup_PP as (gP' & _ & HgP' & HhP').
    rewrite Hg in HgP'. injection HgP' as <-. lia. }
  rewrite lookup_insert_ne by done.
  destruct (decide (p = Y)) as [->|HpYn]; [|by rewrite lookup_insert_ne].
  rewrite lookup_insert_eq, HFY. simpl.
  rewrite (split_lookup_rp _ _ _ _ _ _ _ _ _ _ _ _ _ _ _ HinvM Hps) in Hg.
  injection Hg as <-. simpl in Hh0. by rewrite HsepY.
Qed.

Lemma rebalance_dom p : G !! p = None → G' !! p = None.
Proof.
  intros Hn. rewrite split_lookup.
  destruct (decide (p = X)) as [->|?]; [congruence|].
  destruct (decide (p = Y)) as [->|?]; [congruence|].
  assert (GM !! p = None) as HM.
  { rewrite merge_lookup. rewrite !decide_False by done.
    destruct (decide _); by rewrite Hn. }
  destruct (decide _); by rewrite HM.
Qed.

Lemma rebalance_spec :
  ∃ G1, inv tF G1 NoExc hr [(k0, root)] ∧
        (∀ kv, contents tF G1 kv ↔ contents t G kv) ∧
        (∀ p, G !! p = None → G1 !! p = None).
Proof.
  exists G'. split; [apply rebalance_inv|]. split; [apply rebalance_contents|].
  apply rebalance_dom.
Qed.

End Rebalance.
(** **** The steps of [TryBorrow] and [Merge] on the arrays *)

Lemma Leaf_Insert_at p (l1 l2 : list (Z * Z)) key value :
  array_ p = l1 ++ l2 →
  Forall (λ k, k < key) (l1.*1) → Forall (λ k, key < k) (l2.*1) →
  Leaf_Insert p key value = (set_array p (l1 ++ (key, value) :: l2), true).
Proof.
  intros Ha H1 H2. unfold Leaf_Insert.
  rewrite (Leaf_LowerBound_split p l1 l2 key Ha H1)
    by (eapply Forall_impl; [done|]; simpl; lia).
  rewrite comparator_eq. unfold GetSize.
  destruct l2 as [|[k v] l2].
  - rewrite app_nil_r in Ha. rewrite Ha. rewrite (proj2 (Z.ltb_ge _ _)) by lia. simpl.
    f_equal. f_equal. rewrite <- (insert_at_app l1 []). by rewrite app_nil_r.
  - rewrite (KeyAt_middle p l1 l2 k v Ha). simpl in H2. apply Forall_cons in H2 as [Hk _].
    simpl in Hk. rewrite (proj2 (Z.eqb_neq key k)) by lia. rewrite andb_false_r. rewrite Ha.
    by rewrite insert_at_app.
Qed.

Lemma sorted_middle (l1 l2 : list (Z * Z)) key v :
  StronglySorted Z.lt ((l1 ++ (key, v) :: l2).*1) →
  Forall (λ k, k < key) (l1.*1) ∧ Forall (λ k, key < k) (l2.*1).
Proof.
  rewrite fmap_app. simpl. intros Hs.
  apply StronglySorted_app in Hs as (H12 & _ & Hs2).
  apply StronglySorted_inv in Hs2 as [_ Hall]. split; [|done].
  apply Forall_forall. intros x Hx. apply H12; [done|left].
Qed.

Lemma Leaf_Remove_at p (l1 l2 : list (Z * Z)) key v :
  array_ p = l1 ++ (key, v) :: l2 → StronglySorted Z.lt ((array_ p).*1) →
  Leaf_Remove p key = (set_array p (l1 ++ l2), true).
Proof.
  intros Ha Hs. rewrite Ha in Hs. destruct (sorted_middle _ _ _ _ Hs) as [H1 H2].
  unfold Leaf_Remove.
  rewrite (Leaf_LowerBound_split p l1 ((key, v) :: l2) key Ha H1).
  2:{ simpl. constructor; [lia|]. eapply Forall_impl; [done|]. simpl. lia. }
  rewrite comparator_eq. unfold GetSize.
  rewrite (KeyAt_middle p l1 l2 key v Ha). rewrite Ha.
  rewrite (proj2 (Z.ltb_lt _ _)) by (rewrite length_app; simpl; lia).
  rewrite Z.eqb_refl. simpl. rewrite Nat2Z.id. by rewrite delete_middle.
Qed.

Lemma leaf_insert_all_back items :
  ∀ p, StronglySorted Z.lt ((array_ p ++ items).*1) →
       leaf_insert_all p items = set_array p (array_ p ++ items).
Proof.
  induction items as [|[k v] items IH]; intros p Hs.
  - unfold leaf_insert_all. simpl. by rewrite app_nil_r, set_array_same.
  - unfold leaf_insert_all. simpl.
    destruct (sorted_middle _ _ _ _ Hs) as [H1 _].
    rewrite (Leaf_Insert_at p (array_ p) [] k v); [|by rewrite app_nil_r|done|constructor].
    simpl. fold (leaf_insert_all (set_array p (array_ p ++ [(k, v)])) items).
    rewrite IH; simpl; rewrite <- app_assoc; done.
Qed.

Lemma Internal_Insert_back p a (l : list (Z * Z)) key value :
  array_ p = a :: l → Forall (λ k, k < key) (l.*1) →
  Internal_Insert p key value = (set_array p (array_ p ++ [(key, value)]), true).
Proof.
  intros Ha H1. unfold Internal_Insert.
  rewrite (Internal_LowerBound_split p a l [] key); [|by rewrite app_nil_r|done|constructor].
  unfold GetSize. rewrite Ha. simpl length.
  rewrite (proj2 (Z.ltb_ge _ _)) by lia. simpl andb. cbv iota.
  f_equal. f_equal. change (S (length l)) with (length (a :: l)).
  rewrite <- (insert_at_app (a :: l) []). by rewrite app_nil_r.
Qed.

Lemma internal_insert_all_back items :
  ∀ p a l, array_ p = a :: l → StronglySorted Z.lt ((l ++ items).*1) →
           internal_insert_all p items = set_array p (array_ p ++ items).
Proof.
  induction items as [|[k v] items IH]; intros p a l Ha Hs.
  - unfold internal_insert_all. simpl. by rewrite app_nil_r, set_array_same.
  - unfold internal_insert_all. simpl.
    destruct (sorted_middle _ _ _ _ Hs) as [H1 _].
    rewrite (Internal_Insert_back p a l k v Ha H1).
    simpl. fold (internal_insert_all (set_array p (array_ p ++ [(k, v)])) items).
    rewrite (IH _ a (l ++ [(k, v)])); simpl.
    + by rewrite <- app_assoc.
    + by rewrite Ha.
    + by rewrite <- app_assoc.
Qed.

Lemma SetKeyAt_middle p (l1 l2 : list (Z * Z)) k0 c k :
  array_ p = l1 ++ (k0, c) :: l2 →
  SetKeyAt p (Z.of_nat (length l1)) k = set_array p (l1 ++ (k, c) :: l2).
Proof.
  intros Ha. unfold SetKeyAt. rewrite (ValueAt_middle p l1 l2 k0 c Ha), Nat2Z.id, Ha.
  f_equal. clear Ha. induction l1 as [|x l1 IH]; simpl; [done|]. by rewrite IH.
Qed.

Lemma ShiftLeft_middle p (l1 l2 : list (Z * Z)) x :
  array_ p = l1 ++ x :: l2 →
  ShiftLeft p (Z.of_nat (length l1)) = set_array p (l1 ++ l2).
Proof. intros Ha. unfold ShiftLeft. by rewrite Nat2Z.id, Ha, delete_middle. Qed.

Lemma deref_write t p pg q :
  deref (write_page t p pg) q = if decide (q = p) then Ok pg else deref t q.
Proof.
  unfold deref. simpl. destruct (decide (q = p)) as [->|Hne].
  - by rewrite lookup_insert_eq.
  - by rewrite lookup_insert_ne.
Qed.

Lemma FetchPage_write t p pg q :
  FetchPage (write_page t p pg) q = if decide (q = p) then Ok pg else FetchPage t q.
Proof. rewrite !FetchPage_deref. apply deref_write. Qed.

Lemma lookup_write t p pg q :
  pages_ (write_page t p pg) !! q = if decide (q = p) then Some pg else pages_ t !! q.
Proof.
  simpl. destruct (decide (q = p)) as [->|Hne].
  - by rewrite lookup_insert_eq.
  - by rewrite lookup_insert_ne.
Qed.

Lemma GetSize_app_one pg (A : list (Z * Z)) x :
  array_ pg = A ++ [x] → GetSize pg - 1 = Z.of_nat (length A).
Proof. intros Ha. unfold GetSize. rewrite Ha, length_app. simpl. lia. Qed.

Lemma KeyAt_0 pg k v l : array_ pg = (k, v) :: l → KeyAt pg 0 = k.
Proof. intros Ha. unfold KeyAt. by rewrite Ha. Qed.

Lemma ValueAt_0 pg k v l : array_ pg = (k, v) :: l → ValueAt pg 0 = v.
Proof. intros Ha. unfold ValueAt. by rewrite Ha. Qed.

Lemma KeyAt_1 pg a k v l : array_ pg = a :: (k, v) :: l → KeyAt pg 1 = k.
Proof. intros Ha. unfold KeyAt. by rewrite Ha. Qed.

(** [TryBorrow] from a neighbour without a pair to spare. *)
Lemma TryBorrow_poor t page sib parent is_left pg :
  pages_ t !! sib = Some pg → GetSize pg ≤ GetMinSize pg →
  TryBorrow t page (Some sib) parent is_left = Ok (false, t).
Proof.
  intros Hp Hsz. unfold TryBorrow. rewrite ?(FetchPage_ok _ _ _ Hp), ?(deref_ok _ _ _ Hp). cbn [bind].
  by rewrite (proj2 (Z.leb_le _ _)).
Qed.

(** A leaf takes the last pair of its left neighbour. *)
Lemma TryBorrow_leaf_left t X Y PP pgX pgY pgP A sep v l1 kX kY l2 :
  X ≠ Y → X ≠ PP → Y ≠ PP →
  pages_ t !! X = Some pgX → pages_ t !! Y = Some pgY → pages_ t !! PP = Some pgP →
  page_id_ pgY = Y → IsLeafPage pgY = true →
  GetMinSize pgX < GetSize pgX →
  array_ pgX = A ++ [(sep, v)] →
  StronglySorted Z.lt ((array_ pgX ++ array_ pgY).*1) →
  array_ pgP = l1 ++ (kX, X) :: (kY, Y) :: l2 → NoDup ((array_ pgP).*2) →
  TryBorrow t Y (Some X) PP true =
    Ok (true,
        write_page
          (write_page (write_page t Y (set_array pgY ((sep, v) :: array_ pgY)))
             X (set_array pgX A))
          PP (set_array pgP (l1 ++ (kX, X) :: (sep, Y) :: l2))).
Proof.
  intros HXY HXP HYP HpX HpY HpP HidY HleafY Hsz HaX Hs HaP Hnd.
  unfold TryBorrow. rewrite ?(FetchPage_ok _ _ _ HpX), ?(deref_ok _ _ _ HpX). cbn [bind].
  rewrite (proj2 (Z.leb_gt _ _)) by done.
  rewrite ?(FetchPage_ok _ _ _ HpY), ?(deref_ok _ _ _ HpY). cbn [bind].
  rewrite ?(FetchPage_ok _ _ _ HpP), ?(deref_ok _ _ _ HpP). cbn [bind].
  rewrite HleafY. rewrite (GetSize_app_one pgX A _ HaX).
  rewrite (KeyAt_middle pgX A [] sep v HaX), (ValueAt_middle pgX A [] sep v HaX).
  assert (Forall (λ k, sep < k) (array_ pgY).*1) as Hgt.
  { rewrite HaX, <- app_assoc in Hs. simpl in Hs.
    by destruct (sorted_middle _ _ _ _ Hs) as [_ ?]. }
  rewrite (Leaf_Insert_at pgY [] (array_ pgY) sep v); [|done|constructor|done].
  cbn [fst app]. rewrite ?FetchPage_write, ?deref_write.
  rewrite (decide_False (P := X = Y)) by done. rewrite ?(FetchPage_ok _ _ _ HpX), ?(deref_ok _ _ _ HpX).
  cbn [bind]. rewrite (KeyAt_middle pgX A [] sep v HaX).
  rewrite (Leaf_Remove_at pgX A [] sep v HaX).
  2:{ rewrite fmap_app in Hs. by apply StronglySorted_app in Hs as (_ & ? & _). }
  cbn [fst]. rewrite app_nil_r. rewrite ?FetchPage_write, ?deref_write.
  rewrite (decide_False (P := Y = X)) by done. rewrite (decide_True (P := Y = Y)) by done.
  cbn [bind]. rewrite (decide_True (P := X = X)) by done. cbn [bind].
  rewrite (decide_False (P := PP = X)), (decide_False (P := PP = Y)) by done.
  rewrite ?(FetchPage_ok _ _ _ HpP), ?(deref_ok _ _ _ HpP). cbn [bind].
  unfold GetPageId. simpl page_id_. rewrite HidY.
  assert (HaP' : array_ pgP = (l1 ++ [(kX, X)]) ++ (kY, Y) :: l2) by by rewrite <- app_assoc.
  rewrite (FindIndex_middle pgP _ _ kY Y HaP' Hnd), Z.add_0_r.
  rewrite (SetKeyAt_middle pgP _ _ kY Y _ HaP'). rewrite <- app_assoc. done.
Qed.

(** A leaf takes the first pair of its right neighbour. *)
Lemma TryBorrow_leaf_right t X Y PP pgX pgY pgP k0 v0 k1 v1 rest l1 kX kY l2 :
  X ≠ Y → X ≠ PP → Y ≠ PP →
  pages_ t !! X = Some pgX → pages_ t !! Y = Some pgY → pages_ t !! PP = Some pgP →
  page_id_ pgX = X → IsLeafPage pgX = true →
  GetMinSize pgY < GetSize pgY →
  array_ pgY = (k0, v0) :: (k1, v1) :: rest →
  StronglySorted Z.lt ((array_ pgX ++ array_ pgY).*1) →
  array_ pgP = l1 ++ (kX, X) :: (kY, Y) :: l2 → NoDup ((array_ pgP).*2) →
  TryBorrow t X (Some Y) PP false =
    Ok (true,
        write_page
          (write_page (write_page t X (set_array pgX (array_ pgX ++ [(k0, v0)])))
             Y (set_array pgY ((k1, v1) :: rest)))
          PP (set_array pgP (l1 ++ (kX, X) :: (k1, Y) :: l2))).
Proof.
  intros HXY HXP HYP HpX HpY HpP HidX HleafX Hsz HaY Hs HaP Hnd.
  unfold TryBorrow. rewrite ?(FetchPage_ok _ _ _ HpY), ?(deref_ok _ _ _ HpY). cbn [bind].
  rewrite (proj2 (Z.leb_gt _ _)) by done.
  rewrite ?(FetchPage_ok _ _ _ HpX), ?(deref_ok _ _ _ HpX). cbn [bind].
  rewrite ?(FetchPage_ok _ _ _ HpP), ?(deref_ok _ _ _ HpP). cbn [bind].
  rewrite HleafX.
  rewrite (KeyAt_0 pgY k0 v0 _ HaY), (ValueAt_0 pgY k0 v0 _ HaY).
  assert (Forall (λ k, k < k0) (array_ pgX).*1) as Hlt.
  { rewrite HaY in Hs. by destruct (sorted_middle _ _ _ _ Hs) as [? _]. }
  rewrite (Leaf_Insert_at pgX (array_ pgX) [] k0 v0); [|by rewrite app_nil_r|done|constructor].
  cbn [fst]. rewrite ?FetchPage_write, ?deref_write.
  rewrite (decide_False (P := Y = X)) by done. rewrite ?(FetchPage_ok _ _ _ HpY), ?(deref_ok _ _ _ HpY).
  cbn [bind]. rewrite (KeyAt_0 pgY k0 v0 _ HaY).
  rewrite (Leaf_Remove_at pgY [] _ k0 v0 HaY).
  2:{ rewrite fmap_app in Hs. by apply StronglySorted_app in Hs as (_ & _ & ?). }
  cbn [fst app]. rewrite ?FetchPage_write, ?deref_write.
  rewrite (decide_False (P := X = Y)) by done. rewrite (decide_True (P := X = X)) by done.
  cbn [bind]. rewrite (decide_True (P := Y = Y)) by done. cbn [bind].
  rewrite (decide_False (P := PP = X)), (decide_False (P := PP = Y)) by done.
  rewrite ?(FetchPage_ok _ _ _ HpP), ?(deref_ok _ _ _ HpP). cbn [bind].
  unfold GetPageId. rewrite HidX.
  rewrite (FindIndex_middle pgP _ _ kX X HaP Hnd).
  assert (HaP' : array_ pgP = (l1 ++ [(kX, X)]) ++ (kY, Y) :: l2) by by rewrite <- app_assoc.
  replace (Z.of_nat (length l1) + 1) with (Z.of_nat (length (l1 ++ [(kX, X)])))
    by (rewrite length_app; simpl; lia).
  rewrite (SetKeyAt_middle pgP _ _ kY Y _ HaP'). rewrite <- app_assoc. done.
Qed.

(** An internal page takes the last child of its left neighbour. *)
Lemma TryBorrow_internal_left t X Y PP pgX pgY pgP A kl cl ky0 c0 restY l1 kX kY l2 :
  X ≠ Y → X ≠ PP → Y ≠ PP → cl ≠ X → cl ≠ Y → cl ≠ PP →
  pages_ t !! X = Some pgX → pages_ t !! Y = Some pgY → pages_ t !! PP = Some pgP →
  is_Some (pages_ t !! cl) →
  page_id_ pgY = Y → IsLeafPage pgY = false →
  GetMinSize pgX < GetSize pgX →
  array_ pgX = A ++ [(kl, cl)] → array_ pgY = (ky0, c0) :: restY →
  array_ pgP = l1 ++ (kX, X) :: (kY, Y) :: l2 → NoDup ((array_ pgP).*2) →
  ∃ tF, TryBorrow t Y (Some X) PP true = Ok (true, tF) ∧ same_meta t tF ∧
    ∀ p, pages_ tF !! p =
      if decide (p = PP) then Some (set_array pgP (l1 ++ (kX, X) :: (kl, Y) :: l2))
      else if decide (p = cl) then (λ pg, SetParentPageId pg Y) <$> pages_ t !! cl
      else if decide (p = X) then Some (set_array pgX A)
      else if decide (p = Y) then Some (set_array pgY ((ky0, cl) :: (kY, c0) :: restY))
      else pages_ t !! p.
Proof.
  intros HXY HXP HYP HcX HcY HcP HpX HpY HpP Hcl HidY HleafY Hsz HaX HaY HaP Hnd.
  unfold TryBorrow. rewrite ?(FetchPage_ok _ _ _ HpX), ?(deref_ok _ _ _ HpX). cbn [bind].
  rewrite (proj2 (Z.leb_gt _ _)) by done.
  rewrite ?(FetchPage_ok _ _ _ HpY), ?(deref_ok _ _ _ HpY). cbn [bind].
  rewrite ?(FetchPage_ok _ _ _ HpP), ?(deref_ok _ _ _ HpP). cbn [bind].
  rewrite HleafY. rewrite (GetSize_app_one pgX A _ HaX).
  rewrite (KeyAt_middle pgX A [] kl cl HaX), (ValueAt_middle pgX A [] kl cl HaX).
  rewrite ?FetchPage_write, ?deref_write.
  rewrite (decide_False (P := X = Y)) by done. rewrite ?(FetchPage_ok _ _ _ HpX), ?(deref_ok _ _ _ HpX).
  cbn [bind]. rewrite (GetSize_app_one pgX A _ HaX), HaX, Nat2Z.id, take_app_length.
  rewrite ?FetchPage_write, ?deref_write.
  rewrite (decide_False (P := Y = X)) by done. rewrite (decide_True (P := Y = Y)) by done.
  cbn [bind].
  unfold GetPageId. rewrite HidY.
  assert (HaP' : array_ pgP = (l1 ++ [(kX, X)]) ++ (kY, Y) :: l2) by by rewrite <- app_assoc.
  rewrite (FindIndex_middle pgP _ _ kY Y HaP' Hnd), Z.add_0_r.
  rewrite (KeyAt_middle pgP _ _ kY Y HaP').
  set (p3 := SetValueAt (SetKeyAt (ShiftRight pgY) 1 kY) 0 cl).
  assert (Hp3 : p3 = set_array pgY ((ky0, cl) :: (kY, c0) :: restY)).
  { unfold p3, SetValueAt, SetKeyAt, ShiftRight, KeyAt, ValueAt. rewrite HaY. done. }
  rewrite Hp3. simpl page_id_. rewrite HidY.
  unfold children_between. simpl.
  set (t2 := write_page (write_page t Y _) X _).
  destruct (UpdateChildNode_spec Y [cl] t2) as (t3 & Hu & Hmeta & Hlook).
  { intros c Hc. apply list_elem_of_singleton in Hc as ->. unfold t2.
    rewrite !lookup_write. rewrite !decide_False by done. done. }
  simpl in Hu. rewrite Hu. cbn [bind]. rewrite ?FetchPage_deref. unfold deref. rewrite Hlook.
  rewrite decide_False by (rewrite list_elem_of_singleton; done).
  unfold t2 at 1. rewrite !lookup_write. rewrite !decide_False by done. rewrite HpP.
  cbn [bind]. rewrite (SetKeyAt_middle pgP _ _ kY Y _ HaP'). rewrite <- app_assoc.
  eexists. split; [done|]. split.
  { eapply same_meta_trans; [|apply same_meta_write].
    eapply same_meta_trans; [|exact Hmeta].
    eapply same_meta_trans; apply same_meta_write. }
  intros p. rewrite lookup_write. destruct (decide (p = PP)); [done|].
  rewrite Hlook. rewrite (decide_ext (p ∈ [cl]) (p = cl)) by apply list_elem_of_singleton.
  destruct (decide (p = cl)) as [->|]; unfold t2; rewrite !lookup_write.
  - by rewrite !decide_False.
  - done.
Qed.

(** An internal page takes the first child of its right neighbour. *)
Lemma TryBorrow_internal_right t X Y PP pgX pgY pgP ky0 c0 k1 c1 rest l1 kX kY l2 :
  X ≠ Y → X ≠ PP → Y ≠ PP → c0 ≠ X → c0 ≠ Y → c0 ≠ PP →
  pages_ t !! X = Some pgX → pages_ t !! Y = Some pgY → pages_ t !! PP = Some pgP →
  is_Some (pages_ t !! c0) →
  page_id_ pgX = X → IsLeafPage pgX = false →
  GetMinSize pgY < GetSize pgY →
  array_ pgY = (ky0, c0) :: (k1, c1) :: rest →
  array_ pgP = l1 ++ (kX, X) :: (kY, Y) :: l2 → NoDup ((array_ pgP).*2) →
  ∃ tF, TryBorrow t X (Some Y) PP false = Ok (true, tF) ∧ same_meta t tF ∧
    ∀ p, pages_ tF !! p =
      if decide (p = PP) then Some (set_array pgP (l1 ++ (kX, X) :: (k1, Y) :: l2))
      else if decide (p = c0) then (λ pg, SetParentPageId pg X) <$> pages_ t !! c0
      else if decide (p = X) then Some (set_array pgX (array_ pgX ++ [(kY, c0)]))
      else if decide (p = Y) then Some (set_array pgY ((k1, c1) :: rest))
      else pages_ t !! p.
Proof.
  intros HXY HXP HYP HcX HcY HcP HpX HpY HpP Hcl HidX HleafX Hsz HaY HaP Hnd.
  unfold TryBorrow. rewrite ?(FetchPage_ok _ _ _ HpY), ?(deref_ok _ _ _ HpY). cbn [bind].
  rewrite (proj2 (Z.leb_gt _ _)) by done.
  rewrite ?(FetchPage_ok _ _ _ HpX), ?(deref_ok _ _ _ HpX). cbn [bind].
  rewrite ?(FetchPage_ok _ _ _ HpP), ?(deref_ok _ _ _ HpP). cbn [bind].
  rewrite HleafX. rewrite (KeyAt_1 pgY _ k1 c1 _ HaY), (ValueAt_0 pgY ky0 c0 _ HaY).
  rewrite ?FetchPage_write, ?deref_write.
  rewrite (decide_False (P := Y = X)) by done. rewrite ?(FetchPage_ok _ _ _ HpY), ?(deref_ok _ _ _ HpY).
  cbn [bind].
  assert (HSL : ShiftLeft pgY 0 = set_array pgY ((k1, c1) :: rest)).
  { unfold ShiftLeft. by rewrite HaY. }
  rewrite HSL.
  rewrite ?FetchPage_write, ?deref_write.
  rewrite (decide_False (P := X = Y)) by done. rewrite (decide_True (P := X = X)) by done.
  cbn [bind].
  unfold GetPageId. rewrite HidX.
  assert (HaP' : array_ pgP = (l1 ++ [(kX, X)]) ++ (kY, Y) :: l2) by by rewrite <- app_assoc.
  rewrite (FindIndex_middle pgP _ _ kX X HaP Hnd).
  replace (Z.of_nat (length l1) + 1) with (Z.of_nat (length (l1 ++ [(kX, X)])))
    by (rewrite length_app; simpl; lia).
  rewrite (KeyAt_middle pgP _ _ kY Y HaP').
  simpl page_id_. rewrite HidX.
  assert (Hcb : children_between (set_array pgX (array_ pgX ++ [(kY, c0)]))
                  (GetSize (set_array pgX (array_ pgX ++ [(kY, c0)])) - 1)
                  (GetSize (set_array pgX (array_ pgX ++ [(kY, c0)]))) = [c0]).
  { unfold children_between, GetSize. simpl array_. rewrite length_app. simpl length.
    replace (Z.to_nat (Z.of_nat (length (array_ pgX) + 1) - 1)) with (length (array_ pgX))
      by lia.
    rewrite drop_app_length.
    replace (Z.to_nat _) with 1%nat by lia. done. }
  rewrite Hcb.
  set (t2 := write_page (write_page t X _) Y _).
  destruct (UpdateChildNode_spec X [c0] t2) as (t3 & Hu & Hmeta & Hlook).
  { intros c Hc. apply list_elem_of_singleton in Hc as ->. unfold t2.
    rewrite !lookup_write. rewrite !decide_False by done. done. }
  rewrite Hu. cbn [bind]. rewrite ?FetchPage_deref. unfold deref. rewrite Hlook.
  rewrite decide_False by (rewrite list_elem_of_singleton; done).
  unfold t2 at 1. rewrite !lookup_write. rewrite !decide_False by done. rewrite HpP.
  cbn [bind]. rewrite (SetKeyAt_middle pgP _ _ kY Y _ HaP'). rewrite <- app_assoc.
  eexists. split; [done|]. split.
  { eapply same_meta_trans; [|apply same_meta_write].
    eapply same_meta_trans; [|exact Hmeta].
    eapply same_meta_trans; apply same_meta_write. }
  intros p. rewrite lookup_write. destruct (decide (p = PP)); [done|].
  rewrite Hlook. rewrite (decide_ext (p ∈ [c0]) (p = c0)) by apply list_elem_of_singleton.
  destruct (decide (p = c0)) as [->|]; unfold t2; rewrite !lookup_write.
  - by rewrite !decide_False.
  - destruct (decide (p = Y)) as [->|]; [|done]. by rewrite decide_False.
Qed.

(** [Merge] of two leaves. *)
Lemma Merge_leaf t X Y PP pgX pgY pgP l1 kX kY l2 :
  X ≠ PP →
  pages_ t !! X = Some pgX → pages_ t !! Y = Some pgY → pages_ t !! PP = Some pgP →
  page_id_ pgX = X → IsLeafPage pgX = true →
  StronglySorted Z.lt ((array_ pgX ++ array_ pgY).*1) →
  array_ pgP = l1 ++ (kX, X) :: (kY, Y) :: l2 → NoDup ((array_ pgP).*2) →
  Merge t X Y PP =
    Ok (write_page
          (write_page t X (SetNextPageId (set_array pgX (array_ pgX ++ array_ pgY))
                                         (next_page_id_ pgY)))
          PP (set_array pgP (l1 ++ (kX, X) :: l2))).
Proof.
  intros HXP HpX HpY HpP HidX HleafX Hs HaP Hnd.
  unfold Merge. rewrite ?(FetchPage_ok _ _ _ HpX), ?(deref_ok _ _ _ HpX). cbn [bind].
  rewrite ?(FetchPage_ok _ _ _ HpY), ?(deref_ok _ _ _ HpY). cbn [bind].
  rewrite ?(FetchPage_ok _ _ _ HpP), ?(deref_ok _ _ _ HpP). cbn [bind].
  rewrite HleafX. cbn [bind]. rewrite (leaf_insert_all_back _ _ Hs).
  rewrite ?FetchPage_write, ?deref_write. rewrite decide_False by done.
  rewrite ?(FetchPage_ok _ _ _ HpP), ?(deref_ok _ _ _ HpP). cbn [bind].
  unfold GetPageId. rewrite HidX.
  assert (HaP' : array_ pgP = (l1 ++ [(kX, X)]) ++ (kY, Y) :: l2) by by rewrite <- app_assoc.
  rewrite (FindIndex_middle pgP _ _ kX X HaP Hnd).
  replace (Z.of_nat (length l1) + 1) with (Z.of_nat (length (l1 ++ [(kX, X)])))
    by (rewrite length_app; simpl; lia).
  rewrite (ShiftLeft_middle pgP _ _ _ HaP'). rewrite <- app_assoc. done.
Qed.

(** [Merge] of two internal pages. *)
Lemma Merge_internal t X Y PP pgX pgY pgP a lX ky0 c0 restY l1 kX kY l2 :
  X ≠ PP →
  pages_ t !! X = Some pgX → pages_ t !! Y = Some pgY → pages_ t !! PP = Some pgP →
  page_id_ pgX = X → IsLeafPage pgX = false →
  array_ pgX = a :: lX → array_ pgY = (ky0, c0) :: restY →
  StronglySorted Z.lt ((lX ++ (kY, c0) :: restY).*1) →
  (∀ c, c ∈ (array_ pgY).*2 → is_Some (pages_ t !! c) ∧ c ≠ X ∧ c ≠ PP) →
  array_ pgP = l1 ++ (kX, X) :: (kY, Y) :: l2 → NoDup ((array_ pgP).*2) →
  ∃ tM, Merge t X Y PP = Ok tM ∧ same_meta t tM ∧
    ∀ p, pages_ tM !! p =
      if decide (p = PP) then Some (set_array pgP (l1 ++ (kX, X) :: l2))
      else if decide (p ∈ (array_ pgY).*2)
           then (λ pg, SetParentPageId pg X) <$> pages_ t !! p
      else if decide (p = X)
           then Some (set_array pgX (array_ pgX ++ (kY, c0) :: restY))
      else pages_ t !! p.
Proof.
  intros HXP HpX HpY HpP HidX HleafX HaX HaY Hs Hch HaP Hnd.
  unfold Merge. rewrite ?(FetchPage_ok _ _ _ HpX), ?(deref_ok _ _ _ HpX). cbn [bind].
  rewrite ?(FetchPage_ok _ _ _ HpY), ?(deref_ok _ _ _ HpY). cbn [bind].
  rewrite ?(FetchPage_ok _ _ _ HpP), ?(deref_ok _ _ _ HpP). cbn [bind].
  rewrite HleafX.
  unfold GetPageId. rewrite HidX.
  assert (HaP' : array_ pgP = (l1 ++ [(kX, X)]) ++ (kY, Y) :: l2) by by rewrite <- app_assoc.
  rewrite (FindIndex_middle pgP _ _ kX X HaP Hnd).
  replace (Z.of_nat (length l1) + 1) with (Z.of_nat (length (l1 ++ [(kX, X)])))
    by (rewrite length_app; simpl; lia).
  rewrite (KeyAt_middle pgP _ _ kY Y HaP'), (ValueAt_0 pgY ky0 c0 _ HaY).
  rewrite HaY. cbn [drop].
  rewrite (internal_insert_all_back restY _ a (lX ++ [(kY, c0)])).
  2:{ simpl. by rewrite HaX. }
  2:{ by rewrite <- app_assoc. }
  simpl array_. rewrite <- app_assoc. cbn [app]. rewrite set_array_twice.
  simpl page_id_. rewrite HidX.
  assert (Hcb : children_between (set_array pgX (array_ pgX ++ (kY, c0) :: restY))
                  (GetSize pgX)
                  (GetSize (set_array pgX (array_ pgX ++ (kY, c0) :: restY)))
                = c0 :: restY.*2).
  { unfold children_between, GetSize. simpl array_. rewrite length_app. simpl length.
    rewrite Nat2Z.id, drop_app_length.
    rewrite firstn_all2 by (simpl; lia). done. }
  rewrite Hcb.
  set (t2 := write_page t X _).
  destruct (UpdateChildNode_spec X (c0 :: restY.*2) t2) as (t3 & Hu & Hmeta & Hlook).
  { intros c Hc. unfold t2. rewrite lookup_write.
    destruct (Hch c) as (? & ? & ?); [by rewrite HaY|]. by rewrite decide_False. }
  rewrite Hu. cbn [bind]. rewrite ?FetchPage_deref. unfold deref. rewrite Hlook.
  rewrite decide_False.
  2:{ intros Hin. destruct (Hch PP) as (_ & _ & ?); [by rewrite HaY|done]. }
  unfold t2 at 1. rewrite lookup_write. rewrite decide_False by done. rewrite HpP.
  cbn [bind]. rewrite (ShiftLeft_middle pgP _ _ _ HaP'). rewrite <- app_assoc.
  eexists. split; [done|]. split.
  { eapply same_meta_trans; [|apply same_meta_write].
    eapply same_meta_trans; [|exact Hmeta]. apply same_meta_write. }
  intros p. rewrite lookup_write. destruct (decide (p = PP)); [done|].
  rewrite Hlook. change (((ky0, c0) :: restY).*2) with (c0 :: restY.*2).
  destruct (decide (p ∈ c0 :: restY.*2)) as [Hin|Hin]; unfold t2; rewrite lookup_write.
  - destruct (Hch p) as (_ & ? & _); [by rewrite HaY|]. by rewrite decide_False.
  - done.
Qed.
(** **** [TryBorrow] keeps the shape *)

Lemma sorted_in_app_lt lo (l1 l2 : list Z) k hi :
  sorted_in lo l1 (Some k) → sorted_in (Some k) l2 hi → StronglySorted Z.lt (l1 ++ l2).
Proof.
  unfold sorted_in. intros (Hs1 & Hl1) (Hs2 & Hl2).
  apply StronglySorted_app. split; [|done].
  intros x1 x2 Hx1 Hx2. rewrite Forall_forall in Hl1, Hl2.
  destruct (Hl1 x1 Hx1) as [_ H1]. destruct (Hl2 x2 Hx2) as [H2 _]. simpl in *. lia.
Qed.

Lemma He_Under page X Y :
  page = X ∨ page = Y →
  ∀ p, slack_hi (Under page) p = 0 ∧ slack_lo (Under page) p ≤ 1 ∧
       (p ≠ X → p ≠ Y → slack_lo (Under page) p = 0).
Proof.
  intros Hor p. unfold slack_hi, slack_lo. destruct (decide (page = p)) as [<-|?].
  - split; [done|]. split; [lia|]. intros ? ?. by destruct Hor.
  - split; [done|]. split; [lia|done].
Qed.

(** The size of a page that is not the root, against [GetMinSize]. *)
Lemma node_sizes t G e p g pg :
  node_ok t G e p g pg → g_parent g ≠ INVALID_PAGE_ID →
  GetMinSize pg = min_size_of t (g_h g) ∧
  min_size_of t (g_h g) - slack_lo e p ≤ GetSize pg ≤ cap_of t (g_h g) + slack_hi e p ∧
  IsLeafPage pg = match g_h g with O => true | S _ => false end.
Proof.
  intros Hok Hpar. pose proof (no_size _ _ _ _ _ _ Hok) as Hs.
  pose proof (no_shape _ _ _ _ _ _ Hok) as Hsh.
  unfold size_ok, shape, is_root in *.
  rewrite (proj2 (Z.eqb_neq _ _) Hpar) in Hs.
  unfold GetMinSize, IsLeafPage, min_size_of, cap_of.
  destruct (g_h g); destruct Hsh as (-> & -> & _); done.
Qed.

Section Borrow.

Variable INTERNAL_PAGE_SIZE : Z.
Local Notation inv := (inv INTERNAL_PAGE_SIZE).

(** The bounds of a tree with at least one page below the root. *)
Lemma min_le_cap t G e hr tops h :
  inv t G e hr tops → 1 ≤ min_size_of t h ≤ cap_of t h ∧
                      2 * min_size_of t h - 1 ≤ cap_of t h ∧
                      (h ≠ O → 2 ≤ min_size_of t h).
Proof.
  intros Hinv. pose proof (inv_lmax _ _ _ _ _ _ Hinv). pose proof (inv_imax _ _ _ _ _ _ Hinv).
  unfold min_size_of, cap_of. destruct h.
  - assert (1 ≤ leaf_max_size_ t / 2) by (apply Z.div_le_lower_bound; lia).
    assert (2 * (leaf_max_size_ t / 2) ≤ leaf_max_size_ t) by (apply Z.mul_div_le; lia).
    split; [lia|]. split; [lia|done].
  - assert (2 ≤ (internal_max_size_ t + 1) / 2) by (apply Z.div_le_lower_bound; lia).
    assert (2 * ((internal_max_size_ t + 1) / 2) ≤ internal_max_size_ t + 1)
      by (apply Z.mul_div_le; lia).
    split; [lia|]. split; [lia|]. intros _. lia.
Qed.

Lemma borrow_left t G hr k0 root PP X Y gX pgP l1 l2 kX kY :
  inv t G (Under Y) hr [(k0, root)] →
  G !! X = Some gX → g_parent gX = PP → PP ≠ INVALID_PAGE_ID →
  pages_ t !! PP = Some pgP → array_ pgP = l1 ++ (kX, X) :: (kY, Y) :: l2 →
  (∀ pgX, pages_ t !! X = Some pgX → GetMinSize pgX < GetSize pgX) →
  (∀ pgY, pages_ t !! Y = Some pgY → GetSize pgY < GetMinSize pgY) →
  ∃ tF G', TryBorrow t Y (Some X) PP true = Ok (true, tF) ∧
    inv tF G' NoExc hr [(k0, root)] ∧
    (∀ kv, contents tF G' kv ↔ contents t G kv) ∧
    (∀ p, G !! p = None → G' !! p = None) ∧ same_meta t tF.
Proof.
  intros Hinv HGX Hpar Hi HpP Harr HszX HszY.
  destruct (neighbour_facts _ _ _ _ _ _ _ _ _ _ _ _ _ _ _ Hinv HGX Hpar Hi HpP Harr)
    as (gP & gY & pgX & pgY & HgP & HhP & HokP & HGY & HparY & HhY & HpX & HokX & HpY
        & HokY & HXY & HXP & HYP & Hnd & Hch & HhiX & HloY & Hnf & HndX).
  specialize (HszX _ HpX). specialize (HszY _ HpY).
  assert (g_parent gX ≠ INVALID_PAGE_ID) as HiX by by rewrite Hpar.
  assert (g_parent gY ≠ INVALID_PAGE_ID) as HiY by by rewrite HparY.
  destruct (node_sizes _ _ _ _ _ _ HokX HiX) as (HminX & HsX & HleafX).
  destruct (node_sizes _ _ _ _ _ _ HokY HiY) as (HminY & HsY & HleafY).
  rewrite HhY in HminY, HsY, HleafY.
  pose proof (He_Under Y X Y (or_intror eq_refl)) as He.
  destruct (He X) as (HX1 & _ & _).
  assert (slack_lo (Under Y) X = 0) as HX2 by (unfold slack_lo; by rewrite decide_False).
  destruct (He Y) as (HY1 & HY2 & _).
  rewrite HX1, HX2 in HsX. rewrite HY1 in HsY.
  destruct (min_le_cap _ _ _ _ _ (g_h gX) Hinv) as (Hm1 & Hm2 & Hm3).
  assert (array_ pgX ≠ []) as HneX.
  { intros Hnil. unfold GetSize in *. rewrite Hnil in *. simpl in *. lia. }
  destruct (exists_last HneX) as (A & [sep v] & HaX).
  assert (GetSize pgX = Z.of_nat (length A) + 1) as HlenX.
  { unfold GetSize. rewrite HaX, length_app. simpl. lia. }
  pose proof (no_shape _ _ _ _ _ _ HokX) as HshX.
  pose proof (no_shape _ _ _ _ _ _ HokY) as HshY.
  unfold shape in HshX, HshY. rewrite HhY in HshY.
  assert (A ≠ []) as HA.
  { intros ->. simpl in HlenX. lia. }
  pose proof (no_id _ _ _ _ _ _ HokY) as HidY.
  destruct (g_h gX) as [|h'] eqn:Hh.
  - (* leaves *)
    destruct HshX as (_ & _ & _ & _ & HsoX). destruct HshY as (_ & _ & _ & _ & HsoY).
    rewrite HhiX in HsoX. rewrite HloY in HsoY.
    pose proof (sorted_in_app_lt _ _ _ _ _ HsoX HsoY) as Hs. rewrite <- fmap_app in Hs.
    rewrite (TryBorrow_leaf_left t X Y PP pgX pgY pgP A sep v l1 kX kY l2); try done.
    set (tF := write_page _ PP _).
    exists tF.
    destruct (rebalance_spec INTERNAL_PAGE_SIZE t tF G (Under Y) hr k0 root PP X Y gX gY
                pgX pgY pgP l1 l2 kX kY A sep sep v (array_ pgY))
      as (G1 & HinvF & HcF & HdF); try done.
    + rewrite Hh. simpl. by rewrite HaX, <- app_assoc.
    + rewrite Hh. unfold min_size_of_ok. unfold GetSize in *. split; lia.
    + unfold tF. rewrite !lookup_write. rewrite decide_False by done. by rewrite decide_True.
    + unfold tF. rewrite !lookup_write. rewrite !decide_False by done. by rewrite decide_True.
    + unfold tF. rewrite !lookup_write. by rewrite decide_True.
    + rewrite Hh. intros c Hc. by apply elem_of_nil in Hc.
    + rewrite Hh. intros c Hc. by apply elem_of_nil in Hc.
    + intros p ? ? ? _. unfold tF. rewrite !lookup_write. by rewrite !decide_False.
    + exists G1. repeat (split; [done|]).
      unfold tF. eapply same_meta_trans; [|apply same_meta_write].
      eapply same_meta_trans; apply same_meta_write.
  - (* internal pages *)
    destruct HshX as (_ & _ & HchX). destruct HshY as (_ & _ & HchY).
    destruct (array_ pgY) as [|[ky0 c0] restY] eqn:HaY.
    { by simpl in HchY. }
    specialize (Hm3 ltac:(done)).
    assert (∀ c, c ∈ (A ++ [(sep, v)]).*2 ∨ c ∈ ((ky0, c0) :: restY).*2 →
                 c ∈ split_moved (S h') (array_ pgX ++ (ky0, c0) :: restY)) as Hin.
    { intros c Hc. unfold split_moved. rewrite fmap_app, elem_of_app, HaX. done. }
    assert (∀ c, c ∈ A.*2 → c ≠ v) as HAv.
    { intros c Hc ->. specialize (HndX ltac:(done)). rewrite HaX, fmap_app in HndX.
      apply NoDup_app in HndX as (_ & Hd & _). apply (Hd v Hc). left. }
    destruct (Hch v) as (HvX & HvY & HvP & gv & pgv & Hgv & Hpv & Hparv & _ & HvpX & _).
    { apply Hin. left. rewrite fmap_app, elem_of_app. right. left. }
    destruct (TryBorrow_internal_left t X Y PP pgX pgY pgP A sep v ky0 c0 restY l1 kX kY l2)
      as (tF & HTB & Hmeta & Hlook); try done.
    rewrite HTB. exists tF.
    destruct Hmeta as (Hm_root & Hm_lm & Hm_im & Hm_al & Hm_rest).
    destruct (rebalance_spec INTERNAL_PAGE_SIZE t tF G (Under Y) hr k0 root PP X Y gX gY
                pgX pgY pgP l1 l2 kX kY A sep ky0 v ((kY, c0) :: restY))
      as (G1 & HinvF & HcF & HdF); try done.
    + rewrite Hh, HaY. simpl. by rewrite HaX, <- app_assoc.
    + rewrite Hh. unfold min_size_of_ok. unfold GetSize in *. rewrite HaY in *.
      simpl length in *. split; lia.
    + by rewrite Hh.
    + rewrite Hlook. rewrite !decide_False by done. by rewrite decide_True.
    + rewrite Hlook. rewrite !decide_False by done. by rewrite decide_True.
    + rewrite Hlook. by rewrite decide_True.
    + rewrite Hh. intros c Hc. simpl in Hc.
      destruct (Hch c) as (? & ? & ? & gc & pgc & Hgc & Hpc & Hparc & _ & HcX & _).
      { apply Hin. left. rewrite fmap_app, elem_of_app. by left. }
      rewrite Hlook. rewrite !decide_False; try done; [|by apply HAv].
      rewrite Hpc. simpl. rewrite SetParentPageId_same; [done|].
      rewrite Hparc. apply HcX. rewrite HaX, fmap_app, elem_of_app. by left.
    + rewrite Hh. intros c Hc. simpl in Hc. rewrite Hlook.
      apply elem_of_cons in Hc as [->|Hc].
      * rewrite decide_False by done. by rewrite decide_True.
      * destruct (Hch c) as (? & ? & ? & gc & pgc & Hgc & Hpc & Hparc & _ & _ & HcY).
        { apply Hin. by right. }
        assert (c ≠ v) as Hcv.
        { intros ->. rewrite Hgv in Hgc. injection Hgc as <-.
          rewrite HvpX in HcY; [|rewrite HaX, fmap_app, elem_of_app; right; left].
          apply HXY. by apply HcY. }
        rewrite !decide_False by done. rewrite Hpc. simpl.
        rewrite SetParentPageId_same; [done|]. rewrite Hparc. by apply HcY.
    + rewrite Hh. intros p ? ? ? Hp. simpl in Hp. rewrite Hlook.
      rewrite !decide_False; try done. intros ->. apply Hp.
      rewrite fmap_app, elem_of_app. right. left.
    + exists G1. repeat (split; [done|]). done.
Qed.

Lemma borrow_right t G hr k0 root PP X Y gX pgP l1 l2 kX kY :
  inv t G (Under X) hr [(k0, root)] →
  G !! X = Some gX → g_parent gX = PP → PP ≠ INVALID_PAGE_ID →
  pages_ t !! PP = Some pgP → array_ pgP = l1 ++ (kX, X) :: (kY, Y) :: l2 →
  (∀ pgX, pages_ t !! X = Some pgX → GetSize pgX < GetMinSize pgX) →
  (∀ pgY, pages_ t !! Y = Some pgY → GetMinSize pgY < GetSize pgY) →
  ∃ tF G', TryBorrow t X (Some Y) PP false = Ok (true, tF) ∧
    inv tF G' NoExc hr [(k0, root)] ∧
    (∀ kv, contents tF G' kv ↔ contents t G kv) ∧
    (∀ p, G !! p = None → G' !! p = None) ∧ same_meta t tF.
Proof.
  intros Hinv HGX Hpar Hi HpP Harr HszX HszY.
  destruct (neighbour_facts _ _ _ _ _ _ _ _ _ _ _ _ _ _ _ Hinv HGX Hpar Hi HpP Harr)
    as (gP & gY & pgX & pgY & HgP & HhP & HokP & HGY & HparY & HhY & HpX & HokX & HpY
        & HokY & HXY & HXP & HYP & Hnd & Hch & HhiX & HloY & Hnf & HndX).
  specialize (HszX _ HpX). specialize (HszY _ HpY).
  assert (g_parent gX ≠ INVALID_PAGE_ID) as HiX by by rewrite Hpar.
  assert (g_parent gY ≠ INVALID_PAGE_ID) as HiY by by rewrite HparY.
  destruct (node_sizes _ _ _ _ _ _ HokX HiX) as (HminX & HsX & HleafX).
  destruct (node_sizes _ _ _ _ _ _ HokY HiY) as (HminY & HsY & HleafY).
  rewrite HhY in HminY, HsY, HleafY.
  pose proof (He_Under X X Y (or_introl eq_refl)) as He.
  destruct (He Y) as (HY1 & _ & _).
  assert (slack_lo (Under X) Y = 0) as HY2 by (unfold slack_lo; by rewrite decide_False).
  destruct (He X) as (HX1 & HX2 & _).
  rewrite HY1, HY2 in HsY. rewrite HX1 in HsX.
  destruct (min_le_cap _ _ _ _ _ (g_h gX) Hinv) as (Hm1 & Hm2 & Hm3).
  pose proof (no_shape _ _ _ _ _ _ HokX) as HshX.
  pose proof (no_shape _ _ _ _ _ _ HokY) as HshY.
  unfold shape in HshX, HshY. rewrite HhY in HshY.
  pose proof (no_id _ _ _ _ _ _ HokX) as HidX.
  pose proof (inv_all_blt _ _ _ _ _ _ Hinv) as Hblt.
  destruct (array_ pgY) as [|[ky0 c0] [|[k1 c1] rest]] eqn:HaY.
  { unfold GetSize in *. rewrite HaY in *. simpl in *. lia. }
  { unfold GetSize in *. rewrite HaY in *. simpl in *. lia. }
  assert (GetSize pgY = Z.of_nat (length rest) + 2) as HlenY.
  { unfold GetSize. rewrite HaY. simpl. lia. }
  assert (array_ pgX ++ [(ky0, c0)] ≠ []) as HA0.
  { intros H. apply app_eq_nil in H as [_ ?]. done. }
  assert (array_ pgX ++ [(kY, c0)] ≠ []) as HA1.
  { intros H. apply app_eq_nil in H as [_ ?]. done. }
  destruct (g_h gX) as [|h'] eqn:Hh.
  - (* leaves *)
    destruct HshX as (_ & _ & _ & _ & HsoX). destruct HshY as (_ & _ & _ & _ & HsoY).
    rewrite HhiX in HsoX. rewrite HloY in HsoY.
    pose proof (sorted_in_app_lt _ _ _ _ _ HsoX HsoY) as Hs. rewrite <- fmap_app in Hs.
    rewrite (TryBorrow_leaf_right t X Y PP pgX pgY pgP ky0 c0 k1 c1 rest l1 kX kY l2);
      try done.
    2:{ by rewrite HaY. }
    set (tF := write_page _ PP _).
    exists tF.
    destruct (rebalance_spec INTERNAL_PAGE_SIZE t tF G (Under X) hr k0 root PP X Y gX gY
                pgX pgY pgP l1 l2 kX kY (array_ pgX ++ [(ky0, c0)]) k1 k1 c1 rest)
      as (G1 & HinvF & HcF & HdF); try done.
    + rewrite Hh, HaY. simpl. by rewrite <- app_assoc.
    + rewrite Hh. unfold min_size_of_ok. unfold GetSize in *. rewrite length_app.
      simpl length. split; lia.
    + unfold tF. rewrite !lookup_write. rewrite !decide_False by done. by rewrite decide_True.
    + unfold tF. rewrite !lookup_write. rewrite decide_False by done. by rewrite decide_True.
    + unfold tF. rewrite !lookup_write. by rewrite decide_True.
    + rewrite Hh. intros c Hc. by apply elem_of_nil in Hc.
    + rewrite Hh. intros c Hc. by apply elem_of_nil in Hc.
    + intros p ? ? ? _. unfold tF. rewrite !lookup_write. by rewrite !decide_False.
    + exists G1. repeat (split; [done|]).
      unfold tF. eapply same_meta_trans; [|apply same_meta_write].
      eapply same_meta_trans; apply same_meta_write.
  - (* internal pages *)
    destruct HshX as (_ & _ & HchX). destruct HshY as (_ & _ & HchY).
    specialize (Hm3 ltac:(done)).
    pose proof (chain_NoDup _ _ _ _ _ _ _ _ Hblt HchY) as HndY.
    assert (∀ c, c ∈ (array_ pgX).*2 ∨ c ∈ ((ky0, c0) :: (k1, c1) :: rest).*2 →
                 c ∈ split_moved (S h') (array_ pgX ++ (ky0, c0) :: (k1, c1) :: rest))
      as Hin.
    { intros c Hc. unfold split_moved. rewrite fmap_app, elem_of_app. done. }
    destruct (Hch c0) as (Hc0X & Hc0Y & Hc0P & g0 & pg0 & Hg0 & Hp0 & Hpar0 & _ & _ & Hc0pY).
    { apply Hin. right. left. }
    specialize (Hc0pY ltac:(left)).
    destruct (TryBorrow_internal_right t X Y PP pgX pgY pgP ky0 c0 k1 c1 rest l1 kX kY l2)
      as (tF & HTB & Hmeta & Hlook); try done.
    rewrite HTB. exists tF.
    destruct Hmeta as (Hm_root & Hm_lm & Hm_im & Hm_al & Hm_rest).
    destruct (rebalance_spec INTERNAL_PAGE_SIZE t tF G (Under X) hr k0 root PP X Y gX gY
                pgX pgY pgP l1 l2 kX kY (array_ pgX ++ [(kY, c0)]) k1 k1 c1 rest)
      as (G1 & HinvF & HcF & HdF); try done.
    + rewrite Hh, HaY. simpl. by rewrite <- app_assoc.
    + rewrite Hh. unfold min_size_of_ok. unfold GetSize in *. rewrite length_app.
      simpl length. split; lia.
    + rewrite Hlook. rewrite !decide_False by done. by rewrite decide_True.
    + rewrite Hlook. rewrite !decide_False by done. by rewrite decide_True.
    + rewrite Hlook. by rewrite decide_True.
    + rewrite Hh. intros c Hc. simpl in Hc. rewrite Hlook.
      rewrite fmap_app, elem_of_app in Hc. destruct Hc as [Hc|Hc].
      * destruct (Hch c) as (? & ? & ? & gc & pgc & Hgc & Hpc & Hparc & _ & HcX & _).
        { apply Hin. by left. }
        assert (c ≠ c0) as Hcc.
        { intros ->. rewrite Hg0 in Hgc. injection Hgc as <-.
          rewrite Hc0pY in HcX. apply HXY. symmetry. by apply HcX. }
        rewrite !decide_False by done. rewrite Hpc. simpl.
        rewrite SetParentPageId_same; [done|]. rewrite Hparc. by apply HcX.
      * simpl in Hc. apply list_elem_of_singleton in Hc as ->.
        rewrite decide_False by done. by rewrite decide_True.
    + rewrite Hh. intros c Hc. simpl in Hc. rewrite Hlook.
      destruct (Hch c) as (? & ? & ? & gc & pgc & Hgc & Hpc & Hparc & _ & _ & HcY).
      { apply Hin. right. by right. }
      assert (c ≠ c0) as Hcc.
      { intros ->. simpl in HndY. apply NoDup_cons in HndY as [Hn _]. done. }
      rewrite !decide_False by done. rewrite Hpc. simpl.
      rewrite SetParentPageId_same; [done|]. rewrite Hparc. apply HcY. by right.
    + rewrite Hh. intros p ? ? ? Hp. simpl in Hp. rewrite Hlook.
      rewrite !decide_False; try done. intros ->. apply Hp.
      rewrite fmap_app, elem_of_app. left. rewrite fmap_app, elem_of_app. right. left.
    + exists G1. repeat (split; [done|]). done.
Qed.

(** [Merge] of two neighbours that hold one pair less than two minimal
    pages: the parent is left with one pair less. *)
Lemma merge_step t G hr k0 root page PP X Y gX pgP l1 l2 kX kY :
  inv t G (Under page) hr [(k0, root)] → page = X ∨ page = Y →
  G !! X = Some gX → g_parent gX = PP → PP ≠ INVALID_PAGE_ID →
  pages_ t !! PP = Some pgP → array_ pgP = l1 ++ (kX, X) :: (kY, Y) :: l2 →
  (∀ pgX pgY, pages_ t !! X = Some pgX → pages_ t !! Y = Some pgY →
     GetSize pgX + GetSize pgY < 2 * GetMinSize pgX) →
  ∃ tM GM gP pgY, Merge t X Y PP = Ok tM ∧ same_meta t tM ∧
    inv tM GM (Under PP) hr [(k0, root)] ∧
    (∀ kv, contents tM GM kv ↔ contents t G kv) ∧
    (∀ p, G !! p = None → GM !! p = None) ∧ GM !! Y = None ∧
    pages_ tM !! Y = Some pgY ∧ page_id_ pgY = Y ∧
    G !! PP = Some gP ∧ GM !! PP = Some gP ∧ g_h gP = S (g_h gX) ∧
    pages_ tM !! PP = Some (set_array pgP (l1 ++ (kX, X) :: l2)) ∧
    (∀ q gq, G !! q = Some gq → (S (S (g_h gX)) ≤ g_h gq)%nat →
       GM !! q = Some gq ∧ pages_ tM !! q = pages_ t !! q).
Proof.
  intros Hinv Hpage HGX Hpar Hi HpP Harr Hsz.
  destruct (neighbour_facts _ _ _ _ _ _ _ _ _ _ _ _ _ _ _ Hinv HGX Hpar Hi HpP Harr)
    as (gP & gY & pgX & pgY & HgP & HhP & HokP & HGY & HparY & HhY & HpX & HokX & HpY
        & HokY & HXY & HXP & HYP & Hnd & Hch & HhiX & HloY & Hnf & HndX).
  specialize (Hsz _ _ HpX HpY).
  assert (g_parent gX ≠ INVALID_PAGE_ID) as HiX by by rewrite Hpar.
  assert (g_parent gY ≠ INVALID_PAGE_ID) as HiY by by rewrite HparY.
  destruct (node_sizes _ _ _ _ _ _ HokX HiX) as (HminX & HsX & HleafX).
  destruct (node_sizes _ _ _ _ _ _ HokY HiY) as (HminY & HsY & HleafY).
  rewrite HhY in HminY, HsY, HleafY.
  pose proof (He_Under page X Y Hpage) as He.
  destruct (He X) as (HX1 & HX2 & _). destruct (He Y) as (HY1 & HY2 & _).
  assert (slack_lo (Under page) X + slack_lo (Under page) Y ≤ 1) as Hsl.
  { unfold slack_lo. destruct (decide (page = X)), (decide (page = Y)); first [lia|congruence]. }
  rewrite HX1 in HsX. rewrite HY1 in HsY.
  destruct (min_le_cap _ _ _ _ _ (g_h gX) Hinv) as (Hm1 & Hm2 & Hm3).
  pose proof (no_shape _ _ _ _ _ _ HokX) as HshX.
  pose proof (no_shape _ _ _ _ _ _ HokY) as HshY.
  unfold shape in HshX, HshY. rewrite HhY in HshY.
  pose proof (no_id _ _ _ _ _ _ HokX) as HidX.
  pose proof (no_id _ _ _ _ _ _ HokY) as HidY.
  pose proof (inv_all_blt _ _ _ _ _ _ Hinv) as Hblt.
  assert (∃ tM, Merge t X Y PP = Ok tM ∧ same_meta t tM ∧
                premerge t tM G PP X Y gX gY pgX pgY pgP l1 l2 kX kY ∧
                pages_ tM !! Y = Some pgY) as (tM & HM & Hmeta & Hpm & HpY').
  { destruct (g_h gX) as [|h'] eqn:Hh.
    - destruct HshX as (_ & _ & _ & _ & HsoX). destruct HshY as (_ & _ & _ & _ & HsoY).
      rewrite HhiX in HsoX. rewrite HloY in HsoY.
      pose proof (sorted_in_app_lt _ _ _ _ _ HsoX HsoY) as Hs. rewrite <- fmap_app in Hs.
      rewrite (Merge_leaf t X Y PP pgX pgY pgP l1 kX kY l2); try done.
      eexists. split; [done|]. split.
      { eapply same_meta_trans; apply same_meta_write. }
      split.
      + split; try done.
        * rewrite lookup_write. by rewrite decide_True.
        * eexists. rewrite !lookup_write. rewrite decide_False by done.
          rewrite decide_True by done. split; [done|]. rewrite Hh. done.
        * rewrite Hh. intros c Hc. by apply elem_of_nil in Hc.
        * intros p ? ? ? _. rewrite !lookup_write. by rewrite !decide_False.
      + rewrite !lookup_write. by rewrite !decide_False.
    - destruct HshX as (_ & _ & HchX). destruct HshY as (_ & _ & HchY).
      specialize (Hm3 ltac:(done)).
      destruct (array_ pgX) as [|a lX] eqn:HaX; [by simpl in HchX|].
      destruct (array_ pgY) as [|[ky0 c0] restY] eqn:HaY; [by simpl in HchY|].
      destruct a as [ka ca].
      destruct (chain_keys _ _ _ _ _ _ _ _ _ _ Hblt HchX) as (HsX' & HfX & _).
      destruct (chain_keys _ _ _ _ _ _ _ _ _ _ Hblt HchY) as (HsY' & HfY & _).
      rewrite HhiX in HfX. rewrite HloY in HfY.
      assert (StronglySorted Z.lt ((lX ++ (kY, c0) :: restY).*1)) as Hs.
      { rewrite fmap_app. simpl. apply StronglySorted_app. split; [|split; [done|]].
        - intros x1 x2 Hx1 Hx2. rewrite Forall_forall in HfX, HfY.
          destruct (HfX x1 Hx1) as [_ H1]. simpl in H1.
          apply elem_of_cons in Hx2 as [->|Hx2]; [done|].
          destruct (HfY x2 Hx2) as [H2 _]. simpl in H2. lia.
        - constructor; [done|]. rewrite Forall_forall in HfY |- *.
          intros x Hx. by destruct (HfY x Hx) as [H2 _]. }
      assert (∀ c, c ∈ ((ky0, c0) :: restY).*2 →
                   c ∈ split_moved (S h') (((ka, ca) :: lX) ++ (ky0, c0) :: restY)) as Hin.
      { intros c Hc. unfold split_moved. rewrite fmap_app, elem_of_app. by right. }
      destruct (Merge_internal t X Y PP pgX pgY pgP (ka, ca) lX ky0 c0 restY l1 kX kY l2)
        as (tM & HM & Hmeta & Hlook); try done.
      { rewrite HaY. intros c Hc.
        destruct (Hch c (Hin c Hc)) as (? & ? & ? & gc & pgc & _ & Hpc & _).
        rewrite Hpc. by repeat split. }
      rewrite HaY in Hlook.
      exists tM. split; [done|]. split; [done|].
      destruct Hmeta as (Hm_root & Hm_lm & Hm_im & Hm_al & Hm_rest).
      split.
      + split; try done.
        * rewrite Hlook. by rewrite decide_True.
        * eexists. rewrite Hlook. rewrite decide_False by done.
          rewrite decide_False.
          2:{ intros Hc. by destruct (Hch X (Hin X Hc)) as (? & _). }
          rewrite decide_True by done. split; [done|]. rewrite Hh. simpl.
          rewrite HaY. done.
        * rewrite Hh, HaY. intros c Hc. simpl in Hc. rewrite Hlook.
          destruct (Hch c (Hin c Hc)) as (_ & _ & ? & _).
          rewrite decide_False by done. by rewrite decide_True.
        * rewrite Hh, HaY. intros p ? ? ? Hp. simpl in Hp. rewrite Hlook.
          by rewrite !decide_False.
        * lia.
      + rewrite Hlook. rewrite decide_False by done.
        rewrite decide_False.
        2:{ intros Hc. by destruct (Hch Y (Hin Y Hc)) as (_ & ? & _). }
        by rewrite decide_False. }
  destruct Hmeta as (Hm_root & Hm_lm & Hm_im & Hm_al & Hm_rest).
  pose proof (merge_inv _ _ _ _ _ _ _ _ _ _ _ _ _ _ _ _ _ _ _ _ Hinv Hpm He) as HinvM.
  pose proof (merge_contents _ _ _ _ _ _ _ _ _ _ _ _ _ _ _ _ _ _ _ _ Hinv Hpm He) as HcM.
  destruct (merge_slack _ _ _ _ _ _ _ _ _ _ _ _ _ _ _ _ _ _ _ _ Hinv Hpm He)
    as (HsMX1 & HsMX2 & HsMP1 & HsMP2 & HsMo).
  destruct (merge_node_X _ _ _ _ _ _ _ _ _ _ _ _ _ _ _ _ _ _ _ _ Hinv Hpm He)
    as (pgM & HpM & HaM & HokM).
  set (GM := merge_ghost G X Y gX gY (array_ pgY)) in *.
  exists tM, GM, gP, pgY. repeat (split; [done|]).
  split.
  { apply (inv_exc_change _ _ _ _ _ _ _ HinvM).
    intros p g pg Hg Hpg Hok. pose proof (no_size _ _ _ _ _ _ Hok) as Hs.
    destruct (decide (p = X)) as [->|HpXn].
    - rewrite HpM in Hpg. injection Hpg as <-.
      unfold GM in Hg. rewrite merge_lookup, decide_False, decide_True in Hg by done.
      injection Hg as <-. unfold size_ok, is_root. simpl.
      rewrite (proj2 (Z.eqb_neq _ _) HiX).
      unfold slack_lo, slack_hi. rewrite decide_False by done.
      unfold GetSize in *. rewrite HaM, length_app, merged_tail_length.
      unfold min_size_of, cap_of in *. rewrite Hm_lm, Hm_im.
      destruct (g_h gX); lia.
    - unfold size_ok in *. destruct (decide (p = PP)) as [->|HpPn].
      + rewrite HsMP1, HsMP2 in Hs. unfold slack_lo, slack_hi.
        by rewrite decide_True.
      + destruct (HsMo p HpXn HpPn) as [Hs1 Hs2]. rewrite Hs1, Hs2 in Hs.
        unfold slack_lo, slack_hi. by rewrite decide_False. }
  split; [done|]. split.
  { intros p Hn. unfold GM. rewrite merge_lookup.
    destruct (decide (p = Y)); [done|]. destruct (decide (p = X)) as [->|]; [congruence|].
    destruct (decide _); by rewrite Hn. }
  split. { unfold GM. rewrite merge_lookup. by rewrite decide_True. }
  repeat (split; [done|]).
  assert (∀ q gq, G !! q = Some gq → (S (g_h gX) ≤ g_h gq)%nat →
                  q ≠ X ∧ q ≠ Y ∧ q ∉ split_moved (g_h gX) (array_ pgY)) as Hhigh.
  { intros q gq Hgq Hle. split; [|split].
    - intros ->. rewrite HGX in Hgq. injection Hgq as <-. lia.
    - intros ->. rewrite HGY in Hgq. injection Hgq as <-. lia.
    - intros Hm.
      destruct (merge_moved_in _ _ _ _ _ _ _ _ _ _ _ _ _ _ _ _ _ _ _ _ Hinv Hpm He q Hm)
        as (h' & gc & Hh & _ & Hgc & _ & Hhc & _).
      rewrite Hgq in Hgc. injection Hgc as <-. lia. }
  split; [|split; [|split]].
  - destruct (Hhigh PP gP HgP) as (? & ? & ?); [lia|].
    unfold GM. by rewrite merge_lookup_other.
  - done.
  - apply (pm_PP _ _ _ _ _ _ _ _ _ _ _ _ _ _ _ Hpm).
  - intros q gq Hgq Hle. destruct (Hhigh q gq Hgq) as (? & ? & ?); [lia|]. split.
    + unfold GM. by rewrite merge_lookup_other.
    + apply (pm_other _ _ _ _ _ _ _ _ _ _ _ _ _ _ _ Hpm); try done.
      intros ->. rewrite HgP in Hgq. injection Hgq as <-. lia.
Qed.

End Borrow.
(** **** The root with one child, the pages to delete, and [HandleUnderFlow] *)

Lemma update_record_fields t x :
  pages_ (update_record t x) = pages_ t ∧
  root_page_id_ (update_record t x) = root_page_id_ t ∧
  leaf_max_size_ (update_record t x) = leaf_max_size_ t ∧
  internal_max_size_ (update_record t x) = internal_max_size_ t ∧
  alloc_ (update_record t x) = alloc_ t ∧
  page_set_ (update_record t x) = page_set_ t ∧
  deleted_page_set_ (update_record t x) = deleted_page_set_ t.
Proof. unfold update_record. destruct (x =? 0), (header_ t); done. Qed.

Lemma foldl_DeletePage l :
  ∀ t, (∀ p, pages_ (foldl DeletePage t l) !! p =
             if decide (p ∈ l) then None else pages_ t !! p) ∧
       root_page_id_ (foldl DeletePage t l) = root_page_id_ t ∧
       leaf_max_size_ (foldl DeletePage t l) = leaf_max_size_ t ∧
       internal_max_size_ (foldl DeletePage t l) = internal_max_size_ t ∧
       alloc_ (foldl DeletePage t l) = alloc_ t ∧
       page_set_ (foldl DeletePage t l) = page_set_ t.
Proof.
  induction l as [|q l IH]; intros t; simpl.
  - split; [|done]. intros p. by destruct (decide (p ∈ [])) as [?%elem_of_nil|].
  - rewrite DeletePage_ok.
    destruct (IH (set_pages t (delete q (pages_ t)))) as (Hl & ? & ? & ? & ? & ?). split; [|done].
    intros p. rewrite Hl. simpl.
    destruct (decide (p ∈ l)) as [Hin|Hin].
    + rewrite decide_True; [done|by right].
    + destruct (decide (p = q)) as [->|Hne].
      * rewrite lookup_delete_eq. rewrite decide_True; [done|left].
      * rewrite lookup_delete_ne by done. rewrite decide_False; [done|].
        intros [?|?]%elem_of_cons; done.
Qed.

Lemma snoc_or_nil {A} (l : list A) : l = [] ∨ ∃ l' a, l = l' ++ [a].
Proof.
  destruct l as [|x l]; [by left|]. right.
  destruct (exists_last (l := x :: l)) as (l' & a & ->); [done|]. by exists l', a.
Qed.

Lemma GetSiblings_spec pg pgP (l1 l2 : list (Z * Z)) k p :
  IsRootPage pg = false → page_id_ pg = p →
  array_ pgP = l1 ++ (k, p) :: l2 → NoDup ((array_ pgP).*2) →
  GetSiblings pg pgP =
    Ok (match reverse l1 with [] => INVALID_PAGE_ID | (_, L) :: _ => L end,
        match l2 with [] => INVALID_PAGE_ID | (_, R) :: _ => R end).
Proof.
  intros Hroot Hid Harr Hnd. unfold GetSiblings. rewrite Hroot.
  unfold GetPageId. rewrite Hid, (FindIndex_middle pgP l1 l2 k p Harr Hnd).
  rewrite (proj2 (Z.eqb_neq _ _)) by lia. f_equal. f_equal.
  - destruct (snoc_or_nil l1) as [->|(l1' & [kL L] & ->)].
    + done.
    + rewrite reverse_app. simpl. rewrite length_app. simpl length.
      rewrite (proj2 (Z.eqb_neq _ _)) by lia.
      replace (Z.of_nat (length l1' + 1) - 1) with (Z.of_nat (length l1')) by lia.
      rewrite <- app_assoc in Harr. simpl in Harr.
      by rewrite (ValueAt_middle pgP l1' _ kL L Harr).
  - unfold GetSize. rewrite Harr, length_app. simpl length.
    destruct l2 as [|[kR R] l2'].
    + simpl. rewrite (proj2 (Z.eqb_eq _ _)) by lia. done.
    + simpl length. rewrite (proj2 (Z.eqb_neq _ _)) by lia.
      assert (Harr' : array_ pgP = (l1 ++ [(k, p)]) ++ (kR, R) :: l2')
        by by rewrite <- app_assoc.
      replace (Z.of_nat (length l1) + 1) with (Z.of_nat (length (l1 ++ [(k, p)])))
        by (rewrite length_app; simpl; lia).
      by rewrite (ValueAt_middle pgP _ _ kR R Harr').
Qed.

Section Underflow.

Variable INTERNAL_PAGE_SIZE : Z.
Local Notation inv := (inv INTERNAL_PAGE_SIZE).

(** The root is an internal page with one child: the child becomes the
    root. *)
Lemma root_collapse t t' G hr k0 r g pg k c :
  inv t G (Under r) hr [(k0, r)] → G !! r = Some g → pages_ t !! r = Some pg →
  array_ pg = [(k, c)] → g_h g ≠ O →
  leaf_max_size_ t' = leaf_max_size_ t → internal_max_size_ t' = internal_max_size_ t →
  alloc_ t' = alloc_ t →
  (∀ p, p ≠ c → pages_ t' !! p = pages_ t !! p) →
  pages_ t' !! c = (λ pgc, SetParentPageId pgc INVALID_PAGE_ID) <$> pages_ t !! c →
  ∃ G' hr', inv t' G' NoExc hr' [(0, c)] ∧
    (∀ kv, contents t' G' kv ↔ contents t G kv) ∧
    (∀ p, G !! p = None → G' !! p = None) ∧ G' !! r = None.
Proof.
  intros Hinv Hg Hpg Harr Hh Hlm Him Hal Hother Hc.
  destruct (inv_root _ _ _ _ _ _ _ Hinv) as (g0 & Hg0 & Hpar & Hhr & Hlo & Hhi & Hnx).
  rewrite Hg in Hg0. injection Hg0 as <-.
  destruct (inv_page _ _ _ _ _ _ _ _ Hinv Hg) as (pg0 & Hpg0 & _ & Hok).
  rewrite Hpg in Hpg0. injection Hpg0 as <-.
  destruct (g_h g) as [|h'] eqn:Hhg; [done|].
  pose proof (no_shape _ _ _ _ _ _ Hok) as Hsh. unfold shape in Hsh. rewrite Hhg in Hsh.
  destruct Hsh as (_ & _ & Hch). rewrite Harr in Hch. apply chain_one in Hch.
  destruct Hch as (gc & Hgc & Hparc & Hhc & Hloc & Hhic & Hfc & Hnc).
  rewrite Hlo in Hloc. rewrite Hhi in Hhic. rewrite Hnx in Hnc.
  destruct (inv_page _ _ _ _ _ _ _ _ Hinv Hgc) as (pgc & Hpgc & _ & Hokc).
  rewrite Hpgc in Hc. simpl in Hc.
  assert (c ≠ r) as Hcr.
  { intros ->. rewrite Hg in Hgc. injection Hgc as <-. lia. }
  pose proof (no_alloc _ _ _ _ _ _ Hok) as Hrpos.
  pose proof (no_alloc _ _ _ _ _ _ Hokc) as Hcpos.
  set (G' := <[c := reparent INVALID_PAGE_ID gc]> (delete r G)).
  assert (HG'c : G' !! c = Some (reparent INVALID_PAGE_ID gc)).
  { unfold G'. by rewrite lookup_insert_eq. }
  assert (HG'r : G' !! r = None).
  { unfold G'. rewrite lookup_insert_ne by done. by rewrite lookup_delete_eq. }
  assert (HG'o : ∀ p, p ≠ c → p ≠ r → G' !! p = G !! p).
  { intros p ? ?. unfold G'. rewrite lookup_insert_ne by done. by rewrite lookup_delete_ne. }
  assert (Honly : ∀ p gp, G !! p = Some gp → g_parent gp = r → p = c).
  { intros p gp Hgp Hp.
    assert (g_parent gp ≠ INVALID_PAGE_ID) as Hi by (unfold INVALID_PAGE_ID; lia).
    destruct (inv_up _ _ _ _ _ _ Hinv p gp Hgp Hi) as (gP & pgP & kq & HgP & _ & HpP & Hin).
    rewrite Hp in HpP. rewrite Hpg in HpP. injection HpP as <-. rewrite Harr in Hin.
    apply list_elem_of_singleton in Hin. by injection Hin as _ ->. }
  assert (Hlow : ∀ p gp, G !! p = Some gp → p ≠ r → (g_h gp ≤ h')%nat).
  { intros p gp Hgp Hne.
    assert (g_parent gp ≠ INVALID_PAGE_ID) as Hi.
    { intros Hi. pose proof (inv_top _ _ _ _ _ _ Hinv p gp Hgp Hi) as Hin.
      simpl in Hin. by apply list_elem_of_singleton in Hin. }
    destruct (inv_up _ _ _ _ _ _ Hinv p gp Hgp Hi) as (gP & pgP & kq & HgP & HhP & _).
    pose proof (inv_height _ _ _ _ _ _ Hinv _ _ HgP). lia. }
  exists G', h'. split; [|split; [|split]]; [| | |done].
  - apply (inv_update INTERNAL_PAGE_SIZE t G (Under r) hr [(k0, r)] t' G' NoExc h'
             [(0, c)] [r; c]); try done.
    + lia.
    + pose proof (inv_fuel _ _ _ _ _ _ Hinv). lia.
    + intros p g' Hg' Hd. rewrite !not_elem_of_cons in Hd. destruct Hd as (? & ? & _).
      rewrite HG'o in Hg' by done. split; [done|]. by apply Hother.
    + intros p g' Hg' Hd. rewrite !not_elem_of_cons in Hd. destruct Hd as (? & ? & _).
      by rewrite HG'o.
    + intros q gq Hgq Hne.
      destruct (decide (q = r)) as [->|Hqr].
      { right. rewrite Hg in Hgq. by injection Hgq as <-. }
      destruct (decide (q = c)) as [->|Hqc].
      { left. rewrite Hgc in Hgq. injection Hgq as <-. rewrite Hparc. left. }
      exfalso. apply Hne. by rewrite HG'o.
    + intros p g' Hg' Hd. rewrite !elem_of_cons in Hd.
      destruct Hd as [->|[->|Hd]]; [congruence| |by apply elem_of_nil in Hd].
      rewrite HG'c in Hg'. injection Hg' as <-.
      exists (SetParentPageId pgc INVALID_PAGE_ID). split; [done|].
      destruct Hokc. split; simpl; try done.
      * lia.
      * pose proof (inv_lmax _ _ _ _ _ _ Hinv). pose proof (inv_imax _ _ _ _ _ _ Hinv).
        unfold size_ok, is_root in *. simpl. rewrite Hlm, Him.
        unfold slack_lo, slack_hi in *. rewrite decide_False in no_size0 by done.
        unfold GetSize in *. simpl.
        assert (1 ≤ leaf_max_size_ t / 2) by (apply Z.div_le_lower_bound; lia).
        assert (2 ≤ (internal_max_size_ t + 1) / 2) by (apply Z.div_le_lower_bound; lia).
        destruct (g_h gc); destruct (g_parent gc =? INVALID_PAGE_ID); simpl; lia.
      * unfold shape in *. simpl. rewrite Hlm, Him. destruct (g_h gc) as [|h''] eqn:Hh''.
        { done. }
        destruct no_shape0 as (? & ? & Hchc). repeat split; try done.
        eapply chain_frame; [done|]. intros d Hd.
        destruct (chain_children _ _ _ _ _ _ _ _ _ Hchc Hd) as (gd & Hgd & Hpd & Hhd).
        apply HG'o.
        -- intros ->. rewrite Hgc in Hgd. injection Hgd as <-. lia.
        -- intros ->. rewrite Hg in Hgd. injection Hgd as <-. lia.
    + intros p g' Hg' Hd. unfold up_ok.
      destruct (decide (p = c)) as [->|Hpc].
      { rewrite HG'c in Hg'. injection Hg' as <-. simpl. split; [intros _; left|done]. }
      destruct (decide (p = r)) as [->|Hpr]; [congruence|].
      rewrite HG'o in Hg' by done.
      destruct Hd as [Hd|Hd]; rewrite !elem_of_cons in Hd.
      { destruct Hd as [?|[?|Hd]]; [done|done|by apply elem_of_nil in Hd]. }
      destruct Hd as [Hd|[Hd|Hd]]; [|  |by apply elem_of_nil in Hd].
      { by pose proof (Honly p g' Hg' Hd). }
      split; [intros Hi; rewrite Hi in Hd; unfold INVALID_PAGE_ID in Hd; lia|].
      intros Hi.
      destruct (inv_up _ _ _ _ _ _ Hinv p g' Hg' Hi) as (gP & pgP & kq & HgP & HhP & HpP & Hin).
      rewrite Hd in *. rewrite Hgc in HgP. injection HgP as <-.
      rewrite Hpgc in HpP. injection HpP as <-.
      exists (reparent INVALID_PAGE_ID gc), (SetParentPageId pgc INVALID_PAGE_ID), kq.
      done.
    + intros p Hp Hd. simpl in Hp. apply list_elem_of_singleton in Hp as ->.
      exfalso. apply Hd. left.
    + exists (g_first gc). apply chain_one. exists (reparent INVALID_PAGE_ID gc).
      done.
    + intros p g' Hg'. destruct (decide (p = c)) as [->|Hpc].
      { rewrite HG'c in Hg'. injection Hg' as <-. simpl. lia. }
      destruct (decide (p = r)) as [->|Hpr]; [congruence|].
      rewrite HG'o in Hg' by done. by apply (Hlow p).
    + intros p Hd. rewrite !not_elem_of_cons in Hd. destruct Hd as (? & _).
      unfold slack_lo, slack_hi. by rewrite decide_False.
  - apply contents_same.
    + intros p. split.
      * intros (gp & Hgp & Hh0). destruct (decide (p = c)) as [->|Hpc].
        { exists (reparent INVALID_PAGE_ID gc). rewrite Hgc in Hgp. by injection Hgp as <-. }
        exists gp. rewrite HG'o; [done|done|]. intros ->. rewrite Hg in Hgp.
        injection Hgp as <-. lia.
      * intros (gp & Hgp & Hh0). destruct (decide (p = c)) as [->|Hpc].
        { exists gc. rewrite HG'c in Hgp. by injection Hgp as <-. }
        destruct (decide (p = r)) as [->|Hpr]; [congruence|].
        exists gp. by rewrite HG'o in Hgp.
    + intros p gp Hgp Hh0. destruct (decide (p = c)) as [->|Hpc].
      * rewrite Hc, Hpgc. done.
      * by rewrite Hother.
  - intros p Hn. destruct (decide (p = c)) as [->|Hpc]; [congruence|].
    destruct (decide (p = r)) as [->|Hpr]; [done|]. by rewrite HG'o.
Qed.

(** What [HandleUnderFlow] leaves: a tree in shape with the same pairs,
    and pages to delete that are not part of it. *)
Definition uf_post (t : BPlusTree) (G : gmap Z ginfo) (t' : BPlusTree) : Prop :=
  ∃ G' hr', inv t' G' NoExc hr' [(0, root_page_id_ t')] ∧
    (∀ kv, contents t' G' kv ↔ contents t G kv) ∧
    page_set_ t' = page_set_ t ∧
    (∀ p, p ∈ deleted_page_set_ t' → G' !! p = None) ∧
    leaf_max_size_ t' = leaf_max_size_ t ∧
    internal_max_size_ t' = internal_max_size_ t ∧ alloc_ t' = alloc_ t.

Lemma borrow_post t tF G G' hr k0 :
  inv tF G' NoExc hr [(k0, root_page_id_ t)] →
  (∀ kv, contents tF G' kv ↔ contents t G kv) →
  (∀ p, G !! p = None → G' !! p = None) → same_meta t tF →
  (∀ p, p ∈ deleted_page_set_ t → G !! p = None) →
  uf_post t G tF.
Proof.
  intros Hinv Hc Hd (Hroot & Hlm & Him & Hal & _ & Hps & Hdel) Hdel0.
  exists G', hr. rewrite Hroot. split; [by apply (inv_tops_key _ _ _ _ _ k0)|].
  repeat (split; [done|]). split; [|done].
  intros p Hp. rewrite Hdel in Hp. by apply Hd, Hdel0.
Qed.

(** A page below the root and its neighbours. *)
Lemma underflow_setup t G hr k0 page g pg :
  inv t G (Under page) hr [(k0, root_page_id_ t)] →
  G !! page = Some g → pages_ t !! page = Some pg →
  g_parent g ≠ INVALID_PAGE_ID →
  ∃ gP pgP l1 k l2,
    G !! g_parent g = Some gP ∧ g_h gP = S (g_h g) ∧
    pages_ t !! g_parent g = Some pgP ∧ array_ pgP = l1 ++ (k, page) :: l2 ∧
    NoDup ((array_ pgP).*2) ∧ GetParentPageId pg = g_parent g ∧
    IsRootPage pg = false ∧ page_id_ pg = page ∧ 2 ≤ GetSize pgP ∧
    GetMinSize pgP = min_size_of t (S (g_h g)) ∧
    (∀ s, s ∈ (array_ pgP).*2 →
       s ≠ INVALID_PAGE_ID ∧
       ∃ gs pgs, G !! s = Some gs ∧ g_parent gs = g_parent g ∧ g_h gs = g_h g ∧
                 pages_ t !! s = Some pgs ∧ GetMinSize pgs = min_size_of t (g_h g) ∧
                 (s ≠ page → min_size_of t (g_h g) ≤ GetSize pgs)).
Proof.
  intros Hinv Hg Hpg Hi.
  destruct (inv_page _ _ _ _ _ _ _ _ Hinv Hg) as (pg0 & Hpg0 & _ & Hok).
  rewrite Hpg in Hpg0. injection Hpg0 as <-.
  destruct (inv_parent _ _ _ _ _ _ _ _ Hinv Hg Hi)
    as (gP & pgP & l1 & k & l2 & HgP & HhP & HpP & HokP & Harr & Hch).
  pose proof (inv_all_blt _ _ _ _ _ _ Hinv) as Hblt.
  exists gP, pgP, l1, k, l2. repeat (split; [done|]).
  split; [apply (chain_NoDup _ _ _ _ _ _ _ _ Hblt Hch)|].
  split; [apply (no_parent _ _ _ _ _ _ Hok)|].
  split.
  { destruct (IsRootPage pg) eqn:Hr; [|done].
    by apply (node_ok_root _ _ _ _ _ _ Hok) in Hr. }
  split; [apply (no_id _ _ _ _ _ _ Hok)|].
  assert (g_parent g ≠ page) as Hne.
  { intros Heq. rewrite Heq in HgP. rewrite Hg in HgP. injection HgP as <-. lia. }
  pose proof (inv_lmax _ _ _ _ _ _ Hinv). pose proof (inv_imax _ _ _ _ _ _ Hinv).
  assert (2 ≤ (internal_max_size_ t + 1) / 2) by (apply Z.div_le_lower_bound; lia).
  split.
  { pose proof (no_size _ _ _ _ _ _ HokP) as Hs. unfold size_ok in Hs. rewrite HhP in Hs.
    unfold slack_lo in Hs. rewrite decide_False in Hs by done.
    destruct (is_root gP); lia. }
  split.
  { pose proof (no_shape _ _ _ _ _ _ HokP) as Hs. unfold shape in Hs. rewrite HhP in Hs.
    destruct Hs as (Hty & Hmx & _). unfold GetMinSize, IsLeafPage, min_size_of.
    by rewrite Hty, Hmx. }
  intros s Hs. destruct (chain_children _ _ _ _ _ _ _ _ _ Hch Hs) as (gs & Hgs & Hps & Hhs).
  destruct (inv_page _ _ _ _ _ _ _ _ Hinv Hgs) as (pgs & Hpgs & _ & Hoks).
  split.
  { pose proof (no_alloc _ _ _ _ _ _ Hoks). unfold INVALID_PAGE_ID. lia. }
  exists gs, pgs. repeat (split; [done|]).
  assert (g_parent gs ≠ INVALID_PAGE_ID) as His by by rewrite Hps.
  destruct (node_sizes _ _ _ _ _ _ Hoks His) as (Hmin & Hsz & _). rewrite Hhs in *.
  split; [done|]. intros Hsp. unfold slack_lo in Hsz.
  rewrite decide_False in Hsz by done. lia.
Qed.

Lemma try_left t G hr k0 page g pg pgP l1 k l2 :
  inv t G (Under page) hr [(k0, root_page_id_ t)] →
  G !! page = Some g → pages_ t !! page = Some pg →
  g_parent g ≠ INVALID_PAGE_ID →
  pages_ t !! g_parent g = Some pgP → array_ pgP = l1 ++ (k, page) :: l2 →
  GetSize pg < GetMinSize pg →
  (∀ p, p ∈ deleted_page_set_ t → G !! p = None) →
  ∀ left, left = match reverse l1 with [] => None | (_, L) :: _ => Some L end →
  (TryBorrow t page left (g_parent g) true = Ok (false, t) ∧
   ∀ L pgL, left = Some L → pages_ t !! L = Some pgL → GetSize pgL ≤ GetMinSize pgL) ∨
  (∃ tF, TryBorrow t page left (g_parent g) true = Ok (true, tF) ∧ uf_post t G tF).
Proof.
  intros Hinv Hg Hpg Hi HpP Harr Hsz Hdel left Hleft.
  destruct (underflow_setup _ _ _ _ _ _ _ Hinv Hg Hpg Hi)
    as (gP & pgP' & l1' & k' & l2' & HgP & HhP & HpP' & _ & Hnd & _ & _ & _ & _ & _ & Hsib).
  rewrite HpP in HpP'. injection HpP' as <-.
  destruct (snoc_or_nil l1) as [->|(l1a & [kL L] & ->)].
  { simpl in Hleft. subst left. left. split; [done|]. intros ? ? [=]. }
  rewrite reverse_app in Hleft. simpl in Hleft. subst left.
  rewrite <- app_assoc in Harr. simpl in Harr.
  destruct (Hsib L) as (_ & gL & pgL & HgL & HparL & HhL & HpL & HminL & _).
  { rewrite Harr, fmap_app, elem_of_app. right. left. }
  destruct (decide (GetSize pgL ≤ GetMinSize pgL)) as [Hpoor|Hrich].
  - left. split; [by apply (TryBorrow_poor _ _ _ _ _ pgL)|].
    intros L' pgL' [= <-] HpL'. rewrite HpL in HpL'. by injection HpL' as <-.
  - right.
    destruct (borrow_left INTERNAL_PAGE_SIZE t G hr k0 (root_page_id_ t) (g_parent g) L page
                gL pgP l1a l2 kL k Hinv HgL HparL Hi HpP Harr)
      as (tF & G' & HTB & HinvF & HcF & HdF & Hmeta).
    + intros pgX HpX. rewrite HpL in HpX. injection HpX as <-. lia.
    + intros pgY HpY. rewrite Hpg in HpY. by injection HpY as <-.
    + exists tF. split; [done|]. by apply (borrow_post t tF G G' hr k0).
Qed.

Lemma try_right t G hr k0 page g pg pgP l1 k l2 :
  inv t G (Under page) hr [(k0, root_page_id_ t)] →
  G !! page = Some g → pages_ t !! page = Some pg →
  g_parent g ≠ INVALID_PAGE_ID →
  pages_ t !! g_parent g = Some pgP → array_ pgP = l1 ++ (k, page) :: l2 →
  GetSize pg < GetMinSize pg →
  (∀ p, p ∈ deleted_page_set_ t → G !! p = None) →
  ∀ right, right = match l2 with [] => None | (_, R) :: _ => Some R end →
  (TryBorrow t page right (g_parent g) false = Ok (false, t) ∧
   ∀ R pgR, right = Some R → pages_ t !! R = Some pgR → GetSize pgR ≤ GetMinSize pgR) ∨
  (∃ tF, TryBorrow t page right (g_parent g) false = Ok (true, tF) ∧ uf_post t G tF).
Proof.
  intros Hinv Hg Hpg Hi HpP Harr Hsz Hdel right Hright.
  destruct (underflow_setup _ _ _ _ _ _ _ Hinv Hg Hpg Hi)
    as (gP & pgP' & l1' & k' & l2' & HgP & HhP & HpP' & _ & Hnd & _ & _ & _ & _ & _ & Hsib).
  rewrite HpP in HpP'. injection HpP' as <-.
  destruct l2 as [|[kR R] l2a]; subst right.
  { left. split; [done|]. intros ? ? [=]. }
  destruct (Hsib R) as (_ & gR & pgR & HgR & HparR & HhR & HpR & HminR & _).
  { rewrite Harr, fmap_app, elem_of_app. right. right. left. }
  destruct (decide (GetSize pgR ≤ GetMinSize pgR)) as [Hpoor|Hrich].
  - left. split; [by apply (TryBorrow_poor _ _ _ _ _ pgR)|].
    intros R' pgR' [= <-] HpR'. rewrite HpR in HpR'. by injection HpR' as <-.
  - right.
    destruct (borrow_right INTERNAL_PAGE_SIZE t G hr k0 (root_page_id_ t) (g_parent g) page R
                g pgP l1 l2a k kR Hinv Hg eq_refl Hi HpP Harr)
      as (tF & G' & HTB & HinvF & HcF & HdF & Hmeta).
    + intros pgX HpX. rewrite Hpg in HpX. by injection HpX as <-.
    + intros pgY HpY. rewrite HpR in HpY. injection HpY as <-. lia.
    + exists tF. split; [done|]. by apply (borrow_post t tF G G' hr k0).
Qed.

Definition uf_spec (n : nat) : Prop :=
  ∀ t G hr k0 page g pg,
    inv t G (Under page) hr [(k0, root_page_id_ t)] →
    G !! page = Some g → pages_ t !! page = Some pg →
    (g_h g = O → g_parent g ≠ INVALID_PAGE_ID) →
    (g_parent g ≠ INVALID_PAGE_ID → GetSize pg < GetMinSize pg) →
    (hr - g_h g < n)%nat →
    (g_parent g ≠ INVALID_PAGE_ID → cl t G REMOVE (S (g_h g)) (g_parent g)) →
    (∀ p, p ∈ deleted_page_set_ t → G !! p = None) →
    ∃ t', HandleUnderFlow n t page = Ok t' ∧ uf_post t G t'.

Lemma uf_post_trans t1 G1 t2 G2 t3 :
  (∀ kv, contents t2 G2 kv ↔ contents t1 G1 kv) →
  page_set_ t2 = page_set_ t1 →
  leaf_max_size_ t2 = leaf_max_size_ t1 →
  internal_max_size_ t2 = internal_max_size_ t1 → alloc_ t2 = alloc_ t1 →
  uf_post t2 G2 t3 → uf_post t1 G1 t3.
Proof.
  intros Hc Hps Hlm Him Hal (G' & hr' & Hinv & Hc' & Hps' & Hd & Hlm' & Him' & Hal').
  exists G', hr'. split; [done|]. split.
  { intros kv. by rewrite Hc', Hc. }
  repeat split; try done; congruence.
Qed.

Lemma merge_case n t G hr k0 page PP X Y gX pgP l1 l2 kX kY :
  uf_spec n →
  inv t G (Under page) hr [(k0, root_page_id_ t)] → page = X ∨ page = Y →
  G !! X = Some gX → g_parent gX = PP → PP ≠ INVALID_PAGE_ID →
  pages_ t !! PP = Some pgP → array_ pgP = l1 ++ (kX, X) :: (kY, Y) :: l2 →
  (∀ pgX pgY, pages_ t !! X = Some pgX → pages_ t !! Y = Some pgY →
     GetSize pgX + GetSize pgY < 2 * GetMinSize pgX) →
  (hr - g_h gX < S n)%nat →
  cl t G REMOVE (S (g_h gX)) PP →
  (∀ p, p ∈ deleted_page_set_ t → G !! p = None) →
  ∃ t', (let* t3 := Merge t X Y PP in
         let* right_node := deref t3 Y in
         let t4 := AddIntoDeletedPageSet t3 (GetPageId right_node) in
         let* parent_now := deref t4 PP in
         if GetSize parent_now <? GetMinSize parent_now
         then HandleUnderFlow n t4 PP
         else Ok t4) = Ok t' ∧ uf_post t G t'.
Proof.
  intros IH Hinv Hpage HGX Hpar Hi HpP Harr Hsz Hfuel Hcl Hdel.
  destruct (merge_step INTERNAL_PAGE_SIZE t G hr k0 (root_page_id_ t) page PP X Y gX pgP
              l1 l2 kX kY Hinv Hpage HGX Hpar Hi HpP Harr Hsz)
    as (tM & GM & gP & pgY & HM & Hmeta & HinvM & HcM & HdM & HGMY & HpY' & HidY & HgP
        & HGMP & HhP & HpPM & Hframe).
  destruct Hmeta as (Hm_root & Hm_lm & Hm_im & Hm_al & _ & Hm_ps & Hm_del).
  rewrite HM. cbn [bind]. rewrite ?(FetchPage_ok _ _ _ HpY'), ?(deref_ok _ _ _ HpY'). cbn [bind].
  unfold GetPageId. rewrite HidY.
  set (t4 := AddIntoDeletedPageSet tM Y).
  set (pgP' := set_array pgP (l1 ++ (kX, X) :: l2)) in *.
  assert (Hp4 : pages_ t4 = pages_ tM) by done.
  rewrite ?(FetchPage_ok t4 PP pgP'), ?(deref_ok t4 PP pgP') by by rewrite Hp4.
  cbn [bind].
  assert (Hinv4 : inv t4 GM (Under PP) hr [(k0, root_page_id_ t4)]).
  { apply (inv_ext _ tM); try done. simpl. by rewrite Hm_root. }
  assert (Hdel4 : ∀ p, p ∈ deleted_page_set_ t4 → GM !! p = None).
  { intros p Hp. simpl in Hp. rewrite Hm_del, elem_of_app in Hp. destruct Hp as [Hp|Hp].
    - by apply HdM, Hdel.
    - by apply list_elem_of_singleton in Hp as ->. }
  assert (Hc4 : ∀ kv, contents t4 GM kv ↔ contents t G kv).
  { intros kv. rewrite <- HcM. apply contents_agree. intros p _. by rewrite Hp4. }
  destruct (inv_page _ _ _ _ _ _ _ _ Hinv4 HGMP) as (pg0 & Hpg0 & _ & HokP').
  rewrite Hp4, HpPM in Hpg0. injection Hpg0 as <-.
  pose proof (no_shape _ _ _ _ _ _ HokP') as HshP. unfold shape in HshP. rewrite HhP in HshP.
  destruct HshP as (HtyP & HmxP & _).
  assert (HminP : GetMinSize pgP' = (internal_max_size_ t4 + 1) / 2).
  { unfold GetMinSize, IsLeafPage. by rewrite HtyP, HmxP. }
  destruct (GetSize pgP' <? GetMinSize pgP') eqn:Hlt.
  - apply Z.ltb_lt in Hlt.
    destruct (IH t4 GM hr k0 PP gP pgP') as (t' & HUF & Hpost); try done.
    + by rewrite HhP.
    + pose proof (inv_height _ _ _ _ _ _ Hinv _ _ HgP). lia.
    + intros HiP.
      inversion Hcl as [h0 p0 g0 pg0 Hin Hg0 Hh0 Hpg0 Hrec]; subst.
      rewrite HgP in Hg0. injection Hg0 as <-. rewrite HpP in Hpg0. injection Hpg0 as <-.
      rewrite HhP.
      apply (cl_frame t G REMOVE t4 GM (S (S (g_h gX))) (S (S (g_h gX))) (g_parent gP));
        try done.
      * rewrite <- Hh0 in Hrec. rewrite HhP in Hrec. apply Hrec; [done|].
        unfold IsSafe. apply Z.ltb_ge.
        assert (GetMinSize pgP = GetMinSize pgP') as -> by done.
        change (GetSize pgP') with (Z.of_nat (length (l1 ++ (kX, X) :: l2))) in Hlt.
        unfold GetSize. rewrite Harr.
        rewrite !length_app in *. simpl in *. lia.
    + exists t'. split; [done|].
      apply (uf_post_trans t G t4 GM t'); try done.
  - apply Z.ltb_ge in Hlt. exists t4. split; [done|].
    exists GM, hr. split; [|split; [done|repeat split; try done; simpl; congruence]].
    apply (inv_tops_key _ _ _ _ _ k0).
    apply (inv_exc_change _ _ _ _ _ _ _ Hinv4).
    intros p g' pg' Hg' Hpg' Hok. pose proof (no_size _ _ _ _ _ _ Hok) as Hs.
    unfold size_ok in *. unfold slack_lo, slack_hi in *.
    destruct (decide (PP = p)) as [<-|Hne]; [|done].
    rewrite HGMP in Hg'. injection Hg' as <-.
    rewrite Hp4, HpPM in Hpg'. injection Hpg' as <-. rewrite HhP in *.
    pose proof (inv_imax _ _ _ _ _ _ Hinv4).
    assert (2 ≤ (internal_max_size_ t4 + 1) / 2) by (apply Z.div_le_lower_bound; lia).
    destruct (is_root gP); lia.
Qed.

Lemma HandleUnderFlow_spec : ∀ n, uf_spec n.
Proof.
  induction n as [|n IH]; intros t G hr k0 page g pg Hinv Hg Hpg Hleaf Hsz Hfuel Hcl Hdel;
    [lia|].
  cbn [HandleUnderFlow]. rewrite ?(FetchPage_ok _ _ _ Hpg), ?(deref_ok _ _ _ Hpg). cbn [bind].
  destruct (inv_page _ _ _ _ _ _ _ _ Hinv Hg) as (pg0 & Hpg0 & _ & Hok).
  rewrite Hpg in Hpg0. injection Hpg0 as <-.
  destruct (decide (g_parent g = INVALID_PAGE_ID)) as [Hroot|Hi].
  - (* the root *)
    rewrite (proj2 (node_ok_root _ _ _ _ _ _ Hok) Hroot).
    assert (g_h g ≠ O) as Hh by (intros Hh; by apply Hleaf).
    assert (IsLeafPage pg = false) as ->.
    { destruct (IsLeafPage pg) eqn:Hl; [|done].
      by apply (node_ok_leaf _ _ _ _ _ _ Hok) in Hl. }
    cbn [orb].
    assert (page = root_page_id_ t) as Hpr.
    { pose proof (inv_top _ _ _ _ _ _ Hinv page g Hg Hroot) as Hin. simpl in Hin.
      by apply list_elem_of_singleton in Hin. }
    pose proof (no_size _ _ _ _ _ _ Hok) as Hs. unfold size_ok, is_root in Hs.
    rewrite (proj2 (Z.eqb_eq _ _) Hroot) in Hs.
    unfold slack_lo, slack_hi in Hs. rewrite decide_True in Hs by done.
    destruct (g_h g) as [|h'] eqn:Hhg; [done|].
    destruct (1 <? GetSize pg) eqn:Hs1.
    + apply Z.ltb_lt in Hs1. exists t. split; [done|]. exists G, hr.
      split; [|split; [done|repeat split; try done]].
      * apply (inv_tops_key _ _ _ _ _ k0). apply (inv_exc_change _ _ _ _ _ _ _ Hinv).
        intros p g' pg' Hg' Hpg' Hok'. pose proof (no_size _ _ _ _ _ _ Hok') as Hs'.
        unfold size_ok in *. unfold slack_lo, slack_hi in *.
        destruct (decide (page = p)) as [<-|Hne]; [|done].
        rewrite Hg in Hg'. injection Hg' as <-. rewrite Hpg in Hpg'. injection Hpg' as <-.
        rewrite Hhg. unfold is_root. rewrite (proj2 (Z.eqb_eq _ _) Hroot). lia.
    + apply Z.ltb_ge in Hs1.
      destruct (array_ pg) as [|[k c] [|? ?]] eqn:Harr;
        [unfold GetSize in *; rewrite Harr in *; simpl in *; lia| |
         unfold GetSize in *; rewrite Harr in *; simpl in *; lia].
      pose proof (no_shape _ _ _ _ _ _ Hok) as Hsh. unfold shape in Hsh. rewrite Hhg in Hsh.
      destruct Hsh as (_ & _ & Hch). rewrite Harr in Hch. apply chain_one in Hch.
      destruct Hch as (gc & Hgc & _).
      destruct (inv_page _ _ _ _ _ _ _ _ Hinv Hgc) as (pgc & Hpgc & _ & _).
      rewrite (ValueAt_0 pg k c [] Harr). simpl root_page_id_.
      rewrite ?(FetchPage_ok _ c pgc), ?(deref_ok _ c pgc) by done. cbn [bind].
      rewrite UpdateRootPageId_ok.
      eexists. split; [done|].
      set (t' := update_record _ 0).
      destruct (update_record_fields
                  (write_page (set_root (AddIntoDeletedPageSet t (GetPageId pg)) c) c
                     (SetParentPageId pgc INVALID_PAGE_ID)) 0)
        as (Hf_pages & Hf_root & Hf_lm & Hf_im & Hf_al & Hf_ps & Hf_del).
      fold t' in Hf_pages, Hf_root, Hf_lm, Hf_im, Hf_al, Hf_ps, Hf_del.
      simpl in Hf_pages, Hf_root, Hf_lm, Hf_im, Hf_al, Hf_ps, Hf_del.
      rewrite <- Hpr in Hinv.
      destruct (root_collapse t t' G hr k0 page g pg k c Hinv Hg Hpg Harr)
        as (G' & hr' & HinvF & HcF & HdF & HGr); try done.
      * by rewrite Hhg.
      * intros p Hp. rewrite Hf_pages. by rewrite lookup_insert_ne.
      * rewrite Hf_pages, lookup_insert_eq, Hpgc. done.
      * exists G', hr'. rewrite Hf_root. repeat (split; [done|]).
        split; [|done]. intros p Hp. rewrite Hf_del, elem_of_app in Hp.
        destruct Hp as [Hp|Hp]; [by apply HdF, Hdel|].
        apply list_elem_of_singleton in Hp as ->.
        unfold GetPageId. by rewrite (no_id _ _ _ _ _ _ Hok).
  - (* a page below the root *)
    specialize (Hsz Hi). specialize (Hcl Hi).
    destruct (underflow_setup _ _ _ _ _ _ _ Hinv Hg Hpg Hi)
      as (gP & pgP & l1 & k & l2 & HgP & HhP & HpP & Harr & Hnd & HparId & Hroot & Hid
          & HszP & HminP & Hsib).
    rewrite Hroot, HparId.
    assert (Some (g_parent g) ∈ page_set_ t) as Hin by by inversion Hcl.
    rewrite (GetPageFromTransaction_ok _ _ _ Hin HpP). cbn [bind].
    rewrite (GetSiblings_spec pg pgP l1 l2 k page Hroot Hid Harr Hnd). cbn [bind].
    set (left := match reverse l1 with [] => None | (_, L) :: _ => Some L end).
    set (right := match l2 with [] => None | (_, R) :: _ => Some R end).
    assert (HL : (if match reverse l1 with [] => INVALID_PAGE_ID | (_, L) :: _ => L end
                     =? INVALID_PAGE_ID then Ok None
                  else let* _ := FetchPage t
                         match reverse l1 with [] => INVALID_PAGE_ID | (_, L) :: _ => L end in
                       Ok (Some match reverse l1 with
                                | [] => INVALID_PAGE_ID | (_, L) :: _ => L end))
                 = Ok left).
    { unfold left. destruct (snoc_or_nil l1) as [->|(l1a & [kL L] & ->)]; [done|].
      rewrite reverse_app. simpl.
      destruct (Hsib L) as (HLi & gL & pgL & _ & _ & _ & HpL & _).
      { rewrite Harr, !fmap_app, !elem_of_app. left. right. left. }
      rewrite (proj2 (Z.eqb_neq _ _) HLi), (FetchPage_ok _ _ _ HpL). done. }
    assert (HR : (if match l2 with [] => INVALID_PAGE_ID | (_, R) :: _ => R end
                     =? INVALID_PAGE_ID then Ok None
                  else let* _ := FetchPage t
                         match l2 with [] => INVALID_PAGE_ID | (_, R) :: _ => R end in
                       Ok (Some match l2 with [] => INVALID_PAGE_ID | (_, R) :: _ => R end))
                 = Ok right).
    { unfold right. destruct l2 as [|[kR R] l2a]; [done|].
      destruct (Hsib R) as (HRi & gR & pgR & _ & _ & _ & HpR & _).
      { rewrite Harr, !fmap_app, !elem_of_app. right. right. left. }
      rewrite (proj2 (Z.eqb_neq _ _) HRi), (FetchPage_ok _ _ _ HpR). done. }
    assert (Hnot : (match reverse l1 with [] => INVALID_PAGE_ID | (_, L) :: _ => L end
                      =? INVALID_PAGE_ID) &&
                   (match l2 with [] => INVALID_PAGE_ID | (_, R) :: _ => R end
                      =? INVALID_PAGE_ID) = false).
    { destruct (snoc_or_nil l1) as [->|(l1a & [kL L] & ->)].
      - destruct l2 as [|[kR R] l2a].
        + unfold GetSize in HszP. rewrite Harr in HszP. simpl in HszP. lia.
        + destruct (Hsib R) as (HRi & _).
          { rewrite Harr, !fmap_app, !elem_of_app. right. right. left. }
          simpl. by rewrite (proj2 (Z.eqb_neq _ _) HRi).
      - rewrite reverse_app. simpl.
        destruct (Hsib L) as (HLi & _).
        { rewrite Harr, !fmap_app, !elem_of_app. left. right. left. }
        by rewrite (proj2 (Z.eqb_neq _ _) HLi). }
    rewrite Hnot, HL. cbn [bind]. rewrite HR. cbn [bind].
    destruct (try_left t G hr k0 page g pg pgP l1 k l2 Hinv Hg Hpg Hi HpP Harr Hsz Hdel
                left eq_refl) as [[HTL HpoorL]|(tF & HTL & Hpost)]; rewrite HTL; cbn [bind].
    2:{ by exists tF. }
    destruct (try_right t G hr k0 page g pg pgP l1 k l2 Hinv Hg Hpg Hi HpP Harr Hsz Hdel
                right eq_refl) as [[HTR HpoorR]|(tF & HTR & Hpost)]; rewrite HTR; cbn [bind].
    2:{ by exists tF. }
    assert (Hfuel' : (hr - g_h g < S n)%nat) by done.
    destruct (Hsib page) as (_ & g' & pg' & Hg' & _ & _ & Hpg' & Hminpg & _).
    { rewrite Harr, fmap_app, elem_of_app. right. left. }
    rewrite Hpg in Hpg'. injection Hpg' as <-.
    unfold left, right in *. clear left right.
    destruct (snoc_or_nil l1) as [->|(l1a & [kL L] & ->)].
    + destruct l2 as [|[kR R] l2a]; [simpl in Hnot; done|].
      simpl. cbn [bind].
      destruct (Hsib R) as (_ & gR & pgR & HgR & HparR & HhR & HpR & HminR & _).
      { rewrite Harr, fmap_app, elem_of_app. right. right. left. }
      apply (merge_case n t G hr k0 page (g_parent g) page R g pgP [] l2a k kR); try done.
      * by left.
      * intros pgX pgY HpX HpY. rewrite Hpg in HpX. injection HpX as <-.
        rewrite HpR in HpY. injection HpY as <-.
        specialize (HpoorR R pgR eq_refl HpR). lia.
    + rewrite reverse_app. simpl. cbn [bind].
      destruct (Hsib L) as (_ & gL & pgL & HgL & HparL & HhL & HpL & HminL & _).
      { rewrite Harr, !fmap_app, !elem_of_app. left. right. left. }
      rewrite <- app_assoc in Harr. simpl in Harr.
      rewrite reverse_app in HpoorL. simpl in HpoorL.
      apply (merge_case n t G hr k0 page (g_parent g) L page gL pgP l1a l2 kL k); try done.
      * by right.
      * intros pgX pgY HpX HpY. rewrite HpL in HpX. injection HpX as <-.
        rewrite Hpg in HpY. injection HpY as <-.
        specialize (HpoorL L pgL eq_refl HpL). lia.
      * by rewrite HhL.
      * by rewrite HhL.
Qed.

End Underflow.
(** **** [Remove] *)

Section RemoveProof.

Variable INTERNAL_PAGE_SIZE : Z.
Local Notation inv := (inv INTERNAL_PAGE_SIZE).
Local Notation Inv := (Inv INTERNAL_PAGE_SIZE).

Lemma delete_pages_fields t :
  (∀ p, pages_ (delete_pages t) !! p =
        if decide (p ∈ deleted_page_set_ t) then None else pages_ t !! p) ∧
  root_page_id_ (delete_pages t) = root_page_id_ t ∧
  leaf_max_size_ (delete_pages t) = leaf_max_size_ t ∧
  internal_max_size_ (delete_pages t) = internal_max_size_ t ∧
  alloc_ (delete_pages t) = alloc_ t ∧
  page_set_ (delete_pages t) = page_set_ t ∧
  deleted_page_set_ (delete_pages t) = [].
Proof.
  unfold delete_pages.
  destruct (foldl_DeletePage (deleted_page_set_ t) t) as (? & ? & ? & ? & ? & ?). done.
Qed.

(** A tree of one level without pairs holds nothing. *)
Lemma abs_root_leaf_empty t G e hr k r M g pg :
  inv t G e hr [(k, r)] → abs t G M →
  G !! r = Some g → g_h g = O → pages_ t !! r = Some pg → array_ pg = [] →
  M = ∅.
Proof.
  intros Hinv Habs Hg Hh Hpg Harr.
  destruct (inv_root _ _ _ _ _ _ _ Hinv) as (g0 & Hg0 & _ & Hhr & _).
  rewrite Hg in Hg0. injection Hg0 as <-.
  apply map_eq. intros key. rewrite lookup_empty.
  destruct (M !! key) as [v|] eqn:Hk; [|done].
  apply Habs in Hk as (p & gp & pgp & Hgp & Hhp & Hpgp & Hin).
  assert (p = r) as ->.
  { destruct (decide (g_parent gp = INVALID_PAGE_ID)) as [Hi|Hi].
    - pose proof (inv_top _ _ _ _ _ _ Hinv p gp Hgp Hi) as Hin'. simpl in Hin'.
      by apply list_elem_of_singleton in Hin'.
    - destruct (inv_up _ _ _ _ _ _ Hinv p gp Hgp Hi) as (gP & _ & _ & HgP & HhP & _).
      pose proof (inv_height _ _ _ _ _ _ Hinv _ _ HgP). lia. }
  rewrite Hpg in Hpgp. injection Hpgp as <-. rewrite Harr in Hin. inversion Hin.
Qed.

Lemma Remove_tree_spec t M key :
  Inv t M → root_page_id_ t ≠ INVALID_PAGE_ID →
  ∃ t', Remove t key = Ok t' ∧ Inv t' (delete key M).
Proof.
  intros (Hps & Hdel & Hlm & Him & Hal & Hcase) Hr.
  rewrite decide_False in Hcase by done. destruct Hcase as (G & hr & Hinv & Habs).
  assert (Henter : enter t REMOVE = set_page_set t [None]).
  { unfold enter, AddIntoPageSet. by rewrite Hps. }
  destruct (GetLeafPage_writer INTERNAL_PAGE_SIZE t t G NoExc hr 0 key REMOVE)
    as (leaf & ps & HGLP & Hleaf & Hclosed & Hin); try done.
  set (t2 := set_page_set t ps) in *.
  assert (Hinv2 : inv t2 G NoExc hr [(0, root_page_id_ t2)]) by (by eapply inv_ext).
  assert (Habs2 : abs t2 G M) by exact Habs.
  pose proof Hleaf as (gl & Hgl & Hhl & Ha & Hb).
  destruct (inv_page _ _ _ _ _ _ _ _ Hinv2 Hgl) as (pg & Hpg & Hfetch & Hok).
  pose proof Hok as [Hid Hpar Halp Hblt Hsize Hshape].
  unfold shape in Hshape. rewrite Hhl in Hshape.
  destruct Hshape as (Htype & Hmax & Hnext & Hfirst & Hsorted).
  unfold Remove. rewrite HGLP. cbn [bind]. rewrite (deref_ok _ _ _ Hpg). cbn [bind].
  destruct (Leaf_Remove_spec pg key (proj1 Hsorted))
    as [[Hnin Hrem]|(l1 & v0 & l2 & Harr & Hrem)]; rewrite Hrem.
  - (* the key is not there *)
    cbn [negb]. eexists. split; [done|].
    assert (M !! key = None) as Hnone.
    { destruct (M !! key) as [v|] eqn:Hk; [|done]. exfalso. apply Hnin.
      apply (leaf_key_unique _ _ _ _ _ _ _ _ _ _ _ Hinv2 Habs2 Hleaf Hpg) in Hk.
      apply list_elem_of_fmap. by exists (key, v). }
    rewrite delete_id by done.
    apply (Inv_intro _ _ G hr); try done. by eapply inv_ext.
  - (* the pair is taken out *)
    cbn [negb].
    pose proof (abs_remove _ _ _ _ _ _ _ key _ _ l1 v0 l2 Hinv2 Habs2 Hleaf Hpg Harr) as Habs3.
    set (arr' := l1 ++ l2) in *.
    set (leaf' := set_array pg arr') in *.
    set (t3 := write_page t2 leaf leaf') in *.
    assert (Hlen' : Z.of_nat (length (array_ pg)) = Z.of_nat (length arr') + 1).
    { unfold arr'. rewrite Harr, !length_app. simpl. lia. }
    assert (Hinv3 : inv t3 G (Under leaf) hr [(0, root_page_id_ t2)]).
    { apply (inv_write_leaf _ _ _ NoExc _ _ _ gl); try done.
      - unfold arr'. rewrite fmap_app. apply (sorted_in_remove _ _ _ key).
        rewrite Harr, fmap_app in Hsorted. done.
      - unfold size_ok in *. rewrite Hhl in *. unfold slack_lo, slack_hi in *.
        rewrite decide_True by done. unfold GetSize in *. simpl.
        change (leaf_max_size_ t2) with (leaf_max_size_ t) in *.
        destruct (is_root gl); lia.
      - intros p Hp. simpl. unfold slack_lo. rewrite decide_False by done. done. }
    assert (Hroot' : IsRootPage leaf' = IsRootPage pg) by done.
    assert (Hmin' : GetMinSize leaf' = leaf_max_size_ t / 2).
    { unfold GetMinSize, IsLeafPage. simpl. by rewrite Htype, Hmax. }
    assert (Hsz' : GetSize leaf' = GetSize pg - 1).
    { unfold GetSize. simpl. lia. }
    assert (Hp3 : pages_ t3 !! leaf = Some leaf').
    { unfold t3. simpl. by rewrite lookup_insert_eq. }
    rewrite Hroot'. destruct (IsRootPage pg) eqn:Hisroot.
    + (* the leaf is the root *)
      apply (node_ok_root _ _ _ _ _ _ Hok) in Hisroot.
      assert (leaf = root_page_id_ t) as Hlr.
      { pose proof (inv_top _ _ _ _ _ _ Hinv2 leaf gl Hgl Hisroot) as Hin'. simpl in Hin'.
        by apply list_elem_of_singleton in Hin'. }
      destruct (GetSize leaf' =? 0) eqn:Hz.
      * apply Z.eqb_eq in Hz. eexists. split; [done|].
        assert (delete key M = ∅) as ->.
        { apply (abs_root_leaf_empty t3 G (Under leaf) hr 0 leaf _ gl leaf'); try done.
          - pose proof Hinv3 as Hx. change (root_page_id_ t2) with (root_page_id_ t) in Hx.
            rewrite <- Hlr in Hx. exact Hx.
          - unfold GetSize in Hz. destruct (array_ leaf'); [done|simpl in Hz; lia]. }
        split; [done|]. split; [done|]. split; [done|]. split; [done|]. split; [done|].
        by destruct (decide _).
      * apply Z.eqb_neq in Hz. eexists. split; [done|].
        apply (Inv_intro _ _ G hr); try done.
        eapply (inv_ext _ t3); [|done|done|simpl; lia|done].
        apply (inv_exc_change _ _ _ _ _ _ _ Hinv3).
        intros p g' pg' Hg' Hpg' Hok'. pose proof (no_size _ _ _ _ _ _ Hok') as Hs'.
        unfold size_ok in *. unfold slack_lo, slack_hi in *.
        destruct (decide (leaf = p)) as [<-|Hne]; [|done].
        rewrite Hgl in Hg'. injection Hg' as <-. rewrite Hp3 in Hpg'. injection Hpg' as <-.
        rewrite Hhl in *. unfold is_root in *. rewrite (proj2 (Z.eqb_eq _ _) Hisroot) in *.
        unfold GetSize in *. lia.
    + (* the leaf is below the root *)
      assert (g_parent gl ≠ INVALID_PAGE_ID) as Hi.
      { intros Hi. apply (node_ok_root _ _ _ _ _ _ Hok) in Hi. congruence. }
      rewrite Hmin'.
      destruct (leaf_max_size_ t / 2 <=? GetSize leaf') eqn:Hle.
      * apply Z.leb_le in Hle. eexists. split; [done|].
        apply (Inv_intro _ _ G hr); try done.
        eapply (inv_ext _ t3); [|done|done|simpl; lia|done].
        apply (inv_exc_change _ _ _ _ _ _ _ Hinv3).
        intros p g' pg' Hg' Hpg' Hok'. pose proof (no_size _ _ _ _ _ _ Hok') as Hs'.
        unfold size_ok in *. unfold slack_lo, slack_hi in *.
        destruct (decide (leaf = p)) as [<-|Hne]; [|done].
        rewrite Hgl in Hg'. injection Hg' as <-. rewrite Hp3 in Hpg'. injection Hpg' as <-.
        rewrite Hhl in *. unfold is_root in *. rewrite (proj2 (Z.eqb_neq _ _) Hi) in *.
        change (leaf_max_size_ t3) with (leaf_max_size_ t) in *. lia.
      * apply Z.leb_gt in Hle.
        destruct (HandleUnderFlow_spec INTERNAL_PAGE_SIZE (tree_fuel t3) t3 G hr 0 leaf gl
                    leaf') as (t4 & HUF & G4 & hr4 & Hinv4 & Hc4 & Hps4 & Hdel4 & Hlm4
                               & Him4 & Hal4); try done.
        { intros _. by rewrite Hmin'. }
        { pose proof (inv_fuel _ _ _ _ _ _ Hinv3). unfold tree_fuel. simpl in *. lia. }
        { intros _. rewrite Hhl.
          pose proof (closed_cl _ _ _ _ _ _ _ Hinv2 Hclosed _ leaf gl eq_refl Hgl Hin) as Hcl.
          inversion Hcl as [h p g pg0 _ Hg _ Hpg0 Hrec]. subst h p.
          rewrite Hgl in Hg. injection Hg as <-. rewrite Hpg in Hpg0. injection Hpg0 as <-.
          rewrite Hhl in Hrec.
          eapply (cl_frame t2 G REMOVE t3 G 1); [|done| |lia].
          - apply Hrec; [done|]. unfold IsSafe. apply Z.ltb_ge.
            assert (GetMinSize pg = GetMinSize leaf') as -> by done. lia.
          - intros q gq Hq Hhq. split; [done|]. unfold t3. simpl.
            rewrite lookup_insert_ne; [done|]. intros <-.
            rewrite Hgl in Hq. injection Hq as <-. lia. }
        { intros p Hp. change (deleted_page_set_ t3) with (deleted_page_set_ t) in Hp.
          rewrite Hdel in Hp. inversion Hp. }
        rewrite HUF. cbn [bind]. eexists. split; [done|].
        set (t5 := delete_pages (UnlockPageSet t4)).
        destruct (delete_pages_fields (UnlockPageSet t4))
          as (Hd_pages & Hd_root & Hd_lm & Hd_im & Hd_al & Hd_ps & Hd_del).
        fold t5 in Hd_pages, Hd_root, Hd_lm, Hd_im, Hd_al, Hd_ps, Hd_del.
        change (deleted_page_set_ (UnlockPageSet t4)) with (deleted_page_set_ t4) in Hd_pages.
        change (pages_ (UnlockPageSet t4)) with (pages_ t4) in Hd_pages.
        change (root_page_id_ (UnlockPageSet t4)) with (root_page_id_ t4) in Hd_root.
        change (leaf_max_size_ (UnlockPageSet t4)) with (leaf_max_size_ t4) in Hd_lm.
        change (internal_max_size_ (UnlockPageSet t4)) with (internal_max_size_ t4) in Hd_im.
        change (alloc_ (UnlockPageSet t4)) with (alloc_ t4) in Hd_al.
        change (page_set_ (UnlockPageSet t4)) with (@nil (option Z)) in Hd_ps.
        assert (Hagree : ∀ p, is_Some (G4 !! p) → pages_ t5 !! p = pages_ t4 !! p).
        { intros p [g4 Hg4]. rewrite Hd_pages.
          destruct (decide (p ∈ deleted_page_set_ t4)) as [Hd|]; [|done].
          rewrite (Hdel4 p Hd) in Hg4. done. }
        apply (Inv_intro _ _ G4 hr4); try done.
        -- rewrite Hd_root. apply (inv_agree _ t4); try done; lia.
        -- eapply abs_update; [exact Habs3|]. intros kv. rewrite <- Hc4.
           by apply contents_agree.
Qed.

End RemoveProof.
(** **** Readers: [GetValue], [Begin(key)] *)

Lemma filter_key_none (l : list (Z * Z)) key :
  key ∉ l.*1 → filter (λ kv, comparator_ kv.1 key = 0) l = [].
Proof.
  induction l as [|[k v] l IH]; intros Hn; [done|].
  rewrite filter_cons. simpl in *. rewrite decide_False.
  - apply IH. intros Hin. apply Hn. by right.
  - rewrite comparator_eq_0. intros ->. apply Hn. left.
Qed.

Lemma filter_key_one (l1 l2 : list (Z * Z)) key v :
  NoDup (l1 ++ (key, v) :: l2).*1 →
  filter (λ kv, comparator_ kv.1 key = 0) (l1 ++ (key, v) :: l2) = [(key, v)].
Proof.
  intros Hnd. rewrite fmap_app in Hnd. simpl in Hnd.
  apply NoDup_app in Hnd as (_ & H12 & Hnd2). apply NoDup_cons in Hnd2 as [Hn2 _].
  rewrite filter_app, filter_cons. simpl. rewrite decide_True by by apply comparator_eq_0.
  rewrite (filter_key_none l2) by done. rewrite (filter_key_none l1); [done|].
  intros Hin. apply (H12 _ Hin). left.
Qed.

Lemma sorted_NoDup (l : list Z) : StronglySorted Z.lt l → NoDup l.
Proof.
  induction 1 as [|x l Hs IH Hall]; constructor; [|done].
  intros Hin. eapply Forall_forall in Hall; [|done]. lia.
Qed.

Section Readers.

Variable INTERNAL_PAGE_SIZE : Z.
Local Notation inv := (inv INTERNAL_PAGE_SIZE).
Local Notation Inv := (Inv INTERNAL_PAGE_SIZE).

(** The leaf of a key, as every reader finds it. *)
Lemma reader_leaf t M key :
  Inv t M → root_page_id_ t ≠ INVALID_PAGE_ID →
  ∃ leaf pg,
    GetLeafPage t key FIND = Ok (leaf, t) ∧ deref t leaf = Ok pg ∧
    page_id_ pg = leaf ∧ 1 ≤ leaf ∧ 1 ≤ GetSize pg ∧
    StronglySorted Z.lt (array_ pg).*1 ∧
    (∀ v, M !! key = Some v ↔ (key, v) ∈ array_ pg) ∧
    (∀ kv, kv ∈ array_ pg → M !! kv.1 = Some kv.2).
Proof.
  intros (Hps & Hdel & Hlm & Him & Hal & Hcase) Hr.
  rewrite decide_False in Hcase by done. destruct Hcase as (G & hr & Hinv & Habs).
  destruct (GetLeafPage_FIND _ _ _ _ _ _ key Hinv) as (leaf & HG & Hleaf).
  pose proof Hleaf as (gl & Hgl & Hhl & Ha & Hb).
  destruct (inv_page _ _ _ _ _ _ _ _ Hinv Hgl) as (pg & Hpg & Hfetch & Hok).
  pose proof Hok as [Hid Hpar Halp Hblt Hsize Hshape].
  unfold shape in Hshape. rewrite Hhl in Hshape.
  destruct Hshape as (Htype & Hmax & Hnext & Hfirst & Hsorted & Hbounds).
  exists leaf, pg. split; [done|]. split; [by apply deref_ok|].
  repeat split; try done; try lia.
  - unfold size_ok in Hsize. rewrite Hhl in Hsize. simpl in Hsize.
    assert (1 ≤ leaf_max_size_ t `div` 2) by (apply Z.div_le_lower_bound; lia).
    destruct (is_root gl); lia.
  - by apply (leaf_key_unique _ _ _ _ _ _ _ _ _ _ _ Hinv Habs Hleaf Hpg).
  - by apply (leaf_key_unique _ _ _ _ _ _ _ _ _ _ _ Hinv Habs Hleaf Hpg).
  - intros [k v] Hin. apply Habs. exists leaf, gl, pg. done.
Qed.

Lemma GetValue_spec t M key :
  Inv t M → root_page_id_ t ≠ INVALID_PAGE_ID →
  GetValue t key = Ok (bool_decide (is_Some (M !! key)), option_list (M !! key), t).
Proof.
  intros HI Hr.
  destruct (reader_leaf t M key HI Hr)
    as (leaf & pg & HG & Hf & _ & _ & _ & Hs & Hkey & _).
  unfold GetValue. rewrite HG. cbn [bind]. rewrite Hf. cbn [bind].
  destruct (M !! key) as [v|] eqn:Hk.
  - pose proof (proj1 (Hkey v) eq_refl) as Hin.
    apply list_elem_of_split in Hin as (l1 & l2 & Ha).
    rewrite Ha. rewrite filter_key_one; [done|]. rewrite <- Ha. by apply sorted_NoDup.
  - rewrite filter_key_none; [done|].
    intros Hin. apply list_elem_of_fmap in Hin as ([k v] & -> & Hin).
    apply Hkey in Hin. done.
Qed.

Lemma Begin_key_spec t M key :
  Inv t M → root_page_id_ t ≠ INVALID_PAGE_ID →
  ∃ it, Begin_key t key = Ok it ∧
    match M !! key with
    | None => it = End
    | Some v => IsEnd it = false ∧ it_value_ it = (key, v)
    end.
Proof.
  intros HI Hr.
  destruct (reader_leaf t M key HI Hr)
    as (leaf & pg & HG & Hf & Hid & Hl1 & _ & Hs & Hkey & _).
  unfold Begin_key. rewrite HG. cbn [bind]. rewrite Hf. cbn [bind].
  destruct (sorted_split _ key Hs) as (l1 & l2 & Ha & H1 & H2).
  rewrite (Leaf_LowerBound_split pg l1 l2 key Ha H1 H2).
  rewrite comparator_eq. unfold GetSize.
  assert (Hnot1 : ∀ v, (key, v) ∉ l1).
  { intros v Hin. eapply Forall_forall in H1; [|apply list_elem_of_fmap; by exists (key, v)].
    simpl in H1. lia. }
  destruct l2 as [|[k v] l2].
  - rewrite app_nil_r in Ha. rewrite Ha, Z.eqb_refl. simpl. eexists. split; [done|].
    destruct (M !! key) as [v|] eqn:Hk; [|done].
    pose proof (proj1 (Hkey v) eq_refl) as Hin. rewrite Ha in Hin. by apply Hnot1 in Hin.
  - rewrite (KeyAt_middle pg l1 l2 k v Ha).
    assert (Hlen : length (array_ pg) = (length l1 + S (length l2))%nat).
    { rewrite Ha, length_app. done. }
    rewrite (proj2 (Z.eqb_neq _ _)) by lia.
    simpl. destruct (Z.eqb_spec k key) as [->|Hne]; simpl.
    + eexists. split; [done|].
      assert (M !! key = Some v) as ->.
      { apply Hkey. rewrite Ha. apply elem_of_app. right. left. }
      split.
      * unfold IsEnd, GetPageId. simpl. apply Z.eqb_neq. unfold INVALID_PAGE_ID. lia.
      * simpl. unfold KeyValueAt. rewrite Ha, Nat2Z.id, nth_middle. done.
    + eexists. split; [done|].
      destruct (M !! key) as [v'|] eqn:Hk; [|done].
      pose proof (proj1 (Hkey v') eq_refl) as Hin.
      rewrite Ha in Hin. apply elem_of_app in Hin as [Hin|Hk'].
      { by apply Hnot1 in Hin. }
      apply elem_of_cons in Hk' as [Hk'|Hk']; [congruence|].
      rewrite Ha, fmap_app in Hs. apply StronglySorted_app in Hs as (_ & _ & Hs2).
      simpl in Hs2. apply StronglySorted_inv in Hs2 as [_ Hall].
      eapply Forall_forall in Hall; [|apply list_elem_of_fmap; by exists (key, v')].
      simpl in H2. apply Forall_cons in H2 as [Hk2 _]. simpl in Hall. lia.
Qed.

(** The tree has a root exactly when it holds a pair. *)
Lemma Inv_empty t M :
  Inv t M → root_page_id_ t = INVALID_PAGE_ID ↔ M = ∅.
Proof.
  intros HI. split.
  - intros Hr. destruct HI as (_ & _ & _ & _ & _ & Hcase).
    by rewrite decide_True in Hcase.
  - intros ->. destruct (decide (root_page_id_ t = INVALID_PAGE_ID)) as [|Hr]; [done|].
    destruct (reader_leaf t ∅ 0 HI Hr) as (leaf & pg & _ & _ & _ & _ & Hsz & _ & _ & Hall).
    unfold GetSize in Hsz. destruct (array_ pg) as [|kv l]; [simpl in Hsz; lia|].
    specialize (Hall kv ltac:(left)). by rewrite lookup_empty in Hall.
Qed.

End Readers.
(** **** Sequences of operations *)

(** The finite map that a sequence of operations builds: [Insert] keeps
    the value of a key that is there. *)
Definition model_step (M : gmap Z Z) (o : op) : gmap Z Z :=
  match o with
  | OpInsert key value =>
      match M !! key with Some _ => M | None => <[key := value]> M end
  | OpRemove key => delete key M
  end.

Definition model (os : list op) : gmap Z Z := foldl model_step ∅ os.

(** No [Remove] is called on a tree without pairs. *)
Fixpoint removes_nonempty (M : gmap Z Z) (os : list op) : Prop :=
  match os with
  | [] => True
  | o :: os' =>
      match o with OpRemove _ => M ≠ ∅ | OpInsert _ _ => True end ∧
      removes_nonempty (model_step M o) os'
  end.

#[global] Instance removes_nonempty_dec M os : Decision (removes_nonempty M os).
Proof.
  revert M. induction os as [|[k v|k] os IH]; intros M; simpl; apply _.
Defined.

Section Runs.

Variable INTERNAL_PAGE_SIZE : Z.
Local Notation inv := (inv INTERNAL_PAGE_SIZE).
Local Notation Inv := (Inv INTERNAL_PAGE_SIZE).

Lemma Inv_new leaf_max_size internal_max_size :
  2 ≤ leaf_max_size → 3 ≤ internal_max_size ≤ INTERNAL_PAGE_SIZE →
  Inv (BPlusTree_new leaf_max_size internal_max_size) ∅.
Proof. intros Hl Hi. repeat split; simpl; try done; lia. Qed.

Lemma step_spec t M o :
  Inv t M → match o with OpRemove _ => M ≠ ∅ | OpInsert _ _ => True end →
  ∃ t', step INTERNAL_PAGE_SIZE t o = Ok t' ∧ Inv t' (model_step M o).
Proof.
  intros HI Ho. destruct o as [key value|key]; simpl.
  - destruct (Insert_spec INTERNAL_PAGE_SIZE t M key value HI) as (t' & -> & HI').
    exists t'. done.
  - apply Remove_tree_spec; [done|]. intros Hr. apply Ho. by apply (Inv_empty _ t M HI).
Qed.

Lemma run_spec os : ∀ t M,
  Inv t M → removes_nonempty M os →
  ∃ t', run INTERNAL_PAGE_SIZE t os = Ok t' ∧ Inv t' (foldl model_step M os).
Proof.
  induction os as [|o os IH]; intros t M HI Hos; simpl.
  - by exists t.
  - destruct Hos as [Ho Hos]. destruct (step_spec t M o HI Ho) as (t1 & -> & HI1).
    cbn [bind]. by apply IH.
Qed.

End Runs.
(** **** The leaves, left to right *)

(** The leaf pages from [p] on, along [next_page_id_], up to [stop]. *)
Inductive leaves (t : BPlusTree) : page_id_t → page_id_t → list Page → Prop :=
| leaves_nil stop : leaves t stop stop []
| leaves_cons p pg stop rest :
    pages_ t !! p = Some pg → page_id_ pg = p → p ≠ INVALID_PAGE_ID → array_ pg ≠ [] →
    leaves t (next_page_id_ pg) stop rest →
    leaves t p stop (pg :: rest).

Fixpoint pairs (pgs : list Page) : list (Z * Z) :=
  match pgs with
  | [] => []
  | pg :: rest => array_ pg ++ pairs rest
  end.

(** [n] times [operator++]. *)
Fixpoint advance (t : BPlusTree) (n : nat) (it : IndexIterator) : result IndexIterator :=
  match n with
  | O => Ok it
  | S n' => let* it' := next t it in advance t n' it'
  end.

Lemma pairs_app pgs1 pgs2 : pairs (pgs1 ++ pgs2) = pairs pgs1 ++ pairs pgs2.
Proof. induction pgs1 as [|pg pgs1 IH]; [done|]. simpl. by rewrite IH, app_assoc. Qed.

Lemma elem_of_pairs pgs kv : kv ∈ pairs pgs ↔ ∃ pg, pg ∈ pgs ∧ kv ∈ array_ pg.
Proof.
  induction pgs as [|pg pgs IH]; simpl.
  - split; [by intros ?%elem_of_nil|]. by intros (pg & ?%elem_of_nil & _).
  - rewrite elem_of_app, IH. split.
    + intros [H|(pg' & H1 & H2)]; [exists pg; split; [left|done]|].
      exists pg'. split; [by right|done].
    + intros (pg' & [->|H1]%elem_of_cons & H2); [by left|]. right. by exists pg'.
Qed.

Lemma leaves_app t p mid stop pgs1 pgs2 :
  leaves t p mid pgs1 → leaves t mid stop pgs2 → leaves t p stop (pgs1 ++ pgs2).
Proof.
  induction 1 as [|p pg mid rest Hpg Hid Hne Harr Hrest IH]; intros H2; [done|].
  simpl. constructor; try done. by apply IH.
Qed.

Lemma advance_End t n : advance t n End = Ok End.
Proof. induction n as [|n IH]; [done|]. simpl. done. Qed.

Lemma KeyValueAt_middle pg (l1 l2 : list (Z * Z)) kv :
  array_ pg = l1 ++ kv :: l2 → KeyValueAt pg (Z.of_nat (length l1)) = kv.
Proof. intros Ha. unfold KeyValueAt. by rewrite Ha, Nat2Z.id, nth_middle. Qed.

(** The iterator at a pair of a leaf goes through the pairs that follow,
    leaf after leaf, and ends after the last one. *)
Lemma advance_leaves t : ∀ i pg rest l1 kv l2,
  leaves t (page_id_ pg) INVALID_PAGE_ID (pg :: rest) →
  array_ pg = l1 ++ kv :: l2 →
  ∃ it, advance t i (mkIterator (page_id_ pg) (Z.of_nat (length l1)) kv) = Ok it ∧
    match (kv :: l2 ++ pairs rest) !! i with
    | Some kv' => IsEnd it = false ∧ it_value_ it = kv'
    | None => it = End
    end.
Proof.
  induction i as [|i IH]; intros pg rest l1 kv l2 Hl Ha.
  - eexists. split; [done|]. simpl. split; [|done].
    inversion Hl; subst. unfold IsEnd. simpl. by apply Z.eqb_neq.
  - inversion Hl as [|p pg0 stop rest0 Hpg Hid Hne Harr Hrest]; subst.
    simpl. unfold next at 1. simpl.
    rewrite (proj2 (Z.eqb_neq _ _) Hne). rewrite (FetchPage_ok _ _ _ Hpg). cbn [bind].
    assert (Hsz : GetSize pg = Z.of_nat (length l1) + 1 + Z.of_nat (length l2)).
    { unfold GetSize. rewrite Ha, length_app. simpl. lia. }
    destruct l2 as [|kv' l2].
    + rewrite (proj2 (Z.eqb_eq _ _)) by (simpl in Hsz; lia). simpl.
      inversion Hrest as [|p' pg' stop' rest' Hpg' Hid' Hne' Harr' Hrest']; subst.
      * unfold GetNextPageId. rewrite Z.eqb_refl.
        exists End. split; [apply advance_End|]. by destruct i.
      * unfold GetNextPageId. rewrite (proj2 (Z.eqb_neq _ _) Hne').
        rewrite (FetchPage_ok _ _ _ Hpg'). cbn [bind].
        destruct (array_ pg') as [|kv0 l0] eqn:Ha'; [done|].
        assert (KeyValueAt pg' 0 = kv0) as ->.
        { unfold KeyValueAt. by rewrite Ha'. }
        unfold GetPageId.
        destruct (IH pg' rest' [] kv0 l0) as (it & Hit & Hm); [|done|].
        { rewrite Hid'. exact Hrest. }
        exists it. split; [exact Hit|]. simpl pairs. rewrite Ha'. exact Hm.
    + rewrite (proj2 (Z.eqb_neq _ _)) by (simpl in Hsz; lia). simpl.
      assert (Ha2 : array_ pg = (l1 ++ [kv]) ++ kv' :: l2) by (by rewrite <- app_assoc).
      assert (Hl2 : Z.of_nat (length l1) + 1 = Z.of_nat (length (l1 ++ [kv]))).
      { rewrite length_app. simpl. lia. }
      rewrite Hl2, (KeyValueAt_middle pg _ l2 kv' Ha2).
      destruct (IH pg rest (l1 ++ [kv]) kv' l2 Hl Ha2) as (it & Hit & Hm).
      exists it. split; [exact Hit|]. exact Hm.
Qed.

Section Scan.

Variable INTERNAL_PAGE_SIZE : Z.
Local Notation inv := (inv INTERNAL_PAGE_SIZE).
Local Notation Inv := (Inv INTERNAL_PAGE_SIZE).

Variables (t : BPlusTree) (G : gmap Z ginfo) (hr : nat) (tops : list (Z * Z)).
Hypothesis Hinv : inv t G NoExc hr tops.

(** The leaves between [fst] and [nxt] hold the keys between [lo] and
    [hi], in increasing order. *)
Definition scan_ok (lo hi : option Z) (fst nxt : page_id_t) : Prop :=
  ∃ pgs, leaves t fst nxt pgs ∧ pgs ≠ [] ∧
    sorted_in lo (pairs pgs).*1 hi ∧ blt lo hi ∧
    (∀ pg, pg ∈ pgs → ∃ q gq, G !! q = Some gq ∧ g_h gq = O ∧ pages_ t !! q = Some pg) ∧
    (∀ key, above lo key → below key hi →
       ∃ leaf pg, leaf_for G key leaf ∧ pages_ t !! leaf = Some pg ∧ pg ∈ pgs).

Lemma chain_scan P h hi nxt :
  (∀ c g, G !! c = Some g → g_h g = h →
     scan_ok (g_lo g) (g_hi g) (g_first g) (g_next g)) →
  ∀ arr lo fst, chain G P h lo arr hi fst nxt → scan_ok lo hi fst nxt.
Proof.
  intros Hsub. induction arr as [|[k c] arr IH]; intros lo fst Hc; [done|].
  destruct arr as [|[k' c'] rest].
  - apply chain_one in Hc as (g & Hg & _ & Hh & <- & <- & <- & <-). by apply (Hsub c).
  - apply chain_cons in Hc as (mid & (g & Hg & _ & Hh & <- & Hhi & <- & <-) & Hrest).
    pose proof (Hsub c g Hg Hh) as (pgs1 & Hl1 & Hne1 & Hs1 & Hb1 & Hin1 & Hcov1).
    destruct (IH _ _ Hrest) as (pgs2 & Hl2 & Hne2 & Hs2 & Hb2 & Hin2 & Hcov2).
    rewrite Hhi in *.
    exists (pgs1 ++ pgs2). split; [|split; [|split; [|split; [|split]]]].
    + by eapply leaves_app.
    + intros [? _]%app_eq_nil. done.
    + rewrite pairs_app, fmap_app. by apply (sorted_in_concat _ _ _ k').
    + destruct (g_lo g), hi; simpl in *; try done. lia.
    + intros pg [H|H]%elem_of_app; [by apply Hin1|by apply Hin2].
    + intros key Ha Hb. destruct (Z.lt_ge_cases key k') as [Hlt|Hge].
      * destruct (Hcov1 key Ha Hlt) as (leaf & pg & ? & ? & ?).
        exists leaf, pg. repeat split; try done. apply elem_of_app. by left.
      * destruct (Hcov2 key) as (leaf & pg & ? & ? & ?); [simpl; lia|done|].
        exists leaf, pg. repeat split; try done. apply elem_of_app. by right.
Qed.

Lemma subtree_scan : ∀ h p g,
  G !! p = Some g → g_h g = h → scan_ok (g_lo g) (g_hi g) (g_first g) (g_next g).
Proof.
  induction h as [|h IH]; intros p g Hg Hh.
  - destruct (inv_page _ _ _ _ _ _ _ _ Hinv Hg) as (pg & Hpg & _ & Hok).
    pose proof Hok as [Hid Hpar Halp Hblt Hsize Hshape].
    unfold shape in Hshape. rewrite Hh in Hshape.
    destruct Hshape as (Htype & Hmax & Hnext & Hfirst & Hsorted).
    assert (Hne : array_ pg ≠ []).
    { unfold size_ok in Hsize. rewrite Hh in Hsize. simpl in Hsize.
      pose proof (inv_lmax _ _ _ _ _ _ Hinv).
      assert (1 ≤ leaf_max_size_ t `div` 2) by (apply Z.div_le_lower_bound; lia).
      unfold GetSize in Hsize. intros Hnil. rewrite Hnil in Hsize. simpl in Hsize.
      destruct (is_root g); lia. }
    exists [pg]. split; [|split; [|split; [|split; [|split]]]]; try done.
    + rewrite Hfirst. constructor; try done.
      * unfold INVALID_PAGE_ID. lia.
      * rewrite Hnext. constructor.
    + simpl. by rewrite app_nil_r.
    + intros pg' ->%list_elem_of_singleton. by exists p, g.
    + intros key Ha Hb. exists p, pg. repeat split; try done; [|apply list_elem_of_singleton; done].
      by exists g.
  - destruct (inv_page _ _ _ _ _ _ _ _ Hinv Hg) as (pg & Hpg & _ & Hok).
    pose proof (no_shape _ _ _ _ _ _ Hok) as Hshape.
    unfold shape in Hshape. rewrite Hh in Hshape.
    destruct Hshape as (_ & _ & Hc).
    eapply chain_scan; [|exact Hc]. intros c gc Hgc Hhc. by apply (IH c).
Qed.

Lemma leftmost_spec : ∀ h p g n,
  G !! p = Some g → g_h g = h → (h < n)%nat →
  ∃ pg, leftmost n t p = Ok pg ∧ pages_ t !! g_first g = Some pg.
Proof.
  induction h as [|h IH]; intros p g n Hg Hh Hn.
  - destruct n as [|n]; [lia|].
    destruct (inv_page _ _ _ _ _ _ _ _ Hinv Hg) as (pg & Hpg & Hf & Hok).
    simpl. rewrite Hf. cbn [bind].
    rewrite (proj2 (node_ok_leaf _ _ _ _ _ _ Hok) Hh).
    exists pg. split; [done|].
    pose proof (no_shape _ _ _ _ _ _ Hok) as Hshape.
    unfold shape in Hshape. rewrite Hh in Hshape.
    destruct Hshape as (_ & _ & _ & -> & _). done.
  - destruct n as [|n]; [lia|].
    destruct (inv_page _ _ _ _ _ _ _ _ Hinv Hg) as (pg & Hpg & Hf & Hok).
    simpl. rewrite Hf. cbn [bind].
    destruct (IsLeafPage pg) eqn:Hleaf.
    { apply (node_ok_leaf _ _ _ _ _ _ Hok) in Hleaf. lia. }
    pose proof (no_shape _ _ _ _ _ _ Hok) as Hshape.
    unfold shape in Hshape. rewrite Hh in Hshape.
    destruct Hshape as (_ & _ & Hc).
    destruct (array_ pg) as [|[k c] rest] eqn:Ha; [done|].
    rewrite (ValueAt_0 pg k c rest Ha).
    apply chain_first in Hc as (gc & Hgc & _ & Hhc & _ & Hfst).
    destruct (IH c gc n Hgc Hhc ltac:(lia)) as (pgl & Hl & Hp).
    exists pgl. split; [done|]. by rewrite <- Hfst.
Qed.

End Scan.

Section ScanTree.

Variable INTERNAL_PAGE_SIZE : Z.
Local Notation inv := (inv INTERNAL_PAGE_SIZE).
Local Notation Inv := (Inv INTERNAL_PAGE_SIZE).

Lemma scan_spec t M :
  Inv t M → root_page_id_ t ≠ INVALID_PAGE_ID →
  ∃ L it0, Begin t = Ok it0 ∧
    StronglySorted Z.lt L.*1 ∧
    (∀ k v, (k, v) ∈ L ↔ M !! k = Some v) ∧
    ∀ i, ∃ it, advance t i it0 = Ok it ∧
      match L !! i with
      | Some kv => IsEnd it = false ∧ it_value_ it = kv
      | None => it = End
      end.
Proof.
  intros (Hps & Hdel & Hlm & Him & Hal & Hcase) Hr.
  rewrite decide_False in Hcase by done. destruct Hcase as (G & hr & Hinv & Habs).
  destruct (inv_root _ _ _ _ _ _ _ Hinv) as (g & Hg & Hpar & Hh & Hlo & Hhi & Hnext).
  destruct (subtree_scan _ _ _ _ _ Hinv _ _ _ Hg Hh)
    as (pgs & Hl & Hne & Hs & _ & Hin & Hcov).
  rewrite Hlo, Hhi, Hnext in *.
  destruct (leftmost_spec _ _ _ _ _ Hinv hr _ g (tree_fuel t) Hg Hh) as (pg0 & Hlm0 & Hp0).
  { pose proof (inv_fuel _ _ _ _ _ _ Hinv). unfold tree_fuel. lia. }
  destruct pgs as [|pg rest]; [done|].
  inversion Hl as [|p pg' stop rest' Hpg Hid Hnp Harr Hrest]; subst.
  rewrite Hpg in Hp0. injection Hp0 as <-.
  destruct (array_ pg) as [|kv l2] eqn:Ha; [done|].
  exists (pairs (pg :: rest)), (mkIterator (page_id_ pg) 0 kv).
  split; [|split; [|split]].
  - unfold Begin. rewrite Hlm0. cbn [bind]. unfold GetPageId, KeyValueAt. by rewrite Ha.
  - apply Hs.
  - intros k v. rewrite elem_of_pairs. split.
    + intros (pgx & Hx & Hkv). destruct (Hin pgx Hx) as (q & gq & Hgq & Hhq & Hpq).
      apply Habs. by exists q, gq, pgx.
    + intros Hk. destruct (Hcov k) as (leaf & pgx & Hleaf & Hpx & Hx); [done|done|].
      exists pgx. split; [done|].
      by apply (leaf_key_unique _ _ _ _ _ _ _ _ _ _ _ Hinv Habs Hleaf Hpx).
  - intros i. rewrite <- Hid in Hl.
    destruct (advance_leaves t i pg rest [] kv l2 Hl Ha) as (it & Hit & Hm).
    exists it. split; [exact Hit|]. simpl pairs. rewrite Ha. exact Hm.
Qed.

End ScanTree.
(** **** The pages of a tree *)

(** The root and, below an internal page of the tree, the pages that its
    slots name. *)
Inductive in_tree (t : BPlusTree) : page_id_t → Prop :=
| in_tree_root : in_tree t (root_page_id_ t)
| in_tree_child p pg k c :
    in_tree t p → pages_ t !! p = Some pg → IsLeafPage pg = false →
    (k, c) ∈ array_ pg → in_tree t c.

Section Shape.

Variable INTERNAL_PAGE_SIZE : Z.
Local Notation inv := (inv INTERNAL_PAGE_SIZE).
Local Notation Inv := (Inv INTERNAL_PAGE_SIZE).

Lemma in_tree_ghost t G e hr k p :
  inv t G e hr [(k, root_page_id_ t)] → in_tree t p → is_Some (G !! p).
Proof.
  intros Hinv. induction 1 as [|p pg k' c Hp IH Hpg Hleaf Hin].
  - destruct (inv_root _ _ _ _ _ _ _ Hinv) as (g & Hg & _). by exists g.
  - destruct IH as [g Hg].
    destruct (inv_page _ _ _ _ _ _ _ _ Hinv Hg) as (pg' & Hpg' & _ & Hok).
    rewrite Hpg in Hpg'. injection Hpg' as <-.
    pose proof (no_shape _ _ _ _ _ _ Hok) as Hshape. unfold shape in Hshape.
    destruct (g_h g) as [|h] eqn:Hh.
    { apply (node_ok_leaf _ _ _ _ _ _ Hok) in Hh. congruence. }
    destruct Hshape as (_ & _ & Hc).
    destruct (chain_children _ _ _ _ _ _ _ _ c Hc) as (gc & Hgc & _).
    { apply list_elem_of_fmap. by exists (k', c). }
    by exists gc.
Qed.

Lemma page_sizes t M p :
  Inv t M → root_page_id_ t ≠ INVALID_PAGE_ID → in_tree t p →
  ∃ pg, FetchPage t p = Ok pg ∧ GetPageId pg = p ∧
    GetMaxSize pg = (if IsLeafPage pg then leaf_max_size_ t else internal_max_size_ t) ∧
    (if IsRootPage pg then if IsLeafPage pg then 1 else 2 else GetMinSize pg) ≤ GetSize pg ∧
    GetSize pg ≤ (if IsLeafPage pg then GetMaxSize pg - 1 else GetMaxSize pg) ∧
    (IsRootPage pg = true ↔ p = root_page_id_ t).
Proof.
  intros (Hps & Hdel & Hlm & Him & Hal & Hcase) Hr Hp.
  rewrite decide_False in Hcase by done. destruct Hcase as (G & hr & Hinv & Habs).
  destruct (in_tree_ghost _ _ _ _ _ _ Hinv Hp) as [g Hg].
  destruct (inv_page _ _ _ _ _ _ _ _ Hinv Hg) as (pg & Hpg & Hf & Hok).
  exists pg. split; [done|].
  pose proof Hok as [Hid Hpar Halp Hblt Hsize Hshape].
  split; [done|].
  assert (Hroot : IsRootPage pg = is_root g).
  { unfold IsRootPage, is_root. by rewrite Hpar. }
  assert (Hrp : IsRootPage pg = true ↔ p = root_page_id_ t).
  { rewrite (node_ok_root _ _ _ _ _ _ Hok). split.
    - intros Hi. pose proof (inv_top _ _ _ _ _ _ Hinv p g Hg Hi) as Hin. simpl in Hin.
      by apply list_elem_of_singleton in Hin.
    - intros ->. destruct (inv_root _ _ _ _ _ _ _ Hinv) as (g0 & Hg0 & Hp0 & _).
      rewrite Hg in Hg0. by injection Hg0 as <-. }
  unfold shape in Hshape. unfold size_ok in Hsize. simpl in Hsize.
  unfold GetMinSize, GetMaxSize. rewrite Hroot.
  destruct (g_h g) as [|h] eqn:Hh.
  - destruct Hshape as (Htype & Hmax & _). unfold IsLeafPage. rewrite Htype, Hmax.
    rewrite Hroot in Hrp. repeat split; try apply Hrp; destruct (is_root g); lia.
  - destruct Hshape as (Htype & Hmax & _). unfold IsLeafPage. rewrite Htype, Hmax.
    rewrite Hroot in Hrp. repeat split; try apply Hrp; destruct (is_root g); lia.
Qed.

Lemma parent_pointers t M p pg k c :
  Inv t M → root_page_id_ t ≠ INVALID_PAGE_ID → in_tree t p →
  pages_ t !! p = Some pg → IsLeafPage pg = false → (k, c) ∈ array_ pg →
  ∃ pc, FetchPage t c = Ok pc ∧ GetParentPageId pc = p ∧ GetPageId pc = c.
Proof.
  intros (Hps & Hdel & Hlm & Him & Hal & Hcase) Hr Hp Hpg Hleaf Hin.
  rewrite decide_False in Hcase by done. destruct Hcase as (G & hr & Hinv & Habs).
  destruct (in_tree_ghost _ _ _ _ _ _ Hinv Hp) as [g Hg].
  destruct (inv_page _ _ _ _ _ _ _ _ Hinv Hg) as (pg' & Hpg' & _ & Hok).
  rewrite Hpg in Hpg'. injection Hpg' as <-.
  pose proof (no_shape _ _ _ _ _ _ Hok) as Hshape. unfold shape in Hshape.
  destruct (g_h g) as [|h] eqn:Hh.
  { apply (node_ok_leaf _ _ _ _ _ _ Hok) in Hh. congruence. }
  destruct Hshape as (_ & _ & Hc).
  destruct (chain_children _ _ _ _ _ _ _ _ c Hc) as (gc & Hgc & Hpc & _).
  { apply list_elem_of_fmap. by exists (k, c). }
  destruct (inv_page _ _ _ _ _ _ _ _ Hinv Hgc) as (pc & _ & Hfc & Hokc).
  exists pc. split; [done|]. unfold GetParentPageId, GetPageId.
  rewrite (no_parent _ _ _ _ _ _ Hokc), (no_id _ _ _ _ _ _ Hokc). done.
Qed.

End Shape.
(** **** The maximal sizes are those of the constructor *)

Definition params (t : BPlusTree) : Z * Z := (leaf_max_size_ t, internal_max_size_ t).

Tactic Notation "bind_ok" hyp(H) "as" simple_intropattern(x) ident(E) :=
  match type of H with
  | bind ?e _ = Ok _ => destruct e as [x|] eqn:E; cbn [bind] in H; try discriminate H
  end.

Lemma update_record_params t r : params (update_record t r) = params t.
Proof. unfold update_record. by repeat case_match. Qed.

Lemma UpdateChildNode_params cs : ∀ t node t',
  UpdateChildNode t node cs = Ok t' → params t' = params t.
Proof.
  induction cs as [|c cs IH]; intros t node t' H; simpl in H.
  - by injection H as <-.
  - bind_ok H as pg E. by apply IH in H.
Qed.

Lemma descend_params fuel op : ∀ is_first key cur prev t r t',
  descend fuel op is_first key cur prev t = Ok (r, t') → params t' = params t.
Proof.
  induction fuel as [|n IH]; intros is_first key cur prev t r t' H; [done|].
  simpl in H. bind_ok H as p E.
  assert (Hp : ∀ t0, params (match op with
        | FIND => t0
        | _ =>
            if negb is_first then
              AddIntoPageSet (if IsSafe p op then UnlockPageSet t0 else t0) (Some cur)
            else if IsLeafPage p then AddIntoPageSet t0 (Some cur)
            else match prev with Some _ => t0 | None => UnlockPageSet t0 end
        end) = params t0).
  { intros t0. by repeat case_match. }
  destruct (IsLeafPage p) eqn:Hleaf.
  - destruct (negb (IsSafe p op) && is_first); injection H as <- <-; exact (Hp t).
  - bind_ok H as c Ec. apply IH in H. rewrite H. exact (Hp t).
Qed.

Lemma enter_params t op : params (enter t op) = params t.
Proof.
  unfold enter. destruct op; try done. destruct (IsEmpty t); [|done].
  unfold params. simpl. unfold update_record. simpl. by repeat case_match.
Qed.

Lemma GetLeafPage_params t key op leaf t' :
  GetLeafPage t key op = Ok (leaf, t') → params t' = params t.
Proof.
  unfold GetLeafPage. rewrite GetLeafPage_enter_ok. cbn [bind].
  intros H. bind_ok H as [[l|] t2] E.
  - injection H as <- <-. apply descend_params in E. by rewrite E, enter_params.
  - rewrite GetLeafPage_enter_ok in H. cbn [bind] in H.
    bind_ok H as [[l|] t4] E0. injection H as <- <-.
    apply descend_params in E, E0.
    by rewrite E0, enter_params, E, enter_params.
Qed.

Section Params.

Variable INTERNAL_PAGE_SIZE : Z.

Lemma InsertInParent_params fuel : ∀ t left right key0 t',
  InsertInParent INTERNAL_PAGE_SIZE fuel t left right key0 = Ok t' → params t' = params t.
Proof.
  induction fuel as [|n IH]; intros t left right key0 t' H; [done|].
  simpl in H. bind_ok H as ln E. destruct (IsRootPage ln).
  - rewrite NewPage_ok in H. cbn [bind AllocatePage] in H.
    rewrite UpdateRootPageId_ok in H. cbn [bind] in H.
    bind_ok H as rn E1. bind_ok H as ln' E2. bind_ok H as rn' E3. injection H as <-.
    unfold params. simpl. unfold update_record. simpl. by repeat case_match.
  - bind_ok H as pn E1. bind_ok H as rn E2. destruct (_ <? _); [by injection H as <-|].
    rewrite NewPage_ok in H. cbn [bind AllocatePage] in H.
    simpl in H. bind_ok H as t3 E3. apply IH in H. apply UpdateChildNode_params in E3. by rewrite H, E3.
Qed.

Lemma Insert_params t key value b t' :
  Insert INTERNAL_PAGE_SIZE t key value = Ok (b, t') → params t' = params t.
Proof.
  unfold Insert. intros H. bind_ok H as [leaf t1] E.
  apply GetLeafPage_params in E. bind_ok H as lp0 E0.
  destruct (Leaf_Insert _ _ _) as [lp ins]. destruct (negb ins).
  { injection H as <- <-. done. }
  destruct (_ <? _).
  { injection H as <- <-. done. }
  rewrite NewPage_ok in H. cbn [bind AllocatePage] in H.
  simpl in H. bind_ok H as t5 E1.
  injection H as <- <-. apply InsertInParent_params in E1. by rewrite <- E.
Qed.

Lemma TryBorrow_params t page sibling parent is_left b t' :
  TryBorrow t page sibling parent is_left = Ok (b, t') → params t' = params t.
Proof.
  unfold TryBorrow. intros H. destruct sibling as [sib|]; [|by injection H as <- <-].
  bind_ok H as sp E. destruct (_ <=? _); [by injection H as <- <-|].
  bind_ok H as pn E0. bind_ok H as pp E1. destruct (IsLeafPage _).
  - bind_ok H as s1 E2. bind_ok H as l2 E3. bind_ok H as s2 E4. bind_ok H as p2 E5.
    by injection H as <- <-.
  - destruct is_left.
    + bind_ok H as s1 E2. bind_ok H as p2 E3. bind_ok H as t3 E4. bind_ok H as p3 E5.
      injection H as <- <-. by apply UpdateChildNode_params in E4.
    + bind_ok H as s1 E2. bind_ok H as p2 E3. bind_ok H as t3 E4. bind_ok H as p3 E5.
      injection H as <- <-. by apply UpdateChildNode_params in E4.
Qed.

Lemma Merge_params t left right parent t' :
  Merge t left right parent = Ok t' → params t' = params t.
Proof.
  unfold Merge. intros H. bind_ok H as lp E. bind_ok H as rp E0. bind_ok H as pp E1.
  bind_ok H as t1 E2. bind_ok H as pn E3. injection H as <-.
  destruct (IsLeafPage _).
  - by injection E2 as <-.
  - by apply UpdateChildNode_params in E2.
Qed.

Lemma HandleUnderFlow_params fuel : ∀ t page t',
  HandleUnderFlow fuel t page = Ok t' → params t' = params t.
Proof.
  induction fuel as [|n IH]; intros t page t' H; [done|].
  simpl in H. bind_ok H as pn E. destruct (IsRootPage pn).
  - destruct (_ || _); [by injection H as <-|]. bind_ok H as nn E0.
    rewrite UpdateRootPageId_ok in H. injection H as <-.
    by rewrite update_record_params.
  - bind_ok H as pp E0. bind_ok H as [ls rs] E1. destruct (_ && _); [done|].
    bind_ok H as lsib E2. bind_ok H as rsib E3.
    bind_ok H as [bl t1] E4. apply TryBorrow_params in E4.
    destruct bl; [by injection H as <-|].
    bind_ok H as [br t2] E5. apply TryBorrow_params in E5.
    destruct br; [injection H as <-; congruence|].
    bind_ok H as [lp rp] E6. bind_ok H as t3 E7. bind_ok H as rn E8. bind_ok H as pnow E9.
    apply Merge_params in E7.
    destruct (_ <? _).
    + apply IH in H. rewrite H. unfold params in *. simpl. congruence.
    + injection H as <-. unfold params in *. simpl. congruence.
Qed.

Lemma foldl_DeletePage_params l : ∀ t, params (foldl DeletePage t l) = params t.
Proof.
  induction l as [|p l IH]; intros t; [done|]. simpl. by rewrite IH, DeletePage_ok.
Qed.

Lemma Remove_params t key t' :
  Remove t key = Ok t' → params t' = params t.
Proof.
  unfold Remove. intros H. bind_ok H as [leaf t1] E.
  apply GetLeafPage_params in E. bind_ok H as nd0 E0.
  destruct (Leaf_Remove _ _) as [nd rem]. destruct (negb rem).
  { by injection H as <-. }
  destruct (IsRootPage nd).
  { injection H as <-. by destruct (_ =? _). }
  destruct (_ <=? _).
  { by injection H as <-. }
  bind_ok H as t3 E1. injection H as <-. apply HandleUnderFlow_params in E1.
  unfold delete_pages.
  change (params (foldl DeletePage (UnlockPageSet t3) (deleted_page_set_ (UnlockPageSet t3)))
          = params t).
  rewrite foldl_DeletePage_params. by rewrite <- E.
Qed.

Lemma run_params os : ∀ t t',
  run INTERNAL_PAGE_SIZE t os = Ok t' → params t' = params t.
Proof.
  induction os as [|o os IH]; intros t t' H; simpl in H.
  - by injection H as <-.
  - bind_ok H as t1 E. apply IH in H. rewrite H. destruct o as [key value|key]; simpl in E.
    + bind_ok E as [b t2] E0. injection E as <-. by apply Insert_params in E0.
    + by apply Remove_params in E.
Qed.

End Params.

End Served.

(** *** The empty tree *)

(** The examples run behind the pool that has a frame for every
    request: what goes wrong in them is not the want of a frame. *)
#[global] Existing Instance large_pool.
#[global] Existing Instance large_pool_serves.

(** [INTERNAL_PAGE_SIZE] for 8-byte keys: [(4096 - 24) / 12]. *)
Definition INTERNAL_PAGE_SIZE_8 : Z := 339.

(** C9: on the empty tree [GetLeafPage] has no early return for a reader
    or a remover, so [GetValue] and [Remove] fetch the page
    [INVALID_PAGE_ID]; [GetValue] does not return [false] and [Remove]
    is not a no-op. *)
Lemma empty_tree_fetches_invalid_page (leaf_max_size internal_max_size key : Z) :
  IsEmpty (BPlusTree_new leaf_max_size internal_max_size) = true ∧
  GetValue (BPlusTree_new leaf_max_size internal_max_size) key
    = Err (FetchOfMissingPage INVALID_PAGE_ID) ∧
  Remove (BPlusTree_new leaf_max_size internal_max_size) key
    = Err (FetchOfMissingPage INVALID_PAGE_ID).
Proof. done. Qed.

(** C1: after [Insert(1, 10); Remove(1)] the tree is empty again, and
    [GetValue(2)] for the key 2, never inserted, does not return [false]:
    it fetches the page [INVALID_PAGE_ID]. *)
Lemma GetValue_after_last_remove_fetches_invalid_page (INTERNAL_PAGE_SIZE : Z) :
  ∃ t, run INTERNAL_PAGE_SIZE (BPlusTree_new 4 4) [OpInsert 1 10; OpRemove 1] = Ok t ∧
       IsEmpty t = true ∧
       GetValue t 2 = Err (FetchOfMissingPage INVALID_PAGE_ID).
Proof. eexists. split; [vm_compute; reflexivity|]. split; vm_compute; reflexivity. Qed.

(** C8: [Remove] of the last key sets [root_page_id_] to
    [INVALID_PAGE_ID] and leaves the header page alone: it still records
    the page 1 as the root. *)
Lemma Remove_last_key_keeps_header_record (INTERNAL_PAGE_SIZE : Z) :
  ∃ t, run INTERNAL_PAGE_SIZE (BPlusTree_new 4 4) [OpInsert 1 10; OpRemove 1] = Ok t ∧
       root_page_id_ t = INVALID_PAGE_ID ∧
       header_ t = Some 1 ∧
       header_ t ≠ Some (root_page_id_ t).
Proof. eexists. split; [vm_compute; reflexivity|]. vm_compute. by repeat split. Qed.

(** *** [Begin(key)] *)

(** C7, counterexample: with the keys 1 and 3 stored, [Begin(2)] is
    [End()], although the key 3 is stored and greater than 2. *)
Lemma Begin_key_absent_is_End :
  ∃ t, run INTERNAL_PAGE_SIZE_8 (BPlusTree_new 4 4) [OpInsert 1 10; OpInsert 3 30] = Ok t ∧
       Begin_key t 2 = Ok End ∧
       (∃ t', GetValue t 3 = Ok (true, [30], t')) ∧
       2 ≤ 3.
Proof.
  eexists. split; [vm_compute; reflexivity|].
  split; [vm_compute; reflexivity|]. split; [|lia].
  eexists. vm_compute. reflexivity.
Qed.

(** *** Sequences of [Insert] and [Remove] from the empty tree

    The properties of this part are those of a tree behind a buffer pool
    that serves it: every [NewPage] and [FetchPage] of the tree finds a
    frame (none returns [nullptr]), and every page that the tree deletes
    is unpinned by then.  They say nothing of a pool that runs out of
    frames; there the tree dereferences the [nullptr]. *)

Lemma run_new_spec {pool : BufferPoolManager} {Hserves : Serves pool}
    (INTERNAL_PAGE_SIZE leaf_max_size internal_max_size : Z) (os : list op) :
  2 ≤ leaf_max_size → 3 ≤ internal_max_size ≤ INTERNAL_PAGE_SIZE →
  removes_nonempty ∅ os →
  ∃ t, run INTERNAL_PAGE_SIZE (BPlusTree_new leaf_max_size internal_max_size) os = Ok t ∧
       Inv INTERNAL_PAGE_SIZE t (model os).
Proof.
  intros Hl Hi Hos. apply run_spec; [|done]. by apply Inv_new.
Qed.

(** The sequence of the examples: five insertions, one of a key that is
    there, a removal of a key that is not there and two removals. *)
Definition ops_example : list op :=
  [OpInsert 5 50; OpInsert 1 10; OpInsert 3 30; OpInsert 3 31; OpInsert 7 70;
   OpInsert 9 90; OpRemove 4; OpRemove 1; OpRemove 7].

Lemma ops_example_ok : removes_nonempty ∅ ops_example.
Proof. apply (bool_decide_unpack _). vm_compute. reflexivity. Qed.

Lemma ops_example_model : model ops_example ≠ ∅.
Proof. apply (bool_decide_unpack _). vm_compute. reflexivity. Qed.















(** *** Internal pages *)

Lemma KeyAt_cons p a (l : list (Z * Z)) j :
  array_ p = a :: l → 1 ≤ j → KeyAt p j = (nth (Z.to_nat (j - 1)) l (0, 0)).1.
Proof.
  intros Ha Hj. unfold KeyAt. rewrite Ha.
  replace (Z.to_nat j) with (S (Z.to_nat (j - 1))) by lia. done.
Qed.

Lemma nth_Forall_fst (P : Z → Prop) (l : list (Z * Z)) (n : nat) :
  Forall P l.*1 → (n < length l)%nat → P (nth n l (0, 0)).1.
Proof.
  intros Hall Hn. eapply Forall_forall in Hall; [exact Hall|].
  apply list_elem_of_fmap. eexists. split; [done|]. apply list_elem_of_In, nth_In. lia.
Qed.

(** X8: on an internal page whose keys from slot 1 on increase strictly,
    [LowerBound(key)] is the binary search for the first slot from 1 on
    whose key is not less than [key], and the size of the page when
    there is none; the key of slot 0 is not looked at. *)
Theorem Internal_LowerBound_first_ge (p : Page) (a : Z * Z) (rest : list (Z * Z)) (key : Z) :
  array_ p = a :: rest → StronglySorted Z.lt rest.*1 →
  1 ≤ Internal_LowerBound p key ≤ GetSize p ∧
  (∀ j, 1 ≤ j < Internal_LowerBound p key → KeyAt p j < key) ∧
  (∀ j, Internal_LowerBound p key ≤ j < GetSize p → key ≤ KeyAt p j).
Proof.
  intros Ha Hs. destruct (sorted_split _ key Hs) as (l1 & l2 & -> & H1 & H2).
  rewrite (Internal_LowerBound_split p a l1 l2 key Ha H1 H2).
  unfold GetSize. rewrite Ha. simpl length. rewrite length_app.
  split; [lia|]. split.
  - intros j Hj. rewrite (KeyAt_cons p a _ j Ha) by lia.
    rewrite app_nth1 by lia. apply (nth_Forall_fst (λ k, k < key)); [done|lia].
  - intros j Hj. rewrite (KeyAt_cons p a _ j Ha) by lia.
    rewrite app_nth2 by lia. apply (nth_Forall_fst (λ k, key ≤ k)); [done|lia].
Qed.

Lemma Internal_LowerBound_first_ge_witness :
  1 ≤ Internal_LowerBound (mkPage INTERNAL_PAGE 4 INVALID_PAGE_ID 3 INVALID_PAGE_ID
                             [(0, 1); (5, 2); (9, 4)]) 7
    ≤ GetSize (mkPage INTERNAL_PAGE 4 INVALID_PAGE_ID 3 INVALID_PAGE_ID
                 [(0, 1); (5, 2); (9, 4)]) ∧
  (∀ j, 1 ≤ j < Internal_LowerBound (mkPage INTERNAL_PAGE 4 INVALID_PAGE_ID 3 INVALID_PAGE_ID
                                       [(0, 1); (5, 2); (9, 4)]) 7 →
        KeyAt (mkPage INTERNAL_PAGE 4 INVALID_PAGE_ID 3 INVALID_PAGE_ID
                 [(0, 1); (5, 2); (9, 4)]) j < 7) ∧
  (∀ j, Internal_LowerBound (mkPage INTERNAL_PAGE 4 INVALID_PAGE_ID 3 INVALID_PAGE_ID
                               [(0, 1); (5, 2); (9, 4)]) 7 ≤ j
          < GetSize (mkPage INTERNAL_PAGE 4 INVALID_PAGE_ID 3 INVALID_PAGE_ID
                       [(0, 1); (5, 2); (9, 4)]) →
        7 ≤ KeyAt (mkPage INTERNAL_PAGE 4 INVALID_PAGE_ID 3 INVALID_PAGE_ID
                     [(0, 1); (5, 2); (9, 4)]) j).
Proof.
  apply (Internal_LowerBound_first_ge _ (0, 1) [(5, 2); (9, 4)] 7); [reflexivity|].
  simpl. repeat constructor; lia.
Defined.

(** X9: on such a page, [Insert(key, value)] returns [false] and leaves
    the page as it is when a slot from 1 on has the key; otherwise it
    returns [true] and puts the pair between the slots with smaller keys
    and the slots with greater keys, slot 0 staying first. *)
Theorem Internal_Insert_in_order (p : Page) (a : Z * Z) (rest : list (Z * Z)) (key value : Z) :
  array_ p = a :: rest → StronglySorted Z.lt rest.*1 →
  (key ∈ rest.*1 ∧ Internal_Insert p key value = (p, false)) ∨
  (key ∉ rest.*1 ∧ ∃ l1 l2, rest = l1 ++ l2 ∧
     Forall (λ k, k < key) l1.*1 ∧ Forall (λ k, key < k) l2.*1 ∧
     Internal_Insert p key value = (set_array p (a :: l1 ++ (key, value) :: l2), true)).
Proof.
  intros Ha Hs. destruct (sorted_split _ key Hs) as (l1 & l2 & -> & H1 & H2).
  unfold Internal_Insert. rewrite (Internal_LowerBound_split p a l1 l2 key Ha H1 H2).
  rewrite comparator_eq. unfold GetSize.
  assert (Hnot1 : key ∉ l1.*1).
  { intros Hin. eapply Forall_forall in H1; [|done]. lia. }
  assert (Ha' : array_ p = (a :: l1) ++ l2) by done.
  change (S (length l1)) with (length (a :: l1)).
  destruct l2 as [|[k v] l2].
  - right. rewrite app_nil_r in *. split; [done|].
    exists l1, []. rewrite app_nil_r. split; [done|]. split; [done|]. split; [constructor|].
    rewrite Ha at 1. rewrite (proj2 (Z.ltb_ge _ _)) by lia. simpl andb. cbv iota.
    pose proof (insert_at_app (a :: l1) [] (key, value)) as Hins.
    rewrite app_nil_r in Hins. rewrite Ha, Hins. done.
  - rewrite (KeyAt_middle p (a :: l1) l2 k v Ha'). rewrite Ha' at 1.
    rewrite (proj2 (Z.ltb_lt _ _)) by (rewrite length_app; simpl; lia).
    simpl andb. destruct (Z.eqb_spec key k) as [->|Hne].
    + left. split; [|done]. rewrite fmap_app. apply elem_of_app. right. left.
    + right. simpl in H2. apply Forall_cons in H2 as [Hk H2].
      assert (Hs2 : StronglySorted Z.lt (((k, v) :: l2).*1)).
      { rewrite fmap_app in Hs. by apply StronglySorted_app in Hs as (_ & _ & Hs2). }
      simpl in Hs2. apply StronglySorted_inv in Hs2 as [_ Hall].
      assert (Hgt : Forall (λ k0, key < k0) (((k, v) :: l2).*1)).
      { simpl. constructor; [lia|]. eapply Forall_impl; [done|]. simpl. lia. }
      split.
      * rewrite fmap_app. intros Hin. apply elem_of_app in Hin as [Hin|Hin]; [done|].
        eapply Forall_forall in Hgt; [|done]. lia.
      * exists l1, ((k, v) :: l2). split; [done|]. split; [done|]. split; [done|].
        rewrite andb_false_r, Ha'. by rewrite insert_at_app.
Qed.

Lemma Internal_Insert_in_order_witness :
  (7 ∈ [(5, 2); (9, 4)].*1 ∧
   Internal_Insert (mkPage INTERNAL_PAGE 4 INVALID_PAGE_ID 3 INVALID_PAGE_ID
                      [(0, 1); (5, 2); (9, 4)]) 7 6
     = (mkPage INTERNAL_PAGE 4 INVALID_PAGE_ID 3 INVALID_PAGE_ID [(0, 1); (5, 2); (9, 4)],
        false)) ∨
  (7 ∉ [(5, 2); (9, 4)].*1 ∧ ∃ l1 l2, [(5, 2); (9, 4)] = l1 ++ l2 ∧
     Forall (λ k, k < 7) l1.*1 ∧ Forall (λ k, 7 < k) l2.*1 ∧
     Internal_Insert (mkPage INTERNAL_PAGE 4 INVALID_PAGE_ID 3 INVALID_PAGE_ID
                        [(0, 1); (5, 2); (9, 4)]) 7 6
       = (set_array (mkPage INTERNAL_PAGE 4 INVALID_PAGE_ID 3 INVALID_PAGE_ID
                       [(0, 1); (5, 2); (9, 4)])
            ((0, 1) :: l1 ++ (7, 6) :: l2), true)).
Proof.
  apply (Internal_Insert_in_order _ (0, 1) [(5, 2); (9, 4)] 7 6); [reflexivity|].
  simpl. repeat constructor; lia.
Defined.

(** X10: [Split] of a full internal page (size [GetMaxSize()], at least
    one slot) whose keys from slot 1 on increase strictly: the pairs of
    the page with the new pair put in key order are dealt out in order,
    the first [GetMinSize()] to the page and the others to the new page;
    nothing else of the two pages changes. *)
Theorem Internal_Split_deals (p new_page : Page) (a : Z * Z) (rest : list (Z * Z))
    (key value : Z) :
  array_ p = a :: rest → GetSize p = GetMaxSize p → StronglySorted Z.lt rest.*1 →
  ∃ l1 l2, rest = l1 ++ l2 ∧
    Forall (λ k, k < key) l1.*1 ∧ Forall (λ k, key ≤ k) l2.*1 ∧
    let '(p', new_page') := Internal_Split p new_page key value in
    array_ p' ++ array_ new_page' = a :: l1 ++ (key, value) :: l2 ∧
    GetSize p' = GetMinSize p ∧
    GetSize new_page' = GetMaxSize p + 1 - GetMinSize p ∧
    p' = set_array p (array_ p') ∧ new_page' = set_array new_page (array_ new_page').
Proof.
  intros Ha Hsz Hs. destruct (sorted_split _ key Hs) as (l1 & l2 & -> & H1 & H2).
  exists l1, l2. split; [done|]. split; [done|]. split; [done|].
  pose proof (Internal_LowerBound_split p a l1 l2 key Ha H1 H2) as Hlb.
  unfold Internal_Split. unfold GetSize in Hsz. rewrite <- Hsz, Nat2Z.id, firstn_all.
  unfold Internal_LowerBound, GetSize in Hlb. rewrite Hlb.
  assert (Ha' : array_ p = (a :: l1) ++ l2) by done.
  assert (Hvec : insert_at (Z.of_nat (S (length l1))) (key, value) (array_ p)
                 = (a :: l1) ++ (key, value) :: l2).
  { rewrite Ha'. apply (insert_at_app (a :: l1) l2). }
  rewrite Hvec.
  assert (Hmin : 0 ≤ GetMinSize p ≤ Z.of_nat (length (array_ p)) + 1).
  { assert (Hmax : max_size_ p = Z.of_nat (length (array_ p))).
    { unfold GetMaxSize in Hsz. lia. }
    unfold GetMinSize. rewrite Hmax.
    assert (1 ≤ Z.of_nat (length (array_ p))) by (rewrite Ha; simpl length; lia).
    destruct (IsLeafPage p); (split; [apply Z.div_pos; lia|apply Z.div_le_upper_bound; lia]). }
  assert (Hlen : length ((a :: l1) ++ (key, value) :: l2) = S (length (array_ p))).
  { rewrite Ha'. rewrite !length_app. simpl. lia. }
  simpl array_. rewrite take_drop. split; [done|].
  unfold GetSize at 1 2. cbn [array_ set_array]. rewrite length_take, length_drop, Hlen.
  repeat split; lia.
Qed.

Lemma Internal_Split_deals_witness :
  ∃ l1 l2, [(5, 2); (9, 4)] = l1 ++ l2 ∧
    Forall (λ k, k < 7) l1.*1 ∧ Forall (λ k, 7 ≤ k) l2.*1 ∧
    let '(p', new_page') :=
      Internal_Split (mkPage INTERNAL_PAGE 3 INVALID_PAGE_ID 3 INVALID_PAGE_ID
                        [(0, 1); (5, 2); (9, 4)])
                     (mkPage INTERNAL_PAGE 3 INVALID_PAGE_ID 8 INVALID_PAGE_ID []) 7 6 in
    array_ p' ++ array_ new_page' = (0, 1) :: l1 ++ (7, 6) :: l2 ∧
    GetSize p' = GetMinSize (mkPage INTERNAL_PAGE 3 INVALID_PAGE_ID 3 INVALID_PAGE_ID
                               [(0, 1); (5, 2); (9, 4)]) ∧
    GetSize new_page' =
      GetMaxSize (mkPage INTERNAL_PAGE 3 INVALID_PAGE_ID 3 INVALID_PAGE_ID
                    [(0, 1); (5, 2); (9, 4)]) + 1
      - GetMinSize (mkPage INTERNAL_PAGE 3 INVALID_PAGE_ID 3 INVALID_PAGE_ID
                      [(0, 1); (5, 2); (9, 4)]) ∧
    p' = set_array (mkPage INTERNAL_PAGE 3 INVALID_PAGE_ID 3 INVALID_PAGE_ID
                      [(0, 1); (5, 2); (9, 4)]) (array_ p') ∧
    new_page' = set_array (mkPage INTERNAL_PAGE 3 INVALID_PAGE_ID 8 INVALID_PAGE_ID [])
                  (array_ new_page').
Proof.
  apply (Internal_Split_deals _ _ (0, 1) [(5, 2); (9, 4)] 7 6); [reflexivity|reflexivity|].
  simpl. repeat constructor; lia.
Defined.

Lemma find_index_first (value : Z) (l : list (Z * Z)) : ∀ i,
  (value ∉ l.*2 → find_index value i l = -1) ∧
  (value ∈ l.*2 → ∃ l1 k l2, l = l1 ++ (k, value) :: l2 ∧ value ∉ l1.*2 ∧
                   find_index value i l = i + Z.of_nat (length l1)).
Proof.
  induction l as [|[k v] l IH]; intros i.
  { split; [done|]. by intros ?%elem_of_nil. }
  simpl. destruct (Z.eqb_spec v value) as [->|Hne].
  - split; [intros Hn; exfalso; apply Hn; left|].
    intros _. exists [], k, l. split; [done|]. split; [by intros ?%elem_of_nil|]. simpl. lia.
  - destruct (IH (i + 1)) as [IHn IHy]. split.
    + intros Hn. apply IHn. intros Hin. apply Hn. by right.
    + intros [Heq|Hin]%elem_of_cons; [done|].
      destruct (IHy Hin) as (l1 & k' & l2 & -> & Hn1 & Hf).
      exists ((k, v) :: l1), k', l2. split; [done|]. split.
      * simpl. by intros [?|?]%elem_of_cons.
      * rewrite Hf. simpl length. lia.
Qed.

(** X11: [FindIndex(value)] is [-1] when no slot of the page has the
    value, and otherwise the index of the first slot that has it. *)
Theorem FindIndex_first_slot (p : Page) (value : Z) :
  (value ∉ (array_ p).*2 → FindIndex p value = -1) ∧
  (value ∈ (array_ p).*2 →
     0 ≤ FindIndex p value < GetSize p ∧ ValueAt p (FindIndex p value) = value ∧
     ∀ j, 0 ≤ j < FindIndex p value → ValueAt p j ≠ value).
Proof.
  unfold FindIndex. destruct (find_index_first value (array_ p) 0) as [Hn Hy].
  split; [done|]. intros Hin.
  destruct (Hy Hin) as (l1 & k & l2 & Ha & Hn1 & ->). unfold GetSize, ValueAt.
  rewrite Ha, length_app. simpl length. split; [lia|]. split.
  - rewrite Z.add_0_l, Nat2Z.id, nth_middle. done.
  - intros j Hj Hv. apply Hn1. rewrite app_nth1 in Hv by lia.
    apply list_elem_of_fmap. exists (nth (Z.to_nat j) l1 (0, 0)). split; [done|].
    apply list_elem_of_In, nth_In. lia.
Qed.

End BPT.
